(* ===== verification/_CoqProject ===== *)
-Q . S2P
Prelude.v
Log.v
Wire.v
Proto.v
Float.v
ClockCache.v
Labels.v
MetricCache.v
SampleIter.v
Ingestor.v
SeriesIds.v
Inserter.v
Pipeline.v
QueryBuilder.v
LabelReader.v
SeriesSet.v
Reader.v
GoStrings.v
Migrate.v
Election.v
Client.v
Marshal.v
Api.v
WritePath.v
Remote.v
Shutdown.v
PromLabels.v
PromValue.v
Quantile.v
PromAst.v
Functions.v
VectorOps.v
Aggregation.v
Evaluator.v
Selectors.v
RangeEval.v
QueryPlan.v
QueryLog.v
Engine.v
Adapter.v
Main.v
