(* ===== verification/Prelude.v ===== *)
(** * Verification of timescale-prometheus

    The program stores Prometheus samples in TimescaleDB and answers queries from
    it.  A write request is decoded by an HTTP handler, checked against the leader
    election, grouped by metric and given to a pipeline of goroutines that resolve
    series ids and insert batches; a read request becomes SQL over label matchers,
    and its rows become series.  Queries of the Prometheus language are evaluated by an
    engine over these series; a delta may be computed by the database instead.  Caches
    sit in front of the database on both paths, and the schema is migrated at start.

    ** Files and the code they model

    - [Prelude]: errors, results with panics, machine integers, byte-string order,
      sorting as an interface ([GoSort]), sums over lists and maps.
    - [Log]: [src/pkg/log/log.go], the levels and what they let through.
    - [Wire], [Proto]: [remote.pb.go] and [types.pb.go] of [src/pkg/prompb].  [Wire] is the
      wire format, what the generated files repeat for every field; [Proto] has the
      messages of remote write and remote read with [Reset], [Size], [Marshal] and
      [Unmarshal].  A slice keeps what lies beyond its length, which a pooled request
      brings back.
    - [ClockCache]: [src/pkg/clockcache/cache.go].  A cache is its map, its slots,
      its capacity and the hand; the [used] marks set by concurrent readers during a
      sweep are the argument [conc].
    - [Labels]: [src/pkg/pgmodel/labels.go].  Canonical strings of label sets and
      the interner as a finite map.
    - [MetricCache]: [cache.go], the [MetricCache] interface of [sql_utils.go] as the
      class [MetricCacheOps] with [MetricCacheLaws], its instance over the CLOCK
      cache, and the two functions that ask the database for a table name.
    - [SampleIter], [Ingestor]: the iterator over a batch and [parseData], [Ingest] of
      [ingestor.go], [insert_ctx.go].
    - [SeriesIds], [Inserter], [Pipeline]: [sql_ingest.go].  [SeriesIds] is
      [setSeriesIds] with its batches; [Inserter] is one turn of an insert routine and
      one turn of a copier over a connection with the laws [ConnLaws]; [Pipeline] is
      the whole inserter: callers, a routine per metric behind a bounded channel, the
      copiers, and a scheduler [exec] that runs any one of them.  [Shutdown] is [Close],
      in steps that interleave with the goroutines, and the throughput report.
    - [QueryBuilder], [LabelReader], [SeriesSet], [Reader]: [query_builder.go],
      [sql_reader.go], [series_set.go], [querier.go].
    - [GoStrings], [Migrate]: [migrate.go] over a database with transactions
      ([MDBLaws]), with the string functions of the standard library it uses.
    - [Election]: [src/pkg/util/election.go], [lock.go] and [initElector] of
      [src/cmd/timescale-prometheus/main.go].  The [Election] interface is the class
      [ElectionOps] with [ElectionLaws]; both implementations are instances, the
      advisory lock over the documented laws of PostgreSQL's locks ([PgLockLaws]).
    - [Marshal]: [src/pkg/api/marshal.go], the JSON encoder, over bytes.
    - [Api]: the handlers of [src/pkg/api] with their status codes and counters, the
      throughput calculator of [src/pkg/util/util.go], and the guarded migration of the
      main program.
    - [WritePath]: the composition of [api.Write], [DBIngestor.Ingest] and [InsertData];
      the Go scheduler is the argument [pick].
    - [Remote]: [api.Write] and [api.Read] with [Proto] in the place of their decoding and
      encoding; here the messages, the write path and [Reader] meet.
    - [Client]: [src/pkg/pgclient/client.go], the client with its flags, its connection
      string and the cache of metric names the ingestor and the reader share, and
      [MaskPassword] of [src/pkg/util/util.go].
    - [Float], [PromLabels], [PromAst]: what the engine takes from Go and from the
      Prometheus library: binary64 numbers, label sets (class [PromLabels]), syntax trees
      and their walk (class [ParserLib]).
    - [PromValue]: [src/pkg/promql/value.go].  [Quantile], [Functions]: [quantile.go] and
      [functions.go], with the caches of [EvalNodeHelper].
    - [VectorOps], [Aggregation], [Evaluator], [QueryPlan], [Engine]: [engine.go].
      [VectorOps] is the binary operations, [Aggregation] is [aggregation], [Evaluator]
      is [eval] and what it calls, [QueryPlan] is [findMinTime] and [populateSeries],
      [Engine] is queries from their text to their result.  [Selectors] and [RangeEval]
      hold the theorems about the selectors and about the steps of an evaluation.
    - [QueryLog]: [query_logger.go], the instance of the class [QueryTracker] against
      which [Engine] is written.
    - [Adapter]: [src/pkg/query], the querier of the database as the storage the engine
      queries; here [Reader] and [Engine] meet.
    - [Main]: [src/cmd/timescale-prometheus/main.go]: the flags, the start with its exit
      codes, the multiplexers and the routes, and the steps of a server that runs, in
      which a request finds its handler through what the start has registered.

    ** What the theorems show

    - Pipeline: whatever the scheduling, no goroutine panics
      ([pipeline_never_panics]), a wait group counts exactly the unanswered requests
      ([wait_group_counts]), a call that returns without an error has a row
      for each of its samples in the database ([ack_means_stored]), under the id of its
      series there or, after a COMMIT that failed, under the id the lost transaction had
      answered, which the code keeps; and the goroutines make a bounded number of
      steps before every call is answered ([InsertData_returns]).  Closing it at rest
      ends every goroutine ([Close_ends_goroutines]); the throughput report counts every
      sample once ([report_counts_once]).
    - Write path: under any scheduler a call returns ([InsertNewData_returns]), and a 200
      of the leader's write handler, with synchronous acknowledgements, means that every
      sample of the request has its row in the same sense ([write_acks_stored]).
    - Messages: decoding ends without a panic on any bytes ([Unmarshal_total]), what is
      marshalled is the wire format ([Marshal_refines]) and comes back
      ([WriteRequest_roundtrip], [remote_read_roundtrip]), and a pooled request decodes
      like a new one ([pool_transparent]).
    - Over the wire: a 200 to a client means that the samples of the message it marshalled
      are in the database ([remote_write_stored]); a client that marshals a read request
      unmarshals the results of its queries ([remote_read_answers]).
    - CLOCK cache: the representation invariant holds in every reachable state
      ([reachable_inv]), insertion refines a finite map that loses at most the victim
      ([Insert_refines]), and lookups find what was inserted.
    - Labels, series ids, ingestion: the canonical string identifies a label set,
      interning and id assignment are sound, nothing is lost or invented between a
      request and the batches ([parseData_spec], [drain_complete], [setSeriesIds_sound]).
    - Queries: the generated clauses denote the matchers ([buildSubQueries_denotes]), a
      pattern as PostgreSQL reads it between the anchors the code puts around it,
      the delta pushdown is applied exactly when allowed, labels are fetched through the
      cache without mixing them up, iterators visit exactly the samples that are
      present, and time conversions are exact in their range.
    - Read path: the vector of an instant query holds what the rows of the database say
      ([instant_query_answers_rows]); reading leaves the pipeline as it is although both
      share a cache ([Read_keeps_pipeline]).
    - Migrations: a migration is one atomic run of a plan ([Migrate_refines]), of which a
      failed COMMIT leaves all or nothing, whose
      upgrade part is the files in the half-open version range in version order
      ([upgradeVersion_spec]); no placeholder is left in a script.
    - Election: two leaders of one group exist only over a dead session
      ([at_most_one_live_leader]); the liveness check against the interface.
    - API: the encoder writes the JSON document of its argument, escaped text reads
      back ([escape_roundtrip]), the write handler keeps its books ([Write_spec]), the
      range query reaches the engine only with accepted parameters ([queryRange_spec]).
    - Evaluation: the windows a range function keeps between steps are the windows looked
      up afresh ([eval_matrix_call_spec]); an instant selector finds the latest sample
      ([eval_VectorSelector_spec]); consuming the inputs step by step is looking them up
      at each step ([range_steps_spec]); every value of type scalar or vector that the
      evaluator computes has its points on the steps ([eval_aligned]).  Both count and bound the samples in memory.
    - Operations: matching, set operations, aggregation, histogram quantiles against
      references of their own, which say what is joined or grouped by labels, not hashes,
      and which values and labels the results have ([VectorBinop_spec],
      [set_operations_spec], [aggregation_groups], [topk_spec], [bucketQuantile_spec],
      [funcHistogramQuantile_spec]).
    - Planning: what is read lies inside the hints and the range of the querier
      ([hints_cover], [findMinTime_covers]); [populateSeries_spec] says which selector is
      selected with which hints.
    - Engine: the books of the engine balance however a query ends ([exec_books]), the
      results of instant and range queries ([exec_instant_spec], [exec_range_spec]), and
      the log of active queries read at the next start ([unfinished_queries_reported]).
    - Main program: it serves only after every step of its start succeeded
      ([main_serves]), otherwise it ends with the exit code of the step that failed
      ([main_fails]); every path is routed to its handler ([mux_routes]); an instance with
      REST election never writes, since no path of the tables it serves leads to the
      handler of the election ([rest_election_never_writes]), and the liveness check
      does not see requests ([liveness_ignores_requests]); the log does not show a
      password without quotes and white space ([mask_hides_password]).
    - Examples whose names are sentences ([failed_commit_is_cached],
      [liveness_race_blocks], [leader_check_error_acks], [getDBVersion_drops_rows_err],
      [close_while_pending], [mask_stops_at_a_quote], [submillisecond_step_fails],
      [minus_zero_lost], [negative_enum_misencoded], and
      others) run the model into behaviour the code does not intend.

    ** Parameters, bounds and fuel

    PostgreSQL, the SQL driver, semver, snappy, the Prometheus libraries, the
    decimal text of floats and the embedded files are arguments of the definitions;
    what is used of them is stated as laws in classes or records, and every property
    with such laws has a witness over a concrete instance.  Sorting is the class
    [GoSort], since the order of equal elements is unspecified.  Integers are [Z] with
    the wrap-around of int64 written out where the code can overflow; floats are
    abstract where they are only carried (on the wire with their bits, class [Float64])
    and [SpecFloat] where the code computes.
    Messages are shorter than the address space ([fits]); how [append] grows a slice is the
    argument [growth].
    Loops that are not structural take as fuel a bound the callers compute: the number
    of keys, rows or bytes left; [drive] takes the [weight] of the pipeline, which every
    step lowers.  The channel capacity, the flush size, the cache size
    and the number of connection attempts are those of the source.

    The engine's parameters are the heap of [container/heap] ([GoHeap]), the order in
    which a map is visited ([GoMapRange]), the buffered iterator of the storage
    ([BufferedIterator]), the parser, regular expressions, the text of floats, the
    transcendental functions and the answers of the context by the number of the poll.
    [eval] recurses on the tree, so that it ends for every query.  Floats are not fused.
    The staleness marker, one NaN among others in the code, is a constructor.
    Timestamps of the evaluator are milliseconds inside int64, and their conversions
    from nanoseconds wrap.  A slice of label names is a list; where the code appends to
    a slice it shares with the syntax tree, [shared_grouping] models the array behind it.

    The start of the program takes what [flag.Parse] calls [Set] with, what [envy] makes
    of the flags, and how the listener ends.  The router is a third-party package: of it is
    used that it calls, for a request, a handler that was registered for the method.
    A COMMIT may fail in every model; the laws say what the database then holds
    ([ConnLaws], [MDBLaws]).  One step of [Pipeline] is one turn of a goroutine, from what
    it receives to what it sends, so that two turns do not overlap.

    ** Not modelled

    Generated code that the program does not call (the gRPC admin service of
    [src/pkg/prompb] with its gateway, the chunked read messages), the embedded files, the
    registration of metrics,
    timers and tracing, the reuse of slices of points through the pool of the engine, the CORS headers, the SQL of the migrations, the PostgreSQL
    extension, the JSON methods of [value.go] that no handler uses, the test language of
    the engine ([src/pkg/promql/test.go]), and tests.  Series fetch their labels when they
    are read in the code; here the set is read when it is selected.  The program never
    closes its client, since [os.Exit] runs no deferred calls, so that [Shutdown] stands
    by itself. *)
From stdpp Require Export base tactics gmap strings list list_numbers fin_maps.
From stdpp Require Export sorting.
From Stdlib Require Export ZArith Lia Ascii.

(** ** Notation scope and hint databases *)

Declare Scope go_scope.
Delimit Scope go_scope with go.
Open Scope go_scope.

Create HintDb gosim.

(** ** Go errors

    The sentinel error values of the sources are constructors, so that the
    code's [err == ErrEntryNotFound] tests are decidable equality tests.
    [RuntimeError] is the value a Go run-time panic carries; [PgError] is an error
    of type [*pgconn.PgError] with its code and message;
    [Errorf] is any other error value, known by its text; [Wrapped] is an error
    wrapped with [%w]. *)

Inductive goerror :=
  | ErrEntryNotFound
  | ErrNoMetricName
  | errMissingTableName
  | errInvalidData
  | ErrQueryTimeout (env : string)
  | ErrQueryCanceled (env : string)
  | ErrTooManySamples (env : string)
  | ErrStorage (text : string)
  | RuntimeError (text : string)
  | PgError (code msg : string)
  | Errorf (msg : string)
  | Wrapped (msg : string) (inner : goerror).

#[global] Instance goerror_eq_dec : EqDecision goerror.
Proof. solve_decision. Defined.

(** ** Results of fallible code

    [Ok] is a normal return with a nil error, [Err] a return with a non-nil
    error, [Panic] a Go panic with its message. *)

Inductive res (A : Type) :=
  | Ok (a : A)
  | Err (e : goerror)
  | Panic (msg : string).
Arguments Ok {_} _.
Arguments Err {_} _.
Arguments Panic {_} _.

Definition res_bind {A B} (r : res A) (f : A → res B) : res B :=
  match r with
  | Ok a => f a
  | Err e => Err e
  | Panic m => Panic m
  end.

Notation "'let*' x ':=' c1 'in' c2" := (res_bind c1 (λ x, c2))
  (at level 200, x pattern, c1 at level 200, c2 at level 200) : go_scope.

Lemma res_bind_ok {A B} (r : res A) (f : A → res B) b :
  res_bind r f = Ok b → ∃ a, r = Ok a ∧ f a = Ok b.
Proof. destruct r; simpl; naive_solver. Qed.

(** [inv_res H] inverts every bind of a computation known to be [Ok]. *)
Ltac inv_res H :=
  repeat match type of H with
  | res_bind _ _ = Ok _ =>
      let a := fresh "a" in let Ha := fresh "Ha" in
      apply res_bind_ok in H as (a & Ha & H)
  end.

(** [case_if] splits on the scrutinee of the first conditional in the goal. *)
Ltac case_if :=
  match goal with
  | |- context [if ?b then _ else _] => destruct b eqn:?
  end.

(** ** Machine integers *)

Definition max_int64 : Z := 9223372036854775807.
Definition min_int64 : Z := -9223372036854775808.
Definition max_uint16 : Z := 65535.

(** Reduction of an exact integer to the value a Go [int64] holds. *)
Definition wrap64 (z : Z) : Z :=
  ((z + 9223372036854775808) mod 18446744073709551616 - 9223372036854775808)%Z.

Definition in_int64 (z : Z) : Prop := (min_int64 ≤ z ≤ max_int64)%Z.

Lemma wrap64_id z : in_int64 z → wrap64 z = z.
Proof.
  unfold in_int64, wrap64, min_int64, max_int64. intros H.
  rewrite Z.mod_small by lia. lia.
Qed.

Lemma wrap64_range z : in_int64 (wrap64 z).
Proof.
  unfold in_int64, wrap64, min_int64, max_int64.
  pose proof (Z.mod_pos_bound (z + 9223372036854775808) 18446744073709551616). lia.
Qed.

(** ** Byte strings: lexicographic order, as Go's [<] on strings *)

Definition str_lt (s t : string) : bool := String.ltb s t.

Lemma ascii_compare_trans_lt a b c :
  Ascii.compare a b = Lt → Ascii.compare b c = Lt → Ascii.compare a c = Lt.
Proof. unfold Ascii.compare. rewrite !N.compare_lt_iff. lia. Qed.

Lemma ascii_compare_refl a : Ascii.compare a a = Eq.
Proof. unfold Ascii.compare. apply N.compare_refl. Qed.

Lemma ascii_compare_eq a b : Ascii.compare a b = Eq → a = b.
Proof. apply Ascii.compare_eq_iff. Qed.

Lemma str_compare_refl s : String.compare s s = Eq.
Proof. induction s; simpl; [done|]. by rewrite ascii_compare_refl. Qed.

Lemma str_compare_eq s t : String.compare s t = Eq → s = t.
Proof. apply String.compare_eq_iff. Qed.

Lemma str_compare_trans s t u :
  String.compare s t = Lt → String.compare t u = Lt → String.compare s u = Lt.
Proof.
  revert t u. induction s as [|a s IH]; intros [|b t] [|c u]; simpl; try done.
  destruct (Ascii.compare a b) eqn:Hab; try done;
  destruct (Ascii.compare b c) eqn:Hbc; try done; intros H1 H2.
  - apply ascii_compare_eq in Hab as ->. rewrite Hbc. eauto.
  - apply ascii_compare_eq in Hab as ->. by rewrite Hbc.
  - apply ascii_compare_eq in Hbc as ->. by rewrite Hab.
  - by rewrite (ascii_compare_trans_lt _ _ _ Hab Hbc).
Qed.

Lemma str_lt_iff s t : str_lt s t = true ↔ String.compare s t = Lt.
Proof. unfold str_lt, String.ltb. by destruct (String.compare s t). Qed.

Lemma str_lt_irrefl s : str_lt s s = false.
Proof. unfold str_lt, String.ltb. by rewrite str_compare_refl. Qed.

Lemma str_lt_trans s t u :
  str_lt s t = true → str_lt t u = true → str_lt s u = true.
Proof. rewrite !str_lt_iff. apply str_compare_trans. Qed.

Lemma str_lt_total s t : str_lt s t = false → str_lt t s = false → s = t.
Proof.
  unfold str_lt, String.ltb. rewrite (String.compare_antisym t s).
  destruct (String.compare s t) eqn:E; simpl; try done.
  intros _ _. by apply str_compare_eq.
Qed.

Lemma string_app_cons a s t : (String a s ++ t)%string = String a (s ++ t).
Proof. reflexivity. Qed.

Lemma string_app_nil_l t : (EmptyString ++ t)%string = t.
Proof. reflexivity. Qed.

Lemma string_app_nil_r s : (s ++ EmptyString)%string = s.
Proof. induction s as [|a s IH]; [done|]. by rewrite string_app_cons, IH. Qed.

Lemma string_app_assoc s t u : ((s ++ t) ++ u)%string = (s ++ (t ++ u))%string.
Proof. induction s as [|a s IH]; [done|]. by rewrite !string_app_cons, IH. Qed.

Lemma string_length_app s t : String.length (s ++ t) = String.length s + String.length t.
Proof. induction s as [|a s IH]; [done|]. rewrite string_app_cons. simpl. by rewrite IH. Qed.

(** ** Sorting

    [sort.Slice], [sort.Sort] and [sort.Strings] are not stable: the order of
    elements that compare equal is unspecified.  The model is parametric in
    the sorting function, with what the package documents: the result is a
    permutation, and it is sorted when [less] is a strict weak order. *)

Class StrictWeak {A} (lt : A → A → bool) : Prop := {
  sw_irrefl : ∀ a, lt a a = false;
  sw_trans : ∀ a b c, lt a b = true → lt b c = true → lt a c = true;
  sw_incomp : ∀ a b c, lt a b = false → lt b c = false → lt a c = false;
}.

(** The same on the elements with [P]: what a sort needs of the slice it is given. *)
Class StrictWeakOn {A} (P : A → Prop) (lt : A → A → bool) : Prop := {
  swo_irrefl : ∀ a, P a → lt a a = false;
  swo_trans : ∀ a b c, P a → P b → P c → lt a b = true → lt b c = true → lt a c = true;
  swo_incomp : ∀ a b c, P a → P b → P c → lt a b = false → lt b c = false → lt a c = false;
}.

Class GoSort := {
  go_sort : ∀ {A : Type}, (A → A → bool) → list A → list A;
  go_sort_perm : ∀ {A} (lt : A → A → bool) l, go_sort lt l ≡ₚ l;
  go_sort_sorted_on : ∀ {A} (lt : A → A → bool) l, StrictWeakOn (λ a, a ∈ l) lt →
    StronglySorted (λ a b, lt b a = false) (go_sort lt l);
}.

Lemma strict_weak_on {A} (P : A → Prop) (lt : A → A → bool) : StrictWeak lt → StrictWeakOn P lt.
Proof. intros [H1 H2 H3]. split; eauto. Qed.

Lemma go_sort_sorted `{GoSort} {A} (lt : A → A → bool) l :
  StrictWeak lt → StronglySorted (λ a b, lt b a = false) (go_sort lt l).
Proof. intros Hsw. by apply go_sort_sorted_on, strict_weak_on. Qed.

(** [sort.SliceIsSorted]: no element is less than its predecessor. *)
Fixpoint is_sortedb {A} (lt : A → A → bool) (l : list A) : bool :=
  match l with
  | a :: ((b :: _) as l') => negb (lt b a) && is_sortedb lt l'
  | _ => true
  end.

#[global] Instance str_lt_strict_weak : StrictWeak str_lt.
Proof.
  split.
  - apply str_lt_irrefl.
  - apply str_lt_trans.
  - intros a b c Hab Hbc. destruct (str_lt a c) eqn:Hac; [|done].
    destruct (str_lt b a) eqn:Hba.
    + by rewrite (str_lt_trans _ _ _ Hba Hac) in Hbc.
    + rewrite (str_lt_total _ _ Hab Hba) in Hac. congruence.
Qed.

(** A strict weak order pulled back along a key function. *)
Lemma strict_weak_key {A B} (f : A → B) (lt : B → B → bool) :
  StrictWeak lt → StrictWeak (λ a b, lt (f a) (f b)).
Proof. intros [H1 H2 H3]. split; eauto. Qed.
#[export] Hint Resolve strict_weak_key : gosim.

Lemma is_sortedb_strongly {A} (lt : A → A → bool) l :
  StrictWeak lt → is_sortedb lt l = true →
  StronglySorted (λ a b, lt b a = false) l.
Proof.
  intros Hsw H. apply Sorted_StronglySorted.
  { intros a b c Hab Hbc. eapply sw_incomp; eauto. }
  induction l as [|a [|b l] IH]; [by repeat constructor..|].
  change (negb (lt b a) && is_sortedb lt (b :: l) = true) in H.
  apply andb_prop in H as [Hba H]. apply negb_true_iff in Hba.
  constructor; [by apply IH|by constructor].
Qed.

(** Insertion sort, as the sort package runs it on short slices. *)
Fixpoint sort_ins {A} (lt : A → A → bool) (x : A) (l : list A) : list A :=
  match l with
  | [] => [x]
  | y :: l' => if lt x y then x :: y :: l' else y :: sort_ins lt x l'
  end.

Definition insertion_sort {A} (lt : A → A → bool) (l : list A) : list A :=
  foldl (λ acc x, sort_ins lt x acc) [] l.

Lemma sort_ins_perm {A} (lt : A → A → bool) x l : sort_ins lt x l ≡ₚ x :: l.
Proof.
  induction l as [|y l IH]; simpl; [done|].
  case_if; [done|]. rewrite IH. apply Permutation_swap.
Qed.

Lemma sort_ins_sorted {A} (P : A → Prop) (lt : A → A → bool) x l :
  StrictWeakOn P lt → P x → Forall P l → StronglySorted (λ a b, lt b a = false) l →
  StronglySorted (λ a b, lt b a = false) (sort_ins lt x l).
Proof.
  intros Hsw Hx HP. induction 1 as [|y l Hl IH Hy]; simpl; [repeat constructor|].
  inversion HP as [|? ? HPy HPl]; subst. destruct (lt x y) eqn:Hxy.
  - assert (lt y x = false) as Hyx.
    { destruct (lt y x) eqn:E; [|done].
      pose proof (swo_trans (P:=P) _ _ _ Hx HPy Hx Hxy E) as Hc. by rewrite (swo_irrefl (P:=P)) in Hc. }
    constructor; [by constructor|]. constructor; [done|].
    rewrite Forall_forall in Hy, HPl |- *. intros z Hz. apply (swo_incomp (P:=P) z y x); auto.
  - constructor; [auto|]. rewrite Forall_forall in Hy |- *. intros z Hz.
    rewrite sort_ins_perm in Hz. apply elem_of_cons in Hz as [->|Hz]; eauto.
Qed.

Lemma insertion_sort_perm {A} (lt : A → A → bool) l : insertion_sort lt l ≡ₚ l.
Proof.
  unfold insertion_sort. rewrite <-(app_nil_r l) at 2. generalize (@nil A) as acc.
  induction l as [|x l IH]; intros acc; simpl; [done|].
  rewrite IH, sort_ins_perm. by rewrite Permutation_middle.
Qed.

Lemma insertion_sort_sorted {A} (lt : A → A → bool) l :
  StrictWeakOn (λ a, a ∈ l) lt → StronglySorted (λ a b, lt b a = false) (insertion_sort lt l).
Proof.
  set (P := λ a, a ∈ l). intros Hsw. unfold insertion_sort.
  assert (Forall P l) as Hl by (apply Forall_forall; auto). clearbody P.
  assert (StronglySorted (λ a b, lt b a = false) (@nil A)) as Hnil by constructor.
  assert (Forall P []) as HPnil by constructor.
  revert HPnil Hnil. generalize (@nil A) as acc.
  induction Hl as [|x l Hx Hl IH]; intros acc HPacc Hacc; simpl; [done|].
  apply IH; [by rewrite sort_ins_perm; constructor|]. by apply (sort_ins_sorted P).
Qed.

(** The instance the witnesses run. *)
#[export] Instance insertion_GoSort : GoSort | 100 := {
  go_sort := @insertion_sort;
  go_sort_perm := @insertion_sort_perm;
  go_sort_sorted_on := @insertion_sort_sorted;
}.

Lemma go_sort_length `{GoSort} {A} (lt : A → A → bool) l :
  length (go_sort lt l) = length l.
Proof. by rewrite go_sort_perm. Qed.

Lemma go_sort_elem_of `{GoSort} {A} (lt : A → A → bool) l x :
  x ∈ go_sort lt l ↔ x ∈ l.
Proof. by rewrite go_sort_perm. Qed.

#[export] Hint Rewrite @go_sort_length @go_sort_elem_of : gosim.

(** ** Lists *)

(** An in-place update that a projection does not see. *)
Lemma fmap_alter_same {A B} (f : A → B) (g : A → A) (l : list A) i :
  (∀ x, f (g x) = f x) → f <$> alter g i l = f <$> l.
Proof.
  intros Hfg. apply list_eq. intros j. rewrite !list_lookup_fmap, list_lookup_alter.
  case_decide; subst; [|done]. destruct (l !! j); simpl; congruence.
Qed.

Lemma foldl_app_acc {A B} (f : A → list B) (l : list A) (acc : list B) :
  foldl (λ acc x, acc ++ f x) acc l = acc ++ concat (f <$> l).
Proof.
  revert acc. induction l as [|x l IH]; intros acc; simpl; [by rewrite app_nil_r|].
  by rewrite IH, (assoc_L (++)).
Qed.

Definition sum_list_nat (l : list nat) : nat := foldr Nat.add 0 l.

Lemma sum_list_nat_app l k : sum_list_nat (l ++ k) = sum_list_nat l + sum_list_nat k.
Proof. induction l; simpl; [done|]. unfold sum_list_nat in *. simpl. lia. Qed.

Lemma sum_list_nat_perm l k : l ≡ₚ k → sum_list_nat l = sum_list_nat k.
Proof. induction 1; unfold sum_list_nat in *; simpl in *; lia. Qed.

Lemma sum_list_nat_lookup l i x :
  l !! i = Some x → sum_list_nat l = x + sum_list_nat (delete i l).
Proof.
  intros Hi. rewrite (delete_Permutation _ _ _ Hi) at 1. done.
Qed.

Lemma sum_fmap_update {A} (f : A → nat) (l : list A) i x y :
  l !! i = Some x → sum_list_nat (f <$> <[i := y]> l) + f x = sum_list_nat (f <$> l) + f y.
Proof.
  revert i. induction l as [|a l IH]; intros [|i] Hi; simplify_eq/=; [lia|].
  specialize (IH i Hi). unfold fmap in *. lia.
Qed.

Lemma sum_fmap_delete {A} (f : A → nat) (l : list A) i x :
  l !! i = Some x → sum_list_nat (f <$> l) = f x + sum_list_nat (f <$> delete i l).
Proof.
  revert i. induction l as [|a l IH]; intros [|i] Hi; simplify_eq/=; [done|].
  specialize (IH i Hi). unfold fmap in *. lia.
Qed.

Lemma sum_fmap_app {A} (f : A → nat) (l k : list A) :
  sum_list_nat (f <$> l ++ k) = sum_list_nat (f <$> l) + sum_list_nat (f <$> k).
Proof. by rewrite fmap_app, sum_list_nat_app. Qed.

Lemma sum_fmap_cons {A} (f : A → nat) a (l : list A) :
  sum_list_nat (f <$> a :: l) = f a + sum_list_nat (f <$> l).
Proof. reflexivity. Qed.

#[export] Instance sum_list_nat_proper : Proper ((≡ₚ) ==> (=)) sum_list_nat.
Proof. intros l k. apply sum_list_nat_perm. Qed.

(** ** Sums over a finite map *)

Section map_sum.
Context {K : Type} `{Countable K} {A : Type}.
Implicit Types (f : A → nat) (m : gmap K A).

Definition map_sum f m : nat := sum_list_nat ((λ p, f p.2) <$> map_to_list m).

Lemma map_sum_insert_delete f m k a :
  map_sum f (<[k := a]> m) = f a + map_sum f (delete k m).
Proof.
  unfold map_sum. rewrite <-insert_delete_eq.
  change (f a + sum_list_nat ?l) with (sum_list_nat (f a :: l)).
  apply sum_list_nat_perm. by rewrite map_to_list_insert by apply lookup_delete_eq.
Qed.

Lemma map_sum_lookup f m k a : m !! k = Some a → map_sum f m = f a + map_sum f (delete k m).
Proof. intros Hk. rewrite <-(insert_id _ _ _ Hk) at 1. apply map_sum_insert_delete. Qed.

Lemma map_sum_update f m k a b :
  m !! k = Some a → map_sum f (<[k := b]> m) + f a = map_sum f m + f b.
Proof. intros Hk. rewrite map_sum_insert_delete, (map_sum_lookup f m k a Hk). lia. Qed.

Lemma map_sum_insert f m k a : m !! k = None → map_sum f (<[k := a]> m) = f a + map_sum f m.
Proof. intros Hk. by rewrite map_sum_insert_delete, delete_id. Qed.

Lemma map_sum_zero f m : (∀ k a, m !! k = Some a → f a = 0) → map_sum f m = 0.
Proof.
  intros Hz. induction m as [|k a m Hk IH] using map_ind.
  { unfold map_sum. by rewrite map_to_list_empty. }
  rewrite map_sum_insert by done. rewrite (Hz k a) by apply lookup_insert_eq.
  apply IH. intros k' a' Hk'. apply (Hz k' a'). rewrite lookup_insert_ne; [done|]. congruence.
Qed.

Lemma map_sum_empty f : map_sum f ∅ = 0.
Proof. unfold map_sum. by rewrite map_to_list_empty. Qed.

End map_sum.

(** ** Ranging over a map

    The order in which [range] visits a Go map is unspecified. *)

Class GoMapRange := {
  map_range : ∀ {K A} `{Countable K}, gmap K A → list (K * A);
  map_range_perm : ∀ {K A} `{Countable K} (m : gmap K A), map_range m ≡ₚ map_to_list m;
}.

#[export] Instance list_GoMapRange : GoMapRange | 100 := {
  map_range K A _ _ := map_to_list;
  map_range_perm K A _ _ m := reflexivity (map_to_list m);
}.

Lemma elem_of_map_range `{GoMapRange} {K A} `{Countable K} (m : gmap K A) k a :
  (k, a) ∈ map_range m ↔ m !! k = Some a.
Proof. rewrite map_range_perm. apply elem_of_map_to_list. Qed.
