(* ===== verification/Log.v ===== *)
(** * The log

    [src/pkg/log/log.go]: the levels and what [Init] lets through.  The filter of the
    library lets a line through when its level is not below the given one. *)
From S2P Require Import Prelude.

Module Log.

Inductive level := LDebug | LInfo | LWarn | LError.

Definition severity (l : level) : nat :=
  match l with LDebug => 0 | LInfo => 1 | LWarn => 2 | LError => 3 end.

Definition parseLogLevel (logLevel : string) : goerror + level :=
  if bool_decide (logLevel = "debug") then inr LDebug
  else if bool_decide (logLevel = "info") then inr LInfo
  else if bool_decide (logLevel = "warn") then inr LWarn
  else if bool_decide (logLevel = "error") then inr LError
  else inl (Errorf "unrecognized log level %q").

(** What the process writes: standard output, or a line of the log with its key-value
    pairs. *)
Inductive line := Println (words : list string) | Logged (l : level) (keyvals : list string).

(** [Init]: the level, or the error that leaves the logger without output. *)
Definition Init (logger : option level) (logLevel : string) : option level * option goerror :=
  match parseLogLevel logLevel with
  | inl err => (logger, Some err)
  | inr min => (Some min, None)
  end.

(** [Debug], [Info], [Warn] and [Error]: [logger] drops everything before [Init], and afterwards what is below the level. *)
Definition log_at (logger : option level) (l : level) (keyvals : list string) : list line :=
  match logger with
  | Some min => if severity min <=? severity l then [Logged l keyvals] else []
  | None => []
  end.

(** [Fatal]: the line and the exit code. *)
Definition Fatal (logger : option level) (keyvals : list string) : list line * Z := (log_at logger LError keyvals, 1%Z).

End Log.
