(* ===== verification/Wire.v ===== *)
(** * The protobuf wire format

    What the generated files [src/pkg/prompb/remote.pb.go] and [types.pb.go] repeat for
    every message: reading variable-length integers, lengths and unknown fields from a
    slice by index, and writing a message backwards into a buffer of its size.  [Proto]
    puts these pieces together per message.

    A slice of bytes is a list of integers; an index is an [int], so that sums of an index
    and a length from the wire wrap around.  An access out of range is a panic. *)
From S2P Require Import Prelude.

#[local] Open Scope Z_scope.

Module Wire.

Notation bytes := (list Z).

Definition len {A} (l : list A) : Z := Z.of_nat (length l).

(** ** Errors *)

Definition ErrInvalidLength : goerror := Errorf "proto: negative length found during unmarshaling".
Definition ErrIntOverflow : goerror := Errorf "proto: integer overflow".
Definition ErrUnexpectedEndOfGroup : goerror := Errorf "proto: unexpected end of group".
Definition ErrUnexpectedEOF : goerror := Errorf "unexpected EOF".

(** ** Machine integers: conversions to [uint64] and [int32] *)

Definition wrapu64 (z : Z) : Z := z mod 2 ^ 64.
Definition int32 (z : Z) : Z := (z + 2 ^ 31) mod 2 ^ 32 - 2 ^ 31.

(** ** Slices *)

Definition byte_at (d : bytes) (i : Z) : res Z :=
  if (0 <=? i) then
    match d !! Z.to_nat i with Some b => Ok b | None => Panic "index out of range" end
  else Panic "index out of range".

(** [d[i:j]]. *)
Definition slice (d : bytes) (i j : Z) : res bytes :=
  if (0 <=? i) && (i <=? j) && (j <=? len d) then Ok (take (Z.to_nat (j - i)) (drop (Z.to_nat i) d))
  else Panic "slice bounds out of range".

Definition set_byte (d : bytes) (i b : Z) : res bytes :=
  if (0 <=? i) && (i <? len d) then Ok (<[Z.to_nat i := b]> d) else Panic "index out of range".

(** [copy(d[i:], bs)]. *)
Definition copy_at (d : bytes) (i : Z) (bs : bytes) : res bytes :=
  if (0 <=? i) && (i <=? len d) then
    Ok (take (Z.to_nat i) d ++ take (length d - Z.to_nat i) bs ++ drop (Z.to_nat i + length bs) d)
  else Panic "slice bounds out of range".

(** The bytes of a string, and [string(bs)]. *)
Definition bytes_of (s : string) : bytes := (λ c, Z.of_N (N_of_ascii c)) <$> String.list_ascii_of_string s.
Definition string_of (bs : bytes) : string := String.string_of_list_ascii ((λ b, ascii_of_N (Z.to_N b)) <$> bs).

(** [binary.LittleEndian]. *)
Fixpoint le_combine (bs : bytes) : Z :=
  match bs with
  | [] => 0
  | b :: bs => Z.lor b (Z.shiftl (le_combine bs) 8)
  end.
Fixpoint le_split (n : nat) (v : Z) : bytes :=
  match n with
  | O => []
  | S n => v mod 256 :: le_split n (Z.shiftr v 8)
  end.
Definition Uint64 (bs : bytes) : res Z :=
  if (8 <=? length bs)%nat then Ok (le_combine (take 8 bs)) else Panic "index out of range".
Definition PutUint64 (d : bytes) (i v : Z) : res bytes :=
  if (0 <=? i) && (i + 8 <=? len d) then copy_at d i (le_split 8 v) else Panic "index out of range".

(** ** Reading

    The loop over the bytes of an integer: ten turns, with the shifts 0, 7, ..., 63.
    [conv] is the conversion to the type of the variable, which shifts in that type.
    The result is the value and the index behind it. *)
Fixpoint varint_loop (conv : Z → Z) (turns : nat) (d : bytes) (iNdEx shift acc : Z) : res (Z * Z) :=
  match turns with
  | O => Err ErrIntOverflow
  | S turns =>
      if len d <=? iNdEx then Err ErrUnexpectedEOF
      else
        let* b := byte_at d iNdEx in
        let acc := Z.lor acc (conv (Z.shiftl (Z.land b 127) shift)) in
        if b <? 128 then Ok (acc, iNdEx + 1)
        else varint_loop conv turns d (iNdEx + 1) (shift + 7) acc
  end.

Definition varint (conv : Z → Z) (d : bytes) (iNdEx : Z) : res (Z * Z) := varint_loop conv 10 d iNdEx 0 0.

(** [skipRemote] and [skipTypes], which are the same: the end of the field that starts the
    slice, with the groups it opens.  Fuel: every turn reads a byte. *)
Fixpoint skip_loop (fuel : nat) (d : bytes) (iNdEx depth : Z) : res Z :=
  match fuel with
  | O => Panic "out of fuel"
  | S fuel =>
      if iNdEx <? len d then
        let* (wire, iNdEx) := varint wrapu64 d iNdEx in
        let* (iNdEx, depth) :=
          match Z.land wire 7 with
          | 0 => let* (_, iNdEx) := varint (λ _, 0) d iNdEx in Ok (iNdEx, depth)
          | 1 => Ok (wrap64 (iNdEx + 8), depth)
          | 2 =>
              let* (length, iNdEx) := varint wrap64 d iNdEx in
              if length <? 0 then Err ErrInvalidLength else Ok (wrap64 (iNdEx + length), depth)
          | 3 => Ok (iNdEx, depth + 1)
          | 4 => if depth =? 0 then Err ErrUnexpectedEndOfGroup else Ok (iNdEx, depth - 1)
          | 5 => Ok (wrap64 (iNdEx + 4), depth)
          | _ => Err (Errorf "proto: illegal wireType %d")
          end in
        if iNdEx <? 0 then Err ErrInvalidLength
        else if depth =? 0 then Ok iNdEx
        else skip_loop fuel d iNdEx depth
      else Err ErrUnexpectedEOF
  end.

Definition skip (d : bytes) : res Z := skip_loop (S (length d)) d 0 0.

(** The end of a length-delimited field; [conv] is [wrapu64] for a string and [wrap64]
    for a message. *)
Definition length_delimited (conv : Z → Z) (d : bytes) (iNdEx : Z) : res (Z * Z) :=
  let* (n, iNdEx) := varint conv d iNdEx in
  let n := wrap64 n in
  if n <? 0 then Err ErrInvalidLength
  else
    let postIndex := wrap64 (iNdEx + n) in
    if postIndex <? 0 then Err ErrInvalidLength
    else if len d <? postIndex then Err ErrUnexpectedEOF
    else Ok (iNdEx, postIndex).

Definition string_field (d : bytes) (iNdEx : Z) : res (string * Z) :=
  let* (iNdEx, postIndex) := length_delimited wrapu64 d iNdEx in
  let* bs := slice d iNdEx postIndex in
  Ok (string_of bs, postIndex).

Definition int64_field (d : bytes) (iNdEx : Z) : res (Z * Z) := varint wrap64 d iNdEx.
Definition enum_field (d : bytes) (iNdEx : Z) : res (Z * Z) := varint int32 d iNdEx.
Definition bool_field (d : bytes) (iNdEx : Z) : res (bool * Z) :=
  let* (v, iNdEx) := varint wrap64 d iNdEx in Ok (negb (v =? 0), iNdEx).

Definition fixed64_field (d : bytes) (iNdEx : Z) : res (Z * Z) :=
  if len d <? wrap64 (iNdEx + 8) then Err ErrUnexpectedEOF
  else
    let* bs := slice d iNdEx (len d) in
    let* v := Uint64 bs in
    Ok (v, wrap64 (iNdEx + 8)).

Definition message_field {M} (Unmarshal : M → bytes → res M) (m : M) (d : bytes) (iNdEx : Z) : res (M * Z) :=
  let* (iNdEx, postIndex) := length_delimited wrap64 d iNdEx in
  let* bs := slice d iNdEx postIndex in
  let* m := Unmarshal m bs in
  Ok (m, postIndex).

(** A field whose wire type is fixed. *)
Definition typed {A} (field : string) (want wireType : Z) (r : res A) : res A :=
  if wireType =? want then r
  else Err (Errorf ("proto: wrong wireType = %d for field " ++ field)%string).

(** The loop of [Unmarshal].  [field] is the [switch] on the field number; [None] is its
    default, which keeps the bytes of the field.  An error drops the message, as every
    caller does. *)
Section unmarshal.
Context {M : Type} (name : string).
Context (field : M → Z → Z → bytes → Z → option (res (M * Z))).
Context (unrecognized : M → bytes → M).

Fixpoint unmarshal_loop (fuel : nat) (d : bytes) (iNdEx : Z) (m : M) : res M :=
  match fuel with
  | O => Panic "out of fuel"
  | S fuel =>
      if iNdEx <? len d then
        let* (wire, i) := varint wrapu64 d iNdEx in
        let fieldNum := int32 (Z.shiftr wire 3) in
        let wireType := Z.land wire 7 in
        if wireType =? 4 then Err (Errorf ("proto: " ++ name ++ ": wiretype end group for non-group")%string)
        else if fieldNum <=? 0 then Err (Errorf ("proto: " ++ name ++ ": illegal tag %d (wire type %d)")%string)
        else
          match field m fieldNum wireType d i with
          | Some r => let* (m, i) := r in unmarshal_loop fuel d i m
          | None =>
              let* rest := slice d iNdEx (len d) in
              let* skippy := skip rest in
              if skippy <? 0 then Err ErrInvalidLength
              else
                let postIndex := wrap64 (iNdEx + skippy) in
                if postIndex <? 0 then Err ErrInvalidLength
                else if len d <? postIndex then Err ErrUnexpectedEOF
                else
                  let* bs := slice d iNdEx postIndex in
                  unmarshal_loop fuel d postIndex (unrecognized m bs)
          end
      else if len d <? iNdEx then Err ErrUnexpectedEOF
      else Ok m
  end.

(** Fuel: every turn reads a byte, and one more ends the loop. *)
Definition Unmarshal_with (m : M) (d : bytes) : res M := unmarshal_loop (S (length d)) d 0 m.

End unmarshal.

(** ** Writing

    A buffer and the index from which it is filled.  A piece is written in front of what
    is there. *)
Definition buf : Type := bytes * Z.
Definition emit : Type := buf → res buf.

Definition nothing : emit := λ b, Ok b.
Definition andthen (e1 e2 : emit) : emit := λ b, let* b := e1 b in e2 b.
Infix "+>" := andthen (at level 60, right associativity) : go_scope.

(** [sovRemote] and [sovTypes]; [bits.Len64]. *)
Definition Len64 (x : Z) : Z := if x =? 0 then 0 else Z.log2 x + 1.
Definition sov (x : Z) : Z := (Len64 (Z.lor x 1) + 6) / 7.

(** [encodeVarintRemote] and [encodeVarintTypes].  Fuel: a [uint64] has ten groups. *)
Fixpoint put_groups (fuel : nat) (v : Z) (d : bytes) (offset : Z) : res bytes :=
  match fuel with
  | O => Panic "out of fuel"
  | S fuel =>
      if 128 <=? v then
        let* d := set_byte d offset (Z.lor (Z.land v 127) 128) in
        put_groups fuel (Z.shiftr v 7) d (offset + 1)
      else set_byte d offset v
  end.

Definition encodeVarint (v : Z) : emit := λ '(d, offset),
  let offset := offset - sov v in
  let* d := put_groups 10 v d offset in
  Ok (d, offset).

Definition put_byte (b : Z) : emit := λ '(d, i), let* d := set_byte d (i - 1) b in Ok (d, i - 1).
Definition put_bytes (bs : bytes) : emit := λ '(d, i), let* d := copy_at d (i - len bs) bs in Ok (d, i - len bs).
Definition put_fixed64 (v : Z) : emit := λ '(d, i), let* d := PutUint64 d (i - 8) v in Ok (d, i - 8).

(** The fields, with the byte of their tag. *)
Definition put_string (tag : Z) (s : string) : emit :=
  put_bytes (bytes_of s) +> encodeVarint (wrapu64 (len (bytes_of s))) +> put_byte tag.
Definition put_varint (tag v : Z) : emit := encodeVarint (wrapu64 v) +> put_byte tag.
Definition put_message (tag : Z) (MarshalToSizedBuffer : bytes → res (bytes * Z)) : emit := λ '(d, i),
  let* front := slice d 0 i in
  let* (front, size) := MarshalToSizedBuffer front in
  (encodeVarint (wrapu64 size) +> put_byte tag) (front ++ drop (Z.to_nat i) d, i - size).

Definition when (b : bool) (e : emit) : emit := if b then e else nothing.

(** The loop over the elements of a field, from the last to the first. *)
Fixpoint put_all {A} (put : A → emit) (l : list A) : emit :=
  match l with
  | [] => nothing
  | a :: l => put_all put l +> put a
  end.

(** [MarshalToSizedBuffer], for what it writes. *)
Definition sized (e : emit) (d : bytes) : res (bytes * Z) :=
  let* (d, i) := e (d, len d) in Ok (d, len d - i).

(** [Marshal]. *)
Definition marshal (size : Z) (MarshalToSizedBuffer : bytes → res (bytes * Z)) : res bytes :=
  if size <? 0 then Panic "makeslice: len out of range"
  else
    let* (d, n) := MarshalToSizedBuffer (replicate (Z.to_nat size) 0) in
    slice d 0 n.

(** ** Lemmas: slices

    [bs] stands at the index [i] of [d]. *)

Definition at_ (d : bytes) (i : Z) (bs : bytes) : Prop := 0 ≤ i ∧ bs `prefix_of` drop (Z.to_nat i) d.

Lemma len_nonneg {A} (l : list A) : 0 ≤ len l.
Proof. unfold len. lia. Qed.
Lemma len_app {A} (l k : list A) : len (l ++ k) = len l + len k.
Proof. unfold len. rewrite length_app. lia. Qed.
Lemma len_cons {A} (a : A) l : len (a :: l) = 1 + len l.
Proof. unfold len. simpl. lia. Qed.
Lemma len_nil {A} : len (@nil A) = 0.
Proof. done. Qed.

Lemma at_nil d i : 0 ≤ i → at_ d i [].
Proof. intros Hi. split; [done|apply prefix_nil]. Qed.

Lemma at_full d : at_ d 0 d.
Proof. split; [done|]. by rewrite drop_0. Qed.

Lemma at_app d i a b : at_ d i (a ++ b) → at_ d i a ∧ at_ d (i + len a) b.
Proof.
  intros [Hi [rest Hr]]. rewrite <-(assoc_L (++)) in Hr. split; (split; [unfold len; lia|]).
  - rewrite Hr. by apply prefix_app_r.
  - unfold len. rewrite Z2Nat.inj_add, Nat2Z.id, <-drop_drop, Hr, drop_app_length by lia. by exists rest.
Qed.

Lemma at_end d i bs : at_ d i bs → bs ≠ [] → i + len bs ≤ len d.
Proof.
  intros [Hi Hp%prefix_length] Hne. rewrite length_drop in Hp. unfold len.
  destruct bs; [done|]. simpl in *. lia.
Qed.

Lemma at_slice d i bs : at_ d i bs → i + len bs ≤ len d → slice d i (i + len bs) = Ok bs.
Proof.
  intros [Hi [rest Hr]] Hl. unfold slice. pose proof (len_nonneg bs).
  assert (i + len bs <=? len d = true) as -> by lia. assert (0 <=? i = true) as -> by lia.
  assert (i <=? i + len bs = true) as -> by lia. simpl. rewrite Hr. f_equal.
  replace (Z.to_nat (i + len bs - i)) with (length bs) by (unfold len; lia). by rewrite take_app_length.
Qed.

Lemma at_byte d i b bs : at_ d i (b :: bs) → byte_at d i = Ok b ∧ i < len d ∧ at_ d (i + 1) bs.
Proof.
  intros Ha. pose proof (at_end _ _ _ Ha ltac:(done)) as He. rewrite len_cons in He. pose proof (len_nonneg bs).
  apply (at_app d i [b]) in Ha as [[Hi [rest Hr]] Ha]. split_and!; [|lia|done].
  unfold byte_at. assert (0 <=? i = true) as -> by lia.
  assert (d !! Z.to_nat i = Some b) as ->; [|done].
  pose proof (lookup_drop d (Z.to_nat i) 0) as Hl. rewrite Nat.add_0_r in Hl. by rewrite <-Hl, Hr.
Qed.

(** ** Lemmas: integers *)

(** A conversion keeps some bits and repeats the highest of them: it distributes over a
    disjunction. *)
Record bitwise (conv : Z → Z) : Prop := {
  conv_0 : conv 0 = 0;
  conv_lor : ∀ a b, conv (Z.lor a b) = Z.lor (conv a) (conv b);
}.

Lemma bitwise_wrapu64 : bitwise wrapu64.
Proof. split; [done|]. intros a b. unfold wrapu64. by rewrite <-!Z.land_ones, Z.land_lor_distr_l by lia. Qed.

Definition signed (w z : Z) : Z := (z + 2 ^ (w - 1)) mod 2 ^ w - 2 ^ (w - 1).

Lemma signed_spec w z : 1 ≤ w → - 2 ^ (w - 1) ≤ signed w z < 2 ^ (w - 1) ∧ signed w z mod 2 ^ w = z mod 2 ^ w.
Proof.
  intros Hw. unfold signed. assert (2 ^ w = 2 * 2 ^ (w - 1)) as E.
  { rewrite <-Z.pow_succ_r by lia. f_equal. lia. }
  pose proof (Z.pow_pos_nonneg 2 (w - 1) ltac:(lia) ltac:(lia)).
  pose proof (Z.mod_pos_bound (z + 2 ^ (w - 1)) (2 ^ w) ltac:(lia)). split; [lia|].
  rewrite Zminus_mod_idemp_l. f_equal. lia.
Qed.

Lemma signed_unique w a b : 1 ≤ w → - 2 ^ (w - 1) ≤ a < 2 ^ (w - 1) → a mod 2 ^ w = b mod 2 ^ w → signed w b = a.
Proof.
  intros Hw Ha Hm. unfold signed. rewrite <-Zplus_mod_idemp_l, <-Hm, Zplus_mod_idemp_l.
  assert (2 ^ w = 2 * 2 ^ (w - 1)) as E. { rewrite <-Z.pow_succ_r by lia. f_equal. lia. }
  rewrite Z.mod_small by lia. lia.
Qed.

Lemma testbit_signed w z k : 1 ≤ w → 0 ≤ k → Z.testbit (signed w z) k = Z.testbit z (Z.min k (w - 1)).
Proof.
  intros Hw Hk. destruct (signed_spec w z Hw) as [Hr Hm].
  assert (∀ j, 0 ≤ j < w → Z.testbit (signed w z) j = Z.testbit z j) as Hlow.
  { intros j Hj. by rewrite <-(Z.mod_pow2_bits_low (signed w z) w), Hm, Z.mod_pow2_bits_low by lia. }
  destruct (Z.lt_ge_cases k w); [rewrite Z.min_l by lia; apply Hlow; lia|].
  rewrite Z.min_r, <-Hlow by lia.
  assert (∀ j, w - 1 ≤ j → Z.testbit (signed w z) j = (signed w z <? 0)) as Hhigh; [|by rewrite !Hhigh by lia].
  intros j Hj. assert (2 ^ (w - 1) ≤ 2 ^ j) by (apply Z.pow_le_mono_r; lia).
  destruct (Z.ltb_spec (signed w z) 0).
  - rewrite <-(Z.lnot_involutive (signed w z)), Z.lnot_spec by lia.
    apply negb_true_iff, Z.testbit_false; [lia|]. rewrite Z.div_small; [done|]. unfold Z.lnot. lia.
  - apply Z.testbit_false; [lia|]. rewrite Z.div_small; [done|]. lia.
Qed.

Lemma bitwise_signed w : 1 ≤ w → bitwise (signed w).
Proof.
  intros Hw. split.
  - apply signed_unique; [done|..|done]. pose proof (Z.pow_pos_nonneg 2 (w - 1) ltac:(lia) ltac:(lia)). lia.
  - intros a b. apply Z.bits_inj'. intros k Hk. by rewrite Z.lor_spec, !testbit_signed, Z.lor_spec by lia.
Qed.

Lemma bitwise_wrap64 : bitwise wrap64.
Proof. exact (bitwise_signed 64 ltac:(lia)). Qed.
Lemma bitwise_int32 : bitwise int32.
Proof. exact (bitwise_signed 32 ltac:(lia)). Qed.

Lemma wrapu64_range z : 0 ≤ wrapu64 z < 2 ^ 64.
Proof. apply Z.mod_pos_bound. lia. Qed.
Lemma wrapu64_id z : 0 ≤ z < 2 ^ 64 → wrapu64 z = z.
Proof. apply Z.mod_small. Qed.
Lemma wrap64_wrapu64 z : in_int64 z → wrap64 (wrapu64 z) = z.
Proof.
  intros Hz. apply (signed_unique 64); [lia|unfold in_int64, min_int64, max_int64 in Hz; simpl; lia|].
  unfold wrapu64. by rewrite Z.mod_mod by lia.
Qed.
Lemma int32_wrapu64 z : - 2 ^ 31 ≤ z < 2 ^ 31 → int32 (wrapu64 z) = z.
Proof.
  intros Hz. apply (signed_unique 32); [lia|simpl; lia|]. unfold wrapu64. symmetry. apply Z.mod_mod_divide.
  exists (2 ^ 32). done.
Qed.

(** ** Lemmas: the bytes of an integer *)

(** The base-128 groups of [v], lowest first, every one but the last marked. *)
Fixpoint groups (n : nat) (v : Z) : bytes :=
  match n with
  | O => []
  | S n => if 128 <=? v then Z.lor (Z.land v 127) 128 :: groups n (Z.shiftr v 7) else [v]
  end.
Definition uvarint (v : Z) : bytes := groups 10 v.

Lemma land_127 v : Z.land v 127 = v mod 128.
Proof. exact (Z.land_ones v 7 ltac:(lia)). Qed.

Lemma group_byte v : Z.lor (Z.land v 127) 128 = v mod 128 + 128.
Proof.
  rewrite land_127. pose proof (Z.mod_pos_bound v 128 ltac:(lia)).
  symmetry. apply Z.add_nocarry_lor. apply Z.bits_inj'. intros k Hk. rewrite Z.land_spec, Z.bits_0.
  destruct (Z.eq_dec k 7) as [->|Hne].
  - apply andb_false_intro1, Z.testbit_false; [lia|]. by rewrite Z.div_small by lia.
  - apply andb_false_intro2. change 128 with (2 ^ 7). apply Z.pow2_bits_false. lia.
Qed.

Lemma groups_split v s : 0 ≤ s →
  Z.lor (Z.shiftl (Z.land v 127) s) (Z.shiftl (Z.shiftr v 7) (s + 7)) = Z.shiftl v s.
Proof.
  intros Hs. apply Z.bits_inj'. intros k Hk. rewrite Z.lor_spec, !Z.shiftl_spec by lia.
  destruct (Z.lt_ge_cases k s); [by rewrite !(Z.testbit_neg_r _ _) by lia|].
  change 127 with (Z.ones 7). rewrite Z.land_spec. destruct (Z.lt_ge_cases (k - s) 7).
  - rewrite Z.ones_spec_low, (Z.testbit_neg_r _ (k - (s + 7))), andb_true_r, orb_false_r by lia. done.
  - rewrite Z.ones_spec_high, andb_false_r, Z.shiftr_spec by lia. simpl. f_equal. lia.
Qed.

Lemma shiftr_7 v : Z.shiftr v 7 = v / 128.
Proof. by rewrite Z.shiftr_div_pow2 by lia. Qed.

Lemma groups_next (n : nat) v : 128 ≤ v < 2 ^ (7 * Z.of_nat (S n)) →
  0 ≤ Z.shiftr v 7 < 2 ^ (7 * Z.of_nat n) ∧ (0 < n)%nat ∧ Z.shiftr v 7 ≠ 0.
Proof.
  rewrite shiftr_7. intros Hv.
  assert (2 ^ (7 * Z.of_nat (S n)) = 128 * 2 ^ (7 * Z.of_nat n)) as E.
  { replace (7 * Z.of_nat (S n)) with (7 + 7 * Z.of_nat n) by lia. by rewrite Z.pow_add_r by lia. }
  assert (1 ≤ v / 128) by (apply Z.div_le_lower_bound; lia).
  assert (v / 128 < 2 ^ (7 * Z.of_nat n)) by (apply Z.div_lt_upper_bound; lia).
  split_and!; [lia|lia| |lia]. destruct n; [simpl in *; lia|lia].
Qed.

Lemma varint_loop_read conv n v d i shift acc :
  bitwise conv → 0 ≤ v < 2 ^ (7 * Z.of_nat n) → (0 < n)%nat → 0 ≤ shift → at_ d i (groups n v) →
  varint_loop conv n d i shift acc = Ok (Z.lor acc (conv (Z.shiftl v shift)), i + len (groups n v)).
Proof.
  intros Hc. revert v i shift acc. induction n as [|n IH]; intros v i shift acc Hv Hn Hs Hat; [lia|].
  cbn [varint_loop groups] in *. destruct (Z.leb_spec 128 v) as [Hge|Hlt].
  - destruct (groups_next n v ltac:(lia)) as (Hv' & Hn' & _).
    destruct (at_byte _ _ _ _ Hat) as (Hb & Hl & Hat'). rewrite Hb.
    destruct (Z.leb_spec (len d) i); [lia|]. cbn [res_bind]. rewrite group_byte.
    pose proof (Z.mod_pos_bound v 128 ltac:(lia)).
    destruct (Z.ltb_spec (v mod 128 + 128) 128); [lia|].
    rewrite (IH (Z.shiftr v 7)) by (done || lia). rewrite len_cons. f_equal. f_equal; [|lia].
    rewrite <-Z.lor_assoc, <-(conv_lor _ Hc). f_equal. f_equal.
    rewrite <-(groups_split v shift) by lia. f_equal. f_equal.
    rewrite !land_127. rewrite <-Zplus_mod_idemp_r, Z.mod_same, Z.add_0_r, Z.mod_mod by lia. done.
  - destruct (at_byte _ _ _ _ Hat) as (Hb & Hl & _). rewrite Hb.
    destruct (Z.leb_spec (len d) i); [lia|]. cbn [res_bind]. destruct (Z.ltb_spec v 128); [|lia].
    rewrite land_127, Z.mod_small by lia. done.
Qed.

Lemma varint_read conv v d i :
  bitwise conv → 0 ≤ v < 2 ^ 64 → at_ d i (uvarint v) → varint conv d i = Ok (conv v, i + len (uvarint v)).
Proof.
  intros Hc Hv Hat. unfold varint. rewrite (varint_loop_read conv 10 v); [|done|simpl; lia|lia|lia|done].
  by rewrite Z.lor_0_l, Z.shiftl_0_r.
Qed.

(** *** Its length *)

Lemma Len64_lor v : 0 ≤ v → Len64 (Z.lor v 1) = Z.max 1 (Len64 v).
Proof.
  intros Hv. unfold Len64. destruct (Z.eqb_spec v 0) as [->|Hne]; [done|].
  assert (Z.lor v 1 ≠ 0) as Hl by (rewrite Z.lor_eq_0_iff; lia).
  destruct (Z.eqb_spec (Z.lor v 1) 0); [done|]. rewrite Z.log2_lor by lia.
  pose proof (Z.log2_nonneg v). change (Z.log2 1) with 0. lia.
Qed.

Lemma sov_small v : 0 ≤ v < 128 → sov v = 1.
Proof.
  intros Hv. unfold sov. rewrite Len64_lor by lia. unfold Len64.
  destruct (Z.eqb_spec v 0); [done|]. assert (Z.log2 v < 7) by (apply Z.log2_lt_pow2; simpl; lia).
  pose proof (Z.log2_nonneg v). symmetry. apply (Z.div_unique _ _ _ (Z.log2 v)); lia.
Qed.

Lemma sov_next v : 128 ≤ v → sov v = 1 + sov (Z.shiftr v 7).
Proof.
  intros Hv. unfold sov. assert (1 ≤ Z.shiftr v 7) by (rewrite shiftr_7; apply Z.div_le_lower_bound; lia).
  rewrite !Len64_lor by lia. unfold Len64. destruct (Z.eqb_spec v 0); [lia|]. destruct (Z.eqb_spec (Z.shiftr v 7) 0); [lia|].
  rewrite Z.log2_shiftr by lia. assert (7 ≤ Z.log2 v) by (apply Z.log2_le_pow2; simpl; lia).
  rewrite !Z.max_r by lia. replace (Z.log2 v + 1 + 6) with (Z.log2 v - 7 + 1 + 6 + 1 * 7) by lia.
  rewrite Z.div_add by lia. lia.
Qed.

Lemma groups_len n v : 0 ≤ v < 2 ^ (7 * Z.of_nat n) → (0 < n)%nat → len (groups n v) = sov v.
Proof.
  revert v. induction n as [|n IH]; intros v Hv Hn; [lia|]. cbn [groups].
  destruct (Z.leb_spec 128 v) as [Hge|Hlt].
  - destruct (groups_next n v ltac:(lia)) as (Hv' & Hn' & _). rewrite len_cons, sov_next by lia. rewrite IH by done. done.
  - by rewrite sov_small by lia.
Qed.

Lemma uvarint_len v : 0 ≤ v < 2 ^ 64 → len (uvarint v) = sov v.
Proof. intros Hv. apply groups_len; [simpl; lia|lia]. Qed.

Lemma sov_pos v : 0 ≤ v → 1 ≤ sov v.
Proof.
  intros Hv. unfold sov. rewrite Len64_lor by lia. apply Z.div_le_lower_bound; lia.
Qed.

Lemma uvarint_not_nil v : uvarint v ≠ [].
Proof. unfold uvarint. cbn [groups]. by case_if. Qed.

(** ** Reading is safe

    [safe P r]: no panic, and a result that satisfies [P]. *)

Definition safe {A} (P : A → Prop) (r : res A) : Prop :=
  match r with Ok a => P a | Err _ => True | Panic _ => False end.

Lemma safe_bind {A B} (Q : A → Prop) (P : B → Prop) r (f : A → res B) :
  safe Q r → (∀ a, Q a → safe P (f a)) → safe P (res_bind r f).
Proof. destruct r; simpl; auto. Qed.

Lemma safe_mono {A} (P Q : A → Prop) r : safe P r → (∀ a, P a → Q a) → safe Q r.
Proof. destruct r; simpl; auto. Qed.

Lemma wrap64_sum a b : 0 ≤ a ≤ max_int64 → 0 ≤ b ≤ max_int64 →
  wrap64 (a + b) = a + b ∨ wrap64 (a + b) < 0.
Proof.
  intros Ha Hb. destruct (Z.le_gt_cases (a + b) max_int64).
  - left. apply wrap64_id. unfold in_int64, min_int64. lia.
  - right. unfold wrap64, max_int64 in *.
    rewrite <-(Z.mod_add _ (-1)), Z.mod_small by lia. lia.
Qed.

Lemma byte_at_safe d i : 0 ≤ i < len d → safe (λ _, True) (byte_at d i).
Proof.
  intros Hi. unfold byte_at. destruct (Z.leb_spec 0 i); [|lia].
  destruct (lookup_lt_is_Some_2 d (Z.to_nat i)) as [b ->]; [unfold len in Hi; lia|done].
Qed.

Lemma slice_safe d i j : 0 ≤ i ≤ j → j ≤ len d → safe (λ bs, len bs = j - i) (slice d i j).
Proof.
  intros Hi Hj. unfold slice.
  destruct (Z.leb_spec 0 i), (Z.leb_spec i j), (Z.leb_spec j (len d)); try lia. simpl.
  unfold len in *. rewrite length_take, length_drop. lia.
Qed.

Lemma varint_loop_safe conv n d i shift acc :
  0 ≤ i → safe (λ '(_, j), i < j ≤ len d) (varint_loop conv n d i shift acc).
Proof.
  revert i shift acc. induction n as [|n IH]; intros i shift acc Hi; [done|]. cbn [varint_loop].
  destruct (Z.leb_spec (len d) i); [done|].
  eapply safe_bind; [apply byte_at_safe; lia|]. intros b _. case_if; simpl; [lia|].
  eapply safe_mono; [apply IH; lia|]. intros [? j]. lia.
Qed.

Lemma varint_safe conv d i : 0 ≤ i → safe (λ '(_, j), i < j ≤ len d) (varint conv d i).
Proof. apply varint_loop_safe. Qed.

(** The value read fits its type. *)
Lemma varint_fits conv d i :
  bitwise conv → (∀ z, conv (conv z) = conv z) → 0 ≤ i →
  safe (λ '(v, j), conv v = v ∧ i < j ≤ len d) (varint conv d i).
Proof.
  intros Hc Hcc Hi. unfold varint.
  assert (∀ n i shift acc, 0 ≤ i → conv acc = acc →
    safe (λ '(v, j), conv v = v ∧ i < j ≤ len d) (varint_loop conv n d i shift acc)) as Hloop; [|by apply Hloop, conv_0].
  clear i Hi. intros n. induction n as [|n IH]; intros i shift acc Hi Ha; [done|]. cbn [varint_loop].
  destruct (Z.leb_spec (len d) i); [done|].
  eapply safe_bind; [apply byte_at_safe; lia|]. intros b _.
  assert (conv (Z.lor acc (conv (Z.shiftl (Z.land b 127) shift))) = Z.lor acc (conv (Z.shiftl (Z.land b 127) shift)))
    by by rewrite (conv_lor _ Hc), Hcc, Ha.
  case_if; simpl; [split; [done|lia]|].
  eapply safe_mono; [apply IH; [lia|done]|]. intros [? j]. naive_solver lia.
Qed.

Lemma wrap64_wrap64 z : wrap64 (wrap64 z) = wrap64 z.
Proof. apply wrap64_id, wrap64_range. Qed.

Lemma varint_int_safe d i : 0 ≤ i → safe (λ '(v, j), in_int64 v ∧ i < j ≤ len d) (varint wrap64 d i).
Proof.
  intros Hi. eapply safe_mono; [by apply (varint_fits _ d i bitwise_wrap64 wrap64_wrap64)|].
  intros [v j] [<- ?]. split; [apply wrap64_range|done].
Qed.

Lemma skip_loop_safe fuel d i depth :
  0 ≤ i ≤ max_int64 → len d ≤ max_int64 → Z.max 0 (len d - i) < Z.of_nat fuel →
  safe (λ j, i < j ≤ max_int64) (skip_loop fuel d i depth).
Proof.
  intros Hi Hd. revert i depth Hi. induction fuel as [|fuel IH]; intros i depth Hi Hf; [lia|]. cbn [skip_loop].
  destruct (Z.ltb_spec i (len d)); [|done].
  eapply safe_bind; [apply varint_safe; lia|]. intros [wire i1] Hi1.
  eapply (safe_bind (λ '(j, _), j < 0 ∨ i < j ≤ max_int64)).
  - assert (∀ b dep, 0 ≤ b ≤ max_int64 → safe (λ '(j, _), j < 0 ∨ i < j ≤ max_int64) (Ok (wrap64 (i1 + b), dep : Z))) as Hadd.
    { intros b dep Hb. simpl. pose proof (wrap64_range (i1 + b)) as Hr. unfold in_int64 in Hr.
      destruct (wrap64_sum i1 b); lia. }
    repeat case_match; try done; try (apply Hadd; unfold max_int64; lia); simpl; try lia.
    + eapply safe_bind; [apply varint_safe; lia|]. intros [? j] Hj. simpl. lia.
    + eapply safe_bind; [apply varint_int_safe; lia|]. intros [n j] [Hn Hj].
      destruct (Z.ltb_spec n 0); [done|]. simpl. pose proof (wrap64_range (j + n)) as Hr.
      unfold in_int64 in *. destruct (wrap64_sum j n); lia.
  - intros [j dep] Hj. destruct (Z.ltb_spec j 0); [done|]. case_if; [simpl; lia|].
    eapply safe_mono; [apply IH; lia|]. simpl. lia.
Qed.

Lemma skip_safe d : len d ≤ max_int64 → safe (λ j, 0 < j ≤ max_int64) (skip d).
Proof. intros Hd. apply skip_loop_safe; unfold max_int64, len in *; lia. Qed.

Lemma length_delimited_safe conv d i :
  0 ≤ i → len d ≤ max_int64 → safe (λ '(j, k), i < j ∧ j ≤ k ≤ len d) (length_delimited conv d i).
Proof.
  intros Hi Hd. unfold length_delimited. eapply safe_bind; [apply varint_safe; lia|]. intros [n j] Hj.
  pose proof (wrap64_range n) as Hr. unfold in_int64 in Hr. simpl.
  destruct (Z.ltb_spec (wrap64 n) 0); [done|].
  destruct (wrap64_sum j (wrap64 n)) as [E|E]; [lia|lia| |].
  - rewrite E. case_if; [done|]. case_if; [done|]. simpl. lia.
  - destruct (Z.ltb_spec (wrap64 (j + wrap64 n)) 0); [done|lia].
Qed.

(** A slice is shorter than the address space. *)
Definition fits (d : bytes) : Prop := len d + 8 ≤ max_int64.

(** What a field handler has to promise: no panic, and an index that does not go back or
    beyond the end. *)
Definition field_ok {A} (i : Z) (d : bytes) (r : res (A * Z)) : Prop := safe (λ '(_, j), i ≤ j ≤ len d) r.

Section fields.
Context (d : bytes) (i : Z) (Hd : fits d) (Hi : 0 ≤ i ≤ len d).

Lemma varint_field_ok conv : field_ok i d (varint conv d i).
Proof. eapply safe_mono; [apply varint_safe; lia|]. intros [? j]. lia. Qed.

Lemma int64_field_ok : field_ok i d (int64_field d i).
Proof. apply varint_field_ok. Qed.

Lemma enum_field_ok : field_ok i d (enum_field d i).
Proof. apply varint_field_ok. Qed.

Lemma bool_field_ok : field_ok i d (bool_field d i).
Proof. eapply safe_bind; [apply varint_safe; lia|]. intros [? j] Hj. simpl in *. lia. Qed.

Lemma string_field_ok : field_ok i d (string_field d i).
Proof.
  unfold fits in Hd. eapply safe_bind; [apply length_delimited_safe; lia|]. intros [j k] Hjk.
  eapply safe_bind; [apply slice_safe; lia|]. intros bs _. simpl. lia.
Qed.

Lemma fixed64_field_ok : field_ok i d (fixed64_field d i).
Proof.
  unfold fits in Hd. unfold field_ok, fixed64_field. rewrite wrap64_id by (unfold in_int64, min_int64; lia).
  destruct (Z.ltb_spec (len d) (i + 8)) as [|Hle]; [done|].
  eapply safe_bind; [apply slice_safe; lia|]. intros bs Hbs. eapply (safe_bind (λ _, True)); [|intros; simpl; lia].
  unfold Uint64. destruct (Nat.leb_spec 8 (length bs)); [done|unfold len in *; lia].
Qed.

Lemma message_field_ok {M} (Unmarshal : M → bytes → res M) m :
  (∀ bs, fits bs → safe (λ _, True) (Unmarshal m bs)) → field_ok i d (message_field Unmarshal m d i).
Proof.
  unfold fits in *. intros Hu. eapply safe_bind; [apply length_delimited_safe; lia|]. intros [j k] Hjk.
  eapply safe_bind; [apply slice_safe; lia|]. intros bs Hbs. simpl in Hbs, Hjk.
  eapply safe_bind; [apply Hu; lia|]. intros m' _. simpl. lia.
Qed.

Lemma typed_ok {A} field want wt (r : res (A * Z)) : field_ok i d r → field_ok i d (typed field want wt r).
Proof. intros Hr. unfold typed. by case_if. Qed.

Lemma bind_ok {A B} (r : res (A * Z)) (f : A → B) :
  field_ok i d r → field_ok i d (let* (a, j) := r in Ok (f a, j)).
Proof. unfold field_ok. by destruct r as [[]| |]. Qed.

End fields.

(** *** The loop *)

Section loop.
Context {M : Type} (name : string).
Context (field : M → Z → Z → bytes → Z → option (res (M * Z))).
Context (unrecognized : M → bytes → M).

Lemma unmarshal_loop_safe fuel d i m :
  (∀ m f w i, 0 ≤ i ≤ len d → match field m f w d i with Some r => field_ok i d r | None => True end) →
  fits d → 0 ≤ i ≤ len d → len d - i < Z.of_nat fuel →
  safe (λ _, True) (unmarshal_loop name field unrecognized fuel d i m).
Proof.
  unfold fits. intros Hf Hd. revert i m. induction fuel as [|fuel IH]; intros i m Hi Hfuel; [lia|]. cbn [unmarshal_loop].
  destruct (Z.ltb_spec i (len d)); [|destruct (Z.ltb_spec (len d) i); done].
  eapply safe_bind; [apply varint_safe; lia|]. intros [wire i1] Hi1. simpl in Hi1.
  case_if; [done|]. case_if; [done|].
  pose proof (Hf m (int32 (Z.shiftr wire 3)) (Z.land wire 7) i1 ltac:(lia)) as Hr.
  destruct (field _ _ _ d i1) as [r|].
  - eapply safe_bind; [exact Hr|]. intros [m' j] Hj. simpl in Hj. apply IH; lia.
  - eapply safe_bind; [apply slice_safe; lia|]. intros rest Hrest. simpl in Hrest.
    eapply safe_bind; [apply skip_safe; lia|]. intros skippy Hs. simpl in Hs.
    destruct (Z.ltb_spec skippy 0); [done|].
    destruct (wrap64_sum i skippy) as [E|E]; [lia|lia|rewrite E|destruct (Z.ltb_spec (wrap64 (i + skippy)) 0); [done|lia]].
    destruct (Z.ltb_spec (i + skippy) 0); [done|]. destruct (Z.ltb_spec (len d) (i + skippy)); [done|].
    eapply safe_bind; [apply slice_safe; lia|]. intros bs _. apply IH; lia.
Qed.

Lemma Unmarshal_safe m d :
  (∀ m f w i, 0 ≤ i ≤ len d → match field m f w d i with Some r => field_ok i d r | None => True end) →
  fits d → safe (λ _, True) (Unmarshal_with name field unrecognized m d).
Proof. intros Hf Hd. apply unmarshal_loop_safe; [done|done|unfold len; lia..]. Qed.

(** ** Reading what was written

    The loop takes [m] to [m'] over the bytes [bs]. *)
Definition reads (m : M) (bs : bytes) (m' : M) : Prop :=
  ∃ n, (n ≤ length bs)%nat ∧ ∀ fuel d i, fits d → at_ d i bs →
    unmarshal_loop name field unrecognized (n + fuel) d i m =
    unmarshal_loop name field unrecognized fuel d (i + len bs) m'.

Lemma reads_nil m : reads m [] m.
Proof. exists 0%nat. split; [done|]. intros fuel d i _ _. by rewrite len_nil, Z.add_0_r. Qed.

Lemma reads_app m1 m2 m3 a b : reads m1 a m2 → reads m2 b m3 → reads m1 (a ++ b) m3.
Proof.
  intros (n & Hn & Ha) (k & Hk & Hb). exists (n + k)%nat. split; [rewrite length_app; lia|].
  intros fuel d i Hd Hat. apply at_app in Hat as [Hat1 Hat2].
  rewrite <-Nat.add_assoc, Ha, Hb by done. f_equal. rewrite len_app. lia.
Qed.

(** One field: its tag is a byte. *)
Lemma reads_field tag payload m m' :
  8 ≤ tag < 128 → Z.land tag 7 ≠ 4 →
  (∀ d i, fits d → at_ d i payload → 0 ≤ i ≤ len d → i + len payload ≤ len d →
     field m (Z.shiftr tag 3) (Z.land tag 7) d i = Some (Ok (m', i + len payload))) →
  reads m (tag :: payload) m'.
Proof.
  intros Ht Hw Hf. exists 1%nat. split; [simpl; lia|]. intros fuel d i Hd Hat. simpl.
  pose proof (at_end _ _ _ Hat ltac:(done)) as He. rewrite len_cons in He. pose proof (len_nonneg payload).
  pose proof Hat as [Hi _].
  destruct (Z.ltb_spec i (len d)); [|lia].
  assert (uvarint tag = [tag]) as Hu by (unfold uvarint; cbn [groups]; destruct (Z.leb_spec 128 tag); [lia|done]).
  apply (at_app d i [tag]) in Hat as [Hat1 Hat2].
  rewrite (varint_read _ tag) by (try apply bitwise_wrapu64; try lia; by rewrite Hu).
  cbn [res_bind]. rewrite Hu, wrapu64_id by lia. change (len [tag]) with 1.
  assert (int32 (Z.shiftr tag 3) = Z.shiftr tag 3 ∧ 1 ≤ Z.shiftr tag 3) as [-> Hpos].
  { rewrite Z.shiftr_div_pow2 by lia. change (2 ^ 3) with 8.
    assert (1 ≤ tag / 8 < 16) by (split; [apply Z.div_le_lower_bound|apply Z.div_lt_upper_bound]; lia).
    split; [|lia]. unfold int32. rewrite Z.mod_small by lia. lia. }
  destruct (Z.eqb_spec (Z.land tag 7) 4); [done|]. destruct (Z.leb_spec (Z.shiftr tag 3) 0); [lia|].
  rewrite (Hf d (i + 1) Hd); [|done|lia|lia]. cbn [res_bind]. f_equal. rewrite len_cons. lia.
Qed.

Lemma reads_list {A} (enc : A → bytes) (push : M → A → M) (l : list A) m :
  (∀ a m, a ∈ l → reads m (enc a) (push m a)) → reads m (l ≫= enc) (foldl push m l).
Proof.
  revert m. induction l as [|a l IH]; intros m Hl; [apply reads_nil|]. cbn [mbind list_bind foldl].
  eapply reads_app; [apply Hl; left|]. apply IH. intros. apply Hl. by right.
Qed.

Lemma Unmarshal_reads m d m' : fits d → reads m d m' → Unmarshal_with name field unrecognized m d = Ok m'.
Proof.
  intros Hd (n & Hn & Hr). unfold Unmarshal_with.
  replace (S (length d)) with (n + S (length d - n))%nat by lia. rewrite Hr by (done || apply at_full).
  cbn [unmarshal_loop]. rewrite Z.add_0_l, !Z.ltb_irrefl. done.
Qed.

End loop.

(** *** The fields *)

Lemma string_of_bytes s : string_of (bytes_of s) = s.
Proof.
  induction s as [|c s IH]; [done|]. unfold string_of, bytes_of in *. simpl.
  rewrite N2Z.id, ascii_N_embedding. f_equal. exact IH.
Qed.

Lemma bytes_of_nil s : bytes_of s = [] ↔ s = ""%string.
Proof. destruct s; simpl; split; try done. Qed.

(** A length, and what it is the length of. *)
Definition delimited (bs : bytes) : bytes := uvarint (len bs) ++ bs.

Lemma delimited_len bs : fits bs → len (delimited bs) = len bs + sov (len bs).
Proof.
  unfold fits, max_int64. intros Hf. unfold delimited. pose proof (len_nonneg bs).
  rewrite len_app, uvarint_len by lia. lia.
Qed.

Section read_fields.
Context (d : bytes) (i : Z) (Hd : fits d).

Lemma int64_read v : in_int64 v → at_ d i (uvarint (wrapu64 v)) →
  int64_field d i = Ok (v, i + len (uvarint (wrapu64 v))).
Proof.
  intros Hv Hat. unfold int64_field. rewrite (varint_read _ (wrapu64 v)); [|apply bitwise_wrap64|apply wrapu64_range|done].
  by rewrite wrap64_wrapu64.
Qed.

Lemma enum_read v : - 2 ^ 31 ≤ v < 2 ^ 31 → at_ d i (uvarint (wrapu64 v)) →
  enum_field d i = Ok (v, i + len (uvarint (wrapu64 v))).
Proof.
  intros Hv Hat. unfold enum_field. rewrite (varint_read _ (wrapu64 v)); [|apply bitwise_int32|apply wrapu64_range|done].
  by rewrite int32_wrapu64.
Qed.

Lemma true_read : at_ d i [1] → bool_field d i = Ok (true, i + 1).
Proof.
  intros Hat. unfold bool_field. rewrite (varint_read _ 1 d i); [|apply bitwise_wrap64|lia|done]. done.
Qed.

Lemma delimited_read conv bs :
  bitwise conv → (∀ n, in_int64 n → 0 ≤ n → conv n = n) → at_ d i (delimited bs) → i + len (delimited bs) ≤ len d →
  length_delimited conv d i = Ok (i + len (uvarint (len bs)), i + len (delimited bs)) ∧
  slice d (i + len (uvarint (len bs))) (i + len (delimited bs)) = Ok bs.
Proof.
  unfold fits in Hd. intros Hc Hcn Hat He. unfold delimited in *. pose proof Hat as [Hi _].
  apply at_app in Hat as [Hat1 Hat2]. rewrite len_app in *.
  pose proof (len_nonneg bs). pose proof (len_nonneg (uvarint (len bs))).
  assert (in_int64 (len bs)) by (unfold in_int64, min_int64; lia).
  split; [|replace (i + (len (uvarint (len bs)) + len bs)) with (i + len (uvarint (len bs)) + len bs) by lia; apply at_slice; [done|lia]].
  unfold length_delimited. rewrite (varint_read _ (len bs)) by (done || unfold max_int64 in *; lia).
  cbn [res_bind]. rewrite Hcn, (wrap64_id (len bs)), wrap64_id by (done || unfold in_int64, min_int64; lia).
  destruct (Z.ltb_spec (len bs) 0); [lia|]. destruct (Z.ltb_spec (i + len (uvarint (len bs)) + len bs) 0); [lia|].
  destruct (Z.ltb_spec (len d) (i + len (uvarint (len bs)) + len bs)); [lia|]. do 2 f_equal. lia.
Qed.

Lemma string_read s : at_ d i (delimited (bytes_of s)) → i + len (delimited (bytes_of s)) ≤ len d →
  string_field d i = Ok (s, i + len (delimited (bytes_of s))).
Proof.
  intros Hat He. unfold string_field.
  destruct (delimited_read wrapu64 (bytes_of s)) as [-> Hs]; [apply bitwise_wrapu64| |done|done|].
  - intros n [_ Hn] ?. apply wrapu64_id. unfold max_int64 in Hn. lia.
  - cbn [res_bind]. rewrite Hs. cbn [res_bind]. by rewrite string_of_bytes.
Qed.

Lemma message_read {M} (Unmarshal : M → bytes → res M) m bs m' :
  at_ d i (delimited bs) → i + len (delimited bs) ≤ len d → Unmarshal m bs = Ok m' →
  message_field Unmarshal m d i = Ok (m', i + len (delimited bs)).
Proof.
  intros Hat He Hu. unfold message_field.
  destruct (delimited_read wrap64 bs) as [-> Hs]; [apply bitwise_wrap64| |done|done|].
  - intros n Hn _. by apply wrap64_id.
  - cbn [res_bind]. rewrite Hs. cbn [res_bind]. by rewrite Hu.
Qed.

Lemma le_combine_split n v : 0 ≤ v < 2 ^ (8 * Z.of_nat n) → le_combine (le_split n v) = v.
Proof.
  revert v. induction n as [|n IH]; intros v Hv; [simpl in *; lia|]. cbn [le_split le_combine].
  rewrite IH.
  - apply Z.bits_inj'. intros k Hk. rewrite Z.lor_spec, Z.shiftl_spec by lia. change 256 with (2 ^ 8).
    destruct (Z.lt_ge_cases k 8).
    + by rewrite Z.mod_pow2_bits_low, (Z.testbit_neg_r _ (k - 8)), orb_false_r by lia.
    + rewrite Z.mod_pow2_bits_high, Z.shiftr_spec by lia. simpl. f_equal. lia.
  - rewrite Z.shiftr_div_pow2 by lia. replace (8 * Z.of_nat (S n)) with (8 + 8 * Z.of_nat n) in Hv by lia.
    rewrite Z.pow_add_r in Hv by lia. split; [apply Z.div_pos; lia|apply Z.div_lt_upper_bound; lia].
Qed.

Lemma le_split_len n v : len (le_split n v) = Z.of_nat n.
Proof. revert v. induction n as [|n IH]; intros v; [done|]. cbn [le_split]. rewrite len_cons, IH. lia. Qed.

Lemma fixed64_read v : 0 ≤ v < 2 ^ 64 → at_ d i (le_split 8 v) → i + 8 ≤ len d →
  fixed64_field d i = Ok (v, i + 8).
Proof.
  unfold fits in Hd. intros Hv [Hi [rest Hr]] He. unfold fixed64_field.
  rewrite wrap64_id by (unfold in_int64, min_int64; lia). destruct (Z.ltb_spec (len d) (i + 8)); [lia|].
  unfold slice. destruct (Z.leb_spec 0 i), (Z.leb_spec i (len d)), (Z.leb_spec (len d) (len d)); try lia. cbn [andb res_bind].
  rewrite take_ge by (rewrite length_drop; unfold len; lia). rewrite Hr. unfold Uint64.
  assert (length (le_split 8 v) = 8%nat) as Hl by done.
  rewrite length_app, Hl. cbn [Nat.add Nat.leb res_bind]. rewrite <-Hl, take_app_length.
  by rewrite le_combine_split by (simpl; lia).
Qed.

End read_fields.

(** ** Writing backwards *)

Lemma take_past {A} (l k : list A) (n m : nat) : n = (length l + m)%nat → take n (l ++ k) = l ++ take m k.
Proof. intros ->. apply take_app_add. Qed.
Lemma drop_past {A} (l k : list A) (n m : nat) : n = (length l + m)%nat → drop n (l ++ k) = drop m k.
Proof. intros ->. apply drop_app_add. Qed.

(** [e] writes [bs] in front of the index. *)
Definition writes (e : emit) (bs : bytes) : Prop :=
  ∀ d i, fits d → len bs ≤ i ≤ len d →
    e (d, i) = Ok (take (Z.to_nat (i - len bs)) d ++ bs ++ drop (Z.to_nat i) d, i - len bs).

(** [f] writes [bs] at the end of the buffer. *)
Definition marshals (f : bytes → res (bytes * Z)) (bs : bytes) : Prop :=
  ∀ d, fits d → len bs ≤ len d → f d = Ok (take (Z.to_nat (len d - len bs)) d ++ bs, len bs).

Lemma writes_nothing : writes nothing [].
Proof.
  intros d i Hd Hi. unfold nothing. rewrite len_nil, Z.sub_0_r. cbn [app]. by rewrite take_drop.
Qed.

Lemma overwrite_len (d bs : bytes) i : len bs ≤ i ≤ len d →
  len (take (Z.to_nat (i - len bs)) d ++ bs ++ drop (Z.to_nat i) d) = len d.
Proof. intros Hi. unfold len in *. rewrite !length_app, length_take, length_drop. lia. Qed.

Lemma writes_then e1 e2 a b : writes e1 a → writes e2 b → writes (e1 +> e2) (b ++ a).
Proof.
  intros H1 H2 d i Hd Hi. rewrite len_app in *. pose proof (len_nonneg a). pose proof (len_nonneg b).
  unfold andthen. rewrite H1 by (done || lia). cbn [res_bind].
  rewrite H2 by (unfold fits in *; rewrite ?overwrite_len by lia; lia). do 2 f_equal; [|lia].
  rewrite take_app_le by (unfold len in *; rewrite length_take; lia).
  rewrite take_take. rewrite drop_app_length' by (unfold len in *; rewrite length_take; lia).
  rewrite <-!(assoc_L (++)). do 2 f_equal. lia.
Qed.

Lemma writes_when b e bs : (b = true → writes e bs) → writes (when b e) (if b then bs else []).
Proof. intros He. destruct b; [by apply He|apply writes_nothing]. Qed.

Lemma writes_all {A} (put : A → emit) enc (l : list A) :
  (∀ a, a ∈ l → writes (put a) (enc a)) → writes (put_all put l) (l ≫= enc).
Proof.
  intros Hp. induction l as [|a l IH]; [apply writes_nothing|]. cbn [put_all mbind list_bind].
  apply writes_then; [apply IH; intros; apply Hp; by right|apply Hp; left].
Qed.

Lemma set_byte_ok d i b : 0 ≤ i < len d →
  set_byte d i b = Ok (take (Z.to_nat i) d ++ b :: drop (Z.to_nat (i + 1)) d).
Proof.
  intros Hi. unfold set_byte. destruct (Z.leb_spec 0 i), (Z.ltb_spec i (len d)); try lia. simpl.
  rewrite insert_take_drop by (unfold len in Hi; lia). do 3 f_equal. f_equal. lia.
Qed.

Lemma writes_byte b : writes (put_byte b) [b].
Proof.
  intros d i Hd Hi. rewrite len_cons, len_nil in *. simpl. rewrite set_byte_ok by lia. cbn [res_bind].
  do 3 f_equal. f_equal. f_equal. lia.
Qed.

Lemma writes_bytes bs : writes (put_bytes bs) bs.
Proof.
  intros d i Hd Hi. simpl. unfold copy_at. pose proof (len_nonneg bs).
  destruct (Z.leb_spec 0 (i - len bs)), (Z.leb_spec (i - len bs) (len d)); try lia. cbn [andb res_bind].
  rewrite (take_ge bs) by (unfold len in *; lia). do 4 f_equal. unfold len in *. f_equal. lia.
Qed.

Lemma put_groups_ok n v d i :
  0 ≤ v < 2 ^ (7 * Z.of_nat n) → (0 < n)%nat → 0 ≤ i → i + len (groups n v) ≤ len d →
  put_groups n v d i = Ok (take (Z.to_nat i) d ++ groups n v ++ drop (Z.to_nat (i + len (groups n v))) d).
Proof.
  revert v d i. induction n as [|n IH]; intros v d i Hv Hn Hi Hl; [lia|]. cbn [put_groups groups] in *.
  destruct (Z.leb_spec 128 v) as [Hge|Hlt].
  - destruct (groups_next n v ltac:(lia)) as (Hv' & Hn' & _). rewrite len_cons in *.
    pose proof (len_nonneg (groups n (Z.shiftr v 7))).
    rewrite set_byte_ok by lia. cbn [res_bind]. set (b := Z.lor _ _).
    assert (len (take (Z.to_nat i) d ++ b :: drop (Z.to_nat (i + 1)) d) = len d) as Hlen.
    { unfold len in *. rewrite length_app, length_take. simpl. rewrite length_drop. lia. }
    assert (length (take (Z.to_nat i) d) = Z.to_nat i) as Ht by (rewrite length_take; unfold len in *; lia).
    rewrite IH by (done || lia). f_equal.
    rewrite (take_past _ _ _ 1), (drop_past _ _ _ (S (length (groups n (Z.shiftr v 7)))))
      by (unfold len in *; lia).
    cbn [take drop]. rewrite take_0, drop_drop, <-(assoc_L (++)). cbn [app]. do 4 f_equal. unfold len in *. lia.
  - rewrite set_byte_ok by (rewrite len_cons, len_nil in *; lia). rewrite len_cons, len_nil. done.
Qed.

Lemma writes_varint v : 0 ≤ v < 2 ^ 64 → writes (encodeVarint v) (uvarint v).
Proof.
  intros Hv d i Hd Hi. unfold encodeVarint. cbv beta iota zeta. rewrite <-uvarint_len by done. pose proof (len_nonneg (uvarint v)).
  rewrite put_groups_ok; [|simpl; lia|lia|lia|fold (uvarint v); lia]. cbn [res_bind]. fold (uvarint v).
  do 5 f_equal. f_equal. lia.
Qed.

Lemma writes_fixed64 v : writes (put_fixed64 v) (le_split 8 v).
Proof.
  intros d i Hd Hi. rewrite le_split_len in *. unfold put_fixed64, PutUint64.
  destruct (Z.leb_spec 0 (i - 8)), (Z.leb_spec (i - 8 + 8) (len d)); try lia. cbn [andb].
  pose proof (writes_bytes (le_split 8 v) d i Hd) as Hw. rewrite le_split_len in Hw. unfold put_bytes in Hw.
  rewrite le_split_len in Hw. apply Hw. lia.
Qed.

Lemma writes_string tag s : fits (bytes_of s) → writes (put_string tag s) (tag :: delimited (bytes_of s)).
Proof.
  unfold fits, max_int64. intros Hs. pose proof (len_nonneg (bytes_of s)). unfold put_string, delimited.
  rewrite wrapu64_id by lia.
  change (tag :: uvarint (len (bytes_of s)) ++ bytes_of s) with (([tag] ++ uvarint (len (bytes_of s))) ++ bytes_of s).
  apply writes_then; [apply writes_bytes|]. apply writes_then; [apply writes_varint; lia|apply writes_byte].
Qed.

Lemma writes_put_varint tag v : writes (put_varint tag v) (tag :: uvarint (wrapu64 v)).
Proof.
  change (tag :: uvarint (wrapu64 v)) with ([tag] ++ uvarint (wrapu64 v)).
  apply writes_then; [apply writes_varint, wrapu64_range|apply writes_byte].
Qed.

Lemma marshals_sized e bs : writes e bs → marshals (sized e) bs.
Proof.
  intros He d Hd Hl. unfold sized. rewrite He by (done || lia). cbn [res_bind]. rewrite overwrite_len by lia.
  assert (drop (Z.to_nat (len d)) d = []) as -> by (apply drop_ge; unfold len; lia).
  rewrite app_nil_r. do 2 f_equal. lia.
Qed.

Lemma writes_message tag f bs : fits bs → marshals f bs → writes (put_message tag f) (tag :: delimited bs).
Proof.
  unfold fits, max_int64. intros Hbs Hf d i Hd Hi. pose proof (len_nonneg bs). pose proof (len_nonneg (uvarint (len bs))).
  unfold delimited in *. rewrite len_cons, len_app in *. unfold put_message, slice.
  destruct (Z.leb_spec 0 0), (Z.leb_spec 0 i), (Z.leb_spec i (len d)); try lia. cbn [andb res_bind].
  rewrite drop_0, Z.sub_0_r.
  assert (len (take (Z.to_nat i) d) = i) as Hfront by (unfold len in *; rewrite length_take; lia).
  rewrite Hf by (unfold fits in *; lia). cbn [res_bind]. rewrite Hfront, wrapu64_id by lia.
  rewrite take_take, Nat.min_l by lia. rewrite <-(assoc_L (++)).
  assert (writes (encodeVarint (len bs) +> put_byte tag) (tag :: uvarint (len bs))) as Hw.
  { change (tag :: uvarint (len bs)) with ([tag] ++ uvarint (len bs)).
    apply writes_then; [apply writes_varint; lia|apply writes_byte]. }
  rewrite Hw by (unfold fits; rewrite ?overwrite_len, ?len_cons by lia; unfold fits in Hd; lia).
  rewrite len_cons. do 2 f_equal; [|lia].
  assert (length (take (Z.to_nat (i - len bs)) d) = Z.to_nat (i - len bs)) as Ht by (rewrite length_take; unfold len in *; lia).
  rewrite take_app_le, take_take, drop_app_length' by lia. cbn [app]. rewrite <-(assoc_L (++)). f_equal. f_equal. lia.
Qed.

Lemma marshal_ok size f bs : marshals f bs → size = len bs → fits bs → marshal size f = Ok bs.
Proof.
  intros Hf -> Hbs. unfold marshal. pose proof (len_nonneg bs). destruct (Z.ltb_spec (len bs) 0); [lia|].
  assert (len (replicate (Z.to_nat (len bs)) 0) = len bs) as Hl by (unfold len; rewrite length_replicate; lia).
  unfold fits in Hbs. rewrite Hf by (unfold fits; lia). cbn [res_bind]. rewrite Hl, Z.sub_diag. cbn [Z.to_nat take app].
  rewrite take_0. pose proof (at_slice bs 0 bs (at_full bs)) as Hs. rewrite Z.add_0_l in Hs. by apply Hs.
Qed.

(** ** Sizes *)

Definition string_size (s : string) : Z :=
  let l := len (bytes_of s) in if 0 <? l then 1 + l + sov (wrapu64 l) else 0.
Definition varint_size (v : Z) : Z := if v =? 0 then 0 else 1 + sov (wrapu64 v).
Definition message_size (l : Z) : Z := 1 + l + sov (wrapu64 l).

(** The loop over the elements of a repeated field. *)
Definition size_all {A} (size : A → Z) (l : list A) : Z := foldl (λ n e, n + size e) 0 l.

(** The encodings the sizes belong to; zero values are left out. *)
Definition enc_string (tag : Z) (s : string) : bytes :=
  if decide (s = ""%string) then [] else tag :: delimited (bytes_of s).
Definition enc_varint (tag v : Z) : bytes := if v =? 0 then [] else tag :: uvarint (wrapu64 v).
Definition enc_message (tag : Z) (bs : bytes) : bytes := tag :: delimited bs.

Lemma string_size_len tag s : fits (bytes_of s) → string_size s = len (enc_string tag s).
Proof.
  unfold fits, max_int64. intros Hf. unfold string_size, enc_string. pose proof (len_nonneg (bytes_of s)).
  case_decide as Hs; [by subst s|]. destruct (Z.ltb_spec 0 (len (bytes_of s))).
  - rewrite len_cons, delimited_len, wrapu64_id by (unfold fits, max_int64; lia). lia.
  - exfalso. apply Hs, bytes_of_nil, nil_length_inv. unfold len in *. lia.
Qed.

Lemma varint_size_len tag v : varint_size v = len (enc_varint tag v).
Proof.
  unfold varint_size, enc_varint. case_if; [done|]. by rewrite len_cons, uvarint_len by apply wrapu64_range.
Qed.

Lemma message_size_len tag bs : fits bs → message_size (len bs) = len (enc_message tag bs).
Proof.
  unfold fits, max_int64. intros Hf. unfold message_size, enc_message. pose proof (len_nonneg bs).
  rewrite len_cons, delimited_len, wrapu64_id by (unfold fits, max_int64; lia). lia.
Qed.

Lemma size_all_len {A} (enc : A → bytes) (size : A → Z) (l : list A) :
  (∀ a, a ∈ l → size a = len (enc a)) → size_all size l = len (l ≫= enc).
Proof.
  unfold size_all. intros Hl. rewrite <-(Z.add_0_l (len (l ≫= enc))). generalize 0.
  induction l as [|a l IH]; intros n; [cbn [foldl mbind list_bind]; rewrite len_nil; lia|].
  cbn [foldl mbind list_bind]. rewrite IH by (intros; apply Hl; by right). rewrite len_app, (Hl a) by left. lia.
Qed.

Lemma fits_app a b : fits (a ++ b) → fits a ∧ fits b.
Proof. unfold fits. rewrite len_app. pose proof (len_nonneg a). pose proof (len_nonneg b). lia. Qed.

Lemma fits_cons b bs : fits (b :: bs) → fits bs.
Proof. intros Hf. apply (fits_app [b] bs Hf). Qed.

Lemma fits_delimited bs : fits (delimited bs) → fits bs.
Proof. intros Hf. apply (fits_app _ _ Hf). Qed.

Lemma fits_enc_string tag s : fits (enc_string tag s) → fits (bytes_of s).
Proof.
  unfold enc_string. case_decide; [by subst s|]. intros Hf. by eapply fits_delimited, fits_cons.
Qed.

Lemma fits_bind {A} (enc : A → bytes) (l : list A) a : fits (l ≫= enc) → a ∈ l → fits (enc a).
Proof.
  induction l as [|b l IH]; [by intros _ ?%elem_of_nil|]. cbn [mbind list_bind].
  intros [Hb Hl]%fits_app [->|Hin]%elem_of_cons; auto.
Qed.

Lemma writes_enc_string tag s : fits (enc_string tag s) →
  writes (when (0 <? len (bytes_of s)) (put_string tag s)) (enc_string tag s).
Proof.
  intros Hf%fits_enc_string. unfold enc_string. case_decide as Hs; [subst s; apply writes_nothing|].
  destruct (Z.ltb_spec 0 (len (bytes_of s))) as [|Hl]; [by apply writes_string|].
  exfalso. apply Hs, bytes_of_nil, nil_length_inv. unfold len in *. lia.
Qed.

Lemma writes_enc_varint tag v : writes (when (negb (v =? 0)) (put_varint tag v)) (enc_varint tag v).
Proof. unfold enc_varint. case_if; [apply writes_nothing|apply writes_put_varint]. Qed.

(** ** Reading the fields of a message *)

Section read_message.
Context {M : Type} (name : string).
Context (field : M → Z → Z → bytes → Z → option (res (M * Z))).
Context (unrecognized : M → bytes → M).
Notation reads := (reads name field unrecognized).

Lemma reads_enc_string tag m (set : string → M) s :
  8 ≤ tag < 128 → Z.land tag 7 = 2 →
  (∀ d i, field m (Z.shiftr tag 3) 2 d i = Some (let* (v, i) := string_field d i in Ok (set v, i))) →
  (s = ""%string → set s = m) → reads m (enc_string tag s) (set s).
Proof.
  intros Ht Hw Hf Hz. unfold enc_string. case_decide as Hs; [rewrite Hz by done; apply reads_nil|].
  apply reads_field; [done|by rewrite Hw|]. intros d i Hd Hat Hi He. rewrite Hw, Hf, (string_read d i Hd s) by done. done.
Qed.

Lemma reads_string tag m (set : string → M) s :
  8 ≤ tag < 128 → Z.land tag 7 = 2 →
  (∀ d i, field m (Z.shiftr tag 3) 2 d i = Some (let* (v, i) := string_field d i in Ok (set v, i))) →
  reads m (enc_message tag (bytes_of s)) (set s).
Proof.
  intros Ht Hw Hf. apply reads_field; [done|by rewrite Hw|]. intros d i Hd Hat Hi He.
  rewrite Hw, Hf, (string_read d i Hd s) by done. done.
Qed.

Lemma reads_enc_varint tag m (set : Z → M) v :
  8 ≤ tag < 128 → Z.land tag 7 = 0 → in_int64 v →
  (∀ d i, field m (Z.shiftr tag 3) 0 d i = Some (let* (v, i) := int64_field d i in Ok (set v, i))) →
  (v = 0 → set v = m) → reads m (enc_varint tag v) (set v).
Proof.
  intros Ht Hw Hv Hf Hz. unfold enc_varint. destruct (Z.eqb_spec v 0); [rewrite Hz by done; apply reads_nil|].
  apply reads_field; [done|by rewrite Hw|]. intros d i Hd Hat Hi He. rewrite Hw, Hf, (int64_read d i v) by done. done.
Qed.

Lemma reads_enc_enum tag m (set : Z → M) v :
  8 ≤ tag < 128 → Z.land tag 7 = 0 → - 2 ^ 31 ≤ v < 2 ^ 31 →
  (∀ d i, field m (Z.shiftr tag 3) 0 d i = Some (let* (v, i) := enum_field d i in Ok (set v, i))) →
  (v = 0 → set v = m) → reads m (enc_varint tag v) (set v).
Proof.
  intros Ht Hw Hv Hf Hz. unfold enc_varint. destruct (Z.eqb_spec v 0); [rewrite Hz by done; apply reads_nil|].
  apply reads_field; [done|by rewrite Hw|]. intros d i Hd Hat Hi He. rewrite Hw, Hf, (enum_read d i v) by done. done.
Qed.

Lemma reads_true tag m (set : bool → M) (b : bool) :
  8 ≤ tag < 128 → Z.land tag 7 = 0 →
  (∀ d i, field m (Z.shiftr tag 3) 0 d i = Some (let* (v, i) := bool_field d i in Ok (set v, i))) →
  (b = false → set b = m) → reads m (if b then [tag; 1] else []) (set b).
Proof.
  intros Ht Hw Hf Hz. destruct b; [|rewrite Hz by done; apply reads_nil].
  apply reads_field; [done|by rewrite Hw|]. intros d i Hd Hat Hi He. rewrite Hw, Hf, true_read by done. done.
Qed.

Lemma reads_message {N} tag m (set : N → M) (Unmarshal : N → bytes → res N) n bs n' :
  8 ≤ tag < 128 → Z.land tag 7 = 2 →
  (∀ d i, field m (Z.shiftr tag 3) 2 d i = Some (let* (v, i) := message_field Unmarshal n d i in Ok (set v, i))) →
  Unmarshal n bs = Ok n' → reads m (enc_message tag bs) (set n').
Proof.
  intros Ht Hw Hf Hu. apply reads_field; [done|by rewrite Hw|]. intros d i Hd Hat Hi He.
  rewrite Hw, Hf, (message_read d i Hd Unmarshal n bs n') by done. done.
Qed.

(** A repeated field, for what holds of the elements read so far. *)
Lemma reads_each {A} (enc : A → bytes) (R : list A → M → Prop) (l l0 : list A) m :
  (∀ a l0 m, a ∈ l → R l0 m → ∃ m', reads m (enc a) m' ∧ R (l0 ++ [a]) m') → R l0 m →
  ∃ m', reads m (l ≫= enc) m' ∧ R (l0 ++ l) m'.
Proof.
  revert l0 m. induction l as [|a l IH]; intros l0 m Hl HR.
  { exists m. rewrite app_nil_r. split; [apply reads_nil|done]. }
  destruct (Hl a l0 m ltac:(left) HR) as (m1 & H1 & HR1).
  destruct (IH (l0 ++ [a]) m1) as (m2 & H2 & HR2); [intros; apply Hl; [by right|done]|done|].
  exists m2. rewrite <-(assoc_L (++)) in HR2. split; [by eapply reads_app|done].
Qed.

End read_message.

(** ** Results that correspond *)

Definition res_rel {A B} (R : A → B → Prop) (r : res A) (r' : res B) : Prop :=
  match r, r' with
  | Ok a, Ok b => R a b
  | Err e, Err e' => e = e'
  | Panic p, Panic p' => p = p'
  | _, _ => False
  end.

Lemma res_rel_bind {A B A' B'} (R : A → B → Prop) (S : A' → B' → Prop) r r' f f' :
  res_rel R r r' → (∀ a b, R a b → res_rel S (f a) (f' b)) → res_rel S (res_bind r f) (res_bind r' f').
Proof. destruct r, r'; simpl; naive_solver. Qed.

Lemma res_rel_refl {A} (R : A → A → Prop) r : (∀ a, R a a) → res_rel R r r.
Proof. destruct r; simpl; auto. Qed.

(** Fields that correspond, with the same index behind them. *)
Definition field_rel {A B} (R : A → B → Prop) : res (A * Z) → res (B * Z) → Prop :=
  res_rel (λ p q, R p.1 q.1 ∧ p.2 = q.2).

Lemma message_field_rel {A B} (R : A → B → Prop) (U : A → bytes → res A) (U' : B → bytes → res B) m m' d i :
  R m m' → (∀ m m' bs, R m m' → res_rel R (U m bs) (U' m' bs)) →
  field_rel R (message_field U m d i) (message_field U' m' d i).
Proof.
  intros Hm HU. unfold field_rel, message_field. eapply (res_rel_bind eq); [by apply res_rel_refl|].
  intros [j k] _ <-. eapply (res_rel_bind eq); [by apply res_rel_refl|]. intros bs _ <-.
  eapply res_rel_bind; [by apply HU|]. done.
Qed.

Lemma typed_rel {A B} (R : A → B → Prop) field want wt (r : res A) (r' : res B) :
  res_rel R r r' → res_rel R (typed field want wt r) (typed field want wt r').
Proof. unfold typed. by case_if. Qed.

Lemma Unmarshal_rel {A B} name (R : A → B → Prop) (field : A → Z → Z → bytes → Z → option (res (A * Z))) unrec
    (field' : B → Z → Z → bytes → Z → option (res (B * Z))) unrec' m m' d :
  (∀ m m' f w d i, R m m' → option_Forall2 (field_rel R) (field m f w d i) (field' m' f w d i)) →
  (∀ m m' bs, R m m' → R (unrec m bs) (unrec' m' bs)) → R m m' →
  res_rel R (Unmarshal_with name field unrec m d) (Unmarshal_with name field' unrec' m' d).
Proof.
  intros Hf Hu. unfold Unmarshal_with. generalize (S (length d)) as fuel. generalize 0 as i.
  intros i fuel. revert i m m'. induction fuel as [|fuel IH]; intros i m m' Hm; [done|]. cbn [unmarshal_loop].
  case_if; [|by case_if]. eapply (res_rel_bind eq); [by apply res_rel_refl|]. intros [wire j] _ <-.
  case_if; [done|]. case_if; [done|].
  destruct (Hf m m' (int32 (Z.shiftr wire 3)) (Z.land wire 7) d j Hm) as [r r' Hr|].
  - eapply res_rel_bind; [exact Hr|]. intros [a k] [b k'] [Hab Hk]. simpl in *. subst k'. by apply IH.
  - eapply (res_rel_bind eq); [by apply res_rel_refl|]. intros rest _ <-.
    eapply (res_rel_bind eq); [by apply res_rel_refl|]. intros skippy _ <-.
    case_if; [done|]. case_if; [done|]. case_if; [done|].
    eapply (res_rel_bind eq); [by apply res_rel_refl|]. intros bs _ <-. apply IH. by apply Hu.
Qed.

End Wire.
