(* ===== verification/Proto.v ===== *)
(** * The protobuf messages

    [src/pkg/prompb/types.pb.go] and [remote.pb.go]: the messages of remote write and
    remote read, with their [Size], [MarshalToSizedBuffer], [Marshal], [Unmarshal] and
    [Reset].

    A decoded [WriteRequest] comes from a pool, and its [Reset] keeps its slices, whose
    elements beyond the length are those of an earlier request: a slice here is its
    elements and what lies beyond them.  Messages that agree up to that are equivalent.
    Messages that are only reached through pointers are never nil once decoded. *)
From S2P Require Import Prelude Wire.

#[local] Open Scope Z_scope.

Module Pb.
Import Wire.

(** ** Slices that are reused *)

Record Slice (A : Type) := MkSlice { items : list A; beyond : list A }.
Arguments MkSlice {_} _ _.
Arguments items {_} _.
Arguments beyond {_} _.

(** [s[:0]]. *)
Definition truncated {A} (s : Slice A) : Slice A := MkSlice [] (items s ++ beyond s).

Definition no_items {A} : Slice A := MkSlice [] [].

(** [math.Float64frombits], [math.Float64bits], and the comparison with zero, for the type
    of floats. *)
Class Float64 (F : Type) := {
  Float64frombits : Z → F;
  Float64bits : F → Z;
  is_zero : F → bool;
}.
Class Float64Laws (F : Type) `{Float64 F} := {
  Float64bits_range : ∀ v, 0 ≤ Float64bits v < 2 ^ 64;
  Float64frombits_bits : ∀ v, Float64frombits (Float64bits v) = v;
}.

Section messages.
Context {F : Type} `{Float64 F}.

(** The capacity [append] adds to a full slice of some length. *)
Context (growth : nat → nat).

(** ** The messages *)

Record Sample := MkSample { s_Value : F; s_Timestamp : Z; s_unrecognized : bytes }.
Record Label := MkLabel { l_Name : string; l_Value : string; l_unrecognized : bytes }.
Record TimeSeries := MkTimeSeries {
  t_Labels : Slice Label; t_Samples : Slice Sample; t_unrecognized : bytes }.
Record WriteRequest := MkWriteRequest { w_Timeseries : Slice TimeSeries; w_unrecognized : bytes }.

(** [LabelMatcher_Type] and [ReadRequest_ResponseType] are [int32]. *)
Record LabelMatcher := MkLabelMatcher {
  m_Type : Z; m_Name : string; m_Value : string; m_unrecognized : bytes }.
Record ReadHints := MkReadHints {
  h_StepMs : Z; h_Func : string; h_StartMs : Z; h_EndMs : Z; h_Grouping : list string;
  h_By : bool; h_RangeMs : Z; h_unrecognized : bytes }.
Record Query := MkQuery {
  q_StartTimestampMs : Z; q_EndTimestampMs : Z; q_Matchers : list LabelMatcher;
  q_Hints : option ReadHints; q_unrecognized : bytes }.
Record ReadRequest := MkReadRequest {
  r_Queries : list Query; r_AcceptedResponseTypes : list Z; r_unrecognized : bytes }.
Record QueryResult := MkQueryResult { qr_Timeseries : list TimeSeries; qr_unrecognized : bytes }.
Record ReadResponse := MkReadResponse { rr_Results : list QueryResult; rr_unrecognized : bytes }.

(** *** Zero values and [Reset] *)

Definition Sample_zero : Sample := MkSample (Float64frombits 0) 0 [].
Definition Label_zero : Label := MkLabel "" "" [].
Definition TimeSeries_zero : TimeSeries := MkTimeSeries no_items no_items [].
Definition WriteRequest_zero : WriteRequest := MkWriteRequest no_items [].
Definition LabelMatcher_zero : LabelMatcher := MkLabelMatcher 0 "" "" [].
Definition ReadHints_zero : ReadHints := MkReadHints 0 "" 0 0 [] false 0 [].
Definition Query_zero : Query := MkQuery 0 0 [] None [].
Definition ReadRequest_zero : ReadRequest := MkReadRequest [] [] [].
Definition QueryResult_zero : QueryResult := MkQueryResult [] [].
Definition ReadResponse_zero : ReadResponse := MkReadResponse [] [].

Definition Sample_Reset (m : Sample) : Sample := Sample_zero.
Definition Label_Reset (m : Label) : Label := Label_zero.
Definition TimeSeries_Reset (m : TimeSeries) : TimeSeries :=
  MkTimeSeries (truncated (t_Labels m)) (truncated (t_Samples m)) [].
Definition WriteRequest_Reset (m : WriteRequest) : WriteRequest :=
  MkWriteRequest (truncated (w_Timeseries m)) [].

(** ** Decoding *)

(** The next element of a slice: one of those beyond its length, reset, or a new one. *)
Definition next_slot {A} (zero : A) (Reset : A → A) (s : Slice A) : A * list A :=
  match beyond s with
  | x :: rest => (Reset x, rest)
  | [] => (zero, replicate (growth (length (items s))) zero)
  end.

(** A repeated message that is stored in a slice. *)
Definition repeated_field {A} (zero : A) (Reset : A → A) (Unmarshal : A → bytes → res A)
    (s : Slice A) (d : bytes) (iNdEx : Z) : res (Slice A * Z) :=
  let '(x, rest) := next_slot zero Reset s in
  let* (x, iNdEx) := message_field Unmarshal x d iNdEx in
  Ok (MkSlice (items s ++ [x]) rest, iNdEx).

Definition Sample_field (m : Sample) (fieldNum wireType : Z) (d : bytes) (iNdEx : Z) : option (res (Sample * Z)) :=
  match fieldNum with
  | 1 => Some (typed "Value" 1 wireType
           (let* (v, i) := fixed64_field d iNdEx in
            Ok (MkSample (Float64frombits v) (s_Timestamp m) (s_unrecognized m), i)))
  | 2 => Some (typed "Timestamp" 0 wireType
           (let* (v, i) := int64_field d iNdEx in Ok (MkSample (s_Value m) v (s_unrecognized m), i)))
  | _ => None
  end.
Definition Sample_unrecognized (m : Sample) (bs : bytes) : Sample :=
  MkSample (s_Value m) (s_Timestamp m) (s_unrecognized m ++ bs).
Definition Sample_Unmarshal : Sample → bytes → res Sample :=
  Unmarshal_with "Sample" Sample_field Sample_unrecognized.

Definition Label_field (m : Label) (fieldNum wireType : Z) (d : bytes) (iNdEx : Z) : option (res (Label * Z)) :=
  match fieldNum with
  | 1 => Some (typed "Name" 2 wireType
           (let* (v, i) := string_field d iNdEx in Ok (MkLabel v (l_Value m) (l_unrecognized m), i)))
  | 2 => Some (typed "Value" 2 wireType
           (let* (v, i) := string_field d iNdEx in Ok (MkLabel (l_Name m) v (l_unrecognized m), i)))
  | _ => None
  end.
Definition Label_unrecognized (m : Label) (bs : bytes) : Label :=
  MkLabel (l_Name m) (l_Value m) (l_unrecognized m ++ bs).
Definition Label_Unmarshal : Label → bytes → res Label :=
  Unmarshal_with "Label" Label_field Label_unrecognized.

Definition TimeSeries_field (m : TimeSeries) (fieldNum wireType : Z) (d : bytes) (iNdEx : Z)
    : option (res (TimeSeries * Z)) :=
  match fieldNum with
  | 1 => Some (typed "Labels" 2 wireType
           (let* (v, i) := repeated_field Label_zero Label_Reset Label_Unmarshal (t_Labels m) d iNdEx in
            Ok (MkTimeSeries v (t_Samples m) (t_unrecognized m), i)))
  | 2 => Some (typed "Samples" 2 wireType
           (let* (v, i) := repeated_field Sample_zero Sample_Reset Sample_Unmarshal (t_Samples m) d iNdEx in
            Ok (MkTimeSeries (t_Labels m) v (t_unrecognized m), i)))
  | _ => None
  end.
Definition TimeSeries_unrecognized (m : TimeSeries) (bs : bytes) : TimeSeries :=
  MkTimeSeries (t_Labels m) (t_Samples m) (t_unrecognized m ++ bs).
Definition TimeSeries_Unmarshal : TimeSeries → bytes → res TimeSeries :=
  Unmarshal_with "TimeSeries" TimeSeries_field TimeSeries_unrecognized.

Definition WriteRequest_field (m : WriteRequest) (fieldNum wireType : Z) (d : bytes) (iNdEx : Z)
    : option (res (WriteRequest * Z)) :=
  match fieldNum with
  | 1 => Some (typed "Timeseries" 2 wireType
           (let* (v, i) := repeated_field TimeSeries_zero TimeSeries_Reset TimeSeries_Unmarshal (w_Timeseries m) d iNdEx in
            Ok (MkWriteRequest v (w_unrecognized m), i)))
  | _ => None
  end.
Definition WriteRequest_unrecognized (m : WriteRequest) (bs : bytes) : WriteRequest :=
  MkWriteRequest (w_Timeseries m) (w_unrecognized m ++ bs).
Definition WriteRequest_Unmarshal : WriteRequest → bytes → res WriteRequest :=
  Unmarshal_with "WriteRequest" WriteRequest_field WriteRequest_unrecognized.

Definition LabelMatcher_field (m : LabelMatcher) (fieldNum wireType : Z) (d : bytes) (iNdEx : Z)
    : option (res (LabelMatcher * Z)) :=
  match fieldNum with
  | 1 => Some (typed "Type" 0 wireType
           (let* (v, i) := enum_field d iNdEx in
            Ok (MkLabelMatcher v (m_Name m) (m_Value m) (m_unrecognized m), i)))
  | 2 => Some (typed "Name" 2 wireType
           (let* (v, i) := string_field d iNdEx in
            Ok (MkLabelMatcher (m_Type m) v (m_Value m) (m_unrecognized m), i)))
  | 3 => Some (typed "Value" 2 wireType
           (let* (v, i) := string_field d iNdEx in
            Ok (MkLabelMatcher (m_Type m) (m_Name m) v (m_unrecognized m), i)))
  | _ => None
  end.
Definition LabelMatcher_unrecognized (m : LabelMatcher) (bs : bytes) : LabelMatcher :=
  MkLabelMatcher (m_Type m) (m_Name m) (m_Value m) (m_unrecognized m ++ bs).
Definition LabelMatcher_Unmarshal : LabelMatcher → bytes → res LabelMatcher :=
  Unmarshal_with "LabelMatcher" LabelMatcher_field LabelMatcher_unrecognized.

Definition ReadHints_field (m : ReadHints) (fieldNum wireType : Z) (d : bytes) (iNdEx : Z)
    : option (res (ReadHints * Z)) :=
  let 'MkReadHints step func start end_ grouping by_ range u := m in
  match fieldNum with
  | 1 => Some (typed "StepMs" 0 wireType
           (let* (v, i) := int64_field d iNdEx in Ok (MkReadHints v func start end_ grouping by_ range u, i)))
  | 2 => Some (typed "Func" 2 wireType
           (let* (v, i) := string_field d iNdEx in Ok (MkReadHints step v start end_ grouping by_ range u, i)))
  | 3 => Some (typed "StartMs" 0 wireType
           (let* (v, i) := int64_field d iNdEx in Ok (MkReadHints step func v end_ grouping by_ range u, i)))
  | 4 => Some (typed "EndMs" 0 wireType
           (let* (v, i) := int64_field d iNdEx in Ok (MkReadHints step func start v grouping by_ range u, i)))
  | 5 => Some (typed "Grouping" 2 wireType
           (let* (v, i) := string_field d iNdEx in
            Ok (MkReadHints step func start end_ (grouping ++ [v]) by_ range u, i)))
  | 6 => Some (typed "By" 0 wireType
           (let* (v, i) := bool_field d iNdEx in Ok (MkReadHints step func start end_ grouping v range u, i)))
  | 7 => Some (typed "RangeMs" 0 wireType
           (let* (v, i) := int64_field d iNdEx in Ok (MkReadHints step func start end_ grouping by_ v u, i)))
  | _ => None
  end.
Definition ReadHints_unrecognized (m : ReadHints) (bs : bytes) : ReadHints :=
  let 'MkReadHints step func start end_ grouping by_ range u := m in
  MkReadHints step func start end_ grouping by_ range (u ++ bs).
Definition ReadHints_Unmarshal : ReadHints → bytes → res ReadHints :=
  Unmarshal_with "ReadHints" ReadHints_field ReadHints_unrecognized.

Definition Query_field (m : Query) (fieldNum wireType : Z) (d : bytes) (iNdEx : Z) : option (res (Query * Z)) :=
  let 'MkQuery start end_ matchers hints u := m in
  match fieldNum with
  | 1 => Some (typed "StartTimestampMs" 0 wireType
           (let* (v, i) := int64_field d iNdEx in Ok (MkQuery v end_ matchers hints u, i)))
  | 2 => Some (typed "EndTimestampMs" 0 wireType
           (let* (v, i) := int64_field d iNdEx in Ok (MkQuery start v matchers hints u, i)))
  | 3 => Some (typed "Matchers" 2 wireType
           (let* (v, i) := message_field LabelMatcher_Unmarshal LabelMatcher_zero d iNdEx in
            Ok (MkQuery start end_ (matchers ++ [v]) hints u, i)))
  | 4 => Some (typed "Hints" 2 wireType
           (let* (v, i) := message_field ReadHints_Unmarshal (default ReadHints_zero hints) d iNdEx in
            Ok (MkQuery start end_ matchers (Some v) u, i)))
  | _ => None
  end.
Definition Query_unrecognized (m : Query) (bs : bytes) : Query :=
  let 'MkQuery start end_ matchers hints u := m in MkQuery start end_ matchers hints (u ++ bs).
Definition Query_Unmarshal : Query → bytes → res Query := Unmarshal_with "Query" Query_field Query_unrecognized.

(** The elements of a packed field up to [postIndex]; an element may end behind it.  Fuel:
    an element is a byte at least. *)
Fixpoint packed_loop (fuel : nat) (d : bytes) (iNdEx postIndex : Z) (vs : list Z) : res (list Z * Z) :=
  match fuel with
  | O => Panic "out of fuel"
  | S fuel =>
      if iNdEx <? postIndex then
        let* (v, iNdEx) := enum_field d iNdEx in packed_loop fuel d iNdEx postIndex (vs ++ [v])
      else Ok (vs, iNdEx)
  end.
Definition packed_field (vs : list Z) (d : bytes) (iNdEx : Z) : res (list Z * Z) :=
  let* (iNdEx, postIndex) := length_delimited wrap64 d iNdEx in
  packed_loop (S (length d)) d iNdEx postIndex vs.

Definition ReadRequest_field (m : ReadRequest) (fieldNum wireType : Z) (d : bytes) (iNdEx : Z)
    : option (res (ReadRequest * Z)) :=
  let 'MkReadRequest queries accepted u := m in
  match fieldNum with
  | 1 => Some (typed "Queries" 2 wireType
           (let* (v, i) := message_field Query_Unmarshal Query_zero d iNdEx in
            Ok (MkReadRequest (queries ++ [v]) accepted u, i)))
  | 2 => Some
           (if wireType =? 0 then
              let* (v, i) := enum_field d iNdEx in Ok (MkReadRequest queries (accepted ++ [v]) u, i)
            else if wireType =? 2 then
              let* (v, i) := packed_field accepted d iNdEx in Ok (MkReadRequest queries v u, i)
            else Err (Errorf "proto: wrong wireType = %d for field AcceptedResponseTypes"))
  | _ => None
  end.
Definition ReadRequest_unrecognized (m : ReadRequest) (bs : bytes) : ReadRequest :=
  let 'MkReadRequest queries accepted u := m in MkReadRequest queries accepted (u ++ bs).
Definition ReadRequest_Unmarshal : ReadRequest → bytes → res ReadRequest :=
  Unmarshal_with "ReadRequest" ReadRequest_field ReadRequest_unrecognized.

Definition QueryResult_field (m : QueryResult) (fieldNum wireType : Z) (d : bytes) (iNdEx : Z)
    : option (res (QueryResult * Z)) :=
  match fieldNum with
  | 1 => Some (typed "Timeseries" 2 wireType
           (let* (v, i) := message_field TimeSeries_Unmarshal TimeSeries_zero d iNdEx in
            Ok (MkQueryResult (qr_Timeseries m ++ [v]) (qr_unrecognized m), i)))
  | _ => None
  end.
Definition QueryResult_unrecognized (m : QueryResult) (bs : bytes) : QueryResult :=
  MkQueryResult (qr_Timeseries m) (qr_unrecognized m ++ bs).
Definition QueryResult_Unmarshal : QueryResult → bytes → res QueryResult :=
  Unmarshal_with "QueryResult" QueryResult_field QueryResult_unrecognized.

Definition ReadResponse_field (m : ReadResponse) (fieldNum wireType : Z) (d : bytes) (iNdEx : Z)
    : option (res (ReadResponse * Z)) :=
  match fieldNum with
  | 1 => Some (typed "Results" 2 wireType
           (let* (v, i) := message_field QueryResult_Unmarshal QueryResult_zero d iNdEx in
            Ok (MkReadResponse (rr_Results m ++ [v]) (rr_unrecognized m), i)))
  | _ => None
  end.
Definition ReadResponse_unrecognized (m : ReadResponse) (bs : bytes) : ReadResponse :=
  MkReadResponse (rr_Results m) (rr_unrecognized m ++ bs).
Definition ReadResponse_Unmarshal : ReadResponse → bytes → res ReadResponse :=
  Unmarshal_with "ReadResponse" ReadResponse_field ReadResponse_unrecognized.

(** ** Sizes *)

Definition Sample_Size (m : Sample) : Z :=
  (if is_zero (s_Value m) then 0 else 9) + varint_size (s_Timestamp m) + len (s_unrecognized m).
Definition Label_Size (m : Label) : Z :=
  string_size (l_Name m) + string_size (l_Value m) + len (l_unrecognized m).
Definition TimeSeries_Size (m : TimeSeries) : Z :=
  size_all (λ e, message_size (Label_Size e)) (items (t_Labels m)) +
  size_all (λ e, message_size (Sample_Size e)) (items (t_Samples m)) + len (t_unrecognized m).
Definition WriteRequest_Size (m : WriteRequest) : Z :=
  size_all (λ e, message_size (TimeSeries_Size e)) (items (w_Timeseries m)) + len (w_unrecognized m).
Definition LabelMatcher_Size (m : LabelMatcher) : Z :=
  varint_size (m_Type m) + string_size (m_Name m) + string_size (m_Value m) + len (m_unrecognized m).
Definition ReadHints_Size (m : ReadHints) : Z :=
  varint_size (h_StepMs m) + string_size (h_Func m) + varint_size (h_StartMs m) + varint_size (h_EndMs m) +
  size_all (λ s, message_size (len (bytes_of s))) (h_Grouping m) + (if h_By m then 2 else 0) +
  varint_size (h_RangeMs m) + len (h_unrecognized m).
Definition Query_Size (m : Query) : Z :=
  varint_size (q_StartTimestampMs m) + varint_size (q_EndTimestampMs m) +
  size_all (λ e, message_size (LabelMatcher_Size e)) (q_Matchers m) +
  match q_Hints m with Some h => message_size (ReadHints_Size h) | None => 0 end + len (q_unrecognized m).
Definition ReadRequest_Size (m : ReadRequest) : Z :=
  size_all (λ e, message_size (Query_Size e)) (r_Queries m) +
  (if 0 <? len (r_AcceptedResponseTypes m)
   then let l := size_all (λ e, sov (wrapu64 e)) (r_AcceptedResponseTypes m) in 1 + sov (wrapu64 l) + l
   else 0) + len (r_unrecognized m).
Definition QueryResult_Size (m : QueryResult) : Z :=
  size_all (λ e, message_size (TimeSeries_Size e)) (qr_Timeseries m) + len (qr_unrecognized m).
Definition ReadResponse_Size (m : ReadResponse) : Z :=
  size_all (λ e, message_size (QueryResult_Size e)) (rr_Results m) + len (rr_unrecognized m).

(** ** Encoding

    The fields from the last to the first; each goes in front of those after it.  A nil
    slice of unknown bytes is as good as an empty one. *)

Definition Sample_MarshalToSizedBuffer (m : Sample) : bytes → res (bytes * Z) := sized (
  put_bytes (s_unrecognized m) +>
  when (negb (s_Timestamp m =? 0)) (put_varint 16 (s_Timestamp m)) +>
  when (negb (is_zero (s_Value m))) (put_fixed64 (Float64bits (s_Value m)) +> put_byte 9)).

Definition Label_MarshalToSizedBuffer (m : Label) : bytes → res (bytes * Z) := sized (
  put_bytes (l_unrecognized m) +>
  when (0 <? len (bytes_of (l_Value m))) (put_string 18 (l_Value m)) +>
  when (0 <? len (bytes_of (l_Name m))) (put_string 10 (l_Name m))).

Definition TimeSeries_MarshalToSizedBuffer (m : TimeSeries) : bytes → res (bytes * Z) := sized (
  put_bytes (t_unrecognized m) +>
  put_all (λ e, put_message 18 (Sample_MarshalToSizedBuffer e)) (items (t_Samples m)) +>
  put_all (λ e, put_message 10 (Label_MarshalToSizedBuffer e)) (items (t_Labels m))).

Definition WriteRequest_MarshalToSizedBuffer (m : WriteRequest) : bytes → res (bytes * Z) := sized (
  put_bytes (w_unrecognized m) +>
  put_all (λ e, put_message 10 (TimeSeries_MarshalToSizedBuffer e)) (items (w_Timeseries m))).

Definition LabelMatcher_MarshalToSizedBuffer (m : LabelMatcher) : bytes → res (bytes * Z) := sized (
  put_bytes (m_unrecognized m) +>
  when (0 <? len (bytes_of (m_Value m))) (put_string 26 (m_Value m)) +>
  when (0 <? len (bytes_of (m_Name m))) (put_string 18 (m_Name m)) +>
  when (negb (m_Type m =? 0)) (put_varint 8 (m_Type m))).

Definition ReadHints_MarshalToSizedBuffer (m : ReadHints) : bytes → res (bytes * Z) := sized (
  put_bytes (h_unrecognized m) +>
  when (negb (h_RangeMs m =? 0)) (put_varint 56 (h_RangeMs m)) +>
  when (h_By m) (put_byte 1 +> put_byte 48) +>
  put_all (put_string 42) (h_Grouping m) +>
  when (negb (h_EndMs m =? 0)) (put_varint 32 (h_EndMs m)) +>
  when (negb (h_StartMs m =? 0)) (put_varint 24 (h_StartMs m)) +>
  when (0 <? len (bytes_of (h_Func m))) (put_string 18 (h_Func m)) +>
  when (negb (h_StepMs m =? 0)) (put_varint 8 (h_StepMs m))).

Definition Query_MarshalToSizedBuffer (m : Query) : bytes → res (bytes * Z) := sized (
  put_bytes (q_unrecognized m) +>
  match q_Hints m with
  | Some h => put_message 34 (ReadHints_MarshalToSizedBuffer h)
  | None => nothing
  end +>
  put_all (λ e, put_message 26 (LabelMatcher_MarshalToSizedBuffer e)) (q_Matchers m) +>
  when (negb (q_EndTimestampMs m =? 0)) (put_varint 16 (q_EndTimestampMs m)) +>
  when (negb (q_StartTimestampMs m =? 0)) (put_varint 8 (q_StartTimestampMs m))).

(** The packed field is written forwards into a buffer of its own first; the comparison
    and the shift are those of [int32]. *)
Fixpoint packed_groups (fuel : nat) (num : Z) : bytes :=
  match fuel with
  | O => []
  | S fuel =>
      if 128 <=? num then Z.lor (Z.land num 127) 128 :: packed_groups fuel (Z.shiftr num 7)
      else [num mod 256]
  end.
Definition packed (nums : list Z) : bytes := nums ≫= packed_groups 5.

Definition ReadRequest_MarshalToSizedBuffer (m : ReadRequest) : bytes → res (bytes * Z) := sized (
  put_bytes (r_unrecognized m) +>
  when (0 <? len (r_AcceptedResponseTypes m))
    (let bs := packed (r_AcceptedResponseTypes m) in
     put_bytes bs +> encodeVarint (wrapu64 (len bs)) +> put_byte 18) +>
  put_all (λ e, put_message 10 (Query_MarshalToSizedBuffer e)) (r_Queries m)).

Definition QueryResult_MarshalToSizedBuffer (m : QueryResult) : bytes → res (bytes * Z) := sized (
  put_bytes (qr_unrecognized m) +>
  put_all (λ e, put_message 10 (TimeSeries_MarshalToSizedBuffer e)) (qr_Timeseries m)).

Definition ReadResponse_MarshalToSizedBuffer (m : ReadResponse) : bytes → res (bytes * Z) := sized (
  put_bytes (rr_unrecognized m) +>
  put_all (λ e, put_message 10 (QueryResult_MarshalToSizedBuffer e)) (rr_Results m)).

(** ** [proto.Unmarshal] and [proto.Marshal], which call these methods *)

Definition WriteRequest_Marshal (m : WriteRequest) : res bytes :=
  marshal (WriteRequest_Size m) (WriteRequest_MarshalToSizedBuffer m).
Definition ReadRequest_Marshal (m : ReadRequest) : res bytes :=
  marshal (ReadRequest_Size m) (ReadRequest_MarshalToSizedBuffer m).
Definition ReadResponse_Marshal (m : ReadResponse) : res bytes :=
  marshal (ReadResponse_Size m) (ReadResponse_MarshalToSizedBuffer m).

(** ** The encodings

    What the wire format says: the fields in order, zero values left out. *)

Definition enc_Sample (m : Sample) : bytes :=
  ((if is_zero (s_Value m) then [] else 9 :: le_split 8 (Float64bits (s_Value m))) ++
   enc_varint 16 (s_Timestamp m)) ++ s_unrecognized m.
Definition enc_Label (m : Label) : bytes :=
  (enc_string 10 (l_Name m) ++ enc_string 18 (l_Value m)) ++ l_unrecognized m.
Definition enc_TimeSeries (m : TimeSeries) : bytes :=
  ((items (t_Labels m) ≫= (λ e, enc_message 10 (enc_Label e))) ++
   (items (t_Samples m) ≫= (λ e, enc_message 18 (enc_Sample e)))) ++ t_unrecognized m.
Definition enc_WriteRequest (m : WriteRequest) : bytes :=
  (items (w_Timeseries m) ≫= (λ e, enc_message 10 (enc_TimeSeries e))) ++ w_unrecognized m.
Definition enc_LabelMatcher (m : LabelMatcher) : bytes :=
  ((enc_varint 8 (m_Type m) ++ enc_string 18 (m_Name m)) ++ enc_string 26 (m_Value m)) ++ m_unrecognized m.
Definition enc_ReadHints (m : ReadHints) : bytes :=
  ((((((enc_varint 8 (h_StepMs m) ++ enc_string 18 (h_Func m)) ++ enc_varint 24 (h_StartMs m)) ++
      enc_varint 32 (h_EndMs m)) ++ (h_Grouping m ≫= (λ s, enc_message 42 (bytes_of s)))) ++
    (if h_By m then [48; 1] else [])) ++ enc_varint 56 (h_RangeMs m)) ++ h_unrecognized m.
Definition enc_Query (m : Query) : bytes :=
  (((enc_varint 8 (q_StartTimestampMs m) ++ enc_varint 16 (q_EndTimestampMs m)) ++
    (q_Matchers m ≫= (λ e, enc_message 26 (enc_LabelMatcher e)))) ++
   match q_Hints m with Some h => enc_message 34 (enc_ReadHints h) | None => [] end) ++ q_unrecognized m.
Definition enc_ReadRequest (m : ReadRequest) : bytes :=
  ((r_Queries m ≫= (λ e, enc_message 10 (enc_Query e))) ++
   (if 0 <? len (r_AcceptedResponseTypes m) then enc_message 18 (r_AcceptedResponseTypes m ≫= uvarint) else [])) ++
  r_unrecognized m.
Definition enc_QueryResult (m : QueryResult) : bytes :=
  (qr_Timeseries m ≫= (λ e, enc_message 10 (enc_TimeSeries e))) ++ qr_unrecognized m.
Definition enc_ReadResponse (m : ReadResponse) : bytes :=
  (rr_Results m ≫= (λ e, enc_message 10 (enc_QueryResult e))) ++ rr_unrecognized m.

End messages.

(** ** Marshalling writes the encoding, and its size is the length *)

(** Splits the hypothesis that an encoding fits in memory. *)
Ltac split_fits :=
  repeat match goal with
  | Hf : fits (_ ++ _) |- _ => apply fits_app in Hf as [? ?]
  end.

(** Follows the structure of an emitter. *)
Ltac solve_writes :=
  repeat first
    [ apply writes_then
    | apply writes_bytes
    | apply writes_nothing
    | apply writes_enc_varint
    | apply writes_enc_string; assumption
    | apply writes_all; intros ].

Section marshalling.
Context {F : Type} `{Float64 F}.

Lemma fits_enc_message tag bs : fits (enc_message tag bs) → fits bs.
Proof. intros Hf. by eapply fits_delimited, fits_cons. Qed.

(** An element of a repeated message. *)
Lemma fits_element {A} (enc : A → bytes) tag (l : list A) a :
  fits (l ≫= (λ e, enc_message tag (enc e))) → a ∈ l → fits (enc a).
Proof. intros Hf Ha. by eapply (fits_enc_message tag), (fits_bind (λ e, enc_message tag (enc e)) l). Qed.

Lemma repeated_writes {A} (enc : A → bytes) (marshal : A → bytes → res (bytes * Z)) tag (l : list A) :
  fits (l ≫= (λ e, enc_message tag (enc e))) → (∀ a, a ∈ l → fits (enc a) → marshals (marshal a) (enc a)) →
  writes (put_all (λ e, put_message tag (marshal e)) l) (l ≫= (λ e, enc_message tag (enc e))).
Proof.
  intros Hf Hm. apply writes_all. intros a Ha. pose proof (fits_element _ _ _ _ Hf Ha).
  apply writes_message; [done|by apply Hm].
Qed.

Lemma repeated_size {A} (enc : A → bytes) (Size : A → Z) tag (l : list A) :
  fits (l ≫= (λ e, enc_message tag (enc e))) → (∀ a, a ∈ l → fits (enc a) → Size a = len (enc a)) →
  size_all (λ e, message_size (Size e)) l = len (l ≫= (λ e, enc_message tag (enc e))).
Proof.
  intros Hf Hs. apply size_all_len. intros a Ha. pose proof (fits_element _ _ _ _ Hf Ha).
  by rewrite Hs, (message_size_len tag).
Qed.

Lemma Sample_writes (m : Sample) : fits (enc_Sample m) →
  marshals (Sample_MarshalToSizedBuffer m) (enc_Sample m) ∧ Sample_Size m = len (enc_Sample m).
Proof.
  unfold enc_Sample, Sample_Size. intros Hf. split_fits. split.
  - apply marshals_sized. solve_writes. destruct (is_zero (s_Value m)); [apply writes_nothing|].
    apply (writes_then _ _ _ [9]); [apply writes_fixed64|apply writes_byte].
  - rewrite !len_app, (varint_size_len 16). case_if; [done|]. rewrite len_cons, le_split_len. lia.
Qed.

Lemma Label_writes (m : Label) : fits (enc_Label m) →
  marshals (Label_MarshalToSizedBuffer m) (enc_Label m) ∧ Label_Size m = len (enc_Label m).
Proof.
  unfold enc_Label, Label_Size. intros Hf. split_fits. split.
  - apply marshals_sized. solve_writes.
  - rewrite !len_app, (string_size_len 10), (string_size_len 18) by (by eapply fits_enc_string). lia.
Qed.

Lemma TimeSeries_writes (m : TimeSeries) : fits (enc_TimeSeries m) →
  marshals (TimeSeries_MarshalToSizedBuffer m) (enc_TimeSeries m) ∧ TimeSeries_Size m = len (enc_TimeSeries m).
Proof.
  unfold enc_TimeSeries, TimeSeries_Size. intros Hf. split_fits. split.
  - apply marshals_sized. apply writes_then; [apply writes_bytes|apply writes_then]; apply repeated_writes;
      try done; intros; [by apply Sample_writes|by apply Label_writes].
  - rewrite !len_app. f_equal. f_equal; apply repeated_size; try done; intros; [by apply Label_writes|by apply Sample_writes].
Qed.

Lemma WriteRequest_writes (m : WriteRequest) : fits (enc_WriteRequest m) →
  marshals (WriteRequest_MarshalToSizedBuffer m) (enc_WriteRequest m) ∧ WriteRequest_Size m = len (enc_WriteRequest m).
Proof.
  unfold enc_WriteRequest, WriteRequest_Size. intros Hf. split_fits. split.
  - apply marshals_sized. apply writes_then; [apply writes_bytes|]. apply repeated_writes; [done|].
    intros. by apply TimeSeries_writes.
  - rewrite !len_app. f_equal. apply repeated_size; [done|]. intros. by apply TimeSeries_writes.
Qed.

Lemma LabelMatcher_writes (m : LabelMatcher) : fits (enc_LabelMatcher m) →
  marshals (LabelMatcher_MarshalToSizedBuffer m) (enc_LabelMatcher m) ∧ LabelMatcher_Size m = len (enc_LabelMatcher m).
Proof.
  unfold enc_LabelMatcher, LabelMatcher_Size. intros Hf. split_fits. split.
  - apply marshals_sized. solve_writes.
  - rewrite !len_app, (varint_size_len 8), (string_size_len 18), (string_size_len 26) by (by eapply fits_enc_string). lia.
Qed.

Lemma ReadHints_writes (m : ReadHints) : fits (enc_ReadHints m) →
  marshals (ReadHints_MarshalToSizedBuffer m) (enc_ReadHints m) ∧ ReadHints_Size m = len (enc_ReadHints m).
Proof.
  unfold enc_ReadHints, ReadHints_Size. intros Hf. split_fits. split.
  - apply marshals_sized. solve_writes.
    + destruct (h_By m); [|apply writes_nothing]. apply (writes_then _ _ [1] [48]); apply writes_byte.
    + apply writes_string. by eapply (fits_element bytes_of).
  - rewrite !len_app, (varint_size_len 8), (string_size_len 18), (varint_size_len 24), (varint_size_len 32),
      (varint_size_len 56) by (by eapply fits_enc_string).
    rewrite (repeated_size bytes_of (λ s, len (bytes_of s)) 42) by done. by case_if.
Qed.

Lemma Query_writes (m : Query) : fits (enc_Query m) →
  marshals (Query_MarshalToSizedBuffer m) (enc_Query m) ∧ Query_Size m = len (enc_Query m).
Proof.
  unfold enc_Query, Query_Size. intros Hf. split_fits.
  assert (∀ h, q_Hints m = Some h → fits (enc_ReadHints h)) as Hh.
  { intros h Hq. rewrite Hq in *. by eapply (fits_enc_message 34). }
  split.
  - apply marshals_sized. apply writes_then; [apply writes_bytes|]. apply writes_then.
    { destruct (q_Hints m) as [h|]; [|apply writes_nothing].
      apply writes_message; [by apply Hh|]. by apply ReadHints_writes, Hh. }
    apply writes_then; [|solve_writes]. apply repeated_writes; [done|]. intros. by apply LabelMatcher_writes.
  - rewrite !len_app, (varint_size_len 8), (varint_size_len 16).
    rewrite (repeated_size enc_LabelMatcher LabelMatcher_Size 26) by (try done; intros; by apply LabelMatcher_writes).
    do 2 f_equal. destruct (q_Hints m) as [h|]; [|done].
    rewrite (proj2 (ReadHints_writes h (Hh h eq_refl))). apply message_size_len. by apply Hh.
Qed.

Lemma packed_groups_uvarint n k v : (0 < n ≤ k)%nat → 0 ≤ v < 2 ^ (7 * Z.of_nat n) → packed_groups n v = groups k v.
Proof.
  revert k v. induction n as [|n IH]; intros [|k] v Hn Hv; try lia. cbn [packed_groups groups].
  destruct (Z.leb_spec 128 v).
  - destruct (groups_next n v ltac:(lia)) as (Hv' & Hn' & _). by rewrite (IH k) by lia.
  - by rewrite Z.mod_small by lia.
Qed.

(** The response types are those of the enumeration, or at least not negative: the packed
    form of a negative one is a single byte. *)
Definition enum_ok (v : Z) : Prop := 0 ≤ v < 2 ^ 31.

Lemma packed_uvarint vs : Forall enum_ok vs → packed vs = vs ≫= uvarint.
Proof.
  unfold packed, enum_ok. induction 1 as [|v vs Hv _ IH]; [done|]. cbn [mbind list_bind]. f_equal; [|exact IH].
  apply packed_groups_uvarint; [lia|simpl; lia].
Qed.

Lemma packed_size vs : Forall enum_ok vs → size_all (λ e, sov (wrapu64 e)) vs = len (vs ≫= uvarint).
Proof.
  unfold enum_ok. intros Hvs. apply size_all_len. intros v Hv. rewrite Forall_forall in Hvs. specialize (Hvs v Hv).
  by rewrite wrapu64_id, uvarint_len by lia.
Qed.

Lemma ReadRequest_writes (m : ReadRequest) : Forall enum_ok (r_AcceptedResponseTypes m) → fits (enc_ReadRequest m) →
  marshals (ReadRequest_MarshalToSizedBuffer m) (enc_ReadRequest m) ∧ ReadRequest_Size m = len (enc_ReadRequest m).
Proof.
  unfold enc_ReadRequest, ReadRequest_Size. intros Hen Hf. split_fits. split.
  - apply marshals_sized. apply writes_then; [apply writes_bytes|]. apply writes_then.
    + rewrite packed_uvarint by done. destruct (0 <? len (r_AcceptedResponseTypes m)) eqn:E; [|apply writes_nothing].
      match goal with Hp : fits (enc_message 18 _) |- _ => apply fits_enc_message in Hp end.
      set (bs := r_AcceptedResponseTypes m ≫= uvarint) in *.
      change (enc_message 18 bs) with (([18] ++ uvarint (len bs)) ++ bs). pose proof (len_nonneg bs). unfold fits, max_int64 in *.
      rewrite wrapu64_id by lia. apply writes_then; [apply writes_bytes|].
      apply writes_then; [apply writes_varint; lia|apply writes_byte].
    + apply repeated_writes; [done|]. intros. by apply Query_writes.
  - rewrite !len_app. rewrite (repeated_size enc_Query Query_Size 10) by (try done; intros; by apply Query_writes).
    do 2 f_equal. destruct (0 <? len (r_AcceptedResponseTypes m)); [|done].
    match goal with Hp : fits (enc_message 18 _) |- _ => apply fits_enc_message in Hp; rewrite <-(message_size_len 18 _ Hp) end.
    cbv zeta. rewrite packed_size by done. unfold message_size. lia.
Qed.

Lemma QueryResult_writes (m : QueryResult) : fits (enc_QueryResult m) →
  marshals (QueryResult_MarshalToSizedBuffer m) (enc_QueryResult m) ∧ QueryResult_Size m = len (enc_QueryResult m).
Proof.
  unfold enc_QueryResult, QueryResult_Size. intros Hf. split_fits. split.
  - apply marshals_sized. apply writes_then; [apply writes_bytes|]. apply repeated_writes; [done|].
    intros. by apply TimeSeries_writes.
  - rewrite !len_app. f_equal. apply repeated_size; [done|]. intros. by apply TimeSeries_writes.
Qed.

Lemma ReadResponse_writes (m : ReadResponse) : fits (enc_ReadResponse m) →
  marshals (ReadResponse_MarshalToSizedBuffer m) (enc_ReadResponse m) ∧ ReadResponse_Size m = len (enc_ReadResponse m).
Proof.
  unfold enc_ReadResponse, ReadResponse_Size. intros Hf. split_fits. split.
  - apply marshals_sized. apply writes_then; [apply writes_bytes|]. apply repeated_writes; [done|].
    intros. by apply QueryResult_writes.
  - rewrite !len_app. f_equal. apply repeated_size; [done|]. intros. by apply QueryResult_writes.
Qed.

End marshalling.
(** ** Messages up to what lies beyond their slices *)

Section equivalence.
Context {F : Type}.

Record same_series (a b : TimeSeries (F:=F)) : Prop := {
  same_Labels : items (t_Labels a) = items (t_Labels b);
  same_Samples : items (t_Samples a) = items (t_Samples b);
  same_unrecognized : t_unrecognized a = t_unrecognized b;
}.
#[global] Instance TimeSeries_equiv : Equiv (TimeSeries (F:=F)) := same_series.
#[global] Instance WriteRequest_equiv : Equiv (WriteRequest (F:=F)) := λ a b,
  items (w_Timeseries a) ≡ items (w_Timeseries b) ∧ w_unrecognized a = w_unrecognized b.
#[global] Instance QueryResult_equiv : Equiv (QueryResult (F:=F)) := λ a b,
  qr_Timeseries a ≡ qr_Timeseries b ∧ qr_unrecognized a = qr_unrecognized b.
#[global] Instance ReadResponse_equiv : Equiv (ReadResponse (F:=F)) := λ a b,
  rr_Results a ≡ rr_Results b ∧ rr_unrecognized a = rr_unrecognized b.

#[global] Instance TimeSeries_equivalence : Equivalence (≡@{TimeSeries (F:=F)}).
Proof.
  split.
  - intros a. by split.
  - intros a b []. by split.
  - intros a b c [] []. split; by etrans.
Qed.
#[global] Instance WriteRequest_equivalence : Equivalence (≡@{WriteRequest (F:=F)}).
Proof.
  split.
  - intros a. by split.
  - intros a b []. by split.
  - intros a b c [] []. split; by etrans.
Qed.
#[global] Instance QueryResult_equivalence : Equivalence (≡@{QueryResult (F:=F)}).
Proof.
  split.
  - intros a. by split.
  - intros a b []. by split.
  - intros a b c [] []. split; by etrans.
Qed.

#[global] Instance items_Timeseries_proper : Proper ((≡) ==> (≡)) (λ m : WriteRequest (F:=F), items (w_Timeseries m)).
Proof. by intros a b []. Qed.

End equivalence.

(** ** Well-formed messages

    What a program builds: integers of their width and no unknown bytes.  A float that is
    zero is left out of the encoding whatever its sign, and is positive once decoded. *)

Section wellformed.
Context {F : Type} `{Float64 F}.

Definition Sample_wf (m : Sample (F:=F)) : Prop := in_int64 (s_Timestamp m) ∧ s_unrecognized m = [].
Definition Label_wf (m : Label) : Prop := l_unrecognized m = [].
Definition TimeSeries_wf (m : TimeSeries (F:=F)) : Prop :=
  Forall Label_wf (items (t_Labels m)) ∧ Forall Sample_wf (items (t_Samples m)) ∧ t_unrecognized m = [].
Definition WriteRequest_wf (m : WriteRequest (F:=F)) : Prop :=
  Forall TimeSeries_wf (items (w_Timeseries m)) ∧ w_unrecognized m = [].
Definition LabelMatcher_wf (m : LabelMatcher) : Prop := - 2 ^ 31 ≤ m_Type m < 2 ^ 31 ∧ m_unrecognized m = [].
Definition ReadHints_wf (m : ReadHints) : Prop :=
  in_int64 (h_StepMs m) ∧ in_int64 (h_StartMs m) ∧ in_int64 (h_EndMs m) ∧ in_int64 (h_RangeMs m) ∧
  h_unrecognized m = [].
Definition Query_wf (m : Query) : Prop :=
  in_int64 (q_StartTimestampMs m) ∧ in_int64 (q_EndTimestampMs m) ∧ Forall LabelMatcher_wf (q_Matchers m) ∧
  (∀ h, q_Hints m = Some h → ReadHints_wf h) ∧ q_unrecognized m = [].
Definition ReadRequest_wf (m : ReadRequest) : Prop :=
  Forall Query_wf (r_Queries m) ∧ Forall enum_ok (r_AcceptedResponseTypes m) ∧ r_unrecognized m = [].
Definition QueryResult_wf (m : QueryResult (F:=F)) : Prop :=
  Forall TimeSeries_wf (qr_Timeseries m) ∧ qr_unrecognized m = [].
Definition ReadResponse_wf (m : ReadResponse (F:=F)) : Prop :=
  Forall QueryResult_wf (rr_Results m) ∧ rr_unrecognized m = [].

(** What a reader gets. *)
Definition canon_float (v : F) : F := if is_zero v then Float64frombits 0 else v.
Definition canon_Sample (m : Sample (F:=F)) : Sample (F:=F) :=
  MkSample (canon_float (s_Value m)) (s_Timestamp m) (s_unrecognized m).
Definition canon_TimeSeries (m : TimeSeries (F:=F)) : TimeSeries (F:=F) :=
  MkTimeSeries (t_Labels m) (MkSlice (canon_Sample <$> items (t_Samples m)) (beyond (t_Samples m))) (t_unrecognized m).
Definition canon_WriteRequest (m : WriteRequest (F:=F)) : WriteRequest (F:=F) :=
  MkWriteRequest (MkSlice (canon_TimeSeries <$> items (w_Timeseries m)) (beyond (w_Timeseries m))) (w_unrecognized m).
Definition canon_QueryResult (m : QueryResult (F:=F)) : QueryResult (F:=F) :=
  MkQueryResult (canon_TimeSeries <$> qr_Timeseries m) (qr_unrecognized m).
Definition canon_ReadResponse (m : ReadResponse (F:=F)) : ReadResponse (F:=F) :=
  MkReadResponse (canon_QueryResult <$> rr_Results m) (rr_unrecognized m).

End wellformed.

(** ** Decoding an encoding *)

Section decoding.
Context {F : Type} `{Float64Laws F} (growth : nat → nat).

Lemma Sample_read (m : Sample (F:=F)) : Sample_wf m → fits (enc_Sample m) →
  Sample_Unmarshal Sample_zero (enc_Sample m) = Ok (canon_Sample m).
Proof.
  intros (Ht & Hu) Hf. apply Unmarshal_reads; [done|]. unfold enc_Sample. rewrite Hu, app_nil_r.
  destruct m as [v t u]. unfold canon_Sample, canon_float. simpl in *. subst u.
  apply (reads_app _ _ _ _ (MkSample (if is_zero v then Float64frombits 0 else v) 0 [])).
  - destruct (is_zero v); [apply reads_nil|].
    apply reads_field; [done|done|]. intros d i Hd Hat Hi He. simpl.
    rewrite (fixed64_read d i Hd (Float64bits v)) by (done || apply Float64bits_range). simpl. by rewrite Float64frombits_bits.
  - by apply (reads_enc_varint _ _ _ 16 _ (λ t, MkSample (if is_zero v then Float64frombits 0 else v) t [])); [..|intros ->].
Qed.

Lemma Label_read (m : Label) : Label_wf m → fits (enc_Label m) → Label_Unmarshal Label_zero (enc_Label m) = Ok m.
Proof.
  intros Hu Hf. apply Unmarshal_reads; [done|]. unfold enc_Label. destruct m as [n v u]. unfold Label_wf in Hu. simpl in *.
  subst u. rewrite app_nil_r. apply (reads_app _ _ _ _ (MkLabel n "" [])).
  - by apply (reads_enc_string _ _ _ 10 _ (λ n, MkLabel n "" [])); [..|intros ->].
  - by apply (reads_enc_string _ _ _ 18 _ (λ v, MkLabel n v [])); [..|intros ->].
Qed.

Lemma repeated_field_read {A} (zero : A) Reset (U : A → bytes → res A) s d i bs a' :
  fits d → at_ d i (delimited bs) → i + len (delimited bs) ≤ len d →
  U (next_slot growth zero Reset s).1 bs = Ok a' →
  repeated_field growth zero Reset U s d i =
    Ok (MkSlice (items s ++ [a']) (next_slot growth zero Reset s).2, i + len (delimited bs)).
Proof.
  intros Hd Hat He Hu. unfold repeated_field. destruct (next_slot growth zero Reset s) as [x rest].
  by rewrite (message_read d i Hd U x bs a').
Qed.

(** An element is decoded into a new message or into one that was reset. *)
Definition slot_of {A} (zero : A) (Reset : A → A) (x : A) : Prop := x = zero ∨ ∃ y, x = Reset y.

Lemma next_slot_of {A} (zero : A) Reset s : slot_of zero Reset (next_slot growth zero Reset s).1.
Proof. unfold next_slot, slot_of. destruct (beyond s); naive_solver. Qed.

Lemma reads_repeated {M A} name field unrec tag (set : Slice A → M) (zero : A) Reset U enc (R : A → A → Prop) (l : list A) s :
  8 ≤ tag < 128 → Z.land tag 7 = 2 →
  (∀ s d i, field (set s) (Z.shiftr tag 3) 2 d i =
     Some (let* (v, i) := repeated_field growth zero Reset U s d i in Ok (set v, i))) →
  (∀ a x, a ∈ l → slot_of zero Reset x → ∃ a', U x (enc a) = Ok a' ∧ R a' a) →
  ∃ s' l', reads name field unrec (set s) (l ≫= (λ e, enc_message tag (enc e))) (set s') ∧
    items s' = items s ++ l' ∧ Forall2 R l' l.
Proof.
  intros Ht Hw Hf. revert s. induction l as [|a l IH]; intros s HU.
  { exists s, []. rewrite app_nil_r. split_and!; [apply reads_nil|done|constructor]. }
  destruct (HU a (next_slot growth zero Reset s).1 ltac:(left) (next_slot_of _ _ _)) as (a' & Ha & HR).
  destruct (IH (MkSlice (items s ++ [a']) (next_slot growth zero Reset s).2)) as (s' & l' & Hr & Hi & Hl).
  { intros. apply HU; [by right|done]. }
  exists s', (a' :: l'). split_and!; [|by rewrite Hi; simpl; rewrite <-(assoc_L (++))|by constructor].
  eapply (reads_app _ _ _ _ (set (MkSlice (items s ++ [a']) (next_slot growth zero Reset s).2))); [|exact Hr].
  apply reads_field; [done|by rewrite Hw|]. intros d i Hd Hat Hi' He.
  rewrite Hw, Hf, (repeated_field_read zero Reset U s d i (enc a) a') by done. done.
Qed.

Lemma Forall2_eq_l {A} (l l' : list A) : Forall2 eq l' l → l' = l.
Proof. by rewrite list_eq_Forall2. Qed.
Lemma Forall2_fmap_l {A B} (f : A → B) (l : list A) l' : Forall2 (λ b a, b = f a) l' l → l' = f <$> l.
Proof. induction 1; simplify_eq/=; by f_equal. Qed.
Lemma Forall2_fmap_equiv {A B} `{Equiv B} (f : A → B) (l : list A) l' : Forall2 (λ b a, b ≡ f a) l' l → l' ≡ f <$> l.
Proof. rewrite list_equiv_Forall2, Forall2_fmap_r. done. Qed.

Lemma Labels_fits (m : TimeSeries (F:=F)) : fits (enc_TimeSeries m) →
  (∀ a, a ∈ items (t_Labels m) → fits (enc_Label a)) ∧ (∀ a, a ∈ items (t_Samples m) → fits (enc_Sample a)).
Proof.
  unfold enc_TimeSeries. intros Hf. split_fits. split; intros a Ha; by eapply fits_element.
Qed.

Lemma TimeSeries_read m0 (m : TimeSeries (F:=F)) :
  slot_of TimeSeries_zero TimeSeries_Reset m0 → TimeSeries_wf m → fits (enc_TimeSeries m) →
  ∃ m', TimeSeries_Unmarshal growth m0 (enc_TimeSeries m) = Ok m' ∧ m' ≡ canon_TimeSeries m.
Proof.
  intros Hm0 (Hls & Hss & Hu) Hf. destruct (Labels_fits m Hf) as [Hfl Hfs]. rewrite Forall_forall in Hls. rewrite Forall_forall in Hss.
  assert (∃ ls ss, m0 = MkTimeSeries ls ss [] ∧ items ls = [] ∧ items ss = []) as (ls & ss & -> & Hl0 & Hs0).
  { destruct Hm0 as [->|[y ->]]; eexists _, _; done. }
  destruct (reads_repeated "TimeSeries" (TimeSeries_field growth) TimeSeries_unrecognized 10 (λ v, MkTimeSeries v ss [])
    Label_zero Label_Reset Label_Unmarshal enc_Label eq (items (t_Labels m)) ls) as (ls' & l' & Hr1 & Hi1 & Hl1);
    [done|done|done| |].
  { intros a x Ha Hx. exists a. split; [|done]. assert (x = Label_zero) as -> by (destruct Hx as [->|[y ->]]; done).
    apply Label_read; auto. }
  destruct (reads_repeated "TimeSeries" (TimeSeries_field growth) TimeSeries_unrecognized 18 (λ v, MkTimeSeries ls' v [])
    Sample_zero Sample_Reset Sample_Unmarshal enc_Sample (λ a' a, a' = canon_Sample a) (items (t_Samples m)) ss) as (ss' & l2 & Hr2 & Hi2 & Hl2);
    [done|done|done| |].
  { intros a x Ha Hx. exists (canon_Sample a). split; [|done]. assert (x = Sample_zero) as -> by (destruct Hx as [->|[y ->]]; done).
    apply Sample_read; auto. }
  exists (MkTimeSeries ls' ss' []). split.
  - apply Unmarshal_reads; [done|]. unfold enc_TimeSeries. rewrite Hu, app_nil_r. by eapply reads_app.
  - apply Forall2_eq_l in Hl1 as ->. apply Forall2_fmap_l in Hl2 as ->. split; simpl; [by rewrite Hi1, Hl0|by rewrite Hi2, Hs0|done].
Qed.

Lemma WriteRequest_read m0 (m : WriteRequest (F:=F)) :
  WriteRequest_wf m → fits (enc_WriteRequest m) →
  ∃ m', WriteRequest_Unmarshal growth (WriteRequest_Reset m0) (enc_WriteRequest m) = Ok m' ∧ m' ≡ canon_WriteRequest m.
Proof.
  intros (Hts & Hu) Hf. rewrite Forall_forall in Hts.
  destruct (reads_repeated "WriteRequest" (WriteRequest_field growth) WriteRequest_unrecognized 10 (λ v, MkWriteRequest v [])
    TimeSeries_zero TimeSeries_Reset (TimeSeries_Unmarshal growth) enc_TimeSeries (λ a' a, a' ≡ canon_TimeSeries a) (items (w_Timeseries m))
    (truncated (w_Timeseries m0))) as (s' & l' & Hr & Hi & Hl); [done|done|done| |].
  { intros a x Ha Hx. apply TimeSeries_read; [done|by apply Hts|].
    unfold enc_WriteRequest in Hf. split_fits. by eapply fits_element. }
  exists (MkWriteRequest s' []). split.
  - apply Unmarshal_reads; [done|]. unfold enc_WriteRequest. rewrite Hu, app_nil_r. exact Hr.
  - split; simpl; [|done]. rewrite Hi. simpl. by apply Forall2_fmap_equiv.
Qed.

(** A repeated message behind pointers. *)
Lemma reads_pushed {M A} name field unrec tag (set : list A → M) (zero : A) U enc (R : A → A → Prop) (l vs : list A) :
  8 ≤ tag < 128 → Z.land tag 7 = 2 →
  (∀ vs d i, field (set vs) (Z.shiftr tag 3) 2 d i =
     Some (let* (v, i) := message_field U zero d i in Ok (set (vs ++ [v]), i))) →
  (∀ a, a ∈ l → ∃ a', U zero (enc a) = Ok a' ∧ R a' a) →
  ∃ l', reads name field unrec (set vs) (l ≫= (λ e, enc_message tag (enc e))) (set (vs ++ l')) ∧ Forall2 R l' l.
Proof.
  intros Ht Hw Hf. revert vs. induction l as [|a l IH]; intros vs HU.
  { exists []. rewrite app_nil_r. split; [apply reads_nil|constructor]. }
  destruct (HU a ltac:(left)) as (a' & Ha & HR).
  destruct (IH (vs ++ [a'])) as (l' & Hr & Hl); [intros; apply HU; by right|].
  exists (a' :: l'). split; [|by constructor]. rewrite <-(assoc_L (++)) in Hr.
  eapply (reads_app _ _ _ _ (set (vs ++ [a']))); [|exact Hr].
  by apply (reads_message _ _ _ tag _ (λ v, set (vs ++ [v])) U zero).
Qed.

Lemma LabelMatcher_read (m : LabelMatcher) : LabelMatcher_wf m → fits (enc_LabelMatcher m) →
  LabelMatcher_Unmarshal LabelMatcher_zero (enc_LabelMatcher m) = Ok m.
Proof.
  intros (Ht & Hu) Hf. apply Unmarshal_reads; [done|]. unfold enc_LabelMatcher. destruct m as [t n v u]. simpl in *.
  subst u. rewrite app_nil_r.
  apply (reads_app _ _ _ _ (MkLabelMatcher t n "" [])); [apply (reads_app _ _ _ _ (MkLabelMatcher t "" "" []))|].
  - by apply (reads_enc_enum _ _ _ 8 _ (λ t, MkLabelMatcher t "" "" [])); [..|intros ->].
  - by apply (reads_enc_string _ _ _ 18 _ (λ n, MkLabelMatcher t n "" [])); [..|intros ->].
  - by apply (reads_enc_string _ _ _ 26 _ (λ v, MkLabelMatcher t n v [])); [..|intros ->].
Qed.

Lemma Grouping_reads step func start end_ by_ range u (l vs : list string) :
  reads "ReadHints" ReadHints_field ReadHints_unrecognized (MkReadHints step func start end_ vs by_ range u)
    (l ≫= (λ s, enc_message 42 (bytes_of s))) (MkReadHints step func start end_ (vs ++ l) by_ range u).
Proof.
  revert vs. induction l as [|s l IH]; intros vs; [rewrite app_nil_r; apply reads_nil|].
  specialize (IH (vs ++ [s])). rewrite <-(assoc_L (++)) in IH. eapply reads_app; [|exact IH].
  by apply (reads_string _ _ _ 42 _ (λ v, MkReadHints step func start end_ (vs ++ [v]) by_ range u)).
Qed.

Lemma ReadHints_read (m : ReadHints) : ReadHints_wf m → fits (enc_ReadHints m) →
  ReadHints_Unmarshal ReadHints_zero (enc_ReadHints m) = Ok m.
Proof.
  intros (H1 & H2 & H3 & H4 & Hu) Hf. apply Unmarshal_reads; [done|]. unfold enc_ReadHints.
  destruct m as [step func start end_ g b range u]. simpl in *. subst u. rewrite app_nil_r.
  eapply reads_app; [eapply reads_app; [eapply reads_app; [eapply reads_app; [eapply reads_app; [eapply reads_app|]|]|]|]|].
  - by apply (reads_enc_varint _ _ _ 8 _ (λ v, MkReadHints v "" 0 0 [] false 0 [])); [..|intros ->].
  - by apply (reads_enc_string _ _ _ 18 _ (λ v, MkReadHints step v 0 0 [] false 0 [])); [..|intros ->].
  - by apply (reads_enc_varint _ _ _ 24 _ (λ v, MkReadHints step func v 0 [] false 0 [])); [..|intros ->].
  - by apply (reads_enc_varint _ _ _ 32 _ (λ v, MkReadHints step func start v [] false 0 [])); [..|intros ->].
  - apply Grouping_reads.
  - by apply (reads_true _ _ _ 48 _ (λ v, MkReadHints step func start end_ g v 0 [])); [..|intros ->].
  - by apply (reads_enc_varint _ _ _ 56 _ (λ v, MkReadHints step func start end_ g b v [])); [..|intros ->].
Qed.

Lemma Query_read (m : Query) : Query_wf m → fits (enc_Query m) → Query_Unmarshal Query_zero (enc_Query m) = Ok m.
Proof.
  intros (H1 & H2 & Hms & Hh & Hu) Hf. pose proof Hf as Hf'. unfold enc_Query in Hf'. split_fits.
  apply Unmarshal_reads; [done|]. unfold enc_Query. destruct m as [start end_ ms h u]. simpl in *. subst u. rewrite app_nil_r.
  destruct (reads_pushed "Query" Query_field Query_unrecognized 26 (λ v, MkQuery start end_ v None []) LabelMatcher_zero
    LabelMatcher_Unmarshal enc_LabelMatcher eq ms []) as (ms' & Hr & Hl%Forall2_eq_l); [done|done|done| |subst ms'].
  { intros a Ha. exists a. split; [|done]. rewrite Forall_forall in Hms. apply LabelMatcher_read; [auto|by eapply fits_element]. }
  eapply reads_app; [eapply reads_app; [eapply reads_app|exact Hr]|].
  - by apply (reads_enc_varint _ _ _ 8 _ (λ v, MkQuery v 0 [] None [])); [..|intros ->].
  - by apply (reads_enc_varint _ _ _ 16 _ (λ v, MkQuery start v [] None [])); [..|intros ->].
  - destruct h as [h|]; [|apply reads_nil].
    apply (reads_message _ _ _ 34 _ (λ v, MkQuery start end_ ms (Some v) []) ReadHints_Unmarshal ReadHints_zero); [done|done|done|].
    apply ReadHints_read; [by apply Hh|by eapply (fits_enc_message 34)].
Qed.

(** The packed field. *)
Lemma packed_loop_read d vs : fits d → ∀ fuel i acc, Forall enum_ok vs → (length vs < fuel)%nat → at_ d i (vs ≫= uvarint) →
  packed_loop fuel d i (i + len (vs ≫= uvarint)) acc = Ok (acc ++ vs, i + len (vs ≫= uvarint)).
Proof.
  intros Hd. induction vs as [|v vs IH]; intros fuel i acc Hvs Hfuel Hat; (destruct fuel as [|fuel]; [lia|]); cbn [packed_loop].
  { change (len ([] ≫= uvarint)) with 0. rewrite Z.add_0_r, Z.ltb_irrefl, app_nil_r. done. }
  apply Forall_cons in Hvs as [Hv Hvs]. cbn [mbind list_bind] in *. rewrite len_app in *.
  pose proof (len_nonneg (vs ≫= uvarint)). unfold enum_ok in Hv.
  pose proof (uvarint_len v ltac:(lia)) as Hl. pose proof (sov_pos v ltac:(lia)).
  destruct (Z.ltb_spec i (i + (len (uvarint v) + len (vs ≫= uvarint)))); [|lia].
  apply at_app in Hat as [Hat1 Hat2].
  pose proof (enum_read d i v ltac:(lia)) as He. rewrite (wrapu64_id v) in He by lia. rewrite He by done. cbn [res_bind].
  replace (i + (len (uvarint v) + len (vs ≫= uvarint))) with (i + len (uvarint v) + len (vs ≫= uvarint)) by lia.
  rewrite IH by (done || simpl in Hfuel; lia). by rewrite <-(assoc_L (++)).
Qed.

Lemma length_uvarints vs : Forall enum_ok vs → len vs ≤ len (vs ≫= uvarint).
Proof.
  unfold enum_ok. induction 1 as [|v vs Hv _ IH]; [done|]. cbn [mbind list_bind]. rewrite len_cons, len_app, uvarint_len by lia.
  pose proof (sov_pos v ltac:(lia)). fold (mbind uvarint vs). lia.
Qed.

Lemma ReadRequest_read (m : ReadRequest) : ReadRequest_wf m → fits (enc_ReadRequest m) →
  ReadRequest_Unmarshal ReadRequest_zero (enc_ReadRequest m) = Ok m.
Proof.
  intros (Hqs & Hen & Hu) Hf. pose proof Hf as Hf'. unfold enc_ReadRequest in Hf'. split_fits.
  apply Unmarshal_reads; [done|]. unfold enc_ReadRequest. destruct m as [qs vs u]. simpl in *. subst u. rewrite app_nil_r.
  destruct (reads_pushed "ReadRequest" ReadRequest_field ReadRequest_unrecognized 10 (λ v, MkReadRequest v [] []) Query_zero
    Query_Unmarshal enc_Query eq qs []) as (qs' & Hr & Hl%Forall2_eq_l); [done|done|done| |subst qs'].
  { intros a Ha. exists a. split; [|done]. rewrite Forall_forall in Hqs. apply Query_read; [auto|by eapply fits_element]. }
  eapply reads_app; [exact Hr|]. simpl.
  destruct (Z.ltb_spec 0 (len vs)) as [Hpos|Hz].
  - apply reads_field; [done|done|]. intros d i Hd Hat Hi He. simpl. unfold packed_field.
    destruct (delimited_read d i Hd wrap64 (vs ≫= uvarint)) as [-> _]; [apply bitwise_wrap64|intros; by apply wrap64_id|done|done|].
    cbn [res_bind]. unfold delimited in *. apply at_app in Hat as [_ Hat]. rewrite len_app in *.
    pose proof (length_uvarints vs Hen) as Hlen. pose proof (len_nonneg (uvarint (len (vs ≫= uvarint)))).
    rewrite !Z.add_assoc, packed_loop_read by (done || unfold len in *; lia). done.
  - assert (vs = []) as -> by (destruct vs; [done|rewrite len_cons in Hz; pose proof (len_nonneg vs); lia]). apply reads_nil.
Qed.

Lemma QueryResult_read (m : QueryResult (F:=F)) : QueryResult_wf m → fits (enc_QueryResult m) →
  ∃ m', QueryResult_Unmarshal growth QueryResult_zero (enc_QueryResult m) = Ok m' ∧ m' ≡ canon_QueryResult m.
Proof.
  intros (Hts & Hu) Hf. pose proof Hf as Hf'. unfold enc_QueryResult in Hf'. split_fits. rewrite Forall_forall in Hts.
  destruct (reads_pushed "QueryResult" (QueryResult_field growth) QueryResult_unrecognized 10 (λ v, MkQueryResult v [])
    TimeSeries_zero (TimeSeries_Unmarshal growth) enc_TimeSeries (λ a' a, a' ≡ canon_TimeSeries a) (qr_Timeseries m) []) as (l' & Hr & Hl); [done|done|done| |].
  { intros a Ha. apply TimeSeries_read; [by left|auto|by eapply fits_element]. }
  exists (MkQueryResult l' []). split; [|by split; [apply Forall2_fmap_equiv|]].
  apply Unmarshal_reads; [done|]. unfold enc_QueryResult. rewrite Hu, app_nil_r. exact Hr.
Qed.

Lemma ReadResponse_read (m : ReadResponse (F:=F)) : ReadResponse_wf m → fits (enc_ReadResponse m) →
  ∃ m', ReadResponse_Unmarshal growth ReadResponse_zero (enc_ReadResponse m) = Ok m' ∧ m' ≡ canon_ReadResponse m.
Proof.
  intros (Hrs & Hu) Hf. pose proof Hf as Hf'. unfold enc_ReadResponse in Hf'. split_fits. rewrite Forall_forall in Hrs.
  destruct (reads_pushed "ReadResponse" (ReadResponse_field growth) ReadResponse_unrecognized 10 (λ v, MkReadResponse v [])
    QueryResult_zero (QueryResult_Unmarshal growth) enc_QueryResult (λ a' a, a' ≡ canon_QueryResult a) (rr_Results m) []) as (l' & Hr & Hl); [done|done|done| |].
  { intros a Ha. apply QueryResult_read; [auto|by eapply fits_element]. }
  exists (MkReadResponse l' []). split; [|by split; [apply Forall2_fmap_equiv|]].
  apply Unmarshal_reads; [done|]. unfold enc_ReadResponse. rewrite Hu, app_nil_r. exact Hr.
Qed.

End decoding.

(** ** Decoding is safe

    Whatever the bytes are: no access out of range, no slice out of bounds, and the loops
    end within their fuel. *)

Ltac solve_field_ok :=
  repeat lazymatch goal with
  | |- True => exact I
  | |- field_ok _ _ (Err _) => exact I
  | |- field_ok _ _ (typed _ _ _ _) => apply typed_ok
  | |- field_ok _ _ (res_bind _ _) => apply bind_ok
  | |- field_ok _ _ (string_field _ _) => apply string_field_ok; assumption
  | |- field_ok _ _ (int64_field _ _) => apply int64_field_ok; assumption
  | |- field_ok _ _ (enum_field _ _) => apply enum_field_ok; assumption
  | |- field_ok _ _ (bool_field _ _) => apply bool_field_ok; assumption
  | |- field_ok _ _ (fixed64_field _ _) => apply fixed64_field_ok; assumption
  | |- field_ok _ _ (message_field _ _ _ _) => apply message_field_ok; [assumption..|intros]
  end.

(** One goal per field of a message. *)
Ltac each_field :=
  let m := fresh "m" in let f := fresh "f" in let w := fresh "w" in let i := fresh "i" in let Hi := fresh "Hi" in
  intros m f w i Hi;
  unfold Sample_field, Label_field, TimeSeries_field, WriteRequest_field, LabelMatcher_field, ReadHints_field,
    Query_field, ReadRequest_field, QueryResult_field, ReadResponse_field;
  destruct m; cbv beta iota; repeat (case_match; subst; cbv beta iota);
  repeat match goal with
  | Hr : None = Some _ |- _ => discriminate Hr
  | Hr : Some _ = Some _ |- _ => apply Some_inj in Hr as <-
  end; solve_field_ok.

Section safety.
Context {F : Type} `{Float64 F} (growth : nat → nat).

Lemma repeated_field_ok {A} (zero : A) Reset U s d i : fits d → 0 ≤ i ≤ len d →
  (∀ x bs, fits bs → safe (λ _, True) (U x bs)) → field_ok i d (repeated_field growth zero Reset U s d i).
Proof.
  intros Hd Hi HU. unfold repeated_field. destruct (next_slot growth zero Reset s) as [x rest].
  apply (bind_ok d i (message_field U x d i) (λ x, MkSlice (items s ++ [x]) rest)), message_field_ok; auto.
Qed.

Lemma packed_loop_ok fuel d i post vs : fits d → 0 ≤ i ≤ len d → post ≤ len d → len d - i < Z.of_nat fuel →
  field_ok i d (packed_loop fuel d i post vs).
Proof.
  intros Hd. revert i vs. induction fuel as [|fuel IH]; intros i vs Hi Hp Hf; [lia|]. cbn [packed_loop].
  case_if; [|simpl; lia]. unfold field_ok. eapply safe_bind; [apply (varint_safe int32); lia|]. intros [v j] Hj. simpl in Hj.
  eapply safe_mono; [apply IH; lia|]. intros [? k]. lia.
Qed.

Lemma packed_field_ok vs d i : fits d → 0 ≤ i ≤ len d → field_ok i d (packed_field vs d i).
Proof.
  unfold fits. intros Hd Hi. eapply safe_bind; [apply length_delimited_safe; lia|]. intros [j k] Hjk. simpl in Hjk.
  eapply safe_mono; [apply packed_loop_ok; unfold fits; try lia; unfold len in *; lia|]. intros [? l]. lia.
Qed.

Lemma Sample_safe (m : Sample (F:=F)) d : fits d → safe (λ _, True) (Sample_Unmarshal m d).
Proof. intros Hd. apply Unmarshal_safe; [|done]. each_field. Qed.
Lemma Label_safe m d : fits d → safe (λ _, True) (Label_Unmarshal m d).
Proof. intros Hd. apply Unmarshal_safe; [|done]. each_field. Qed.
Lemma LabelMatcher_safe m d : fits d → safe (λ _, True) (LabelMatcher_Unmarshal m d).
Proof. intros Hd. apply Unmarshal_safe; [|done]. each_field. Qed.
Lemma ReadHints_safe m d : fits d → safe (λ _, True) (ReadHints_Unmarshal m d).
Proof. intros Hd. apply Unmarshal_safe; [|done]. each_field. Qed.
Lemma Query_safe m d : fits d → safe (λ _, True) (Query_Unmarshal m d).
Proof.
  intros Hd. apply Unmarshal_safe; [|done]. each_field; [by apply LabelMatcher_safe|by apply ReadHints_safe].
Qed.
Lemma ReadRequest_safe m d : fits d → safe (λ _, True) (ReadRequest_Unmarshal m d).
Proof.
  intros Hd. apply Unmarshal_safe; [|done]. each_field; [by apply packed_field_ok|by apply Query_safe].
Qed.
Lemma TimeSeries_safe (m : TimeSeries (F:=F)) d : fits d → safe (λ _, True) (TimeSeries_Unmarshal growth m d).
Proof.
  intros Hd. apply Unmarshal_safe; [|done]. each_field; apply repeated_field_ok; try done; intros;
    [by apply Sample_safe|by apply Label_safe].
Qed.
Lemma WriteRequest_safe (m : WriteRequest (F:=F)) d : fits d → safe (λ _, True) (WriteRequest_Unmarshal growth m d).
Proof.
  intros Hd. apply Unmarshal_safe; [|done]. each_field. apply repeated_field_ok; try done. intros. by apply TimeSeries_safe.
Qed.
Lemma QueryResult_safe (m : QueryResult (F:=F)) d : fits d → safe (λ _, True) (QueryResult_Unmarshal growth m d).
Proof. intros Hd. apply Unmarshal_safe; [|done]. each_field. by apply TimeSeries_safe. Qed.
Lemma ReadResponse_safe (m : ReadResponse (F:=F)) d : fits d → safe (λ _, True) (ReadResponse_Unmarshal growth m d).
Proof. intros Hd. apply Unmarshal_safe; [|done]. each_field. by apply QueryResult_safe. Qed.

End safety.

(** ** A request from the pool decodes like a new one

    Two messages that agree up to what lies beyond their slices, on allocators that grow
    slices differently. *)

Section pooled.
Context {F : Type} `{Float64 F} (growth growth' : nat → nat).

Lemma field_rel_bind {A B A' B'} (R : A → B → Prop) (S : A' → B' → Prop) r r' (f : A → A') (f' : B → B') :
  field_rel R r r' → (∀ a b, R a b → S (f a) (f' b)) →
  field_rel S (let* (a, j) := r in Ok (f a, j)) (let* (b, j) := r' in Ok (f' b, j)).
Proof.
  intros Hr Hf. eapply res_rel_bind; [exact Hr|]. intros [a j] [b k] [Hab Hjk]. simpl in *. auto.
Qed.

Lemma repeated_field_rel {A} (R : A → A → Prop) (zero : A) Reset U U' s s' d i :
  (∀ x y, slot_of zero Reset x → slot_of zero Reset y → R x y) →
  (∀ x y bs, R x y → res_rel R (U x bs) (U' y bs)) →
  Forall2 R (items s) (items s') →
  field_rel (λ s s', Forall2 R (items s) (items s'))
    (repeated_field growth zero Reset U s d i) (repeated_field growth' zero Reset U' s' d i).
Proof.
  intros Hslot HU Hs. unfold repeated_field.
  pose proof (next_slot_of growth zero Reset s) as Hx. pose proof (next_slot_of growth' zero Reset s') as Hy.
  destruct (next_slot growth zero Reset s) as [x rest], (next_slot growth' zero Reset s') as [y rest'].
  apply (field_rel_bind R _ _ _ (λ x, MkSlice (items s ++ [x]) rest) (λ y, MkSlice (items s' ++ [y]) rest')).
  - apply message_field_rel; auto.
  - intros a b Hab. simpl. apply Forall2_app; [done|by constructor].
Qed.

(** Elements without slices are equal once they are reset. *)
Lemma repeated_field_eq {A} (zero : A) Reset U s s' d i :
  (∀ x, Reset x = zero) → items s = items s' →
  field_rel (λ s s', items s = items s') (repeated_field growth zero Reset U s d i)
    (repeated_field growth' zero Reset U s' d i).
Proof.
  intros Hz Hs. assert (Forall2 eq (items s) (items s')) as Hs' by by apply list_eq_Forall2.
  eapply (repeated_field_rel eq zero Reset U U _ _ d i) in Hs'.
  - unfold field_rel in *. destruct (repeated_field growth _ _ _ _ _ _) as [[]| |], (repeated_field growth' _ _ _ _ _ _) as [[]| |];
      simpl in *; rewrite <-?list_eq_Forall2 in *; done.
  - unfold slot_of. intros x y [->|[? ->]] [->|[? ->]]; by rewrite ?Hz.
  - intros x y bs ->. by apply res_rel_refl.
Qed.

Lemma TimeSeries_pooled (m m' : TimeSeries (F:=F)) d : m ≡ m' →
  res_rel (≡) (TimeSeries_Unmarshal growth m d) (TimeSeries_Unmarshal growth' m' d).
Proof.
  intros Hm. apply Unmarshal_rel; [|by intros ??? []; split; simpl; congruence|done]. clear.
  intros m m' f w d i [Hl Hs Hu]. unfold TimeSeries_field. repeat (case_match; try by constructor).
  all: constructor; apply typed_rel.
  - eapply field_rel_bind; [by apply repeated_field_eq|]. intros a b Hab. by split.
  - eapply field_rel_bind; [by apply repeated_field_eq|]. intros a b Hab. by split.
Qed.

Lemma TimeSeries_slots (x y : TimeSeries (F:=F)) :
  slot_of TimeSeries_zero TimeSeries_Reset x → slot_of TimeSeries_zero TimeSeries_Reset y → x ≡ y.
Proof. intros [->|[? ->]] [->|[? ->]]; by split. Qed.

Lemma WriteRequest_pooled (m m' : WriteRequest (F:=F)) d : m ≡ m' →
  res_rel (≡) (WriteRequest_Unmarshal growth m d) (WriteRequest_Unmarshal growth' m' d).
Proof.
  intros Hm. apply Unmarshal_rel; [|by intros ??? []; split; simpl; congruence|done]. clear.
  intros m m' f w d i [Hl Hu]. unfold WriteRequest_field. repeat (case_match; try by constructor).
  constructor. apply typed_rel. eapply field_rel_bind.
  - apply (repeated_field_rel (≡)); [apply TimeSeries_slots|intros; by apply TimeSeries_pooled|by apply list_equiv_Forall2].
  - intros a b Hab. split; simpl; [by apply list_equiv_Forall2|done].
Qed.

End pooled.

(** ** Go's floats, as their bits *)

Record word64 := Word { word : Z; word_range : (0 <=? word) && (word <? 2 ^ 64) = true }.

Lemma mod_range z : (0 <=? z mod 2 ^ 64) && (z mod 2 ^ 64 <? 2 ^ 64) = true.
Proof. pose proof (Z.mod_pos_bound z (2 ^ 64) eq_refl). lia. Qed.

(** The proof of a test that computes. *)
Definition decided (b : bool) : b = true → b = true :=
  match b with true => λ _, eq_refl | false => λ e, e end.

Definition word_of (z : Z) : word64 := Word (z mod 2 ^ 64) (decided _ (mod_range z)).

Lemma word_eq a b : word a = word b → a = b.
Proof.
  destruct a as [a Ha], b as [b Hb]. simpl. intros ->. f_equal. apply Eqdep_dec.UIP_dec, Bool.bool_dec.
Qed.

#[global] Instance ieee : Float64 word64 := {|
  Float64frombits := word_of;
  Float64bits := word;
  is_zero v := (word v mod 2 ^ 63 =? 0);
|}.
#[global] Instance ieee_laws : Float64Laws word64.
Proof.
  split; intros v; pose proof (word_range v) as Hv; simpl.
  - lia.
  - apply word_eq. simpl. rewrite Z.mod_small by lia. done.
Qed.

Lemma WriteRequest_Marshal_ok `{Float64 F} (m : WriteRequest (F:=F)) : fits (enc_WriteRequest m) →
  WriteRequest_Marshal m = Ok (enc_WriteRequest m) ∧ WriteRequest_Size m = len (enc_WriteRequest m).
Proof. intros Hf. destruct (WriteRequest_writes m Hf). split; [|done]. by apply marshal_ok. Qed.
Lemma ReadRequest_Marshal_ok (m : ReadRequest) : Forall enum_ok (r_AcceptedResponseTypes m) → fits (enc_ReadRequest m) →
  ReadRequest_Marshal m = Ok (enc_ReadRequest m) ∧ ReadRequest_Size m = len (enc_ReadRequest m).
Proof. intros He Hf. destruct (ReadRequest_writes m He Hf). split; [|done]. by apply marshal_ok. Qed.
Lemma ReadResponse_Marshal_ok `{Float64 F} (m : ReadResponse (F:=F)) : fits (enc_ReadResponse m) →
  ReadResponse_Marshal m = Ok (enc_ReadResponse m) ∧ ReadResponse_Size m = len (enc_ReadResponse m).
Proof. intros Hf. destruct (ReadResponse_writes m Hf). split; [|done]. by apply marshal_ok. Qed.

(** ** The properties *)

Section properties.
Context {F : Type} `{Float64Laws F} (growth : nat → nat).

(** C31. A write request survives the wire: what [Marshal] gives for a request with
    timestamps of 64 bits and no unknown fields is decoded, by [Unmarshal] into any
    request that was reset, whatever its slices held before, to the same series with the
    same labels and samples in the same order; only a negative zero becomes positive.
    A request holds fewer bytes than the address space. *)
Theorem WriteRequest_roundtrip m0 (m : WriteRequest (F:=F)) :
  WriteRequest_wf m → fits (enc_WriteRequest m) →
  ∃ bs m', WriteRequest_Marshal m = Ok bs ∧ WriteRequest_Unmarshal growth (WriteRequest_Reset m0) bs = Ok m' ∧
    m' ≡ canon_WriteRequest m.
Proof.
  intros Hwf Hf. destruct (WriteRequest_read growth m0 m Hwf Hf) as (m' & Hu & Hm).
  exists (enc_WriteRequest m), m'. split_and!; [by apply WriteRequest_Marshal_ok|done..].
Qed.

(** C32. So do the messages of remote read: a request comes back exactly, hints, matchers and
    accepted response types included, and so do the series of a response. *)
Theorem remote_read_roundtrip (req : ReadRequest) (resp : ReadResponse (F:=F)) :
  ReadRequest_wf req → fits (enc_ReadRequest req) → ReadResponse_wf resp → fits (enc_ReadResponse resp) →
  (∃ bs, ReadRequest_Marshal req = Ok bs ∧ ReadRequest_Unmarshal ReadRequest_zero bs = Ok req) ∧
  ∃ bs resp', ReadResponse_Marshal resp = Ok bs ∧ ReadResponse_Unmarshal growth ReadResponse_zero bs = Ok resp' ∧
    resp' ≡ canon_ReadResponse resp.
Proof.
  intros Hq Hfq Hr Hfr. split.
  - exists (enc_ReadRequest req). split; [apply ReadRequest_Marshal_ok; [apply Hq|done]|by apply ReadRequest_read].
  - destruct (ReadResponse_read growth resp Hr Hfr) as (resp' & Hu & Hm).
    exists (enc_ReadResponse resp), resp'. split_and!; [by apply ReadResponse_Marshal_ok|done..].
Qed.

(** C33. Decoding is safe and ends for every sequence of bytes, well-formed or not: no index
    out of range, no slice out of bounds and no loop that runs out of its turns; the
    result is a message or an error. *)
Theorem Unmarshal_total (d : bytes) :
  fits d →
  (∀ m : WriteRequest (F:=F), safe (λ _, True) (WriteRequest_Unmarshal growth m d)) ∧
  (∀ m, safe (λ _, True) (ReadRequest_Unmarshal m d)) ∧
  (∀ m : ReadResponse (F:=F), safe (λ _, True) (ReadResponse_Unmarshal growth m d)).
Proof.
  intros Hf. split_and!; intros; [by apply WriteRequest_safe|by apply ReadRequest_safe|by apply ReadResponse_safe].
Qed.

(** C34. [Marshal] refines the wire format: for every message, well-formed or not, [Size] is
    the exact length and the buffer, filled backwards, ends up as the fields in order,
    with no index out of range.  The response types of a read request must not be negative. *)
Theorem Marshal_refines (w : WriteRequest (F:=F)) (q : ReadRequest) (r : ReadResponse (F:=F)) :
  fits (enc_WriteRequest w) → fits (enc_ReadRequest q) → fits (enc_ReadResponse r) →
  Forall enum_ok (r_AcceptedResponseTypes q) →
  (WriteRequest_Marshal w = Ok (enc_WriteRequest w) ∧ WriteRequest_Size w = len (enc_WriteRequest w)) ∧
  (ReadRequest_Marshal q = Ok (enc_ReadRequest q) ∧ ReadRequest_Size q = len (enc_ReadRequest q)) ∧
  (ReadResponse_Marshal r = Ok (enc_ReadResponse r) ∧ ReadResponse_Size r = len (enc_ReadResponse r)).
Proof.
  intros. split_and!; by first [apply WriteRequest_Marshal_ok|apply ReadRequest_Marshal_ok|apply ReadResponse_Marshal_ok].
Qed.

(** C35. A request from the pool decodes like a new one: on any bytes, what the slices hold
    beyond their length and how they grow changes neither the error nor the series. *)
Theorem pool_transparent growth' (m0 : WriteRequest (F:=F)) (d : bytes) :
  res_rel (≡) (WriteRequest_Unmarshal growth (WriteRequest_Reset m0) d)
    (WriteRequest_Unmarshal growth' WriteRequest_zero d).
Proof. apply WriteRequest_pooled. by split. Qed.

End properties.

(** ** Concrete messages *)

Notation float := word64.
Definition ex_one : float := word_of 4607182418800017408.
Definition ex_minus_zero : float := word_of (2 ^ 63).
Definition ex_series : TimeSeries (F:=float) :=
  MkTimeSeries (MkSlice [MkLabel "__name__" "up" []; MkLabel "job" "" []] [])
    (MkSlice [MkSample ex_one 300 []; MkSample ex_one (-1) []] []) [].
Definition ex_write : WriteRequest (F:=float) := MkWriteRequest (MkSlice [ex_series] []) [].
(** What a pool hands out after [ex_write]. *)
Definition ex_used : WriteRequest (F:=float) :=
  MkWriteRequest (MkSlice [] [MkTimeSeries (MkSlice [] [MkLabel "old" "x" []]) no_items []; ex_series]) [].
Definition ex_query : Query :=
  MkQuery 0 9 [MkLabelMatcher 0 "__name__" "up" []] (Some (MkReadHints 15000 "rate" 0 9 ["job"] true 60000 [])) [].
Definition ex_read : ReadRequest := MkReadRequest [ex_query] [0; 1] [].
Definition ex_answer : ReadResponse (F:=float) := MkReadResponse [MkQueryResult [ex_series] []] [].

Definition ex_decode (m0 : WriteRequest) (d : bytes) : option (list (list (string * string) * list (Z * Z)) * bytes) :=
  match WriteRequest_Unmarshal (λ n, n) (WriteRequest_Reset m0) d with
  | Ok m => Some ((λ t, ((λ l, (l_Name l, l_Value l)) <$> items (t_Labels t),
                         (λ s, (word (s_Value s), s_Timestamp s)) <$> items (t_Samples t))) <$> items (w_Timeseries m),
                  w_unrecognized m)
  | _ => None
  end.

Example ex_write_bytes : WriteRequest_Marshal ex_write =
  Ok [10; 59; 10; 14; 10; 8; 95; 95; 110; 97; 109; 101; 95; 95; 18; 2; 117; 112; 10; 5; 10; 3; 106; 111; 98;
      18; 12; 9; 0; 0; 0; 0; 0; 0; 240; 63; 16; 172; 2;
      18; 20; 9; 0; 0; 0; 0; 0; 0; 240; 63; 16; 255; 255; 255; 255; 255; 255; 255; 255; 255; 1].
Proof. vm_compute. reflexivity. Qed.


Example ex_write_decodes :
  (let* bs := WriteRequest_Marshal ex_write in Ok (ex_decode ex_used bs)) =
  Ok (Some ([([("__name__", "up"); ("job", "")]%string, [(4607182418800017408, 300); (4607182418800017408, -1)])], [])).
Proof. vm_compute. reflexivity. Qed.

(** A negative zero is a value that is not left out by the format, yet the comparison with
    zero skips it: the sample arrives as a positive zero. *)
Example minus_zero_lost :
  (let* bs := WriteRequest_Marshal (MkWriteRequest (MkSlice [MkTimeSeries no_items (MkSlice [MkSample ex_minus_zero 1 []] []) []] []) []) in
   Ok (ex_decode WriteRequest_zero bs)) = Ok (Some ([([], [(0, 1)])], [])).
Proof. vm_compute. reflexivity. Qed.

(** A negative response type: [Size] counts ten bytes, one is written, at the end of the
    buffer, and [Marshal] returns as many bytes of its start. *)
Example negative_enum_misencoded :
  ReadRequest_Size (MkReadRequest [] [-1] []) = 12 ∧
  ReadRequest_Marshal (MkReadRequest [] [-1] []) = Ok [0; 0; 0].
Proof. vm_compute. done. Qed.

(** Field numbers are cut to 32 bits: the tag of field 2^32 + 1 is taken for field 1. *)
Example field_number_wraps :
  WriteRequest_Unmarshal (λ n, n) (WriteRequest_zero (F:=float)) (uvarint (2 ^ 35 + 10) ++ [0]) =
  Ok (MkWriteRequest (MkSlice [TimeSeries_zero] []) []).
Proof. vm_compute. reflexivity. Qed.

(** Unknown fields are kept, groups included; an end of a group without its start, a zero tag, a
    field cut short and an integer of more than ten bytes are errors. *)
Example ex_unknown : ex_decode WriteRequest_zero [59; 16; 1; 60; 24; 7] = Some ([], [59; 16; 1; 60; 24; 7]).
Proof. vm_compute. reflexivity. Qed.
Example ex_malformed :
  (λ d, WriteRequest_Unmarshal (λ n, n) (WriteRequest_zero (F:=float)) d) <$>
    [[12]; [0]; [10; 3; 8]; [10; 255; 255; 255; 255; 255; 255; 255; 255; 255; 1]; replicate 11 255] =
  [Err (Errorf "proto: WriteRequest: wiretype end group for non-group");
   Err (Errorf "proto: WriteRequest: illegal tag %d (wire type %d)");
   Err ErrUnexpectedEOF; Err ErrInvalidLength; Err ErrIntOverflow].
Proof. vm_compute. reflexivity. Qed.

Lemma ex_series_wf : TimeSeries_wf ex_series.
Proof.
  split_and!; [..|done]; simpl; repeat (apply Forall_cons; split); try apply Forall_nil; try done;
    (split; [unfold in_int64, min_int64, max_int64; simpl; lia|done]).
Qed.
Lemma ex_write_wf : WriteRequest_wf ex_write.
Proof. split; [|done]. apply Forall_singleton, ex_series_wf. Qed.

Lemma WriteRequest_roundtrip_witness :
  ∃ bs m', WriteRequest_Marshal ex_write = Ok bs ∧
    WriteRequest_Unmarshal (λ n, n) (WriteRequest_Reset ex_used) bs = Ok m' ∧ m' ≡ canon_WriteRequest ex_write.
Proof. apply (WriteRequest_roundtrip (λ n, n) ex_used ex_write); [exact ex_write_wf|vm_compute; done]. Defined.

Lemma ex_read_types : Forall enum_ok (r_AcceptedResponseTypes ex_read).
Proof. unfold enum_ok. simpl. repeat (apply Forall_cons; split); [lia|lia|apply Forall_nil]; done. Qed.
Lemma ex_read_wf : ReadRequest_wf ex_read.
Proof.
  split; [|split; [exact ex_read_types|done]]. constructor; [|constructor].
  split_and!; [done|done|by repeat constructor| |done]. intros h [= <-]. by split_and!.
Qed.
Lemma ex_answer_wf : ReadResponse_wf ex_answer.
Proof. split; [|done]. apply Forall_singleton. split; [|done]. apply Forall_singleton, ex_series_wf. Qed.

Lemma remote_read_roundtrip_witness :
  ∃ bs resp', ReadResponse_Marshal ex_answer = Ok bs ∧
    ReadResponse_Unmarshal (λ n, n) ReadResponse_zero bs = Ok resp' ∧ resp' ≡ canon_ReadResponse ex_answer.
Proof.
  apply (remote_read_roundtrip (λ n, n) ex_read ex_answer);
    [exact ex_read_wf|vm_compute; done|exact ex_answer_wf|vm_compute; done].
Defined.

Lemma Unmarshal_total_witness :
  safe (λ _, True) (WriteRequest_Unmarshal (λ n, n) ex_used (replicate 40 255)).
Proof.
  destruct (Unmarshal_total (F:=float) (λ n, n) (replicate 40 255)) as (Hw & _); [vm_compute; done|apply Hw].
Defined.

Lemma Marshal_refines_witness : ReadRequest_Marshal ex_read = Ok (enc_ReadRequest ex_read).
Proof.
  destruct (Marshal_refines ex_write ex_read ex_answer) as (_ & [Hq _] & _);
    [vm_compute; done..|exact ex_read_types|exact Hq].
Defined.

End Pb.
