(* ===== verification/Float.v ===== *)
(** * IEEE binary64 numbers

    Go's [float64] is the binary64 of [SpecFloat], with one NaN; the functions of
    package [math] the program calls are here as far as they are exact.  The
    comparison of numbers that are not NaN is a strict weak order
    ([flt_strict_weak]), which is what sorting them needs. *)
From S2P Require Import Prelude.
From Stdlib Require Export SpecFloat.

Definition float64 : Type := spec_float.

#[global] Instance float64_eq_dec : EqDecision float64.
Proof. unfold float64. solve_decision. Defined.

(** ** Arithmetic, rounded to nearest even *)

Definition float_of_Z (z : Z) : float64 := binary_normalize 53 1024 z 0 false.
Definition float_add : float64 → float64 → float64 := SFadd 53 1024.
Definition float_sub : float64 → float64 → float64 := SFsub 53 1024.
Definition float_mul : float64 → float64 → float64 := SFmul 53 1024.
Definition float_div : float64 → float64 → float64 := SFdiv 53 1024.
Definition Sqrt : float64 → float64 := SFsqrt 53 1024.
Definition NaN : float64 := S754_nan.
Definition Inf (neg : bool) : float64 := S754_infinity neg.

Declare Scope float_scope.
Delimit Scope float_scope with F.
Bind Scope float_scope with float64.
Infix "+" := float_add : float_scope.
Infix "-" := float_sub : float_scope.
Infix "*" := float_mul : float_scope.
Infix "/" := float_div : float_scope.
Infix "<?" := SFltb : float_scope.
Infix "<=?" := SFleb : float_scope.
Infix "=?" := SFeqb : float_scope.
Notation "x >? y" := (SFltb y x) (at level 70, only parsing) : float_scope.
Notation "x >=? y" := (SFleb y x) (at level 70, only parsing) : float_scope.

Definition IsNaN (f : float64) : bool := match f with S754_nan => true | _ => false end.
Definition IsPosInf (f : float64) : bool := match f with S754_infinity false => true | _ => false end.
Definition sign_bit (f : float64) : bool :=
  match f with
  | S754_zero s | S754_infinity s | S754_finite s _ _ => s
  | S754_nan => false
  end.

(** ** Rounding to integers *)

(** The integer part of a finite float. *)
Definition trunc (f : float64) : option Z :=
  match f with
  | S754_zero _ => Some 0%Z
  | S754_finite s m e =>
      let z := if (0 <=? e)%Z then Z.shiftl (Zpos m) e else Z.shiftr (Zpos m) (- e) in
      Some (if (s : bool) then (- z)%Z else z)
  | _ => None
  end.

(** [math.Modf]. *)
Definition Modf (f : float64) : float64 * float64 :=
  match trunc f with
  | Some z => (float_of_Z z, float_sub f (float_of_Z z))
  | None => (f, S754_nan)
  end.

(** [math.Round]: half away from zero. *)
Definition Round (f : float64) : float64 :=
  match f with
  | S754_finite s m e =>
      if (0 <=? e)%Z then f
      else let z := Z.shiftr (Zpos m + Z.shiftl 1 (- e - 1)) (- e) in
           float_of_Z (if (s : bool) then (- z)%Z else z)
  | _ => f
  end.

(** An integer with the sign of [f] when it is zero. *)
Definition signed_of_Z (s : bool) (z : Z) : float64 :=
  binary_normalize 53 1024 z 0 s.

(** [math.Floor] and [math.Ceil]; -0, infinities and NaN are their own. *)
Definition Floor (f : float64) : float64 :=
  match f with
  | S754_finite s m e =>
      if (0 <=? e)%Z then f
      else signed_of_Z s (Z.shiftr (if s then Zneg m else Zpos m) (- e))
  | _ => f
  end.

Definition Ceil (f : float64) : float64 := SFopp (Floor (SFopp f)).
Definition Abs : float64 → float64 := SFabs.

(** ** Minimum, maximum and remainder with their special cases *)

Definition Max (x y : float64) : float64 :=
  if IsPosInf x || IsPosInf y then Inf false
  else if IsNaN x || IsNaN y then NaN
  else match x, y with
       | S754_zero sx, S754_zero _ => if (sx : bool) then y else x
       | _, _ => if SFltb y x then x else y
       end.

Definition Min (x y : float64) : float64 :=
  if IsPosInf (SFopp x) || IsPosInf (SFopp y) then Inf true
  else if IsNaN x || IsNaN y then NaN
  else match x, y with
       | S754_zero sx, S754_zero _ => if (sx : bool) then x else y
       | _, _ => if SFltb x y then x else y
       end.

(** [math.Mod]: the exact remainder with the sign of [x]. *)
Definition Mod (x y : float64) : float64 :=
  match x, y with
  | S754_nan, _ | _, S754_nan => NaN
  | S754_infinity _, _ | _, S754_zero _ => NaN
  | S754_zero _, _ | _, S754_infinity _ => x
  | S754_finite sx mx ex, S754_finite _ my ey =>
      let e := Z.min ex ey in
      let r := (Z.shiftl (Zpos mx) (ex - e) mod Z.shiftl (Zpos my) (ey - e))%Z in
      binary_normalize 53 1024 (if (sx : bool) then - r else r)%Z e sx
  end.

(** ** Conversion to [int64]

    A float outside the range converts to a value the language leaves to the
    implementation, an argument here. *)
Definition int64_of (int64_undefined : float64 → Z) (f : float64) : Z :=
  match trunc f with
  | Some z => if bool_decide (in_int64 z) then z else int64_undefined f
  | None => int64_undefined f
  end.

(** ** The order of numbers *)

(** A number compares as the triple of its class, exponent and significand. *)
Definition fkey (f : float64) : Z * Z * Z :=
  match f with
  | S754_zero _ => (0, 0, 0)
  | S754_infinity s => (if (s : bool) then -2 else 2, 0, 0)
  | S754_finite s m e => if (s : bool) then (-1, -e, Zneg m) else (1, e, Zpos m)
  | S754_nan => (3, 0, 0)
  end%Z.

Definition key_lt (a b : Z * Z * Z) : Prop :=
  (a.1.1 < b.1.1 ∨ a.1.1 = b.1.1 ∧ (a.1.2 < b.1.2 ∨ a.1.2 = b.1.2 ∧ a.2 < b.2))%Z.

Lemma pos_compare_cont_Z p q : Pos.compare_cont Eq p q = (Zpos p ?= Zpos q)%Z.
Proof. reflexivity. Qed.

Lemma SFltb_key x y : IsNaN x = false → IsNaN y = false → SFltb x y = true ↔ key_lt (fkey x) (fkey y).
Proof.
  intros Hx Hy. unfold SFltb, SFcompare, key_lt.
  destruct x as [sx|sx| |sx mx ex], y as [sy|sy| |sy my ey]; try done;
    try destruct sx; try destruct sy; cbn [fkey fst snd];
    try (split; intros; first [done|lia]).
  - rewrite pos_compare_cont_Z.
    destruct (Z.compare_spec ex ey); [destruct (Z.compare_spec (Zpos mx) (Zpos my))|..];
      simpl; split; intros; first [done|lia].
  - rewrite pos_compare_cont_Z.
    destruct (Z.compare_spec ex ey); [destruct (Z.compare_spec (Zpos mx) (Zpos my))|..];
      simpl; split; intros; first [done|lia].
Qed.

Lemma SFltb_nan_l y : SFltb NaN y = false.
Proof. reflexivity. Qed.
Lemma SFltb_nan_r x : SFltb x NaN = false.
Proof. by destruct x. Qed.

Lemma SFltb_irrefl x : SFltb x x = false.
Proof.
  destruct (IsNaN x) eqn:Hx; [by destruct x|].
  destruct (SFltb x x) eqn:E; [|done]. apply SFltb_key in E; [|done..].
  unfold key_lt in E. lia.
Qed.

Lemma SFltb_false_key x y :
  IsNaN x = false → IsNaN y = false → SFltb x y = false ↔ ¬ key_lt (fkey x) (fkey y).
Proof. intros Hx Hy. rewrite <-SFltb_key by done. destruct (SFltb x y); naive_solver. Qed.

Lemma key_lt_trans a b c : key_lt a b → key_lt b c → key_lt a c.
Proof. unfold key_lt. lia. Qed.
Lemma key_lt_incomp a b c : ¬ key_lt a b → ¬ key_lt b c → ¬ key_lt a c.
Proof. unfold key_lt. lia. Qed.

(** Numbers that are not NaN are strictly weakly ordered, by [<] and by [>]. *)
#[global] Instance flt_strict_weak : StrictWeakOn (λ x, IsNaN x = false) SFltb.
Proof.
  split.
  - intros x _. apply SFltb_irrefl.
  - intros x y z Hx Hy Hz. rewrite !SFltb_key by done. apply key_lt_trans.
  - intros x y z Hx Hy Hz. rewrite !SFltb_false_key by done. apply key_lt_incomp.
Qed.

Lemma SFltb_trans x y z : SFltb x y = true → SFltb y z = true → SFltb x z = true.
Proof.
  destruct (IsNaN x) eqn:Hx; [by destruct x|].
  destruct (IsNaN y) eqn:Hy; [by destruct y, x|].
  destruct (IsNaN z) eqn:Hz; [by destruct z, y|]. by apply (swo_trans _ _ _ Hx Hy Hz).
Qed.

Lemma SFltb_asym x y : SFltb x y = true → SFltb y x = false.
Proof.
  intros Hxy. destruct (SFltb y x) eqn:E; [|done].
  pose proof (SFltb_trans _ _ _ Hxy E) as Hc. by rewrite SFltb_irrefl in Hc.
Qed.

(** [<=] is "not greater" on numbers. *)
Lemma SFleb_ltb x y : IsNaN x = false → IsNaN y = false → SFleb x y = negb (SFltb y x).
Proof.
  intros Hx Hy. unfold SFleb, SFltb, SFcompare.
  destruct x as [sx|sx| |sx mx ex], y as [sy|sy| |sy my ey]; try done;
    try destruct sx; try destruct sy; try done; rewrite !pos_compare_cont_Z.
  - destruct (Z.compare_spec ex ey) as [H|H|H], (Z.compare_spec ey ex); try lia; try done.
    rewrite (Z.compare_antisym (Zpos my) (Zpos mx)). by destruct (Zpos my ?= Zpos mx)%Z.
  - destruct (Z.compare_spec ex ey) as [H|H|H], (Z.compare_spec ey ex); try lia; try done.
    rewrite (Z.compare_antisym (Zpos my) (Zpos mx)). by destruct (Zpos my ?= Zpos mx)%Z.
Qed.

Lemma SFleb_nan_l y : SFleb NaN y = false.
Proof. reflexivity. Qed.
Lemma SFleb_nan_r x : SFleb x NaN = false.
Proof. by destruct x. Qed.

Lemma SFleb_refl x : IsNaN x = false → SFleb x x = true.
Proof. intros Hx. by rewrite SFleb_ltb, SFltb_irrefl. Qed.

Lemma SFleb_notnan x y : SFleb x y = true → IsNaN x = false ∧ IsNaN y = false.
Proof. destruct x, y; done. Qed.

Lemma SFltb_notnan x y : SFltb x y = true → IsNaN x = false ∧ IsNaN y = false.
Proof. destruct x, y; done. Qed.

Lemma SFleb_trans x y z : SFleb x y = true → SFleb y z = true → SFleb x z = true.
Proof.
  intros H1 H2. destruct (SFleb_notnan _ _ H1) as [Hx Hy]. destruct (SFleb_notnan _ _ H2) as [_ Hz].
  rewrite SFleb_ltb, negb_true_iff in H1, H2 |- * by done.
  by apply (swo_incomp (lt:=SFltb) (P:=λ x, IsNaN x = false) z y x).
Qed.

Lemma SFltb_leb x y : SFltb x y = true → SFleb x y = true.
Proof.
  intros H. destruct (SFltb_notnan _ _ H). by rewrite SFleb_ltb, SFltb_asym.
Qed.

Lemma SFltb_leb_trans x y z : SFltb x y = true → SFleb y z = true → SFltb x z = true.
Proof.
  intros H1 H2. destruct (SFltb_notnan _ _ H1) as [Hx Hy]. destruct (SFleb_notnan _ _ H2) as [_ Hz].
  rewrite SFleb_ltb, negb_true_iff in H2 by done.
  destruct (SFltb x z) eqn:H3; [done|].
  pose proof (swo_incomp (lt:=SFltb) (P:=λ x, IsNaN x = false) x z y Hx Hz Hy H3 H2). congruence.
Qed.

Lemma SFeqb_key x y : IsNaN x = false → IsNaN y = false → SFeqb x y = true ↔ fkey x = fkey y.
Proof.
  intros Hx Hy. unfold SFeqb, SFcompare.
  destruct x as [sx|sx| |sx mx ex], y as [sy|sy| |sy my ey]; try done;
    try destruct sx; try destruct sy; cbn [fkey]; try (split; intros; congruence);
    rewrite pos_compare_cont_Z;
    (destruct (Z.compare_spec ex ey); [destruct (Z.compare_spec (Zpos mx) (Zpos my))|..]);
    simpl; split; intros Heq; simplify_eq; try done; try lia; f_equal; f_equal; lia.
Qed.

(** Two numbers are equal, or one is less. *)
Lemma SFeqb_false_lt x y :
  IsNaN x = false → IsNaN y = false → SFeqb x y = false → SFltb x y = false → SFltb y x = true.
Proof.
  intros Hx Hy He Hl. apply not_true_iff_false in He. apply not_true_iff_false in Hl.
  rewrite SFeqb_key in He by done. rewrite SFltb_key in Hl |- * by done. unfold key_lt in *.
  assert (¬ ((fkey x).1.1 = (fkey y).1.1 ∧ (fkey x).1.2 = (fkey y).1.2 ∧ (fkey x).2 = (fkey y).2)%Z).
  { intros (H1 & H2 & H3). apply He. destruct (fkey x) as [[??]?], (fkey y) as [[??]?].
    simpl in *. congruence. }
  lia.
Qed.

(** The canonical numbers: the ones the operations return. *)
Definition canonical (f : float64) : bool := valid_binary 53 1024 f.

(** ** Numbers that are not negative *)

Definition nonneg (f : float64) : bool :=
  match f with
  | S754_nan => false
  | S754_zero _ => true
  | S754_infinity s | S754_finite s _ _ => negb s
  end.

Lemma nonneg_notnan f : nonneg f = true → IsNaN f = false.
Proof. by destruct f. Qed.

Lemma shr_1_nonneg mrs : (0 ≤ shr_m mrs → 0 ≤ shr_m (shr_1 mrs))%Z.
Proof. by destruct mrs as [[|[p|p|]|[p|p|]] r s]; simpl. Qed.

Lemma iter_shr_nonneg p mrs : (0 ≤ shr_m mrs → 0 ≤ shr_m (iter_pos shr_1 p mrs))%Z.
Proof.
  revert mrs. induction p as [p IH|p IH|]; intros mrs Hm; cbn [iter_pos];
    eauto using shr_1_nonneg.
Qed.

Lemma shr_fexp_nonneg m e l : (0 ≤ m → 0 ≤ shr_m (fst (shr_fexp 53 1024 m e l)))%Z.
Proof.
  intros Hm. unfold shr_fexp, shr.
  assert (0 ≤ shr_m (shr_record_of_loc m l))%Z as H by (by destruct l as [|[]]).
  destruct (fexp 53 1024 (Zdigits2 m + e) - e)%Z; simpl; [done| |done]. by apply iter_shr_nonneg.
Qed.

Lemma binary_round_aux_nonneg s m e l :
  (0 ≤ m)%Z → binary_round_aux 53 1024 s m e l ≠ S754_nan ∧
  nonneg (binary_round_aux 53 1024 false m e l) = true.
Proof.
  intros Hm. unfold binary_round_aux.
  pose proof (shr_fexp_nonneg m e l Hm) as H1. destruct (shr_fexp 53 1024 m e l) as [mrs' e'].
  simpl in H1.
  assert (0 ≤ round_nearest_even (shr_m mrs') (loc_of_shr_record mrs'))%Z as H2.
  { unfold round_nearest_even. destruct (loc_of_shr_record mrs') as [|[]]; try lia.
    destruct (Z.even _); lia. }
  pose proof (shr_fexp_nonneg _ e' loc_Exact H2) as H3.
  destruct (shr_fexp 53 1024 (round_nearest_even _ _) e' loc_Exact) as [mrs'' e'']. simpl in H3.
  destruct (shr_m mrs''); [done|destruct (_ <=? _)%Z; done|lia].
Qed.

Lemma binary_normalize_nonneg m e s : (0 ≤ m)%Z → nonneg (binary_normalize 53 1024 m e s) = true.
Proof.
  intros Hm. destruct m as [|m|m]; [done| |lia]. simpl. unfold binary_round.
  destruct (shl_align _ _ _) as [mz ez]. by apply binary_round_aux_nonneg.
Qed.

Lemma float_add_nonneg x y : nonneg x = true → nonneg y = true → nonneg (x + y)%F = true.
Proof.
  unfold float_add. destruct x as [[]|[]| |[] mx ex], y as [[]|[]| |[] my ey]; try done.
  intros _ _. unfold SFadd. apply binary_normalize_nonneg. simpl. lia.
Qed.

Lemma float_of_Z_nonneg z : (0 ≤ z)%Z → nonneg (float_of_Z z) = true.
Proof. apply binary_normalize_nonneg. Qed.

Example Floor_half : (Floor (float_of_Z (-3) / float_of_Z 2))%F = float_of_Z (-2)
  ∧ Ceil (float_of_Z (-1) / float_of_Z 2)%F = S754_zero true
  ∧ Mod (float_of_Z (-7)) (float_of_Z 3) = float_of_Z (-1).
Proof. vm_compute. done. Qed.
