(* ===== verification/ClockCache.v ===== *)
(** * The CLOCK cache ([src/pkg/clockcache/cache.go])

    [Clock.Cache] is the Go struct: [elements] maps a key to a pointer into
    [storage], modelled by the index of the slot; [cap] is [cap(storage)], which
    [append] never exceeds, so a slot never moves; [next] is the clock hand.
    Each operation is the body the code runs under its locks.  [Get] only takes
    a read lock and may run while another goroutine is inside [evict]; the
    parameter [conc] of the inserting operations gives, for each atomic swap of
    the sweep, the slots that concurrent [Get]s have marked just before it, so
    the theorems hold for every such interleaving. *)
From S2P Require Import Prelude.

Module Clock.

Section cache.
Context {K V : Type} `{Countable K}.

(** ** State *)

Record element := Element { key : K; value : V; used : Z }.

Record Cache := MkCache {
  elements : gmap K nat;
  storage : list element;
  cap : nat;
  next : nat;
}.

Definition set_used (u : Z) (e : element) : element :=
  Element (key e) (value e) u.

Definition set_storage (c : Cache) (st : list element) : Cache :=
  MkCache (elements c) st (cap c) (next c).

Definition WithMax (max : nat) : Cache := MkCache ∅ [] max 0.

(** ** Operations *)

(** Slots marked by [Get]s that run concurrently with a sweep. *)
Definition interfere (marks : list nat) (st : list element) : list element :=
  foldl (λ st i, alter (set_used 1) i st) st marks.

(** One [for next := range slice] loop of [evict], over the slots
    [base .. base+n): swap 0 into [used]; an old value of 0 ends the walk with
    the slot and the value [next + 1] given to the hand. *)
Fixpoint sweep (conc : nat → list nat) (tick base n pos : nat) (st : list element)
    : option (nat * nat) * list element :=
  match n with
  | 0 => (None, st)
  | S n' =>
      let st := interfere (conc tick) st in
      match st !! (base + pos) with
      | None => (None, st)
      | Some elem =>
          let st := <[base + pos := set_used 0 elem]> st in
          if (used elem =? 0)%Z then (Some (base + pos, pos + 1), st)
          else sweep conc (S tick) base n' (S pos) st
      end
  end.

(** [postStart] is [storage[startLoc:]], [preStart] is [storage[:startLoc]]. *)
Definition evict_round (conc : nat → list nat) (tick startLoc : nat) (st : list element)
    : option (nat * nat) * list element :=
  match sweep conc tick startLoc (length st - startLoc) 0 st with
  | (Some r, st') => (Some r, st')
  | (None, st') => sweep conc (tick + (length st - startLoc)) 0 startLoc 0 st'
  end.

Definition evict (conc : nat → list nat) (c : Cache) : option nat * Cache :=
  let startLoc := next c in
  let '(r, st) :=
    match evict_round conc 0 startLoc (storage c) with
    | (Some r, st) => (Some r, st)
    | (None, st) => evict_round conc (length (storage c)) startLoc st
    end in
  match r with
  | Some (loc, nx) => (Some loc, MkCache (elements c) st (cap c) nx)
  | None => (None, set_storage c st)
  end.

(** The unexported [insert]; returns [(canonicalKey, canonicalValue, inserted)]. *)
Definition insert_locked (conc : nat → list nat) (c : Cache) (k : K) (v : V)
    : Cache * (K * V * bool) :=
  match elements c !! k with
  | Some i =>
      match storage c !! i with
      | Some elem =>
          let st := if (used elem =? 0)%Z then storage c
                    else <[i := set_used 1 elem]> (storage c) in
          (set_storage c st, (key elem, value elem, true))
      | None => (c, (k, v, false))
      end
  | None =>
      if decide (cap c ≤ length (storage c)) then
        let '(loc, c) := evict conc c in
        match loc with
        | None => (c, (k, v, false))
        | Some loc =>
            let els := match storage c !! loc with
                       | Some old => delete (key old) (elements c)
                       | None => elements c
                       end in
            (MkCache (<[k := loc]> els) (<[loc := Element k v 0]> (storage c))
               (cap c) (next c), (k, v, true))
        end
      else
        (MkCache (<[k := length (storage c)]> (elements c))
           (storage c ++ [Element k v 0]) (cap c) (next c), (k, v, true))
  end.

Definition Insert (conc : nat → list nat) (c : Cache) (k : K) (v : V)
    : Cache * (V * bool) :=
  let '(c, (_, cv, b)) := insert_locked conc c k v in (c, (cv, b)).

(** The loop of [InsertBatch] from index [idx] on; it overwrites the two slices
    with the canonical keys and values and stops at the first failed insertion. *)
Fixpoint insert_batch_loop (conc : nat → nat → list nat) (c : Cache) (idx : nat)
    (keys : list K) (values : list V) : Cache * list K * list V * nat :=
  match keys, values with
  | k :: keys', v :: values' =>
      let '(c, (ck, cv, inserted)) := insert_locked (conc idx) c k v in
      if inserted : bool then
        let '(c, keys', values', n) := insert_batch_loop conc c (S idx) keys' values' in
        (c, ck :: keys', cv :: values', n)
      else (c, ck :: keys', cv :: values', idx)
  | _, _ => (c, keys, values, idx)
  end.

Definition InsertBatch (conc : nat → nat → list nat) (c : Cache)
    (keys : list K) (values : list V) : res (Cache * list K * list V * nat) :=
  if decide (length keys = length values)
  then Ok (insert_batch_loop conc c 0 keys values)
  else Panic "keys and values are not the same len".

(** The unexported [get]: [None] is the pair [(0, false)] of the code. *)
Definition get (c : Cache) (k : K) : Cache * option V :=
  match elements c !! k with
  | None => (c, None)
  | Some i =>
      match storage c !! i with
      | None => (c, None)
      | Some elem =>
          let st := if (used elem =? 0)%Z then <[i := set_used 1 elem]> (storage c)
                    else storage c in
          (set_storage c st, Some (value elem))
      end
  end.

Definition Get (c : Cache) (k : K) : Cache * option V := get c k.

Definition swap (l : list K) (i j : nat) : list K :=
  match l !! i, l !! j with
  | Some a, Some b => <[i := b]> (<[j := a]> l)
  | _, _ => l
  end.

(** The loop of [GetValues]: [n - idx] decreases, so [length keys] is enough
    fuel. *)
Fixpoint get_values_loop (fuel : nat) (c : Cache) (idx n : nat)
    (keys : list K) (valuesOut : list V) : Cache * list K * list V * nat :=
  match fuel with
  | 0 => (c, keys, valuesOut, n)
  | S fuel' =>
      if decide (idx < n) then
        match keys !! idx with
        | None => (c, keys, valuesOut, n)
        | Some k =>
            match get c k with
            | (c, None) =>
                get_values_loop fuel' c idx (n - 1) (swap keys (n - 1) idx) valuesOut
            | (c, Some v) =>
                get_values_loop fuel' c (S idx) n keys (<[idx := v]> valuesOut)
            end
        end
      else (c, keys, valuesOut, n)
  end.

Definition GetValues (c : Cache) (keys : list K) (valuesOut : list V)
    : res (Cache * list K * list V * nat) :=
  if decide (length keys = length valuesOut)
  then Ok (get_values_loop (length keys) c 0 (length keys) keys valuesOut)
  else Panic "keys and values are not the same len".

Definition unmark (c : Cache) (k : K) : Cache * bool :=
  match elements c !! k with
  | None => (c, false)
  | Some i =>
      match storage c !! i with
      | None => (c, false)
      | Some elem =>
          let st := if (used elem =? 0)%Z then storage c
                    else <[i := set_used 0 elem]> (storage c) in
          (set_storage c st, true)
      end
  end.

(** The map built by [for i := range newStorage]. *)
Definition index_elements (st : list element) : gmap K nat :=
  foldl (λ m i, match st !! i with Some e => <[key e := i]> m | None => m end)
    ∅ (seq 0 (length st)).

Definition ExpandTo (c : Cache) (newMax : nat) : Cache :=
  if decide (newMax ≤ cap c) then c
  else
    let newStorage := (λ e, Element (key e) (value e) (used e)) <$> storage c in
    MkCache (index_elements newStorage) newStorage newMax (next c).

Definition Len (c : Cache) : nat := length (storage c).
Definition Cap (c : Cache) : nat := cap c.

(** ** Operations as steps *)

Inductive step : Cache → Cache → Prop :=
  | step_insert conc c k v : step c (Insert conc c k v).1
  | step_insert_batch conc c ks vs c' ks' vs' n :
      InsertBatch conc c ks vs = Ok (c', ks', vs', n) → step c c'
  | step_get c k : step c (Get c k).1
  | step_get_values c ks vs c' ks' vs' n :
      GetValues c ks vs = Ok (c', ks', vs', n) → step c c'
  | step_unmark c k : step c (unmark c k).1
  | step_expand c m : step c (ExpandTo c m).

(** ** Invariant and abstraction *)

Definition inv (c : Cache) : Prop :=
  length (storage c) ≤ cap c ∧
  next c ≤ length (storage c) ∧
  ∀ k i, elements c !! k = Some i ↔ (key <$> storage c) !! i = Some k.

(** What the cache is for its clients: a finite map. *)
Definition abs (c : Cache) : gmap K V :=
  omap (λ i, (value <$> storage c) !! i) (elements c).

Definition same_kv (st st' : list element) : Prop :=
  key <$> st' = key <$> st ∧ value <$> st' = value <$> st.

(** No [Get] runs during the sweep. *)
Definition quiet : nat → list nat := λ _, [].

End cache.

Arguments element : clear implicits.
Arguments Cache _ _ {_ _}.
Arguments Element {_ _} _ _ _.

Section lemmas.
Context {K V : Type} `{Countable K}.
Implicit Types (c : Cache K V) (st : list (element K V)) (conc : nat → list nat).

(** *** Marking slots changes neither keys nor values *)

Lemma same_kv_refl st : same_kv st st.
Proof. done. Qed.

Lemma same_kv_trans st1 st2 st3 : same_kv st1 st2 → same_kv st2 st3 → same_kv st1 st3.
Proof. intros [? ?] [? ?]. split; congruence. Qed.

Lemma same_kv_length st st' : same_kv st st' → length st' = length st.
Proof. intros [Hk _]. apply (f_equal length) in Hk. by rewrite !length_fmap in Hk. Qed.

Lemma same_kv_set_used st i e u : st !! i = Some e → same_kv st (<[i := set_used u e]> st).
Proof.
  intros He. split; rewrite list_fmap_insert; apply list_insert_id;
    by rewrite list_lookup_fmap, He.
Qed.

Lemma same_kv_interfere marks st : same_kv st (interfere marks st).
Proof.
  revert st. induction marks as [|i marks IH]; intros st; [done|].
  eapply same_kv_trans; [|apply IH]. cbn.
  split; by apply fmap_alter_same.
Qed.
#[local] Hint Resolve same_kv_refl same_kv_set_used same_kv_interfere : gosim.

(** *** The sweep *)

Lemma sweep_spec conc tick base n pos st r st' :
  sweep conc tick base n pos st = (r, st') →
  same_kv st st' ∧
  match r with
  | Some (loc, nx) => loc < length st ∧ nx ≤ pos + n ∧ loc + 1 = base + nx
  | None => True
  end.
Proof.
  revert tick pos st. induction n as [|n IH]; intros tick pos st; simpl.
  { intros [= <- <-]. auto with gosim. }
  pose proof (same_kv_interfere (conc tick) st) as Hkv.
  set (st1 := interfere (conc tick) st) in *.
  destruct (st1 !! (base + pos)) as [e|] eqn:He; [|by intros [= <- <-]].
  assert (same_kv st (<[base + pos := set_used 0 e]> st1)) as Hkv2
    by (eapply same_kv_trans; eauto with gosim).
  case_if.
  - intros [= <- <-]. split; [done|]. apply lookup_lt_Some in He.
    rewrite (same_kv_length _ _ Hkv) in He. lia.
  - intros [Hs Hr]%IH. split; [by eapply same_kv_trans|].
    rewrite (same_kv_length _ _ Hkv2) in Hr. destruct r as [[loc nx]|]; [lia|done].
Qed.

Lemma evict_round_spec conc tick start st r st' :
  start ≤ length st →
  evict_round conc tick start st = (r, st') →
  same_kv st st' ∧
  match r with Some (loc, nx) => loc < length st ∧ nx ≤ length st | None => True end.
Proof.
  unfold evict_round. intros Hstart Hr.
  destruct (sweep conc tick start _ 0 st) as [[[loc nx]|] st1] eqn:E1;
    apply sweep_spec in E1 as [Hkv1 H1].
  - simplify_eq. split; [done|]. lia.
  - apply sweep_spec in Hr as [Hkv2 H2]. split; [by eapply same_kv_trans|].
    rewrite (same_kv_length _ _ Hkv1) in H2. destruct r as [[loc nx]|]; [lia|done].
Qed.

Lemma evict_spec conc c r c' :
  next c ≤ length (storage c) →
  evict conc c = (r, c') →
  same_kv (storage c) (storage c') ∧ elements c' = elements c ∧ cap c' = cap c ∧
  next c' ≤ length (storage c) ∧
  match r with Some loc => loc < length (storage c) | None => True end.
Proof.
  unfold evict. intros Hnext He.
  destruct (evict_round conc 0 (next c) (storage c)) as [[[loc nx]|] st1] eqn:E1;
    apply evict_round_spec in E1 as [Hkv1 H1]; [|done| |done].
  { injection He as <- <-. simpl. destruct H1. auto. }
  destruct (evict_round conc _ (next c) st1) as [[[loc nx]|] st2] eqn:E2;
    (apply evict_round_spec in E2 as [Hkv2 H2];
     [|by rewrite (same_kv_length _ _ Hkv1)]); simplify_eq/=.
  - rewrite (same_kv_length _ _ Hkv1) in H2.
    split_and!; eauto using same_kv_trans; lia.
  - split_and!; eauto using same_kv_trans.
Qed.

(** *** Congruence of the invariant and of the abstraction *)

Lemma inv_same_kv c st : inv c → same_kv (storage c) st → inv (set_storage c st).
Proof.
  intros (? & ? & Hb) Hkv. pose proof (same_kv_length _ _ Hkv) as Hl.
  destruct Hkv as [Hk _]. split_and!; simpl; [lia..|]. by rewrite Hk.
Qed.

Lemma abs_same_kv c st : same_kv (storage c) st → abs (set_storage c st) = abs c.
Proof. intros [_ Hv]. unfold abs. simpl. by rewrite Hv. Qed.

Lemma abs_lookup c k :
  abs c !! k = (i ← elements c !! k; (value <$> storage c) !! i).
Proof. unfold abs. by rewrite lookup_omap. Qed.

Lemma inv_lookup c k i :
  inv c → elements c !! k = Some i → ∃ e, storage c !! i = Some e ∧ key e = k.
Proof.
  intros (_ & _ & Hb) Hi. apply Hb in Hi. rewrite list_lookup_fmap in Hi.
  destruct (storage c !! i) as [e|]; [|done]. injection Hi as <-. eauto.
Qed.

Lemma inv_WithMax max : inv (WithMax max : Cache K V).
Proof.
  split_and!; simpl; [lia..|]. intros k i. by rewrite lookup_empty.
Qed.

(** *** The bijection between [elements] and the slots *)

Definition bij (m : gmap K nat) (ks : list K) : Prop :=
  ∀ k i, m !! k = Some i ↔ ks !! i = Some k.

Lemma bij_snoc m ks k : bij m ks → m !! k = None → bij (<[k := length ks]> m) (ks ++ [k]).
Proof.
  intros Hb Hk k' i. rewrite lookup_insert.
  destruct (decide (k = k')) as [<-|Hne].
  - split; [intros [= <-]; by rewrite list_lookup_middle|].
    intros [Hi|[? Hi]]%lookup_app_Some.
    + apply Hb in Hi. congruence.
    + apply list_lookup_singleton_Some in Hi as [? _]. f_equal. lia.
  - rewrite (Hb k' i), lookup_app_Some. split; [by left|].
    intros [?|[_ Hi]]; [done|]. by apply list_lookup_singleton_Some in Hi as [_ ?].
Qed.

Lemma bij_replace m ks k old loc :
  bij m ks → m !! k = None → ks !! loc = Some old →
  bij (<[k := loc]> (delete old m)) (<[loc := k]> ks).
Proof.
  intros Hb Hk Hloc k' i.
  assert (m !! old = Some loc) as Hold by by apply Hb.
  assert (loc < length ks) as Hlt by by eapply lookup_lt_Some.
  rewrite lookup_insert. destruct (decide (k = k')) as [<-|Hne].
  - split; [intros [= <-]; by apply list_lookup_insert_eq|].
    destruct (decide (loc = i)) as [->|Hi]; [done|].
    rewrite list_lookup_insert_ne by done. intros ?%Hb. congruence.
  - rewrite lookup_delete. destruct (decide (loc = i)) as [->|Hi].
    + rewrite list_lookup_insert_eq by done.
      case_decide; [naive_solver|]. split; [|naive_solver].
      intros Hk'%Hb. congruence.
    + rewrite list_lookup_insert_ne by done. case_decide as Ho; [|by apply Hb].
      subst. split; [done|]. intros ?%Hb. congruence.
Qed.

Lemma index_elements_bij st : NoDup (key <$> st) → bij (index_elements st) (key <$> st).
Proof.
  intros Hnd. unfold index_elements.
  assert (∀ n, n ≤ length st →
    bij (foldl (λ m i, match st !! i with Some e => <[key e := i]> m | None => m end)
           (∅ : gmap K nat) (seq 0 n)) (take n (key <$> st))) as Hn.
  { induction n as [|n IH]; intros Hle.
    { intros k i. rewrite take_0. simpl. by rewrite lookup_empty. }
    rewrite seq_S, foldl_app. simpl.
    destruct (lookup_lt_is_Some_2 st n) as [e He]; [lia|]. rewrite He.
    assert ((key <$> st) !! n = Some (key e)) as Hke by by rewrite list_lookup_fmap, He.
    rewrite (take_S_r _ _ _ Hke).
    assert (length (take n (key <$> st)) = n) as Hlen
      by (rewrite length_take, length_fmap; lia).
    pose proof (bij_snoc _ _ (key e) (IH ltac:(lia))) as Hs.
    rewrite Hlen in Hs. apply Hs. clear Hs.
    destruct (_ !! key e) as [j|] eqn:Hj; [|done]. exfalso.
    apply (IH ltac:(lia)) in Hj. rewrite lookup_take_Some in Hj.
    destruct Hj as [Hj ?]. pose proof (NoDup_lookup _ _ _ _ Hnd Hj Hke). lia. }
  specialize (Hn (length st) ltac:(lia)).
  rewrite take_ge in Hn by (by rewrite length_fmap). done.
Qed.

Lemma bij_nodup m ks : bij m ks → NoDup ks.
Proof.
  intros Hb. apply NoDup_alt. intros i j x Hi%Hb Hj%Hb. congruence.
Qed.

Lemma bij_unique m m' ks : bij m ks → bij m' ks → m = m'.
Proof.
  intros Hb Hb'. apply map_eq. intros k. apply option_eq. intros i.
  by rewrite (Hb k i), (Hb' k i).
Qed.

(** *** Insertion *)

Definition delete_victim (victim : option K) (m : gmap K V) : gmap K V :=
  match victim with Some k => delete k m | None => m end.

Lemma inv_index_lt c k i : inv c → elements c !! k = Some i → i < length (storage c).
Proof.
  intros Hinv Hi. destruct (inv_lookup _ _ _ Hinv Hi) as (e & He & _).
  by eapply lookup_lt_Some.
Qed.

Lemma abs_append c k v :
  inv c → elements c !! k = None →
  abs (MkCache (<[k := length (storage c)]> (elements c))
         (storage c ++ [Element k v 0]) (cap c) (next c)) = <[k := v]> (abs c).
Proof.
  intros Hinv Hk. apply map_eq. intros k'. rewrite abs_lookup. simpl.
  rewrite !lookup_insert. case_decide; simpl.
  - rewrite fmap_app. simpl. rewrite lookup_app_r by (by rewrite length_fmap).
    by rewrite length_fmap, Nat.sub_diag.
  - rewrite abs_lookup. destruct (elements c !! k') as [i|] eqn:Hi; [|done]. simpl.
    rewrite fmap_app, lookup_app_l; [done|]. rewrite length_fmap. eauto using inv_index_lt.
Qed.

Lemma abs_replace c k v old loc :
  inv c → elements c !! k = None → storage c !! loc = Some old →
  abs (MkCache (<[k := loc]> (delete (key old) (elements c)))
         (<[loc := Element k v 0]> (storage c)) (cap c) (next c))
  = <[k := v]> (delete (key old) (abs c)).
Proof.
  intros Hinv Hk Hloc.
  assert (elements c !! key old = Some loc) as Hold.
  { destruct Hinv as (_ & _ & Hb). apply Hb. by rewrite list_lookup_fmap, Hloc. }
  apply map_eq. intros k'. rewrite abs_lookup. simpl.
  rewrite !lookup_insert, !lookup_delete. case_decide; simpl.
  { rewrite list_lookup_fmap, list_lookup_insert_eq; [done|]. by eapply lookup_lt_Some. }
  case_decide; [done|]. rewrite abs_lookup.
  destruct (elements c !! k') as [i|] eqn:Hi; [|done]. simpl.
  rewrite !list_lookup_fmap, list_lookup_insert_ne; [done|]. intros <-.
  destruct (inv_lookup _ _ _ Hinv Hi) as (e & He & <-). congruence.
Qed.

Lemma inv_append c k v :
  inv c → elements c !! k = None → length (storage c) < cap c →
  inv (MkCache (<[k := length (storage c)]> (elements c))
         (storage c ++ [Element k v 0]) (cap c) (next c)).
Proof.
  intros (? & ? & Hb) Hk ?. split_and!; simpl; [rewrite length_app; simpl; lia..|].
  rewrite fmap_app. simpl. rewrite <-(length_fmap key). by apply bij_snoc.
Qed.

Lemma inv_replace c k v old loc :
  inv c → elements c !! k = None → storage c !! loc = Some old →
  inv (MkCache (<[k := loc]> (delete (key old) (elements c)))
         (<[loc := Element k v 0]> (storage c)) (cap c) (next c)).
Proof.
  intros (? & ? & Hb) Hk Hloc. split_and!; simpl; [rewrite length_insert; lia..|].
  rewrite list_fmap_insert. simpl. apply bij_replace; [done..|].
  by rewrite list_lookup_fmap, Hloc.
Qed.

Lemma elements_abs_none c k : inv c → elements c !! k = None ↔ abs c !! k = None.
Proof.
  intros Hinv. rewrite abs_lookup. destruct (elements c !! k) as [i|] eqn:Hi; [|done].
  destruct (inv_lookup _ _ _ Hinv Hi) as (e & He & _). simpl.
  rewrite list_lookup_fmap, He. done.
Qed.

Lemma elements_abs_some c k i e :
  elements c !! k = Some i → storage c !! i = Some e → abs c !! k = Some (value e).
Proof. intros Hi He. rewrite abs_lookup, Hi. simpl. by rewrite list_lookup_fmap, He. Qed.

Lemma evict_inv conc c r c' :
  inv c → evict conc c = (r, c') → inv c' ∧ abs c' = abs c ∧ cap c' = cap c ∧
  elements c' = elements c ∧ length (storage c') = length (storage c) ∧
  match r with Some loc => is_Some (storage c' !! loc) | None => True end.
Proof.
  intros Hinv He. pose proof Hinv as (? & ? & _).
  apply evict_spec in He as (Hkv & Hels & Hcap & Hnx & Hr); [|done].
  pose proof (same_kv_length _ _ Hkv) as Hl.
  pose proof (inv_same_kv _ _ Hinv Hkv) as (? & ? & Hb).
  split_and!; try done.
  - split_and!; [lia..|]. by rewrite Hels.
  - unfold abs. destruct Hkv as [_ Hv]. by rewrite Hels, Hv.
  - destruct r; [|done]. apply lookup_lt_is_Some. lia.
Qed.

Lemma insert_locked_spec conc c k v c' ck cv ok :
  inv c → insert_locked conc c k v = (c', (ck, cv, ok)) →
  inv c' ∧ cap c' = cap c ∧ ck = k ∧
  match abs c !! k with
  | Some v0 => cv = v0 ∧ ok = true ∧ abs c' = abs c
  | None => cv = v ∧
      if ok then ∃ victim, abs c' = <[k := v]> (delete_victim victim (abs c)) ∧
        match victim with
        | None => length (storage c) < cap c
        | Some vk => length (storage c) = cap c ∧ is_Some (abs c !! vk)
        end
      else length (storage c) = cap c ∧ abs c' = abs c
  end.
Proof.
  intros Hinv. pose proof Hinv as (Hcap & _ & _). unfold insert_locked.
  destruct (elements c !! k) as [i|] eqn:Hk.
  { destruct (inv_lookup _ _ _ Hinv Hk) as (e & He & <-). rewrite He.
    intros [= <- <- <- <-]. rewrite (elements_abs_some _ _ _ _ Hk He).
    assert (same_kv (storage c)
      (if (used e =? 0)%Z then storage c else <[i := set_used 1 e]> (storage c)))
      by (case_if; auto with gosim).
    split_and!; auto using inv_same_kv, abs_same_kv. }
  pose proof Hk as Habs. apply elements_abs_none in Habs; [|done]. rewrite Habs.
  case_decide.
  - destruct (evict conc c) as [loc c1] eqn:Hev.
    apply evict_inv in Hev as (Hinv1 & Habs1 & Hcap1 & Hels1 & Hlen1 & Hloc); [|done].
    destruct loc as [loc|].
    + destruct Hloc as [old Hold]. rewrite Hold. intros [= <- <- <- <-].
      rewrite <-Hels1 in Hk. split_and!; auto using inv_replace.
      exists (Some (key old)). rewrite abs_replace by done. rewrite Habs1.
      split_and!; [done|lia|]. rewrite <-Habs1.
      destruct Hinv1 as (_ & _ & Hb).
      erewrite elements_abs_some; [by eexists| |done].
      apply Hb. by rewrite list_lookup_fmap, Hold.
    + intros [= <- <- <- <-]. split_and!; auto; lia.
  - intros [= <- <- <- <-]. split_and!; auto using inv_append with lia.
    exists None. split; [by apply abs_append|lia].
Qed.

(** *** Lookups *)

Lemma get_spec c k :
  inv c → inv (get c k).1 ∧ abs (get c k).1 = abs c ∧ cap (get c k).1 = cap c ∧
  (get c k).2 = abs c !! k.
Proof.
  intros Hinv. unfold get. destruct (elements c !! k) as [i|] eqn:Hk.
  - destruct (inv_lookup _ _ _ Hinv Hk) as (e & He & _). rewrite He. simpl.
    assert (same_kv (storage c)
      (if (used e =? 0)%Z then <[i := set_used 1 e]> (storage c) else storage c))
      by (case_if; auto with gosim).
    rewrite (elements_abs_some _ _ _ _ Hk He).
    split_and!; auto using inv_same_kv, abs_same_kv.
  - simpl. split_and!; auto. symmetry. by apply elements_abs_none.
Qed.

Lemma unmark_spec c k :
  inv c → inv (unmark c k).1 ∧ abs (unmark c k).1 = abs c ∧
  (unmark c k).2 = bool_decide (is_Some (abs c !! k)).
Proof.
  intros Hinv. unfold unmark. destruct (elements c !! k) as [i|] eqn:Hk.
  - destruct (inv_lookup _ _ _ Hinv Hk) as (e & He & _). rewrite He. simpl.
    assert (same_kv (storage c)
      (if (used e =? 0)%Z then storage c else <[i := set_used 0 e]> (storage c)))
      by (case_if; auto with gosim).
    rewrite (elements_abs_some _ _ _ _ Hk He).
    split_and!; auto using inv_same_kv, abs_same_kv.
  - simpl. split_and!; auto. rewrite bool_decide_false; [done|].
    apply elements_abs_none in Hk; [|done]. rewrite Hk. by intros [? ?].
Qed.

Lemma ExpandTo_spec c m :
  inv c → inv (ExpandTo c m) ∧ abs (ExpandTo c m) = abs c ∧
  cap (ExpandTo c m) = max (cap c) m.
Proof.
  intros Hinv. unfold ExpandTo. case_decide; [split_and!; auto; lia|].
  assert ((λ e : element K V, Element (key e) (value e) (used e)) <$> storage c
          = storage c) as ->.
  { rewrite <-(list_fmap_id (storage c)) at 2. apply list_fmap_ext. by intros ? []. }
  pose proof Hinv as (? & ? & Hb).
  assert (index_elements (storage c) = elements c) as Heq.
  { change (bij (elements c) (key <$> storage c)) in Hb.
    eapply bij_unique; [|exact Hb]. eapply index_elements_bij, bij_nodup. exact Hb. }
  rewrite Heq. split_and!; [split_and!; simpl; [lia..|done]|done|simpl; lia].
Qed.

(** *** Batches *)

Lemma insert_batch_loop_spec (bconc : nat → nat → list nat) c idx ks vs c' ks' vs' n :
  inv c → length ks = length vs →
  insert_batch_loop bconc c idx ks vs = (c', ks', vs', n) →
  inv c' ∧ cap c' = cap c ∧ ks' = ks ∧ length vs' = length vs ∧
  idx ≤ n ≤ idx + length ks.
Proof.
  revert c idx vs c' ks' vs' n.
  induction ks as [|k ks IH]; intros c idx [|v vs] c' ks' vs' n Hinv Hl; try done; simpl.
  { intros [= <- <- <- <-]. split_and!; auto; lia. }
  destruct (insert_locked (bconc idx) c k v) as [c1 [[ck cv] ok]] eqn:Hi.
  apply insert_locked_spec in Hi as (Hinv1 & Hcap1 & -> & _); [|done].
  destruct ok; [|intros [= <- <- <- <-]; simpl in *; split_and!; auto; lia].
  destruct (insert_batch_loop bconc c1 (S idx) ks vs) as [[[c2 ks2] vs2] n2] eqn:Hr.
  apply IH in Hr as (? & ? & -> & ? & ?); [|done|by simplify_eq/=].
  intros [= <- <- <- <-]. simpl in *. split_and!; auto; congruence || lia.
Qed.

Lemma swap_length (l : list K) i j : length (swap l i j) = length l.
Proof.
  unfold swap. destruct (l !! i), (l !! j); rewrite ?length_insert; done.
Qed.

Lemma swap_perm (l : list K) i j : swap l i j ≡ₚ l.
Proof.
  unfold swap. destruct (l !! i) as [a|] eqn:Hi; [|done].
  destruct (l !! j) as [b|] eqn:Hj; [|done].
  destruct (decide (i = j)) as [->|Hne].
  { rewrite list_insert_insert_eq. simplify_eq. by rewrite list_insert_id. }
  apply Permutation_inj. split; [by rewrite !length_insert|].
  exists (λ n, if decide (n = i) then j else if decide (n = j) then i else n).
  split.
  { intros x y. repeat case_decide; congruence. }
  intros n. assert (i < length l ∧ j < length l) as [? ?] by eauto using lookup_lt_Some.
  repeat case_decide; subst.
  - rewrite list_lookup_insert_eq by (by rewrite length_insert). by rewrite Hj.
  - rewrite list_lookup_insert_ne by done. rewrite list_lookup_insert_eq by done. done.
  - by rewrite !list_lookup_insert_ne by congruence.
Qed.

(** The part of the slices the loop of [GetValues] has settled. *)
Definition gv_done (m : gmap K V) (idx n : nat) (ks : list K) (vs : list V) : Prop :=
  (∀ i k, i < idx → ks !! i = Some k → ∃ v, m !! k = Some v ∧ vs !! i = Some v) ∧
  (∀ i k, n ≤ i → ks !! i = Some k → m !! k = None).

Lemma get_values_loop_spec fuel c idx n ks vs c' ks' vs' r :
  inv c → fuel = n - idx → idx ≤ n → n ≤ length ks → length ks = length vs →
  gv_done (abs c) idx n ks vs →
  get_values_loop fuel c idx n ks vs = (c', ks', vs', r) →
  inv c' ∧ abs c' = abs c ∧ ks' ≡ₚ ks ∧ length vs' = length vs ∧
  r ≤ length ks ∧ gv_done (abs c) r r ks' vs'.
Proof.
  revert c idx n ks vs.
  induction fuel as [|fuel IH]; intros c idx n ks vs Hinv Hf Hle Hn Hl [Hd1 Hd2]; simpl.
  { intros [= <- <- <- <-]. assert (idx = n) as -> by lia. split_and!; auto. done. }
  rewrite decide_True by lia.
  destruct (lookup_lt_is_Some_2 ks idx) as [k Hk]; [lia|]. rewrite Hk.
  destruct (get_spec c k Hinv) as (Hinv1 & Habs1 & _ & Hget).
  destruct (get c k) as [c1 [v|]]; simpl in *; rewrite <-Habs1 in *.
  - intros Hr. apply IH in Hr as (? & ? & ? & Hlen & ? & ?); try done; try lia.
    + split_and!; auto. by rewrite Hlen, length_insert.
    + by rewrite length_insert.
    + split; [|done]. intros i k' Hi Hik. destruct (decide (i = idx)) as [->|].
      * exists v. simplify_eq. split; [done|]. apply list_lookup_insert_eq. lia.
      * rewrite list_lookup_insert_ne by done. apply Hd1; [lia|done].
  - intros Hr. apply IH in Hr as (? & ? & Hp & ? & Hr & ?); rewrite ?swap_length in *;
      try done; try lia.
    + split_and!; auto. by rewrite Hp, swap_perm.
    + destruct (lookup_lt_is_Some_2 ks (n - 1)) as [kn Hkn]; [lia|].
      unfold swap. rewrite Hkn, Hk. split.
      * intros i k' Hi. rewrite !list_lookup_insert_ne by lia. by apply Hd1; lia.
      * intros i k' Hi. destruct (decide (i = n - 1)) as [->|].
        -- rewrite list_lookup_insert_eq by (rewrite length_insert; lia).
           intros [= <-]. done.
        -- rewrite !list_lookup_insert_ne by lia. apply Hd2. lia.
Qed.

(** *** Eviction without interference *)

Definition all_unused (st : list (element K V)) : Prop :=
  ∀ i e, st !! i = Some e → used e = 0%Z.

Lemma sweep_quiet_none tick base n pos st st' :
  sweep quiet tick base n pos st = (None, st') → base + pos + n ≤ length st →
  ∀ i e, st' !! i = Some e →
    (base + pos ≤ i < base + pos + n → used e = 0%Z) ∧
    (¬ (base + pos ≤ i < base + pos + n) → st !! i = Some e).
Proof.
  revert tick pos st. induction n as [|n IH]; intros tick pos st; simpl.
  { intros [= <-] _ i e He. split; [lia|done]. }
  destruct (st !! (base + pos)) as [e0|] eqn:He0.
  2:{ apply lookup_ge_None in He0. lia. }
  case_if; [done|]. intros Hs Hle i e He.
  destruct (IH _ _ _ Hs ltac:(rewrite length_insert; lia) i e He) as [H1 H2].
  split.
  - intros Hi. destruct (decide (i = base + pos)) as [->|]; [|apply H1; lia].
    specialize (H2 ltac:(lia)). rewrite list_lookup_insert_eq in H2 by lia.
    by simplify_eq/=.
  - intros Hi. specialize (H2 ltac:(lia)). by rewrite list_lookup_insert_ne in H2 by lia.
Qed.

Lemma evict_round_quiet_none tick start st st' :
  start ≤ length st →
  evict_round quiet tick start st = (None, st') → all_unused st' ∧ length st' = length st.
Proof.
  unfold evict_round. intros Hstart.
  destruct (sweep quiet tick start _ 0 st) as [[?|] st1] eqn:E1; [done|]. intros E2.
  pose proof (sweep_spec _ _ _ _ _ _ _ _ E1) as [Hkv1%same_kv_length _].
  pose proof (sweep_spec _ _ _ _ _ _ _ _ E2) as [Hkv2%same_kv_length _].
  split; [|congruence]. intros i e He.
  destruct (sweep_quiet_none _ _ _ _ _ _ E2 ltac:(lia) i e He) as [H1 H2].
  destruct (decide (i < start)); [apply H1; lia|]. specialize (H2 ltac:(lia)).
  destruct (sweep_quiet_none _ _ _ _ _ _ E1 ltac:(lia) i e H2) as [H3 _].
  apply H3. apply lookup_lt_Some in He. lia.
Qed.

Lemma sweep_quiet_unused tick base n st :
  all_unused st → base < length st → 0 < n →
  ∃ st', sweep quiet tick base n 0 st = (Some (base, 1), st').
Proof.
  intros Hu Hb Hn. destruct n as [|n]; [lia|]. simpl. rewrite Nat.add_0_r.
  destruct (lookup_lt_is_Some_2 st base) as [e He]; [done|].
  rewrite He, (Hu _ _ He). simpl. eauto.
Qed.

Lemma evict_quiet_some c :
  inv c → storage c ≠ [] → ∃ loc, (evict quiet c).1 = Some loc.
Proof.
  intros (_ & Hnx & _) Hne. unfold evict.
  destruct (evict_round quiet 0 (next c) (storage c)) as [[[loc nx]|] st1] eqn:E1;
    [simpl; eauto|].
  apply evict_round_quiet_none in E1 as [Hu Hl]; [|done].
  assert (0 < length (storage c)) as Hpos by (destruct (storage c); simpl in *; [done|lia]).
  unfold evict_round. destruct (decide (next c < length st1)).
  - edestruct sweep_quiet_unused as [st' ->]; [done| |..]; [lia..|]. simpl. eauto.
  - replace (length st1 - next c) with 0 by lia. simpl.
    edestruct (sweep_quiet_unused (length (storage c) + 0) 0 (next c)) as [st' ->];
      [done|lia..|]. simpl. eauto.
Qed.

(** *** Steps *)

Lemma step_inv c c' : step c c' → inv c → inv c'.
Proof.
  destruct 1 as [conc c k v|bconc c ks vs c' ks' vs' n Hb|c k|c ks vs c' ks' vs' n Hg|c k|c m];
    intros Hinv.
  - unfold Insert.
    destruct (insert_locked conc c k v) as [c1 [[ck cv] ok]] eqn:Hi. simpl.
    by apply insert_locked_spec in Hi as (? & _).
  - unfold InsertBatch in Hb. case_decide; [|done]. injection Hb as Hb.
    by eapply insert_batch_loop_spec in Hb as (? & _).
  - by apply get_spec.
  - unfold GetValues in Hg. case_decide; [|done]. injection Hg as Hg.
    eapply get_values_loop_spec in Hg as (? & _); try done; try lia.
    split; [lia|]. intros i k Hi Hk. apply lookup_lt_Some in Hk. lia.
  - by apply unmark_spec.
  - by apply ExpandTo_spec.
Qed.

(** ** Properties *)

(** C9. Every state the cache can reach from [WithMax] by any sequence of its
    operations, with any interleaving of concurrent [Get]s inside the sweeps,
    holds at most [cap] elements, has its clock hand inside the slice bounds
    (so the slice expressions of [evict] cannot panic), and its [elements] map
    points each key to the one slot that stores it. *)
Theorem reachable_inv (max : nat) (c : Cache K V) :
  rtc step (WithMax max) c → inv c.
Proof.
  assert (inv (WithMax max : Cache K V)) as Hinit by apply inv_WithMax.
  revert Hinit. generalize (WithMax max : Cache K V) as c0.
  induction 2; eauto using step_inv.
Qed.

(** C10. [Insert] refines insertion into a bounded finite map: a key already
    present keeps its value and the canonical value is the stored one; a new
    key is added, and one victim is removed exactly when the cache is full; a
    starved insertion changes nothing a client can see. *)
Theorem Insert_refines conc (c c' : Cache K V) k v cv ok :
  inv c → Insert conc c k v = (c', (cv, ok)) →
  match abs c !! k with
  | Some v0 => cv = v0 ∧ ok = true ∧ abs c' = abs c
  | None => cv = v ∧
      if ok then ∃ victim, abs c' = <[k := v]> (delete_victim victim (abs c)) ∧
        match victim with
        | None => Len c < Cap c
        | Some vk => Len c = Cap c ∧ is_Some (abs c !! vk)
        end
      else Len c = Cap c ∧ abs c' = abs c
  end.
Proof.
  intros Hinv. unfold Insert.
  destruct (insert_locked conc c k v) as [c1 [[ck cv1] ok1]] eqn:Hi.
  intros [= <- <- <-]. by apply insert_locked_spec in Hi as (_ & _ & _ & ?).
Qed.

(** Without concurrent readers an insertion into a cache of positive
    capacity never starves - two passes of the clock always find a victim - and
    a [Get] of the key returns the canonical value [Insert] returned. *)
Theorem Insert_Get_roundtrip (c : Cache K V) k v :
  inv c → 0 < Cap c →
  (Insert quiet c k v).2.2 = true ∧
  (Get (Insert quiet c k v).1 k).2 = Some (Insert quiet c k v).2.1.
Proof.
  intros Hinv Hcap. unfold Insert, Get.
  destruct (insert_locked quiet c k v) as [c' [[ck cv] ok]] eqn:Hi. simpl.
  assert (ok = true) as ->.
  { unfold insert_locked in Hi. destruct (elements c !! k) as [i|] eqn:Hk.
    - destruct (inv_lookup _ _ _ Hinv Hk) as (e & He & _). rewrite He in Hi. by simplify_eq.
    - case_decide; [|by simplify_eq].
      destruct (evict_quiet_some c Hinv) as [loc Hloc].
      { intros Hnil. unfold Cap in Hcap. rewrite Hnil in *. simpl in *. lia. }
      destruct (evict quiet c) as [l1 c1]. simpl in Hloc. subst. by simplify_eq. }
  split; [done|]. apply insert_locked_spec in Hi as (Hinv' & _ & _ & Hi); [|done].
  destruct (get_spec c' k Hinv') as (_ & _ & _ & ->).
  destruct (abs c !! k) eqn:Hk.
  - destruct Hi as (-> & _ & ->). done.
  - destruct Hi as (-> & victim & -> & _). by rewrite lookup_insert_eq.
Qed.

(** [GetValues] on slices of equal length returns the number [n] of keys
    found after permuting [keys] so that the first [n] are exactly keys present
    in the cache, with their values in [valuesOut] at the same index, and all
    others are absent; the contents of the cache do not change. *)
Theorem GetValues_partition (c : Cache K V) ks vs :
  inv c → length ks = length vs →
  ∃ c' ks' vs' n, GetValues c ks vs = Ok (c', ks', vs', n) ∧
    abs c' = abs c ∧ ks' ≡ₚ ks ∧ length vs' = length vs ∧ n ≤ length ks ∧
    (∀ i k, i < n → ks' !! i = Some k → ∃ v, abs c !! k = Some v ∧ vs' !! i = Some v) ∧
    (∀ i k, n ≤ i → ks' !! i = Some k → abs c !! k = None).
Proof.
  intros Hinv Hl. unfold GetValues. rewrite decide_True by done.
  destruct (get_values_loop _ c 0 _ ks vs) as [[[c' ks'] vs'] n] eqn:Hg.
  exists c', ks', vs', n. split; [done|].
  eapply get_values_loop_spec in Hg as (? & ? & ? & ? & ? & ? & ?); try done; try lia.
  split; [lia|]. intros i k Hi Hk. apply lookup_lt_Some in Hk. lia.
Qed.

(** [ExpandTo] keeps every cached entry, in particular it keeps the
    [elements] map consistent with the copied slots, and raises the capacity to
    [newMax] when that is larger. *)
Theorem ExpandTo_preserves (c : Cache K V) newMax :
  inv c → inv (ExpandTo c newMax) ∧ abs (ExpandTo c newMax) = abs c ∧
  Cap (ExpandTo c newMax) = max (Cap c) newMax.
Proof. apply ExpandTo_spec. Qed.

End lemmas.

(** ** Concrete runs *)

Definition ex0 : Cache nat nat := WithMax 2.
Definition ex1 : Cache nat nat := (Insert quiet ex0 7 70).1.
Definition ex2 : Cache nat nat := (Insert quiet ex1 8 80).1.
Definition ex3 : Cache nat nat := (Insert quiet ex2 9 90).1.

Lemma ex_inv3 : inv ex3.
Proof.
  apply (step_inv ex2), (step_inv ex1), (step_inv ex0), inv_WithMax; apply step_insert.
Qed.

Lemma reachable_inv_witness : inv ex3.
Proof.
  apply (reachable_inv 2).
  do 3 (eapply rtc_r; [|apply step_insert]). apply rtc_refl.
Defined.

Lemma Insert_refines_witness :
  ∃ victim, abs (Insert quiet ex3 10 100).1 = <[10 := 100]> (delete_victim victim (abs ex3)) ∧
    match victim with
    | None => Len ex3 < Cap ex3
    | Some vk => Len ex3 = Cap ex3 ∧ is_Some (abs ex3 !! vk)
    end.
Proof.
  exact (proj2 (Insert_refines quiet ex3 (Insert quiet ex3 10 100).1 10 100 100 true
    ex_inv3 eq_refl)).
Defined.

Lemma Insert_Get_roundtrip_witness :
  (Get (Insert quiet ex3 10 100).1 10).2 = Some 100.
Proof.
  rewrite (proj2 (Insert_Get_roundtrip ex3 10 100 ex_inv3 ltac:(vm_compute; lia))).
  vm_compute. reflexivity.
Defined.

Lemma GetValues_partition_witness :
  ∃ c' ks' vs' n, GetValues ex3 [7; 8; 9] [0; 0; 0] = Ok (c', ks', vs', n) ∧ n ≤ 3.
Proof.
  destruct (GetValues_partition ex3 [7; 8; 9] [0; 0; 0] ex_inv3 eq_refl)
    as (c' & ks' & vs' & n & Hg & _ & _ & _ & Hn & _).
  exists c', ks', vs', n. auto.
Defined.

Lemma ExpandTo_preserves_witness : abs (ExpandTo ex3 5) = abs ex3.
Proof. apply (ExpandTo_preserves ex3 5 ex_inv3). Defined.

(** The hand is set to the index within [postStart] plus one, not to the
    position in [storage]: after evicting slot 2 it points at slot 1 although
    the sweep stopped at slot 2, and the next sweep revisits slots 1 and 2
    before slot 3. *)
Definition hand_ex : Cache nat nat :=
  let st := [Element 0 0 0%Z; Element 1 1 0%Z; Element 2 2 0%Z; Element 3 3 0%Z] in
  MkCache (index_elements st) st 4 2.

Example evict_hand_behind_victim :
  (evict quiet hand_ex).1 = Some 2 ∧ next (evict quiet hand_ex).2 = 1.
Proof. vm_compute. auto. Qed.

(** Inserting a key that is present with a clear mark leaves the mark clear. *)
Example double_insert_not_a_hit :
  (used <$> storage (Insert quiet ex1 7 71).1) = [0%Z].
Proof. vm_compute. reflexivity. Qed.

End Clock.
