(* ===== verification/Labels.v ===== *)
(** * Label sets ([src/pkg/pgmodel/labels.go])

    Go strings are byte strings ([string] of 8-bit [ascii]).  [getStr] is the
    canonical encoding of a label set, used as the identity of a series by the
    interner and by the series caches; it sorts the slice it is given in place,
    so the model returns the sorted slice with the encoding.  The interner is the
    global [sync.Map] [LabelsInterner], passed explicitly. *)
From S2P Require Import Prelude.

Module Lbl.

(** ** Data *)

Record Label := MkLabel { Name : string; Value : string }.

#[global] Instance Label_eq_dec : EqDecision Label.
Proof. solve_decision. Defined.

Record Labels := MkLabels {
  names : list string;
  values : list string;
  metricName : string;
  str : string;
}.

Definition MetricNameLabelName : string := "__name__".

(** ** The canonical string *)

(** [binary.LittleEndian.PutUint16]: the two bytes of [v], low byte first. *)
Definition PutUint16 (v : Z) : string :=
  String (ascii_of_N (Z.to_N (v mod 256)))
    (String (ascii_of_N (Z.to_N ((v / 256) mod 256))) EmptyString).

(** [uint16(len(s))]. *)
Definition len16 (s : string) : Z := Z.of_nat (String.length s) mod 65536.

Definition put_string (s : string) : string := PutUint16 (len16 s) ++ s.

Fixpoint encode (ls : list Label) : string :=
  match ls with
  | [] => ""
  | l :: ls => put_string (Name l) ++ put_string (Value l) ++ encode ls
  end.

Definition expectedStrLen (ls : list Label) : Z :=
  (Z.of_nat (length ls) * 4 +
   foldr (λ l acc, Z.of_nat (String.length (Name l) + String.length (Value l)) + acc) 0 ls)%Z.

Definition name_lt (a b : Label) : bool := str_lt (Name a) (Name b).

Section sorted.
Context `{GoSort}.

(** Returns the (re-ordered) slice and the encoding. *)
Definition getStr (ls : list Label) : res (list Label * string) :=
  match ls with
  | [] => Ok (ls, "")
  | _ =>
      let ls := if is_sortedb name_lt ls then ls else go_sort name_lt ls in
      if (max_uint16 <? expectedStrLen ls)%Z
      then Err (Errorf "series too long, combined series has length %d, max length %d")
      else Ok (ls, encode ls)
  end.

(** ** Interning *)

Definition GetLabels (interner : gmap string Labels) (s : string) : option Labels :=
  interner !! s.

(** [LoadOrStore]. *)
Definition SetLabels (interner : gmap string Labels) (s : string) (lset : Labels)
    : gmap string Labels * Labels :=
  match interner !! s with
  | Some val => (interner, val)
  | None => (<[s := lset]> interner, lset)
  end.

(** The loop that fills [names], [values] and [metricName]. *)
Definition fill_labels (s : string) (ls : list Label) : Labels :=
  MkLabels (Name <$> ls) (Value <$> ls)
    (foldl (λ mn l, if bool_decide (Name l = MetricNameLabelName) then Value l else mn) "" ls)
    s.

(** Also returns the re-ordered slice of the caller. *)
Definition labelProtosToLabels (interner : gmap string Labels) (labelPairs : list Label)
    : res (gmap string Labels * list Label * Labels * string) :=
  let* (labelPairs, s) := getStr labelPairs in
  match GetLabels interner s with
  | Some labels => Ok (interner, labelPairs, labels, metricName labels)
  | None =>
      let '(interner, labels) := SetLabels interner s (fill_labels s labelPairs) in
      Ok (interner, labelPairs, labels, metricName labels)
  end.

(** [labels.Labels] of the Prometheus library is a slice of name/value pairs. *)
Definition LabelsFromSlice (interner : gmap string Labels) (ls : list Label)
    : res (gmap string Labels * Labels) :=
  let* (interner, _, l, _) := labelProtosToLabels interner ((λ l, MkLabel (Name l) (Value l)) <$> ls) in
  Ok (interner, l).

End sorted.

(** ** Methods of [*Labels] *)

Definition Compare (l b : Labels) : comparison := String.compare (str l) (str b).
Definition Equal (l b : Labels) : bool := bool_decide (str l = str b).
Definition Len (l : Labels) : nat := length (names l).
Definition Less (l : Labels) (i j : nat) : option bool :=
  match names l !! i, names l !! j with
  | Some a, Some b => Some (str_lt a b)
  | _, _ => None
  end.
Definition swap_strings (l : list string) (i j : nat) : list string :=
  match l !! i, l !! j with
  | Some a, Some b => <[i := b]> (<[j := a]> l)
  | _, _ => l
  end.
Definition Swap (l : Labels) (i j : nat) : Labels :=
  MkLabels (swap_strings (names l) i j) (swap_strings (values l) i j) (metricName l) (str l).

(** ** Matchers *)

(** [prompb.LabelMatcher_Type]; any other enum number is [LM_other]. *)
Inductive LabelMatcherType := LM_EQ | LM_NEQ | LM_RE | LM_NRE | LM_other (n : Z).
Record LabelMatcher := MkLabelMatcher {
  lm_Type : LabelMatcherType; lm_Name : string; lm_Value : string }.

(** [labels.Matcher] of the Prometheus library: its public fields, and the
    predicate its [Matches] method computes. *)
Inductive MatchType := MatchEqual | MatchNotEqual | MatchRegexp | MatchNotRegexp.
Record Matcher := MkMatcher {
  m_Type : MatchType; m_Name : string; m_Value : string; Matches : string → bool }.

Section matchers.
(** [labels.NewMatcher], which compiles regular expressions. *)
Context (NewMatcher : MatchType → string → string → res Matcher).

Fixpoint FromLabelMatchers (matchers : list LabelMatcher) : res (list Matcher) :=
  match matchers with
  | [] => Ok []
  | matcher :: rest =>
      let* mtype := match lm_Type matcher with
                    | LM_EQ => Ok MatchEqual
                    | LM_NEQ => Ok MatchNotEqual
                    | LM_RE => Ok MatchRegexp
                    | LM_NRE => Ok MatchNotRegexp
                    | LM_other _ => Err (Errorf "invalid matcher type")
                    end in
      let* matcher' := NewMatcher mtype (lm_Name matcher) (lm_Value matcher) in
      let* result := FromLabelMatchers rest in
      Ok (matcher' :: result)
  end.
End matchers.

(** ** A decoder for the canonical string (specification only) *)

Fixpoint split_at (n : nat) (s : string) : option (string * string) :=
  match n, s with
  | 0, _ => Some ("", s)
  | S n, String a s => '(x, y) ← split_at n s; Some (String a x, y)
  | S _, EmptyString => None
  end.

Definition take_string (s : string) : option (string * string) :=
  match s with
  | String a (String b s) =>
      split_at (N.to_nat (N_of_ascii a + 256 * N_of_ascii b)) s
  | _ => None
  end.

Fixpoint decode (fuel : nat) (s : string) : option (list Label) :=
  match s, fuel with
  | EmptyString, _ => Some []
  | _, 0 => None
  | _, S fuel =>
      '(n, s) ← take_string s;
      '(v, s) ← take_string s;
      ls ← decode fuel s;
      Some (MkLabel n v :: ls)
  end.

(** Entries of a well-formed interner: the key is the encoding of the stored
    names and values, whose metric name is the value of [__name__]. *)
Definition interner_ok (interner : gmap string Labels) : Prop :=
  ∀ s l, interner !! s = Some l →
    ∃ ls, l = fill_labels s ls ∧ s = encode ls ∧ (expectedStrLen ls ≤ max_uint16)%Z.

(** A [*Labels] that some call of [labelProtosToLabels] built. *)
Definition labels_wf (l : Labels) : Prop :=
  ∃ ls, l = fill_labels (encode ls) ls ∧ (expectedStrLen ls ≤ max_uint16)%Z.

(** ** Lemmas *)

#[global] Instance name_lt_strict_weak : StrictWeak name_lt.
Proof. unfold name_lt. eauto with gosim typeclass_instances. Qed.


Lemma split_at_app s t : split_at (String.length s) (s ++ t) = Some (s, t).
Proof.
  induction s as [|a s IH]; [by destruct t|]. rewrite string_app_cons. simpl. by rewrite IH.
Qed.

Lemma take_put_string s t :
  (Z.of_nat (String.length s) ≤ max_uint16)%Z →
  take_string (put_string s ++ t) = Some (s, t).
Proof.
  unfold max_uint16. intros Hs. unfold put_string, PutUint16, len16.
  rewrite !string_app_cons. simpl. rewrite !string_app_nil_l, (Z.mod_small (Z.of_nat (String.length s)) 65536) by lia.
  set (n := Z.of_nat (String.length s)) in *.
  pose proof (Z.mod_pos_bound n 256). pose proof (Z.mod_pos_bound (n / 256) 256).
  rewrite !N_ascii_embedding by lia.
  rewrite (Z.mod_small (n / 256)) in * by (split; [apply Z.div_pos|apply Z.div_lt_upper_bound]; lia).
  pose proof (Z.div_mod n 256).
  replace (N.to_nat _) with (String.length s) by lia.
  apply split_at_app.
Qed.

Lemma put_string_length s : String.length (put_string s) = String.length s + 2.
Proof. unfold put_string, PutUint16. rewrite string_length_app. simpl. lia. Qed.

Lemma expectedStrLen_cons l ls :
  expectedStrLen (l :: ls) =
  (4 + Z.of_nat (String.length (Name l) + String.length (Value l)) + expectedStrLen ls)%Z.
Proof. unfold expectedStrLen. simpl length. simpl foldr. lia. Qed.

Lemma expectedStrLen_nonneg ls : (0 ≤ expectedStrLen ls)%Z.
Proof. induction ls; [done|]. rewrite expectedStrLen_cons. lia. Qed.

Lemma encode_length ls : Z.of_nat (String.length (encode ls)) = expectedStrLen ls.
Proof.
  induction ls as [|l ls IH]; [done|]. rewrite expectedStrLen_cons, <-IH. cbn [encode].
  rewrite !string_length_app, !put_string_length. lia.
Qed.

Lemma decode_encode ls fuel :
  (expectedStrLen ls ≤ max_uint16)%Z → length ls ≤ fuel → decode fuel (encode ls) = Some ls.
Proof.
  revert fuel. induction ls as [|l ls IH]; intros fuel Hlen Hf; [by destruct fuel|].
  rewrite expectedStrLen_cons in Hlen. pose proof (expectedStrLen_nonneg ls).
  destruct fuel as [|fuel]; simpl in Hf; [lia|].
  destruct (encode (l :: ls)) as [|a s] eqn:He.
  { apply (f_equal String.length) in He. simpl in He. done. }
  cbn [decode]. rewrite <-He. cbn [encode].
  rewrite take_put_string by lia. cbn -[take_string put_string decode].
  rewrite take_put_string by lia. cbn -[decode]. rewrite IH by lia. by destruct l.
Qed.

Lemma encode_inj ls ls' :
  (expectedStrLen ls ≤ max_uint16)%Z → (expectedStrLen ls' ≤ max_uint16)%Z →
  encode ls = encode ls' → ls = ls'.
Proof.
  intros H1 H2 He.
  pose proof (decode_encode ls (length ls + length ls') H1 ltac:(lia)) as Hd.
  rewrite He, decode_encode in Hd by (done || lia). congruence.
Qed.

Lemma expectedStrLen_perm ls ls' : ls ≡ₚ ls' → expectedStrLen ls = expectedStrLen ls'.
Proof.
  induction 1; [done|rewrite !expectedStrLen_cons; lia..|congruence].
Qed.

(** Two sorted permutations of the same labels are equal when names differ. *)
Lemma sorted_perm_unique ls ls' :
  NoDup (Name <$> ls) → ls ≡ₚ ls' →
  StronglySorted (λ a b, name_lt b a = false) ls →
  StronglySorted (λ a b, name_lt b a = false) ls' → ls = ls'.
Proof.
  intros Hnd Hp Hs. revert ls' Hp.
  induction Hs as [|l ls Hs IH Hl]; intros ls' Hp Hs'.
  { by apply Permutation_nil_l. }
  destruct Hs' as [|l' ls' Hs' Hl'].
  { by apply Permutation_nil_r in Hp. }
  simpl in Hnd. apply NoDup_cons in Hnd as [Hni Hnd].
  assert (l = l') as <-.
  { assert (l ∈ l' :: ls') as [?|Hin]%elem_of_cons by (rewrite <-Hp; apply elem_of_cons; auto); [done|].
    assert (l' ∈ l :: ls) as [?|Hin']%elem_of_cons by (rewrite Hp; apply elem_of_cons; auto); [done|].
    rewrite Forall_forall in Hl, Hl'.
    destruct Hni. apply list_elem_of_fmap. exists l'. split; [|done].
    apply str_lt_total; [by apply Hl'|by apply Hl]. }
  f_equal. apply IH; [done| |done]. by apply Permutation_cons_inv in Hp.
Qed.

Section theorems.
Context `{GoSort}.

(** What [getStr] does on every input, before the length test. *)
Lemma getStr_cases ls :
  ∃ o, o ≡ₚ ls ∧ StronglySorted (λ a b, name_lt b a = false) o ∧
    getStr ls = if (max_uint16 <? expectedStrLen ls)%Z
                then Err (Errorf "series too long, combined series has length %d, max length %d")
                else Ok (o, encode o).
Proof.
  destruct ls as [|l ls]; [exists []; repeat split; constructor|].
  unfold getStr. set (k := l :: ls). destruct (is_sortedb name_lt k) eqn:Hs.
  - exists k. split_and!; [done| |done]. apply is_sortedb_strongly; [apply _|done].
  - exists (go_sort name_lt k). split_and!; [apply go_sort_perm|apply go_sort_sorted, _|].
    by rewrite (expectedStrLen_perm _ _ (go_sort_perm name_lt k)).
Qed.

(** C40. [getStr] never panics; it fails exactly on label sets whose combined
    encoding exceeds 16 bits of length, and otherwise returns the labels sorted
    by name with a string of exactly the computed length. *)
Theorem getStr_bounds ls :
  match getStr ls with
  | Ok (o, s) => o ≡ₚ ls ∧ StronglySorted (λ a b, name_lt b a = false) o ∧
      s = encode o ∧ Z.of_nat (String.length s) = expectedStrLen ls ∧
      (expectedStrLen ls ≤ max_uint16)%Z
  | Err _ => (max_uint16 < expectedStrLen ls)%Z
  | Panic _ => False
  end.
Proof.
  destruct (getStr_cases ls) as (o & Hp & Hs & ->).
  destruct (Z.ltb_spec max_uint16 (expectedStrLen ls)); [done|].
  split_and!; try done. by rewrite encode_length, (expectedStrLen_perm _ _ Hp).
Qed.

Lemma getStr_ok ls o s :
  getStr ls = Ok (o, s) →
  o ≡ₚ ls ∧ StronglySorted (λ a b, name_lt b a = false) o ∧ s = encode o ∧
  (expectedStrLen o ≤ max_uint16)%Z.
Proof.
  intros Hg. destruct (getStr_cases ls) as (o' & Hp & Hs & Heq). rewrite Heq in Hg.
  destruct (Z.ltb_spec max_uint16 (expectedStrLen ls)); [done|].
  injection Hg as <- <-. rewrite (expectedStrLen_perm _ _ Hp). auto.
Qed.

(** C36. The canonical string identifies a label set: two label sets whose names
    are distinct get the same string if and only if they have the same labels,
    in whatever order they were written. *)
Theorem getStr_identity ls1 ls2 o1 o2 s1 s2 :
  getStr ls1 = Ok (o1, s1) → getStr ls2 = Ok (o2, s2) → NoDup (Name <$> ls1) →
  s1 = s2 ↔ ls1 ≡ₚ ls2.
Proof.
  intros (Hp1 & Hs1 & -> & Hl1)%getStr_ok (Hp2 & Hs2 & -> & Hl2)%getStr_ok Hnd. split.
  - intros He. apply encode_inj in He; [|done..]. by rewrite <-Hp1, He, Hp2.
  - intros Hp. f_equal. apply sorted_perm_unique; try done.
    + by rewrite Hp1.
    + by rewrite Hp1, Hp, Hp2.
Qed.

(** Well-formed labels are determined by their canonical string. *)
Lemma labels_wf_inj l l' : labels_wf l → labels_wf l' → str l = str l' → l = l'.
Proof. intros (o & -> & Ho) (o' & -> & Ho') He. by rewrite (encode_inj _ _ Ho Ho' He). Qed.

Lemma interner_ok_wf interner s l : interner_ok interner → interner !! s = Some l → labels_wf l.
Proof. intros Hok Hs. destruct (Hok _ _ Hs) as (ls & -> & -> & ?). by exists ls. Qed.

Lemma labelProtosToLabels_ok interner ls interner' o l mn :
  interner_ok interner → labelProtosToLabels interner ls = Ok (interner', o, l, mn) →
  interner_ok interner' ∧ o ≡ₚ ls ∧ l = fill_labels (encode o) o ∧ mn = metricName l ∧
  interner' !! str l = Some l ∧ interner ⊆ interner'.
Proof.
  intros Hok Hl. unfold labelProtosToLabels in Hl. inv_res Hl. destruct a as [o' s].
  apply getStr_ok in Ha as (Hp & Hs & -> & Hlen). unfold GetLabels, SetLabels in Hl.
  destruct (interner !! encode o') as [l'|] eqn:Hi.
  - injection Hl as <- <- <- <-. destruct (Hok _ _ Hi) as (k & -> & He & Hk).
    apply encode_inj in He as ->; [|done..]. split_and!; done.
  - injection Hl as <- <- <- <-. split_and!; try done.
    + intros s' l'. rewrite lookup_insert_Some. intros [[<- <-]|[_ Hs']]; eauto.
    + apply lookup_insert_eq.
    + by apply insert_subseteq.
Qed.

(** Interning is transparent: in an interner that holds only results of
    earlier calls, [labelProtosToLabels] returns the sorted names and values of
    the labels it was given and the value of their [__name__] label, whether it
    finds or creates the entry, and keeps the interner well formed. *)
Theorem labelProtosToLabels_spec interner ls interner' o l mn :
  interner_ok interner → labelProtosToLabels interner ls = Ok (interner', o, l, mn) →
  interner_ok interner' ∧ o ≡ₚ ls ∧ l = fill_labels (encode o) o ∧ mn = metricName l ∧
  interner' !! str l = Some l ∧ interner ⊆ interner'.
Proof. apply labelProtosToLabels_ok. Qed.

(** [FromLabelMatchers] translates every matcher, in order, to the Prometheus
    matcher of the corresponding type with the same name and value, or fails;
    [NewMatcher] is only assumed to keep the type, name and value it is given. *)
Theorem FromLabelMatchers_spec NewMatcher ms rs :
  (∀ t n v r, NewMatcher t n v = Ok r → m_Type r = t ∧ m_Name r = n ∧ m_Value r = v) →
  FromLabelMatchers NewMatcher ms = Ok rs →
  Forall2 (λ lm r, m_Name r = lm_Name lm ∧ m_Value r = lm_Value lm ∧
    match lm_Type lm with
    | LM_EQ => m_Type r = MatchEqual
    | LM_NEQ => m_Type r = MatchNotEqual
    | LM_RE => m_Type r = MatchRegexp
    | LM_NRE => m_Type r = MatchNotRegexp
    | LM_other _ => False
    end) ms rs.
Proof.
  intros Hnew. revert rs. induction ms as [|m ms IH]; intros rs Hf; simpl in Hf.
  { injection Hf as <-. constructor. }
  inv_res Hf. injection Hf as <-. constructor; [|by apply IH].
  apply Hnew in Ha0 as (Ht & -> & ->). destruct (lm_Type m); simplify_eq; auto.
Qed.

End theorems.

(** ** Concrete runs *)

Definition ex_labels : list Label :=
  [MkLabel "job" "api"; MkLabel "__name__" "up"; MkLabel "instance" "a:1"].

Lemma getStr_identity_witness :
  encode (insertion_sort name_lt ex_labels) = encode (insertion_sort name_lt (rev ex_labels))
  ↔ ex_labels ≡ₚ rev ex_labels.
Proof.
  eapply (getStr_identity ex_labels (rev ex_labels)); [reflexivity..|].
  apply (bool_decide_unpack _). vm_compute. done.
Defined.

Lemma interner_ok_empty : interner_ok ∅.
Proof. intros s l. by rewrite lookup_empty. Qed.

Lemma labelProtosToLabels_spec_witness :
  ∃ i' o l mn, labelProtosToLabels ∅ ex_labels = Ok (i', o, l, mn) ∧
    mn = "up"%string ∧ l = fill_labels (encode o) o.
Proof.
  eexists _, _, _, _. split; [reflexivity|]. split; [reflexivity|].
  eapply (labelProtosToLabels_spec ∅ ex_labels); [apply interner_ok_empty|reflexivity].
Defined.

(** A matcher library for the witness: equality matchers only. *)
Definition ex_NewMatcher (t : MatchType) (n v : string) : res Matcher :=
  match t with
  | MatchEqual => Ok (MkMatcher t n v (λ s, bool_decide (s = v)))
  | MatchNotEqual => Ok (MkMatcher t n v (λ s, negb (bool_decide (s = v))))
  | _ => Err (Errorf "regexp")
  end.

Lemma FromLabelMatchers_spec_witness :
  ∃ rs, FromLabelMatchers ex_NewMatcher [MkLabelMatcher LM_NEQ "job" "x"] = Ok rs ∧
    Forall2 (λ lm r, m_Name r = lm_Name lm ∧ m_Value r = lm_Value lm ∧
      match lm_Type lm with
      | LM_EQ => m_Type r = MatchEqual
      | LM_NEQ => m_Type r = MatchNotEqual
      | LM_RE => m_Type r = MatchRegexp
      | LM_NRE => m_Type r = MatchNotRegexp
      | LM_other _ => False
      end) [MkLabelMatcher LM_NEQ "job" "x"] rs.
Proof.
  eexists. split; [reflexivity|].
  apply (FromLabelMatchers_spec ex_NewMatcher); [|reflexivity].
  intros [] n v r Hr; by simplify_eq/=.
Defined.

End Lbl.
