(* ===== verification/MetricCache.v ===== *)
(** * Metric table names: the cache interface and its clients

    [src/pkg/pgmodel/cache.go] ([MetricNameCache]), the [MetricCache] interface and
    [getMetricTableName] of [sql_utils.go], and the two [getMetricTableName]
    methods with their queries ([sql_ingest.go], [sql_reader.go]).

    The interface is the class [MetricCacheOps] with the laws
    [MetricCacheLaws]; the clients are proved against the laws, and
    [MetricNameCache] over the CLOCK cache is an instance.  PostgreSQL is a
    parameter: [query] runs one SQL query for a metric on the database state. *)
From S2P Require Import Prelude ClockCache.

Module MC.

(** ** Rows of a query

    The results [Scan] gives for the rows in order, and what [Err] returns once
    [Next] is false. *)
Record Rows (A : Type) := MkRows { row_scans : list (res A); row_Err : option goerror }.
Arguments MkRows {_} _ _.
Arguments row_scans {_} _.
Arguments row_Err {_} _.

(** ** The interface *)

Class MetricCacheOps (C : Type) := {
  mc_Get : C → string → C * res string;
  mc_Set : C → string → string → C * option goerror;
}.

Class MetricCacheLaws (C : Type) `{MetricCacheOps C} := {
  mc_inv : C → Prop;
  mc_abs : C → gmap string string;
  mc_Get_spec : ∀ c m, mc_inv c →
    mc_inv (mc_Get c m).1 ∧ mc_abs (mc_Get c m).1 = mc_abs c ∧
    match (mc_Get c m).2 with
    | Ok t => mc_abs c !! m = Some t
    | Err e => e = ErrEntryNotFound → mc_abs c !! m = None
    | Panic _ => False
    end;
  mc_Set_spec : ∀ c m t, mc_inv c →
    mc_inv (mc_Set c m t).1 ∧
    ∀ k v, mc_abs (mc_Set c m t).1 !! k = Some v →
      mc_abs c !! k = Some v ∨ (k = m ∧ v = t);
}.

(** ** [MetricNameCache] *)

Definition MetricNameCache : Type := Clock.Cache string string.

Definition DefaultMetricCacheSize : nat := Z.to_nat 10000.

Definition MetricNameCache_Get (m : MetricNameCache) (metric : string)
    : MetricNameCache * res string :=
  match Clock.Get m metric with
  | (m, None) => (m, Err ErrEntryNotFound)
  | (m, Some result) => (m, Ok result)
  end.

(** The deep copies of the two strings are equal to the originals. *)
Definition MetricNameCache_Set (conc : nat → list nat) (m : MetricNameCache)
    (metric tableName : string) : MetricNameCache * option goerror :=
  ((Clock.Insert conc m metric tableName).1, None).

Definition NumElements (m : MetricNameCache) : nat := Clock.Len m.
Definition Capacity (m : MetricNameCache) : nat := Clock.Cap m.

(** ** Queries for table names *)

Section queries.
Context {D : Type}.

(** [createMetricTable] runs [getCreateMetricsTableSQL]. *)
Definition createMetricTable (query : D → string → D * res (Rows string)) (d : D)
    (metric : string) : D * res string :=
  let '(d, r) := query d metric in
  (d, let* rows := r in
      match row_scans rows with
      | [] => match row_Err rows with
              | Some err => Err err
              | None => Err errMissingTableName
              end
      | scan :: _ => scan
      end).

(** [queryMetricTableName] runs [getMetricsTableSQL]. *)
Definition queryMetricTableName (query : D → string → D * res (Rows string)) (d : D)
    (metric : string) : D * res string :=
  let '(d, r) := query d metric in
  (d, let* rows := r in
      match row_scans rows with
      | [] => Err errMissingTableName
      | scan :: _ => scan
      end).

(** [getMetricTableName] of [sql_utils.go], which runs
    [getCreateMetricsTableWithNewSQL]; on an error the code also returns an empty
    name and [possiblyNew = true]. *)
Definition getMetricTableName (query : D → string → D * res (Rows (string * bool))) (d : D)
    (metric : string) : D * res (string * bool) :=
  let '(d, r) := query d metric in
  (d, let* rows := r in
      match row_scans rows with
      | [] => Err errMissingTableName
      | scan :: _ => scan
      end).

Context {C : Type} `{MetricCacheOps C}.

(** The body shared by the two methods [getMetricTableName]: look in the cache,
    on [ErrEntryNotFound] ask the database and fill the cache. *)
Definition cached_table_name (fetch : D → string → D * res string)
    (d : D) (cache : C) (metric : string) : D * C * res string :=
  match mc_Get cache metric with
  | (cache, Ok tableName) => (d, cache, Ok tableName)
  | (cache, Panic m) => (d, cache, Panic m)
  | (cache, Err err) =>
      if decide (err = ErrEntryNotFound) then
        match fetch d metric with
        | (d, Ok tableName) =>
            match mc_Set cache metric tableName with
            | (cache, None) => (d, cache, Ok tableName)
            | (cache, Some err) => (d, cache, Err err)
            end
        | (d, Err err) => (d, cache, Err err)
        | (d, Panic m) => (d, cache, Panic m)
        end
      else (d, cache, Err err)
  end.

Definition pgxInserter_getMetricTableName (query : D → string → D * res (Rows string))
    : D → C → string → D * C * res string :=
  cached_table_name (createMetricTable query).

Definition pgxQuerier_getMetricTableName (query : D → string → D * res (Rows string))
    : D → C → string → D * C * res string :=
  cached_table_name (queryMetricTableName query).

End queries.

(** ** The implementation satisfies the interface *)

#[export] Instance MetricNameCache_ops (conc : nat → list nat)
    : MetricCacheOps MetricNameCache := {
  mc_Get := MetricNameCache_Get;
  mc_Set := MetricNameCache_Set conc;
}.

Lemma MetricNameCache_Get_laws (c : MetricNameCache) m : Clock.inv c →
  Clock.inv (MetricNameCache_Get c m).1 ∧
  Clock.abs (MetricNameCache_Get c m).1 = Clock.abs c ∧
  match (MetricNameCache_Get c m).2 with
  | Ok t => Clock.abs c !! m = Some t
  | Err e => e = ErrEntryNotFound → Clock.abs c !! m = None
  | Panic _ => False
  end.
Proof.
  intros Hinv. unfold MetricNameCache_Get, Clock.Get.
  destruct (Clock.get_spec c m Hinv) as (? & ? & _ & Hg).
  destruct (Clock.get c m) as [c' [t|]]; simpl in *; auto.
Qed.

Lemma MetricNameCache_Set_laws conc (c : MetricNameCache) m t : Clock.inv c →
  Clock.inv (MetricNameCache_Set conc c m t).1 ∧
  ∀ k v, Clock.abs (MetricNameCache_Set conc c m t).1 !! k = Some v →
    Clock.abs c !! k = Some v ∨ (k = m ∧ v = t).
Proof.
  intros Hinv. unfold MetricNameCache_Set, Clock.Insert. simpl.
  destruct (Clock.insert_locked conc c m t) as [c' [[ck cv] ok]] eqn:Hi. simpl.
  apply Clock.insert_locked_spec in Hi as (? & _ & _ & Hi); [|done]. split; [done|].
  intros k v. destruct (Clock.abs c !! m); [by destruct Hi as (_ & _ & ->); auto|].
  destruct Hi as [_ Hi]. destruct ok; [|by destruct Hi as (_ & ->); auto].
  destruct Hi as (victim & -> & _). rewrite lookup_insert_Some.
  intros [[-> ->]|[_ Hv]]; [auto|]. left. destruct victim; simpl in Hv; [|done].
  by apply lookup_delete_Some in Hv as [_ ?].
Qed.

#[export] Instance MetricNameCache_laws conc :
  @MetricCacheLaws MetricNameCache (MetricNameCache_ops conc).
Proof.
  refine (@Build_MetricCacheLaws MetricNameCache (MetricNameCache_ops conc)
            Clock.inv Clock.abs _ _); simpl.
  - apply MetricNameCache_Get_laws.
  - apply MetricNameCache_Set_laws.
Defined.

(** ** Coherence with the database *)

Section coherence.
Context {C D : Type} `{MetricCacheLaws C}.
(** The table the database has for each metric; a table, once created for a
    metric, stays its table. *)
Context (tables : D → gmap string string).

Definition fetch_ok (fetch : D → string → D * res string) : Prop :=
  ∀ d m, tables d ⊆ tables (fetch d m).1 ∧
    match (fetch d m).2 with Ok t => tables (fetch d m).1 !! m = Some t | _ => True end.

Definition query_ok (query : D → string → D * res (Rows string)) : Prop :=
  ∀ d m, tables d ⊆ tables (query d m).1 ∧
    match (query d m).2 with
    | Ok rows => ∀ t, Ok t ∈ row_scans rows → tables (query d m).1 !! m = Some t
    | _ => True
    end.

(** Every cached name is the name in the database. *)
Definition coherent (d : D) (c : C) : Prop := mc_inv c ∧ mc_abs c ⊆ tables d.

Lemma query_create_fetch_ok query : query_ok query → fetch_ok (createMetricTable query).
Proof.
  intros Hq d m. destruct (Hq d m) as [Hsub Hrows]. unfold createMetricTable.
  destruct (query d m) as [d' [rows|e|p]]; simpl in *; auto.
  split; [done|]. destruct (row_scans rows) as [|[t|e|p] l]; [by destruct (row_Err rows)|..]; auto.
  apply Hrows. left.
Qed.

Lemma query_name_fetch_ok query : query_ok query → fetch_ok (queryMetricTableName query).
Proof.
  intros Hq d m. destruct (Hq d m) as [Hsub Hrows]. unfold queryMetricTableName.
  destruct (query d m) as [d' [rows|e|p]]; simpl in *; auto.
  split; [done|]. destruct (row_scans rows) as [|[t|e|p] l]; auto.
  apply Hrows. left.
Qed.

Lemma cached_table_name_coherent fetch d c m d' c' r :
  fetch_ok fetch → coherent d c → cached_table_name fetch d c m = (d', c', r) →
  coherent d' c' ∧ tables d ⊆ tables d' ∧
  (∀ t, r = Ok t → tables d' !! m = Some t) ∧
  (is_Some (mc_abs c !! m) → d' = d).
Proof.
  intros Hf [Hinv Hsub]. unfold cached_table_name.
  destruct (mc_Get_spec c m Hinv) as (Hinv1 & Habs1 & Hg).
  destruct (mc_Get c m) as [c1 [t|e|p]]; simpl in *; [| |done].
  { intros [= <- <- <-]. unfold coherent. rewrite Habs1. split_and!; auto.
    intros ? [= <-]. by eapply lookup_weaken. }
  case_decide as He.
  2:{ intros [= <- <- <-]. unfold coherent. rewrite Habs1. split_and!; eauto. done. }
  specialize (Hg He). destruct (Hf d m) as [Hsub' Ht].
  destruct (fetch d m) as [d1 [t|e1|p]]; simpl in *.
  - destruct (mc_Set_spec c1 m t Hinv1) as [Hinv2 Habs2].
    destruct (mc_Set c1 m t) as [c2 o]; simpl in *.
    assert (coherent d1 c2) as Hc2.
    { split; [done|]. apply map_subseteq_spec. intros k v Hk.
      apply Habs2 in Hk as [Hk|[-> ->]]; [|done].
      rewrite Habs1 in Hk. by eapply lookup_weaken, Hsub'; eapply lookup_weaken. }
    destruct o; intros [= <- <- <-]; split_and!; auto; try (by intros ? [= <-]);
      rewrite Hg; by intros [].
  - intros [= <- <- <-]. unfold coherent. rewrite Habs1.
    split_and!; eauto; [by etrans|done|]. rewrite Hg. by intros [].
  - intros [= <- <- <-]. unfold coherent. rewrite Habs1.
    split_and!; eauto; [by etrans|done|]. rewrite Hg. by intros [].
Qed.

(** Against any cache that satisfies the interface, both methods
    [getMetricTableName] keep the cache coherent with the database and, when
    they succeed, return the table the database has for the metric; a metric
    with a cached name does not reach the database. *)
Theorem getMetricTableName_coherent query d c m :
  query_ok query → coherent d c →
  (∀ d' c' r, pgxInserter_getMetricTableName query d c m = (d', c', r) →
    coherent d' c' ∧ (∀ t, r = Ok t → tables d' !! m = Some t) ∧
    (is_Some (mc_abs c !! m) → d' = d)) ∧
  (∀ d' c' r, pgxQuerier_getMetricTableName query d c m = (d', c', r) →
    coherent d' c' ∧ (∀ t, r = Ok t → tables d' !! m = Some t) ∧
    (is_Some (mc_abs c !! m) → d' = d)).
Proof.
  intros Hq Hc. split; intros d' c' r Hr; (eapply cached_table_name_coherent in Hr;
    [|eauto using query_create_fetch_ok, query_name_fetch_ok|done]); naive_solver.
Qed.

End coherence.

(** ** Concrete run: a database that creates a table per metric *)

Definition ex_query (d : gmap string string) (m : string)
    : gmap string string * res (Rows string) :=
  match d !! m with
  | Some t => (d, Ok (MkRows [Ok t] None))
  | None => (<[m := ("t_" ++ m)%string]> d, Ok (MkRows [Ok ("t_" ++ m)%string] None))
  end.

Lemma ex_query_ok : query_ok id ex_query.
Proof.
  intros d m. unfold ex_query, id. destruct (d !! m) as [t|] eqn:Hd; simpl.
  - split; [done|]. intros t' ?%list_elem_of_singleton. by simplify_eq.
  - split; [by apply insert_subseteq|]. intros t' ?%list_elem_of_singleton.
    simplify_eq. apply lookup_insert_eq.
Qed.

#[local] Instance ex_ops : MetricCacheOps MetricNameCache := MetricNameCache_ops Clock.quiet.

Lemma getMetricTableName_coherent_witness :
  ∃ d' c' r, pgxInserter_getMetricTableName ex_query ∅ (Clock.WithMax 4) "up"
             = (d', c', r) ∧ r = Ok "t_up"%string ∧ d' !! "up"%string = Some "t_up"%string.
Proof.
  eexists _, _, _. split; [reflexivity|]. split; [reflexivity|].
  refine (proj1 (proj2 (proj1 (getMetricTableName_coherent (C := MetricNameCache) id ex_query ∅
    (Clock.WithMax 4) "up"%string ex_query_ok _) _ _ _ eq_refl)) _ eq_refl).
  split; [apply Clock.inv_WithMax|]. by apply map_subseteq_spec.
Defined.

(** A failed query whose rows report an error looks like a missing table to the
    reader, but not to the writer. *)
Example reader_drops_rows_err :
  (queryMetricTableName (D := unit) (λ d _, (d, Ok (MkRows [] (Some (Errorf "conn lost"))))) tt "m").2
    = Err errMissingTableName ∧
  (createMetricTable (D := unit) (λ d _, (d, Ok (MkRows [] (Some (Errorf "conn lost"))))) tt "m").2
    = Err (Errorf "conn lost").
Proof. split; reflexivity. Qed.

End MC.
