(* ===== verification/SampleIter.v ===== *)
(** * Samples and the row iterator

    The data of the ingest path ([prompb.Sample], [prompb.TimeSeries],
    [samplesInfo]) and [SampleInfoIterator] of [src/pkg/pgmodel/sql_utils.go].
    Sample values are only moved around by this code, never computed with, so
    their type is a parameter [F].  Counts of in-memory elements are [nat];
    timestamps are [Z] in the range of [int64]. *)
From S2P Require Import Prelude Labels.

Module Smp.

Section samples.
Context {F : Type}.

Record Sample := MkSample { s_Value : F; s_Timestamp : Z }.
Record TimeSeries := MkTS { ts_Labels : list Lbl.Label; ts_Samples : list Sample }.

(** [seriesID] is -1 while the id is not known. *)
Record samplesInfo := MkInfo {
  labels : Lbl.Labels; seriesID : Z; samples : list Sample }.

Record SampleInfoIterator := MkIter {
  sampleInfos : list samplesInfo;
  sampleInfoIndex : nat;
  sampleIndex : Z;
  minSeen : Z;
}.

(** A row of the data table: timestamp in milliseconds, value, series id. *)
Definition row : Type := Z * F * Z.

(** ** Operations *)

Definition ResetPosition (t : SampleInfoIterator) : SampleInfoIterator :=
  MkIter (sampleInfos t) 0 (-1) max_int64.

Definition NewSampleInfoIterator : SampleInfoIterator :=
  ResetPosition (MkIter [] 0 0 0).

Definition Append (t : SampleInfoIterator) (s : samplesInfo) : SampleInfoIterator :=
  MkIter (sampleInfos t ++ [s]) (sampleInfoIndex t) (sampleIndex t) (minSeen t).

Definition Next (t : SampleInfoIterator) : SampleInfoIterator * bool :=
  let si := (sampleIndex t + 1)%Z in
  let '(ii, si) :=
    match sampleInfos t !! sampleInfoIndex t with
    | Some info =>
        if (Z.of_nat (length (samples info)) <=? si)%Z then (S (sampleInfoIndex t), 0%Z)
        else (sampleInfoIndex t, si)
    | None => (sampleInfoIndex t, si)
    end in
  (MkIter (sampleInfos t) ii si (minSeen t), bool_decide (ii < length (sampleInfos t))).

(** An index out of range panics; [model.Time(ts).Time()] keeps the milliseconds. *)
Definition Values (t : SampleInfoIterator) : res (SampleInfoIterator * row) :=
  match sampleInfos t !! sampleInfoIndex t with
  | None => Panic "index out of range"
  | Some info =>
      if (sampleIndex t <? 0)%Z then Panic "index out of range" else
      match samples info !! Z.to_nat (sampleIndex t) with
      | None => Panic "index out of range"
      | Some sample =>
          let ms := if (s_Timestamp sample <? minSeen t)%Z
                    then s_Timestamp sample else minSeen t in
          Ok (MkIter (sampleInfos t) (sampleInfoIndex t) (sampleIndex t) ms,
              (s_Timestamp sample, s_Value sample, seriesID info))
      end
  end.

(** [for batch.Next() { batch.Values() ... }] of [doInsert]; every turn advances
    the position, so one more turn than there are rows is enough fuel. *)
Fixpoint drain (fuel : nat) (t : SampleInfoIterator) : res (SampleInfoIterator * list row) :=
  match fuel with
  | 0 => Ok (t, [])
  | S fuel =>
      match Next t with
      | (t, false) => Ok (t, [])
      | (t, true) =>
          let* (t, r) := Values t in
          let* (t, rs) := drain fuel t in
          Ok (t, r :: rs)
      end
  end.

Definition num_rows (infos : list samplesInfo) : nat :=
  sum_list_nat ((λ si, length (samples si)) <$> infos).

(** ** Specification *)

Definition rows_of (si : samplesInfo) : list row :=
  (λ s, (s_Timestamp s, s_Value s, seriesID si)) <$> samples si.

Definition all_rows (infos : list samplesInfo) : list row := concat (rows_of <$> infos).

Definition min_ts (m : Z) (rs : list row) : Z := foldl (λ m r, Z.min m r.1.1) m rs.

End samples.

Arguments Sample : clear implicits.
Arguments TimeSeries : clear implicits.
Arguments samplesInfo : clear implicits.
Arguments SampleInfoIterator : clear implicits.

Section lemmas.
Context {F : Type}.
Implicit Types (infos : list (samplesInfo F)) (t : SampleInfoIterator F).

(** The iterator before the row [j] of info [i]. *)
Definition pos infos (i : nat) (j : nat) (m : Z) : SampleInfoIterator F :=
  MkIter infos i (Z.of_nat j - 1) m.

Lemma rows_of_drop infos i si j s :
  infos !! i = Some si → samples si !! j = Some s →
  drop j (rows_of si) = (s_Timestamp s, s_Value s, seriesID si) :: drop (S j) (rows_of si).
Proof.
  intros Hi Hs. unfold rows_of. apply drop_S. by rewrite list_lookup_fmap, Hs.
Qed.

Lemma length_all_rows infos : length (all_rows infos) = num_rows infos.
Proof.
  induction infos as [|si infos IH]; [done|].
  change (length (rows_of si ++ all_rows infos) = length (samples si) + num_rows infos).
  rewrite length_app, IH. unfold rows_of. by rewrite length_fmap.
Qed.

(** One turn at a row that exists. *)
Lemma turn infos i si j s m :
  infos !! i = Some si → samples si !! j = Some s →
  Next (pos infos i j m) = (MkIter infos i (Z.of_nat j) m, true) ∧
  Values (MkIter infos i (Z.of_nat j) m) =
    Ok (pos infos i (S j) (Z.min m (s_Timestamp s)),
        (s_Timestamp s, s_Value s, seriesID si)).
Proof.
  intros Hi Hs. unfold Next, Values, pos. simpl. rewrite Hi.
  pose proof (lookup_lt_Some _ _ _ Hs). pose proof (lookup_lt_Some _ _ _ Hi).
  replace (Z.of_nat j - 1 + 1)%Z with (Z.of_nat j) by lia.
  destruct (Z.leb_spec (Z.of_nat (length (samples si))) (Z.of_nat j)); [lia|].
  rewrite bool_decide_true by done. split; [done|].
  destruct (Z.ltb_spec (Z.of_nat j) 0); [lia|]. rewrite Nat2Z.id, Hs. simpl.
  destruct (Z.ltb_spec (s_Timestamp s) m); repeat f_equal; lia.
Qed.

(** Reaching the end of a non-empty info moves to the next one. *)
Lemma Next_skip infos i si m :
  infos !! i = Some si →
  Next (pos infos i (length (samples si)) m) =
    (MkIter infos (S i) 0 m, bool_decide (S i < length infos)).
Proof.
  intros Hi. unfold Next, pos. simpl. rewrite Hi.
  destruct (Z.leb_spec (Z.of_nat (length (samples si))) (Z.of_nat (length (samples si)) - 1 + 1)); [done|lia].
Qed.

Lemma Next_end infos i m : length infos ≤ i → ∃ t, Next (pos infos i 0 m) = (t, false).
Proof.
  intros Hi. unfold Next, pos. simpl. rewrite (lookup_ge_None_2 _ _ Hi).
  rewrite bool_decide_false by lia. eauto.
Qed.

(** From a position inside info [i], the loop yields the remaining rows. *)
Lemma drain_from infos fuel i si j m :
  Forall (λ si, samples si ≠ []) infos → infos !! i = Some si → j ≤ length (samples si) →
  length (drop j (rows_of si) ++ all_rows (drop (S i) infos)) < fuel →
  ∃ t, drain fuel (pos infos i j m) =
    Ok (t, drop j (rows_of si) ++ all_rows (drop (S i) infos)) ∧
    sampleInfos t = infos ∧
    minSeen t = min_ts m (drop j (rows_of si) ++ all_rows (drop (S i) infos)).
Proof.
  intros Hne. revert i si j m.
  induction fuel as [|fuel IH]; intros i si j m Hi Hj Hfuel; [lia|].
  destruct (decide (j = length (samples si))) as [->|Hlt].
  - rewrite drop_ge in * by (unfold rows_of; by rewrite length_fmap).
    rewrite app_nil_l in *. cbn [drain]. rewrite (Next_skip _ _ _ _ Hi).
    destruct (infos !! S i) as [si'|] eqn:Hi'.
    + pose proof (lookup_lt_Some _ _ _ Hi'). rewrite bool_decide_true by done.
      assert (all_rows (drop (S i) infos) = rows_of si' ++ all_rows (drop (S (S i)) infos))
        as Hall by by rewrite (drop_S _ _ _ Hi').
      rewrite Hall in *.
      destruct (samples si') as [|s ss] eqn:Ess.
      { rewrite Forall_forall in Hne. by destruct (Hne si' ltac:(by eapply list_elem_of_lookup_2)). }
      assert (samples si' !! 0 = Some s) as Hs0 by by rewrite Ess.
      destruct (turn infos (S i) si' 0 s m Hi' Hs0) as [_ Hv].
      change (Z.of_nat 0) with 0%Z in Hv. rewrite Hv. simpl.
      pose proof (rows_of_drop _ _ _ _ _ Hi' Hs0) as Hd. rewrite drop_0 in Hd.
      rewrite Hd in Hfuel |- *. simpl in Hfuel.
      destruct (IH (S i) si' 1 (Z.min m (s_Timestamp s)) Hi') as (t & Ht & Hti & Hm);
        [rewrite Ess; simpl; lia|lia|].
      rewrite Ht. simpl. exists t. auto.
    + apply lookup_ge_None in Hi'. rewrite bool_decide_false by lia.
      rewrite (drop_ge infos) by lia. eexists. split; [reflexivity|]. done.
  - destruct (lookup_lt_is_Some_2 (samples si) j) as [s Hs]; [lia|].
    destruct (turn infos i si j s m Hi Hs) as [Hn Hv]. cbn [drain].
    rewrite Hn, Hv. simpl.
    rewrite (rows_of_drop _ _ _ _ _ Hi Hs) in Hfuel |- *. simpl in Hfuel.
    destruct (IH i si (S j) (Z.min m (s_Timestamp s)) Hi ltac:(lia) ltac:(lia))
      as (t & Ht & Hti & Hm).
    rewrite Ht. simpl. exists t. auto.
Qed.

Lemma drain_all infos :
  Forall (λ si, samples si ≠ []) infos →
  ∃ t, drain (S (num_rows infos)) (pos infos 0 0 max_int64) = Ok (t, all_rows infos) ∧
    sampleInfos t = infos ∧ minSeen t = min_ts max_int64 (all_rows infos).
Proof.
  intros Hne. destruct infos as [|si infos].
  { simpl. eexists. split; [reflexivity|]. done. }
  destruct (drain_from (si :: infos) (S (num_rows (si :: infos))) 0 si 0 max_int64 Hne
    eq_refl ltac:(lia)) as (t & Ht).
  { change (length (all_rows (si :: infos)) < S (num_rows (si :: infos))).
    rewrite length_all_rows. lia. }
  exists t. done.
Qed.

(** Started at the reset position, the loop of [doInsert] over a batch in
    which every entry has samples visits every sample of every series exactly
    once and in order, with its own series id, never indexes out of range, and
    leaves in [minSeen] the smallest timestamp of the batch. *)
Theorem drain_complete infos t :
  Forall (λ si, samples si ≠ []) infos → sampleInfos t = infos →
  ∃ t', drain (S (num_rows infos)) (ResetPosition t) = Ok (t', all_rows infos) ∧
    sampleInfos t' = infos ∧ minSeen t' = min_ts max_int64 (all_rows infos).
Proof.
  intros Hne <-. apply (drain_all (sampleInfos t)) in Hne as (t' & Ht & ?). eauto.
Qed.

End lemmas.

Definition ex_infos : list (samplesInfo Z) :=
  let l := Lbl.MkLabels [] [] "" "" in
  [MkInfo l 4 [MkSample 10 100; MkSample 11 90]; MkInfo l 5 [MkSample 12 95]]%Z.

Lemma drain_complete_witness :
  ∃ t', drain 4 (ResetPosition (MkIter ex_infos 2 0 0)) = Ok (t', all_rows ex_infos) ∧
    minSeen t' = 90%Z.
Proof.
  destruct (drain_complete ex_infos (MkIter ex_infos 2 0 0)) as (t' & Ht & _ & Hm);
    [by repeat constructor|reflexivity|]. exists t'. split; [exact Ht|].
  rewrite Hm. reflexivity.
Defined.

(** An entry without samples makes [Values] index out of range. *)
Example empty_entry_panics :
  drain 5 (ResetPosition (MkIter (MkInfo (Lbl.MkLabels [] [] "" "") 3 [MkSample 1%Z 1%Z] ::
    [MkInfo (Lbl.MkLabels [] [] "" "") 4 []]) 0 0 0)) = Panic "index out of range".
Proof. reflexivity. Qed.

End Smp.
