(* ===== verification/Ingestor.v ===== *)
(** * From a write request to per-metric batches

    [src/pkg/pgmodel/ingestor.go] ([DBIngestor.Ingest], [parseData]) and
    [insert_ctx.go] ([FinishWriteRequest]).  [parseData] moves the samples out
    of the request, groups them by metric name and gives the request back to its
    pool.  The [inserter] interface is a parameter of [Ingest]. *)
From S2P Require Import Prelude Labels SampleIter.

Module Ing.
Import Smp.

Section ingest.
Context {F : Type} `{GoSort}.

(** [wr_spare] are the entries of the slice beyond its length, kept for reuse. *)
Record WriteRequest := MkWR { wr_Timeseries : list (TimeSeries F); wr_spare : list (TimeSeries F) }.

Definition NewWriteRequest : WriteRequest := MkWR [] [].

(** Clears every label and drops the slices; the pool keeps the request. *)
Definition FinishWriteRequest (wr : WriteRequest) : WriteRequest :=
  MkWR [] (((λ _, MkTS [] []) <$> wr_Timeseries wr) ++ wr_spare wr).

(** [dataSamples[metricName] = append(dataSamples[metricName], sample)]. *)
Definition add_sample (data : gmap string (list (samplesInfo F))) (m : string)
    (si : samplesInfo F) : gmap string (list (samplesInfo F)) :=
  <[m := default [] (data !! m) ++ [si]]> data.

(** The loop of [parseData]; on success it also gives the series with their
    labels sorted in place and their samples set to nil. *)
Fixpoint parse_loop (interner : gmap string Lbl.Labels)
    (data : gmap string (list (samplesInfo F))) (rows : nat) (tts : list (TimeSeries F))
    : gmap string Lbl.Labels *
      res (list (TimeSeries F) * gmap string (list (samplesInfo F)) * nat) :=
  match tts with
  | [] => (interner, Ok ([], data, rows))
  | t :: rest =>
      match ts_Samples t with
      | [] =>
          let '(interner, r) := parse_loop interner data rows rest in
          (interner, let* (rest', data, rows) := r in Ok (t :: rest', data, rows))
      | _ =>
          match Lbl.labelProtosToLabels interner (ts_Labels t) with
          | Err e => (interner, Err e)
          | Panic m => (interner, Panic m)
          | Ok (interner, sorted, seriesLabels, metricName) =>
              if bool_decide (metricName = ""%string) then (interner, Err ErrNoMetricName)
              else
                let sample := MkInfo seriesLabels (-1) (ts_Samples t) in
                let '(interner, r) :=
                  parse_loop interner (add_sample data metricName sample)
                    (rows + length (ts_Samples t)) rest in
                (interner, let* (rest', data, rows) := r in
                           Ok (MkTS sorted [] :: rest', data, rows))
          end
      end
  end.

Definition parseData (interner : gmap string Lbl.Labels) (tts : list (TimeSeries F))
    (req : WriteRequest)
    : gmap string Lbl.Labels * WriteRequest *
      res (list (TimeSeries F) * gmap string (list (samplesInfo F)) * nat) :=
  match parse_loop interner ∅ 0 tts with
  | (interner, Ok r) => (interner, FinishWriteRequest req, Ok r)
  | (interner, e) => (interner, req, e)
  end.

(** The number of rows [InsertData] counts while it walks over the map. *)
Definition count_rows (data : gmap string (list (samplesInfo F))) : nat := map_sum num_rows data.

(** [Ingest] returns a count and an error; [InsertNewData] is the method of the
    [inserter] interface. *)
Definition Ingest {D} (InsertNewData : D → gmap string (list (samplesInfo F)) → D * (nat * option goerror))
    (d : D) (interner : gmap string Lbl.Labels) (tts : list (TimeSeries F)) (req : WriteRequest)
    : D * gmap string Lbl.Labels * WriteRequest * res (nat * option goerror) :=
  match parseData interner tts req with
  | (interner, req, Panic m) => (d, interner, req, Panic m)
  | (interner, req, Err e) => (d, interner, req, Ok (0, Some e))
  | (interner, req, Ok (_, data, totalRows)) =>
      let '(d, (rowsInserted, err)) := InsertNewData d data in
      (d, interner, req,
       match err with
       | None => if bool_decide (rowsInserted = totalRows) then Ok (rowsInserted, None)
                 else Ok (rowsInserted, Some (Errorf "Failed to insert all the data! Expected: %d, Got: %d"))
       | Some err => Ok (rowsInserted, Some err)
       end)
  end.

(** ** Specification *)

(** [si] is the batch entry for the series [t]. *)
Definition info_for (t : TimeSeries F) (si : samplesInfo F) : Prop :=
  samples si = ts_Samples t ∧ seriesID si = (-1)%Z ∧
  Lbl.metricName (labels si) ≠ ""%string ∧ Lbl.labels_wf (labels si) ∧
  ∃ o, o ≡ₚ ts_Labels t ∧ labels si = Lbl.fill_labels (Lbl.encode o) o.

Definition has_samples (t : TimeSeries F) : Prop := ts_Samples t ≠ [].
#[global] Instance has_samples_dec t : Decision (has_samples t).
Proof. unfold has_samples. destruct (ts_Samples t); [right|left]; naive_solver. Defined.

Definition of_metric (m : string) (si : samplesInfo F) : Prop :=
  Lbl.metricName (labels si) = m.
#[global] Instance of_metric_dec m si : Decision (of_metric m si).
Proof. unfold of_metric. apply _. Defined.

(** The per-metric lists of [data] are the entries [infos] of that metric, in order. *)
Definition grouped (infos : list (samplesInfo F)) (data : gmap string (list (samplesInfo F))) : Prop :=
  ∀ m, data !! m = match filter (of_metric m) infos with [] => None | l => Some l end.

(** ** Lemmas *)

Lemma num_rows_app (l k : list (samplesInfo F)) : num_rows (l ++ k) = num_rows l + num_rows k.
Proof. unfold num_rows. by rewrite fmap_app, sum_list_nat_app. Qed.

Lemma count_rows_lookup (data : gmap string (list (samplesInfo F))) m :
  count_rows data = num_rows (default [] (data !! m)) + count_rows (delete m data).
Proof.
  destruct (data !! m) as [l|] eqn:Hm; simpl.
  - by apply map_sum_lookup.
  - by rewrite delete_id.
Qed.

Lemma count_rows_add data m si :
  count_rows (add_sample data m si) = count_rows data + length (samples si).
Proof.
  unfold add_sample. rewrite (count_rows_lookup data m). unfold count_rows.
  rewrite map_sum_insert_delete, num_rows_app.
  unfold num_rows at 2. simpl. lia.
Qed.

Lemma grouped_add infos data si :
  grouped infos data → grouped (infos ++ [si]) (add_sample data (Lbl.metricName (labels si)) si).
Proof.
  intros Hg m. unfold add_sample. rewrite filter_app, lookup_insert.
  rewrite filter_cons, filter_nil. case_decide as Hm.
  - rewrite decide_True by done. rewrite (Hg (Lbl.metricName (labels si))), Hm.
    destruct (filter (of_metric m) infos); done.
  - rewrite decide_False by done. rewrite app_nil_r. apply Hg.
Qed.

Lemma parse_loop_spec tts interner data rows infos interner' tts' data' rows' :
  Lbl.interner_ok interner → grouped infos data → count_rows data = rows →
  parse_loop interner data rows tts = (interner', Ok (tts', data', rows')) →
  ∃ infos', Forall2 info_for (filter has_samples tts) infos' ∧
    grouped (infos ++ infos') data' ∧ count_rows data' = rows' ∧
    rows' = rows + sum_list_nat ((λ t, length (ts_Samples t)) <$> tts) ∧
    Lbl.interner_ok interner' ∧ Forall (λ t, ts_Samples t = []) tts'.
Proof.
  revert interner data rows infos interner' tts' data' rows'.
  induction tts as [|t tts IH]; intros interner data rows infos interner' tts' data' rows' Hok Hg Hc; simpl.
  { intros [= <- <- <- <-]. exists []. rewrite app_nil_r. simpl. split_and!; auto. }
  rewrite filter_cons. destruct (ts_Samples t) as [|s ss] eqn:Hs.
  { destruct (parse_loop interner data rows tts) as [i1 [[[tts1 d1] r1]|e|p]] eqn:Hp; try done.
    simpl. intros [= <- <- <- <-].
    rewrite decide_False by (unfold has_samples; rewrite Hs; tauto).
    destruct (IH _ _ _ _ _ _ _ _ Hok Hg Hc Hp) as (infos' & ? & ? & ? & ? & ? & ?).
    exists infos'. split_and!; auto. }
  rewrite decide_True by (unfold has_samples; by rewrite Hs).
  destruct (Lbl.labelProtosToLabels interner (ts_Labels t)) as [[[[i1 o] l] mn]|e|p] eqn:Hl; try done.
  apply Lbl.labelProtosToLabels_ok in Hl as (Hok1 & Ho & Hl & -> & Hin & _); [|done].
  pose proof (Lbl.interner_ok_wf _ _ _ Hok1 Hin) as Hwf.
  case_bool_decide as Hmn; [done|].
  set (si := MkInfo l (-1) (s :: ss)).
  destruct (parse_loop i1 (add_sample data (Lbl.metricName l) si) _ tts)
    as [i2 [[[tts1 d1] r1]|e|p]] eqn:Hp; try done.
  simpl. intros [= <- <- <- <-].
  destruct (IH _ _ _ (infos ++ [si]) _ _ _ _ Hok1 (grouped_add _ _ si Hg)
    ltac:(rewrite count_rows_add, Hc; reflexivity) Hp) as (infos' & H1 & H2 & H3 & H4 & H5 & H6).
  exists (si :: infos'). split_and!; auto.
  - constructor; [|done]. unfold info_for. simpl. rewrite Hs. split_and!; eauto.
  - by rewrite <-(assoc_L (++)) in H2.
  - rewrite H4. unfold fmap. simpl. lia.
Qed.

(** [parseData] from the empty map, the form both properties use. *)
Lemma parseData_ok interner tts req interner' req' tts' data rows :
  Lbl.interner_ok interner →
  parseData interner tts req = (interner', req', Ok (tts', data, rows)) →
  ∃ infos, Forall2 info_for (filter has_samples tts) infos ∧ grouped infos data ∧
    count_rows data = rows ∧ rows = sum_list_nat ((λ t, length (ts_Samples t)) <$> tts) ∧
    Lbl.interner_ok interner' ∧ Forall (λ t, ts_Samples t = []) tts' ∧
    req' = FinishWriteRequest req.
Proof.
  unfold parseData. intros Hok.
  destruct (parse_loop interner ∅ 0 tts) as [i1 r1] eqn:Hp. destruct r1; intros [= <- <- ->].
  apply (parse_loop_spec _ _ _ _ []) in Hp as (infos & ? & ? & ? & ? & ? & ?); try done.
  eauto 10.
Qed.

(** [parseData] loses and invents nothing: every series with samples gives one
    batch entry with its samples, its labels (as a permutation) and no series id
    yet; the entries of a metric are kept under that metric in request order; the
    row count is the total number of samples; the moved-out series keep none. *)
Theorem parseData_spec interner tts req interner' req' tts' data rows :
  Lbl.interner_ok interner →
  parseData interner tts req = (interner', req', Ok (tts', data, rows)) →
  ∃ infos, Forall2 info_for (filter has_samples tts) infos ∧ grouped infos data ∧
    count_rows data = rows ∧ rows = sum_list_nat ((λ t, length (ts_Samples t)) <$> tts) ∧
    Lbl.interner_ok interner' ∧ Forall (λ t, ts_Samples t = []) tts' ∧
    wr_Timeseries req' = [].
Proof.
  intros Hok Hp. apply parseData_ok in Hp as (infos & ? & ? & ? & ? & ? & ? & ->); [|done].
  eauto 10.
Qed.

Section ingest_result.
Context {D : Type} (InsertNewData : D → gmap string (list (samplesInfo F)) → D * (nat * option goerror)).

(** A nil error from [Ingest] means every sample of the request was counted as
    inserted and the request went back to its pool; a failing request never
    reaches the inserter when the parser rejects it. *)
Theorem Ingest_ok_counts d interner tts req d' interner' req' n :
  Lbl.interner_ok interner →
  Ingest InsertNewData d interner tts req = (d', interner', req', Ok (n, None)) →
  n = sum_list_nat ((λ t, length (ts_Samples t)) <$> tts) ∧ wr_Timeseries req' = [] ∧
  ∃ infos data, Forall2 info_for (filter has_samples tts) infos ∧ grouped infos data ∧
    InsertNewData d data = (d', (n, None)).
Proof.
  intros Hok. unfold Ingest.
  destruct (parseData interner tts req) as [[i1 q1] r1] eqn:Hp. destruct r1 as [[[tts1 data] rows]|e|p]; [|done..].
  apply parseData_ok in Hp as (infos & ? & ? & ? & -> & ? & ? & ->); [|done].
  destruct (InsertNewData d data) as [d1 [rowsInserted [err|]]] eqn:Hi; [done|].
  case_bool_decide; intros [= <- <- <- <-]. split_and!; try done. exists infos, data. by subst.
Qed.

(** A series with samples and no metric name stops the request before any insertion. *)
Lemma Ingest_no_metric_name d interner t tts req o i' l :
  ts_Samples t ≠ [] → Lbl.labelProtosToLabels interner (ts_Labels t) = Ok (i', o, l, ""%string) →
  Ingest InsertNewData d interner (t :: tts) req = (d, i', req, Ok (0, Some ErrNoMetricName)).
Proof.
  intros Hs Hl. unfold Ingest, parseData. simpl. destruct (ts_Samples t); [done|].
  by rewrite Hl.
Qed.

End ingest_result.

End ingest.
Arguments WriteRequest : clear implicits.

(** ** Concrete run *)

Definition ex_tts : list (TimeSeries Z) :=
  [MkTS [Lbl.MkLabel "job" "a"; Lbl.MkLabel "__name__" "up"] [MkSample 10 1; MkSample 20 2];
   MkTS [Lbl.MkLabel "__name__" "idle"] [];
   MkTS [Lbl.MkLabel "__name__" "up"] [MkSample 15 3]]%Z.

Definition ex_insert (d : nat) (data : gmap string (list (samplesInfo Z))) : nat * (nat * option goerror) :=
  (d + count_rows data, (count_rows data, None)).

Definition ex_parse := parseData ∅ ex_tts NewWriteRequest.

Lemma parseData_spec_witness :
  ∃ i' q' tts' data, ex_parse = (i', q', Ok (tts', data, 3)) ∧ count_rows data = 3 ∧
    Forall (λ t, ts_Samples t = []) tts'.
Proof.
  eexists _, _, _, _. split; [vm_compute; reflexivity|].
  edestruct (parseData_spec ∅ ex_tts NewWriteRequest) as (_ & _ & _ & H1 & _ & _ & H2 & _);
    [exact Lbl.interner_ok_empty|vm_compute; reflexivity|].
  split; [exact H1|exact H2].
Defined.

Lemma Ingest_ok_counts_witness :
  ∃ d' i' q', Ingest ex_insert 0 ∅ ex_tts NewWriteRequest = (d', i', q', Ok (3, None)) ∧
    wr_Timeseries q' = [].
Proof.
  eexists _, _, _. split; [vm_compute; reflexivity|].
  eapply (Ingest_ok_counts ex_insert 0 ∅ ex_tts NewWriteRequest);
    [exact Lbl.interner_ok_empty|vm_compute; reflexivity].
Defined.

End Ing.
