(* ===== verification/SeriesIds.v ===== *)
(** * Series ids: [fillKnowSeriesIds] and [setSeriesIds]

    [src/pkg/pgmodel/sql_ingest.go].  [setSeriesIds] gives every entry of a batch
    the id of its label set, from the handler's cache or from the database; the
    pointers [*samplesInfo] it sorts and groups are indices into the batch.
    PostgreSQL is the parameter [SendBatch]: it takes one query per label set and
    yields, for the i-th query, the results of its BEGIN, SELECT and COMMIT. *)
From S2P Require Import Prelude Labels SampleIter.

Module Sid.
Import Smp.

(** The arguments of [getSeriesIDForLabelSQL]. *)
Definition series_key : Type := string * list string * list string.
Definition key_of (l : Lbl.Labels) : series_key :=
  (Lbl.metricName l, Lbl.names l, Lbl.values l).

Record batch_reply := MkReply {
  rp_begin : option goerror; rp_row : res (string * Z); rp_commit : option goerror }.

Section operations.
Context {F D : Type} `{GoSort}.
Implicit Types (sis : list (samplesInfo F)) (cache : gmap string Z).

Definition with_id (id : Z) (si : samplesInfo F) : samplesInfo F :=
  MkInfo (labels si) id (samples si).

(** Also returns the number of entries that are still without an id. *)
Fixpoint fillKnowSeriesIds cache sis : list (samplesInfo F) * nat :=
  match sis with
  | [] => ([], 0)
  | series :: rest =>
      let '(rest, numMissingSeries) := fillKnowSeriesIds cache rest in
      if (-1 <? seriesID series)%Z then (series :: rest, numMissingSeries)
      else match cache !! Lbl.str (labels series) with
           | Some id => (with_id id series :: rest, numMissingSeries)
           | None => (series :: rest, S numMissingSeries)
           end
  end.

Definition no_labels : Lbl.Labels := Lbl.MkLabels [] [] "" "".
Definition labels_at sis (i : nat) : Lbl.Labels := from_option labels no_labels (sis !! i).

(** The indices of the entries without an id: [seriesToInsert]. *)
Definition missing sis : list nat :=
  filter (λ i, from_option (λ si, (seriesID si <? 0)%Z) false (sis !! i) = true)
    (seq 0 (length sis)).

Definition idx_lt sis (i j : nat) : bool :=
  match Lbl.Compare (labels_at sis i) (labels_at sis j) with Lt => true | _ => false end.

(** The loop that groups the sorted pointers by labels and queues the queries. *)
Fixpoint group_series sis (lastSeenLabel : option Lbl.Labels) (batch : list series_key)
    (batchSeries : list (list nat)) (seriesToInsert : list nat)
    : list series_key * list (list nat) :=
  match seriesToInsert with
  | [] => (batch, batchSeries)
  | curr :: rest =>
      let l := labels_at sis curr in
      if from_option (λ last, Lbl.Equal last l) false lastSeenLabel then
        group_series sis lastSeenLabel batch
          (alter (λ g, g ++ [curr]) (length batchSeries - 1) batchSeries) rest
      else
        group_series sis (Some l) (batch ++ [key_of l]) (batchSeries ++ [[curr]]) rest
  end.

Definition set_ids (id : Z) (g : list nat) sis : list (samplesInfo F) :=
  foldl (λ sis i, alter (with_id id) i sis) sis g.

(** The loop over the replies; the cache is updated before COMMIT is read. *)
Fixpoint read_replies (br : nat → batch_reply) (i : nat) (batchSeries : list (list nat))
    cache sis (tableName : string)
    : gmap string Z * list (samplesInfo F) * res string :=
  match batchSeries with
  | [] => (cache, sis, Ok tableName)
  | g :: rest =>
      match rp_begin (br i) with
      | Some err => (cache, sis, Err err)
      | None =>
          match rp_row (br i) with
          | Err err => (cache, sis, Err err)
          | Panic m => (cache, sis, Panic m)
          | Ok (tableName, id) =>
              let cache := <[Lbl.str (labels_at sis (default 0 (head g))) := id]> cache in
              let sis := set_ids id g sis in
              match rp_commit (br i) with
              | Some err => (cache, sis, Err err)
              | None => read_replies br (S i) rest cache sis tableName
              end
          end
      end
  end.

(** What [setSeriesIds] sends and the groups it will write back, for a batch
    that went through [fillKnowSeriesIds]. *)
Definition series_batch sis : list series_key * list (list nat) :=
  group_series sis None [] [] (go_sort (idx_lt sis) (missing sis)).

Definition setSeriesIds (SendBatch : D → list series_key → D * res (nat → batch_reply))
    (d : D) cache sis : D * gmap string Z * list (samplesInfo F) * res string :=
  let '(sis, numMissingSeries) := fillKnowSeriesIds cache sis in
  if numMissingSeries =? 0 then (d, cache, sis, Ok ""%string) else
  let '(batch, batchSeries) := series_batch sis in
  match SendBatch d batch with
  | (d, Err err) => (d, cache, sis, Err err)
  | (d, Panic m) => (d, cache, sis, Panic m)
  | (d, Ok br) =>
      if negb (length batch =? length batchSeries)
      then (d, cache, sis, Err (Errorf "unexpected difference in numQueries and batchSeries"))
      else
        let '(cache, sis, r) := read_replies br 0 batchSeries cache sis "" in
        (d, cache, sis, r)
  end.

End operations.

(** ** Specification *)

Section spec.
Context {F D : Type} (given : D → series_key → Z → Prop).

Definition same_series (si si' : samplesInfo F) : Prop :=
  labels si' = labels si ∧ samples si' = samples si.

(** The database has given the entry's id to its label set. *)
Definition id_ok (d : D) (si : samplesInfo F) : Prop :=
  (0 ≤ seriesID si)%Z ∧ given d (key_of (labels si)) (seriesID si).

(** No id yet, or one given to its label set. *)
Definition id_sound (d : D) (si : samplesInfo F) : Prop := seriesID si = (-1)%Z ∨ id_ok d si.

Definition cache_ok (d : D) (cache : gmap string Z) : Prop :=
  ∀ s id, cache !! s = Some id →
    (0 ≤ id)%Z ∧ ∃ l, Lbl.labels_wf l ∧ Lbl.str l = s ∧ given d (key_of l) id.

(** Nothing that was given is forgotten. *)
Definition given_le (d d' : D) : Prop := ∀ k id, given d k id → given d' k id.

(** [get_or_create_series_id_for_kv_array]: a query that answers gives its label
    set the id it answers with, whatever becomes of its COMMIT. *)
Definition SendBatch_ok (SendBatch : D → list series_key → D * res (nat → batch_reply)) : Prop :=
  ∀ d qs d' r, SendBatch d qs = (d', r) →
    given_le d d' ∧
    ∀ br i q tbl id, r = Ok br → qs !! i = Some q → rp_row (br i) = Ok (tbl, id) →
      (0 ≤ id)%Z ∧ given d' q id.

End spec.

(** ** Lemmas *)

Section lemmas.
Context {F D : Type} `{GoSort} (given : D → series_key → Z → Prop).
Implicit Types (sis : list (samplesInfo F)) (cache : gmap string Z).

Definition fill1 cache (si : samplesInfo F) : samplesInfo F :=
  if (-1 <? seriesID si)%Z then si
  else from_option (λ id, with_id id si) si (cache !! Lbl.str (labels si)).

Lemma fill_fst cache sis : (fillKnowSeriesIds cache sis).1 = fill1 cache <$> sis.
Proof.
  induction sis as [|si sis IH]; [done|]. rewrite fmap_cons, <-IH.
  unfold fill1 at 1. simpl. destruct (fillKnowSeriesIds cache sis) as [rest n].
  destruct (_ <? _)%Z; [done|]. by destruct (cache !! _).
Qed.

Lemma fill_zero cache sis :
  (fillKnowSeriesIds cache sis).2 = 0 ↔
  Forall (λ si, (-1 < seriesID si)%Z ∨ is_Some (cache !! Lbl.str (labels si))) sis.
Proof.
  induction sis as [|si sis IH]; [by split|]. rewrite Forall_cons, <-IH. simpl.
  destruct (fillKnowSeriesIds cache sis) as [rest n]. simpl.
  destruct (Z.ltb_spec (-1) (seriesID si)); [naive_solver|].
  destruct (cache !! _) as [id|] eqn:E; simpl; [naive_solver|].
  split; [done|]. intros [[?|[? [=]]] _]. lia.
Qed.

Lemma fill1_same cache si : same_series si (fill1 cache si).
Proof. unfold fill1. case_if; [done|]. by destruct (cache !! _). Qed.

Lemma same_series_trans (a b c : samplesInfo F) :
  same_series a b → same_series b c → same_series a c.
Proof. unfold same_series. intuition congruence. Qed.

Lemma cache_lookup_ok d cache l id :
  cache_ok given d cache → Lbl.labels_wf l → cache !! Lbl.str l = Some id →
  (0 ≤ id)%Z ∧ given d (key_of l) id.
Proof.
  intros Hc Hl Hid. apply Hc in Hid as (? & l' & Hl' & He & ?).
  by rewrite (Lbl.labels_wf_inj _ _ Hl Hl' (eq_sym He)).
Qed.

Lemma fill1_sound d cache si :
  cache_ok given d cache → Lbl.labels_wf (labels si) → id_sound given d si →
  id_sound given d (fill1 cache si).
Proof.
  intros Hc Hl Hs. unfold fill1. case_if; [done|].
  destruct (cache !! _) as [id|] eqn:E; simpl; [|done]. right.
  by eapply cache_lookup_ok in E.
Qed.

Lemma id_sound_mono d d' si :
  given_le given d d' → id_sound given d si → id_sound given (F:=F) d' si.
Proof. intros Hd [?|[? ?]]; [by left|]. right. split; [done|]. by apply Hd. Qed.

Lemma cache_ok_mono d d' cache :
  given_le given d d' → cache_ok given d cache → cache_ok given d' cache.
Proof.
  intros Hd Hc s id Hs. apply Hc in Hs as (? & l & ? & ? & ?).
  split; [done|]. exists l. eauto.
Qed.

(** *** Writing ids through pointers *)

Lemma lookup_set_ids id g sis j :
  set_ids id g sis !! j = if decide (j ∈ g) then with_id id <$> sis !! j else sis !! j.
Proof.
  unfold set_ids. revert sis. induction g as [|i g IH]; intros sis.
  { case_decide as Hj; [by apply elem_of_nil in Hj|done]. }
  cbn [foldl]. rewrite IH, list_lookup_alter.
  destruct (decide (i = j)) as [->|Hij].
  - rewrite (decide_True (P := j ∈ j :: g)) by left. case_decide; [|done].
    by destruct (sis !! j).
  - destruct (decide (j ∈ g)) as [Hj|Hj].
    + by rewrite (decide_True (P := j ∈ i :: g)) by by right.
    + rewrite decide_False; [done|]. by intros [->|?]%elem_of_cons.
Qed.

Lemma set_ids_same id g sis : Forall2 same_series sis (set_ids id g sis).
Proof.
  apply Forall2_same_length_lookup. split.
  - unfold set_ids. revert sis. induction g as [|i g IH]; intros sis; simpl; [done|].
    by rewrite <-IH, length_alter.
  - intros j x y Hx. rewrite lookup_set_ids, Hx. case_decide; simpl; intros [= <-]; done.
Qed.

Lemma labels_at_same sis sis' j :
  Forall2 same_series sis sis' → labels_at sis' j = labels_at sis j.
Proof.
  intros Hf. unfold labels_at. destruct (sis !! j) as [si|] eqn:Hj.
  - destruct (Forall2_lookup_l _ _ _ _ _ Hf Hj) as (si' & -> & Hs & _). done.
  - apply lookup_ge_None in Hj. rewrite (Forall2_length _ _ _ Hf) in Hj.
    apply lookup_ge_None in Hj. by rewrite Hj.
Qed.

Definition gstr sis (g : list nat) : string := Lbl.str (labels_at sis (default 0 (head g))).

(** The groups of [batchSeries] and the queue built with them. *)
Definition good_groups sis (batch : list series_key) (bs : list (list nat)) : Prop :=
  batch = (λ g, key_of (labels_at sis (default 0 (head g)))) <$> bs ∧
  Forall (λ g, g ≠ [] ∧ ∀ j, j ∈ g → Lbl.str (labels_at sis j) = gstr sis g) bs ∧
  StronglySorted (λ a b, str_lt a b = true) (gstr sis <$> bs).

Definition last_ok sis (last : option Lbl.Labels) (bs : list (list nat)) : Prop :=
  match last with
  | None => bs = []
  | Some l => ∃ pre i0 g, bs = pre ++ [i0 :: g] ∧ l = labels_at sis i0
  end.

Lemma good_extend sis batch pre i0 g curr :
  good_groups sis batch (pre ++ [i0 :: g]) →
  Lbl.str (labels_at sis curr) = Lbl.str (labels_at sis i0) →
  good_groups sis batch (pre ++ [i0 :: g ++ [curr]]).
Proof.
  intros (Hb & Hg & Hs) Hc. split_and!.
  - by rewrite Hb, !fmap_app.
  - apply Forall_app in Hg as [Hp Hg]. apply Forall_app. split; [done|].
    apply Forall_singleton. apply Forall_singleton in Hg as [_ Hg]. split; [done|].
    intros j. rewrite app_comm_cons, elem_of_app, list_elem_of_singleton.
    intros [Hj| ->]; [by apply Hg|done].
  - by rewrite fmap_app in Hs |- *.
Qed.

Lemma good_new sis batch bs last curr :
  good_groups sis batch bs → last_ok sis last bs →
  (∀ l, last = Some l → str_lt (Lbl.str l) (Lbl.str (labels_at sis curr)) = true) →
  good_groups sis (batch ++ [key_of (labels_at sis curr)]) (bs ++ [[curr]]).
Proof.
  intros (Hb & Hg & Hs) Hl Hlt. split_and!.
  - by rewrite Hb, fmap_app.
  - apply Forall_app. split; [done|]. apply Forall_singleton. split; [done|].
    intros j Hj%list_elem_of_singleton. by subst.
  - rewrite fmap_app. apply StronglySorted_app. split_and!; [|done|repeat constructor].
    intros x y Hx Hy%list_elem_of_singleton. subst y. destruct last as [l|]; simpl in Hl.
    + destruct Hl as (pre & i0 & g & -> & ->). specialize (Hlt _ eq_refl).
      rewrite fmap_app in Hx, Hs. apply StronglySorted_app in Hs as (Hs & _ & _).
      apply elem_of_app in Hx as [Hx|Hx%list_elem_of_singleton]; [|by subst].
      eapply str_lt_trans; [apply Hs; [done|left]|done].
    + subst. by apply elem_of_nil in Hx.
Qed.


Lemma group_series_spec sis last batch bs rest :
  good_groups sis batch bs → last_ok sis last bs →
  StronglySorted (λ i j, idx_lt sis j i = false) rest →
  (∀ l i, last = Some l → i ∈ rest → str_lt (Lbl.str (labels_at sis i)) (Lbl.str l) = false) →
  good_groups sis (group_series sis last batch bs rest).1 (group_series sis last batch bs rest).2 ∧
  concat (group_series sis last batch bs rest).2 = concat bs ++ rest.
Proof.
  revert last batch bs. induction rest as [|curr rest IH]; intros last batch bs Hg Hl Hs Hr.
  { simpl. by rewrite app_nil_r. }
  apply StronglySorted_inv in Hs as [Hs Hcurr]. simpl.
  destruct (from_option _ _ last) eqn:He.
  - destruct last as [l|]; [|done]. destruct Hl as (pre & i0 & g & -> & ->).
    simpl in He. apply bool_decide_eq_true in He.
    assert (alter (λ g, g ++ [curr]) (length (pre ++ [i0 :: g]) - 1) (pre ++ [i0 :: g])
            = pre ++ [i0 :: g ++ [curr]]) as ->.
    { rewrite length_app. simpl. replace (length pre + 1 - 1) with (length pre + 0) by lia.
      by rewrite alter_app_r_alt, Nat.add_0_r, Nat.sub_diag by lia. }
    destruct (IH (Some (labels_at sis i0)) batch (pre ++ [i0 :: g ++ [curr]])) as [H1 H2].
    + by apply good_extend.
    + by exists pre, i0, (g ++ [curr]).
    + done.
    + intros l i [= <-] Hi. apply Hr; [done|by right].
    + split; [done|]. rewrite H2, !concat_app. simpl. rewrite !app_nil_r. simpl. rewrite <-!(assoc_L (++)). simpl. by rewrite <-(assoc_L (++)).
  - destruct (IH (Some (labels_at sis curr)) (batch ++ [key_of (labels_at sis curr)])
      (bs ++ [[curr]])) as [H1 H2].
    + apply (good_new _ _ _ last); [done..|]. intros l ->. simpl in He.
      apply bool_decide_eq_false in He. specialize (Hr l curr eq_refl ltac:(left)).
      destruct (str_lt (Lbl.str l) _) eqn:E; [done|]. by destruct (He (str_lt_total _ _ E Hr)).
    + by exists bs, curr, [].
    + done.
    + intros l i [= <-] Hi. rewrite Forall_forall in Hcurr. specialize (Hcurr _ Hi).
      unfold idx_lt, Lbl.Compare in Hcurr. unfold str_lt, String.ltb.
      by destruct (String.compare _ _).
    + split; [done|]. rewrite H2, concat_app. simpl. by rewrite <-(assoc_L (++)).
Qed.

#[global] Instance idx_lt_strict_weak sis : StrictWeak (idx_lt sis).
Proof.
  assert (idx_lt sis = λ i j, str_lt (Lbl.str (labels_at sis i)) (Lbl.str (labels_at sis j))) as ->
    by reflexivity.
  apply (strict_weak_key (λ i, Lbl.str (labels_at sis i)) str_lt). apply _.
Qed.

Lemma series_batch_spec sis :
  good_groups sis (series_batch sis).1 (series_batch sis).2 ∧
  concat (series_batch sis).2 ≡ₚ missing sis.
Proof.
  unfold series_batch.
  destruct (group_series_spec sis None [] [] (go_sort (idx_lt sis) (missing sis))) as [H1 H2].
  - split_and!; [done|constructor|constructor].
  - done.
  - apply go_sort_sorted, _.
  - done.
  - split; [done|]. rewrite H2. apply go_sort_perm.
Qed.

Lemma elem_of_missing sis i :
  i ∈ missing sis ↔ ∃ si, sis !! i = Some si ∧ (seriesID si < 0)%Z.
Proof.
  unfold missing. rewrite list_elem_of_filter, elem_of_seq. split.
  - intros [Hi _]. destruct (sis !! i) as [si|]; [|done]. simpl in Hi. exists si. split; [done|lia].
  - intros (si & Hi & Hn). rewrite Hi. simpl. apply lookup_lt_Some in Hi. split; lia.
Qed.

(** The preconditions of the reply loop, for the groups from reply [i] on. *)
Definition replies_ok d (br : nat → batch_reply) i sis (bs : list (list nat)) : Prop :=
  (∀ k g tbl id, bs !! k = Some g → rp_row (br (i + k)) = Ok (tbl, id) →
     (0 ≤ id)%Z ∧ given d (key_of (labels_at sis (default 0 (head g)))) id) ∧
  Forall (λ g, g ≠ [] ∧ ∀ j, j ∈ g → is_Some (sis !! j) ∧
            Lbl.str (labels_at sis j) = gstr sis g) bs ∧
  (∀ j, is_Some (sis !! j) → Lbl.labels_wf (labels_at sis j)).

Lemma same_series_is_Some sis sis' j :
  Forall2 same_series sis sis' → is_Some (sis !! j) ↔ is_Some (sis' !! j).
Proof. intros Hf. by rewrite !lookup_lt_is_Some, (Forall2_length _ _ _ Hf). Qed.

Lemma replies_ok_next d br i sis sis' g bs :
  Forall2 same_series sis sis' → replies_ok d br i sis (g :: bs) → replies_ok d br (S i) sis' bs.
Proof.
  intros Hf (H1 & H2 & H3). apply Forall_cons in H2 as [_ H2].
  pose proof (λ j, labels_at_same _ _ j Hf) as Hlab. split_and!.
  - intros k g' tbl id Hk. rewrite Hlab, Nat.add_succ_comm. by apply (H1 (S k)).
  - eapply Forall_impl; [exact H2|]. intros g' [Hne Hg']. split; [done|]. intros j Hj.
    unfold gstr. rewrite !Hlab, <-same_series_is_Some by done. by apply Hg'.
  - intros j. rewrite Hlab, <-same_series_is_Some by done. apply H3.
Qed.

(** After an answer the whole group carries an id given to its labels. *)
Lemma group_ids_ok d br i sis g bs tbl id j :
  replies_ok d br i sis (g :: bs) → rp_row (br i) = Ok (tbl, id) →
  (0 ≤ id)%Z ∧ Lbl.labels_wf (labels_at sis (default 0 (head g))) ∧
  given d (key_of (labels_at sis (default 0 (head g)))) id ∧
  (j ∈ g → labels_at sis j = labels_at sis (default 0 (head g))).
Proof.
  intros (H1 & H2 & H3) Hrow. apply Forall_cons in H2 as [[Hne Hg] _].
  destruct (H1 0 g tbl id eq_refl) as [Hid Hkey]; [by rewrite Nat.add_0_r|].
  assert (default 0 (head g) ∈ g) as Hhd by (destruct g; [done|left]).
  assert (Lbl.labels_wf (labels_at sis (default 0 (head g)))) as Hwf by by apply H3, Hg.
  split_and!; [done..|]. intros Hj. apply Lbl.labels_wf_inj; [by apply H3, Hg|done|].
  by destruct (Hg j Hj) as [_ ->].
Qed.

Lemma same_series_refl sis : Forall2 same_series sis sis.
Proof. induction sis; by constructor. Qed.

Lemma read_replies_spec d br bs i cache sis t cache' sis' r :
  replies_ok d br i sis bs → cache_ok given d cache →
  read_replies br i bs cache sis t = (cache', sis', r) →
  Forall2 same_series sis sis' ∧ cache_ok given d cache' ∧
  (∀ j si', sis' !! j = Some si' → sis !! j = Some si' ∨ id_ok given d si') ∧
  (∀ t', r = Ok t' → ∀ j si', j ∈ concat bs → sis' !! j = Some si' → id_ok given d si').
Proof.
  revert i cache sis t. induction bs as [|g bs IH]; intros i cache sis t Hok Hc Hr.
  { injection Hr as <- <- <-. split_and!; [apply same_series_refl|done|eauto|].
    intros t' _ j si' Hj. by apply elem_of_nil in Hj. }
  simpl in Hr. destruct (rp_begin (br i)) as [e|].
  { injection Hr as <- <- <-. split_and!; [apply same_series_refl|naive_solver..]. }
  destruct (rp_row (br i)) as [[tbl id]|e|m] eqn:Hrow;
    [|injection Hr as <- <- <-; (split_and!; [apply same_series_refl|naive_solver..])..].
  pose proof (set_ids_same id g sis) as Hsame.
  assert (cache_ok given d (<[Lbl.str (labels_at sis (default 0 (head g))) := id]> cache)) as Hc1.
  { destruct (group_ids_ok _ _ _ _ _ _ _ _ 0 Hok Hrow) as (Hid & Hwf & Hkey & _).
    intros s' id'. rewrite lookup_insert_Some. intros [[<- <-]|[_ Hs']]; [eauto|by apply Hc]. }
  assert (∀ j si', j ∈ g → set_ids id g sis !! j = Some si' → id_ok given d si') as Hgid.
  { intros j si' Hj. destruct (group_ids_ok _ _ _ _ _ _ _ _ j Hok Hrow) as (Hid & Hwf & Hkey & Hl).
    rewrite lookup_set_ids, decide_True by done. rewrite fmap_Some. intros (si & Hsi & ->).
    split; [done|]. simpl. specialize (Hl Hj). unfold labels_at at 1 in Hl. rewrite Hsi in Hl.
    simpl in Hl. by rewrite Hl. }
  assert (∀ j si', set_ids id g sis !! j = Some si' → sis !! j = Some si' ∨ id_ok given d si') as Hu1.
  { intros j si' Hj. destruct (decide (j ∈ g)) as [Hg|Hg]; [right; by eapply Hgid|].
    rewrite lookup_set_ids, decide_False in Hj by done. by left. }
  destruct (rp_commit (br i)) as [e|] eqn:Hcom.
  { injection Hr as <- <- <-. by split_and!. }
  apply IH in Hr as (Hs & Hc' & Hu & Hcomp); [|by eapply replies_ok_next|done].
  split_and!; [|done| |].
  - eapply Forall2_trans; [|exact Hsame|exact Hs]. intros; by eapply same_series_trans.
  - intros j si' Hj. destruct (Hu j si' Hj) as [Hj'|]; [by apply Hu1|by right].
  - intros t' Ht j si' Hj Hsi. cbn [concat] in Hj. apply elem_of_app in Hj as [Hj|Hj]; [|by eapply Hcomp].
    destruct (Hu j si' Hsi) as [Hj'|]; [by eapply Hgid|done].
Qed.

(** After [fillKnowSeriesIds] the batch satisfies the loop's preconditions. *)
Lemma replies_ok_start SendBatch d d' br sis :
  SendBatch_ok given SendBatch → Forall (λ si, Lbl.labels_wf (labels si)) sis →
  SendBatch d (series_batch sis).1 = (d', Ok br) →
  replies_ok d' br 0 sis (series_batch sis).2.
Proof.
  intros Hsb Hwf Hsend. destruct (series_batch_spec sis) as [(Hb & Hg & _) Hperm].
  apply Hsb in Hsend as [_ Hsend]. split_and!.
  - intros k g tbl id Hk Hrow. apply (Hsend br k _ tbl); try done.
    by rewrite Hb, list_lookup_fmap, Hk.
  - rewrite Forall_forall in Hg |- *. intros g Hgin. destruct (Hg g Hgin) as [Hne Hstr].
    split; [done|]. intros j Hj. split; [|by apply Hstr].
    assert (j ∈ missing sis) as (si & -> & _)%elem_of_missing; [|done].
    rewrite <-Hperm. apply list_elem_of_In, in_concat. exists g. by rewrite <-!list_elem_of_In.
  - intros j [si Hsi]. unfold labels_at. rewrite Hsi. simpl.
    rewrite Forall_forall in Hwf. by apply Hwf, list_elem_of_lookup_2 with j.
Qed.

Lemma fill_same cache sis : Forall2 same_series sis (fill1 cache <$> sis).
Proof. induction sis; constructor; auto using fill1_same. Qed.

Lemma same_series_wf sis sis' :
  Forall2 same_series sis sis' → Forall (λ si, Lbl.labels_wf (labels si)) sis →
  Forall (λ si, Lbl.labels_wf (labels si)) sis'.
Proof.
  induction 1 as [|si si' sis sis' [Hs _] _ IH]; [done|]. rewrite !Forall_cons, Hs.
  intros [? ?]. auto.
Qed.

Lemma fill_sound d cache sis :
  cache_ok given d cache → Forall (λ si, Lbl.labels_wf (labels si)) sis →
  Forall (id_sound given d) sis → Forall (id_sound given d) (fill1 cache <$> sis).
Proof.
  intros Hc Hwf Hs. apply Forall_fmap. rewrite Forall_forall in Hwf, Hs |- *.
  intros si Hsi. apply fill1_sound; auto.
Qed.

(** No entry without an id is left when [fillKnowSeriesIds] counts none. *)
Lemma fill_complete d cache sis :
  cache_ok given d cache → Forall (λ si, Lbl.labels_wf (labels si)) sis →
  Forall (id_sound given d) sis → (fillKnowSeriesIds cache sis).2 = 0 →
  Forall (id_ok given d) (fill1 cache <$> sis).
Proof.
  intros Hc Hwf Hs Hz%fill_zero. apply Forall_fmap. rewrite Forall_forall in Hwf, Hs, Hz |- *.
  intros si Hsi. unfold compose, fill1.
  destruct (Z.ltb_spec (-1) (seriesID si)); [destruct (Hs si Hsi); [lia|done]|].
  destruct (Hz si Hsi) as [?|[id Hid]]; [lia|]. rewrite Hid. simpl.
  by eapply cache_lookup_ok in Hid; [|done|apply Hwf].
Qed.

Section main.
Context (SendBatch : D → list series_key → D * res (nat → batch_reply)).
Context (HSB : SendBatch_ok given SendBatch).

Lemma setSeriesIds_ok d cache sis d' cache' sis' r :
  cache_ok given d cache → Forall (λ si, Lbl.labels_wf (labels si)) sis →
  Forall (id_sound given d) sis →
  setSeriesIds SendBatch d cache sis = (d', cache', sis', r) →
  Forall2 same_series sis sis' ∧ given_le given d d' ∧
  cache_ok given d' cache' ∧ Forall (id_sound given d') sis' ∧
  (∀ t, r = Ok t → Forall (id_ok given d') sis').
Proof.
  intros Hc Hwf Hs. unfold setSeriesIds.
  pose proof (fill_same cache sis) as Hsame. pose proof (fill_sound d cache sis Hc Hwf Hs) as Hs1.
  pose proof (fill_complete d cache sis Hc Hwf Hs) as Hz. rewrite <-fill_fst in Hsame, Hs1, Hz.
  destruct (fillKnowSeriesIds cache sis) as [sis1 n]. simpl in Hsame, Hs1, Hz.
  pose proof (same_series_wf _ _ Hsame Hwf) as Hwf1.
  destruct (Nat.eqb_spec n 0) as [->|Hn].
  { intros [= <- <- <- <-]. split_and!; auto. by intros k id. }
  pose proof (replies_ok_start SendBatch d) as Hstart.
  destruct (series_batch_spec sis1) as [_ Hperm].
  destruct (series_batch sis1) as [batch bs] eqn:Hb.
  destruct (SendBatch d batch) as [d1 r1] eqn:Hsend.
  pose proof (proj1 (HSB _ _ _ _ Hsend)) as Hsub.
  assert (Forall (id_sound given d1) sis1) as Hs2
    by (eapply Forall_impl; [exact Hs1|]; intros; by eapply id_sound_mono).
  assert (cache_ok given d1 cache) as Hc1 by by eapply cache_ok_mono.
  destruct r1 as [br|e|m];
    [|intros [= <- <- <- <-]; by split_and!..].
  case_if.
  { intros [= <- <- <- <-]. by split_and!. }
  specialize (Hstart d1 br sis1 HSB Hwf1). rewrite Hb in Hstart. specialize (Hstart Hsend).
  destruct (read_replies br 0 bs cache sis1 "") as [[cache2 sis2] r2] eqn:Hrr.
  intros [= <- <- <- <-].
  apply (read_replies_spec d1) in Hrr as (Hsame2 & Hc2 & Hu & Hcomp); [|done..].
  split_and!; [|done|done| |].
  - eapply Forall2_trans; [|exact Hsame|exact Hsame2]. intros; by eapply same_series_trans.
  - apply Forall_lookup. intros j si Hj. destruct (Hu j si Hj) as [Hj1|]; [|by right].
    rewrite Forall_lookup in Hs2. eauto.
  - intros t Ht. apply Forall_lookup. intros j si Hj.
    destruct (decide (j ∈ concat bs)) as [Hin|Hin]; [by eapply Hcomp|].
    destruct (Hu j si Hj) as [Hj1|]; [|done]. rewrite Forall_lookup in Hs2.
    destruct (Hs2 j si Hj1) as [Hneg|]; [|done]. destruct Hin. simpl in Hperm. rewrite Hperm.
    apply elem_of_missing. exists si. split; [done|lia].
Qed.

(** [setSeriesIds] changes only ids; when it succeeds every entry of the batch
    has an id the database gave to its label set, and the cache still maps label
    sets to such ids.  The same holds, for the entries that got an id, when it
    fails.  Given is not committed: see [failed_commit_is_cached]. *)
Theorem setSeriesIds_sound d cache sis d' cache' sis' r :
  cache_ok given d cache → Forall (λ si, Lbl.labels_wf (labels si)) sis →
  Forall (id_sound given d) sis →
  setSeriesIds SendBatch d cache sis = (d', cache', sis', r) →
  Forall2 same_series sis sis' ∧ given_le given d d' ∧
  cache_ok given d' cache' ∧ Forall (id_sound given d') sis' ∧
  (∀ t, r = Ok t → Forall (id_ok given d') sis').
Proof. apply setSeriesIds_ok. Qed.

End main.

(** *** The queries *)

Lemma key_of_inj l l' : Lbl.labels_wf l → Lbl.labels_wf l' → key_of l = key_of l' → l = l'.
Proof.
  intros (o & -> & _) (o' & -> & _) [= _ Hn Hv]. assert (o = o') as ->; [|done].
  revert o' Hn Hv. induction o as [|[n v] o IH]; intros [|[n' v'] o']; simpl; try done.
  intros [= -> ?] [= -> ?]. f_equal. auto.
Qed.

Lemma strongly_sorted_NoDup (l : list string) :
  StronglySorted (λ a b, str_lt a b = true) l → NoDup l.
Proof.
  induction 1 as [|a l _ IH Ha]; constructor; [|done]. intros Hin.
  rewrite Forall_forall in Ha. specialize (Ha a Hin). by rewrite str_lt_irrefl in Ha.
Qed.

(** The entries of the filled batch that still need a query. *)
Lemma missing_fill cache sis i :
  (∀ s id, cache !! s = Some id → (0 ≤ id)%Z) →
  i ∈ missing (fill1 cache <$> sis) ↔
  ∃ si, sis !! i = Some si ∧ (seriesID si < 0)%Z ∧ cache !! Lbl.str (labels si) = None.
Proof.
  intros Hnn. rewrite elem_of_missing. setoid_rewrite list_lookup_fmap. split.
  - intros (si' & (si & -> & ?)%fmap_Some & Hneg). simplify_eq. exists si. unfold fill1 in Hneg.
    destruct (Z.ltb_spec (-1) (seriesID si)); [lia|].
    destruct (cache !! _) as [id|] eqn:E; simpl in Hneg; [apply Hnn in E; lia|]. auto.
  - intros (si & -> & Hneg & Hnone). eexists. split; [done|]. unfold fill1.
    destruct (Z.ltb_spec (-1) (seriesID si)); [lia|]. by rewrite Hnone.
Qed.

Lemma series_batch_queries sis :
  Forall (λ si, Lbl.labels_wf (labels si)) sis →
  NoDup (series_batch sis).1 ∧
  ∀ q, q ∈ (series_batch sis).1 ↔ ∃ i, i ∈ missing sis ∧ q = key_of (labels_at sis i).
Proof.
  intros Hwf. destruct (series_batch_spec sis) as [(Hb & Hg & Hsort) Hperm].
  assert (∀ i, i ∈ missing sis → Lbl.labels_wf (labels_at sis i)) as Hwf'.
  { intros i (si & Hsi & _)%elem_of_missing. unfold labels_at. rewrite Hsi.
    rewrite Forall_lookup in Hwf. by eapply Hwf. }
  assert (∀ g j, g ∈ (series_batch sis).2 → j ∈ g → j ∈ missing sis) as Hin.
  { intros g j Hgi Hj. rewrite <-Hperm. apply list_elem_of_In, in_concat. exists g.
    by rewrite <-!list_elem_of_In. }
  rewrite Forall_forall in Hg.
  assert (∀ g, g ∈ (series_batch sis).2 → Lbl.labels_wf (labels_at sis (default 0 (head g))) ∧
    default 0 (head g) ∈ missing sis) as Hhd.
  { intros g Hgi. destruct (Hg g Hgi) as [Hne _].
    assert (default 0 (head g) ∈ missing sis); [|auto].
    apply (Hin g); [done|]. destruct g; [done|left]. }
  split.
  - rewrite Hb. apply strongly_sorted_NoDup in Hsort.
    eapply (NoDup_fmap_2_strong (A:=list nat)).
    + intros g g' H1 H2 He. apply key_of_inj in He; [|by apply Hhd..].
      apply (f_equal Lbl.str) in He.
      apply list_elem_of_lookup in H1 as [a Ha], H2 as [b Hb'].
      assert (a = b) as ->; [|congruence].
      eapply (NoDup_lookup _ a b (gstr sis g) Hsort); rewrite list_lookup_fmap;
        [by rewrite Ha|rewrite Hb'; simpl; unfold gstr; by rewrite He].
    + by eapply NoDup_fmap_1.
  - intros q. rewrite Hb, list_elem_of_fmap. split.
    + intros (g & -> & Hgi). exists (default 0 (head g)). split; [|done]. by apply Hhd.
    + intros (i & Hi & ->). pose proof Hi as Hc. rewrite <-Hperm in Hc.
      apply list_elem_of_In, in_concat in Hc as (g & Hgi & Hj). apply list_elem_of_In in Hgi, Hj.
      destruct (Hg g Hgi) as [Hne Hs]. exists g. split; [|done]. f_equal.
      apply Lbl.labels_wf_inj; [by apply Hwf'|by apply Hhd|by rewrite (Hs i Hj)].
Qed.

Lemma filled_queries cache sis q :
  (∀ s id, cache !! s = Some id → (0 ≤ id)%Z) →
  Forall (λ si, Lbl.labels_wf (labels si)) sis →
  q ∈ (series_batch (fill1 cache <$> sis)).1 ↔ ∃ si, si ∈ sis ∧ (seriesID si < 0)%Z ∧
    cache !! Lbl.str (labels si) = None ∧ q = key_of (labels si).
Proof.
  intros Hnn Hwf. pose proof (same_series_wf _ _ (fill_same cache sis) Hwf) as Hwf1.
  destruct (series_batch_queries _ Hwf1) as [_ Hq].
  assert (∀ i si, sis !! i = Some si → labels_at (fill1 cache <$> sis) i = labels si) as Hlab.
  { intros i si Hsi. unfold labels_at. rewrite list_lookup_fmap, Hsi. simpl.
    apply fill1_same. }
  rewrite Hq. setoid_rewrite missing_fill; [|done]. split.
  - intros (i & (si & Hsi & ? & ?) & ->). exists si. rewrite (Hlab _ _ Hsi).
    split_and!; try done. by eapply list_elem_of_lookup_2.
  - intros (si & [i Hsi]%list_elem_of_lookup & ? & ? & ->). exists i.
    rewrite (Hlab _ _ Hsi). eauto.
Qed.

(** [setSeriesIds] asks the database exactly once for every distinct label set
    that is neither known in the batch nor in the cache, and does not talk to the
    database when there is none. *)
Theorem setSeriesIds_queries cache sis :
  (∀ s id, cache !! s = Some id → (0 ≤ id)%Z) →
  Forall (λ si, Lbl.labels_wf (labels si)) sis →
  ∃ batch, NoDup batch ∧
    (∀ q, q ∈ batch ↔ ∃ si, si ∈ sis ∧ (seriesID si < 0)%Z ∧
       cache !! Lbl.str (labels si) = None ∧ q = key_of (labels si)) ∧
    ∀ SendBatch (d : D),
      (setSeriesIds SendBatch d cache sis).1.1.1 =
        match batch with [] => d | _ => (SendBatch d batch).1 end.
Proof.
  intros Hnn Hwf. pose proof (same_series_wf _ _ (fill_same cache sis) Hwf) as Hwf1.
  destruct (series_batch_queries _ Hwf1) as [Hnd _].
  pose proof (λ q, filled_queries cache sis q Hnn Hwf) as Hq'.
  exists (series_batch (fill1 cache <$> sis)).1. split_and!; [done..|]. intros SendBatch d.
  unfold setSeriesIds. rewrite <-fill_fst in Hq' |- *. pose proof (fill_zero cache sis) as Hz.
  destruct (fillKnowSeriesIds cache sis) as [sis1 n]. simpl in Hq', Hz |- *.
  destruct (series_batch sis1) as [batch bs]. simpl in Hq' |- *.
  destruct (Nat.eqb_spec n 0) as [->|Hn].
  - destruct batch as [|q batch]; [done|]. exfalso.
    destruct (proj1 (Hq' q) ltac:(left)) as (si & Hsi & Hneg & Hnone & _).
    pose proof (proj1 Hz eq_refl) as Hall. rewrite Forall_forall in Hall.
    destruct (Hall si Hsi) as [?|[? ?]]; [lia|congruence].
  - destruct batch as [|q batch].
    + exfalso. apply Hn, Hz, Forall_forall. intros si Hsi.
      destruct (cache !! Lbl.str (labels si)) eqn:E; [right; eauto|left].
      destruct (Z.ltb_spec (-1) (seriesID si)); [done|].
      assert (key_of (labels si) ∈ []) as Hin%elem_of_nil; [|done].
      apply Hq'. exists si. split_and!; [done|lia|done..].
    + destruct (SendBatch d _) as [d1 [br|e|m]]; try done. simpl.
      case_if; [done|]. by destruct (read_replies _ _ _ _ _ _) as [[? ?] ?].
Qed.

End lemmas.

(** ** Concrete run: a database that numbers label sets from 1 *)

Notation ex_db := (gmap series_key Z).
Definition ex_add (d : ex_db) (q : series_key) : ex_db :=
  match d !! q with Some _ => d | None => <[q := Z.of_nat (S (size d))]> d end.
Definition ex_SendBatch (d : ex_db) (qs : list series_key) : ex_db * res (nat → batch_reply) :=
  let d' := foldl ex_add d qs in
  (d', Ok (λ i, MkReply None
     match qs !! i with
     | Some q => Ok ("t"%string, Z.max 0 (default 0%Z (d' !! q)))
     | None => Err (Errorf "no result")
     end None)).

(** The identity view keeps only non-negative ids, so that the run below applies. *)
Definition ex_ids (d : ex_db) : gmap series_key Z := Z.max 0 <$> d.
Definition ex_given (d : ex_db) (k : series_key) (id : Z) : Prop := ex_ids d !! k = Some id.

Lemma ex_add_mono d q : d ⊆ ex_add d q.
Proof. unfold ex_add. destruct (d !! q) eqn:E; [done|]. by apply insert_subseteq. Qed.

Lemma ex_fold_mono qs d : d ⊆ foldl ex_add d qs.
Proof.
  revert d. induction qs as [|q qs IH]; intros d; [done|].
  etrans; [apply (ex_add_mono d q)|apply IH].
Qed.

Lemma ex_fold_in qs d q : q ∈ qs → is_Some (foldl ex_add d qs !! q).
Proof.
  revert d. induction qs as [|q' qs IH]; intros d; [by intros ?%elem_of_nil|].
  intros [->|Hin]%elem_of_cons; [|by apply IH]. simpl.
  assert (is_Some (ex_add d q' !! q')) as [id Hid].
  { unfold ex_add. destruct (d !! q') eqn:E; [by rewrite E|]. rewrite lookup_insert_eq. eauto. }
  exists id. eapply lookup_weaken; [exact Hid|apply ex_fold_mono].
Qed.

Lemma ex_SendBatch_ok : SendBatch_ok ex_given ex_SendBatch.
Proof.
  intros d qs d' r [= <- <-]. split.
  { intros k id Hk. eapply lookup_weaken; [exact Hk|by apply map_fmap_mono, ex_fold_mono]. }
  intros br i q tbl id [= <-] Hq. simpl. rewrite Hq. intros [= <- <-].
  destruct (ex_fold_in qs d q) as [id Hid]; [by eapply list_elem_of_lookup_2|].
  unfold ex_given, ex_ids. rewrite lookup_fmap, Hid. simpl. split; [lia|done].
Qed.

Definition ex_lset (v : string) : Lbl.Labels :=
  let ls := [Lbl.MkLabel "__name__" "up"; Lbl.MkLabel "job" v] in
  Lbl.fill_labels (Lbl.encode ls) ls.

Lemma ex_lset_wf v : String.length v ≤ 10 → Lbl.labels_wf (ex_lset v).
Proof.
  intros Hv. eexists. split; [reflexivity|]. unfold Lbl.expectedStrLen, max_uint16. simpl. lia.
Qed.

Definition ex_batch : list (samplesInfo Z) :=
  [MkInfo (ex_lset "b") (-1) []; MkInfo (ex_lset "a") (-1) []; MkInfo (ex_lset "b") (-1) []].

Lemma ex_batch_wf : Forall (λ si, Lbl.labels_wf (labels si)) ex_batch.
Proof. repeat constructor; apply ex_lset_wf; simpl; lia. Qed.

Definition ex_run := setSeriesIds ex_SendBatch (∅ : ex_db) ∅ ex_batch.

Lemma setSeriesIds_sound_witness :
  ex_run.2 = Ok "t"%string ∧ seriesID <$> ex_run.1.2 = [2; 1; 2]%Z ∧
  Forall2 same_series ex_batch ex_run.1.2.
Proof.
  split; [vm_compute; reflexivity|]. split; [vm_compute; reflexivity|].
  eapply (setSeriesIds_sound ex_given ex_SendBatch ex_SendBatch_ok (∅ : ex_db) ∅ ex_batch
    ex_run.1.1.1 ex_run.1.1.2 ex_run.1.2 ex_run.2);
    [by intros s id Hs; rewrite lookup_empty in Hs|apply ex_batch_wf|
     repeat constructor|].
  unfold ex_run. by destruct (setSeriesIds _ _ _ _) as [[[? ?] ?] ?].
Defined.

Lemma setSeriesIds_queries_witness :
  ∃ batch, NoDup batch ∧ ∀ SendBatch (d : ex_db),
    (setSeriesIds SendBatch d ∅ ex_batch).1.1.1 =
      match batch with [] => d | _ => (SendBatch d batch).1 end.
Proof.
  destruct (setSeriesIds_queries (D:=ex_db) ∅ ex_batch) as (batch & H1 & _ & H3);
    [intros s id Hs; by rewrite lookup_empty in Hs|apply ex_batch_wf|].
  exists batch. split; [exact H1|exact H3].
Defined.

(** A COMMIT that fails leaves the rolled-back id in the cache: the next batch
    uses it without asking the database again. *)
Example failed_commit_is_cached :
  let send (d : nat) (qs : list series_key) :=
    (S d, Ok (λ _, MkReply None (Ok ("t"%string, 7%Z)) (Some (PgError "40001" "could not serialize")))) in
  let '(d, cache, _, r) := setSeriesIds send 0 ∅ [MkInfo (F:=Z) (ex_lset "a") (-1) []] in
  let '(d', _, sis, r') := setSeriesIds send d cache [MkInfo (F:=Z) (ex_lset "a") (-1) []] in
  d = 1 ∧ r = Err (PgError "40001" "could not serialize") ∧
  d' = 1 ∧ r' = Ok ""%string ∧ seriesID <$> sis = [7%Z].
Proof. vm_compute. done. Qed.

End Sid.
