(* ===== verification/Inserter.v ===== *)
(** * The insert handler of a metric and the copiers

    The sequential code of [src/pkg/pgmodel/sql_ingest.go] that runs inside the
    goroutines: the answer to a caller (a [sync.WaitGroup] and a channel of one
    error per call of [InsertData]), [pendingBuffer], [insertHandler] and the body
    of [runInserter] with [doInsert] and its recovery.  The goroutines themselves
    and their channels are in the file Pipeline.  The connection to PostgreSQL is
    the record [Conn] of operations on a database state. *)
From S2P Require Import Prelude Labels MetricCache SampleIter SeriesIds.

Module Ins.
Import Smp Sid.

(** [strings.Contains]. *)
Definition str_contains (s sub : string) : bool :=
  match String.index 0 sub s with Some _ => true | None => false end.

(** ** Answering a caller *)

(** What a call of [InsertData] shares with the goroutines: the wait group's
    counter and the error channel of capacity one. *)
Record reply_to := MkReplyTo { wg : Z; errChan : option goerror; chan_closed : bool }.

(** [select { case errChan <- err: default: }]; a send on a closed channel panics. *)
Definition try_send (err : goerror) (r : reply_to) : res reply_to :=
  if chan_closed r then Panic "send on closed channel"
  else Ok (MkReplyTo (wg r) (Some (default err (errChan r))) false).

Definition wg_Done (r : reply_to) : res reply_to :=
  if (wg r - 1 <? 0)%Z then Panic "sync: negative WaitGroup counter"
  else Ok (MkReplyTo (wg r - 1) (errChan r) (chan_closed r)).

(** An [insertDataTask] holds both pointers of one call; [None] is the zero task. *)
Notation calls := (gmap nat reply_to).
Notation task := (option nat).

Definition at_call (f : reply_to → res reply_to) (cs : calls) (t : task) : res calls :=
  match t with
  | None => Panic "nil pointer dereference"
  | Some c =>
      match cs !! c with
      | None => Panic "nil pointer dereference"
      | Some r => let* r := f r in Ok (<[c := r]> cs)
      end
  end.

Definition answer (err : option goerror) (cs : calls) (t : task) : res calls :=
  let* cs := match err with Some err => at_call (try_send err) cs t | None => Ok cs end in
  at_call wg_Done cs t.

Fixpoint answer_all (err : option goerror) (cs : calls) (ts : list task) : res calls :=
  match ts with
  | [] => Ok cs
  | t :: ts => let* cs := answer err cs t in answer_all err cs ts
  end.

Section handler.
Context {F D : Type} `{GoSort}.

(** ** The connection *)

(** The statements this code runs: the series batch, the INSERT of a batch of
    rows (giving the number of affected rows), the two compression calls, and the
    query for a metric's table and [finalize_metric_creation].  [c_now] is the clock, in nanoseconds. *)
Record Conn := MkConn {
  c_SendBatch : D → list series_key → D * res (nat → batch_reply);
  c_Insert : D → string → list (row (F:=F)) → D * res Z;
  c_DelayCompression : D → string → Z → D * option goerror;
  c_Decompress : D → string → Z → D * option goerror;
  c_MetricTable : D → string → D * res (MC.Rows (string * bool));
  c_Finalize : D → D * option goerror;
  c_now : D → Z;
}.

Record insertDataRequest := MkReq { r_metric : string; r_data : list (samplesInfo F); r_task : task }.

Record pendingBuffer := MkPend { needsResponse : list task; batch : SampleInfoIterator F }.

(** What [pendingBuffers.Get] gives: a new buffer, or one [reportResults] reset. *)
Definition new_pending : pendingBuffer := MkPend [] NewSampleInfoIterator.

Record copyRequest := MkCopy { cr_data : pendingBuffer; cr_table : string }.

Record insertHandler := MkHandler {
  pending : pendingBuffer; seriesCache : gmap string Z; metricTableName : string }.

Definition flushSize : nat := Z.to_nat 2000.

Definition set_infos (sis : list (samplesInfo F)) (it : SampleInfoIterator F) : SampleInfoIterator F :=
  MkIter sis (sampleInfoIndex it) (sampleIndex it) (minSeen it).

Definition addReq (p : pendingBuffer) (req : insertDataRequest) : pendingBuffer * bool :=
  let p := MkPend (needsResponse p ++ [r_task req])
             (set_infos (sampleInfos (batch p) ++ r_data req) (batch p)) in
  (p, bool_decide (flushSize < length (sampleInfos (batch p)))).

Definition reportResults (err : option goerror) (cs : calls) (p : pendingBuffer)
    : res (calls * pendingBuffer) :=
  let* cs := answer_all err cs (needsResponse p) in
  Ok (cs, MkPend [] (ResetPosition (MkIter [] 0 0 0))).

Definition hasPendingReqs (h : insertHandler) : bool :=
  bool_decide (0 < length (sampleInfos (batch (pending h)))).

(** The state a handler shares: the database, the callers, and what it sent to
    the copiers. *)
Record shared := MkShared { sh_db : D; sh_calls : calls; sh_copiers : list copyRequest }.

Context (conn : Conn).

Definition CompleteMetricCreation (d : D) : D * option goerror := c_Finalize conn d.

Definition flushPending (s : shared) (h : insertHandler) : res (shared * insertHandler) :=
  let p := pending h in
  let '(d, cache, sis, r) :=
    setSeriesIds (c_SendBatch conn) (sh_db s) (seriesCache h) (sampleInfos (batch p)) in
  let p := MkPend (needsResponse p) (set_infos sis (batch p)) in
  match r with
  | Panic m => Panic m
  | Err err =>
      let* (cs, p) := reportResults (Some err) (sh_calls s) p in
      Ok (MkShared d cs (sh_copiers s), MkHandler p cache (metricTableName h))
  | Ok _ =>
      Ok (MkShared d (sh_calls s) (sh_copiers s ++ [MkCopy p (metricTableName h)]),
          MkHandler new_pending cache (metricTableName h))
  end.

Definition flush (s : shared) (h : insertHandler) : res (shared * insertHandler) :=
  if hasPendingReqs h then flushPending s h else Ok (s, h).

Definition handleReq (s : shared) (h : insertHandler) (req : insertDataRequest)
    : res (shared * insertHandler * bool) :=
  let '(data, _) := fillKnowSeriesIds (seriesCache h) (r_data req) in
  let '(p, needsFlush) := addReq (pending h) (MkReq (r_metric req) data (r_task req)) in
  let h := MkHandler p (seriesCache h) (metricTableName h) in
  if needsFlush : bool then
    let* (s, h) := flushPending s h in Ok (s, h, true)
  else Ok (s, h, false).

(** *** Channels

    A receive from a closed empty channel returns the zero value at once. *)
Record chan := MkChan { queue : list insertDataRequest; closed : bool }.

Definition zero_request : insertDataRequest := MkReq "" [] None.

(** [None]: the goroutine blocks. *)
Definition blockingHandleReq (s : shared) (h : insertHandler) (input : chan)
    : option (res (shared * insertHandler * chan * bool)) :=
  match queue input with
  | req :: q =>
      Some (let* (s, h, _) := handleReq s h req in Ok (s, h, MkChan q (closed input), true))
  | [] => if closed input then Some (Ok (s, h, input, false)) else None
  end.

Definition nonblockingHandleReq (s : shared) (h : insertHandler) (input : chan)
    : res (shared * insertHandler * chan * bool) :=
  match queue input with
  | req :: q =>
      let* (s, h, _) := handleReq s h req in Ok (s, h, MkChan q (closed input), true)
  | [] =>
      if closed input then
        let* (s, h, _) := handleReq s h zero_request in Ok (s, h, input, true)
      else Ok (s, h, input, false)
  end.

(** One turn of the loop of [runInserterRoutine].  [hot] tells whether the
    goroutine is inside [hotReceive]; each turn makes one receive.  The last
    component is [None] once the routine has returned. *)
Definition routine_turn (s : shared) (h : insertHandler) (hot : bool) (input : chan)
    : option (res (shared * chan * option (insertHandler * bool))) :=
  if negb hot && negb (hasPendingReqs h) then
    match blockingHandleReq s h input with
    | None => None
    | Some r =>
        Some (let* (s, h, input, stillAlive) := r in
              Ok (s, input, if stillAlive : bool then Some (h, false) else None))
    end
  else
    Some (let* (s, h, input, more) := nonblockingHandleReq s h input in
          if (more : bool) && negb (bool_decide (flushSize ≤ length (sampleInfos (batch (pending h)))))
          then Ok (s, input, Some (h, true))
          else let* (s, h) := flush s h in Ok (s, input, Some (h, false))).

(** One turn of [runInserterRoutineFailure]. *)
Definition routine_failure_turn (err : goerror) (cs : calls) (req : insertDataRequest) : res calls :=
  answer (Some (Wrapped "The insert routine has previously failed with %w" err)) cs (r_task req).

(** The start of [runInserterRoutine]: the table name, or the error it will
    answer every request with.  [signal] is the one-slot channel
    [completeMetricCreationSignal]. *)
Definition routine_start {C} `{MC.MetricCacheOps C} (d : D) (cs : calls) (names : C) (signal : bool)
    (metricName : string) (errTo : task)
    : res (D * calls * C * bool * (insertHandler + goerror)) :=
  let ready d names signal tableName :=
    Ok (d, cs, names, signal, inl (MkHandler new_pending ∅ tableName)) in
  let failed d names err :=
    let* cs := at_call (try_send err) cs errTo in Ok (d, cs, names, signal, inr err) in
  match MC.mc_Get names metricName with
  | (names, Panic m) => Panic m
  | (names, Ok tableName) => ready d names signal tableName
  | (names, Err err) =>
      if decide (err = ErrEntryNotFound) then
        match MC.getMetricTableName (c_MetricTable conn) d metricName with
        | (d, Panic m) => Panic m
        | (d, Err err) => failed d names err
        | (d, Ok (tableName, possiblyNew)) =>
            let '(names, _) := MC.mc_Set names metricName tableName in
            ready d names (signal || possiblyNew) tableName
        end
      else failed d names err
  end.

(** ** The copiers *)

(** Returns the request with its iterator where the loop left it. *)
Definition doInsert (d : D) (req : copyRequest) : D * copyRequest * res unit :=
  let numRows := num_rows (sampleInfos (batch (cr_data req))) in
  match drain (S numRows) (batch (cr_data req)) with
  | Panic m => (d, req, Panic m)
  | Err e => (d, req, Err e)
  | Ok (it, rows) =>
      let req := MkCopy (MkPend (needsResponse (cr_data req)) it) (cr_table req) in
      if negb (length rows =? numRows) then (d, req, Panic "invalid insert request") else
      match c_Insert conn d (cr_table req) rows with
      | (d, Ok _) => (d, req, Ok tt)
      | (d, Err err) => (d, req, Err err)
      | (d, Panic m) => (d, req, Panic m)
      end
  end.

Definition minute : Z := 60000000000.
Definition hour : Z := 60 * minute.

(** [time.Since] saturates at the bounds of [time.Duration]. *)
Definition since (now min_time_ns : Z) : Z :=
  Z.max min_int64 (Z.min max_int64 (now - min_time_ns)).

Definition delayBy (now minTimeMs : Z) : Z :=
  let delay := wrap64 (Z.quot (since now (minTimeMs * 1000000)) 2 + 60 * minute) in
  if (24 * hour <? delay)%Z then 24 * hour else delay.

Definition decompressChunks (d : D) (p : pendingBuffer) (table : string) : D * option goerror :=
  let minTime := minSeen (batch p) in
  let now := c_now conn d in
  match c_DelayCompression conn d table (now + delayBy now minTime) with
  | (d, Some rescheduleErr) => (d, Some rescheduleErr)
  | (d, None) => c_Decompress conn d table minTime
  end.

(** [Ok] with the request to retry, or the error to report. *)
Definition tryRecovery (d : D) (req : copyRequest) (err : goerror) : D * res copyRequest :=
  match err with
  | PgError _ msg =>
      if str_contains msg "insert/update/delete not permitted" then
        match decompressChunks d (cr_data req) (cr_table req) with
        | (d, Some _) => (d, Err err)
        | (d, None) =>
            (d, Ok (MkCopy (MkPend (needsResponse (cr_data req)) (ResetPosition (batch (cr_data req))))
                      (cr_table req)))
        end
      else (d, Err err)
  | _ => (d, Err err)
  end.

Definition insertErrorFallback (d : D) (req : copyRequest) (err : goerror)
    : D * copyRequest * res unit :=
  match tryRecovery d req err with
  | (d, Ok req) => doInsert d req
  | (d, Err err) => (d, req, Err err)
  | (d, Panic m) => (d, req, Panic m)
  end.

(** The insertion with its fallback, before the answer. *)
Definition copy_result (d : D) (req : copyRequest) : D * copyRequest * res unit :=
  match doInsert d req with
  | (d, req, Err err) => insertErrorFallback d req err
  | r => r
  end.

(** One turn of the loop of [runInserter]; the buffer goes back to the pool. *)
Definition runInserter_turn (d : D) (cs : calls) (req : copyRequest)
    : res (D * calls * pendingBuffer) :=
  match copy_result d req with
  | (d, req, Panic m) => Panic m
  | (d, req, Ok _) =>
      let* (cs, p) := reportResults None cs (cr_data req) in Ok (d, cs, p)
  | (d, req, Err err) =>
      let* (cs, p) := reportResults (Some err) cs (cr_data req) in Ok (d, cs, p)
  end.

End handler.

Arguments Conn : clear implicits.
Arguments insertDataRequest : clear implicits.
Arguments pendingBuffer : clear implicits.
Arguments copyRequest : clear implicits.
Arguments insertHandler : clear implicits.
Arguments shared : clear implicits.
Arguments chan : clear implicits.

(** ** Specification *)

(** How many of the tasks belong to call [c]. *)
Fixpoint occ (c : nat) (ts : list task) : nat :=
  match ts with
  | [] => 0
  | t :: ts => (if decide (t = Some c) then 1 else 0) + occ c ts
  end.

(** The call after [n] answers with [err]. *)
Definition answered (err : option goerror) (n : nat) (r : reply_to) : reply_to :=
  MkReplyTo (wg r - Z.of_nat n)
    (if decide (n = 0) then errChan r else
     match err with Some e => Some (default e (errChan r)) | None => errChan r end)
    (chan_closed r).

(** The calls can take an answer for each task: they exist, their counters are
    high enough and their channels are open. *)
Definition can_answer (cs : calls) (ts : list task) : Prop :=
  Forall (λ t, ∃ c, t = Some c ∧ is_Some (cs !! c)) ts ∧
  ∀ c r, cs !! c = Some r → (Z.of_nat (occ c ts) ≤ wg r)%Z ∧ (0 < occ c ts → chan_closed r = false).

Section spec.
Context {F D : Type}.

(** The view of the database the properties speak about: series ids, tables of
    metrics, the (time, series id) keys present in a table, and a part of its
    history: [db_lost d k id] when a transaction that answered [id] for the label
    set [k] ended with an error of its COMMIT. *)
Record DbView := MkView {
  db_ids : D → gmap series_key Z;
  db_tables : D → gmap string string;
  db_has : D → string → Z → Z → Prop;
  db_lost : D → series_key → Z → Prop;
}.

(** The id of the label set in the database, or one that a transaction which did
    not commit had answered for it. *)
Definition given (v : DbView) (d : D) (k : series_key) (id : Z) : Prop :=
  db_ids v d !! k = Some id ∨ db_lost v d k id.

Definition db_le (v : DbView) (d d' : D) : Prop :=
  db_ids v d ⊆ db_ids v d' ∧ db_tables v d ⊆ db_tables v d' ∧
  (∀ t ts id, db_has v d t ts id → db_has v d' t ts id) ∧
  given_le (db_lost v) d d'.

(** What the code relies on: ids, tables and rows are never taken away, the id a
    transaction answers is that of its label set when its COMMIT succeeds (when it
    fails, the answer only enters the history), an INSERT ... ON CONFLICT DO
    NOTHING that returns has a row for every key, the table read for a metric is
    its table, and the driver does not panic.  Any statement may fail. *)
Record ConnLaws (conn : Conn F D) (v : DbView) : Prop := {
  SendBatch_law : ∀ d qs d' br i q tbl id, c_SendBatch conn d qs = (d', Ok br) →
    qs !! i = Some q → rp_row (br i) = Ok (tbl, id) →
    (0 ≤ id)%Z ∧ match rp_commit (br i) with
                 | None => db_ids v d' !! q = Some id
                 | Some _ => db_lost v d' q id
                 end;
  SendBatch_le : ∀ d qs, db_le v d (c_SendBatch conn d qs).1;
  SendBatch_rows : ∀ d qs d' br i m, c_SendBatch conn d qs = (d', Ok br) → rp_row (br i) ≠ Panic m;
  SendBatch_no_panic : ∀ d qs m, (c_SendBatch conn d qs).2 ≠ Panic m;
  Insert_le : ∀ d t rows, db_le v d (c_Insert conn d t rows).1;
  Insert_has : ∀ d t rows n, (c_Insert conn d t rows).2 = Ok n →
    ∀ r, r ∈ rows → db_has v (c_Insert conn d t rows).1 t r.1.1 r.2;
  Insert_no_panic : ∀ d t rows m, (c_Insert conn d t rows).2 ≠ Panic m;
  Delay_le : ∀ d t z, db_le v d (c_DelayCompression conn d t z).1;
  Decompress_le : ∀ d t z, db_le v d (c_Decompress conn d t z).1;
  Finalize_le : ∀ d, db_le v d (c_Finalize conn d).1;
  MetricTable_le : ∀ d m, db_le v d (c_MetricTable conn d m).1;
  MetricTable_ok : ∀ d m rows t b, (c_MetricTable conn d m).2 = Ok rows →
    Ok (t, b) ∈ MC.row_scans rows → db_tables v (c_MetricTable conn d m).1 !! m = Some t;
  MetricTable_no_panic : ∀ d m p, (c_MetricTable conn d m).2 ≠ Panic p ∧
    ∀ rows, (c_MetricTable conn d m).2 = Ok rows → Panic p ∉ MC.row_scans rows;
}.

(** No COMMIT of the connection fails. *)
Definition commits (conn : Conn F D) : Prop :=
  ∀ d qs d' br i, c_SendBatch conn d qs = (d', Ok br) → rp_commit (br i) = None.

(** The same view of a database none of whose COMMITs has failed. *)
Definition nothing_lost (v : DbView) : DbView :=
  MkView (db_ids v) (db_tables v) (db_has v) (λ _ _ _, False).

(** An entry as [parseData] makes them. *)
Definition info_good (si : samplesInfo F) : Prop :=
  samples si ≠ [] ∧ Lbl.labels_wf (labels si).

Definition infos (p : pendingBuffer F) : list (samplesInfo F) := sampleInfos (batch p).

(** A buffer between two operations: its iterator is at the start, and it has
    entries exactly when somebody waits for it. *)
Definition pend_good (p : pendingBuffer F) : Prop :=
  batch p = ResetPosition (batch p) ∧ Forall info_good (infos p) ∧
  (needsResponse p = [] ↔ infos p = []).

Definition handler_good (v : DbView) (d : D) (m : string) (h : insertHandler F) : Prop :=
  pend_good (pending h) ∧ Forall (id_sound (given v) d) (infos (pending h)) ∧
  cache_ok (given v) d (seriesCache h) ∧ db_tables v d !! m = Some (metricTableName h).

Definition copy_good (v : DbView) (d : D) (cr : copyRequest F) : Prop :=
  pend_good (cr_data cr) ∧ needsResponse (cr_data cr) ≠ [] ∧
  Forall (id_ok (given v) d) (infos (cr_data cr)).

(** What happened to the tasks [ts] and entries [sis] a handler held: they are
    still pending, or were all sent to the copiers, or were all answered with an
    error. *)
Inductive outcome (v : DbView) (m : string) (ts : list task) (sis : list (samplesInfo F))
    (s : shared F D) : shared F D → insertHandler F → Prop :=
  | Kept h' :
      needsResponse (pending h') = ts → Forall2 same_series sis (infos (pending h')) →
      outcome v m ts sis s s h'
  | Copied d' h' cr :
      pending h' = new_pending → needsResponse (cr_data cr) = ts →
      Forall2 same_series sis (infos (cr_data cr)) → copy_good v d' cr →
      cr_table cr = metricTableName h' →
      outcome v m ts sis s (MkShared d' (sh_calls s) (sh_copiers s ++ [cr])) h'
  | Failed d' cs' h' e :
      pending h' = new_pending → ts ≠ [] →
      (∀ c, cs' !! c = answered (Some e) (occ c ts) <$> sh_calls s !! c) →
      outcome v m ts sis s (MkShared d' cs' (sh_copiers s)) h'.

End spec.
Arguments DbView : clear implicits.

(** ** Lemmas: answering *)

Lemma occ_app c ts us : occ c (ts ++ us) = occ c ts + occ c us.
Proof. induction ts as [|t ts IH]; simpl; [done|]. rewrite IH. lia. Qed.

Lemma answer_ok err (cs : calls) c r :
  cs !! c = Some r → (1 ≤ wg r)%Z → chan_closed r = false →
  answer err cs (Some c) = Ok (<[c := answered err 1 r]> cs).
Proof.
  intros Hc Hwg Hcl. unfold answer, at_call, answered. destruct err as [e|]; simpl.
  - rewrite Hc. unfold try_send. rewrite Hcl. simpl. rewrite lookup_insert_eq.
    unfold wg_Done. simpl. destruct (Z.ltb_spec (wg r - 1) 0); [lia|]. simpl.
    by rewrite insert_insert_eq.
  - rewrite Hc. unfold wg_Done. destruct (Z.ltb_spec (wg r - 1) 0); [lia|]. done.
Qed.

Lemma answered_answered err a b r : answered err a (answered err b r) = answered err (b + a) r.
Proof.
  unfold answered. simpl. f_equal; [lia|].
  repeat case_decide; try lia; try done. by destruct err, (errChan r).
Qed.

Lemma answer_all_ok err ts (cs : calls) :
  can_answer cs ts →
  ∃ cs', answer_all err cs ts = Ok cs' ∧
    ∀ c, cs' !! c = answered err (occ c ts) <$> cs !! c.
Proof.
  revert cs. induction ts as [|t ts IH]; intros cs [Hex Hcan].
  { exists cs. split; [done|]. intros c. destruct (cs !! c) as [[]|]; [|done].
    simpl. unfold answered. simpl. by rewrite Z.sub_0_r. }
  apply Forall_cons in Hex as [(c & -> & r & Hr) Hex].
  destruct (Hcan c r Hr) as [Hwg Hcl]. simpl in Hwg, Hcl.
  rewrite decide_True in Hwg, Hcl by done.
  cbn [answer_all]. rewrite (answer_ok _ _ _ r) by (done || lia || (apply Hcl; lia)). cbn [res_bind].
  destruct (IH (<[c := answered err 1 r]> cs)) as (cs' & -> & Hcs').
  { split.
    - eapply Forall_impl; [exact Hex|]. intros t (c' & -> & Hc'). exists c'. split; [done|].
      apply lookup_insert_is_Some'. by right.
    - intros c' r'. rewrite lookup_insert_Some. intros [[<- <-]|[Hne Hr']]; simpl.
      + split; [lia|]. intros. apply Hcl. lia.
      + destruct (Hcan _ _ Hr') as [H1 H2]. simpl in H1, H2.
        rewrite decide_False in H1, H2 by congruence. done. }
  exists cs'. split; [done|]. intros c'. rewrite Hcs'. simpl. case_decide as Hc'.
  - injection Hc' as <-. rewrite lookup_insert_eq, Hr. simpl. by rewrite answered_answered.
  - rewrite lookup_insert_ne by congruence. done.
Qed.

(** ** Lemmas: the handler *)

Section lemmas.
Context {F D : Type} `{GoSort} (conn : Conn F D) (v : DbView D) (Hlaws : ConnLaws conn v).
Implicit Types (d : D) (h : insertHandler F) (s : shared F D).

#[global] Instance db_le_preorder : PreOrder (db_le v).
Proof.
  split; [intros d; split_and!; [done..|by intros k id]|].
  intros d1 d2 d3 (H1 & H2 & H3 & H4) (H5 & H6 & H7 & H8). split_and!; [by etrans..|eauto|].
  intros k id ?. eauto.
Qed.

Lemma db_le_given d d' : db_le v d d' → given_le (given v) d d'.
Proof.
  intros (Hids & _ & _ & Hlost) k id [Hk|Hk]; [left; by eapply lookup_weaken|right; by apply Hlost].
Qed.

(** Whatever becomes of a COMMIT, the answers of a batch are given. *)
Lemma SendBatch_given : SendBatch_ok (given v) (c_SendBatch conn).
Proof.
  intros d qs d' r Hs. split.
  { pose proof (SendBatch_le _ _ Hlaws d qs) as Hle. rewrite Hs in Hle. by apply db_le_given. }
  intros br i q tbl id -> Hq Hrow.
  destruct (SendBatch_law _ _ Hlaws _ _ _ _ _ _ _ _ Hs Hq Hrow) as [Hid Hlaw].
  split; [done|]. unfold given. destruct (rp_commit (br i)); auto.
Qed.

(** With COMMITs that succeed the history may be taken to be empty. *)
Lemma laws_nothing_lost : commits conn → ConnLaws conn (nothing_lost v).
Proof.
  intros Hcom. assert (∀ d d', db_le v d d' → db_le (nothing_lost v) d d') as Hle
    by (intros d d' (? & ? & ? & _); split_and!; [done..|by intros k id]).
  destruct Hlaws as [Hbatch Hbatch_le Hrows Hbatch_np Hins Hhas Hins_np Hdelay Hdec Hfin Htab Htab_ok Htab_np].
  split; try done; try (by intros; apply Hle; auto).
  intros d qs d' br i q tbl id Hs Hq Hrow. destruct (Hbatch _ _ _ _ _ _ _ _ Hs Hq Hrow) as [Hid Hlaw].
  by rewrite (Hcom _ _ _ _ i Hs) in Hlaw |- *.
Qed.

Lemma setSeriesIds_db_le d cache (sis : list (samplesInfo F)) : db_le v d (setSeriesIds (c_SendBatch conn) d cache sis).1.1.1.
Proof.
  unfold setSeriesIds. destruct (fillKnowSeriesIds cache sis) as [sis1 n].
  case_if; [done|]. destruct (series_batch sis1) as [qs bs].
  pose proof (SendBatch_le _ _ Hlaws d qs) as Hle.
  destruct (c_SendBatch conn d qs) as [d1 [br|e|m]]; simpl in *; [|done..].
  case_if; [done|]. by destruct (read_replies br 0 bs cache sis1 "") as [[? ?] ?].
Qed.

Lemma read_replies_no_panic br i bs cache (sis : list (samplesInfo F)) t m :
  (∀ i m, rp_row (br i) ≠ Panic m) → (read_replies br i bs cache sis t).2 ≠ Panic m.
Proof.
  intros Hbr. revert i cache sis t. induction bs as [|g bs IH]; intros i cache sis t; simpl; [done|].
  destruct (rp_begin (br i)); [done|]. specialize (Hbr i m).
  destruct (rp_row (br i)) as [[tbl id]|e|p] eqn:E; [|done|simpl; congruence].
  destruct (rp_commit (br i)); [done|]. apply IH.
Qed.

Lemma setSeriesIds_no_panic d cache (sis : list (samplesInfo F)) m :
  (setSeriesIds (c_SendBatch conn) d cache sis).2 ≠ Panic m.
Proof.
  unfold setSeriesIds. destruct (fillKnowSeriesIds cache sis) as [sis1 n].
  case_if; [done|]. destruct (series_batch sis1) as [qs bs].
  pose proof (SendBatch_no_panic _ _ Hlaws d qs m) as Hnp.
  destruct (c_SendBatch conn d qs) as [d1 [br|e|p]] eqn:Hs; simpl in *; [|done|congruence].
  case_if; [done|].
  pose proof (read_replies_no_panic br 0 bs cache sis1 "" m) as Hr.
  destruct (read_replies br 0 bs cache sis1 "") as [[? ?] ?]. simpl in *. apply Hr.
  intros i p. by eapply (SendBatch_rows _ _ Hlaws).
Qed.

(** [setSeriesIds] on a connection. *)
Lemma setSeriesIds_laws d cache (sis : list (samplesInfo F)) d' cache' sis' r :
  cache_ok (given v) d cache → Forall info_good sis → Forall (id_sound (given v) d) sis →
  setSeriesIds (c_SendBatch conn) d cache sis = (d', cache', sis', r) →
  db_le v d d' ∧ Forall2 same_series sis sis' ∧ cache_ok (given v) d' cache' ∧
  Forall (id_sound (given v) d') sis' ∧ (∀ t, r = Ok t → Forall (id_ok (given v) d') sis') ∧
  (∀ m, r ≠ Panic m).
Proof.
  intros Hc Hg Hs Hset.
  pose proof (setSeriesIds_db_le d cache sis) as Hle.
  pose proof (setSeriesIds_no_panic d cache sis) as Hnp. rewrite Hset in Hle, Hnp.
  apply (setSeriesIds_ok (given v)) in Hset as (Hsame & _ & ? & ? & ?); try done.
  - apply SendBatch_given.
  - eapply Forall_impl; [exact Hg|]. by intros si [_ ?].
Qed.

Lemma same_series_good (sis sis' : list (samplesInfo F)) :
  Forall2 same_series sis sis' → Forall info_good sis → Forall info_good sis'.
Proof.
  induction 1 as [|si si' sis sis' [Hl Hs] _ IH]; [done|]. rewrite !Forall_cons.
  unfold info_good. rewrite Hl, Hs. naive_solver.
Qed.

Lemma pend_good_set (p : pendingBuffer F) sis :
  pend_good p → Forall2 same_series (infos p) sis →
  pend_good (MkPend (needsResponse p) (set_infos sis (batch p))).
Proof.
  intros (Hit & Hg & Hn) Hs. unfold pend_good, infos in *. simpl. split_and!.
  - rewrite Hit. done.
  - by eapply same_series_good.
  - rewrite Hn, <-!length_zero_iff_nil. by rewrite (Forall2_length _ _ _ Hs).
Qed.

Lemma new_pending_good : pend_good (F:=F) new_pending.
Proof. split_and!; [done|constructor|done]. Qed.

Lemma handler_good_mono d d' m h : db_le v d d' → handler_good v d m h → handler_good v d' m h.
Proof.
  intros Hle (Hp & Hs & Hc & Ht). pose proof (db_le_given _ _ Hle) as Hids.
  destruct Hle as (_ & Htab & _). split_and!; [done| | |].
  - eapply Forall_impl; [exact Hs|]. intros; by eapply id_sound_mono.
  - by eapply cache_ok_mono.
  - by eapply lookup_weaken.
Qed.

(** What a flush does to the held tasks and entries. *)
Lemma flushPending_outcome s h m :
  handler_good v (sh_db s) m h → needsResponse (pending h) ≠ [] →
  can_answer (sh_calls s) (needsResponse (pending h)) →
  ∃ s' h', flushPending conn s h = Ok (s', h') ∧
    outcome v m (needsResponse (pending h)) (infos (pending h)) s s' h' ∧
    pending h' = new_pending ∧ db_le v (sh_db s) (sh_db s') ∧ handler_good v (sh_db s') m h'.
Proof.
  intros (Hp & Hs & Hc & Ht) Hne Hcan. unfold flushPending. fold (infos (pending h)).
  destruct (setSeriesIds _ _ _ _) as [[[d' cache'] sis'] r] eqn:Hset.
  apply setSeriesIds_laws in Hset as (Hle & Hsame & Hc' & Hs' & Hok & Hnp); [|done|apply Hp|done].
  pose proof (pend_good_set _ _ Hp Hsame) as Hp'. pose proof Hle as (_ & Htab & _).
  assert (handler_good (F:=F) v d' m (MkHandler new_pending cache' (metricTableName h))) as Hh'.
  { split_and!; simpl; [apply new_pending_good|constructor|done|by eapply lookup_weaken]. }
  destruct r as [t|e|p]; [| |by destruct (Hnp p)].
  - eexists _, _. split; [reflexivity|]. split_and!; [|done..].
    eapply Copied; simpl; try done. split_and!; [done|done|]. simpl. by eapply Hok.
  - destruct (answer_all_ok (Some e) (needsResponse (pending h)) (sh_calls s) Hcan) as (cs' & Hans & Hcs').
    unfold reportResults. simpl. rewrite Hans. simpl. eexists _, _. split; [reflexivity|].
    split_and!; [|done..]. by eapply Failed.
Qed.

(** The buffer after [addReq]. *)
Lemma addReq_good d m h req data cache :
  handler_good v d m h → (r_data req ≠ [] ∧ Forall info_good (r_data req)) →
  Forall2 same_series (r_data req) data → Forall (id_sound (given v) d) data →
  cache = seriesCache h →
  handler_good v d m (MkHandler (addReq (pending h) (MkReq (r_metric req) data (r_task req))).1
                        cache (metricTableName h)).
Proof.
  intros ((Hit & Hg & Hn) & Hs & Hc & Ht) [Hne Hgd] Hsame Hsd ->.
  pose proof (Forall2_length _ _ _ Hsame) as Hlen.
  split_and!; [split_and!| |done|done]; unfold infos in *; simpl.
  - by rewrite Hit.
  - apply Forall_app. split; [done|]. by eapply same_series_good.
  - split; [intros Hnil%(f_equal length); rewrite length_app in Hnil; simpl in Hnil; lia|].
    intros Hnil%(f_equal length). rewrite length_app in Hnil. destruct (r_data req); [done|].
    simpl in *. lia.
  - by apply Forall_app.
Qed.

(** A request as [insertMetricData] sends it to the routine of metric [m]. *)
Definition req_good (m : string) (req : insertDataRequest F) : Prop :=
  r_metric req = m ∧ r_data req ≠ [] ∧ Forall info_good (r_data req) ∧
  Forall (λ si, seriesID si = (-1)%Z) (r_data req).

Lemma can_answer_app_l cs ts us : can_answer cs (ts ++ us) → can_answer cs ts.
Proof.
  intros [Hex Hcan]. apply Forall_app in Hex as [Hex _]. split; [done|]. intros c r Hr.
  destruct (Hcan c r Hr) as [H1 H2]. rewrite occ_app in H1, H2. split; [lia|]. intros. apply H2. lia.
Qed.

Lemma handleReq_outcome s h m req :
  handler_good v (sh_db s) m h → req_good m req →
  can_answer (sh_calls s) (needsResponse (pending h) ++ [r_task req]) →
  ∃ s' h' b, handleReq conn s h req = Ok (s', h', b) ∧
    outcome v m (needsResponse (pending h) ++ [r_task req]) (infos (pending h) ++ r_data req) s s' h' ∧
    db_le v (sh_db s) (sh_db s') ∧ handler_good v (sh_db s') m h'.
Proof.
  intros Hh (_ & Hne & Hg & Hneg) Hcan. unfold handleReq.
  pose proof (fill_same (seriesCache h) (r_data req)) as Hsame.
  assert (Forall (id_sound (given v) (sh_db s)) (fill1 (seriesCache h) <$> r_data req)) as Hsd.
  { apply fill_sound; [apply Hh| |].
    - eapply Forall_impl; [exact Hg|]. by intros si [_ ?].
    - eapply Forall_impl; [exact Hneg|]. by left. }
  rewrite <-fill_fst in Hsame, Hsd.
  destruct (fillKnowSeriesIds (seriesCache h) (r_data req)) as [data n]. simpl in Hsame, Hsd.
  pose proof (addReq_good _ _ _ _ _ _ Hh (conj Hne Hg) Hsame Hsd eq_refl) as Hh1.
  destruct (addReq (pending h) _) as [p1 needsFlush] eqn:Ha. simpl in Hh1.
  assert (needsResponse p1 = needsResponse (pending h) ++ [r_task req] ∧
          infos p1 = infos (pending h) ++ data) as [Hn1 Hi1] by (injection Ha as <- _; done).
  assert (Forall2 same_series (infos (pending h) ++ r_data req) (infos p1)) as Hs1.
  { rewrite Hi1. apply Forall2_app; [apply same_series_refl|done]. }
  destruct needsFlush.
  - destruct (flushPending_outcome s _ m Hh1) as (s' & h' & -> & Hout & _ & Hle & Hh'); simpl.
    + rewrite Hn1. by destruct (needsResponse (pending h)).
    + by rewrite Hn1.
    + eexists _, _, _. split; [reflexivity|]. split_and!; [|done..]. simpl in Hout. rewrite Hn1 in Hout.
      inversion Hout; subst; [eapply Kept|eapply Copied|eapply Failed]; try done;
        (eapply Forall2_trans; [|exact Hs1|done]; intros; by eapply same_series_trans).
  - eexists _, _, _. split; [reflexivity|]. split_and!; [|done..]. by apply Kept.
Qed.

Lemma flush_outcome s h m :
  handler_good v (sh_db s) m h → can_answer (sh_calls s) (needsResponse (pending h)) →
  ∃ s' h', flush conn s h = Ok (s', h') ∧
    outcome v m (needsResponse (pending h)) (infos (pending h)) s s' h' ∧
    needsResponse (pending h') = [] ∧ db_le v (sh_db s) (sh_db s') ∧ handler_good v (sh_db s') m h'.
Proof.
  intros Hh Hcan. unfold flush, hasPendingReqs. fold (infos (pending h)).
  pose proof Hh as ((_ & _ & Hn) & _). case_bool_decide as Hlen.
  - destruct (flushPending_outcome s h m Hh) as (s' & h' & -> & ? & Hp & ? & ?); [|done|].
    { rewrite Hn. intros Hnil. rewrite Hnil in Hlen. simpl in Hlen. lia. }
    eexists _, _. split; [reflexivity|]. rewrite Hp. done.
  - eexists _, _. split; [reflexivity|]. split_and!; [by apply Kept; [done|apply same_series_refl]| |done|done].
    apply Hn. destruct (infos (pending h)); [done|simpl in Hlen; lia].
Qed.

(** The second flush of a turn finds nothing, or all that the receive kept. *)
Lemma outcome_flush s h m ts sis s1 h1 :
  outcome v m ts sis s s1 h1 → can_answer (sh_calls s) ts → handler_good v (sh_db s1) m h1 →
  ∃ s' h', flush conn s1 h1 = Ok (s', h') ∧ outcome v m ts sis s s' h' ∧
    needsResponse (pending h') = [] ∧ db_le v (sh_db s1) (sh_db s') ∧ handler_good v (sh_db s') m h'.
Proof.
  intros Hout Hcan Hh1. destruct Hout as [h' <- Hs|d' h' cr Hp|d' cs' h' e Hp].
  - destruct (flush_outcome s h' m Hh1 Hcan) as (s2 & h2 & -> & Hout & ? & ? & ?).
    eexists _, _. split; [reflexivity|]. split_and!; [|done..].
    inversion Hout; subst; [eapply Kept|eapply Copied|eapply Failed]; try done;
      (eapply Forall2_trans; [|exact Hs|done]; intros; by eapply same_series_trans).
  - unfold flush, hasPendingReqs. rewrite Hp. simpl. eexists _, _. split; [reflexivity|].
    rewrite Hp. split_and!; [|done..]. by eapply Copied.
  - unfold flush, hasPendingReqs. rewrite Hp. simpl. eexists _, _. split; [reflexivity|].
    rewrite Hp. split_and!; [|done..]. by eapply Failed.
Qed.

Lemma routine_turn_spec s h hot q m :
  handler_good v (sh_db s) m h → Forall (req_good m) q →
  can_answer (sh_calls s) (needsResponse (pending h) ++ (r_task <$> q)) →
  (routine_turn conn s h hot (MkChan q false) = None ∧ hot = false ∧
    needsResponse (pending h) = [] ∧ q = []) ∨
  ∃ s' q' h' hot', routine_turn conn s h hot (MkChan q false) = Some (Ok (s', MkChan q' false, Some (h', hot'))) ∧
    db_le v (sh_db s) (sh_db s') ∧ handler_good v (sh_db s') m h' ∧
    ((q = [] ∧ q' = [] ∧ hot' = false ∧ (hot = true ∨ needsResponse (pending h) ≠ []) ∧
        needsResponse (pending h') = [] ∧
        outcome v m (needsResponse (pending h)) (infos (pending h)) s s' h') ∨
     ∃ req, q = req :: q' ∧
        outcome v m (needsResponse (pending h) ++ [r_task req]) (infos (pending h) ++ r_data req) s s' h').
Proof.
  intros Hh Hq Hcan. pose proof Hh as ((_ & _ & Hn) & _). unfold routine_turn.
  assert (hasPendingReqs h = negb (bool_decide (needsResponse (pending h) = []))) as ->.
  { unfold hasPendingReqs. fold (infos (pending h)). rewrite (bool_decide_ext _ _ Hn).
    destruct (infos (pending h)); [done|]. by rewrite bool_decide_true by (simpl; lia). }
  destruct q as [|req q].
  - rewrite app_nil_r in Hcan. destruct (negb hot && _) eqn:Hb.
    + left. apply andb_prop in Hb as [Hb1 Hb2]. rewrite !negb_true_iff in Hb1.
      rewrite negb_involutive in Hb2. apply bool_decide_eq_true in Hb2. done.
    + right. unfold nonblockingHandleReq. simpl.
      destruct (flush_outcome s h m Hh Hcan) as (s' & h' & -> & Hout & ? & ? & ?). simpl.
      eexists _, _, _, _. split; [reflexivity|]. split_and!; [done..|]. left.
      split_and!; try done. rewrite negb_involutive in Hb. apply andb_false_iff in Hb as [Hb|Hb].
      * left. by destruct hot.
      * right. by apply bool_decide_eq_false in Hb.
  - right. apply Forall_cons in Hq as [Hreq Hq].
    rewrite fmap_cons, (cons_middle (r_task req)), (assoc_L (++)) in Hcan. apply can_answer_app_l in Hcan.
    destruct (handleReq_outcome s h m req Hh Hreq Hcan) as (s1 & h1 & b & Hhr & Hout & Hle & Hh1).
    unfold blockingHandleReq, nonblockingHandleReq. simpl. rewrite Hhr. simpl. case_if.
    + eexists _, _, _, _. split; [reflexivity|]. split_and!; [done..|]. right. by exists req.
    + case_if.
      * eexists _, _, _, _. split; [reflexivity|]. split_and!; [done..|]. right. by exists req.
      * destruct (outcome_flush s h m _ _ _ _ Hout Hcan Hh1) as (s2 & h2 & -> & ? & ? & ? & ?). simpl.
        eexists _, _, _, _. split; [reflexivity|]. split_and!; [by etrans|done|]. right. by exists req.
Qed.

(** *** The copiers *)

Lemma elem_of_all_rows (sis : list (samplesInfo F)) si x :
  si ∈ sis → x ∈ samples si → (s_Timestamp x, s_Value x, seriesID si) ∈ all_rows sis.
Proof.
  intros Hsi Hx. unfold all_rows. apply list_elem_of_In, in_concat. exists (rows_of si).
  split; apply list_elem_of_In; [by apply list_elem_of_fmap_2|].
  by apply (list_elem_of_fmap_2 (λ y : Sample F, (s_Timestamp y, s_Value y, seriesID si))).
Qed.

(** Every sample of the entries has a row in [table]. *)
Definition stored (d : D) (table : string) (sis : list (samplesInfo F)) : Prop :=
  ∀ si x, si ∈ sis → x ∈ samples si → db_has v d table (s_Timestamp x) (seriesID si).

Lemma doInsert_spec d (cr : copyRequest F) :
  batch (cr_data cr) = ResetPosition (batch (cr_data cr)) → Forall info_good (infos (cr_data cr)) →
  ∃ d' cr' r, doInsert conn d cr = (d', cr', r) ∧ db_le v d d' ∧
    needsResponse (cr_data cr') = needsResponse (cr_data cr) ∧
    infos (cr_data cr') = infos (cr_data cr) ∧ cr_table cr' = cr_table cr ∧
    (∀ m, r ≠ Panic m) ∧ (r = Ok tt → stored d' (cr_table cr) (infos (cr_data cr))).
Proof.
  intros Hit Hg. unfold doInsert. fold (infos (cr_data cr)).
  destruct (drain_all (infos (cr_data cr))) as (it & Hd & Hinf & _).
  { eapply Forall_impl; [exact Hg|]. by intros si [? _]. }
  rewrite Hit. change (ResetPosition (batch (cr_data cr))) with (pos (infos (cr_data cr)) 0 0 max_int64).
  rewrite Hd, length_all_rows, Nat.eqb_refl. simpl.
  pose proof (Insert_le _ _ Hlaws d (cr_table cr) (all_rows (infos (cr_data cr)))) as Hle.
  pose proof (Insert_has _ _ Hlaws d (cr_table cr) (all_rows (infos (cr_data cr)))) as Hhas.
  pose proof (Insert_no_panic _ _ Hlaws d (cr_table cr) (all_rows (infos (cr_data cr)))) as Hnp.
  destruct (c_Insert conn d _ _) as [d' [n|e|m]]; simpl in *; [| |by destruct (Hnp m)];
    (eexists _, _, _; split; [reflexivity|]; split_and!; simpl; try done).
  intros _ si x Hsi Hx. by apply (Hhas n eq_refl _ (elem_of_all_rows _ _ _ Hsi Hx)).
Qed.

Lemma decompressChunks_le d p table : db_le v d (decompressChunks conn d p table).1.
Proof.
  unfold decompressChunks.
  pose proof (Delay_le _ _ Hlaws d table (c_now conn d + delayBy (c_now conn d) (minSeen (batch p)))) as H1.
  destruct (c_DelayCompression _ _ _ _) as [d1 [e|]]; simpl in *; [done|].
  etrans; [exact H1|apply (Decompress_le _ _ Hlaws)].
Qed.

Lemma tryRecovery_spec d (cr : copyRequest F) e d' r :
  tryRecovery conn d cr e = (d', r) → db_le v d d' ∧
  ((r = Err e) ∨ ∃ cr', r = Ok cr' ∧ batch (cr_data cr') = ResetPosition (batch (cr_data cr')) ∧
    needsResponse (cr_data cr') = needsResponse (cr_data cr) ∧
    infos (cr_data cr') = infos (cr_data cr) ∧ cr_table cr' = cr_table cr).
Proof.
  unfold tryRecovery. destruct e; try (intros [= <- <-]; split; [done|by left]).
  case_if; [|intros [= <- <-]; split; [done|by left]].
  pose proof (decompressChunks_le d (cr_data cr) (cr_table cr)) as Hle.
  destruct (decompressChunks _ _ _ _) as [d1 [e|]]; simpl in Hle; intros [= <- <-].
  - split; [done|by left].
  - split; [done|]. right. eexists. split; [reflexivity|]. done.
Qed.

Lemma copy_result_spec d (cr : copyRequest F) :
  batch (cr_data cr) = ResetPosition (batch (cr_data cr)) → Forall info_good (infos (cr_data cr)) →
  ∃ d' cr' r, copy_result conn d cr = (d', cr', r) ∧ db_le v d d' ∧
    needsResponse (cr_data cr') = needsResponse (cr_data cr) ∧
    (∀ m, r ≠ Panic m) ∧ (r = Ok tt → stored d' (cr_table cr) (infos (cr_data cr))).
Proof.
  intros Hit Hg. unfold copy_result.
  destruct (doInsert_spec d cr Hit Hg) as (d1 & cr1 & r1 & -> & Hle1 & Hn1 & Hi1 & Ht1 & Hnp1 & Hs1).
  destruct r1 as [[]|e|m]; [by eexists _, _, _| |by destruct (Hnp1 m)].
  unfold insertErrorFallback. destruct (tryRecovery conn d1 cr1 e) as [d2 r2] eqn:Htr.
  apply tryRecovery_spec in Htr as [Hle2 [->|(cr2 & -> & Hit2 & Hn2 & Hi2 & Ht2)]].
  { eexists _, _, _. split; [reflexivity|]. split_and!; try done. by etrans. }
  destruct (doInsert_spec d2 cr2 Hit2) as (d3 & cr3 & r3 & -> & Hle3 & Hn3 & Hi3 & Ht3 & Hnp3 & Hs3).
  { by rewrite Hi2, Hi1. }
  eexists _, _, _. split; [reflexivity|]. split_and!; [by transitivity d1; [|transitivity d2]|congruence|done|].
  intros ->. rewrite <-Ht1, <-Ht2, <-Hi1, <-Hi2. auto.
Qed.

Lemma runInserter_turn_spec d cs (cr : copyRequest F) :
  copy_good v d cr → can_answer cs (needsResponse (cr_data cr)) →
  ∃ d' cs' err, runInserter_turn conn d cs cr = Ok (d', cs', new_pending) ∧ db_le v d d' ∧
    (∀ c, cs' !! c = answered err (occ c (needsResponse (cr_data cr))) <$> cs !! c) ∧
    (err = None → stored d' (cr_table cr) (infos (cr_data cr))).
Proof.
  intros ((Hit & Hg & _) & _) Hcan. unfold runInserter_turn.
  destruct (copy_result_spec d cr Hit Hg) as (d' & cr' & r & -> & Hle & Hn & Hnp & Hs).
  unfold reportResults. rewrite Hn. destruct r as [[]|e|m]; [| |by destruct (Hnp m)].
  - destruct (answer_all_ok None _ _ Hcan) as (cs' & -> & Hcs'). exists d', cs', None. split_and!; [done..|]. intros _. by apply Hs.
  - destruct (answer_all_ok (Some e) _ _ Hcan) as (cs' & -> & Hcs'). by exists d', cs', (Some e).
Qed.

(** *** Starting a routine *)

Context {C : Type} `{MC.MetricCacheLaws C}.

Lemma getMetricTableName_laws d m d' r :
  MC.getMetricTableName (c_MetricTable conn) d m = (d', r) →
  db_le v d d' ∧ (∀ p, r ≠ Panic p) ∧
  (∀ t b, r = Ok (t, b) → db_tables v d' !! m = Some t).
Proof.
  unfold MC.getMetricTableName. intros Hget.
  pose proof (MetricTable_le _ _ Hlaws d m) as Hle. pose proof (MetricTable_ok _ _ Hlaws d m) as Hok.
  pose proof (MetricTable_no_panic _ _ Hlaws d m) as Hnp.
  destruct (c_MetricTable conn d m) as [d1 [rows|e|p]]; simpl in *; injection Hget as <- <-;
    (split; [done|]); [|done|by destruct (proj1 (Hnp p))].
  destruct (MC.row_scans rows) as [|scan l] eqn:Hsc; [done|]. split.
  - intros p ->. destruct (Hnp p) as [_ Hp]. destruct (Hp rows eq_refl). rewrite Hsc. left.
  - intros t b ->. apply (Hok rows t b eq_refl). rewrite Hsc. left.
Qed.

Lemma coherent_mono d d' (names : C) :
  db_le v d d' → MC.coherent (db_tables v) d names → MC.coherent (db_tables v) d' names.
Proof. intros (_ & Ht & _) [Hi Ha]. split; [done|]. by etrans. Qed.

Lemma new_handler_good d m t :
  db_tables v d !! m = Some t → handler_good (F:=F) v d m (MkHandler new_pending ∅ t).
Proof.
  intros Ht. split_and!; simpl; [apply new_pending_good|constructor| |done].
  intros s id Hs. by rewrite lookup_empty in Hs.
Qed.

Lemma routine_start_spec d cs (names : C) signal m c r :
  MC.coherent (db_tables v) d names → cs !! c = Some r → chan_closed r = false →
  ∃ d' cs' names' signal' o, routine_start conn d cs names signal m (Some c) =
      Ok (d', cs', names', signal', o) ∧
    db_le v d d' ∧ MC.coherent (db_tables v) d' names' ∧
    match o with
    | inl h => cs' = cs ∧ pending h = new_pending ∧ handler_good v d' m h
    | inr err => cs' = <[c := MkReplyTo (wg r) (Some (default err (errChan r))) false]> cs
    end.
Proof.
  intros Hcoh Hc Hcl. unfold routine_start. simpl. rewrite Hc. unfold try_send. rewrite Hcl. simpl.
  pose proof Hcoh as [Hinv Hsub].
  destruct (MC.mc_Get_spec names m Hinv) as (Hinv1 & Habs1 & Hg).
  destruct (MC.mc_Get names m) as [names1 [t|e|p]]; simpl in *; [| |done].
  { eexists _, _, _, _, _. split; [reflexivity|]. unfold MC.coherent. rewrite Habs1.
    split_and!; try done. apply new_handler_good. by eapply lookup_weaken. }
  assert (MC.coherent (db_tables v) d names1) as Hcoh1 by (split; [done|by rewrite Habs1]).
  case_decide; [|by eexists _, _, _, _, _].
  destruct (MC.getMetricTableName _ _ _) as [d1 r1] eqn:Hget.
  apply getMetricTableName_laws in Hget as (Hle & Hnp & Ht).
  destruct r1 as [[t b]|e1|p]; [| |by destruct (Hnp p)].
  - specialize (Ht t b eq_refl). destruct (MC.mc_Set_spec names1 m t Hinv1) as [Hinv2 Habs2].
    destruct (MC.mc_Set names1 m t) as [names2 o]; simpl in *.
    eexists _, _, _, _, _. split; [reflexivity|]. split; [done|].
    split; [|split_and!; [done..|by apply new_handler_good]].
    split; [done|]. apply map_subseteq_spec. intros k x Hk. apply Habs2 in Hk as [Hk|[-> ->]]; [|done].
    apply (coherent_mono _ _ _ Hle) in Hcoh1 as [_ Hsub1]. by eapply lookup_weaken.
  - eexists _, _, _, _, _. split; [reflexivity|]. split_and!; try done. by eapply coherent_mono.
Qed.

End lemmas.

(** ** A closed input channel

    After [Close], [nonblockingHandleReq] receives the zero request for ever: a
    routine that still has entries pending never leaves [hotReceive], never
    flushes them, and queues one zero task per turn. *)

Section closed_input.
Context {F D : Type} `{GoSort} (conn : Conn F D).

Fixpoint turns (n : nat) (s : shared F D) (h : insertHandler F) (hot : bool) (input : chan F)
    : option (res (shared F D * chan F * option (insertHandler F * bool))) :=
  match n with
  | 0 => Some (Ok (s, input, Some (h, hot)))
  | S n =>
      match routine_turn conn s h hot input with
      | Some (Ok (s, input, Some (h, hot))) => turns n s h hot input
      | r => r
      end
  end.

Lemma closed_input_spins n s h :
  0 < length (infos (pending h)) < flushSize →
  ∃ h', turns n s h true (MkChan [] true) = Some (Ok (s, MkChan [] true, Some (h', true))) ∧
    needsResponse (pending h') = needsResponse (pending h) ++ replicate n None ∧
    infos (pending h') = infos (pending h).
Proof.
  revert h. induction n as [|n IH]; intros h Hlen.
  { exists h. by rewrite app_nil_r. }
  cbn [turns]. unfold routine_turn, nonblockingHandleReq, handleReq. simpl.
  fold (infos (pending h)). rewrite app_nil_r, bool_decide_false by lia. simpl.
  fold (infos (pending h)). rewrite bool_decide_false by lia. simpl.
  set (h1 := MkHandler _ _ _).
  destruct (IH h1) as (h' & Ht & Hn & Hi); [done|]. exists h'. rewrite Ht, Hn, Hi. simpl.
  by rewrite <-(assoc_L (++)).
Qed.

End closed_input.

End Ins.
