(* ===== verification/Pipeline.v ===== *)
(** * The insert pipeline

    The goroutines of [src/pkg/pgmodel/sql_ingest.go] and the channels between
    them: any number of concurrent calls of [InsertData], one insert routine per
    metric, and the copiers.  A state is a [world]; [exec] runs the next atomic
    piece of one goroutine, chosen by the scheduler's [action], and gives [None]
    when that goroutine is blocked or the action does not apply.  Channels have
    the capacities of the code. *)
From S2P Require Import Prelude Labels ClockCache MetricCache SampleIter SeriesIds Inserter.

Module Pipe.
Import Smp Sid Ins.

Section pipeline.
Context {F D C : Type} `{GoSort} `{MC.MetricCacheOps C}.
Context (conn : Conn F D) (asyncAcks : bool) (numCopiers : nat).

(** The local variables of a call of [InsertData]: its argument in the order the
    map is walked, the part of it not yet sent, what the wait at its end read from
    the error channel, and its return value. *)
Record frame := MkFrame {
  f_rows : list (string * list (samplesInfo F));
  f_todo : list (string * list (samplesInfo F));
  f_waited : option (option goerror);
  f_result : option (nat * option goerror);
}.

Inductive routine :=
  | RStart (errTo : task)
  | RLoop (h : insertHandler F) (hot : bool)
  | RFail (err : goerror)
  | RDone.

Record inserter := MkInserter { i_chan : chan F; i_routine : routine }.

Record world := MkWorld {
  w_db : D;
  w_calls : calls;
  w_frames : list frame;
  w_inserters : gmap string inserter;
  w_copy : list (copyRequest F);
  w_copying : list (copyRequest F);
  w_names : C;
  w_signal : bool;
  w_inserted : Z;
}.

Definition init (d : D) (names : C) : world := MkWorld d ∅ [] ∅ [] [] names false 0.

(** [runtime.GOMAXPROCS(-1)], falling back to [NumCPU] and to one. *)
Definition max_procs (gomaxprocs numCPU : Z) : nat :=
  let maxProcs := if (gomaxprocs <=? 0)%Z then numCPU else gomaxprocs in
  Z.to_nat (if (maxProcs <=? 0)%Z then 1 else maxProcs).

Definition ConnectionsPerProc : nat := 5.

(** The number of copiers and the world the inserter starts in; an incomplete
    metric creation is recovered first. *)
Definition newPgxInserter (gomaxprocs numCPU : Z) (d : D) (names : C) : D * res (nat * world) :=
  let maxProcs := max_procs gomaxprocs numCPU in
  match CompleteMetricCreation conn d with
  | (d, Some err) => (d, Err err)
  | (d, None) => (d, Ok (maxProcs * ConnectionsPerProc - maxProcs, init d names))
  end.

(** ** Goroutines that call [InsertData] *)

Definition numRows (f : frame) : nat := sum_list_nat ((λ p, num_rows p.2) <$> f_rows f).

(** The start of [InsertData]; the argument is a map, so its keys are distinct. *)
Definition InsertData (rows : list (string * list (samplesInfo F))) (w : world) : option (res world) :=
  if decide (NoDup rows.*1) then
    Some (Ok (MkWorld (w_db w)
      (<[length (w_frames w) := MkReplyTo (Z.of_nat (length rows)) None false]> (w_calls w))
      (w_frames w ++ [MkFrame rows rows None None]) (w_inserters w) (w_copy w) (w_copying w)
      (w_names w) (w_signal w) (w_inserted w)))
  else None.

Definition getMetricInserter (ins : gmap string inserter) (metric : string) (errTo : task)
    : gmap string inserter :=
  match ins !! metric with
  | Some _ => ins
  | None => <[metric := MkInserter (MkChan [] false) (RStart errTo)]> ins
  end.

Definition chan_cap : nat := Z.to_nat 1000.

(** One turn of the loop of [InsertData]: [insertMetricData] for the next metric. *)
Definition insertMetricData (c : nat) (w : world) : option (res world) :=
  match w_frames w !! c with
  | Some (MkFrame rows ((metric, data) :: todo) waited result) =>
      let ins := getMetricInserter (w_inserters w) metric (Some c) in
      match ins !! metric with
      | Some (MkInserter (MkChan q cl) r) =>
          if cl : bool then Some (Panic "send on closed channel")
          else if bool_decide (length q < chan_cap) then
            Some (Ok (MkWorld (w_db w) (w_calls w)
              (<[c := MkFrame rows todo waited result]> (w_frames w))
              (<[metric := MkInserter (MkChan (q ++ [MkReq metric data (Some c)]) cl) r]> ins)
              (w_copy w) (w_copying w) (w_names w) (w_signal w) (w_inserted w)))
          else None
      | None => None
      end
  | _ => None
  end.

(** [workFinished.Wait()], the read of the error channel and its close; in the
    synchronous case this is also the return. *)
Definition wait_finished (c : nat) (w : world) : option (res world) :=
  match w_frames w !! c, w_calls w !! c with
  | Some (MkFrame rows [] None result), Some (MkReplyTo 0 err _) =>
      let n := numRows (MkFrame rows [] None result) in
      Some (Ok (MkWorld (w_db w) (<[c := MkReplyTo 0 None true]> (w_calls w))
        (<[c := MkFrame rows [] (Some err)
                  (if asyncAcks then result else Some (n, err))]> (w_frames w))
        (w_inserters w) (w_copy w) (w_copying w) (w_names w) (w_signal w)
        (if asyncAcks && bool_decide (err = None) then w_inserted w + Z.of_nat n else w_inserted w)))
  | _, _ => None
  end.

(** With [asyncAcks] the call returns while the wait goes on in a goroutine. *)
Definition return_async (c : nat) (w : world) : option (res world) :=
  match w_frames w !! c with
  | Some (MkFrame rows [] waited None) =>
      if asyncAcks then
        Some (Ok (MkWorld (w_db w) (w_calls w)
          (<[c := MkFrame rows [] waited (Some (numRows (MkFrame rows [] waited None), None))]> (w_frames w))
          (w_inserters w) (w_copy w) (w_copying w) (w_names w) (w_signal w) (w_inserted w)))
      else None
  | _ => None
  end.

(** ** The insert routine of a metric *)

Definition set_routine (m : string) (ch : chan F) (r : routine) (d : D) (cs : calls)
    (copy : list (copyRequest F)) (names : C) (signal : bool) (w : world) : world :=
  MkWorld d cs (w_frames w) (<[m := MkInserter ch r]> (w_inserters w)) copy (w_copying w)
    names signal (w_inserted w).

(** [runInserterRoutine] up to its loop, or to [runInserterRoutineFailure]. *)
Definition routine_begin (m : string) (w : world) : option (res world) :=
  match w_inserters w !! m with
  | Some (MkInserter ch (RStart errTo)) =>
      Some (let* (d, cs, names, signal, o) :=
              routine_start conn (w_db w) (w_calls w) (w_names w) (w_signal w) m errTo in
            Ok (set_routine m ch (match o with inl h => RLoop h false | inr err => RFail err end)
                  d cs (w_copy w) names signal w))
  | _ => None
  end.

(** One turn of the routine; a send to the copiers blocks when their channel is full. *)
Definition routine_step (m : string) (w : world) : option (res world) :=
  match w_inserters w !! m with
  | Some (MkInserter ch (RLoop h hot)) =>
      match routine_turn conn (MkShared (w_db w) (w_calls w) (w_copy w)) h hot ch with
      | None => None
      | Some (Panic p) => Some (Panic p)
      | Some (Err e) => Some (Err e)
      | Some (Ok (s, ch, o)) =>
          if bool_decide (length (sh_copiers s) ≤ numCopiers) then
            Some (Ok (set_routine m ch (match o with Some (h, hot) => RLoop h hot | None => RDone end)
              (sh_db s) (sh_calls s) (sh_copiers s) (w_names w) (w_signal w) w))
          else None
      end
  | Some (MkInserter ch (RFail err)) =>
      match ch with
      | MkChan (req :: q) cl =>
          Some (let* cs := routine_failure_turn err (w_calls w) req in
                Ok (set_routine m (MkChan q cl) (RFail err) (w_db w) cs (w_copy w)
                      (w_names w) (w_signal w) w))
      | MkChan [] cl =>
          if cl : bool then Some (Ok (set_routine m ch RDone (w_db w) (w_calls w) (w_copy w)
                                 (w_names w) (w_signal w) w))
          else None
      end
  | _ => None
  end.

(** ** The copiers *)

Definition copier_receive (w : world) : option (res world) :=
  match w_copy w with
  | cr :: copy =>
      if bool_decide (length (w_copying w) < numCopiers) then
        Some (Ok (MkWorld (w_db w) (w_calls w) (w_frames w) (w_inserters w) copy
          (w_copying w ++ [cr]) (w_names w) (w_signal w) (w_inserted w)))
      else None
  | [] => None
  end.

Definition copier_insert (i : nat) (w : world) : option (res world) :=
  match w_copying w !! i with
  | Some cr =>
      Some (let* (d, cs, _) := runInserter_turn conn (w_db w) (w_calls w) cr in
            Ok (MkWorld d cs (w_frames w) (w_inserters w) (w_copy w) (delete i (w_copying w))
                  (w_names w) (w_signal w) (w_inserted w)))
  | None => None
  end.

(** [runCompleteMetricCreationWorker] takes the signal; an error is only logged. *)
Definition complete_metric_creation (w : world) : option (res world) :=
  if w_signal w then
    Some (Ok (MkWorld (CompleteMetricCreation conn (w_db w)).1 (w_calls w) (w_frames w) (w_inserters w) (w_copy w) (w_copying w)
            (w_names w) false (w_inserted w)))
  else None.

(** ** The scheduler *)

Inductive action :=
  | ACall (rows : list (string * list (samplesInfo F)))
  | ASend (c : nat)
  | AWait (c : nat)
  | AReturn (c : nat)
  | ABegin (m : string)
  | ATurn (m : string)
  | AReceive
  | AInsert (i : nat)
  | ASignal.

Definition exec (a : action) (w : world) : option (res world) :=
  match a with
  | ACall rows => InsertData rows w
  | ASend c => insertMetricData c w
  | AWait c => wait_finished c w
  | AReturn c => return_async c w
  | ABegin m => routine_begin m w
  | ATurn m => routine_step m w
  | AReceive => copier_receive w
  | AInsert i => copier_insert i w
  | ASignal => complete_metric_creation w
  end.

(** The data [Ingest] hands over: series with samples, interned labels, no ids. *)
Definition data_good (p : string * list (samplesInfo F)) : Prop := req_good p.1 (MkReq p.1 p.2 None).

Definition good_action (a : action) : Prop :=
  match a with ACall rows => Forall data_good rows | _ => True end.

Inductive reachable (d : D) (names : C) : world → Prop :=
  | reach_init : reachable d names (init d names)
  | reach_step w a w' : reachable d names w → good_action a →
      exec a w = Some (Ok w') → reachable d names w'.

Fixpoint run (acts : list action) (w : world) : option (res world) :=
  match acts with
  | [] => Some (Ok w)
  | a :: acts =>
      match exec a w with
      | Some (Ok w) => run acts w
      | r => r
      end
  end.

End pipeline.

(** ** The invariant *)

Section invariant.
Context {F D C : Type} `{GoSort} `{MC.MetricCacheLaws C}.
Context (conn : Conn F D) (v : DbView D) (asyncAcks : bool) (numCopiers : nat).
Implicit Types (w : world (F:=F) (D:=D) (C:=C)).

Definition routine_tasks (r : routine (F:=F)) : list task :=
  match r with RLoop h _ => needsResponse (pending h) | _ => [] end.

Definition ins_occ (c : nat) (i : inserter (F:=F)) : nat :=
  occ c (r_task <$> queue (i_chan i)) + occ c (routine_tasks (i_routine i)).

Definition copy_occ (c : nat) (l : list (copyRequest F)) : nat :=
  sum_list_nat ((λ cr, occ c (needsResponse (cr_data cr))) <$> l).

Definition todo_len w (c : nat) : nat := from_option (λ f, length (f_todo f)) 0 (w_frames w !! c).

(** The requests of call [c] that nobody has answered yet. *)
Definition outstanding w (c : nat) : nat :=
  todo_len w c + map_sum (ins_occ c) (w_inserters w) +
  copy_occ c (w_copy w) + copy_occ c (w_copying w).

Definition valid_task w (t : task) : Prop := ∃ c, t = Some c ∧ c < length (w_frames w).

Definition ins_good w (m : string) (i : inserter) : Prop :=
  closed (i_chan i) = false ∧ Forall (req_good m) (queue (i_chan i)) ∧
  Forall (valid_task w) (r_task <$> queue (i_chan i)) ∧
  Forall (valid_task w) (routine_tasks (i_routine i)) ∧
  match i_routine i with
  | RStart t => ∃ req, req ∈ queue (i_chan i) ∧ r_task req = t
  | RLoop h _ => handler_good v (w_db w) m h
  | RFail _ => True
  | RDone => False
  end.

(** Every entry of [data] is among [sis], up to its id. *)
Definition covers (sis data : list (samplesInfo F)) : Prop :=
  ∀ si, si ∈ data → ∃ si', si' ∈ sis ∧ same_series si si'.

(** Every sample of [data] has a row in the table of metric [m], under an id given to
    its label set: the one it has in the database, or one that a transaction whose
    COMMIT failed had answered. *)
Definition durable (d : D) (m : string) (data : list (samplesInfo F)) : Prop :=
  ∃ table, db_tables v d !! m = Some table ∧
    ∀ si x, si ∈ data → x ∈ samples si →
      ∃ id, given v d (key_of (labels si)) id ∧ db_has v d table (s_Timestamp x) id.

(** Where the data of a call can be. *)
Inductive accounted w (c : nat) (m : string) (data : list (samplesInfo F)) : Prop :=
  | InTodo f : w_frames w !! c = Some f → (m, data) ∈ f_todo f → accounted w c m data
  | InQueue i : w_inserters w !! m = Some i → MkReq m data (Some c) ∈ queue (i_chan i) →
      accounted w c m data
  | InHandler i h hot : w_inserters w !! m = Some i → i_routine i = RLoop h hot →
      Some c ∈ needsResponse (pending h) → covers (infos (pending h)) data → accounted w c m data
  | InCopier cr : cr ∈ w_copy w ++ w_copying w → Some c ∈ needsResponse (cr_data cr) →
      covers (infos (cr_data cr)) data → db_tables v (w_db w) !! m = Some (cr_table cr) →
      accounted w c m data
  | Errored r : w_calls w !! c = Some r → is_Some (errChan r) → accounted w c m data
  | Stored : durable (w_db w) m data → accounted w c m data.

Definition frame_good w (c : nat) (f : frame) : Prop :=
  (Forall data_good (f_todo f) ∧ (is_Some (f_waited f) → f_todo f = [])) ∧
  (asyncAcks = false → f_result f = (λ err, (numRows f, err)) <$> f_waited f) ∧
  match f_waited f with
  | None => (∃ r, w_calls w !! c = Some r ∧ chan_closed r = false) ∧
            ∀ m data, (m, data) ∈ f_rows f → accounted w c m data
  | Some None => ∀ m data, (m, data) ∈ f_rows f → durable (w_db w) m data
  | Some (Some _) => True
  end.

Record inv w : Prop := {
  inv_dom : ∀ c, is_Some (w_calls w !! c) ↔ c < length (w_frames w);
  inv_wg : ∀ c r, w_calls w !! c = Some r →
    wg r = Z.of_nat (outstanding w c) ∧ (chan_closed r = true → outstanding w c = 0);
  inv_ins : ∀ m i, w_inserters w !! m = Some i → ins_good w m i;
  inv_copy : Forall (λ cr, copy_good v (w_db w) cr ∧ Forall (valid_task w) (needsResponse (cr_data cr)))
    (w_copy w ++ w_copying w);
  inv_names : MC.coherent (db_tables v) (w_db w) (w_names w);
  inv_frames : ∀ c f, w_frames w !! c = Some f → frame_good w c f;
}.

(** ** Basic lemmas *)

Lemma occ_pos c ts : Some c ∈ ts ↔ 0 < occ c ts.
Proof.
  induction ts as [|t ts IH]; simpl.
  - split; [by intros ?%elem_of_nil|lia].
  - rewrite elem_of_cons, IH. case_decide; [|naive_solver lia]. subst. split; [lia|by left].
Qed.

Lemma copy_occ_cons c cr l :
  copy_occ c (cr :: l) = occ c (needsResponse (cr_data cr)) + copy_occ c l.
Proof. reflexivity. Qed.

Lemma copy_occ_app c l k : copy_occ c (l ++ k) = copy_occ c l + copy_occ c k.
Proof. unfold copy_occ. by rewrite fmap_app, sum_list_nat_app. Qed.

Lemma copy_occ_delete c l i cr : l !! i = Some cr →
  copy_occ c l = occ c (needsResponse (cr_data cr)) + copy_occ c (delete i l).
Proof.
  intros Hi. unfold copy_occ. rewrite (delete_Permutation _ _ _ Hi) at 1. done.
Qed.

Lemma copy_occ_elem c l cr : cr ∈ l → occ c (needsResponse (cr_data cr)) ≤ copy_occ c l.
Proof. intros [i Hi]%list_elem_of_lookup. rewrite (copy_occ_delete _ _ _ _ Hi). lia. Qed.

Lemma ins_occ_elem c w m i : w_inserters w !! m = Some i →
  ins_occ c i ≤ map_sum (ins_occ c) (w_inserters w).
Proof. intros Hi. rewrite (map_sum_lookup _ _ _ _ Hi). lia. Qed.

Lemma durable_mono d d' m data : db_le v d d' → durable d m data → durable d' m data.
Proof.
  intros Hle (table & Htab & Hall). pose proof (db_le_given _ _ _ Hle) as Hids.
  destruct Hle as (_ & Ht & Hh & _). exists table. split; [by eapply lookup_weaken|].
  intros si x Hsi Hx. destruct (Hall si x Hsi Hx) as (id & Hid & Hrow). eauto.
Qed.

Lemma copy_good_mono d d' (cr : copyRequest F) : db_le v d d' → copy_good v d cr → copy_good v d' cr.
Proof.
  intros Hids%db_le_given (Hp & Hn & Hid). split_and!; [done..|].
  eapply Forall_impl; [exact Hid|]. intros si [? ?]. split; [done|by apply Hids].
Qed.

(** A call with nothing outstanding has had its data stored, or an error. *)
Lemma accounted_finished w c m data :
  accounted w c m data → outstanding w c = 0 →
  (∃ r, w_calls w !! c = Some r ∧ is_Some (errChan r)) ∨ durable (w_db w) m data.
Proof.
  unfold outstanding, todo_len. intros Hacc Hz. destruct Hacc as [f Hf Hin|i Hi Hq|i h hot Hi Hr Hc _|cr Hcr Hc _ _|r Hr He|]; eauto; exfalso.
  - rewrite Hf in Hz. simpl in Hz. destruct (f_todo f); [by apply elem_of_nil in Hin|simpl in Hz; lia].
  - pose proof (ins_occ_elem c w m i Hi) as Hle. unfold ins_occ at 1 in Hle.
    assert (0 < occ c (r_task <$> queue (i_chan i))); [|lia]. apply occ_pos.
    by apply (list_elem_of_fmap_2 r_task) in Hq.
  - pose proof (ins_occ_elem c w m i Hi) as Hle. unfold ins_occ at 1 in Hle. rewrite Hr in Hle. simpl in Hle.
    apply occ_pos in Hc. lia.
  - apply occ_pos in Hc. apply elem_of_app in Hcr as [Hcr|Hcr]; apply (copy_occ_elem c) in Hcr; lia.
Qed.

Lemma can_answer_inv w ts :
  inv w → Forall (valid_task w) ts → (∀ c, occ c ts ≤ outstanding w c) → can_answer (w_calls w) ts.
Proof.
  intros Hinv Hv Hle. split.
  - eapply Forall_impl; [exact Hv|]. intros t (c & -> & Hc). exists c. split; [done|]. by apply (inv_dom _ Hinv).
  - intros c r Hr. destruct (inv_wg _ Hinv _ _ Hr) as [-> Hcl]. specialize (Hle c).
    split; [lia|]. intros Hpos. destruct (chan_closed r); [|done]. specialize (Hcl eq_refl). lia.
Qed.

(** ** What a step keeps *)

(** Later callers: errors stay, channels stay open or closed. *)
Definition calls_le_at (cs cs' : calls) (c : nat) : Prop :=
  ∀ r, cs !! c = Some r → ∃ r', cs' !! c = Some r' ∧
    (is_Some (errChan r) → is_Some (errChan r')) ∧ chan_closed r' = chan_closed r.
Definition calls_le (cs cs' : calls) : Prop := ∀ c, calls_le_at cs cs' c.

Lemma calls_le_refl cs : calls_le cs cs.
Proof. intros c r Hr. eauto. Qed.

Lemma calls_le_answered (cs cs' : calls) err f :
  (∀ c, cs' !! c = answered err (f c) <$> cs !! c) → calls_le cs cs'.
Proof.
  intros Hcs c r Hr. rewrite Hcs, Hr. simpl. eexists. split; [done|]. simpl. split; [|done].
  intros He. case_decide; [done|]. destruct err; [|done]. eauto.
Qed.

Lemma accounted_keep w w' c m data :
  db_le v (w_db w) (w_db w') → calls_le_at (w_calls w) (w_calls w') c →
  (∀ f, w_frames w !! c = Some f → (m, data) ∈ f_todo f → accounted w' c m data) →
  (∀ i, w_inserters w !! m = Some i → MkReq m data (Some c) ∈ queue (i_chan i) → accounted w' c m data) →
  (∀ i h hot, w_inserters w !! m = Some i → i_routine i = RLoop h hot →
     Some c ∈ needsResponse (pending h) → covers (infos (pending h)) data → accounted w' c m data) →
  (∀ cr, cr ∈ w_copy w ++ w_copying w → Some c ∈ needsResponse (cr_data cr) →
     covers (infos (cr_data cr)) data → db_tables v (w_db w') !! m = Some (cr_table cr) →
     accounted w' c m data) →
  accounted w c m data → accounted w' c m data.
Proof.
  intros Hle Hcs Ha Hb Hc' Hd' Hacc.
  destruct Hacc as [f Hf Hin|i Hi Hq|i h hot Hi Hr Hc Hcov|cr Hcr Hc Hcov Ht|r Hr He|Hd]; eauto.
  - apply (Hd' cr); try done. destruct Hle as (_ & Htab & _). by eapply lookup_weaken.
  - destruct (Hcs _ Hr) as (r' & Hr' & He' & _). eapply Errored; eauto.
  - apply Stored. by eapply durable_mono.
Qed.

Lemma frame_good_keep w w' c f :
  db_le v (w_db w) (w_db w') → calls_le_at (w_calls w) (w_calls w') c →
  (∀ m data, accounted w c m data → accounted w' c m data) →
  frame_good w c f → frame_good w' c f.
Proof.
  intros Hle Hcs Hacc (Ht & Hres & Hw). split; [done|]. split; [done|].
  destruct (f_waited f) as [[e|]|]; [done| |].
  - intros m data Hin. eapply durable_mono; eauto.
  - destruct Hw as [(r & Hr & Hcl) Hw]. split; [|eauto].
    destruct (Hcs _ Hr) as (r' & Hr' & _ & Hcl'). exists r'. split; [done|congruence].
Qed.

Lemma ins_good_keep w w' m i :
  db_le v (w_db w) (w_db w') → length (w_frames w) ≤ length (w_frames w') →
  ins_good w m i → ins_good w' m i.
Proof.
  intros Hle Hlen (Hcl & Hq & Hv1 & Hv2 & Hr). 
  assert (∀ t, valid_task w t → valid_task w' t) as Hval
    by (intros t (c & -> & Hc); exists c; split; [done|lia]).
  split_and!; [done|done|by eapply Forall_impl|by eapply Forall_impl|].
  destruct (i_routine i); try done. by eapply handler_good_mono.
Qed.

Lemma copies_keep w w' (l : list (copyRequest F)) :
  db_le v (w_db w) (w_db w') → length (w_frames w) ≤ length (w_frames w') →
  Forall (λ cr, copy_good v (w_db w) cr ∧ Forall (valid_task w) (needsResponse (cr_data cr))) l →
  Forall (λ cr, copy_good v (w_db w') cr ∧ Forall (valid_task w') (needsResponse (cr_data cr))) l.
Proof.
  intros Hle Hlen Hl. eapply Forall_impl; [exact Hl|]. intros cr [Hg Hv]. split; [by eapply copy_good_mono|].
  eapply Forall_impl; [exact Hv|]. intros t (c & -> & Hc). exists c. split; [done|lia].
Qed.

(** ** Preservation, action by action *)

Definition step_ok (a : action) w : Prop :=
  exec conn asyncAcks numCopiers a w = None ∨
  ∃ w', exec conn asyncAcks numCopiers a w = Some (Ok w') ∧ inv w'.

(** A step that leaves the counts of all calls alone. *)
Lemma inv_wg_same w w' :
  inv w → w_calls w' = w_calls w → (∀ c, outstanding w' c = outstanding w c) →
  ∀ c r, w_calls w' !! c = Some r →
    wg r = Z.of_nat (outstanding w' c) ∧ (chan_closed r = true → outstanding w' c = 0).
Proof. intros Hinv -> Ho c r Hr. rewrite Ho. by apply (inv_wg _ Hinv). Qed.

(** A step that answers the tasks [ts]. *)
Lemma inv_wg_answered w w' err ts :
  inv w → (∀ c, w_calls w' !! c = answered err (occ c ts) <$> w_calls w !! c) →
  (∀ c, outstanding w c = outstanding w' c + occ c ts) →
  ∀ c r, w_calls w' !! c = Some r →
    wg r = Z.of_nat (outstanding w' c) ∧ (chan_closed r = true → outstanding w' c = 0).
Proof.
  intros Hinv Hcs Ho c r'. rewrite Hcs, fmap_Some. intros (r & Hr & ->). simpl.
  destruct (inv_wg _ Hinv _ _ Hr) as [-> Hcl]. specialize (Ho c). split; [lia|].
  intros Hc. specialize (Hcl Hc). lia.
Qed.

Lemma occ_fresh w c ts : Forall (valid_task w) ts → length (w_frames w) ≤ c → occ c ts = 0.
Proof.
  intros Hv Hc. destruct (occ c ts) eqn:E; [done|]. exfalso.
  assert (Some c ∈ ts) as Hin by (apply occ_pos; lia).
  rewrite Forall_forall in Hv. destruct (Hv _ Hin) as (c' & [= <-] & ?). lia.
Qed.

Lemma outstanding_fresh w c : inv w → length (w_frames w) ≤ c → outstanding w c = 0.
Proof.
  intros Hinv Hc. unfold outstanding, todo_len. rewrite (lookup_ge_None_2 _ _ Hc). simpl.
  assert (∀ l, l ⊆ w_copy w ++ w_copying w → copy_occ c l = 0) as Hcopy.
  { intros l Hl. induction l as [|cr l IH]; [done|].
    rewrite copy_occ_cons, IH by set_solver.
    pose proof (inv_copy _ Hinv) as Hall. rewrite Forall_forall in Hall.
    destruct (Hall cr) as [_ Hv]; [apply Hl; left|]. rewrite (occ_fresh w) by done. done. }
  rewrite !Hcopy by set_solver. rewrite map_sum_zero; [done|]. intros m i Hi.
  destruct (inv_ins _ Hinv _ _ Hi) as (_ & _ & Hv1 & Hv2 & _). unfold ins_occ.
  by rewrite !(occ_fresh w) by done.
Qed.

Lemma ACall_ok rows w : inv w → Forall data_good rows → step_ok (ACall rows) w.
Proof.
  intros Hinv Hg. unfold step_ok. simpl. unfold InsertData. case_decide; [right|by left].
  eexists. split; [reflexivity|]. set (w' := MkWorld _ _ _ _ _ _ _ _ _).
  assert (w_calls w !! length (w_frames w) = None) as Hfresh.
  { apply eq_None_not_Some. rewrite (inv_dom _ Hinv). lia. }
  assert (calls_le (w_calls w) (w_calls w')) as Hcs.
  { intros c r Hr. exists r. split; [|done]. simpl. rewrite lookup_insert_ne; [done|]. congruence. }
  assert (∀ c m data, accounted w c m data → accounted w' c m data) as Hacc.
  { intros c m data. apply accounted_keep; [done|done|..]; simpl; intros.
    - eapply InTodo; simpl; [by apply lookup_app_l_Some|done].
    - by eapply InQueue.
    - by eapply InHandler.
    - by eapply InCopier. }
  assert (∀ c, outstanding w' c = (if decide (c = length (w_frames w)) then length rows else 0) +
    outstanding w c) as Ho.
  { intros c. unfold outstanding, todo_len. simpl. rewrite lookup_app.
    case_decide as Hc; [subst c|].
    - rewrite (lookup_ge_None_2 (w_frames w)), Nat.sub_diag by lia. simpl. lia.
    - destruct (w_frames w !! c) eqn:Hf; [done|]. apply lookup_ge_None in Hf.
      rewrite list_lookup_singleton. destruct (c - length (w_frames w)) eqn:E; [lia|]. simpl. lia. }
  assert (length (w_frames w) ≤ length (w_frames w')) as Hlen by (simpl; rewrite length_app; lia).
  split.
  - intros c. simpl. rewrite lookup_insert_is_Some', (inv_dom _ Hinv), length_app. simpl. lia.
  - intros c r. rewrite Ho. simpl. rewrite lookup_insert_Some. intros [[<- <-]|[Hne Hr]]; simpl.
    + rewrite decide_True by done. rewrite outstanding_fresh by done. split; [lia|done].
    + rewrite decide_False by congruence. by apply (inv_wg _ Hinv).
  - intros m i Hi. by eapply (ins_good_keep w), (inv_ins _ Hinv).
  - by eapply (copies_keep w), (inv_copy _ Hinv).
  - apply (inv_names _ Hinv).
  - intros c f. simpl. rewrite lookup_app_Some. intros [Hf|[Hge Hf]].
    + eapply (frame_good_keep w); [done|done|by intros; apply Hacc|]. by apply (inv_frames _ Hinv).
    + rewrite list_lookup_singleton in Hf. destruct (c - length (w_frames w)) eqn:E; [|done].
      injection Hf as <-. assert (c = length (w_frames w)) as -> by lia.
      split; [split; [done|by intros []]|]. split; [done|]. simpl. split; [eexists; split; [by apply lookup_insert_eq|done]|].
      intros m data Hin. eapply InTodo; simpl; [apply list_lookup_middle; lia|done].
Qed.

Lemma AReturn_ok c0 w : inv w → step_ok (AReturn c0) w.
Proof.
  intros Hinv. unfold step_ok. simpl. unfold return_async.
  destruct (w_frames w !! c0) as [[rows [|? ?] waited [|]]|] eqn:Hf; try by left.
  destruct asyncAcks eqn:Hasync; [right|by left].
  eexists. split; [reflexivity|]. set (w' := MkWorld _ _ _ _ _ _ _ _ _).
  assert (length (w_frames w') = length (w_frames w)) as Hlen by (simpl; by rewrite length_insert).
  assert (∀ c f, w_frames w !! c = Some f → ∃ f', w_frames w' !! c = Some f' ∧ f_todo f' = f_todo f) as Hfr.
  { intros c f Hc. simpl. destruct (decide (c = c0)) as [->|Hne].
    - rewrite list_lookup_insert_eq by by eapply lookup_lt_Some. eexists. split; [done|]. by simplify_eq.
    - rewrite list_lookup_insert_ne by done. eauto. }
  assert (∀ c m data, accounted w c m data → accounted w' c m data) as Hacc.
  { intros c m data. apply accounted_keep; [done|apply calls_le_refl|..]; simpl.
    - intros f Hc Hin. destruct (Hfr _ _ Hc) as (f' & Hc' & Heq). eapply InTodo; [done|by rewrite Heq].
    - intros. by eapply InQueue.
    - intros. by eapply InHandler.
    - intros. by eapply InCopier. }
  assert (∀ c, outstanding w' c = outstanding w c) as Ho.
  { intros c. unfold outstanding, todo_len. simpl. do 3 f_equal.
    destruct (decide (c = c0)) as [->|Hne].
    - rewrite list_lookup_insert_eq, Hf by by eapply lookup_lt_Some. done.
    - by rewrite list_lookup_insert_ne by done. }
  split.
  - intros c. rewrite Hlen. apply (inv_dom _ Hinv).
  - by apply (inv_wg_same w).
  - intros m i Hi. eapply (ins_good_keep w), (inv_ins _ Hinv); [done|by rewrite Hlen|done].
  - eapply (copies_keep w), (inv_copy _ Hinv); [done|by rewrite Hlen].
  - apply (inv_names _ Hinv).
  - intros c f. simpl. rewrite list_lookup_insert_Some. intros [(<- & <- & _)|[Hne Hc]].
    + apply (inv_frames _ Hinv) in Hf as (Ht & _ & Hw). split; [done|]. split; [by rewrite Hasync|].
      simpl in *. destruct waited as [[e|]|]; [done|done|]. destruct Hw as [? Hw]. split; [done|].
      intros. by apply Hacc, Hw.
    + eapply (frame_good_keep w); [done|apply calls_le_refl|by intros; apply Hacc|]. by apply (inv_frames _ Hinv).
Qed.

Lemma AWait_ok c0 w : inv w → step_ok (AWait c0) w.
Proof.
  intros Hinv. unfold step_ok. simpl. unfold wait_finished.
  destruct (w_frames w !! c0) as [[rows [|? ?] [|] result]|] eqn:Hf; try by left.
  destruct (w_calls w !! c0) as [[[|?|?] err cl]|] eqn:Hc0; try by left. right.
  eexists. split; [reflexivity|]. set (w' := MkWorld _ _ _ _ _ _ _ _ _).
  pose proof (lookup_lt_Some _ _ _ Hf) as Hlt.
  assert (length (w_frames w') = length (w_frames w)) as Hlen by (simpl; by rewrite length_insert).
  destruct (inv_wg _ Hinv _ _ Hc0) as [Hz _]. simpl in Hz.
  assert (∀ c, c ≠ c0 → calls_le_at (w_calls w) (w_calls w') c) as Hcs.
  { intros c Hne r Hr. exists r. simpl. by rewrite lookup_insert_ne. }
  assert (∀ c m data, c ≠ c0 → accounted w c m data → accounted w' c m data) as Hacc.
  { intros c m data Hne. apply accounted_keep; [done|by apply Hcs|..]; simpl.
    - intros f Hc Hin. eapply InTodo; [simpl; by rewrite list_lookup_insert_ne|done].
    - intros. by eapply InQueue.
    - intros. by eapply InHandler.
    - intros. by eapply InCopier. }
  assert (∀ c, outstanding w' c = outstanding w c) as Ho.
  { intros c. unfold outstanding, todo_len. simpl. do 3 f_equal.
    destruct (decide (c = c0)) as [->|Hne].
    - by rewrite list_lookup_insert_eq, Hf by done.
    - by rewrite list_lookup_insert_ne by done. }
  split.
  - intros c. rewrite Hlen, <-(inv_dom _ Hinv). simpl. rewrite lookup_insert_is_Some'.
    split; [|by right]. intros [<-|?]; [by rewrite Hc0|done].
  - intros c r. rewrite Ho. simpl. rewrite lookup_insert_Some. intros [[<- <-]|[Hne Hr]]; simpl.
    + split; [done|lia].
    + by apply (inv_wg _ Hinv).
  - intros m i Hi. eapply (ins_good_keep w), (inv_ins _ Hinv); [done|by rewrite Hlen|done].
  - eapply (copies_keep w), (inv_copy _ Hinv); [done|by rewrite Hlen].
  - apply (inv_names _ Hinv).
  - intros c f. simpl. rewrite list_lookup_insert_Some. intros [(<- & <- & _)|[Hne Hc]].
    + apply (inv_frames _ Hinv) in Hf as (Ht & _ & Hw). split; [split; [apply Ht|done]|].
      split; [by intros ->|]. simpl in *. destruct err as [e|]; [done|]. destruct Hw as [_ Hw]. intros m data Hin.
      destruct (accounted_finished w c0 m data (Hw _ _ Hin)) as [(r & Hr & Herr)|Hd]; [lia| |done].
      rewrite Hc0 in Hr. injection Hr as <-. by destruct Herr.
    + eapply (frame_good_keep w); [done|by apply Hcs|by intros; apply Hacc|]. by apply (inv_frames _ Hinv).
Qed.

Lemma getMetricInserter_lookup (ins : gmap string (inserter (F:=F))) m t m' :
  getMetricInserter ins m t !! m' =
    if decide (m' = m) then Some (default (MkInserter (MkChan [] false) (RStart t)) (ins !! m))
    else ins !! m'.
Proof.
  unfold getMetricInserter. case_decide as Hm; [subst|].
  - destruct (ins !! m) eqn:E; [done|]. by rewrite lookup_insert_eq.
  - destruct (ins !! m); [done|]. by rewrite lookup_insert_ne.
Qed.

Lemma getMetricInserter_sum (ins : gmap string (inserter (F:=F))) m t c :
  map_sum (ins_occ c) (getMetricInserter ins m t) = map_sum (ins_occ c) ins.
Proof.
  unfold getMetricInserter. destruct (ins !! m) eqn:E; [done|]. by rewrite map_sum_insert.
Qed.

Lemma ASend_ok c0 w : inv w → step_ok (ASend c0) w.
Proof.
  intros Hinv. unfold step_ok. simpl. unfold insertMetricData.
  destruct (w_frames w !! c0) as [[rows [|[m0 data0] todo] waited result]|] eqn:Hf; try by left.
  rewrite getMetricInserter_lookup, decide_True by done.
  set (i0 := default _ (w_inserters w !! m0)). destruct i0 as [[q cl] r0] eqn:Hi0.
  pose proof (lookup_lt_Some _ _ _ Hf) as Hlt.
  assert (cl = false ∧ Forall (req_good m0) q ∧ Forall (valid_task w) (r_task <$> q) ∧
    Forall (valid_task w) (routine_tasks r0) ∧
    match r0 with
    | RStart t => t = Some c0 ∨ ∃ req, req ∈ q ∧ r_task req = t
    | RLoop h _ => handler_good v (w_db w) m0 h
    | RFail _ => True
    | RDone => False
    end) as (-> & Hq & Hv1 & Hv2 & Hr0).
  { unfold i0 in Hi0. destruct (w_inserters w !! m0) as [i|] eqn:Hi; simpl in Hi0.
    - subst i. destruct (inv_ins _ Hinv _ _ Hi) as (? & ? & ? & ? & Hr). simpl in *.
      split_and!; try done. destruct r0; auto.
    - injection Hi0 as <- <- <-. split_and!; try done. by left. }
  case_bool_decide; [right|by left].
  eexists. split; [reflexivity|]. set (w' := MkWorld _ _ _ _ _ _ _ _ _).
  assert (length (w_frames w') = length (w_frames w)) as Hlen by (simpl; by rewrite length_insert).
  destruct (inv_frames _ Hinv _ _ Hf) as ([Htodo Hnw] & Hres & Hw). simpl in Htodo, Hnw.
  apply Forall_cons in Htodo as [Hd0 Htodo].
  assert (∀ m, w_inserters w' !! m = if decide (m = m0)
    then Some (MkInserter (MkChan (q ++ [MkReq m0 data0 (Some c0)]) false) r0)
    else w_inserters w !! m) as Hins.
  { intros m. simpl. case_decide as Hm; [subst; by rewrite lookup_insert_eq|].
    rewrite lookup_insert_ne by done. by rewrite getMetricInserter_lookup, decide_False by done. }
  assert (∀ i, w_inserters w !! m0 = Some i → i = MkInserter (MkChan q false) r0) as Hold.
  { intros i Hi. unfold i0 in Hi0. by rewrite Hi in Hi0. }
  assert (∀ c m data, accounted w c m data → accounted w' c m data) as Hacc.
  { intros c m data. apply accounted_keep; [done|apply calls_le_refl|..].
    - intros f Hc Hin. destruct (decide (c = c0)) as [->|Hne].
      + rewrite Hf in Hc. injection Hc as <-. simpl in Hin.
        apply elem_of_cons in Hin as [[= -> ->]|Hin].
        * eapply InQueue; [by rewrite Hins, decide_True|]. simpl. apply elem_of_app. right. left.
        * eapply InTodo; [simpl; by rewrite list_lookup_insert_eq|done].
      + eapply InTodo; [simpl; by rewrite list_lookup_insert_ne|done].
    - intros i Hi Hin. destruct (decide (m = m0)) as [->|Hne].
      + apply Hold in Hi as ->. eapply InQueue; [by rewrite Hins, decide_True|].
        simpl. apply elem_of_app. by left.
      + eapply InQueue; [by rewrite Hins, decide_False|done].
    - intros i h hot Hi Hr Hc Hcov. destruct (decide (m = m0)) as [->|Hne].
      + apply Hold in Hi as ->. by eapply InHandler; [by rewrite Hins, decide_True|..].
      + by eapply InHandler; [by rewrite Hins, decide_False|..].
    - intros. by eapply InCopier. }
  assert (∀ c, outstanding w' c = outstanding w c) as Ho.
  { intros c. unfold outstanding, todo_len. simpl.
    pose proof (map_sum_update (ins_occ c) (getMetricInserter (w_inserters w) m0 (Some c0)) m0
      (MkInserter (MkChan q false) r0)
      (MkInserter (MkChan (q ++ [MkReq m0 data0 (Some c0)]) false) r0)) as Hsum.
    rewrite getMetricInserter_lookup, decide_True, getMetricInserter_sum in Hsum by done.
    fold i0 in Hsum. rewrite Hi0 in Hsum. specialize (Hsum eq_refl). unfold ins_occ at 2 4 in Hsum. simpl in Hsum.
    rewrite fmap_app, occ_app in Hsum. simpl in Hsum.
    destruct (decide (c = c0)) as [->|Hne].
    - rewrite list_lookup_insert_eq, Hf by done. rewrite decide_True in Hsum by done. simpl. lia.
    - rewrite list_lookup_insert_ne by done. rewrite decide_False in Hsum by congruence. lia. }
  split.
  - intros c. rewrite Hlen. apply (inv_dom _ Hinv).
  - by apply (inv_wg_same w).
  - intros m i. rewrite Hins. case_decide as Hm; [subst m; intros [= <-]|intros Hi;
      (eapply (ins_good_keep w), (inv_ins _ Hinv); [done|by rewrite Hlen|done])].
    apply (ins_good_keep w w'); [done|by rewrite Hlen|]. split_and!; simpl; [done| | |done|].
    + apply Forall_app. split; [done|]. by apply Forall_singleton.
    + rewrite fmap_app. apply Forall_app. split; [done|]. apply Forall_singleton. by exists c0.
    + destruct r0 as [t| | |]; try done. setoid_rewrite elem_of_app.
      destruct Hr0 as [->|(req & ? & ?)]; [|by eauto].
      exists (MkReq m0 data0 (Some c0)). split; [right; left|done].
  - eapply (copies_keep w), (inv_copy _ Hinv); [done|by rewrite Hlen].
  - apply (inv_names _ Hinv).
  - intros c f. simpl. rewrite list_lookup_insert_Some. intros [(<- & <- & _)|[Hne Hc]].
    + split; [split; [done|by intros Hwa; specialize (Hnw Hwa)]|]. split; [done|].
      simpl in *. destruct waited as [[e|]|]; [done|done|]. destruct Hw as [? Hw]. split; [done|]. intros. by apply Hacc, Hw.
    + eapply (frame_good_keep w); [done|apply calls_le_refl|by intros; apply Hacc|]. by apply (inv_frames _ Hinv).
Qed.

(** *** Steps of the goroutines behind the channels: the frames do not change *)

Lemma inv_build w w' :
  inv w → w_frames w' = w_frames w → db_le v (w_db w) (w_db w') →
  calls_le (w_calls w) (w_calls w') →
  (∀ c, is_Some (w_calls w' !! c) ↔ is_Some (w_calls w !! c)) →
  (∀ c r, w_calls w' !! c = Some r →
    wg r = Z.of_nat (outstanding w' c) ∧ (chan_closed r = true → outstanding w' c = 0)) →
  (∀ m i, w_inserters w' !! m = Some i → w_inserters w !! m = Some i ∨ ins_good w' m i) →
  (∀ cr, cr ∈ w_copy w' ++ w_copying w' → cr ∈ w_copy w ++ w_copying w ∨
     copy_good v (w_db w') cr ∧ Forall (valid_task w) (needsResponse (cr_data cr))) →
  MC.coherent (db_tables v) (w_db w') (w_names w') →
  (∀ c m data, is_Some (w_calls w !! c) → accounted w c m data → accounted w' c m data) →
  inv w'.
Proof.
  intros Hinv Hfr Hle Hcs Hdom Hwg Hins Hcopy Hnames Hacc.
  assert (∀ t, valid_task w t → valid_task w' t) as Hval.
  { intros t. unfold valid_task. by rewrite Hfr. }
  split; [|done| | |done|].
  - intros c. rewrite Hdom, Hfr. apply (inv_dom _ Hinv).
  - intros m i Hi. destruct (Hins m i Hi) as [Hi'|]; [|done].
    eapply (ins_good_keep w), (inv_ins _ Hinv); [done|by rewrite Hfr|done].
  - apply Forall_forall. intros cr Hcr. destruct (Hcopy cr Hcr) as [Hold|[Hg Hv]].
    + pose proof (inv_copy _ Hinv) as Hall. rewrite Forall_forall in Hall.
      destruct (Hall cr Hold) as [Hg Hv]. split; [by eapply copy_good_mono|by eapply Forall_impl].
    + split; [done|by eapply Forall_impl].
  - intros c f. rewrite Hfr. intros Hf. eapply (frame_good_keep w); [done|apply Hcs| |by apply (inv_frames _ Hinv)].
    intros m data. apply Hacc. apply (inv_dom _ Hinv). by eapply lookup_lt_Some.
Qed.

Lemma is_Some_answered (cs cs' : calls) err f c :
  (∀ c, cs' !! c = answered err (f c) <$> cs !! c) → is_Some (cs' !! c) ↔ is_Some (cs !! c).
Proof. intros ->. apply fmap_is_Some. Qed.

Lemma covers_same (sis sis' data : list (samplesInfo F)) :
  Forall2 same_series sis sis' → covers sis data → covers sis' data.
Proof.
  intros Hf Hc si Hsi. destruct (Hc si Hsi) as (si' & [j Hj]%list_elem_of_lookup & Hs).
  destruct (Forall2_lookup_l _ _ _ _ _ Hf Hj) as (si'' & Hj' & Hs').
  exists si''. split; [by eapply list_elem_of_lookup_2|by eapply same_series_trans].
Qed.

Lemma covers_app_l (sis sis' data : list (samplesInfo F)) : covers sis data → covers (sis ++ sis') data.
Proof. intros Hc si Hsi. destruct (Hc si Hsi) as (si' & ? & ?). exists si'. rewrite elem_of_app. auto. Qed.

Lemma covers_self (sis data : list (samplesInfo F)) : (∀ si, si ∈ data → si ∈ sis) → covers sis data.
Proof. intros Hc si Hsi. exists si. split; [auto|done]. Qed.

(** Data a handler held is accounted for after the turn, whatever happened to it. *)
Lemma outcome_accounted w' m ts sis s s' h' ch hot c data :
  outcome v m ts sis s s' h' → w_db w' = sh_db s' → w_calls w' = sh_calls s' →
  w_copy w' = sh_copiers s' → w_inserters w' !! m = Some (MkInserter ch (RLoop h' hot)) →
  handler_good v (sh_db s') m h' → is_Some (sh_calls s !! c) →
  Some c ∈ ts → covers sis data → accounted w' c m data.
Proof.
  intros Hout Hdb Hcs Hcopy Hi Hh [r Hr] Hc Hcov.
  destruct Hout as [h' <- Hs|d' h' cr Hp Hn Hs Hg Ht|d' cs' h' e Hp Hne Hans]; simpl in *.
  - eapply InHandler; [done|reflexivity|done|by eapply covers_same].
  - apply (InCopier _ _ _ _ cr).
    + rewrite Hcopy, !elem_of_app, list_elem_of_singleton. auto.
    + by rewrite Hn.
    + by eapply covers_same.
    + rewrite Hdb, Ht. apply Hh.
  - apply (Errored _ _ _ _ (answered (Some e) (occ c ts) r)).
    + by rewrite Hcs, Hans, Hr.
    + apply occ_pos in Hc. simpl. rewrite decide_False by lia. eauto.
Qed.

(** The part of a turn's world that the accounting sees. *)
Lemma outcome_outstanding w w' m q q' consumed h h' hot hot' s' sis :
  w_inserters w !! m = Some (MkInserter (MkChan q false) (RLoop h hot)) →
  q = consumed ++ q' →
  w_frames w' = w_frames w → w_copying w' = w_copying w → w_copy w' = sh_copiers s' →
  w_calls w' = sh_calls s' →
  w_inserters w' = <[m := MkInserter (MkChan q' false) (RLoop h' hot')]> (w_inserters w) →
  outcome v m (needsResponse (pending h) ++ (r_task <$> consumed)) sis
    (MkShared (w_db w) (w_calls w) (w_copy w)) s' h' → inv w →
  ∀ c r, w_calls w' !! c = Some r →
    wg r = Z.of_nat (outstanding w' c) ∧ (chan_closed r = true → outstanding w' c = 0).
Proof.
  intros Hi -> Hfr Hcing Hcopy Hcs Hins Hout Hinv.
  set (ts := needsResponse (pending h) ++ (r_task <$> consumed)) in *.
  assert (∀ c, outstanding w' c + occ c ts + copy_occ c (w_copy w) =
    outstanding w c + occ c (needsResponse (pending h')) + copy_occ c (w_copy w')) as Hcount.
  { intros c. unfold outstanding, todo_len. rewrite Hfr, Hcing, Hins.
    pose proof (map_sum_update (ins_occ c) _ _ _ (MkInserter (MkChan q' false) (RLoop h' hot')) Hi) as Hsum.
    unfold ins_occ at 2 4 in Hsum. simpl in Hsum. rewrite fmap_app, occ_app in Hsum.
    unfold ts. rewrite occ_app. lia. }
  destruct Hout as [h' Hn Hs|d' h' cr Hp Hn Hs Hg Ht|d' cs' h' e Hp Hne Hans]; simpl in *.
  - apply (inv_wg_same w w'); [done|done|]. intros c. specialize (Hcount c).
    rewrite Hcopy, Hn in Hcount. lia.
  - apply (inv_wg_same w w'); [done|done|]. intros c. specialize (Hcount c).
    rewrite Hcopy, Hp, copy_occ_app, copy_occ_cons, Hn in Hcount. change (copy_occ c []) with 0 in Hcount.
    simpl in Hcount. lia.
  - apply (inv_wg_answered w w' (Some e) ts); [done|by rewrite Hcs|]. intros c. specialize (Hcount c).
    rewrite Hcopy, Hp in Hcount. simpl in Hcount. lia.
Qed.

Context (Hlaws : ConnLaws conn v).

Lemma outcome_calls_le m ts sis (s s' : shared F D) h' :
  outcome v m ts sis s s' h' → calls_le (sh_calls s) (sh_calls s') ∧
  (∀ c, is_Some (sh_calls s' !! c) ↔ is_Some (sh_calls s !! c)).
Proof.
  intros Hout. destruct Hout as [|? ? ? ?|d' cs' h' e Hp Hne Hans]; simpl;
    [split; [apply calls_le_refl|done]..|].
  split; [by apply (calls_le_answered _ _ (Some e) (λ c, occ c ts))|].
  intros c. by apply (is_Some_answered _ _ (Some e) (λ c, occ c ts)).
Qed.

(** A turn of a routine that consumed the requests [consumed]. *)
Lemma turn_inv w m q q' consumed h h' hot hot' s' :
  inv w → w_inserters w !! m = Some (MkInserter (MkChan q false) (RLoop h hot)) →
  q = consumed ++ q' → db_le v (w_db w) (sh_db s') → handler_good v (sh_db s') m h' →
  outcome v m (needsResponse (pending h) ++ (r_task <$> consumed))
    (infos (pending h) ++ concat (r_data <$> consumed))
    (MkShared (w_db w) (w_calls w) (w_copy w)) s' h' →
  inv (set_routine m (MkChan q' false) (RLoop h' hot') (sh_db s') (sh_calls s') (sh_copiers s')
         (w_names w) (w_signal w) w).
Proof.
  intros Hinv Hi -> Hle Hh' Hout. set (w' := set_routine _ _ _ _ _ _ _ _ _).
  destruct (inv_ins _ Hinv _ _ Hi) as (_ & Hq & Hv1 & Hv2 & Hh). simpl in Hq, Hv1, Hv2, Hh.
  rewrite fmap_app in Hv1. apply Forall_app in Hv1 as [Hvc Hvq]. apply Forall_app in Hq as [_ Hq].
  destruct (outcome_calls_le _ _ _ _ _ _ Hout) as [Hcs Hdom]. simpl in Hcs, Hdom.
  assert (w_inserters w' !! m = Some (MkInserter (MkChan q' false) (RLoop h' hot'))) as Hi'
    by (simpl; by rewrite lookup_insert_eq).
  apply (inv_build w w'); try done.
  - by eapply (outcome_outstanding w w').
  - intros m' i'. simpl. rewrite lookup_insert_Some. intros [[<- <-]|[_ ?]]; [right|by left].
    split_and!; simpl; try done. destruct Hout as [h' -> _|? h' ? Hp|? ? h' ? Hp]; [|by rewrite Hp..].
    by apply Forall_app.
  - intros cr. destruct Hout as [h' _ _|d' h' cr' _ Hn _ Hg _|]; simpl; auto.
    rewrite !elem_of_app, list_elem_of_singleton. intros [[?| ->]|?]; auto. right. split; [done|].
    rewrite Hn. by apply Forall_app.
  - eapply coherent_mono; [done|apply (inv_names _ Hinv)].
  - intros c m' data Hc. apply accounted_keep; [done|apply Hcs|..]; simpl.
    + intros. by eapply InTodo.
    + intros i0 Hi0 Hin. destruct (decide (m' = m)) as [->|Hne].
      2:{ eapply InQueue; [simpl; by rewrite lookup_insert_ne|done]. }
      rewrite Hi in Hi0. injection Hi0 as <-. simpl in Hin. apply elem_of_app in Hin as [Hin|Hin].
      2:{ by eapply InQueue. }
      eapply outcome_accounted; try done.
      * apply elem_of_app. right. by apply (list_elem_of_fmap_2 r_task) in Hin.
      * apply covers_self. intros si Hsi. apply elem_of_app. right.
        apply list_elem_of_In, in_concat. exists data. split; apply list_elem_of_In; [|done].
        by apply (list_elem_of_fmap_2 r_data) in Hin.
    + intros i0 h0 hot0 Hi0 Hr Hc0 Hcov. destruct (decide (m' = m)) as [->|Hne].
      2:{ eapply InHandler; [simpl; by rewrite lookup_insert_ne|done..]. }
      rewrite Hi in Hi0. injection Hi0 as <-. injection Hr as <- <-.
      eapply outcome_accounted; try done; [|by apply covers_app_l].
      apply elem_of_app. by left.
    + intros cr Hcr Hc0 Hcov Ht. eapply InCopier; [|done..]. simpl.
      apply elem_of_app in Hcr as [Hcr|Hcr]; apply elem_of_app; [left|by right].
      destruct Hout; simpl; [done|apply elem_of_app; by left|done].
Qed.

Lemma occ_le_outstanding_ins w m i c :
  w_inserters w !! m = Some i → ins_occ c i ≤ outstanding w c.
Proof. intros Hi. apply (ins_occ_elem c) in Hi. unfold outstanding. lia. Qed.

Lemma loop_turn_ok w m ch h hot :
  inv w → w_inserters w !! m = Some (MkInserter ch (RLoop h hot)) → step_ok (ATurn m) w.
Proof.
  intros Hinv Hi. unfold step_ok. simpl. unfold routine_step. rewrite Hi.
  destruct (inv_ins _ Hinv _ _ Hi) as (Hcl & Hq & Hv1 & Hv2 & Hh). simpl in *.
  destruct ch as [q cl]. simpl in Hcl. subst cl.
  destruct (routine_turn_spec conn v Hlaws (MkShared (w_db w) (w_calls w) (w_copy w)) h hot q m Hh Hq)
    as [(-> & _)|(s' & q' & h' & hot' & -> & Hle & Hh' & Hcase)].
  - apply can_answer_inv; [done|by apply Forall_app|]. intros c. rewrite occ_app.
    pose proof (occ_le_outstanding_ins w m _ c Hi) as Hle. unfold ins_occ in Hle. simpl in Hle. lia.
  - by left.
  - simpl. case_bool_decide; [right|by left]. eexists. split; [reflexivity|].
    destruct Hcase as [(-> & -> & _ & _ & _ & Hout)|(req & -> & Hout)].
    + eapply (turn_inv w m [] [] []); try done. by rewrite !app_nil_r.
    + eapply (turn_inv w m (req :: q') q' [req]); try done. simpl. by rewrite app_nil_r.
Qed.

Lemma fail_turn_ok w m ch err :
  inv w → w_inserters w !! m = Some (MkInserter ch (RFail err)) → step_ok (ATurn m) w.
Proof.
  intros Hinv Hi. unfold step_ok. simpl. unfold routine_step. rewrite Hi.
  destruct (inv_ins _ Hinv _ _ Hi) as (Hcl & Hq & Hv1 & _ & _). simpl in *.
  destruct ch as [q cl]. simpl in Hcl. subst cl. destruct q as [|req q]; [by left|right].
  apply Forall_cons in Hq as [_ Hq]. apply Forall_cons in Hv1 as [Hv Hv1].
  unfold routine_failure_turn. set (e := Wrapped _ err).
  destruct (answer_all_ok (Some e) [r_task req] (w_calls w)) as (cs' & Hans & Hcs').
  { apply can_answer_inv; [done|by apply Forall_singleton|]. intros c.
    pose proof (occ_le_outstanding_ins w m _ c Hi) as Hle. unfold ins_occ in Hle. simpl in *. lia. }
  cbn [answer_all] in Hans. inv_res Hans. injection Hans as <-. simpl in Ha |- *. rewrite Ha. simpl.
  eexists. split; [reflexivity|]. set (w' := set_routine _ _ _ _ _ _ _ _ _).
  apply (inv_build w w'); try done.
  - by apply (calls_le_answered _ _ (Some e) (λ c, occ c [r_task req])).
  - intros c. by apply (is_Some_answered _ _ (Some e) (λ c, occ c [r_task req])).
  - apply (inv_wg_answered w w' (Some e) [r_task req]); [done|done|]. intros c.
    unfold outstanding, todo_len. simpl.
    pose proof (map_sum_update (ins_occ c) _ _ _ (MkInserter (MkChan q false) (RFail err)) Hi) as Hsum.
    unfold ins_occ at 2 4 in Hsum. simpl in Hsum. change (list_fmap _ _ r_task q) with (r_task <$> q) in Hsum. lia.
  - intros m' i'. simpl. rewrite lookup_insert_Some. intros [[<- <-]|[_ ?]]; [right|by left].
    split_and!; done.
  - auto.
  - apply (inv_names _ Hinv).
  - intros c m' data [r Hr]. apply accounted_keep;
      [done|by apply (calls_le_answered _ _ (Some e) (λ c, occ c [r_task req]))|..]; simpl.
    + intros. by eapply InTodo.
    + intros i0 Hi0 Hin. destruct (decide (m' = m)) as [->|Hne].
      2:{ eapply InQueue; [simpl; by rewrite lookup_insert_ne|done]. }
      rewrite Hi in Hi0. injection Hi0 as <-. simpl in Hin. apply elem_of_cons in Hin as [<-|Hin].
      * eapply Errored; [simpl; rewrite Hcs', Hr; reflexivity|]. cbn [answered errChan].
        rewrite decide_False; [eauto|]. simpl. rewrite decide_True by done. done.
      * eapply InQueue; [simpl; by rewrite lookup_insert_eq|done].
    + intros i0 h0 hot0 Hi0 Hr0. destruct (decide (m' = m)) as [->|Hne]; [by simplify_eq|].
      intros. by eapply InHandler; [simpl; by rewrite lookup_insert_ne|..].
    + intros. by eapply InCopier.
Qed.

Lemma ABegin_ok m w : inv w → step_ok (ABegin m) w.
Proof.
  intros Hinv. unfold step_ok. simpl. unfold routine_begin.
  destruct (w_inserters w !! m) as [[ch [t| | |]]|] eqn:Hi; try by left. right.
  destruct (inv_ins _ Hinv _ _ Hi) as (Hcl & Hq & Hv1 & _ & (req & Hreq & Ht)). simpl in *.
  assert (Some (default 0 t) = t ∧ ∃ r, w_calls w !! default 0 t = Some r ∧ chan_closed r = false)
    as (Ht' & r & Hr & Hrcl).
  { rewrite Forall_forall in Hv1. destruct (Hv1 t) as (c & -> & Hc).
    { rewrite <-Ht. by apply list_elem_of_fmap_2. }
    split; [done|]. destruct (proj2 (inv_dom _ Hinv c) Hc) as [r Hr]. exists r. split; [done|].
    destruct (chan_closed r) eqn:E; [|done]. destruct (inv_wg _ Hinv _ _ Hr) as [_ Hz]. specialize (Hz E).
    pose proof (occ_le_outstanding_ins w m _ c Hi) as Hle. unfold ins_occ in Hle. simpl in Hle.
    assert (0 < occ c (r_task <$> queue ch)); [|lia]. apply occ_pos. rewrite <-Ht.
    by apply list_elem_of_fmap_2. }
  rewrite <-Ht'.
  destruct (routine_start_spec conn v Hlaws (w_db w) (w_calls w) (w_names w) (w_signal w) m _ r
    (inv_names _ Hinv) Hr Hrcl) as (d' & cs' & names' & signal' & o & -> & Hle & Hnames & Ho). simpl.
  eexists. split; [reflexivity|]. set (w' := set_routine _ _ _ _ _ _ _ _ _).
  assert (∀ c, cs' !! c = w_calls w !! c ∨
    (c = default 0 t ∧ ∃ e, cs' !! c = Some (MkReplyTo (wg r) (Some e) false))) as Hcs'.
  { intros c. destruct o as [h|err]; [left; by destruct Ho as [-> _]|]. subst cs'.
    destruct (decide (c = default 0 t)) as [->|Hne]; [right|left; by rewrite lookup_insert_ne].
    rewrite lookup_insert_eq. eauto. }
  assert (∀ c, outstanding w' c = outstanding w c) as Hout.
  { intros c. unfold outstanding, todo_len. simpl. do 2 f_equal.
    pose proof (map_sum_update (ins_occ c) _ _ _ (MkInserter ch
      (match o with inl h => RLoop h false | inr err => RFail err end)) Hi) as Hsum.
    unfold ins_occ at 2 4 in Hsum. simpl in Hsum.
    assert (routine_tasks (match o with inl h => RLoop h false | inr err => RFail err end) = []) as Hnil
      by (destruct o as [h|]; [destruct Ho as (_ & Hp & _); simpl; by rewrite Hp|done]).
    rewrite Hnil in Hsum. simpl in Hsum. lia. }
  assert (calls_le (w_calls w) cs') as Hcs.
  { intros c r1 Hr1. destruct (Hcs' c) as [->|(-> & e & ->)]; [eauto|].
    simplify_eq. eexists. split; [done|]. simpl. eauto. }
  apply (inv_build w w'); try done.
  - intros c. simpl. destruct (Hcs' c) as [->|(-> & e & ->)]; [done|]. rewrite Hr. split; eauto.
  - intros c r1. rewrite Hout. simpl. destruct (Hcs' c) as [->|(-> & e & ->)]; [apply (inv_wg _ Hinv)|].
    intros [= <-]. simpl. split; [|done]. by apply (inv_wg _ Hinv).
  - intros m' i'. simpl. rewrite lookup_insert_Some. intros [[<- <-]|[_ ?]]; [right|by left].
    destruct o as [h|err]; [destruct Ho as (_ & Hp & Hh)|]; split_and!; simpl; try done. by rewrite Hp.
  - auto.
  - intros c m' data _. apply accounted_keep; [done|apply Hcs|..]; simpl.
    + intros. by eapply InTodo.
    + intros i0 Hi0 Hin. destruct (decide (m' = m)) as [->|Hne].
      * rewrite Hi in Hi0. injection Hi0 as <-. eapply InQueue; [simpl; by rewrite lookup_insert_eq|done].
      * eapply InQueue; [simpl; by rewrite lookup_insert_ne|done].
    + intros i0 h0 hot0 Hi0 Hr0. destruct (decide (m' = m)) as [->|Hne]; [by simplify_eq|].
      intros. by eapply InHandler; [simpl; by rewrite lookup_insert_ne|..].
    + intros. by eapply InCopier.
Qed.

Lemma AReceive_ok w : inv w → step_ok AReceive w.
Proof.
  intros Hinv. unfold step_ok. simpl. unfold copier_receive.
  destruct (w_copy w) as [|cr copy] eqn:Hcopy; [by left|]. case_bool_decide; [right|by left].
  eexists. split; [reflexivity|]. set (w' := MkWorld _ _ _ _ _ _ _ _ _).
  assert (w_copy w ++ w_copying w ≡ₚ w_copy w' ++ w_copying w') as Hperm.
  { simpl. rewrite Hcopy. simpl. rewrite (assoc_L (++)). by rewrite <-Permutation_cons_append. }
  apply (inv_build w w'); try done.
  - apply calls_le_refl.
  - apply (inv_wg_same w w'); [done|done|]. intros c. unfold outstanding, todo_len. simpl.
    rewrite Hcopy, copy_occ_app, !copy_occ_cons. change (copy_occ c []) with 0. lia.
  - auto.
  - intros cr'. rewrite <-Hperm. auto.
  - apply (inv_names _ Hinv).
  - intros c m' data _. apply accounted_keep; [done|apply calls_le_refl|..]; intros.
    + by eapply InTodo.
    + by eapply InQueue.
    + by eapply InHandler.
    + eapply InCopier; [by rewrite <-Hperm|done..].
Qed.

(** Storing what the entries of a copy request say makes the data durable. *)
Lemma stored_durable d d' m (cr : copyRequest F) data :
  copy_good v d cr → db_le v d d' → stored v d' (cr_table cr) (infos (cr_data cr)) →
  covers (infos (cr_data cr)) data → db_tables v d' !! m = Some (cr_table cr) → durable d' m data.
Proof.
  intros (_ & _ & Hid) Hids%db_le_given Hst Hcov Ht. exists (cr_table cr). split; [done|].
  intros si x Hsi Hx. destruct (Hcov si Hsi) as (si' & Hsi' & Hl & Hs).
  rewrite Forall_forall in Hid. destruct (Hid si' Hsi') as [_ Hkey]. exists (seriesID si').
  rewrite <-Hl, <-Hs in *. split; [by apply Hids|]. by apply Hst.
Qed.

Lemma AInsert_ok i w : inv w → step_ok (AInsert i) w.
Proof.
  intros Hinv. unfold step_ok. simpl. unfold copier_insert.
  destruct (w_copying w !! i) as [cr|] eqn:Hi; [right|by left].
  pose proof (inv_copy _ Hinv) as Hall. rewrite Forall_forall in Hall.
  assert (cr ∈ w_copy w ++ w_copying w) as Hcr
    by (apply elem_of_app; right; by eapply list_elem_of_lookup_2).
  destruct (Hall cr Hcr) as [Hg Hv].
  destruct (runInserter_turn_spec conn v Hlaws (w_db w) (w_calls w) cr Hg)
    as (d' & cs' & err & -> & Hle & Hcs' & Hst).
  { apply can_answer_inv; [done|done|]. intros c. unfold outstanding.
    rewrite (copy_occ_delete _ _ _ _ Hi). lia. }
  simpl. eexists. split; [reflexivity|]. set (w' := MkWorld _ _ _ _ _ _ _ _ _).
  set (ts := needsResponse (cr_data cr)) in *.
  assert (calls_le (w_calls w) cs') as Hcs by by apply (calls_le_answered _ _ err (λ c, occ c ts)).
  assert (∀ cr', cr' ∈ w_copy w ++ w_copying w → cr' = cr ∨ cr' ∈ w_copy w' ++ w_copying w') as Hsplit.
  { intros cr'. simpl. rewrite (delete_Permutation (w_copying w) i cr Hi) at 1.
    rewrite !elem_of_app, elem_of_cons. tauto. }
  apply (inv_build w w'); try done.
  - intros c. by apply (is_Some_answered _ _ err (λ c, occ c ts)).
  - apply (inv_wg_answered w w' err ts); [done|done|]. intros c. unfold outstanding, todo_len. simpl.
    rewrite (copy_occ_delete _ _ _ _ Hi). fold ts. lia.
  - auto.
  - intros cr'. simpl. intros Hin. left. rewrite (delete_Permutation (w_copying w) i cr Hi).
    rewrite elem_of_app in Hin. rewrite elem_of_app, elem_of_cons. tauto.
  - eapply coherent_mono; [done|apply (inv_names _ Hinv)].
  - intros c m' data [r Hr]. apply accounted_keep; [done|apply Hcs|..].
    + intros. by eapply InTodo.
    + intros. by eapply InQueue.
    + intros. by eapply InHandler.
    + intros cr' Hcr' Hc Hcov Ht. destruct (Hsplit cr' Hcr') as [->|]; [|by eapply InCopier].
      destruct err as [e|].
      * eapply Errored; [simpl; by rewrite Hcs', Hr|]. apply occ_pos in Hc. simpl.
        rewrite decide_False by (fold ts in Hc; lia). eauto.
      * apply Stored. eapply stored_durable; eauto.
Qed.

Lemma ASignal_ok w : inv w → step_ok ASignal w.
Proof.
  intros Hinv. unfold step_ok. simpl. unfold complete_metric_creation.
  destruct (w_signal w); [right|by left].
  pose proof (Finalize_le _ _ Hlaws (w_db w)) as Hle.
  eexists. split; [reflexivity|]. set (w' := MkWorld _ _ _ _ _ _ _ _ _).
  apply (inv_build w w'); try done; [apply calls_le_refl|by apply (inv_wg_same w w')|auto|auto| |].
  - eapply coherent_mono; [done|apply (inv_names _ Hinv)].
  - intros c m' data _. apply accounted_keep; [done|apply calls_le_refl|..]; intros.
    + by eapply InTodo.
    + by eapply InQueue.
    + by eapply InHandler.
    + by eapply InCopier.
Qed.

(** ** The invariant holds in every reachable state *)

Lemma exec_ok a w : inv w → good_action a → step_ok a w.
Proof.
  intros Hinv Hg. destruct a.
  - by apply ACall_ok.
  - by apply ASend_ok.
  - by apply AWait_ok.
  - by apply AReturn_ok.
  - by apply ABegin_ok.
  - destruct (w_inserters w !! m) as [[ch r]|] eqn:Hi.
    + destruct r; [|by eapply loop_turn_ok|by eapply fail_turn_ok|];
        left; simpl; unfold routine_step; by rewrite Hi.
    + left. simpl. unfold routine_step. by rewrite Hi.
  - by apply AReceive_ok.
  - by apply AInsert_ok.
  - by apply ASignal_ok.
Qed.

Lemma init_inv d names : MC.coherent (db_tables v) d names → inv (init d names).
Proof.
  intros Hn. split; simpl; [|done|done|constructor|done|done].
  intros c. rewrite lookup_empty. split; [by intros []|lia].
Qed.

Lemma reachable_ok d names w :
  MC.coherent (db_tables v) d names →
  reachable conn asyncAcks numCopiers d names w → inv w.
Proof.
  intros Hn. induction 1 as [|w a w' _ IH Hg He]; [by apply init_inv|].
  destruct (exec_ok a w IH Hg) as [Hnone|(w1 & He1 & Hinv)]; congruence.
Qed.

(** ** Progress *)

Definition not_call (a : action (F:=F)) : Prop := match a with ACall _ => False | _ => True end.

(** Some goroutine other than a new caller can move. *)
Definition can_move w : Prop :=
  ∃ a w', not_call a ∧ exec conn asyncAcks numCopiers a w = Some (Ok w').

Lemma enabled_can_move a w :
  inv w → not_call a → exec conn asyncAcks numCopiers a w ≠ None → can_move w.
Proof.
  intros Hinv Hn He. destruct (exec_ok a w Hinv) as [|(w' & ? & _)]; [by destruct a|done|].
  by exists a, w'.
Qed.

(** An inserter with nothing to do. *)
Definition idle (i : inserter (F:=F)) : Prop :=
  queue (i_chan i) = [] ∧ routine_tasks (i_routine i) = [].

#[local] Instance idle_dec i : Decision (idle i).
Proof.
  unfold idle. destruct (queue (i_chan i)) as [|req q]; [|right; naive_solver].
  destruct (routine_tasks (i_routine i)); [left|right]; naive_solver.
Defined.

Lemma busy_can_move w m i :
  inv w → w_copy w = [] → 0 < numCopiers → w_inserters w !! m = Some i → ¬ idle i → can_move w.
Proof.
  intros Hinv Hcopy Hn Hi Hbusy.
  destruct (inv_ins _ Hinv _ _ Hi) as (Hcl & Hq & Hv1 & Hv2 & Hr).
  destruct i as [[q cl] [t|h hot|err|]]; simpl in *; subst.
  - apply (enabled_can_move (ABegin m)); [done..|]. simpl. unfold routine_begin. by rewrite Hi.
  - apply (enabled_can_move (ATurn m)); [done..|]. simpl. unfold routine_step. rewrite Hi.
    destruct (routine_turn_spec conn v Hlaws (MkShared (w_db w) (w_calls w) (w_copy w)) h hot q m Hr Hq)
      as [(_ & _ & Hnr & Hq0)|(s' & q' & h' & hot' & -> & _ & _ & Hcase)].
    + apply can_answer_inv; [done|by apply Forall_app|]. intros c. rewrite occ_app.
      pose proof (occ_le_outstanding_ins w m _ c Hi) as Hle. unfold ins_occ in Hle. simpl in Hle. lia.
    + by destruct Hbusy.
    + rewrite bool_decide_true; [done|].
      assert (∃ ts sis, outcome v m ts sis (MkShared (w_db w) (w_calls w) (w_copy w)) s' h') as (ts & sis & Hout)
        by (destruct Hcase as [(_ & _ & _ & _ & _ & ?)|(? & _ & ?)]; eauto).
      rewrite Hcopy in Hout. destruct Hout; simpl; lia.
  - apply (enabled_can_move (ATurn m)); [done..|]. simpl. unfold routine_step. rewrite Hi.
    destruct q as [|req q]; [by destruct Hbusy|done].
  - done.
Qed.

(** With copiers, the pipeline stops only when every call has been answered. *)
Lemma progress w c f :
  inv w → 0 < numCopiers → w_frames w !! c = Some f → f_waited f = None → can_move w.
Proof.
  intros Hinv Hn Hf Hwait. destruct (inv_frames _ Hinv _ _ Hf) as (_ & _ & Hw). rewrite Hwait in Hw.
  destruct Hw as [(r & Hr & Hcl) _].
  destruct (w_copying w) as [|cr copying] eqn:Hcing.
  2:{ apply (enabled_can_move (AInsert 0)); [done..|]. simpl. unfold copier_insert. by rewrite Hcing. }
  destruct (w_copy w) as [|cr copy] eqn:Hcopy.
  2:{ apply (enabled_can_move AReceive); [done..|]. simpl. unfold copier_receive.
      by rewrite Hcopy, Hcing, bool_decide_true. }
  destruct (decide (map_Forall (λ _ i, idle i) (w_inserters w))) as [Hidle|Hbusy].
  2:{ apply map_not_Forall in Hbusy as (m & i & Hi & Hb); [|apply _]. by eapply busy_can_move. }
  destruct f as [rows [|[m data] todo] waited result]; simpl in Hwait; subst waited.
  - apply (enabled_can_move (AWait c)); [done..|]. simpl. unfold wait_finished. rewrite Hf, Hr.
    destruct (inv_wg _ Hinv _ _ Hr) as [Hwg _]. destruct r as [z err cl]. simpl in *. subst cl.
    assert (outstanding w c = 0) as Hz; [|by rewrite Hz in Hwg; simpl in Hwg; subst z].
    unfold outstanding, todo_len. rewrite Hf, Hcing, Hcopy. simpl. rewrite map_sum_zero; [done|].
    intros m i Hi. destruct (Hidle _ _ Hi) as [Hq Ht]. unfold ins_occ. by rewrite Hq, Ht.
  - apply (enabled_can_move (ASend c)); [done..|]. simpl. unfold insertMetricData. rewrite Hf.
    rewrite getMetricInserter_lookup, decide_True by done.
    destruct (w_inserters w !! m) as [i|] eqn:Hi; [|done]. simpl.
    destruct (Hidle _ _ Hi) as [Hq _]. destruct i as [[q cl] rt]. simpl in Hq. subst q.
    destruct (inv_ins _ Hinv _ _ Hi) as (Hcl0 & _). simpl in Hcl0. subst cl. done.
Qed.

(** ** Termination *)

Definition frame_weight (f : frame (F:=F)) : nat :=
  11 * length (f_todo f) + (if f_waited f then 0 else 1) + (if f_result f then 0 else 1).

Definition ins_weight (i : inserter (F:=F)) : nat :=
  7 * length (queue (i_chan i)) +
  match i_routine i with
  | RStart _ => 3
  | RLoop h hot => 4 * length (needsResponse (pending h)) + (if hot : bool then 1 else 0)
  | RFail _ | RDone => 0
  end.

Definition copy_weight (cr : copyRequest F) : nat := length (needsResponse (cr_data cr)).

(** A bound on the number of steps the goroutines can still make. *)
Definition weight w : nat :=
  sum_list_nat (frame_weight <$> w_frames w) + map_sum ins_weight (w_inserters w) +
  2 * sum_list_nat (copy_weight <$> w_copy w) + sum_list_nat (copy_weight <$> w_copying w) +
  (if w_signal w then 1 else 0).

Lemma outcome_weight w m q q' consumed h h' hot hot' s' sis :
  inv w → w_inserters w !! m = Some (MkInserter (MkChan q false) (RLoop h hot)) → q = consumed ++ q' →
  outcome v m (needsResponse (pending h) ++ (r_task <$> consumed)) sis
    (MkShared (w_db w) (w_calls w) (w_copy w)) s' h' →
  (consumed = [] → hot' = false ∧ needsResponse (pending h') = [] ∧
     (hot = true ∨ needsResponse (pending h) ≠ [])) →
  weight (set_routine m (MkChan q' false) (RLoop h' hot') (sh_db s') (sh_calls s') (sh_copiers s')
            (w_names w) (w_signal w) w) < weight w.
Proof.
  intros Hinv Hi -> Hout Hcons. unfold weight. simpl.
  pose proof (map_sum_update ins_weight _ _ _ (MkInserter (MkChan q' false) (RLoop h' hot')) Hi) as Hsum.
  unfold ins_weight at 2 4 in Hsum. simpl in Hsum. rewrite length_app in Hsum.
  set (x := if hot then 1 else 0) in Hsum. set (y := if hot' then 1 else 0) in Hsum.
  assert (y ≤ 1) as Hy by (unfold y; destruct hot'; lia).
  assert (length consumed = 0 → y = 0 ∧ length (needsResponse (pending h')) = 0 ∧
    (x = 1 ∨ 0 < length (needsResponse (pending h)))) as Hz.
  { intros ->%nil_length_inv. destruct (Hcons eq_refl) as (Hh' & Hnil & Hor).
    unfold x, y. rewrite Hnil, Hh'. split_and!; [done..|]. destruct Hor as [->|Hne]; [by left|right].
    destruct (needsResponse (pending h)); [done|simpl; lia]. }
  clear Hcons. destruct Hout as [h' Hn Hs|d' h' cr Hp Hn Hs Hg Ht|d' cs' h' e Hp Hne Hans]; simpl in *;
    rewrite ?sum_fmap_app, ?sum_fmap_cons.
  - apply (f_equal length) in Hn. rewrite length_app, length_fmap in Hn. lia.
  - apply (f_equal length) in Hn. rewrite length_app, length_fmap in Hn.
    fold (copy_weight cr) in Hn.
    rewrite Hp in Hsum. simpl in Hsum. destruct Hg as (_ & Hne & _).
    assert (0 < copy_weight cr) by (unfold copy_weight; destruct (needsResponse (cr_data cr)); [done|simpl; lia]).
    change (sum_list_nat (copy_weight <$> [])) with 0. lia.
  - rewrite Hp in Hsum. simpl in Hsum.
    assert (0 < length (needsResponse (pending h)) + length consumed); [|lia].
    destruct (needsResponse (pending h)); [|simpl; lia]. destruct consumed; [done|simpl; lia].
Qed.

Lemma turn_weight w m w' :
  inv w → exec conn asyncAcks numCopiers (ATurn m) w = Some (Ok w') → weight w' < weight w.
Proof.
  intros Hinv. simpl. unfold routine_step.
  destruct (w_inserters w !! m) as [[[q cl] [t|h hot|err|]]|] eqn:Hi; try done.
  - destruct (inv_ins _ Hinv _ _ Hi) as (Hcl & Hq & Hv1 & Hv2 & Hh). simpl in Hcl. subst cl.
    destruct (routine_turn_spec conn v Hlaws (MkShared (w_db w) (w_calls w) (w_copy w)) h hot q m Hh Hq)
      as [(-> & _)|(s' & q' & h' & hot' & -> & _ & _ & Hcase)].
    + apply can_answer_inv; [done|by apply Forall_app|]. intros c. rewrite occ_app.
      pose proof (occ_le_outstanding_ins w m _ c Hi) as Hle. unfold ins_occ in Hle. simpl in Hle. lia.
    + done.
    + simpl. case_bool_decide; intros [= <-].
      destruct Hcase as [(-> & -> & -> & Hor & Hnil & Hout)|(req & -> & Hout)].
      * eapply (outcome_weight w m [] [] []); try done. simpl. by rewrite app_nil_r.
      * eapply (outcome_weight w m (req :: q') q' [req]); done.
  - destruct (inv_ins _ Hinv _ _ Hi) as (Hcl & _). simpl in Hcl. subst cl.
    destruct q as [|req q]; [done|]. intros Hex. injection Hex as Hex. inv_res Hex.
    injection Hex as <-. unfold weight. simpl.
    pose proof (map_sum_update ins_weight _ _ _ (MkInserter (MkChan q false) (RFail err)) Hi) as Hsum.
    unfold ins_weight at 2 4 in Hsum. simpl in Hsum. lia.
Qed.

Lemma send_weight w c w' :
  exec conn asyncAcks numCopiers (ASend c) w = Some (Ok w') → weight w' < weight w.
Proof.
  simpl. unfold insertMetricData.
  destruct (w_frames w !! c) as [[rows [|[m data] todo] waited result]|] eqn:Hf; try done.
  rewrite getMetricInserter_lookup, decide_True by done.
  destruct (default _ _) as [[q cl] r] eqn:Hi. destruct cl; [done|]. case_bool_decide; [|done].
  intros [= <-]. unfold weight. simpl.
  pose proof (sum_fmap_update frame_weight _ _ _ (MkFrame rows todo waited result) Hf) as Hfs.
  unfold frame_weight at 2 4 in Hfs. simpl in Hfs.
  pose proof (map_sum_update ins_weight (getMetricInserter (w_inserters w) m (Some c)) m
    (MkInserter (MkChan q false) r) (MkInserter (MkChan (q ++ [MkReq m data (Some c)]) false) r)) as Hsum.
  rewrite getMetricInserter_lookup, decide_True, Hi in Hsum by done. specialize (Hsum eq_refl).
  unfold ins_weight at 2 4 in Hsum. simpl in Hsum. rewrite length_app in Hsum. simpl in Hsum.
  assert (map_sum ins_weight (getMetricInserter (w_inserters w) m (Some c)) ≤
    3 + map_sum ins_weight (w_inserters w)).
  { unfold getMetricInserter. destruct (w_inserters w !! m) eqn:E; [lia|].
    rewrite map_sum_insert by done. unfold ins_weight at 1. simpl. lia. }
  lia.
Qed.

Lemma exec_weight a w w' :
  inv w → not_call a → exec conn asyncAcks numCopiers a w = Some (Ok w') → weight w' < weight w.
Proof.
  intros Hinv Hn. destruct a as [rows|c|c|c|m|m| |i|]; [done|apply send_weight| | | |by apply turn_weight| | |];
    simpl; unfold wait_finished, return_async, routine_begin, copier_receive, copier_insert, complete_metric_creation.
  - destruct (w_frames w !! c) as [[rows [|? ?] [|] result]|] eqn:Hf; try done.
    destruct (w_calls w !! c) as [[[|?|?] err cl]|]; try done. intros [= <-]. unfold weight. simpl.
    match goal with |- context [<[c := ?f]> _] => pose proof (sum_fmap_update frame_weight _ _ _ f Hf) as Hs end.
    unfold frame_weight at 2 4 in Hs. simpl in Hs. destruct asyncAcks, result; simpl in *; lia.
  - destruct (w_frames w !! c) as [[rows [|? ?] waited [|]]|] eqn:Hf; try done.
    destruct asyncAcks; [|done]. intros [= <-]. unfold weight. simpl.
    match goal with |- context [<[c := ?f]> _] => pose proof (sum_fmap_update frame_weight _ _ _ f Hf) as Hs end.
    unfold frame_weight at 2 4 in Hs. simpl in Hs. lia.
  - destruct (w_inserters w !! m) as [[ch [t| | |]]|] eqn:Hi; try done. intros Hex. injection Hex as Hex.
    inv_res Hex. destruct a as [[[[d cs] names] signal] o]. injection Hex as <-. unfold weight. simpl.
    match goal with |- context [<[m := ?i]> _] => pose proof (map_sum_update ins_weight _ _ _ i Hi) as Hs end.
    unfold ins_weight at 2 4 in Hs. simpl in Hs.
    assert (∀ h, o = inl h → needsResponse (pending h) = []) as Ho.
    { intros h ->. unfold routine_start in Ha.
      destruct (MC.mc_Get _ _) as [n1 [?|?|?]]; [by simplify_eq| |done]. case_decide.
      - destruct (MC.getMetricTableName _ _ _) as [d1 [[? ?]|?|?]]; [| |done].
        + destruct (MC.mc_Set _ _ _). by simplify_eq.
        + by inv_res Ha.
      - by inv_res Ha. }
    destruct o as [h|err]; [rewrite (Ho h eq_refl) in Hs|]; simpl in Hs;
      destruct signal, (w_signal w); simpl; lia.
  - destruct (w_copy w) as [|cr copy] eqn:Hc; [done|]. case_bool_decide; [|done]. intros [= <-].
    unfold weight. simpl. rewrite Hc, sum_fmap_app, !sum_fmap_cons.
    pose proof (inv_copy _ Hinv) as Hall. rewrite Hc in Hall. apply Forall_cons in Hall as [[(_ & Hne & _) _] _].
    change (sum_list_nat (copy_weight <$> [])) with 0.
    assert (0 < copy_weight cr) by (unfold copy_weight; destruct (needsResponse (cr_data cr)); [done|simpl; lia]). lia.
  - destruct (w_copying w !! i) as [cr|] eqn:Hi; [|done]. intros Hex. injection Hex as Hex. inv_res Hex.
    destruct a as [[d cs] p]. injection Hex as <-. unfold weight. simpl.
    rewrite (sum_fmap_delete copy_weight _ _ _ Hi). pose proof (inv_copy _ Hinv) as Hall.
    rewrite Forall_forall in Hall. destruct (Hall cr) as [(_ & Hne & _) _];
      [apply elem_of_app; right; by eapply list_elem_of_lookup_2|].
    assert (0 < copy_weight cr) by (unfold copy_weight; destruct (needsResponse (cr_data cr)); [done|simpl; lia]). lia.
  - destruct (w_signal w) eqn:Hs; [|done]. intros [= <-]. unfold weight. simpl. rewrite Hs. lia.
Qed.

Lemma run_weight acts w w' :
  inv w → Forall not_call acts → run conn asyncAcks numCopiers acts w = Some (Ok w') →
  length acts + weight w' ≤ weight w.
Proof.
  revert w. induction acts as [|a acts IH]; intros w Hinv Hn Hr.
  { injection Hr as <-. simpl. lia. }
  apply Forall_cons in Hn as [Ha Hn]. cbn [run] in Hr.
  destruct (exec_ok a w Hinv) as [He|(w1 & He & Hinv1)]; [by destruct a|by rewrite He in Hr|].
  rewrite He in Hr. specialize (IH w1 Hinv1 Hn Hr). apply exec_weight in He; [|done..]. simpl. lia.
Qed.

(** ** The properties *)

(** C7. The pipeline never panics: in every state that concurrent calls of
    [InsertData] can reach, whatever the scheduling, no goroutine sends on a closed
    channel, takes a wait group below zero, dereferences a nil task or indexes out
    of a batch. *)
Theorem pipeline_never_panics d names w a r :
  MC.coherent (db_tables v) d names → reachable conn asyncAcks numCopiers d names w →
  good_action a → exec conn asyncAcks numCopiers a w = Some r → ∃ w', r = Ok w'.
Proof.
  intros Hn Hr Hg He. apply reachable_ok in Hr; [|done].
  destruct (exec_ok a w Hr Hg) as [?|(w' & ? & _)]; [congruence|]. exists w'. congruence.
Qed.

(** C8. Every request is answered exactly once: the wait group of a call counts
    exactly the requests of that call that are still in a channel, a handler or a
    copier, and the call closes its error channel only when there is none left. *)
Theorem wait_group_counts d names w c r :
  MC.coherent (db_tables v) d names → reachable conn asyncAcks numCopiers d names w →
  w_calls w !! c = Some r →
  wg r = Z.of_nat (outstanding w c) ∧ (chan_closed r = true → outstanding w c = 0).
Proof. intros Hn Hr. apply reachable_ok in Hr; [|done]. apply (inv_wg _ Hr). Qed.

(** *** Runs *)

Lemma run_inv acts w w' :
  inv w → Forall good_action acts → run conn asyncAcks numCopiers acts w = Some (Ok w') → inv w'.
Proof.
  revert w. induction acts as [|a acts IH]; intros w Hinv Hg Hrun; cbn in Hrun; [by injection Hrun as <-|].
  apply Forall_cons in Hg as [Ha Hg]. destruct (exec_ok a w Hinv Ha) as [He|(w1 & He & Hinv1)]; rewrite He in Hrun; [done|].
  by apply (IH w1).
Qed.

(** A call keeps the data it was given. *)
Lemma exec_rows a w w' c f :
  exec conn asyncAcks numCopiers a w = Some (Ok w') → w_frames w !! c = Some f →
  ∃ f', w_frames w' !! c = Some f' ∧ f_rows f' = f_rows f.
Proof.
  intros He Hf.
  assert (∀ c0 f1 f2, w_frames w !! c0 = Some f1 → f_rows f2 = f_rows f1 →
    ∃ f', <[c0 := f2]> (w_frames w) !! c = Some f' ∧ f_rows f' = f_rows f) as Hup.
  { intros c0 f1 f2 Hc1 Hrows. destruct (decide (c0 = c)) as [->|Hne].
    - rewrite list_lookup_insert_eq by (by eapply lookup_lt_Some). exists f2. split; [done|congruence].
    - rewrite list_lookup_insert_ne by done. by exists f. }
  assert (w_frames w' = w_frames w → ∃ f', w_frames w' !! c = Some f' ∧ f_rows f' = f_rows f) as Hsame.
  { intros ->. by exists f. }
  destruct a as [rows|c0|c0|c0|m|m| |i|]; cbn [exec] in He.
  - unfold InsertData in He. case_decide; [|done]. injection He as <-. exists f. split; [|done].
    cbn. by rewrite lookup_app_l by (by eapply lookup_lt_Some).
  - unfold insertMetricData in He. destruct (w_frames w !! c0) as [[rows [|[metric data] todo] waited r]|] eqn:Hc0; [done| |done].
    destruct (getMetricInserter _ _ _ !! metric) as [[[q []] rt]|]; [done| |done]. case_bool_decide; [|done].
    injection He as <-. by eapply Hup.
  - unfold wait_finished in He. destruct (w_frames w !! c0) as [[rows [|] [|] r]|] eqn:Hc0; try done.
    destruct (w_calls w !! c0) as [[[] e cl]|]; try done. injection He as <-. by eapply Hup.
  - unfold return_async in He. destruct (w_frames w !! c0) as [[rows [|] waited [|]]|] eqn:Hc0; try done.
    destruct asyncAcks; [|done]. injection He as <-. by eapply Hup.
  - unfold routine_begin in He. destruct (w_inserters w !! m) as [[ch []]|]; try done. injection He as He. inv_res He.
    destruct a as [[[[d cs] names] signal] o]. injection He as <-. by apply Hsame.
  - unfold routine_step in He. destruct (w_inserters w !! m) as [[ch []]|]; try done.
    + destruct (routine_turn _ _ _ _ _) as [[[[s ch'] o]| |]|]; try done. case_bool_decide; [|done].
      injection He as <-. by apply Hsame.
    + destruct ch as [[|req q] cl]; [destruct cl; [|done]; injection He as <-; by apply Hsame|].
      injection He as He. inv_res He. injection He as <-. by apply Hsame.
  - unfold copier_receive in He. destruct (w_copy w); [done|]. case_bool_decide; [|done]. injection He as <-. by apply Hsame.
  - unfold copier_insert in He. destruct (w_copying w !! i); [|done]. injection He as He. inv_res He.
    destruct a as [[d cs] p]. injection He as <-. by apply Hsame.
  - unfold complete_metric_creation in He. destruct (w_signal w); [|done]. injection He as <-. by apply Hsame.
Qed.

Lemma run_rows acts w w' c f :
  run conn asyncAcks numCopiers acts w = Some (Ok w') → w_frames w !! c = Some f →
  ∃ f', w_frames w' !! c = Some f' ∧ f_rows f' = f_rows f.
Proof.
  revert w f. induction acts as [|a acts IH]; intros w f Hrun Hf; cbn in Hrun; [injection Hrun as <-; eauto|].
  destruct (exec conn asyncAcks numCopiers a w) as [[w1|e|m]|] eqn:He; [|done..].
  destruct (exec_rows a w w1 c f He Hf) as (f1 & Hf1 & Hr1). destruct (IH w1 f1 Hrun Hf1) as (f2 & Hf2 & Hr2).
  exists f2. split; [done|congruence].
Qed.

(** A synchronous call that returned no error counted its samples and stored them. *)
Lemma returned_stored w c f n :
  inv w → asyncAcks = false → w_frames w !! c = Some f → f_result f = Some (n, None) →
  n = numRows f ∧ ∀ m data, (m, data) ∈ f_rows f → durable (w_db w) m data.
Proof.
  intros Hinv Hsync Hf Hres. destruct (inv_frames _ Hinv _ _ Hf) as (_ & Hres' & Hw).
  specialize (Hres' Hsync). rewrite Hres in Hres'. destruct (f_waited f) as [[e|]|]; simplify_eq/=; auto.
Qed.

Lemma ack_stored d names w c f n :
  MC.coherent (db_tables v) d names → reachable conn asyncAcks numCopiers d names w →
  asyncAcks = false → w_frames w !! c = Some f → f_result f = Some (n, None) →
  n = numRows f ∧ ∀ m data, (m, data) ∈ f_rows f → durable (w_db w) m data.
Proof.
  intros Hn Hr Hsync Hf Hres. apply reachable_ok in Hr; [|done]. by eapply returned_stored.
Qed.

(** C5. [InsertData] returns: with at least one copier, the goroutines make at most
    [weight w] steps before every call in progress has been answered and has
    returned, however they are scheduled; in particular the pipeline cannot
    deadlock on its bounded channels. *)
Theorem InsertData_returns d names w :
  MC.coherent (db_tables v) d names → reachable conn asyncAcks numCopiers d names w →
  0 < numCopiers →
  (∀ acts w', Forall not_call acts → run conn asyncAcks numCopiers acts w = Some (Ok w') →
     length acts ≤ weight w) ∧
  ((∀ a, not_call a → exec conn asyncAcks numCopiers a w = None) →
     ∀ c f, w_frames w !! c = Some f → is_Some (f_waited f) ∧ is_Some (f_result f)).
Proof.
  intros Hn Hr Hcop. apply reachable_ok in Hr; [|done]. split.
  - intros acts w' Ha Hrun. apply run_weight in Hrun; [lia|done..].
  - intros Hstuck c f Hf.
    assert (is_Some (f_waited f)) as [e He].
    { destruct (f_waited f) eqn:E; [eauto|exfalso].
      destruct (progress w c f Hr Hcop Hf E) as (a & w' & Ha & Hex). by rewrite Hstuck in Hex. }
    split; [eauto|]. destruct (inv_frames _ Hr _ _ Hf) as ([_ Ht] & Hres & _).
    destruct asyncAcks eqn:Hasync; [|rewrite Hres, He by done; eauto].
    specialize (Hstuck (AReturn c) I). simpl in Hstuck. unfold return_async in Hstuck.
    rewrite Hf in Hstuck. destruct f as [rows todo waited [res|]]; [eauto|]. simpl in *.
    rewrite Ht in Hstuck by eauto. done.
Qed.

End invariant.

(** C3. An acknowledgement means the data is stored: when a synchronous
    [InsertData] returns a nil error, its count is the number of samples it was
    given, and every one of them has a row in the table of its metric, under the
    series id the database has for its label set, or under an id that a transaction
    whose COMMIT failed had answered for this label set; the second only when there
    was such a transaction: where the COMMITs of the connection succeed, the id is
    the one of the database. *)
Theorem ack_means_stored {F D C} `{GoSort} `{MC.MetricCacheLaws C} (conn : Conn F D) (v : DbView D)
    asyncAcks numCopiers d (names : C) w c f n :
  ConnLaws conn v → MC.coherent (db_tables v) d names →
  reachable conn asyncAcks numCopiers d names w →
  asyncAcks = false → w_frames w !! c = Some f → f_result f = Some (n, None) →
  n = numRows f ∧
  (∀ m data, (m, data) ∈ f_rows f → durable v (w_db w) m data) ∧
  (commits conn → ∀ m data, (m, data) ∈ f_rows f →
     ∃ table, db_tables v (w_db w) !! m = Some table ∧
       ∀ si x, si ∈ data → x ∈ samples si →
         ∃ id, db_ids v (w_db w) !! key_of (labels si) = Some id ∧
           db_has v (w_db w) table (s_Timestamp x) id).
Proof.
  intros Hlaws Hn Hr Hsync Hf Hres.
  destruct (ack_stored conn v asyncAcks numCopiers Hlaws d names w c f n) as [Hnum Hst]; [done..|].
  split_and!; [done|done|]. intros Hcom m data Hin.
  destruct (ack_stored conn (nothing_lost v) asyncAcks numCopiers (laws_nothing_lost _ _ Hlaws Hcom)
    d names w c f n) as [_ Hst']; [done..|].
  destruct (Hst' m data Hin) as (table & Ht & Hall). exists table. split; [done|].
  intros si x Hsi Hx. destruct (Hall si x Hsi Hx) as (id & [Hid|[]] & Hhas). eauto.
Qed.

Lemma run_reachable {F D C} `{GoSort} `{MC.MetricCacheOps C} (conn : Conn F D) async n d (names : C) acts w w' :
  Forall good_action acts → reachable conn async n d names w →
  run conn async n acts w = Some (Ok w') → reachable conn async n d names w'.
Proof.
  revert w. induction acts as [|a acts IH]; intros w Hg Hr Hrun; simpl in Hrun; [by simplify_eq|].
  apply Forall_cons in Hg as [Ha Hg].
  destruct (exec conn async n a w) as [[w1|e|m]|] eqn:He; [|done..].
  eapply (IH w1); [done| |done]. by eapply reach_step.
Qed.

(** ** A database for the concrete runs *)

Record ex_state := MkEx {
  ex_series : gmap series_key Z; ex_tables : gmap string string; ex_rows : list (string * Z * Z) }.

Definition ex_conn {F} : Conn F ex_state := {|
  c_SendBatch d qs :=
    let '(ids, r) := ex_SendBatch (ex_series d) qs in (MkEx ids (ex_tables d) (ex_rows d), r);
  c_Insert d t rows :=
    (MkEx (ex_series d) (ex_tables d) (ex_rows d ++ ((λ r, (t, r.1.1, r.2)) <$> rows)),
     Ok (Z.of_nat (length rows)));
  c_DelayCompression d _ _ := (d, None);
  c_Decompress d _ _ := (d, None);
  c_MetricTable d m :=
    match ex_tables d !! m with
    | Some t => (d, Ok (MC.MkRows [Ok (t, false)] None))
    | None => (MkEx (ex_series d) (<[m := m]> (ex_tables d)) (ex_rows d),
               Ok (MC.MkRows [Ok (m, true)] None))
    end;
  c_Finalize d := (d, None);
  c_now _ := 0%Z;
|}.

Definition ex_view : DbView ex_state := {|
  db_ids d := ex_ids (ex_series d);
  db_tables := ex_tables;
  db_has d t ts id := (t, ts, id) ∈ ex_rows d;
  db_lost _ _ _ := False;
|}.

Lemma ex_conn_laws {F} : ConnLaws (ex_conn (F:=F)) ex_view.
Proof.
  split; simpl.
  - intros d qs d' br i q tbl id [= <- <-] Hq Hrow. simpl.
    exact (proj2 (ex_SendBatch_ok (ex_series d) qs _ _ eq_refl) _ i q tbl id eq_refl Hq Hrow).
  - intros d qs. split_and!; [|done|done|by intros k id].
    change (ex_ids (ex_series d) ⊆ ex_ids (foldl ex_add (ex_series d) qs)).
    apply map_fmap_mono, ex_fold_mono.
  - intros d qs d' br i m [= <- <-]. simpl. by destruct (qs !! i).
  - done.
  - intros d t rows. split_and!; simpl; [done|done| |by intros k id]. intros. apply elem_of_app. by left.
  - intros d t rows n _ r Hr. apply elem_of_app. right.
    by apply (list_elem_of_fmap_2 (λ r : Z * F * Z, (t, r.1.1, r.2))) in Hr.
  - done.
  - done.
  - done.
  - done.
  - intros d m. destruct (ex_tables d !! m) eqn:E; simpl; [done|]. split_and!; simpl; [done| |done|by intros k id].
    by apply insert_subseteq.
  - intros d m rows t b. destruct (ex_tables d !! m) as [t'|] eqn:E; simpl;
      intros [= <-]; simpl; rewrite list_elem_of_singleton; intros [= -> ->]; [done|].
    apply lookup_insert_eq.
  - intros d m p. destruct (ex_tables d !! m); simpl; (split; [done|]); intros rows [= <-]; simpl;
      by rewrite list_elem_of_singleton.
Qed.

#[local] Instance ex_cache_ops : MC.MetricCacheOps MC.MetricNameCache := MC.MetricNameCache_ops (λ _, []).
#[local] Instance ex_cache_laws : MC.MetricCacheLaws MC.MetricNameCache := MC.MetricNameCache_laws (λ _, []).

Definition ex_names : MC.MetricNameCache := Clock.WithMax 2.
Definition ex_db0 : ex_state := MkEx ∅ ∅ [].

Lemma ex_coherent : MC.coherent (db_tables ex_view) ex_db0 ex_names.
Proof. split; [apply Clock.inv_WithMax|]. simpl. by vm_compute. Qed.

Definition ex_rows1 : list (string * list (samplesInfo Z)) :=
  [("up"%string, [MkInfo (ex_lset "a") (-1) [MkSample 5 100; MkSample 6 110];
                  MkInfo (ex_lset "b") (-1) [MkSample 7 100]]%Z)].

Lemma ex_rows1_good : Forall data_good ex_rows1.
Proof.
  assert (∀ v id x xs, String.length v ≤ 10 →
    info_good (F:=Z) (MkInfo (ex_lset v) id (x :: xs))) as Hgood.
  { intros v id x xs Hv. split; [done|]. by apply ex_lset_wf. }
  apply Forall_singleton. split; [done|]. split; [done|]. split; [|by repeat constructor].
  constructor; [apply Hgood; simpl; lia|]. constructor; [apply Hgood; simpl; lia|constructor].
Qed.

(** One call, from its start to its return. *)
Definition ex_acts : list (action (F:=Z)) :=
  [ACall ex_rows1; ASend 0; ABegin "up"; ATurn "up"; ATurn "up"; AReceive; AInsert 0; AWait 0].

Definition ex_final : world := 
  match run ex_conn false 1 ex_acts (init ex_db0 ex_names) with
  | Some (Ok w) => w
  | _ => init ex_db0 ex_names
  end.

Lemma ex_final_run : run ex_conn false 1 ex_acts (init ex_db0 ex_names) = Some (Ok ex_final).
Proof.
  unfold ex_final.
  assert (match run ex_conn false 1 ex_acts (init ex_db0 ex_names) with
          | Some (Ok _) => true | _ => false end = true) as Hok by (vm_compute; reflexivity).
  by destruct (run ex_conn false 1 ex_acts (init ex_db0 ex_names)) as [[w| |]|].
Qed.

Lemma ex_reachable : reachable ex_conn false 1 ex_db0 ex_names ex_final.
Proof.
  eapply run_reachable; [|apply reach_init|exact ex_final_run].
  constructor; [exact ex_rows1_good|]. repeat constructor.
Qed.

Lemma pipeline_never_panics_witness :
  ∃ w', exec ex_conn false 1 (ACall ex_rows1) ex_final = Some (Ok w').
Proof.
  destruct (exec ex_conn false 1 (ACall ex_rows1) ex_final) as [r|] eqn:He.
  - destruct (pipeline_never_panics ex_conn ex_view false 1 ex_conn_laws ex_db0 ex_names ex_final
      (ACall ex_rows1) r ex_coherent ex_reachable ex_rows1_good He) as [w' ->]. by exists w'.
  - exfalso. revert He. simpl. unfold InsertData. rewrite decide_True; [done|].
    apply NoDup_singleton.
Defined.

Lemma wait_group_counts_witness :
  ∃ r, w_calls ex_final !! 0 = Some r ∧ wg r = Z.of_nat (outstanding ex_final 0).
Proof.
  assert (is_Some (w_calls ex_final !! 0)) as [r Hr] by (vm_compute; eauto).
  exists r. split; [exact Hr|].
  apply (wait_group_counts ex_conn ex_view false 1 ex_conn_laws ex_db0 ex_names ex_final 0 r
    ex_coherent ex_reachable Hr).
Defined.

(** A database whose COMMITs all fail, after every query was answered with id 7: what it
    answered is kept as a list. *)
Definition lossy_conn {F} : Conn F (ex_state * list (series_key * Z)) := {|
  c_SendBatch d qs := ((d.1, d.2 ++ ((λ q, (q, 7%Z)) <$> qs)),
    Ok (λ _, MkReply None (Ok ("t"%string, 7%Z)) (Some (PgError "40001" "could not serialize"))));
  c_Insert d t rows := ((c_Insert ex_conn d.1 t rows).1, d.2, (c_Insert ex_conn d.1 t rows).2);
  c_DelayCompression d _ _ := (d, None);
  c_Decompress d _ _ := (d, None);
  c_MetricTable d m :=
    ((c_MetricTable (F:=F) ex_conn d.1 m).1, d.2, (c_MetricTable (F:=F) ex_conn d.1 m).2);
  c_Finalize d := (d, None);
  c_now _ := 0%Z;
|}.

Definition lossy_view : DbView (ex_state * list (series_key * Z)) := {|
  db_ids d := ex_ids (ex_series d.1);
  db_tables d := ex_tables d.1;
  db_has d t ts id := (t, ts, id) ∈ ex_rows d.1;
  db_lost d k id := (k, id) ∈ d.2;
|}.

Lemma lossy_conn_laws {F} : ConnLaws (lossy_conn (F:=F)) lossy_view.
Proof.
  destruct (ex_conn_laws (F:=F)) as [_ _ _ _ Hins Hhas _ _ _ _ Htab Hok Hnp].
  split; simpl; try done.
  - intros d qs d' br i q tbl id [= <- <-] Hq. simpl. intros [= <- <-]. split; [done|].
    apply elem_of_app. right. apply (list_elem_of_fmap_2 (λ q, (q, 7%Z))).
    by eapply list_elem_of_lookup_2.
  - intros d qs. split_and!; simpl; [done..|]. intros k id Hk. apply elem_of_app. by left.
  - by intros d qs d' br i m [= <- <-].
  - intros [d l] t rows. destruct (Hins d t rows) as (? & ? & ? & _). split_and!; [done..|by intros k id].
  - intros [d l] t rows. apply (Hhas d t rows).
  - intros [d l] m. destruct (Htab d m) as (? & ? & ? & _). split_and!; [done..|by intros k id].
  - intros [d l] m. apply (Hok d m).
  - intros [d l] m. apply (Hnp d m).
Qed.

(** Two calls: the first gets the error of the COMMIT, the second is acknowledged. *)
Definition lossy_acts : list (action (F:=Z)) :=
  [ACall ex_rows1; ASend 0; ABegin "up"; ATurn "up"; ATurn "up"; AWait 0;
   ACall [("up"%string, [MkInfo (ex_lset "a") (-1) [MkSample 5 100]%Z])];
   ASend 1; ATurn "up"; ATurn "up"; AReceive; AInsert 0; AWait 1].

Definition lossy_final : world :=
  match run lossy_conn false 1 lossy_acts (init (ex_db0, []) ex_names) with
  | Some (Ok w) => w
  | _ => init (ex_db0, []) ex_names
  end.

Lemma lossy_reachable : reachable lossy_conn false 1 (ex_db0, []) ex_names lossy_final.
Proof.
  eapply (run_reachable _ _ _ _ _ lossy_acts (init (ex_db0, []) ex_names)).
  - repeat constructor; try apply ex_lset_wf; simpl; lia || done.
  - apply reach_init.
  - unfold lossy_final.
    assert (match run lossy_conn false 1 lossy_acts (init (ex_db0, []) ex_names) with
            | Some (Ok _) => true | _ => false end = true) as Hok by (vm_compute; reflexivity).
    by destruct (run lossy_conn false 1 lossy_acts (init (ex_db0, []) ex_names)) as [[w| |]|].
Qed.

Lemma ack_means_stored_witness :
  (∃ f, w_frames ex_final !! 0 = Some f ∧ f_result f = Some (3, None) ∧
    ∀ m data, (m, data) ∈ f_rows f → ∃ table, db_tables ex_view (w_db ex_final) !! m = Some table ∧
      ∀ si x, si ∈ data → x ∈ samples si →
        ∃ id, db_ids ex_view (w_db ex_final) !! key_of (labels si) = Some id ∧
          db_has ex_view (w_db ex_final) table (s_Timestamp x) id) ∧
  (∃ f, w_frames lossy_final !! 1 = Some f ∧ f_result f = Some (1, None) ∧
    ex_series (w_db lossy_final).1 = ∅ ∧
    ∀ m data, (m, data) ∈ f_rows f → durable lossy_view (w_db lossy_final) m data).
Proof.
  split.
  - assert (f_result <$> w_frames ex_final !! 0 = Some (Some (3, None))) as Hf by (vm_compute; reflexivity).
    apply fmap_Some in Hf as (f & Hf & Hres). exists f. split; [exact Hf|]. split; [by symmetry|].
    apply (ack_means_stored ex_conn ex_view false 1 ex_db0 ex_names ex_final 0 f 3
      ex_conn_laws ex_coherent ex_reachable eq_refl Hf); [by symmetry|].
    by intros d qs d' br i [= <- <-].
  - assert (f_result <$> w_frames lossy_final !! 1 = Some (Some (1, None))) as Hf by (vm_compute; reflexivity).
    apply fmap_Some in Hf as (f & Hf & Hres). exists f. split; [exact Hf|]. split; [by symmetry|].
    split; [vm_compute; reflexivity|].
    apply (ack_means_stored lossy_conn lossy_view false 1 (ex_db0, []) ex_names lossy_final 1 f 1
      lossy_conn_laws); [|exact lossy_reachable|reflexivity|exact Hf|by symmetry].
    split; [apply Clock.inv_WithMax|]. simpl. by vm_compute.
Defined.

Lemma InsertData_returns_witness :
  ∃ w', run ex_conn false 1 [ASignal] ex_final = Some (Ok w') ∧ length [ASignal (F:=Z)] ≤ weight ex_final.
Proof.
  assert (w_signal ex_final = true) as Hs by (vm_compute; reflexivity).
  eexists. split; [cbn [run exec]; unfold complete_metric_creation; rewrite Hs; reflexivity|].
  eapply (InsertData_returns ex_conn ex_view false 1 ex_conn_laws ex_db0 ex_names ex_final
    ex_coherent ex_reachable); [lia|by repeat constructor|].
  cbn [run exec]. unfold complete_metric_creation. rewrite Hs. reflexivity.
Defined.

End Pipe.
