(* ===== verification/QueryBuilder.v ===== *)
(** * SQL queries for matchers

    [src/pkg/pgmodel/query_builder.go]: the clauses for label matchers and their
    numbered parameters, the query texts, the pushdown of [delta], and the
    conversions of timestamps.  [fmt.Sprintf] is modelled for the verb [%d] alone,
    the only one in the templates that are filled in this way; quoting of
    identifiers ([pgx.Identifier.Sanitize]) is a parameter. *)
From stdpp Require Import pretty.
From S2P Require Import Prelude Labels.

Module QB.
Import Lbl.
Open Scope string_scope.

(** ** Templates *)

Definition subQueryEQ : string := "labels && (SELECT COALESCE(array_agg(l.id), array[]::int[]) FROM _prom_catalog.label l WHERE l.key = $%d and l.value = $%d)".
Definition subQueryEQMatchEmpty : string := "NOT labels && (SELECT COALESCE(array_agg(l.id), array[]::int[]) FROM _prom_catalog.label l WHERE l.key = $%d and l.value != $%d)".
Definition subQueryNEQ : string := "labels && (SELECT COALESCE(array_agg(l.id), array[]::int[]) FROM _prom_catalog.label l WHERE l.key = $%d and l.value != $%d)".
Definition subQueryNEQMatchEmpty : string := "NOT labels && (SELECT COALESCE(array_agg(l.id), array[]::int[]) FROM _prom_catalog.label l WHERE l.key = $%d and l.value = $%d)".
Definition subQueryRE : string := "labels && (SELECT COALESCE(array_agg(l.id), array[]::int[]) FROM _prom_catalog.label l WHERE l.key = $%d and l.value ~ $%d)".
Definition subQueryREMatchEmpty : string := "NOT labels && (SELECT COALESCE(array_agg(l.id), array[]::int[]) FROM _prom_catalog.label l WHERE l.key = $%d and l.value !~ $%d)".
Definition subQueryNRE : string := "labels && (SELECT COALESCE(array_agg(l.id), array[]::int[]) FROM _prom_catalog.label l WHERE l.key = $%d and l.value !~ $%d)".
Definition subQueryNREMatchEmpty : string := "NOT labels && (SELECT COALESCE(array_agg(l.id), array[]::int[]) FROM _prom_catalog.label l WHERE l.key = $%d and l.value ~ $%d)".

(** [strings.Count(s, "%d")]: occurrences cannot overlap. *)
Fixpoint count_pct_d (s : string) : nat :=
  match s with
  | String "%" ((String "d" s') as _rest) => S (count_pct_d s')
  | String _ s' => count_pct_d s'
  | EmptyString => 0
  end.

(** [fmt.Sprintf] on a template whose only verb is [%d]. *)
Fixpoint sprintf_d (s : string) (args : list nat) : string :=
  match s with
  | EmptyString => ""
  | String "%" ((String "d" s') as rest) =>
      match args with
      | a :: args => pretty a ++ sprintf_d s' args
      | [] => "%!d(MISSING)" ++ sprintf_d s' []
      end
  | String c s' => String c (sprintf_d s' args)
  end.

(** The values the driver gets: text, times in milliseconds, durations in
    nanoseconds, integers. *)
Inductive sql_arg := AString (s : string) | ATime (ms : Z) | ADuration (ns : Z) | AInt (z : Z).

Definition fillInParameters (query : string) (existingArgs newArgs : list sql_arg)
    : res (string * list sql_arg) :=
  let argCountInClause := count_pct_d query in
  if negb (argCountInClause =? length newArgs)%nat
  then Err (Errorf "invalid number of args: in sql %d vs args %d")
  else
    let argIndexes := seq (length existingArgs + 1) argCountInClause in
    Ok (sprintf_d query argIndexes, (existingArgs ++ newArgs)%list).

Record clauseBuilder := MkCB { clauses : list string; args : list sql_arg }.

Definition addClause (c : clauseBuilder) (clause : string) (new : list sql_arg) : res clauseBuilder :=
  let* (clauseWithParameters, newArgs) := fillInParameters clause (args c) new in
  Ok (MkCB (clauses c ++ [clauseWithParameters])%list newArgs).

Definition build (c : clauseBuilder) : list string * list sql_arg := (clauses c, args c).

Fixpoint last_char (c : ascii) (s : string) : ascii :=
  match s with EmptyString => c | String c' s => last_char c' s end.

Definition anchorValue (str : string) : string :=
  match str with
  | EmptyString => "^$"
  | String c s =>
      let starts := Ascii.eqb c "^" in
      let ends := Ascii.eqb (last_char c s) "$" in
      if starts && ends then str
      else if starts then str ++ "$"
      else if ends then "^" ++ str
      else "^" ++ str ++ "$"
  end.

(** ** Clauses for matchers *)

(** The template and the second parameter for a matcher. *)
Definition matcher_clause (m : Matcher) : string * string :=
  let matchesEmpty := Matches m "" in
  match m_Type m with
  | MatchEqual => (if matchesEmpty then subQueryEQMatchEmpty else subQueryEQ, m_Value m)
  | MatchNotEqual => (if matchesEmpty then subQueryNEQMatchEmpty else subQueryNEQ, m_Value m)
  | MatchRegexp => (if matchesEmpty then subQueryREMatchEmpty else subQueryRE, anchorValue (m_Value m))
  | MatchNotRegexp => (if matchesEmpty then subQueryNREMatchEmpty else subQueryNRE, anchorValue (m_Value m))
  end.

Definition is_metric_matcher (m : Matcher) : bool :=
  match m_Type m with
  | MatchEqual => bool_decide (m_Name m = MetricNameLabelName)
  | _ => false
  end.

Fixpoint sub_queries_loop (metric : string) (metricMatcherCount : nat) (cb : clauseBuilder)
    (matchers : list Matcher) : res (string * nat * clauseBuilder) :=
  match matchers with
  | [] => Ok (metric, metricMatcherCount, cb)
  | m :: ms =>
      let '(metric, metricMatcherCount) :=
        if is_metric_matcher m then (m_Value m, S metricMatcherCount)
        else (metric, metricMatcherCount) in
      let '(sq, value) := matcher_clause m in
      let* cb := addClause cb sq [AString (m_Name m); AString value] in
      sub_queries_loop metric metricMatcherCount cb ms
  end.

(** The code returns the clauses together with the error "no clauses generated";
    its only caller drops them then. *)
Definition buildSubQueries (matchers : list Matcher) : res (string * list string * list sql_arg) :=
  let* (metric, metricMatcherCount, cb) := sub_queries_loop "" 0 (MkCB [] []) matchers in
  let metric := if (1 <? metricMatcherCount)%nat then "" else metric in
  let '(clauses, values) := build cb in
  match clauses with
  | [] => Err (Errorf "no clauses generated")
  | _ => Ok (metric, clauses, values)
  end.

(** ** Query texts *)

Fixpoint str_join (sep : string) (l : list string) : string :=
  match l with
  | [] => ""
  | [s] => s
  | s :: l => s ++ sep ++ str_join sep l
  end.

Definition nl : string := String "010" "".
Definition tab : string := String "009" "".
Definition quote1 : string := String "039" "".

Definition buildMetricNameSeriesIDQuery (cases : list string) : string :=
  "SELECT m.metric_name, array_agg(s.id)" ++ nl ++ tab ++
  "FROM _prom_catalog.series s" ++ nl ++ tab ++
  "INNER JOIN _prom_catalog.metric m" ++ nl ++ tab ++
  "ON (m.id = s.metric_id)" ++ nl ++ tab ++
  "WHERE " ++ str_join " AND " cases ++ nl ++ tab ++
  "GROUP BY m.metric_name" ++ nl ++ tab ++
  "ORDER BY m.metric_name".

Record metricTimeRangeFilter := MkFilter { metric : string; startTime : string; endTime : string }.

Section texts.
Context (Sanitize : list string → string).

Definition dataSchema : string := "prom_data".
Definition dataSeriesSchema : string := "prom_data_series".

(** The lines after WHERE that the two time series queries share. *)
Definition time_range (filter : metricTimeRangeFilter) : string :=
  nl ++ tab ++ "AND time >= " ++ quote1 ++ startTime filter ++ quote1 ++
  nl ++ tab ++ "AND time <= " ++ quote1 ++ endTime filter ++ quote1 ++
  nl ++ tab ++ "GROUP BY s.id".

Definition from_tables (filter : metricTimeRangeFilter) : string :=
  nl ++ tab ++ "FROM " ++ Sanitize [dataSchema; metric filter] ++ " m" ++
  nl ++ tab ++ "INNER JOIN " ++ Sanitize [dataSeriesSchema; metric filter] ++ " s" ++
  nl ++ tab ++ "ON m.series_id = s.id" ++ nl ++ tab.

Definition buildTimeseriesBySeriesIDQuery (filter : metricTimeRangeFilter) (series : list Z) : string :=
  "SELECT s.labels, array_agg(m.time ORDER BY time), array_agg(m.value ORDER BY time)" ++
  from_tables filter ++ "WHERE m.series_id IN (" ++ str_join "," (pretty <$> series) ++ ")" ++
  time_range filter.

(** ** The pushdown of delta *)

(** The nodes of the query's syntax tree, as far as this code looks at them. *)
Inductive Node := NCall (fname : string) | NSubqueryExpr | NOther.

Record SelectHints := MkHints { h_Start : Z; h_End : Z; h_Step : Z; h_Range : Z }.

Definition hasSubquery (path : list Node) : bool :=
  existsb (λ n, match n with NSubqueryExpr => true | _ => false end) path.

Record queryFinalizer := MkQF {
  timeClause : string; timeParams : list sql_arg;
  valueClause : string; valueParams : list sql_arg;
  restOfQuery : string; restOfQueryParams : list sql_arg;
}.

Definition Finalize (t : queryFinalizer) : res (string * list sql_arg) :=
  let fullQuery := "SELECT s.labels, " ++ timeClause t ++ ", " ++ valueClause t ++ restOfQuery t in
  let newParams := (timeParams t ++ valueParams t)%list in
  fillInParameters fullQuery (restOfQueryParams t) newParams.

Definition default_finalizer (otherClauses : string) (values : list sql_arg) : queryFinalizer :=
  MkQF "array_agg(m.time ORDER BY time) as time_array" []
    "array_agg(m.value ORDER BY time)" [] otherClauses values.

(** A nil path is the empty list; [ExtensionIsInstalled] is the package variable. *)
Definition getQueryFinalizer (ExtensionIsInstalled : bool) (otherClauses : string)
    (values : list sql_arg) (hints : option SelectHints) (path : list Node)
    : res (queryFinalizer * option Node) :=
  let no_pushdown := Ok (default_finalizer otherClauses values, None) in
  match hints with
  | None => no_pushdown
  | Some hints =>
      if ExtensionIsInstalled && (2 <=? length path)%nat && negb (hasSubquery path) then
        match path !! (length path - 2)%nat with
        | Some (NCall fname) =>
            if bool_decide (fname = "delta") then
              let queryStart := wrap64 (h_Start hints + h_Range hints) in
              let queryEnd := h_End hints in
              let rangeDuration := wrap64 (h_Range hints * 1000000) in
              if (0 <? h_Step hints)%Z || (queryStart =? queryEnd)%Z then
                let stepDuration :=
                  if (0 <? h_Step hints)%Z then wrap64 (h_Step hints * 1000000) else 1000000000%Z in
                Ok (MkQF "ARRAY(SELECT generate_series($%d::timestamptz, $%d::timestamptz, $%d))"
                      [ATime queryStart; ATime queryEnd; ADuration stepDuration]
                      "prom_delta($%d, $%d,$%d, $%d, time, value ORDER BY time ASC)"
                      [ATime (h_Start hints); ATime queryEnd; AInt (Z.quot stepDuration 1000000);
                       AInt (Z.quot rangeDuration 1000000)]
                      otherClauses values,
                    Some (NCall fname))
              else Panic "query start should equal query end"
            else no_pushdown
        | _ => no_pushdown
        end
      else no_pushdown
  end.

Definition buildTimeseriesByLabelClausesQuery (ExtensionIsInstalled : bool)
    (filter : metricTimeRangeFilter) (cases : list string) (values : list sql_arg)
    (hints : option SelectHints) (path : list Node) : res (string * list sql_arg * option Node) :=
  let restOfQuery := from_tables filter ++ "WHERE " ++ str_join " AND " cases ++ time_range filter in
  let* (qf, node) := getQueryFinalizer ExtensionIsInstalled restOfQuery values hints path in
  let* (query, newValues) := Finalize qf in
  Ok (query, newValues, node).

End texts.

(** ** Timestamps *)

(** [t.UnixNano()] is the exact nanosecond count reduced to [int64]. *)
Definition toMilis (unix_nanos : Z) : Z := Z.quot (wrap64 unix_nanos) 1000000.

Definition minTime : Z := ((Z.quot min_int64 1000 + 62135596801) * 1000)%Z.
Definition maxTime : Z := ((Z.quot max_int64 1000 - 62135596801) * 1000 + 999)%Z.

(** The proleptic Gregorian date of a day counted from 1970-01-01. *)
Definition civil_from_days (days : Z) : Z * Z * Z :=
  (let z := days + 719468 in
   let era := z / 146097 in
   let doe := z mod 146097 in
   let yoe := (doe - doe / 1460 + doe / 36524 - doe / 146096) / 365 in
   let doy := doe - (365 * yoe + yoe / 4 - yoe / 100) in
   let mp := (5 * doy + 2) / 153 in
   let d := doy - (153 * mp + 2) / 5 + 1 in
   let m := if mp <? 10 then mp + 3 else mp - 9 in
   (yoe + era * 400 + (if m <=? 2 then 1 else 0), m, d))%Z.

(** [n] in decimal with at least [w] digits. *)
Definition pad (w : nat) (n : Z) : string :=
  let s := pretty (Z.abs n) in
  (if (n <? 0)%Z then "-" else "") ++
  String.concat "" (replicate (w - String.length s) "0") ++ s.

(** The fraction of a second of [RFC3339Nano]: trailing zeros are dropped. *)
Definition fraction (milli : Z) : string :=
  if (milli =? 0)%Z then ""
  else if (milli mod 100 =? 0)%Z then "." ++ pad 1 (milli / 100)
  else if (milli mod 10 =? 0)%Z then "." ++ pad 2 (milli / 10)
  else "." ++ pad 3 milli.

Definition format_rfc3339 (y mo d h mi sec milli : Z) : string :=
  pad 4 y ++ "-" ++ pad 2 mo ++ "-" ++ pad 2 d ++ "T" ++
  pad 2 h ++ ":" ++ pad 2 mi ++ ":" ++ pad 2 sec ++ fraction milli ++ "Z".

(** [time.Unix(sec, nsec)] normalises: the instant is the one of [milliseconds]. *)
Definition toRFC3339Nano (milliseconds : Z) : string :=
  if (milliseconds =? minTime)%Z then "-Infinity"
  else if (milliseconds =? maxTime)%Z then "Infinity"
  else
    let sec := Z.quot milliseconds 1000 in
    let nsec := ((milliseconds - sec * 1000) * 1000000)%Z in
    let unix := (sec + nsec / 1000000000)%Z in
    let '(y, mo, d) := civil_from_days (unix / 86400) in
    let sod := (unix mod 86400)%Z in
    format_rfc3339 y mo d (sod / 3600) ((sod / 60) mod 60) (sod mod 60)
      ((nsec mod 1000000000) / 1000000).

(** ** Specification *)

(** A clause of the query: labels of the series overlap, or do not, with the
    labels of the key whose value stands in the given relation to the parameter. *)
Inductive cmp := CEq | CNe | CRe | CNre.
Definition cmp_text (c : cmp) : string :=
  match c with CEq => "=" | CNe => "!=" | CRe => "~" | CNre => "!~" end.
Definition template (neg : bool) (c : cmp) : string :=
  (if neg then "NOT " else "") ++
  "labels && (SELECT COALESCE(array_agg(l.id), array[]::int[]) FROM _prom_catalog.label l WHERE l.key = $%d and l.value "
  ++ cmp_text c ++ " $%d)".

Section semantics.
(** PostgreSQL's regular expression match: pattern, then text. *)
Context (pg_match : string → string → bool).

Definition cmp_holds (c : cmp) (v x : string) : bool :=
  match c with
  | CEq => bool_decide (x = v)
  | CNe => negb (bool_decide (x = v))
  | CRe => pg_match v x
  | CNre => negb (pg_match v x)
  end.

(** The labels of a series. *)
Definition clause_holds (neg : bool) (c : cmp) (k v : string) (ls : list Label) : bool :=
  xorb neg (existsb (λ l, bool_decide (Name l = k) && cmp_holds c v (Value l)) ls).

(** The value of a label of the series. *)
Fixpoint label_value (ls : list Label) (k : string) : option string :=
  match ls with
  | [] => None
  | l :: ls => if bool_decide (Name l = k) then Some (Value l) else label_value ls k
  end.

Definition ends_with_dollar (s : string) : bool :=
  bool_decide (last (String.list_ascii_of_string s) = Some "$"%char).

(** The pattern with an anchor at each end that has none. *)
Definition anchored (s : string) : string :=
  (if String.prefix "^" s then "" else "^") ++ s ++ (if ends_with_dollar s then "" else "$").

(** The series a matcher selects in the database: the value of its label compares to the
    value of the matcher, or matches PostgreSQL's reading of the anchored pattern; a
    series without the label is selected when the matcher matches the empty string. *)
Definition selects (m : Matcher) (ls : list Label) : bool :=
  match label_value ls (m_Name m) with
  | None => Matches m ""
  | Some x =>
      match m_Type m with
      | MatchEqual => bool_decide (x = m_Value m)
      | MatchNotEqual => negb (bool_decide (x = m_Value m))
      | MatchRegexp => pg_match (anchored (m_Value m)) x
      | MatchNotRegexp => negb (pg_match (anchored (m_Value m)) x)
      end
  end.

(** A clause text with its parameters denotes the matcher: read with the
    arguments its placeholders point to, it holds exactly of the series the
    matcher selects. *)
Definition denotes (args : list sql_arg) (text : string) (m : Matcher) : Prop :=
  ∃ neg c i j k v, text = sprintf_d (template neg c) [i; j] ∧
    args !! (i - 1)%nat = Some (AString k) ∧ args !! (j - 1)%nat = Some (AString v) ∧
    ∀ ls, NoDup (Name <$> ls) → clause_holds neg c k v ls = selects m ls.

(** ** Lemmas *)

Lemma existsb_label (P : string → bool) k ls :
  NoDup (Name <$> ls) →
  existsb (λ l, bool_decide (Name l = k) && P (Value l)) ls = from_option P false (label_value ls k).
Proof.
  induction ls as [|l ls IH]; intros Hnd; simpl; [done|].
  apply NoDup_cons in Hnd as [Hni Hnd]. rewrite IH by done. case_bool_decide as Hk; [|done]. subst k. simpl.
  assert (label_value ls (Name l) = None) as ->; [|apply orb_false_r].
  clear -Hni. induction ls as [|l' ls IH]; [done|]. simpl.
  rewrite bool_decide_false; [apply IH; set_solver|]. intros He. apply Hni. rewrite <-He. left.
Qed.

Lemma last_char_last c s : last (c :: String.list_ascii_of_string s) = Some (last_char c s).
Proof. revert c. induction s as [|c' s IH]; intros c; [done|]. cbn [String.list_ascii_of_string last_char]. by rewrite <-IH. Qed.

Lemma anchorValue_anchored s : anchorValue s = anchored s.
Proof.
  destruct s as [|c s]; [done|]. unfold anchorValue, anchored, ends_with_dollar.
  cbn [String.list_ascii_of_string]. rewrite last_char_last.
  assert (String.prefix "^" (String c s) = Ascii.eqb c "^") as ->.
  { cbn [String.prefix]. destruct (Ascii.ascii_dec "^" c) as [<-|Hc]; [by destruct s|].
    symmetry. apply Ascii.eqb_neq. by intros ->. }
  assert (bool_decide (Some (last_char c s) = Some "$"%char) = Ascii.eqb (last_char c s) "$") as ->.
  { destruct (Ascii.eqb_spec (last_char c s) "$") as [->|Hn]; [by rewrite bool_decide_true|].
    rewrite bool_decide_false; [done|]. by intros [= ?]. }
  destruct (Ascii.eqb c "^"), (Ascii.eqb (last_char c s) "$"); cbn [andb]; rewrite ?string_app_nil_r; done.
Qed.

Definition matcher_cmp (m : Matcher) : cmp :=
  match m_Type m, Matches m "" with
  | MatchEqual, false | MatchNotEqual, true => CEq
  | MatchEqual, true | MatchNotEqual, false => CNe
  | MatchRegexp, false | MatchNotRegexp, true => CRe
  | MatchRegexp, true | MatchNotRegexp, false => CNre
  end.

Lemma matcher_clause_template m :
  (matcher_clause m).1 = template (Matches m "") (matcher_cmp m).
Proof. unfold matcher_clause, matcher_cmp. by destruct (m_Type m), (Matches m ""). Qed.

Lemma matcher_clause_holds m ls :
  NoDup (Name <$> ls) →
  clause_holds (Matches m "") (matcher_cmp m) (m_Name m) (matcher_clause m).2 ls = selects m ls.
Proof.
  intros Hnd. unfold clause_holds, selects. rewrite (existsb_label (cmp_holds _ _)) by done.
  unfold matcher_cmp, matcher_clause. destruct (label_value ls (m_Name m)) as [x|]; cbn [from_option].
  - rewrite <-anchorValue_anchored. destruct (m_Type m), (Matches m ""); simpl;
      generalize (pg_match (anchorValue (m_Value m)) x), (bool_decide (x = m_Value m)); by intros [] [].
  - by rewrite xorb_false_r.
Qed.

(** Where the matcher compares as its type says, and PostgreSQL reads its anchored
    pattern as the matcher does, the selected series are those whose label value, empty
    when absent, matches. *)
Lemma selects_matches m ls :
  (∀ x, Matches m x = match m_Type m with
    | MatchEqual => bool_decide (x = m_Value m)
    | MatchNotEqual => negb (bool_decide (x = m_Value m))
    | MatchRegexp => pg_match (anchored (m_Value m)) x
    | MatchNotRegexp => negb (pg_match (anchored (m_Value m)) x)
    end) →
  selects m ls = Matches m (default "" (label_value ls (m_Name m))).
Proof. intros Hm. unfold selects. destruct (label_value ls (m_Name m)) as [x|]; [|done]. by rewrite Hm. Qed.

Lemma template_fill neg c existing k v :
  fillInParameters (template neg c) existing [AString k; AString v] =
    Ok (sprintf_d (template neg c) [S (length existing); S (S (length existing))],
        (existing ++ [AString k; AString v])%list).
Proof.
  unfold fillInParameters. replace (count_pct_d (template neg c)) with 2 by by destruct neg, c.
  cbn [Nat.eqb length negb seq]. by rewrite !Nat.add_1_r.
Qed.

(** The clause builder after the loop. *)
Lemma sub_queries_loop_ok ms metric n cb :
  ∃ metric' n', sub_queries_loop metric n cb ms =
    Ok (metric', n',
        MkCB (clauses cb ++ imap (λ i m, sprintf_d (matcher_clause m).1
                [S (length (args cb) + 2 * i); S (S (length (args cb) + 2 * i))]%nat) ms)
             (args cb ++ concat ((λ m, [AString (m_Name m); AString (matcher_clause m).2]) <$> ms)))%list ∧
    n' = (n + length (List.filter is_metric_matcher ms))%nat ∧
    metric' = default metric (m_Value <$> last (List.filter is_metric_matcher ms)).
Proof.
  revert metric n cb. induction ms as [|m ms IH]; intros metric n cb.
  { exists metric, n. simpl. rewrite !app_nil_r, Nat.add_0_r. by destruct cb. }
  cbn [sub_queries_loop]. pose proof (matcher_clause_template m) as Ht.
  destruct (matcher_clause m) as [sq value] eqn:Hmc. simpl in Ht. subst sq.
  set (p := if is_metric_matcher m then _ else _). destruct p as [metric1 n1] eqn:Hp.
  unfold addClause. rewrite template_fill. cbn [res_bind].
  destruct (IH metric1 n1 (MkCB (clauses cb ++ [sprintf_d (template (Matches m "") (matcher_cmp m))
    [S (length (args cb)); S (S (length (args cb)))]])
    (args cb ++ [AString (m_Name m); AString value])))%list as (metric' & n' & -> & -> & ->).
  eexists _, _. split; [|split].
  - do 2 f_equal. cbn [clauses args]. rewrite imap_cons, fmap_cons, Hmc. cbn [concat fst snd].
    rewrite <-!(assoc_L (++)%list), length_app. f_equal.
    + simpl. rewrite Nat.add_0_r. do 2 f_equal. apply imap_ext. intros i x _. simpl.
      do 2 f_equal; [lia|]. f_equal. lia.
  - unfold p in Hp. simpl. destruct (is_metric_matcher m); simplify_eq; simpl; lia.
  - unfold p in Hp. simpl. destruct (is_metric_matcher m); simplify_eq; [|done].
    destruct (List.filter is_metric_matcher ms) as [|x l] eqn:Hf; [done|].
    change (last (m :: x :: l)) with (last (x :: l)).
    by destruct (last (x :: l)) eqn:E; [|apply last_None in E].
Qed.

Lemma concat_pairs_lookup {A B} (f g : A → B) (l : list A) i x :
  l !! i = Some x →
  concat ((λ a, [f a; g a]) <$> l) !! (2 * i)%nat = Some (f x) ∧
  concat ((λ a, [f a; g a]) <$> l) !! S (2 * i)%nat = Some (g x).
Proof.
  revert i. induction l as [|a l IH]; intros [|i] Hi; [done..|by injection Hi as ->|].
  destruct (IH i Hi) as [H1 H2]. rewrite fmap_cons. cbn [concat app].
  replace (2 * S i)%nat with (S (S (2 * i))) by lia. split; [exact H1|exact H2].
Qed.

(** C30. The SQL that [buildSubQueries] makes for a list of matchers is right: there
    is one clause per matcher, in order; read with the arguments its numbered
    placeholders point to, each clause holds exactly of the series its matcher
    [selects]: those whose label compares to the value of the matcher or matches, for
    PostgreSQL, its anchored pattern, and those without the label when the matcher
    matches the empty string; a single metric is named only when exactly one equality
    matcher fixes it.  PostgreSQL and the library may read a pattern differently, see
    [anchor_does_not_group_alternatives]. *)
Theorem buildSubQueries_denotes ms metric cls values :
  buildSubQueries ms = Ok (metric, cls, values) →
  Forall2 (denotes values) cls ms ∧ length values = (2 * length ms)%nat ∧
  (metric ≠ "" → ∃ m, List.filter is_metric_matcher ms = [m] ∧ m_Value m = metric).
Proof.
  unfold buildSubQueries.
  destruct (sub_queries_loop_ok ms "" 0 (MkCB [] [])) as (metric' & n' & -> & -> & ->). simpl.
  destruct (imap _ ms) as [|c0 cs0] eqn:Hcls; [done|]. rewrite <-Hcls. intros [= <- <- <-].
  split; [|split].
  - apply Forall2_same_length_lookup. split; [by rewrite length_imap|].
    intros i text m Ht Hm. rewrite list_lookup_imap, Hm in Ht. simpl in Ht. injection Ht as <-.
    rewrite matcher_clause_template.
    exists (Matches m ""), (matcher_cmp m), (S (2 * i)), (S (S (2 * i))), (m_Name m), (matcher_clause m).2.
    destruct (concat_pairs_lookup (λ m, AString (m_Name m)) (λ m, AString (matcher_clause m).2) ms i m Hm)
      as [H1 H2].
    split; [done|]. split; [by rewrite Nat.sub_1_r|]. split; [by rewrite Nat.sub_1_r|].
    intros ls Hnd. by apply matcher_clause_holds.
  - clear. induction ms as [|m ms IH]; [done|]. rewrite fmap_cons. cbn [concat app length]. lia.
  - destruct (List.filter is_metric_matcher ms) as [|m [|m' l]]; simpl; try done. intros _. by exists m.
Qed.

End semantics.

(** ** The pushdown *)

Lemma Finalize_default other values :
  count_pct_d other = 0 →
  ∃ q, Finalize (default_finalizer other values) = Ok (q, values).
Proof.
  intros Hc. unfold Finalize, fillInParameters.
  assert (count_pct_d ("SELECT s.labels, " ++ timeClause (default_finalizer other values) ++ ", " ++
    valueClause (default_finalizer other values) ++ restOfQuery (default_finalizer other values)) =
    count_pct_d other) as -> by reflexivity.
  rewrite Hc. simpl. rewrite app_nil_r. eauto.
Qed.

Lemma Finalize_pushdown other values p1 p2 p3 p4 p5 p6 p7 :
  count_pct_d other = 0 →
  ∃ q, Finalize (MkQF "ARRAY(SELECT generate_series($%d::timestamptz, $%d::timestamptz, $%d))" [p1; p2; p3]
         "prom_delta($%d, $%d,$%d, $%d, time, value ORDER BY time ASC)" [p4; p5; p6; p7] other values) =
    Ok (q, (values ++ [p1; p2; p3; p4; p5; p6; p7])%list).
Proof.
  intros Hc. unfold Finalize, fillInParameters. cbn [timeClause valueClause restOfQuery timeParams valueParams restOfQueryParams].
  assert (count_pct_d ("SELECT s.labels, " ++ "ARRAY(SELECT generate_series($%d::timestamptz, $%d::timestamptz, $%d))"
    ++ ", " ++ "prom_delta($%d, $%d,$%d, $%d, time, value ORDER BY time ASC)" ++ other) =
    (7 + count_pct_d other)%nat) as -> by reflexivity.
  rewrite Hc. simpl. eauto.
Qed.

(** The conditions for pushing [delta] into the database. *)
Definition pushes_down (ExtensionIsInstalled : bool) (hints : option SelectHints) (path : list Node) : Prop :=
  ExtensionIsInstalled = true ∧ is_Some hints ∧ (2 ≤ length path)%nat ∧ hasSubquery path = false ∧
  path !! (length path - 2)%nat = Some (NCall "delta").

(** [delta] is pushed down exactly when the extension is installed, there are
    hints, the selector's grandparent call is [delta] and no subquery is on the
    path; then the query samples from the start of the first window to the end
    with the step of the query, and its seven parameters follow those of the
    label clauses; otherwise the plain query keeps the parameters.  The panic is
    reached only by an instant query whose window does not end at its time. *)
Theorem getQueryFinalizer_spec ext other values hints path :
  count_pct_d other = 0 →
  match getQueryFinalizer ext other values hints path with
  | Panic _ => pushes_down ext hints path ∧
      ∃ h, hints = Some h ∧ (h_Step h ≤ 0)%Z ∧ wrap64 (h_Start h + h_Range h) ≠ h_End h
  | Err _ => False
  | Ok (qf, None) => ¬ pushes_down ext hints path ∧ ∃ q, Finalize qf = Ok (q, values)
  | Ok (qf, Some node) => pushes_down ext hints path ∧ node = NCall "delta" ∧
      ∃ h q rest, hints = Some h ∧ Finalize qf =
        Ok (q, (values ++ [ATime (wrap64 (h_Start h + h_Range h)); ATime (h_End h)] ++ rest)%list) ∧
        length rest = 5%nat
  end.
Proof.
  intros Hc. unfold getQueryFinalizer. pose proof (Finalize_default other values Hc) as Hdef.
  destruct hints as [h|].
  2:{ split; [intros (_ & [? ?] & _); done|done]. }
  destruct ext; cbn [andb]; [|split; [by intros (? & _)|done]].
  destruct (Nat.leb_spec 2 (length path)) as [Hlen|Hlen].
  2:{ split; [intros (_ & _ & ? & _); lia|done]. }
  cbn [andb]. destruct (hasSubquery path) eqn:Hsub; cbn [negb].
  { split; [intros (_ & _ & _ & ? & _); congruence|done]. }
  destruct (path !! (length path - 2)%nat) as [[fname| |]|] eqn:Hp;
    try (split; [intros (_ & _ & _ & _ & ?); congruence|done]).
  case_bool_decide as Hf; [subst fname|split; [intros (_ & _ & _ & _ & ?); congruence|done]].
  assert (pushes_down true (Some h) path) as Hpd by (split_and!; eauto).
  destruct (Z.ltb_spec 0 (h_Step h)); cbn [orb]; [|destruct (Z.eqb_spec (wrap64 (h_Start h + h_Range h)) (h_End h))].
  - split; [done|]. split; [done|].
    match goal with |- context [Finalize (MkQF _ [?a; ?b; ?c] _ [?d; ?e; ?f; ?g] _ _)] =>
      destruct (Finalize_pushdown other values a b c d e f g Hc) as [q Hq] end.
    eexists h, q, _. split; [done|]. split; [exact Hq|done].
  - split; [done|]. split; [done|].
    match goal with |- context [Finalize (MkQF _ [?a; ?b; ?c] _ [?d; ?e; ?f; ?g] _ _)] =>
      destruct (Finalize_pushdown other values a b c d e f g Hc) as [q Hq] end.
    eexists h, q, _. split; [done|]. split; [exact Hq|done].
  - split; [done|]. exists h. split_and!; [done|lia|done].
Qed.

Lemma getQueryFinalizer_spec_witness :
  count_pct_d " FROM t" = 0 ∧
  match getQueryFinalizer true " FROM t" [AString "a"] (Some (MkHints 1000 9000 1000 300000))
          [NOther; NCall "delta"; NOther] with
  | Ok (qf, Some node) => node = NCall "delta"
  | _ => False
  end.
Proof.
  split; [reflexivity|].
  pose proof (getQueryFinalizer_spec true " FROM t" [AString "a"] (Some (MkHints 1000 9000 1000 300000))
    [NOther; NCall "delta"; NOther] eq_refl) as H.
  destruct (getQueryFinalizer _ _ _ _ _) as [[qf [node|]]|e|m] eqn:E;
    [apply H|vm_compute in E; discriminate..].
Defined.

(** ** The calendar *)

Definition days_from_civil (y m d : Z) : Z :=
  (let y := if m <=? 2 then y - 1 else y in
   let era := y / 400 in
   let yoe := y mod 400 in
   let mp := if m <=? 2 then m + 9 else m - 3 in
   let doy := (153 * mp + 2) / 5 + d - 1 in
   let doe := yoe * 365 + yoe / 4 - yoe / 100 + doy in
   era * 146097 + doe - 719468)%Z.

(** The year and day inside an era of 400 years. *)
Lemma era_bounds doe yoe doy :
  (0 ≤ doe < 146097 → yoe = (doe - doe / 1460 + doe / 36524 - doe / 146096) / 365 →
   doy = doe - (365 * yoe + yoe / 4 - yoe / 100) → 0 ≤ yoe < 400 ∧ 0 ≤ doy ≤ 365)%Z.
Proof. intros. Z.to_euclidean_division_equations. lia. Qed.

Lemma month_bounds doy mp :
  (0 ≤ doy ≤ 365 → mp = (5 * doy + 2) / 153 →
   0 ≤ mp ≤ 11 ∧ 1 ≤ doy - (153 * mp + 2) / 5 + 1 ≤ 31)%Z.
Proof. intros. Z.to_euclidean_division_equations. lia. Qed.

Lemma civil_roundtrip days y m d :
  civil_from_days days = (y, m, d) →
  days_from_civil y m d = days ∧ (1 ≤ m ≤ 12)%Z ∧ (1 ≤ d ≤ 31)%Z.
Proof.
  unfold civil_from_days. cbv zeta.
  set (era := ((days + 719468) / 146097)%Z). set (doe := ((days + 719468) mod 146097)%Z).
  set (yoe := ((doe - doe / 1460 + doe / 36524 - doe / 146096) / 365)%Z).
  set (doy := (doe - (365 * yoe + yoe / 4 - yoe / 100))%Z). set (mp := ((5 * doy + 2) / 153)%Z).
  pose proof (Z.mod_pos_bound (days + 719468) 146097 ltac:(lia)) as Hb. fold doe in Hb.
  pose proof (Z.div_mod (days + 719468) 146097 ltac:(lia)) as Hdm. fold era doe in Hdm.
  destruct (era_bounds doe yoe doy Hb eq_refl eq_refl) as [Hyoe Hdoy].
  destruct (month_bounds doy mp Hdoy eq_refl) as [Hmp Hd].
  assert (doe = 365 * yoe + yoe / 4 - yoe / 100 + doy)%Z as Hdoe by (unfold doy; lia).
  intros [= <- <- <-]. unfold days_from_civil. cbv zeta.
  set (m := (if (mp <? 10)%Z then mp + 3 else mp - 9)%Z).
  assert ((if (m <=? 2)%Z then yoe + era * 400 + (if (m <=? 2)%Z then 1 else 0) - 1
           else yoe + era * 400 + (if (m <=? 2)%Z then 1 else 0)) = yoe + era * 400)%Z as Hy
    by (destruct (m <=? 2)%Z; lia).
  assert ((if (m <=? 2)%Z then m + 9 else m - 3) = mp)%Z as Hm.
  { unfold m. destruct (Z.ltb_spec mp 10).
    - destruct (Z.leb_spec (mp + 3) 2); lia.
    - destruct (Z.leb_spec (mp - 9) 2); lia. }
  rewrite Hy, Hm, Z.div_add, Z.mod_add, (Z.div_small yoe), (Z.mod_small yoe) by lia.
  split; [lia|]. split; [|lia]. unfold m. destruct (Z.ltb_spec mp 10); lia.
Qed.

(** The timestamp text of a query names exactly the instant it was made from:
    its date and time of day, in UTC, are in range and add up to the
    milliseconds, and only the two sentinels become infinities. *)
Theorem toRFC3339Nano_spec ms :
  ms ≠ minTime → ms ≠ maxTime →
  ∃ y mo d h mi s milli, toRFC3339Nano ms = format_rfc3339 y mo d h mi s milli ∧
    (ms = (((days_from_civil y mo d * 24 + h) * 60 + mi) * 60 + s) * 1000 + milli ∧
     1 ≤ mo ≤ 12 ∧ 1 ≤ d ≤ 31 ∧ 0 ≤ h < 24 ∧ 0 ≤ mi < 60 ∧ 0 ≤ s < 60 ∧ 0 ≤ milli < 1000)%Z.
Proof.
  intros Hmin Hmax. unfold toRFC3339Nano.
  destruct (Z.eqb_spec ms minTime) as [|_]; [done|]. destruct (Z.eqb_spec ms maxTime) as [|_]; [done|].
  set (sec := Z.quot ms 1000). set (nsec := ((ms - sec * 1000) * 1000000)%Z).
  set (unix := (sec + nsec / 1000000000)%Z).
  destruct (civil_from_days (unix / 86400)) as [[y mo] d] eqn:Hc.
  apply civil_roundtrip in Hc as (Hdays & Hmo & Hd).
  eexists _, _, _, _, _, _, _. split; [reflexivity|]. rewrite Hdays.
  assert (unix * 1000 + nsec mod 1000000000 / 1000000 = ms ∧
          0 ≤ nsec mod 1000000000 / 1000000 < 1000)%Z as [Hms Hmilli].
  { unfold unix. assert (nsec = (ms - sec * 1000) * 1000000)%Z as -> by done.
    replace 1000000000%Z with (1000 * 1000000)%Z by lia.
    rewrite Z.div_mul_cancel_r, Z.mul_mod_distr_r, Z.div_mul by lia.
    pose proof (Z.div_mod (ms - sec * 1000) 1000 ltac:(lia)) as Hdm.
    pose proof (Z.mod_pos_bound (ms - sec * 1000) 1000 ltac:(lia)). lia. }
  set (sod := (unix mod 86400)%Z).
  pose proof (Z.mod_pos_bound unix 86400 ltac:(lia)) as Hsod. fold sod in Hsod.
  pose proof (Z.div_mod unix 86400 ltac:(lia)) as Hu. fold sod in Hu.
  assert (sod / 60 / 60 = sod / 3600)%Z as Hh by (rewrite Z.div_div by lia; done).
  pose proof (Z.div_mod sod 60 ltac:(lia)) as H1. pose proof (Z.div_mod (sod / 60) 60 ltac:(lia)) as H2.
  pose proof (Z.mod_pos_bound sod 60 ltac:(lia)). pose proof (Z.mod_pos_bound (sod / 60) 60 ltac:(lia)).
  rewrite <-Hh in *. split; [lia|]. repeat split; try lia.
Qed.

(** Reading a timestamp back gives the milliseconds it was written with, as
    long as its nanoseconds fit an [int64]. *)
Theorem toMilis_roundtrip ms :
  in_int64 (ms * 1000000) → toMilis (ms * 1000000) = ms.
Proof. intros Hr. unfold toMilis. rewrite wrap64_id by done. apply Z.quot_mul. lia. Qed.

Lemma toMilis_roundtrip_witness : toMilis (1595000000123 * 1000000) = 1595000000123%Z.
Proof. apply (toMilis_roundtrip 1595000000123). unfold in_int64, min_int64, max_int64. lia. Defined.

(** After the year 2262 the nanoseconds overflow: the instant 2300-01-01 reads as a
    date before 1970. *)
Example toMilis_overflows : toMilis (10413792000000 * 1000000) = (-8032952073709)%Z.
Proof. vm_compute. reflexivity. Qed.

Lemma toRFC3339Nano_spec_witness :
  toRFC3339Nano (-1) = "1969-12-31T23:59:59.999Z" ∧
  ∃ y mo d h mi s milli, toRFC3339Nano (-1) = format_rfc3339 y mo d h mi s milli ∧ (0 ≤ milli < 1000)%Z.
Proof.
  split; [vm_compute; reflexivity|].
  destruct (toRFC3339Nano_spec (-1)) as (y & mo & d & h & mi & s & milli & Ht & Hr);
    [vm_compute; discriminate..|].
  exists y, mo, d, h, mi, s, milli. split; [exact Ht|]. apply Hr.
Defined.

Example rfc3339_examples :
  toRFC3339Nano 0 = "1970-01-01T00:00:00Z" ∧ toRFC3339Nano 951782400500 = "2000-02-29T00:00:00.5Z" ∧
  toRFC3339Nano maxTime = "Infinity".
Proof. vm_compute. done. Qed.

(** ** Concrete matchers *)

(** An exact match of the pattern's text, for the runs below. *)
Definition ex_match (re s : string) : bool := bool_decide (re = "^" ++ s ++ "$").

Definition ex_matchers : list Matcher :=
  [MkMatcher MatchEqual "__name__" "up" (λ s, bool_decide (s = "up"));
   MkMatcher MatchNotEqual "job" "a" (λ s, negb (bool_decide (s = "a")));
   MkMatcher MatchRegexp "env" "prod" (λ s, ex_match (anchorValue "prod") s)].

Lemma buildSubQueries_denotes_witness :
  ∃ cls values, buildSubQueries ex_matchers = Ok ("up", cls, values) ∧
    Forall2 (denotes ex_match values) cls ex_matchers.
Proof.
  eexists _, _. split; [vm_compute; reflexivity|].
  eapply (buildSubQueries_denotes ex_match ex_matchers "up"). vm_compute. reflexivity.
Defined.

(** *** Alternatives are not grouped

    A reading of patterns that are alternatives of literal texts, with optional
    anchors: alternation binds weaker than the anchors. *)
Fixpoint split_bar (acc : string) (s : string) : list string :=
  match s with
  | "" => [acc]
  | String "|" s => acc :: split_bar "" s
  | String c s => split_bar (acc ++ String c "") s
  end.

Definition strip_last (s : string) : string := String.substring 0 (String.length s - 1) s.

Definition literal_match (re s : string) : bool :=
  let starts := String.prefix "^" re in
  let re := if starts then String.substring 1 (String.length re - 1) re else re in
  let ends := match re with EmptyString => false | String c r => Ascii.eqb (last_char c r) "$" end in
  let re := if ends then strip_last re else re in
  match starts, ends with
  | true, true => bool_decide (re = s)
  | true, false => String.prefix re s
  | false, true => (String.length re <=? String.length s)%nat &&
      bool_decide (String.substring (String.length s - String.length re) (String.length re) s = re)
  | false, false => match String.index 0 re s with Some _ => true | None => false end
  end.

Definition alt_match (re s : string) : bool := existsb (λ r, literal_match r s) (split_bar "" re).

(** The anchored pattern of [a|b] matches [abc], which [a|b] as a whole does not. *)
Example anchor_does_not_group_alternatives :
  anchorValue "a|b" = "^a|b$" ∧ alt_match (anchorValue "a|b") "abc" = true ∧
  existsb (λ alt, bool_decide (alt = "abc")) ["a"; "b"] = false.
Proof. vm_compute. done. Qed.

End QB.
