(* ===== verification/LabelReader.v ===== *)
(** * Labels of series by id

    [getLabelsForIds], [fetchMissingLabels] and [getPrompbLabelsForIds] of
    [src/pkg/pgmodel/sql_reader.go]: the reader keeps a CLOCK cache from label id
    to label and asks PostgreSQL for the ids that are not in it.  The slices
    [keys[numHits:]] and [values[numHits:]] that [fetchMissingLabels] writes to are
    the tails of the caller's slices; an [interface{}] is an option. *)
From S2P Require Import Prelude ClockCache Labels MetricCache.

Module LR.
Import Lbl.

Notation labels_cache := (Clock.Cache Z (option Label)).

Section reader.
Context {D : Type}.

(** The query [GetLabelsSQL]: rows of parallel arrays of ids, keys and values. *)
Definition labels_query : Type := D → list Z → D * res (MC.Rows (list Z * list string * list string)).

(** Readers that run during an insertion, per inserted element. *)
Context (conc : nat → nat → list nat).

(** The body of [for rows.Next()] for the remaining rows: [m] is the current
    length of [misses] and [newLabels], the slices of the full [arr]. *)
Fixpoint label_rows (cache : labels_cache) (misses : list Z) (arr : list (option Label)) (m num : nat)
    (scans : list (res (list Z * list string * list string)))
    : labels_cache * res (list (option Label) * nat) :=
  match scans with
  | [] => (cache, Ok (arr, num))
  | Err err :: _ => (cache, Err err)
  | Panic p :: _ => (cache, Panic p)
  | Ok (ids, keys, vals) :: rest =>
      if negb (length ids =? length keys) then
        (cache, Err (Errorf "query returned a mismatch in ids and keys: %d, %d"))
      else if negb (length keys =? length vals) then
        (cache, Err (Errorf "query returned a mismatch in timestamps and values: %d, %d"))
      else if m <? length keys then
        (cache, Err (Errorf "query returned wrong number of labels: %d, %d"))
      else
        let n := length keys in
        let news := zip_with (λ k v, Some (MkLabel k v)) keys vals in
        match Clock.InsertBatch conc cache ids news with
        | Ok (cache, ids, news, _) =>
            label_rows cache (ids ++ drop n misses) (news ++ drop n arr) n n rest
        | Err err => (cache, Err err)
        | Panic p => (cache, Panic p)
        end
  end.

(** Gives back the rewritten tail of [values] and the number of labels found. *)
Definition fetchMissingLabels (query : labels_query) (d : D) (cache : labels_cache)
    (misses : list Z) (newLabels : list (option Label))
    : D * labels_cache * res (list (option Label) * nat) :=
  match query d misses with
  | (d, Ok rows) =>
      let '(cache, r) := label_rows cache misses newLabels (length misses) 0 (MC.row_scans rows) in
      (d, cache, r)
  | (d, Err err) => (d, cache, Err err)
  | (d, Panic p) => (d, cache, Panic p)
  end.

(** The type assertions of the last loop. *)
Definition to_labels (values : list (option Label)) : res (list Label) :=
  match mapM id values with
  | Some lls => Ok lls
  | None => Panic "interface conversion"
  end.

Definition getLabelsForIds (query : labels_query) (d : D) (cache : labels_cache) (ids : list Z)
    : D * labels_cache * res (list Label) :=
  match Clock.GetValues cache ids (replicate (length ids) None) with
  | Ok (cache, keys, values, numHits) =>
      if numHits <? length ids then
        match fetchMissingLabels query d cache (drop numHits keys) (drop numHits values) with
        | (d, cache, Ok (tail, numFetches)) =>
            (d, cache, to_labels (take (numHits + numFetches) (take numHits values ++ tail)))
        | (d, cache, Err err) => (d, cache, Err err)
        | (d, cache, Panic p) => (d, cache, Panic p)
        end
      else (d, cache, to_labels values)
  | Err err => (d, cache, Err err)
  | Panic p => (d, cache, Panic p)
  end.

Definition getPrompbLabelsForIds (query : labels_query) (d : D) (cache : labels_cache) (ids : list Z)
    : D * labels_cache * res (list Label) :=
  match getLabelsForIds query d cache ids with
  | (d, cache, Ok ll) => (d, cache, Ok ((λ l, MkLabel (Name l) (Value l)) <$> ll))
  | r => r
  end.

End reader.

(** ** Specification *)

Section spec.
Context {D : Type} (db_labels : D → gmap Z Label).

(** Every cached label is the database's. *)
Definition cache_sound (d : D) (cache : labels_cache) : Prop :=
  Clock.inv cache ∧
  ∀ id x, Clock.abs cache !! id = Some x → ∃ l, x = Some l ∧ db_labels d !! id = Some l.

(** [labels_info] answers in one row with the ids it was asked for, in any order,
    and their keys and values; labels never change. *)
Definition labels_query_ok (query : labels_query (D:=D)) : Prop :=
  ∀ d ids d' r, query d ids = (d', r) → db_labels d ⊆ db_labels d' ∧
    ∀ rows, r = Ok rows → ∃ ls, MC.row_scans rows = [Ok (ls.*1, Name <$> ls.*2, Value <$> ls.*2)] ∧
      ls.*1 ≡ₚ ids ∧ Forall (λ p, db_labels d' !! p.1 = Some p.2) ls.

(** It answers for ids that have a label. *)
Definition labels_query_answers (query : labels_query (D:=D)) : Prop :=
  ∀ d ids, Forall (λ id, is_Some (db_labels d !! id)) ids → ∃ d' rows, query d ids = (d', Ok rows).

End spec.

(** ** Lemmas *)

Section lemmas.
Context {D : Type} (db_labels : D → gmap Z Label) (conc : nat → nat → list nat).

Lemma cache_sound_mono d d' cache :
  db_labels d ⊆ db_labels d' → cache_sound db_labels d cache → cache_sound db_labels d' cache.
Proof.
  intros Hd [Hinv Hs]. split; [done|]. intros id x Hx. destruct (Hs id x Hx) as (l & -> & Hl).
  exists l. split; [done|]. by eapply lookup_weaken.
Qed.

(** Inserting true labels keeps the cache sound and gives the same labels back. *)
Lemma insert_true_labels d ls cache idx cache' ks' vs' n :
  cache_sound db_labels d cache → Forall (λ p, db_labels d !! p.1 = Some p.2) ls →
  Clock.insert_batch_loop conc cache idx ls.*1 (Some <$> ls.*2) = (cache', ks', vs', n) →
  cache_sound db_labels d cache' ∧ ks' = ls.*1 ∧ vs' = Some <$> ls.*2.
Proof.
  revert cache idx cache' ks' vs' n. induction ls as [|[id l] ls IH]; intros cache idx cache' ks' vs' n Hs Ht.
  { intros [= <- <- <- <-]. done. }
  rewrite !fmap_cons. cbn [Clock.insert_batch_loop fst snd].
  apply Forall_cons in Ht as [Hid Ht]. simpl in Hid. destruct Hs as [Hinv Hs].
  destruct (Clock.insert_locked (conc idx) cache id (Some l)) as [c1 [[ck cv] ok]] eqn:Hi.
  apply Clock.insert_locked_spec in Hi as (Hinv1 & _ & -> & Hi); [|done].
  assert (cv = Some l ∧ cache_sound db_labels d c1) as [-> Hs1].
  { destruct (Clock.abs cache !! id) as [v0|] eqn:Hv0.
    - destruct Hi as (-> & -> & Habs). destruct (Hs id v0 Hv0) as (l0 & -> & Hl0).
      split; [congruence|]. split; [done|]. by rewrite Habs.
    - destruct Hi as [-> Hi]. split; [done|]. split; [done|]. destruct ok.
      + destruct Hi as (victim & -> & _). intros k x. rewrite lookup_insert_Some.
        intros [[<- <-]|[_ Hk]]; [by eauto|]. apply Hs. destruct victim; simpl in Hk; [|done].
        by apply lookup_delete_Some in Hk as [_ ?].
      + destruct Hi as [_ ->]. exact Hs. }
  destruct ok.
  - destruct (Clock.insert_batch_loop conc c1 (S idx) ls.*1 (Some <$> ls.*2)) as [[[c2 ks2] vs2] n2] eqn:Hr.
    apply IH in Hr as (? & -> & ->); [|done..]. by intros [= <- <- <- <-].
  - by intros [= <- <- <- <-].
Qed.

Lemma zip_some_labels (ls : list Label) :
  zip_with (λ k v, Some (MkLabel k v)) (Name <$> ls) (Value <$> ls) = Some <$> ls.
Proof. induction ls as [|[n v] ls IH]; [done|]. simpl. by f_equal. Qed.

Lemma to_labels_some ls : to_labels (Some <$> ls) = Ok ls.
Proof.
  unfold to_labels. assert (mapM id (Some <$> ls) = Some ls) as ->; [|done].
  induction ls as [|l ls IH]; [done|]. rewrite fmap_cons. simpl. by rewrite IH.
Qed.

Lemma fetchMissingLabels_ok query d cache misses newLabels d' cache' r :
  labels_query_ok db_labels query → cache_sound db_labels d cache → length newLabels = length misses →
  fetchMissingLabels conc query d cache misses newLabels = (d', cache', r) →
  db_labels d ⊆ db_labels d' ∧ cache_sound db_labels d' cache' ∧
  (∀ tail n, r = Ok (tail, n) → ∃ ls, tail = Some <$> ls.*2 ∧ n = length misses ∧ ls.*1 ≡ₚ misses ∧
    Forall (λ p, db_labels d' !! p.1 = Some p.2) ls) ∧
  ((∃ d0 rows, query d misses = (d0, Ok rows)) → ∃ x, r = Ok x).
Proof.
  intros Hq Hs Hlen. unfold fetchMissingLabels. destruct (query d misses) as [d1 r1] eqn:Hr1.
  apply Hq in Hr1 as [Hd Hr1]. apply (cache_sound_mono _ _ _ Hd) in Hs.
  destruct r1 as [rows|e|p]; [|intros [= <- <- <-]; (split; [done|]); (split; [done|]); (split; [done|]);
    by intros (d0 & rows & [= -> ?])..].
  destruct (Hr1 rows eq_refl) as (ls & -> & Hp & Ht). simpl.
  pose proof (Permutation_length Hp) as Hpl. rewrite length_fmap in Hpl.
  rewrite !length_fmap, Nat.eqb_refl. simpl. rewrite Hpl.
  destruct (Nat.ltb_spec (length misses) (length misses)); [lia|].
  rewrite zip_some_labels. unfold Clock.InsertBatch. rewrite decide_True by (by rewrite !length_fmap).
  destruct (Clock.insert_batch_loop conc cache 0 ls.*1 (Some <$> ls.*2)) as [[[c1 ks] vs] n] eqn:Hb.
  apply (insert_true_labels d1) in Hb as (Hs1 & -> & ->); [|done..].
  intros [= <- <- <-]. split; [done|]. split; [done|]. split; [|eauto]. intros tail n' [= <- <-].
  exists ls. split; [|done]. rewrite drop_ge by (rewrite Hlen; done). by rewrite app_nil_r.
Qed.

(** The values of the hits. *)
Lemma hits_labels d cache ks vs n :
  cache_sound db_labels d cache → length ks = length vs → n ≤ length ks →
  (∀ i k, i < n → ks !! i = Some k → ∃ v, Clock.abs cache !! k = Some v ∧ vs !! i = Some v) →
  ∃ ls, take n ks = ls.*1 ∧ take n vs = Some <$> ls.*2 ∧
    Forall (λ p, db_labels d !! p.1 = Some p.2) ls.
Proof.
  intros [_ Hs] Hl Hn Hhit. revert ks vs Hl Hn Hhit. induction n as [|n IH]; intros ks vs Hl Hn Hhit.
  { exists []. done. }
  destruct ks as [|k ks]; [simpl in Hn; lia|]. destruct vs as [|v vs]; [done|].
  destruct (Hhit 0 k) as (v' & Hv' & [= ->]); [lia|done|].
  destruct (Hs _ _ Hv') as (l & -> & Hl').
  destruct (IH ks vs) as (ls & H1 & H2 & H3); [by injection Hl|simpl in Hn; lia|..].
  { intros i k' Hi Hk'. apply (Hhit (S i) k'); [lia|done]. }
  exists ((k, l) :: ls). simpl. rewrite H1, H2. split_and!; [done..|]. by constructor.
Qed.

Lemma getLabelsForIds_ok query d cache ids d' cache' r :
  labels_query_ok db_labels query → cache_sound db_labels d cache →
  getLabelsForIds conc query d cache ids = (d', cache', r) →
  db_labels d ⊆ db_labels d' ∧ cache_sound db_labels d' cache' ∧
  (∀ lls, r = Ok lls → ∃ ls, ls.*1 ≡ₚ ids ∧ lls = ls.*2 ∧
    Forall (λ p, db_labels d' !! p.1 = Some p.2) ls) ∧
  (labels_query_answers db_labels query → Forall (λ id, is_Some (db_labels d !! id)) ids → ∃ lls, r = Ok lls).
Proof.
  intros Hq Hs. unfold getLabelsForIds, Clock.GetValues.
  rewrite decide_True by by rewrite length_replicate.
  destruct (Clock.get_values_loop _ cache 0 _ ids _) as [[[c1 ks] vs] n] eqn:Hg.
  eapply Clock.get_values_loop_spec in Hg as (Hinv1 & Habs1 & Hp & Hlv & Hn & [Hhit _]);
    try apply Hs; try (by rewrite ?length_replicate); try lia.
  2:{ split; [lia|]. intros i k Hi Hk. apply lookup_lt_Some in Hk. lia. }
  rewrite length_replicate in Hlv. pose proof (Permutation_length Hp) as Hlk.
  assert (cache_sound db_labels d c1) as Hs1 by (split; [done|]; rewrite Habs1; apply Hs).
  rewrite <-Habs1 in Hhit.
  destruct (hits_labels d c1 ks vs n Hs1) as (hits & Hk & Hv & Ht); [congruence|lia|exact Hhit|].
  destruct (Nat.ltb_spec n (length ids)) as [Hlt|Hge].
  - destruct (fetchMissingLabels conc query d c1 (drop n ks) (drop n vs)) as [[d2 c2] r2] eqn:Hf.
    apply fetchMissingLabels_ok in Hf as (Hd & Hs2 & Hok & Hans); [|done|done|rewrite !length_drop; lia].
    assert (labels_query_answers db_labels query → Forall (λ id, is_Some (db_labels d !! id)) ids →
      ∃ x, r2 = Ok x) as Hans2.
    { intros Ha Hids. apply Hans, Ha. rewrite <-Hp in Hids. by apply Forall_drop. }
    destruct r2 as [[tail m]|e|p]; [|by intros [= <- <- <-]; (split; [done|]); (split; [done|]); (split; [done|]);
      intros Ha Hids; destruct (Hans2 Ha Hids)..].
    destruct (Hok tail m eq_refl) as (ls & -> & -> & Hpl & Htl).
    assert (length ls = length (drop n ks)) as Hll
      by (rewrite <-(length_fmap fst ls); by apply Permutation_length).
    rewrite Hv, <-fmap_app, <-fmap_app, take_ge.
    2:{ rewrite !length_fmap, length_app, Hll.
        assert (length hits = n); [|lia]. rewrite <-(length_fmap fst hits), <-Hk, length_take. lia. }
    rewrite to_labels_some. intros [= <- <- <-]. split; [done|]. split; [done|]. split; [|eauto]. intros lls [= <-].
    exists (hits ++ ls). split_and!; [|done|].
    + rewrite fmap_app, <-Hk, Hpl, take_drop. done.
    + apply Forall_app. split; [|done]. eapply Forall_impl; [exact Ht|]. intros p Hpp.
      exact (lookup_weaken _ _ _ _ Hpp Hd).
  - assert (n = length ids) as -> by lia. rewrite (take_ge ks) in Hk by lia. rewrite (take_ge vs) in Hv by lia.
    rewrite Hv, to_labels_some. intros [= <- <- <-]. split; [done|]. split; [done|]. split; [|eauto]. intros lls [= <-].
    exists hits. split_and!; [by rewrite <-Hk|done|done].
Qed.

(** [getLabelsForIds] answers with exactly the labels of the ids it was given,
    from the cache and from the database, and leaves only labels of the database
    in the cache, however full it is and whatever runs beside it. *)
Theorem getLabelsForIds_spec query d cache ids d' cache' r :
  labels_query_ok db_labels query → cache_sound db_labels d cache →
  getLabelsForIds conc query d cache ids = (d', cache', r) →
  cache_sound db_labels d' cache' ∧
  ∀ lls, r = Ok lls → ∃ ls, ls.*1 ≡ₚ ids ∧ lls = ls.*2 ∧
    Forall (λ p, db_labels d' !! p.1 = Some p.2) ls.
Proof. intros Hq Hs Hr. by apply (getLabelsForIds_ok _ _ _ _ _ _ _ Hq Hs) in Hr as (_ & ? & ? & _). Qed.

End lemmas.

(** ** Concrete runs *)

Definition ex_labels_db : gmap Z Label :=
  list_to_map [(1%Z, MkLabel "job" "a"); (2%Z, MkLabel "env" "p"); (3%Z, MkLabel "host" "h")].

Definition ex_labels_query : labels_query (D:=unit) := λ d ids,
  let ls := omap (λ id, (λ l, (id, l)) <$> ex_labels_db !! id) ids in
  if length ls =? length ids
  then (d, Ok (MC.MkRows [Ok (ls.*1, Name <$> ls.*2, Value <$> ls.*2)] None))
  else (d, Err (Errorf "no such label")).

Lemma ex_omap_found ids :
  let ls := omap (λ id, (λ l, (id, l)) <$> ex_labels_db !! id) ids in
  length ls = length ids → ls.*1 = ids ∧ Forall (λ p, ex_labels_db !! p.1 = Some p.2) ls.
Proof.
  assert (∀ k, length (omap (λ id, (λ l, (id, l)) <$> ex_labels_db !! id) k) ≤ length k) as Hle.
  { induction k as [|i k IH]; [done|]. cbn [omap list_omap]. destruct (ex_labels_db !! i); simpl in *; lia. }
  cbv zeta. induction ids as [|id ids IH]; [done|]. specialize (Hle ids).
  cbn [omap list_omap]. destruct (ex_labels_db !! id) as [l|] eqn:E; simpl.
  - intros Hl. destruct IH as [IH1 IH2]; [by injection Hl|]. split; [|by constructor].
    f_equal. exact IH1.
  - intros Hl. simpl in *. lia.
Qed.

Lemma ex_labels_query_ok : labels_query_ok (λ _, ex_labels_db) ex_labels_query.
Proof.
  intros d ids d' r. unfold ex_labels_query. cbv zeta.
  destruct (Nat.eqb_spec (length (omap (λ id, (λ l, (id, l)) <$> ex_labels_db !! id) ids)) (length ids)) as [Hl|Hl];
    intros [= <- <-]; (split; [done|]); intros rows; [|done]. intros [= <-].
  apply ex_omap_found in Hl as [Hf Hall]. eexists. split; [reflexivity|]. by rewrite Hf.
Qed.

Lemma ex_labels_query_answers : labels_query_answers (λ _, ex_labels_db) ex_labels_query.
Proof.
  intros d ids Hids. unfold ex_labels_query. cbv zeta.
  assert (length (omap (λ id, (λ l, (id, l)) <$> ex_labels_db !! id) ids) = length ids) as ->.
  { induction Hids as [|id ids [l Hl] _ IH]; [done|]. cbn [omap list_omap]. rewrite Hl. cbn. by f_equal. }
  rewrite Nat.eqb_refl. eauto.
Qed.

Definition ex_cache : labels_cache := (Clock.Insert Clock.quiet (Clock.WithMax 2) 2%Z (Some (MkLabel "env" "p"))).1.

Lemma ex_cache_sound : cache_sound (λ _ : unit, ex_labels_db) () ex_cache.
Proof.
  unfold ex_cache, Clock.Insert.
  destruct (Clock.insert_locked Clock.quiet (Clock.WithMax 2 : labels_cache) 2%Z (Some (MkLabel "env" "p"))) as [c [[ck cv] ok]] eqn:Hi.
  apply Clock.insert_locked_spec in Hi as (Hinv & _ & _ & Hi); [|apply Clock.inv_WithMax].
  split; [done|]. simpl. assert (Clock.abs (Clock.WithMax 2 : labels_cache) = ∅) as He by done.
  rewrite He, lookup_empty in Hi. intros id x Hx.
  assert (Clock.abs c ⊆ {[2%Z := Some (MkLabel "env" "p")]}) as Hsub.
  { destruct ok; [|destruct Hi as (_ & _ & ->); apply map_empty_subseteq].
    destruct Hi as (_ & [v|] & -> & _); simpl; [by rewrite delete_empty|done]. }
  eapply lookup_weaken in Hx; [|exact Hsub]. apply lookup_singleton_Some in Hx as [<- <-].
  eexists. split; [reflexivity|]. vm_compute. done.
Qed.

Definition ex_get := getLabelsForIds (λ _, Clock.quiet) ex_labels_query () ex_cache [1%Z; 2%Z; 3%Z].

Lemma getLabelsForIds_spec_witness :
  ex_get.2 = Ok [MkLabel "env" "p"; MkLabel "host" "h"; MkLabel "job" "a"] ∧
  ∃ ls, ls.*1 ≡ₚ [1%Z; 2%Z; 3%Z] ∧ [MkLabel "env" "p"; MkLabel "host" "h"; MkLabel "job" "a"] = ls.*2 ∧
    Forall (λ p, ex_labels_db !! p.1 = Some p.2) ls.
Proof.
  assert (ex_get.2 = Ok [MkLabel "env" "p"; MkLabel "host" "h"; MkLabel "job" "a"]) as Hr
    by (vm_compute; reflexivity).
  split; [exact Hr|].
  eapply (getLabelsForIds_spec (λ _ : unit, ex_labels_db) (λ _, Clock.quiet) ex_labels_query () ex_cache
    [1%Z; 2%Z; 3%Z] ex_get.1.1 ex_get.1.2 ex_get.2 ex_labels_query_ok ex_cache_sound); [|exact Hr].
  unfold ex_get. by destruct (getLabelsForIds _ _ _ _ _) as [[? ?] ?].
Defined.

(** An error that ends the rows early is not looked at: the labels that were not
    cached are dropped and the caller gets a shorter list without an error. *)
Example fetch_drops_rows_err :
  (getLabelsForIds (λ _, Clock.quiet)
     (λ d _, (d, Ok (MC.MkRows [] (Some (PgError "57P01" "terminating connection")))))
     () ex_cache [1%Z; 2%Z; 3%Z]).2 = Ok [MkLabel "env" "p"].
Proof. vm_compute. reflexivity. Qed.

End LR.
