(* ===== verification/SeriesSet.v ===== *)
(** * Series sets and sample iterators

    [src/pkg/pgmodel/series_set.go]: [pgxSeriesSet] walks over the rows of several
    queries and gives one series per row; [pgxSeriesIterator] walks over the
    samples of a row and skips those with a null time or value.  The type [F] of
    sample values is a parameter; a row is what [Scan] stores, or its error. *)
From S2P Require Import Prelude Labels MetricCache.

Module SS.
Import Lbl.

Section series.
Context {F : Type} (zero : F).

(** Elements of [pgtype.TimestamptzArray] and [pgtype.Float8Array]; a time that is
    present may be infinite. *)
Inductive instant := NegativeInfinity | Infinity | Finite (unix_nanos : Z).
Record time_elem := MkTime { te_Present : bool; te_Time : instant }.
Record val_elem := MkVal { ve_Present : bool; ve_Float : F }.

Definition data_row : Type := list Z * list time_elem * list val_elem.

(** ** The iterator over samples *)

Record pgxSeriesIterator := MkIt {
  cur : Z; totalSamples : nat; times : list time_elem; values : list val_elem }.

Definition newIterator (ts : list time_elem) (vs : list val_elem) : pgxSeriesIterator :=
  MkIt (-1) (length ts) ts vs.

Definition set_cur (p : pgxSeriesIterator) (c : Z) : pgxSeriesIterator :=
  MkIt c (totalSamples p) (times p) (values p).

(** Each turn advances [cur], so [totalSamples - cur] turns are enough. *)
Fixpoint next_loop (fuel : nat) (p : pgxSeriesIterator) : res (pgxSeriesIterator * bool) :=
  match fuel with
  | 0 => Panic "fuel"
  | S fuel =>
      let p := set_cur p (cur p + 1) in
      if (Z.of_nat (totalSamples p) <=? cur p)%Z then Ok (p, false)
      else
        match times p !! Z.to_nat (cur p) with
        | None => Panic "index out of range"
        | Some t =>
            if te_Present t then
              match values p !! Z.to_nat (cur p) with
              | None => Panic "index out of range"
              | Some v => if ve_Present v then Ok (p, true) else next_loop fuel p
              end
            else next_loop fuel p
        end
  end.

Definition Next (p : pgxSeriesIterator) : res (pgxSeriesIterator * bool) :=
  next_loop (Z.to_nat (Z.of_nat (totalSamples p) - cur p)) p.

Definition instant_ms (t : instant) : Z :=
  match t with
  | NegativeInfinity => min_int64
  | Infinity => max_int64
  | Finite ns => Z.quot (wrap64 ns) 1000000
  end.

Definition getTs (p : pgxSeriesIterator) : res Z :=
  match times p !! Z.to_nat (cur p) with
  | None => Panic "index out of range"
  | Some t => Ok (instant_ms (te_Time t))
  end.

Definition getVal (p : pgxSeriesIterator) : res F :=
  match values p !! Z.to_nat (cur p) with
  | None => Panic "index out of range"
  | Some v => Ok (ve_Float v)
  end.

Definition At (p : pgxSeriesIterator) : res (Z * F) :=
  if (Z.of_nat (totalSamples p) <=? cur p)%Z || (cur p <? 0)%Z then Ok (0%Z, zero)
  else let* t := getTs p in let* v := getVal p in Ok (t, v).

Fixpoint seek_loop (fuel : nat) (t : Z) (p : pgxSeriesIterator) : res (pgxSeriesIterator * bool) :=
  match fuel with
  | 0 => Panic "fuel"
  | S fuel =>
      let* (p, more) := Next p in
      if (more : bool) then
        let* ts := getTs p in
        if (t <=? ts)%Z then Ok (p, true) else seek_loop fuel t p
      else Ok (p, false)
  end.

Definition Seek (t : Z) (p : pgxSeriesIterator) : res (pgxSeriesIterator * bool) :=
  seek_loop (S (totalSamples p)) t (set_cur p (-1)).

(** ** The set of series *)

Record pgxSeries := MkSeries {
  s_labels : list Label; s_times : list time_elem; s_values : list val_elem }.

Definition Iterator (s : pgxSeries) : pgxSeriesIterator := newIterator (s_times s) (s_values s).

(** A [pgx.Rows]: the row [Scan] reads, the rows still to come and the error that
    [Err] gives once they are exhausted. *)
Record cursor := MkCursor {
  c_row : option (res data_row); c_rest : list (res data_row); c_Err : option goerror }.

Definition cursor_Next (c : cursor) : cursor * bool :=
  match c_rest c with
  | r :: rest => (MkCursor (Some r) rest (c_Err c), true)
  | [] => (MkCursor None [] (c_Err c), false)
  end.

Definition cursor_of (r : MC.Rows data_row) : cursor :=
  MkCursor None (MC.row_scans r) (MC.row_Err r).

Record pgxSeriesSet := MkSet { rowIdx : nat; rows : list cursor; err : option goerror }.

Definition buildSeriesSet (rs : list (MC.Rows data_row)) : pgxSeriesSet :=
  MkSet 0 (cursor_of <$> rs) None.

(** Each turn but the last moves to the next rows. *)
Fixpoint set_next_loop (fuel : nat) (p : pgxSeriesSet) : pgxSeriesSet * bool :=
  match fuel with
  | 0 => (p, false)
  | S fuel =>
      match rows p !! rowIdx p with
      | None => (p, false)
      | Some c =>
          let '(c', more) := cursor_Next c in
          let rs := <[rowIdx p := c']> (rows p) in
          if more : bool then (MkSet (rowIdx p) rs (err p), true)
          else set_next_loop fuel
                 (MkSet (S (rowIdx p)) rs (match err p with None => c_Err c | e => e end))
      end
  end.

Definition SetNext (p : pgxSeriesSet) : pgxSeriesSet * bool :=
  set_next_loop (S (length (rows p) - rowIdx p)) p.

Section querier.
Context `{GoSort} {S : Type} (getLabelsForIds : S → list Z → S * res (list Label)).

Definition set_err (p : pgxSeriesSet) (e : option goerror) : pgxSeriesSet :=
  MkSet (rowIdx p) (rows p) e.

(** [None] is a nil series. *)
Definition SetAt (s : S) (p : pgxSeriesSet) : S * pgxSeriesSet * res (option pgxSeries) :=
  match rows p !! rowIdx p with
  | None => (s, p, Ok None)
  | Some c =>
      let bad := set_err p (Some errInvalidData) in
      match c_row c with
      | Some (Ok (labelIds, ts, vs)) =>
          if negb (length ts =? length vs) then (s, bad, Ok None)
          else
            match labelIds with
            | [] => (s, set_err p None, Ok (Some (MkSeries [] ts vs)))
            | _ =>
                match getLabelsForIds s labelIds with
                | (s, Ok lls) => (s, set_err p None, Ok (Some (MkSeries (go_sort name_lt lls) ts vs)))
                | (s, Err _) => (s, bad, Ok None)
                | (s, Panic m) => (s, bad, Panic m)
                end
            end
      | Some (Panic m) => (s, bad, Panic m)
      | _ => (s, bad, Ok None)
      end
  end.

(** The [%w] of the code keeps the error it wraps. *)
Definition SetErr (p : pgxSeriesSet) : option goerror :=
  match err p with
  | Some e => Some (Wrapped "Error retrieving series set: %w" e)
  | None => None
  end.

(** A caller's loop over the set, [for it.Next() { res = append(res, it.At()) }]. *)
Fixpoint collect (fuel : nat) (s : S) (p : pgxSeriesSet) : S * pgxSeriesSet * res (list (option pgxSeries)) :=
  match fuel with
  | 0 => (s, p, Ok [])
  | Datatypes.S fuel =>
      match SetNext p with
      | (p, false) => (s, p, Ok [])
      | (p, true) =>
          let '(s, p, r) := SetAt s p in
          match r with
          | Ok x => let '(s, p, xs) := collect fuel s p in (s, p, let* xs := xs in Ok (x :: xs))
          | Err e => (s, p, Err e)
          | Panic m => (s, p, Panic m)
          end
      end
  end.

End querier.

(** ** Specification *)

(** The samples of a row: those with a time and a value. *)
Fixpoint present (ts : list time_elem) (vs : list val_elem) : list (Z * F) :=
  match ts, vs with
  | t :: ts, v :: vs =>
      if te_Present t && ve_Present v then (instant_ms (te_Time t), ve_Float v) :: present ts vs
      else present ts vs
  | _, _ => []
  end.

(** What is still to come. *)
Definition remaining (p : pgxSeriesIterator) : list (Z * F) :=
  present (drop (Z.to_nat (cur p + 1)) (times p)) (drop (Z.to_nat (cur p + 1)) (values p)).

Definition it_ok (p : pgxSeriesIterator) : Prop :=
  length (times p) = totalSamples p ∧ length (values p) = totalSamples p ∧
  (-1 ≤ cur p ≤ Z.of_nat (totalSamples p))%Z.

(** The caller's loop over a row's samples. *)
Fixpoint collect_samples (fuel : nat) (p : pgxSeriesIterator) : res (list (Z * F)) :=
  match fuel with
  | 0 => Ok []
  | S fuel =>
      let* (p, more) := Next p in
      if (more : bool) then
        let* x := At p in let* xs := collect_samples fuel p in Ok (x :: xs)
      else Ok []
  end.

(** ** Lemmas: samples *)

Lemma next_loop_spec fuel p :
  it_ok p → (Z.of_nat (totalSamples p) - cur p ≤ Z.of_nat fuel)%Z → (cur p < Z.of_nat (totalSamples p))%Z →
  ∃ p' b, next_loop fuel p = Ok (p', b) ∧ it_ok p' ∧ times p' = times p ∧ values p' = values p ∧
    match remaining p with
    | [] => b = false ∧ remaining p' = []
    | x :: xs => b = true ∧ At p' = Ok x ∧ getTs p' = Ok x.1 ∧ remaining p' = xs ∧
                 (cur p' < Z.of_nat (totalSamples p'))%Z
    end.
Proof.
  revert p. induction fuel as [|fuel IH]; intros p Hok Hf Hc; [lia|].
  destruct Hok as (Ht & Hv & Hb). cbn [next_loop].
  set (p1 := set_cur p (cur p + 1)). change (totalSamples p1) with (totalSamples p).
  change (cur p1) with (cur p + 1)%Z. change (times p1) with (times p). change (values p1) with (values p).
  assert (it_ok p1) as Hok1 by (split_and!; simpl; lia).
  set (i := Z.to_nat (cur p + 1)). unfold remaining. fold i.
  destruct (Z.leb_spec (Z.of_nat (totalSamples p)) (cur p + 1)) as [Hend|Hlt].
  - assert (remaining p1 = []) as Hr1.
    { unfold remaining. simpl. by rewrite (drop_ge (times p)) by lia. }
    rewrite (drop_ge (times p)) by lia. simpl. exists p1, false. split_and!; done.
  - destruct (lookup_lt_is_Some_2 (times p) i) as [t Hti]; [lia|].
    destruct (lookup_lt_is_Some_2 (values p) i) as [v Hvi]; [lia|].
    rewrite Hti, Hvi, (drop_S _ _ _ Hti), (drop_S _ _ _ Hvi). simpl.
    assert (remaining p1 = present (drop (S i) (times p)) (drop (S i) (values p))) as Hrem.
    { unfold remaining. simpl. replace (Z.to_nat (cur p + 1 + 1)) with (S i) by lia. done. }
    destruct (te_Present t), (ve_Present v); simpl;
      [|destruct (IH p1 Hok1 ltac:(simpl; lia) ltac:(simpl; lia)) as (p' & b & H1 & H2 & H3 & H4 & H5);
        exists p', b; rewrite Hrem in H5; done..].
    exists p1, true. split_and!; try done; simpl; [|].
    + unfold At, getTs, getVal. simpl. fold i. rewrite Hti, Hvi. simpl.
      destruct (Z.leb_spec (Z.of_nat (totalSamples p)) (cur p + 1)); [lia|].
      destruct (Z.ltb_spec (cur p + 1) 0); [lia|]. done.
    + unfold getTs. simpl. fold i. by rewrite Hti.
Qed.

Lemma Next_spec p :
  it_ok p → (cur p < Z.of_nat (totalSamples p))%Z →
  ∃ p' b, Next p = Ok (p', b) ∧ it_ok p' ∧ times p' = times p ∧ values p' = values p ∧
    match remaining p with
    | [] => b = false ∧ remaining p' = []
    | x :: xs => b = true ∧ At p' = Ok x ∧ getTs p' = Ok x.1 ∧ remaining p' = xs ∧
                 (cur p' < Z.of_nat (totalSamples p'))%Z
    end.
Proof. intros Hok Hc. apply next_loop_spec; [done|lia|done]. Qed.

Lemma present_length ts vs : length (present ts vs) ≤ length ts.
Proof.
  revert vs. induction ts as [|t ts IH]; intros [|v vs]; simpl; [lia..|].
  specialize (IH vs). destruct (te_Present t && ve_Present v); simpl; lia.
Qed.

Lemma collect_samples_from fuel p :
  it_ok p → (cur p < Z.of_nat (totalSamples p))%Z → length (remaining p) < fuel →
  collect_samples fuel p = Ok (remaining p).
Proof.
  revert p. induction fuel as [|fuel IH]; intros p Hok Hc Hf; [lia|]. cbn [collect_samples].
  destruct (Next_spec p Hok Hc) as (p' & b & -> & Hok' & _ & _ & Hn). simpl.
  destruct (remaining p) as [|x xs].
  - by destruct Hn as [-> _].
  - destruct Hn as (-> & -> & _ & Hr & Hc'). simpl. rewrite IH, Hr; [done|done|done|].
    rewrite Hr. simpl in Hf. lia.
Qed.

(** Iterating over a series gives exactly the samples of its row that have both
    a time and a value, in order, with infinite times at the ends of [int64]. *)
Theorem iterator_visits_present ts vs :
  length ts = length vs →
  collect_samples (S (length ts)) (newIterator ts vs) = Ok (present ts vs).
Proof.
  intros Hl. destruct ts as [|t ts]; [by destruct vs|].
  assert (remaining (newIterator (t :: ts) vs) = present (t :: ts) vs) as Hr by done.
  rewrite collect_samples_from, Hr; [done|split_and!; simpl in *; lia|simpl; lia|].
  rewrite Hr. pose proof (present_length (t :: ts) vs). lia.
Qed.

(** The first sample from [t] on, and what follows it. *)
Fixpoint from_ts (t : Z) (l : list (Z * F)) : list (Z * F) :=
  match l with
  | [] => []
  | x :: l' => if (t <=? x.1)%Z then x :: l' else from_ts t l'
  end.

Lemma seek_loop_spec fuel t p :
  it_ok p → (cur p < Z.of_nat (totalSamples p))%Z → length (remaining p) < fuel →
  ∃ p' b, seek_loop fuel t p = Ok (p', b) ∧
    match from_ts t (remaining p) with
    | [] => b = false
    | x :: xs => b = true ∧ At p' = Ok x ∧ remaining p' = xs
    end.
Proof.
  revert p. induction fuel as [|fuel IH]; intros p Hok Hc Hf; [lia|]. cbn [seek_loop].
  destruct (Next_spec p Hok Hc) as (p' & b & -> & Hok' & _ & _ & Hn). simpl.
  destruct (remaining p) as [|x xs]; simpl.
  { destruct Hn as [-> _]. by eexists _, _. }
  destruct Hn as (-> & Hat & -> & Hr & Hc'). simpl. destruct (Z.leb_spec t x.1).
  - by eexists _, _.
  - rewrite <-Hr. apply IH; [done|done|]. rewrite Hr. simpl in Hf. lia.
Qed.

(** [Seek] finds the first sample at or after the given time from the start of
    the series, wherever the iterator stood; iteration continues after it. *)
Theorem Seek_spec t p :
  length (times p) = totalSamples p → length (values p) = totalSamples p → 0 < totalSamples p →
  ∃ p' b, Seek t p = Ok (p', b) ∧
    match from_ts t (present (times p) (values p)) with
    | [] => b = false
    | x :: xs => b = true ∧ At p' = Ok x ∧ remaining p' = xs
    end.
Proof.
  intros Ht Hv Hn. unfold Seek.
  destruct (seek_loop_spec (S (totalSamples p)) t (set_cur p (-1))) as (p' & b & -> & Hm).
  - split_and!; simpl; lia.
  - simpl. lia.
  - change (remaining (set_cur p (-1))) with (present (times p) (values p)).
    pose proof (present_length (times p) (values p)). lia.
  - exists p', b. split; [done|]. exact Hm.
Qed.

End series.

Arguments time_elem : clear implicits.
Arguments val_elem : clear implicits.
Arguments data_row : clear implicits.
Arguments pgxSeriesIterator : clear implicits.
Arguments pgxSeries : clear implicits.
Arguments cursor : clear implicits.
Arguments pgxSeriesSet : clear implicits.

(** ** The series of a set *)

Section set_lemmas.
Context {F : Type} `{GoSort} {S : Type}.
Context (getLabelsForIds : S → list Z → S * res (list Label)).

(** The states of the querier in which it can tell the labels of the ids in question. *)
Context (can_tell : S → Prop) (known : list Z → Prop).

(** Rows the database sends: readable, with arrays of equal length and ids it knows. *)
Definition good_row (x : res (data_row F)) : Prop :=
  ∃ ids ts vs, x = Ok (ids, ts, vs) ∧ length ts = length vs ∧ known ids.
Definition good_rows (r : MC.Rows (data_row F)) : Prop := Forall good_row (MC.row_scans r).

(** The series [At] makes of a row; [lls] are the labels of its ids. *)
Definition series_for (x : res (data_row F)) (y : pgxSeries F) : Prop :=
  ∃ ids ts vs lls, x = Ok (ids, ts, vs) ∧ s_times y = ts ∧ s_values y = vs ∧
    s_labels y = go_sort name_lt lls ∧ known ids ∧
    (ids = [] ∧ lls = [] ∨ ∃ s s', can_tell s ∧ getLabelsForIds s ids = (s', Ok lls)).

(** The error left after the loop: [At] forgets the errors of the rows before it. *)
Definition final_err (e : option goerror) (rs : list (MC.Rows (data_row F))) : option goerror :=
  foldl (λ e r, match MC.row_scans r with
                | [] => match e with None => MC.row_Err r | Some _ => e end
                | _ => MC.row_Err r
                end) e rs.

Context (Hq : ∀ s ids, can_tell s → known ids → ∃ s' lls, getLabelsForIds s ids = (s', Ok lls) ∧ can_tell s').

Lemma go_sort_nil_labels : go_sort name_lt [] = [].
Proof. apply Permutation_nil_r, go_sort_perm. Qed.

Lemma SetAt_good s p c ids ts vs :
  rows p !! rowIdx p = Some c → c_row c = Some (Ok (ids, ts, vs)) → length ts = length vs → can_tell s → known ids →
  ∃ s' y, SetAt getLabelsForIds s p = (s', set_err p None, Ok (Some y)) ∧ series_for (Ok (ids, ts, vs)) y ∧ can_tell s'.
Proof.
  intros Hc Hr Hl Hs Hk. unfold SetAt. rewrite Hc, Hr, Hl, Nat.eqb_refl. simpl.
  destruct ids as [|id ids].
  - eexists _, _. split; [reflexivity|]. split; [|done]. exists [], ts, vs, []. simpl. rewrite go_sort_nil_labels.
    split_and!; try done. by left.
  - destruct (Hq s (id :: ids)) as (s' & lls & E & Hs'); [done..|]. rewrite E. eexists _, _. split; [reflexivity|].
    split; [|done]. exists (id :: ids), ts, vs, lls. split_and!; try done. right. by exists s, s'.
Qed.

(** The rows still to come, in the current cursor and those after it. *)
Definition pending_rows (p : pgxSeriesSet F) : list (res (data_row F)) :=
  concat (c_rest <$> drop (rowIdx p) (rows p)).

Lemma drop_insert_same {A} (l : list A) i x y :
  l !! i = Some x → drop i (<[i := y]> l) = y :: drop (Datatypes.S i) l.
Proof.
  intros Hi. rewrite (drop_S _ y) by (apply list_lookup_insert_eq; by eapply lookup_lt_Some).
  by rewrite drop_insert_lt by lia.
Qed.

Definition err_after (e : option goerror) (cs : list (cursor F)) : option goerror :=
  foldl (λ e c, match c_rest c with
                | [] => match e with None => c_Err c | Some _ => e end
                | _ => c_Err c
                end) e cs.

(** [Next] skips the exhausted rows and stops at the next row, if there is one. *)
Lemma set_next_loop_spec fuel p :
  length (drop (rowIdx p) (rows p)) < fuel →
  ∃ p' b, set_next_loop fuel p = (p', b) ∧
    match pending_rows p with
    | [] => b = false ∧ err p' = err_after (err p) (drop (rowIdx p) (rows p))
    | x :: xs => b = true ∧ pending_rows p' = xs ∧
        (∃ c, rows p' !! rowIdx p' = Some c ∧ c_row c = Some x) ∧
        err_after (err p) (drop (rowIdx p) (rows p)) = err_after None (drop (rowIdx p') (rows p'))
    end.
Proof.
  revert p. induction fuel as [|fuel IH]; intros p Hf; [lia|]. cbn [set_next_loop].
  unfold pending_rows. destruct (rows p !! rowIdx p) as [c|] eqn:Hc.
  - pose proof (lookup_lt_Some _ _ _ Hc) as Hlt. rewrite length_drop in Hf.
    rewrite (drop_S _ _ _ Hc), fmap_cons. cbn [concat]. unfold cursor_Next.
    destruct (c_rest c) as [|x xs] eqn:Hrest; cbn [app].
    + set (p1 := MkSet _ _ _).
      assert (drop (rowIdx p1) (rows p1) = drop (Datatypes.S (rowIdx p)) (rows p)) as Hd
        by (simpl; by rewrite drop_insert_lt by lia).
      destruct (IH p1) as (p' & b & Hn & Hm); [rewrite Hd, length_drop; lia|].
      exists p', b. split; [done|]. unfold pending_rows in Hm. rewrite Hd in Hm.
      unfold err_after in Hm |- *. cbn [foldl]. rewrite Hrest.
      destruct (err p); exact Hm.
    + eexists _, _. split; [reflexivity|]. cbn [rowIdx rows].
      rewrite (drop_insert_same _ _ _ _ Hc), fmap_cons. split_and!; [done|done| |].
      * eexists. split; [by apply list_lookup_insert_eq|done].
      * unfold err_after. cbn [foldl c_rest c_Err]. rewrite Hrest. by destruct xs.
  - apply lookup_ge_None in Hc. rewrite drop_ge by done. simpl. by eexists _, _.
Qed.

Lemma pending_rows_set_err p e : pending_rows (set_err p e) = pending_rows p.
Proof. done. Qed.

Lemma collect_spec fuel s p :
  can_tell s → Forall good_row (pending_rows p) → length (pending_rows p) < fuel →
  ∃ s' p' ys, collect getLabelsForIds fuel s p = (s', p', Ok (Some <$> ys)) ∧ can_tell s' ∧
    Forall2 series_for (pending_rows p) ys ∧ err p' = err_after (err p) (drop (rowIdx p) (rows p)).
Proof.
  revert s p. induction fuel as [|fuel IH]; intros s p Hs Hg Hf; [lia|]. cbn [collect].
  destruct (set_next_loop_spec (Datatypes.S (length (rows p) - rowIdx p)) p) as (p1 & b & Hn & Hm).
  { rewrite length_drop. lia. }
  unfold SetNext. rewrite Hn. destruct (pending_rows p) as [|x xs].
  - destruct Hm as [-> He]. exists s, p1, []. done.
  - destruct Hm as (-> & Hp1 & (c & Hc & Hrow) & He).
    apply Forall_cons in Hg as [(ids & ts & vs & -> & Hl & Hk) Hg].
    destruct (SetAt_good s p1 c ids ts vs Hc Hrow Hl Hs Hk) as (s1 & y & -> & Hy & Hs1).
    destruct (IH s1 (set_err p1 None)) as (s' & p' & ys & Hcol & Hs' & Hys & He'); [done|..].
    { by rewrite pending_rows_set_err, Hp1. }
    { rewrite pending_rows_set_err, Hp1. simpl in Hf. lia. }
    rewrite Hcol. exists s', p', (y :: ys). split; [reflexivity|]. split; [done|]. split.
    + rewrite pending_rows_set_err, Hp1 in Hys. by constructor.
    + rewrite He'. simpl. by rewrite He.
Qed.

Lemma err_after_final rs e : err_after e (cursor_of <$> rs) = final_err e rs.
Proof. revert e. induction rs as [|r rs IH]; intros e; [done|]. apply IH. Qed.

Lemma pending_rows_build rs : pending_rows (buildSeriesSet rs) = concat (MC.row_scans <$> rs).
Proof.
  unfold pending_rows, buildSeriesSet. simpl rowIdx. rewrite drop_0. simpl rows.
  induction rs as [|r rs IH]; [done|]. rewrite !fmap_cons. cbn [concat]. by rewrite IH.
Qed.

(** Draining a series set gives one series per row of all the queries, in
    order, with the row's samples and its labels sorted by name, and ends; the
    error that is left is that of the rows that ended last, because a series
    that is read clears the errors of the rows before it. *)
Theorem series_set_drains s rs :
  can_tell s → Forall good_rows rs →
  ∃ s' p' ys, collect getLabelsForIds (Datatypes.S (length (concat (MC.row_scans <$> rs)))) s (buildSeriesSet rs)
      = (s', p', Ok (Some <$> ys)) ∧ can_tell s' ∧
    Forall2 series_for (concat (MC.row_scans <$> rs)) ys ∧ err p' = final_err None rs.
Proof.
  intros Hs Hg. rewrite <-(pending_rows_build rs).
  destruct (collect_spec (Datatypes.S (length (pending_rows (buildSeriesSet rs)))) s (buildSeriesSet rs))
    as (s' & p' & ys & -> & Hs' & Hys & He).
  - done.
  - rewrite pending_rows_build. induction Hg as [|r rs Hr _ IH]; [constructor|].
    rewrite fmap_cons. cbn [concat]. by apply Forall_app.
  - lia.
  - exists s', p', ys. split; [done|]. split; [done|]. split; [done|]. rewrite He. apply err_after_final.
Qed.

End set_lemmas.

(** ** Concrete runs *)

Definition ex_row (id ts v : Z) : res (data_row Z) :=
  Ok ([id], [MkTime true (Finite (ts * 1000000)); MkTime false Infinity], [MkVal true v; MkVal true 0%Z]).

Definition ex_labels (s : nat) (ids : list Z) : nat * res (list Label) :=
  (s, Ok ((λ id, MkLabel (if (id =? 1)%Z then "job" else "env") "x") <$> ids)).

Definition ex_rs : list (MC.Rows (data_row Z)) :=
  [MC.MkRows [ex_row 1 10 5; ex_row 2 20 6] None; MC.MkRows [] None; MC.MkRows [ex_row 1 30 7] None].

Lemma iterator_visits_present_witness :
  collect_samples 0%Z 3 (newIterator [MkTime true (Finite 5000000); MkTime true Infinity] [MkVal true 1%Z; MkVal false 2%Z])
    = Ok [(5, 1)]%Z.
Proof.
  apply (iterator_visits_present 0%Z [MkTime true (Finite 5000000); MkTime true Infinity]
    [MkVal true 1%Z; MkVal false 2%Z]). reflexivity.
Defined.

Lemma Seek_spec_witness :
  ∃ p' b, Seek 7 (newIterator [MkTime true (Finite 5000000); MkTime true (Finite 9000000)]
      [MkVal true 1%Z; MkVal true 2%Z]) = Ok (p', b) ∧ b = true ∧ At 0%Z p' = Ok (9, 2)%Z.
Proof.
  destruct (Seek_spec 0%Z 7 (newIterator [MkTime true (Finite 5000000); MkTime true (Finite 9000000)]
      [MkVal true 1%Z; MkVal true 2%Z])) as (p' & b & Hs & Hb & Hat & _); [reflexivity|reflexivity|simpl; lia|].
  exists p', b. split; [exact Hs|]. split; [exact Hb|exact Hat].
Defined.

Lemma series_set_drains_witness :
  ∃ s' p' ys, collect ex_labels 4 0 (buildSeriesSet ex_rs) = (s', p', Ok (Some <$> ys)) ∧ length ys = 3 ∧ err p' = None.
Proof.
  destruct (series_set_drains (F:=Z) ex_labels (λ _, True) (λ _, True)) with (s := 0) (rs := ex_rs)
    as (s' & p' & ys & Hc & _ & Hys & He).
  - intros s ids _ _. eexists _, _. split; [reflexivity|exact I].
  - exact I.
  - repeat constructor; eexists _, _, _; (split; [reflexivity|done]).
  - exists s', p', ys. split; [exact Hc|]. split; [|exact He].
    symmetry. by apply Forall2_length in Hys.
Defined.

(** The error of the first query is forgotten once a row of the second is read: the
    truncated first result looks complete. *)
Example At_forgets_error :
  let rs := [MC.MkRows [ex_row 1 10 5] (Some (PgError "57014" "canceling statement"));
             MC.MkRows [ex_row 2 20 6] None] in
  let '(_, p, ys) := collect ex_labels 3 0 (buildSeriesSet rs) in
  (length <$> match ys with Ok ys => Some ys | _ => None end) = Some 2 ∧ SetErr p = None.
Proof. vm_compute. done. Qed.

End SS.
