(* ===== verification/Reader.v ===== *)
(** * The querier

    [pgxQuerier] and [DBReader] of [src/pkg/pgmodel/sql_reader.go] and
    [querier.go], with [buildTimeSeries] and [getSeriesPerMetric] of
    [query_builder.go].  The state is the database, the cache of metric table
    names and the cache of labels; the queries are a record of operations. *)
From S2P Require Import Prelude ClockCache Labels MetricCache SampleIter QueryBuilder LabelReader SeriesSet.

Module Rd.
Import Lbl.

Section reader.
Context {F D C : Type} `{GoSort} `{MC.MetricCacheOps C}.

(** The queries the reader runs.  [qc_data] runs the query for samples: the driver
    returns rows even with an error. *)
Record QConn := MkQConn {
  qc_health : D → D * option goerror;
  qc_series : D → string → list QB.sql_arg → D * res (MC.Rows (string * list Z));
  qc_data : D → string → list QB.sql_arg → D * (MC.Rows (SS.data_row F) * option goerror);
  qc_table : D → string → D * res (MC.Rows string);
  qc_labels : LR.labels_query (D:=D);
  qc_labelNames : D → D * res (MC.Rows string);
  qc_labelValues : D → string → D * res (MC.Rows string);
}.

Record pgxQuerier := MkQuerier { q_db : D; metricTableNames : C; q_labels : LR.labels_cache }.

Context (conn : QConn) (Sanitize : list string → string) (ExtensionIsInstalled : bool).
Context (conc : nat → nat → list nat).
(** [Scan] of a row into slices of times (nanoseconds) and values. *)
Context (scan_plain : SS.data_row F → res (list Z * list Z * list F)).

Definition set_db (q : pgxQuerier) (d : D) : pgxQuerier := MkQuerier d (metricTableNames q) (q_labels q).

Definition HealthCheck (q : pgxQuerier) : pgxQuerier * option goerror :=
  let '(d, e) := qc_health conn (q_db q) in (set_db q d, e).

Definition NumCachedLabels (q : pgxQuerier) : nat := Clock.Len (q_labels q).
Definition LabelsCacheCapacity (q : pgxQuerier) : nat := Clock.Cap (q_labels q).

(** A loop that scans one string per row; [rows.Err] is not looked at. *)
Fixpoint scan_strings (scans : list (res string)) : res (list string) :=
  match scans with
  | [] => Ok []
  | s :: rest => let* s := s in let* l := scan_strings rest in Ok (s :: l)
  end.

Definition LabelNames (q : pgxQuerier) : pgxQuerier * res (list string) :=
  let '(d, r) := qc_labelNames conn (q_db q) in
  (set_db q d,
   let* rows := r in let* labelNames := scan_strings (MC.row_scans rows) in
   Ok (go_sort str_lt labelNames)).

Definition LabelValues (q : pgxQuerier) (labelName : string) : pgxQuerier * res (list string) :=
  let '(d, r) := qc_labelValues conn (q_db q) labelName in
  (set_db q d,
   let* rows := r in let* labelValues := scan_strings (MC.row_scans rows) in
   Ok (go_sort str_lt labelValues)).

Definition q_getLabelsForIds (q : pgxQuerier) (ids : list Z) : pgxQuerier * res (list Label) :=
  let '(d, cache, r) := LR.getLabelsForIds conc (qc_labels conn) (q_db q) (q_labels q) ids in
  (MkQuerier d (metricTableNames q) cache, r).

Definition q_getPrompbLabelsForIds (q : pgxQuerier) (ids : list Z) : pgxQuerier * res (list Label) :=
  let '(d, cache, r) := LR.getPrompbLabelsForIds conc (qc_labels conn) (q_db q) (q_labels q) ids in
  (MkQuerier d (metricTableNames q) cache, r).

Definition q_getMetricTableName (q : pgxQuerier) (metric : string) : pgxQuerier * res string :=
  let '(d, names, r) := MC.pgxQuerier_getMetricTableName (qc_table conn) (q_db q) (metricTableNames q) metric in
  (MkQuerier d names (q_labels q), r).

(** [rows.Err] is not looked at here either. *)
Fixpoint getSeriesPerMetric (scans : list (res (string * list Z))) : res (list (string * list Z)) :=
  match scans with
  | [] => Ok []
  | s :: rest => let* x := s in let* l := getSeriesPerMetric rest in Ok (x :: l)
  end.

Definition undefined_table : string := "42P01".

Definition is_undefined_table (err : goerror) : bool :=
  match err with PgError code _ => bool_decide (code = undefined_table) | _ => false end.

Definition querySingleMetric (q : pgxQuerier) (metric : string) (startTime endTime : string)
    (cases : list string) (values : list QB.sql_arg) (hints : option QB.SelectHints)
    (path : list QB.Node) : pgxQuerier * res (list (MC.Rows (SS.data_row F)) * option QB.Node) :=
  match q_getMetricTableName q metric with
  | (q, Err err) => (q, if decide (err = errMissingTableName) then Ok ([], None) else Err err)
  | (q, Panic m) => (q, Panic m)
  | (q, Ok tableName) =>
      let filter := QB.MkFilter tableName startTime endTime in
      match QB.buildTimeseriesByLabelClausesQuery Sanitize ExtensionIsInstalled filter cases values hints path with
      | Err err => (q, Err err)
      | Panic m => (q, Panic m)
      | Ok (sqlQuery, values, topNode) =>
          let '(d, (rows, err)) := qc_data conn (q_db q) sqlQuery values in
          (set_db q d,
           match err with
           | Some err => if is_undefined_table err then Ok ([rows], topNode) else Err err
           | None => Ok ([rows], topNode)
           end)
      end
  end.

(** The loop over the metrics when the query does not fix one. *)
Fixpoint query_metrics (q : pgxQuerier) (startTime endTime : string) (metrics : list (string * list Z))
    : pgxQuerier * res (list (MC.Rows (SS.data_row F))) :=
  match metrics with
  | [] => (q, Ok [])
  | (metric, series) :: rest =>
      match q_getMetricTableName q metric with
      | (q, Err err) =>
          if decide (err = errMissingTableName) then query_metrics q startTime endTime rest else (q, Err err)
      | (q, Panic m) => (q, Panic m)
      | (q, Ok tableName) =>
          let sqlQuery := QB.buildTimeseriesBySeriesIDQuery Sanitize
            (QB.MkFilter tableName startTime endTime) series in
          let '(d, (rows, err)) := qc_data conn (q_db q) sqlQuery [] in
          let q := set_db q d in
          match err with
          | Some err => (q, Err err)
          | None => let '(q, r) := query_metrics q startTime endTime rest in
                    (q, let* l := r in Ok (rows :: l))
          end
      end
  end.

Definition getResultRows (q : pgxQuerier) (startTimestamp endTimestamp : Z)
    (hints : option QB.SelectHints) (path : list QB.Node) (matchers : list Matcher)
    : pgxQuerier * res (list (MC.Rows (SS.data_row F)) * option QB.Node) :=
  match QB.buildSubQueries matchers with
  | Err err => (q, Err err)
  | Panic m => (q, Panic m)
  | Ok (metric, cases, values) =>
      let startTime := QB.toRFC3339Nano startTimestamp in
      let endTime := QB.toRFC3339Nano endTimestamp in
      if negb (bool_decide (metric = ""%string))
      then querySingleMetric q metric startTime endTime cases values hints path
      else
        let '(d, r) := qc_series conn (q_db q) (QB.buildMetricNameSeriesIDQuery cases) values in
        let q := set_db q d in
        match r with
        | Err err => (q, Err err)
        | Panic m => (q, Panic m)
        | Ok rows =>
            match getSeriesPerMetric (MC.row_scans rows) with
            | Err err => (q, Err err)
            | Panic m => (q, Panic m)
            | Ok metrics =>
                let '(q, r) := query_metrics q startTime endTime metrics in
                (q, let* l := r in Ok (l, None))
            end
        end
  end.

(** ** Results as time series *)

(** The samples of a row. *)
Definition row_samples (timestamps : list Z) (values : list F) : list (Smp.Sample F) :=
  zip_with (λ t v, Smp.MkSample v (QB.toMilis t)) timestamps values.

Fixpoint build_loop (q : pgxQuerier) (scans : list (res (SS.data_row F)))
    : pgxQuerier * res (list (Smp.TimeSeries F)) :=
  match scans with
  | [] => (q, Ok [])
  | scan :: rest =>
      match (let* row := scan in scan_plain row) with
      | Err err => (q, Err err)
      | Panic m => (q, Panic m)
      | Ok (labelIDs, timestamps, values) =>
          if negb (length timestamps =? length values)
          then (q, Err (Errorf "query returned a mismatch in timestamps and values"))
          else
            match q_getPrompbLabelsForIds q labelIDs with
            | (q, Err err) => (q, Err err)
            | (q, Panic m) => (q, Panic m)
            | (q, Ok promLabels) =>
                let result := Smp.MkTS (go_sort name_lt promLabels) (row_samples timestamps values) in
                let '(q, r) := build_loop q rest in
                (q, let* l := r in Ok (result :: l))
            end
      end
  end.

Definition buildTimeSeries (q : pgxQuerier) (rows : MC.Rows (SS.data_row F))
    : pgxQuerier * res (list (Smp.TimeSeries F)) :=
  let '(q, r) := build_loop q (MC.row_scans rows) in
  (q, let* results := r in
      match MC.row_Err rows with
      | Some err => Err err
      | None => Ok results
      end).

Fixpoint build_all (q : pgxQuerier) (rows : list (MC.Rows (SS.data_row F)))
    : pgxQuerier * res (list (Smp.TimeSeries F)) :=
  match rows with
  | [] => (q, Ok [])
  | r :: rest =>
      match buildTimeSeries q r with
      | (q, Ok ts) => let '(q, r) := build_all q rest in (q, let* l := r in Ok (ts ++ l))
      | e => e
      end
  end.

(** [prompb.Query]. *)
Record Query_req := MkQuery { StartTimestampMs : Z; EndTimestampMs : Z; Matchers : list LabelMatcher }.

Context (NewMatcher : MatchType → string → string → res Matcher).

Definition Query (q : pgxQuerier) (query : option Query_req) : pgxQuerier * res (list (Smp.TimeSeries F)) :=
  match query with
  | None => (q, Ok [])
  | Some query =>
      match FromLabelMatchers NewMatcher (Matchers query) with
      | Err err => (q, Err err)
      | Panic m => (q, Panic m)
      | Ok matchers =>
          match getResultRows q (StartTimestampMs query) (EndTimestampMs query) None [] matchers with
          | (q, Err err) => (q, Err err)
          | (q, Panic m) => (q, Panic m)
          | (q, Ok (rows, _)) => build_all q rows
          end
      end
  end.

Definition Select (q : pgxQuerier) (mint maxt : Z) (hints : option QB.SelectHints) (path : list QB.Node)
    (ms : list Matcher) : pgxQuerier * res (SS.pgxSeriesSet F * option QB.Node) :=
  match getResultRows q mint maxt hints path ms with
  | (q, Ok (rows, topNode)) => (q, Ok (SS.buildSeriesSet rows, topNode))
  | (q, Err err) => (q, Err err)
  | (q, Panic m) => (q, Panic m)
  end.

(** [DBReader.Read]: the results of the queries, in order; a nil request gives a
    nil response. *)
Fixpoint read_loop (q : pgxQuerier) (queries : list (option Query_req))
    : pgxQuerier * res (list (list (Smp.TimeSeries F))) :=
  match queries with
  | [] => (q, Ok [])
  | query :: rest =>
      match Query q query with
      | (q, Ok tts) => let '(q, r) := read_loop q rest in (q, let* l := r in Ok (tts :: l))
      | (q, Err err) => (q, Err err)
      | (q, Panic m) => (q, Panic m)
      end
  end.

Definition Read (q : pgxQuerier) (req : option (list (option Query_req)))
    : pgxQuerier * res (option (list (list (Smp.TimeSeries F)))) :=
  match req with
  | None => (q, Ok None)
  | Some queries => let '(q, r) := read_loop q queries in (q, let* l := r in Ok (Some l))
  end.

(** ** Specification *)

Section spec.
Context (db_labels : D → gmap Z Label).

Definition q_sound (q : pgxQuerier) : Prop := LR.cache_sound db_labels (q_db q) (q_labels q).

(** The time series of a row: its samples in milliseconds, and the labels of its
    ids sorted by name. *)
Definition ts_for (d : D) (scan : res (SS.data_row F)) (ts : Smp.TimeSeries F) : Prop :=
  ∃ row ids times values ls, scan = Ok row ∧ scan_plain row = Ok (ids, times, values) ∧
    length times = length values ∧ Smp.ts_Samples ts = row_samples times values ∧
    ls.*1 ≡ₚ ids ∧ Forall (λ p, db_labels d !! p.1 = Some p.2) ls ∧
    Smp.ts_Labels ts ≡ₚ ls.*2 ∧ StronglySorted (λ a b, name_lt b a = false) (Smp.ts_Labels ts).

Context (Hq : LR.labels_query_ok db_labels (qc_labels conn)).

Lemma labels_ok q ids q' r :
  q_getLabelsForIds q ids = (q', r) → q_sound q →
  db_labels (q_db q) ⊆ db_labels (q_db q') ∧ q_sound q' ∧
  (∀ l, r = Ok l → ∃ ls, ls.*1 ≡ₚ ids ∧ l = ls.*2 ∧ Forall (λ p, db_labels (q_db q') !! p.1 = Some p.2) ls) ∧
  (LR.labels_query_answers db_labels (qc_labels conn) → Forall (λ id, is_Some (db_labels (q_db q) !! id)) ids →
    ∃ l, r = Ok l).
Proof.
  unfold q_getLabelsForIds. intros Hr Hs. destruct (LR.getLabelsForIds _ _ _ _ _) as [[d1 c1] r1] eqn:Hg.
  injection Hr as <- <-. by apply (LR.getLabelsForIds_ok db_labels) in Hg.
Qed.

Lemma prompb_labels_ok q ids q' r :
  q_getPrompbLabelsForIds q ids = (q', r) → q_sound q →
  db_labels (q_db q) ⊆ db_labels (q_db q') ∧ q_sound q' ∧
  ∀ l, r = Ok l → ∃ ls, ls.*1 ≡ₚ ids ∧ l = ls.*2 ∧ Forall (λ p, db_labels (q_db q') !! p.1 = Some p.2) ls.
Proof.
  unfold q_getPrompbLabelsForIds, LR.getPrompbLabelsForIds. intros Hr Hs.
  destruct (LR.getLabelsForIds _ _ _ _ _) as [[d1 c1] r1] eqn:Hg.
  apply (LR.getLabelsForIds_ok db_labels) in Hg as (Hd & Hs1 & Hok & _); [|done..].
  destruct r1 as [ll|e|p]; injection Hr as <- <-; (split; [done|]); (split; [done|]); intros l; [|done..].
  intros [= <-]. destruct (Hok ll eq_refl) as (ls & Hp & -> & Ht). exists ls. split_and!; [done| |done].
  clear. induction ls as [|[id [n v]] ls IH]; [done|]. rewrite !fmap_cons, IH. done.
Qed.

Lemma ts_for_mono d d' scan ts : db_labels d ⊆ db_labels d' → ts_for d scan ts → ts_for d' scan ts.
Proof.
  intros Hd (row & ids & times & values & ls & ? & ? & ? & ? & ? & Ht & ? & ?).
  exists row, ids, times, values, ls. split_and!; try done.
  eapply Forall_impl; [exact Ht|]. intros p Hp. exact (lookup_weaken _ _ _ _ Hp Hd).
Qed.

Lemma build_loop_ok scans q q' r :
  build_loop q scans = (q', r) → q_sound q →
  db_labels (q_db q) ⊆ db_labels (q_db q') ∧ q_sound q' ∧
  ∀ l, r = Ok l → Forall2 (ts_for (q_db q')) scans l.
Proof.
  revert q q' r. induction scans as [|scan scans IH]; intros q q' r Hb Hs; cbn [build_loop] in Hb.
  { injection Hb as <- <-. split_and!; [done..|]. intros l [= <-]. constructor. }
  destruct (let* row := scan in scan_plain row) as [[[ids times] values]|e|p] eqn:Hrow;
    [|injection Hb as <- <-; done..].
  apply res_bind_ok in Hrow as (row & -> & Hrow).
  destruct (Nat.eqb_spec (length times) (length values)) as [Hl|]; simpl in Hb; [|injection Hb as <- <-; done].
  destruct (q_getPrompbLabelsForIds q ids) as [q1 r1] eqn:Hg.
  apply prompb_labels_ok in Hg as (Hd1 & Hs1 & Hok1); [|done].
  destruct r1 as [promLabels|e|p]; [|injection Hb as <- <-; done..].
  destruct (build_loop q1 scans) as [q2 r2] eqn:Hb2. apply IH in Hb2 as (Hd2 & Hs2 & Hok2); [|done].
  injection Hb as <- <-. split_and!; [by etrans|done|]. intros l Hr. inv_res Hr. injection Hr as <-.
  destruct (Hok1 promLabels eq_refl) as (ls & Hp & -> & Ht). constructor; [|by apply Hok2].
  apply (ts_for_mono (q_db q1)); [done|]. exists row, ids, times, values, ls. simpl.
  split_and!; try done; [apply go_sort_perm|apply go_sort_sorted, _].
Qed.

(** [buildTimeSeries] gives one time series per row, in order, with the row's
    samples in milliseconds and exactly the labels of its ids, sorted by name; a
    row that cannot be read, arrays of different lengths, or an error that ends
    the rows early are errors. *)
Theorem buildTimeSeries_spec q rows q' tss :
  q_sound q → buildTimeSeries q rows = (q', Ok tss) →
  q_sound q' ∧ MC.row_Err rows = None ∧ Forall2 (ts_for (q_db q')) (MC.row_scans rows) tss.
Proof.
  unfold buildTimeSeries. intros Hs. destruct (build_loop q (MC.row_scans rows)) as [q1 r1] eqn:Hb.
  apply build_loop_ok in Hb as (Hd & Hs1 & Hok); [|done]. intros [= -> Hr]. inv_res Hr.
  destruct (MC.row_Err rows); [done|]. injection Hr as ->. auto.
Qed.

End spec.

(** *** A query that fixes one metric *)

(** A query for one metric asks for its table once; without a table it is empty
    and no data is queried; otherwise exactly one query for samples is sent, to
    the tables of that metric, and its rows are the result. *)
Theorem querySingleMetric_spec q metric startTime endTime cases values hints path q1 r1 :
  q_getMetricTableName q metric = (q1, r1) →
  match r1 with
  | Err e => querySingleMetric q metric startTime endTime cases values hints path =
      (q1, if decide (e = errMissingTableName) then Ok ([], None) else Err e)
  | Panic m => (querySingleMetric q metric startTime endTime cases values hints path).2 = Panic m
  | Ok table => ∀ sql args node,
      QB.buildTimeseriesByLabelClausesQuery Sanitize ExtensionIsInstalled
        (QB.MkFilter table startTime endTime) cases values hints path = Ok (sql, args, node) →
      let '(d, (rows, err)) := qc_data conn (q_db q1) sql args in
      querySingleMetric q metric startTime endTime cases values hints path =
        (set_db q1 d, match err with
                      | Some e => if is_undefined_table e then Ok ([rows], node) else Err e
                      | None => Ok ([rows], node)
                      end)
  end.
Proof.
  intros Hn. unfold querySingleMetric. rewrite Hn. destruct r1 as [table|e|m]; [|done..].
  intros sql args node ->. by destruct (qc_data conn (q_db q1) sql args) as [d [rows err]].
Qed.

End reader.

(** ** Concrete runs *)

#[local] Instance ex_cache_ops : MC.MetricCacheOps MC.MetricNameCache := MC.MetricNameCache_ops (λ _, []).

Definition ex_plain (r : SS.data_row Z) : res (list Z * list Z * list Z) :=
  let '(ids, ts, vs) := r in
  Ok (ids, (λ t, match SS.te_Time t with SS.Finite ns => ns | _ => 0%Z end) <$> ts, SS.ve_Float <$> vs).

Definition ex_data : MC.Rows (SS.data_row Z) :=
  MC.MkRows [Ok ([3; 1]%Z, [SS.MkTime true (SS.Finite 5000000)], [SS.MkVal true 7%Z])] None.

Definition ex_qconn : QConn (F:=Z) (D:=unit) := {|
  qc_health d := (d, None);
  qc_series d _ _ := (d, Ok (MC.MkRows [] None));
  qc_data d _ _ := (d, (ex_data, None));
  qc_table d m := (d, if bool_decide (m = "up"%string) then Ok (MC.MkRows [Ok "up_t"%string] None)
                      else Ok (MC.MkRows [] None));
  qc_labels := LR.ex_labels_query;
  qc_labelNames d := (d, Ok (MC.MkRows [Ok "job"; Ok "env"]%string None));
  qc_labelValues d _ := (d, Ok (MC.MkRows [] None));
|}.

Definition ex_querier : pgxQuerier (D:=unit) (C:=MC.MetricNameCache) :=
  MkQuerier () (Clock.WithMax 2) LR.ex_cache.

Definition ex_built := buildTimeSeries ex_qconn (λ _, Clock.quiet) ex_plain ex_querier ex_data.

Lemma buildTimeSeries_spec_witness :
  ex_built.2 = Ok [Smp.MkTS [MkLabel "host" "h"; MkLabel "job" "a"] [Smp.MkSample 7 5]]%Z ∧
  Forall2 (ts_for ex_plain (λ _ : unit, LR.ex_labels_db) ()) (MC.row_scans ex_data)
    [Smp.MkTS [MkLabel "host" "h"; MkLabel "job" "a"] [Smp.MkSample 7 5]]%Z.
Proof.
  assert (ex_built.2 = Ok [Smp.MkTS [MkLabel "host" "h"; MkLabel "job" "a"] [Smp.MkSample 7 5]]%Z) as Hr
    by (vm_compute; reflexivity).
  split; [exact Hr|].
  destruct (buildTimeSeries_spec ex_qconn (λ _, Clock.quiet) ex_plain (λ _ : unit, LR.ex_labels_db)
    LR.ex_labels_query_ok ex_querier ex_data ex_built.1 _ LR.ex_cache_sound
    (eq_trans (surjective_pairing ex_built) (f_equal (pair ex_built.1) Hr))) as (_ & _ & Hf).
  destruct (q_db ex_built.1). exact Hf.
Defined.

Lemma querySingleMetric_spec_witness :
  (querySingleMetric ex_qconn (λ _, ""%string) false ex_querier "down" "" "" ["c"%string] [] None []).2 = Ok ([], None).
Proof.
  destruct (q_getMetricTableName ex_qconn ex_querier "down") as [q1 r1] eqn:E.
  pose proof (querySingleMetric_spec ex_qconn (λ _, ""%string) false ex_querier "down" "" "" ["c"%string] []
    None [] q1 r1 E) as H.
  assert (r1 = Err errMissingTableName) as -> by (vm_compute in E; by injection E as _ <-).
  rewrite H. reflexivity.
Defined.

(** The end of the rows is taken for the end of the names even after an error. *)
Example LabelNames_drops_rows_err :
  (LabelNames (MkQConn (qc_health ex_qconn) (qc_series ex_qconn) (qc_data ex_qconn) (qc_table ex_qconn)
     (qc_labels ex_qconn) (λ d, (d, Ok (MC.MkRows [Ok "job"%string] (Some (PgError "57P01" "terminating")))))
     (qc_labelValues ex_qconn)) ex_querier).2 = Ok ["job"%string].
Proof. reflexivity. Qed.

End Rd.
