(* ===== verification/GoStrings.v ===== *)
(** * String functions of Go's standard library

    What [src/pkg/pgmodel/migrate.go] uses of [strings], [fmt] and [regexp]:
    [strings.ReplaceAll], [fmt.Sscanf] with the formats [%d] and [%d-%s], and
    the pattern of migration file names.  Strings are byte strings; the scanning
    functions read them as ASCII text. *)
From S2P Require Import Prelude.

Module GoStr.

(** ** Substrings *)

Fixpoint prefixb (p s : string) : bool :=
  match p, s with
  | EmptyString, _ => true
  | String a p', String b s' => bool_decide (a = b) && prefixb p' s'
  | String _ _, EmptyString => false
  end.

(** [p] occurs in [s]: [strings.Contains(s, p)]. *)
Fixpoint occurs (p s : string) : bool :=
  prefixb p s || match s with EmptyString => false | String _ s' => occurs p s' end.

(** The scan of [strings.ReplaceAll] for a non-empty [old]: [skip] bytes belong to
    the occurrence replaced last. *)
Fixpoint replace_go (old new : string) (skip : nat) (s : string) : string :=
  match s with
  | EmptyString => EmptyString
  | String c s' =>
      match skip with
      | S k => replace_go old new k s'
      | O => if prefixb old s then (new ++ replace_go old new (String.length old - 1) s')%string
             else String c (replace_go old new 0 s')
      end
  end.

Definition ReplaceAll (s old new : string) : string := replace_go old new 0 s.

(** One of the strings is a prefix of the other. *)
Fixpoint compatible (p s : string) : bool :=
  match p, s with
  | String a p', String b s' => bool_decide (a = b) && compatible p' s'
  | _, _ => true
  end.

(** No non-empty end of [p] can be read from the start of [s]. *)
Fixpoint separated (p s : string) : bool :=
  match p with
  | EmptyString => true
  | String _ p' => negb (compatible p s) && separated p' s
  end.

Fixpoint str_drop (n : nat) (s : string) : string :=
  match n, s with
  | O, _ => s
  | S _, EmptyString => EmptyString
  | S n, String _ s' => str_drop n s'
  end.

Lemma prefixb_app p s t : prefixb p (s ++ t) = true → compatible p s = true.
Proof.
  revert s. induction p as [|a p IH]; intros [|b s]; try done.
  rewrite string_app_cons. simpl. intros [-> Hp]%andb_prop. simpl. by apply IH.
Qed.

Lemma compatible_nil_r p : compatible p "" = true.
Proof. by destruct p. Qed.

Lemma separated_prefix p s t : p ≠ "" → separated p s = true → prefixb p (s ++ t) = false.
Proof.
  intros Hp Hs. destruct (prefixb p (s ++ t)) eqn:E; [|done].
  apply prefixb_app in E. destruct p; [done|]. cbn [separated] in Hs.
  apply andb_prop in Hs as [Hs _]. by rewrite E in Hs.
Qed.

Lemma replace_go_skip old new k s :
  replace_go old new k s = replace_go old new 0 (str_drop k s).
Proof.
  revert s. induction k as [|k IH]; intros [|c s]; simpl; done || apply IH.
Qed.

(** What the output starts with, it had before, when [new] cannot continue it. *)
Lemma replace_go_prefix old new p s :
  separated p new = true →
  prefixb p (replace_go old new 0 s) = true → prefixb p s = true.
Proof.
  revert s. induction p as [|a p IH]; intros [|c s] Hsep; [done..|]. intros H.
  cbn [replace_go] in H. case_match.
  - rewrite (separated_prefix (String a p)) in H by done. done.
  - simpl in *. apply andb_prop in Hsep as [_ Hsep]. apply andb_prop in H as [H1 H2].
    rewrite H1. simpl. by apply IH.
Qed.

Lemma occurs_cons p c s : occurs p (String c s) = prefixb p (String c s) || occurs p s.
Proof. reflexivity. Qed.

Lemma occurs_prefix p s : prefixb p s = true → occurs p s = true.
Proof. intros H. destruct s; simpl in *; by rewrite H. Qed.

Lemma occurs_drop p k s : occurs p (str_drop k s) = true → occurs p s = true.
Proof.
  revert s. induction k as [|k IH]; intros [|c s]; try done. simpl. intros H%IH.
  rewrite H. by rewrite orb_true_r.
Qed.

(** [p] starts nowhere inside [new], whatever follows [new]. *)
Fixpoint never_starts (p new : string) : bool :=
  match new with
  | EmptyString => true
  | String _ new' => negb (compatible p new) && never_starts p new'
  end.

Lemma occurs_app p s t :
  never_starts p s = true → occurs p (s ++ t) = true → occurs p t = true.
Proof.
  induction s as [|a s IH]; [done|]. intros Hn. rewrite string_app_cons, occurs_cons.
  simpl in Hn. apply andb_prop in Hn as [Hc Hn].
  rewrite orb_true_iff. intros [Hp|Ho]; [|by apply IH].
  rewrite <-string_app_cons in Hp. apply prefixb_app in Hp. by rewrite Hp in Hc.
Qed.

(** [new] can neither start nor continue [p]. *)
Definition apart (p new : string) : bool := separated p new && never_starts p new.

Lemma string_ind_length (P : string → Prop) :
  (∀ s, (∀ t, String.length t < String.length s → P t) → P s) → ∀ s, P s.
Proof.
  intros H s. remember (String.length s) as n eqn:Hn.
  revert s Hn. induction n as [n IH] using lt_wf_ind. intros s ->. apply H. eauto.
Qed.

Lemma str_drop_length k s : String.length (str_drop k s) ≤ String.length s.
Proof. revert s. induction k; intros [|c s]; simpl; try lia. specialize (IHk s). lia. Qed.

Lemma str_drop_S k c s : str_drop (S k) (String c s) = str_drop k s.
Proof. done. Qed.

(** Replacing creates no occurrence of a string [new] is apart from. *)
Lemma ReplaceAll_occurs old new p s :
  apart p new = true → occurs p (ReplaceAll s old new) = true → occurs p s = true.
Proof.
  unfold ReplaceAll. intros [Hsep Hnev]%andb_prop.
  induction s as [s IH] using string_ind_length. destruct s as [|c s]; [done|].
  cbn [replace_go]. destruct (prefixb old (String c s)) eqn:Hold.
  - intros H%occurs_app; [|done]. rewrite replace_go_skip in H.
    apply IH in H; [|pose proof (str_drop_length (String.length old - 1) s); simpl; lia].
    apply occurs_drop in H. rewrite occurs_cons, H. by rewrite orb_true_r.
  - rewrite !occurs_cons, !orb_true_iff. intros [H|H].
    + left. destruct p as [|a p]; [done|]. simpl in H, Hsep |- *.
      apply andb_prop in H as [-> H]. apply andb_prop in Hsep as [_ Hsep]. simpl.
      by eapply replace_go_prefix.
    + right. apply IH; [simpl; lia|done].
Qed.

(** After replacing [old] by a [new] that is apart from it, no [old] is left. *)
Lemma ReplaceAll_gone old new s :
  old ≠ "" → apart old new = true → occurs old (ReplaceAll s old new) = false.
Proof.
  unfold ReplaceAll. intros Hne Ha. pose proof Ha as [Hsep Hnev]%andb_prop.
  induction s as [s IH] using string_ind_length. destruct s as [|c s]; [by destruct old|].
  cbn [replace_go]. destruct (prefixb old (String c s)) eqn:Hold.
  - apply not_true_iff_false. intros H%occurs_app; [|done].
    rewrite replace_go_skip, IH in H; [done|].
    pose proof (str_drop_length (String.length old - 1) s); simpl; lia.
  - rewrite occurs_cons, (IH s) by (simpl; lia). rewrite orb_false_r.
    apply not_true_iff_false. intros H. destruct old as [|a old]; [done|].
    simpl in H, Hold, Hsep. apply andb_prop in H as [H1 H2].
    apply andb_prop in Hsep as [_ Hsep]. rewrite H1 in Hold. simpl in Hold.
    apply replace_go_prefix in H2; congruence.
Qed.

(** ** [fmt.Sscanf] *)

Definition is_digit (c : ascii) : bool := (48 <=? N_of_ascii c)%N && (N_of_ascii c <=? 57)%N.

(** White space of [fmt] in the ASCII range: tab to carriage return, and space. *)
Definition is_space (c : ascii) : bool :=
  let n := N_of_ascii c in ((9 <=? n)%N && (n <=? 13)%N) || (n =? 32)%N.

Definition is_newline (c : ascii) : bool := (N_of_ascii c =? 10)%N.

(** [SkipSpace] of [Sscanf]: a newline is an error there. *)
Fixpoint skip_space (s : string) : option string :=
  match s with
  | String c s' =>
      if is_newline c then None else if is_space c then skip_space s' else Some s
  | EmptyString => Some EmptyString
  end.

(** The digits [s] starts with, added to [acc], and the rest. *)
Fixpoint scan_digits (acc : Z) (s : string) : Z * string :=
  match s with
  | String c s' =>
      if is_digit c then scan_digits (10 * acc + (Z.of_N (N_of_ascii c) - 48)) s' else (acc, s)
  | EmptyString => (acc, EmptyString)
  end.

Definition starts_with_digit (s : string) : bool :=
  match s with String c _ => is_digit c | EmptyString => false end.

(** The verb [%d] for an [int]: spaces, a sign, digits, and a value in range. *)
Definition scan_d (s : string) : option (Z * string) :=
  match skip_space s with
  | None => None
  | Some s =>
      let '(neg, s) := match s with
                       | String c s' => if (c =? "-")%char then (true, s')
                                        else if (c =? "+")%char then (false, s') else (false, s)
                       | EmptyString => (false, s)
                       end in
      if starts_with_digit s then
        let '(n, s) := scan_digits 0 s in
        let n := if (neg : bool) then (- n)%Z else n in
        if bool_decide (in_int64 n) then Some (n, s) else None
      else None
  end.

(** The verb [%s]: spaces, then at least one byte. *)
Definition scan_s (s : string) : bool :=
  match skip_space s with
  | Some (String _ _) => true
  | _ => false
  end.

(** [fmt.Sscanf(s, "%d-%s", &prefix, &name)]: the prefix, or an error. *)
Definition Sscanf_d_s (s : string) : option Z :=
  match scan_d s with
  | Some (prefix, String c s') => if (c =? "-")%char && scan_s s' then Some prefix else None
  | _ => None
  end.

(** [fmt.Sscanf(s, "%d", &n)]. *)
Definition Sscanf_d (s : string) : option Z := fst <$> scan_d s.

(** ** The pattern [([[:digit:]]+)-[[:word:]]+.sql] *)

Definition is_word (c : ascii) : bool :=
  let n := N_of_ascii c in
  is_digit c || ((65 <=? n)%N && (n <=? 90)%N) || ((97 <=? n)%N && (n <=? 122)%N) || (n =? 95)%N.

(** [.sql]: any byte but a newline, then the letters. *)
Definition match_dot_sql (s : string) : bool :=
  match s with
  | String c s' => negb (is_newline c) && prefixb "sql" s'
  | EmptyString => false
  end.

(** [[[:word:]]+.sql]. *)
Fixpoint match_word_sql (s : string) : bool :=
  match s with
  | String c s' => is_word c && (match_dot_sql s' || match_word_sql s')
  | EmptyString => false
  end.

(** The digits [s] starts with. *)
Fixpoint take_digits (s : string) : string * string :=
  match s with
  | String c s' => if is_digit c then let '(d, r) := take_digits s' in (String c d, r)
                   else (EmptyString, s)
  | EmptyString => (EmptyString, EmptyString)
  end.

(** The pattern at the start of [s]: its first group. *)
Definition match_here (s : string) : option string :=
  match take_digits s with
  | (String c d, String m r) =>
      if (m =? "-")%char && match_word_sql r then Some (String c d) else None
  | _ => None
  end.

(** [FindStringSubmatch] of the pattern: the group of the leftmost match. *)
Fixpoint find_submatch (s : string) : option string :=
  match match_here s with
  | Some d => Some d
  | None => match s with String _ s' => find_submatch s' | EmptyString => None end
  end.

Lemma scan_digits_take acc s :
  (scan_digits acc s).2 = (take_digits s).2.
Proof.
  revert acc. induction s as [|c s IH]; intros acc; [done|]. simpl.
  destruct (is_digit c); [|done]. rewrite IH. by destruct (take_digits s).
Qed.

Lemma is_digit_not_space c : is_digit c = true → is_space c = false ∧ is_newline c = false.
Proof.
  unfold is_digit, is_space, is_newline. intros [H1 H2]%andb_prop.
  apply N.leb_le in H1, H2. split.
  - apply orb_false_iff. split; [|apply N.eqb_neq; lia].
    apply andb_false_iff. right. apply N.leb_gt. lia.
  - apply N.eqb_neq. lia.
Qed.

Example Sscanf_ok : Sscanf_d_s "001-users.sql" = Some 1%Z ∧ Sscanf_d_s "12-" = None
  ∧ Sscanf_d_s "x-1" = None.
Proof. by vm_compute. Qed.

Example find_submatch_ok : find_submatch "v6-foo_bar.sql" = Some "6" ∧ find_submatch "6-.sql" = None.
Proof. by vm_compute. Qed.

End GoStr.
