(* ===== verification/Migrate.v ===== *)
(** * Schema migrations

    [src/pkg/pgmodel/migrate.go]: the version check, the upgrade path, the order
    of the scripts and their transaction.

    Semantic versions ([blang/semver]) are the class [Semver], the embedded SQL
    files ([http.FileSystem]) a record of what opening a path gives, PostgreSQL a
    record [MDB] of operations on a database and on an open transaction.
    [MDBLaws] states what a transaction promises, and [Migrate_refines] shows that
    a migration is one atomic run of the script list [migration_plan]. *)
From S2P Require Import Prelude QueryBuilder GoStrings.
From stdpp Require Import pretty.

Module Mig.
Import GoStr.

(** ** Results

    None of this code panics: a function returns a value or an error. *)

Definition fal (A : Type) : Type := goerror + A.

Definition fal_bind {A B} (r : fal A) (f : A → fal B) : fal B :=
  match r with inl e => inl e | inr a => f a end.

Notation "'let!' x ':=' c1 'in' c2" := (fal_bind c1 (λ x, c2))
  (at level 200, x pattern, c1 at level 200, c2 at level 200) : go_scope.

Lemma fal_bind_ok {A B} (r : fal A) (f : A → fal B) b :
  fal_bind r f = inr b → ∃ a, r = inr a ∧ f a = inr b.
Proof. destruct r; simpl; naive_solver. Qed.

(** ** Parameters: versions, files and the database *)

Class Semver := {
  Version : Type;
  PRVersion : Type;
  semver_Make : string → fal Version;
  VCompare : Version → Version → Z;
  VString : Version → string;
  Pre : Version → list PRVersion;
  (** the version with one more prerelease part *)
  append_Pre : Version → PRVersion → Version;
  PRString : PRVersion → string;
  NewPRVersion : string → fal PRVersion;
  (** [semver.Version{}] *)
  Version0 : Version;
}.

(** Rows of the version query: what [Scan] gives for each, and [Err] at the end. *)
Record MigRows (V : Type) := MkMigRows { v_scans : list (fal V); v_Err : option goerror }.
Arguments MkMigRows {_} _ _.
Arguments v_scans {_} _.
Arguments v_Err {_} _.

Record FileInfo := MkInfo { fi_Name : string; fi_IsDir : bool }.

(** An open file: what [Stat], [Readdir], reading it and [Close] give. *)
Record File := MkFile {
  f_Stat : fal FileInfo;
  f_Readdir : fal (list FileInfo);
  f_contents : fal string;
  f_Close : option goerror;
}.

Inductive arg := AText (s : string) | ABool (b : bool).

Record MDB {V D T : Type} := MkMDB {
  db_Acquire : D → D * option goerror;
  db_Release : D → D;
  db_Exec : D → string → list arg → D * option goerror;
  (** The query for the version: what [Scan] gives for each row. *)
  db_Version : D → D * fal (MigRows V);
  db_Begin : D → D * fal T;
  tx_Exec : T → string → list arg → T * option goerror;
  tx_Commit : D → T → D * T * option goerror;
  tx_Rollback : D → T → D;
}.
Arguments MDB : clear implicits.

Record VersionInfo := MkVersionInfo { vi_Version : string; CommitHash : string }.

(** ** Constants *)

Definition timescaleInstall : string := "CREATE EXTENSION IF NOT EXISTS timescaledb WITH SCHEMA public;".
Definition extensionInstall (schema : string) : string :=
  ("CREATE EXTENSION IF NOT EXISTS timescale_prometheus_extra WITH SCHEMA " ++ schema ++ ";")%string.
Definition metadataUpdateWithExtension : string := "SELECT update_tsprom_metadata($1, $2, $3)".
Definition metadataUpdateNoExtension : string :=
  "INSERT INTO _timescaledb_catalog.metadata(key, value, include_in_telemetry) VALUES ($1, $2, $3) ON CONFLICT (key) DO UPDATE SET value = EXCLUDED.value, include_in_telemetry = EXCLUDED.include_in_telemetry".
Definition createMigrationsTable : string :=
  "CREATE TABLE IF NOT EXISTS prom_schema_migrations (version text not null primary key)".
Definition setVersion : string := "INSERT INTO prom_schema_migrations (version) VALUES ($1)".
Definition truncateMigrationsTable : string := "TRUNCATE prom_schema_migrations".
Definition preinstallScripts : string := "preinstall".
Definition versionScripts : string := "versions/dev".
Definition idempotentScripts : string := "idempotent".

Definition tableOfContets : gmap string (list string) :=
  {["idempotent" := ["base.sql"; "matcher-functions.sql"]]}.

Definition promSchema : string := "prom_api".
Definition seriesViewSchema : string := "prom_series".
Definition metricViewSchema : string := "prom_metric".
Definition infoSchema : string := "prom_info".
Definition catalogSchema : string := "_prom_catalog".
Definition extSchema : string := "_prom_ext".

(** ** Texts of the scripts *)

(** The calls of [strings.ReplaceAll], in order. *)
Definition schema_names : list (string * string) :=
  [("SCHEMA_CATALOG", catalogSchema); ("SCHEMA_EXT", extSchema); ("SCHEMA_PROM", promSchema);
   ("SCHEMA_SERIES", seriesViewSchema); ("SCHEMA_METRIC", metricViewSchema);
   ("SCHEMA_DATA_SERIES", QB.dataSeriesSchema); ("SCHEMA_DATA", QB.dataSchema);
   ("SCHEMA_INFO", infoSchema)].

Definition replace_all (names : list (string * string)) (s : string) : string :=
  foldl (λ s n, ReplaceAll s n.1 n.2) s names.

Definition replaceSchemaNames (f : File) : fal string :=
  let! s := f_contents f in
  match f_Close f with
  | Some err => inl err
  | None => inr (replace_all schema_names s)
  end.

(** ** Order of the files of a directory *)

Record prefixedName := MkPrefixed { prefix : Z; name : string }.

Definition Less (p q : prefixedName) : bool := (prefix p <? prefix q)%Z.

Definition getNames (p : list prefixedName) : list string := name <$> p.

(** The files with a numeric prefix; the log lines about the others are left out. *)
Fixpoint prefixed_names (entries : list FileInfo) : list prefixedName :=
  match entries with
  | [] => []
  | entry :: rest =>
      if fi_IsDir entry then prefixed_names rest
      else match Sscanf_d_s (fi_Name entry) with
           | None => prefixed_names rest
           | Some p => MkPrefixed p (fi_Name entry) :: prefixed_names rest
           end
  end.

Definition orderFilesNaturally `{GoSort} (entries : list FileInfo) : list string :=
  getNames (go_sort Less (prefixed_names entries)).

(** [filepath.Join] of two clean, non-empty paths. *)
Definition Join (dir file : string) : string := (dir ++ "/" ++ file)%string.

(** ** The migrator *)

Section migrator.
Context `{GoSort} `{Semver} {D T : Type}.
Context (db : MDB Version D T).
(** [MigrationFiles]: what opening a path gives. *)
Context (sqlFiles : string → fal File) (toc : gmap string (list string)).

Definition execMigrationFile (tx : T) (fileName : string) : T * option goerror :=
  match sqlFiles fileName with
  | inl err => (tx, Some (Wrapped "unable to get migration script" err))
  | inr f =>
      match replaceSchemaNames f with
      | inl err => (tx, Some (Wrapped "unable to read migration script" err))
      | inr contents =>
          match tx_Exec db tx contents [] with
          | (tx, Some err) => (tx, Some (Wrapped "error executing migration script" err))
          | (tx, None) => (tx, None)
          end
      end
  end.

(** The loop that runs the scripts in order, up to the first error. *)
Fixpoint exec_files (tx : T) (files : list string) : T * option goerror :=
  match files with
  | [] => (tx, None)
  | f :: rest =>
      match execMigrationFile tx f with
      | (tx, Some err) => (tx, Some err)
      | (tx, None) => exec_files tx rest
      end
  end.

(** The entries of a table of contents that are files. *)
Fixpoint toc_entries (dirName : string) (myToC : list string) : fal (list string) :=
  match myToC with
  | [] => inr []
  | fileName :: rest =>
      match sqlFiles (Join dirName fileName) with
      | inl err => inl (Wrapped "unable to get migration script from toc" err)
      | inr file =>
          match f_Stat file with
          | inl err => inl (Wrapped "unable to stat migration script from toc" err)
          | inr stat =>
              if fi_IsDir stat then toc_entries dirName rest
              else let! l := toc_entries dirName rest in inr (fileName :: l)
          end
      end
  end.

(** The entries [execMigrationDir] runs, in its order. *)
Definition dir_entries (dirName : string) : fal (list string) :=
  match sqlFiles dirName with
  | inl err => inl (Wrapped "unable to get migration scripts" err)
  | inr f =>
      match toc !! dirName with
      | Some myToC => toc_entries dirName myToC
      | None =>
          match f_Readdir f with
          | inl err => inl (Wrapped "unable to read migration scripts directory" err)
          | inr fileEntries => inr (orderFilesNaturally fileEntries)
          end
      end
  end.

Definition execMigrationDir (tx : T) (dirName : string) : T * option goerror :=
  match dir_entries dirName with
  | inl err => (tx, Some err)
  | inr entries => exec_files tx (Join dirName <$> entries)
  end.

Definition getMigrationFileVersion (dirName fileName : string) : fal Version :=
  match find_submatch fileName with
  | None => inl (Errorf "unable to parse the migration file name")
  | Some group =>
      match Sscanf_d group with
      | None => inl (Errorf "unable to parse the migration file name")
      | Some migrationFileNumber =>
          match semver_Make dirName with
          | inl err => inl (Wrapped "unable to parse version from directory" err)
          | inr migrationFileVersion =>
              match NewPRVersion (pretty migrationFileNumber) with
              | inl err => inl (Wrapped "unable to create dev PR version" err)
              | inr pr => inr (append_Pre migrationFileVersion pr)
              end
          end
      end
  end.

(** The two collections of [upgradeVersion]: [versions] and [versionMap]. *)
Notation collected := (list Version * gmap string string)%type.

(** The files of one version directory. *)
Fixpoint collect_files (dirName : string) (entries : list FileInfo) (st : collected)
    : fal collected :=
  match entries with
  | [] => inr st
  | info :: rest =>
      let! v := getMigrationFileVersion dirName (fi_Name info) in
      let migrationFilePath := (versionScripts ++ "/" ++ dirName ++ "/" ++ fi_Name info)%string in
      match st.2 !! VString v with
      | Some _ => inl (Errorf "Found two migration files with the same version")
      | None => collect_files dirName rest
                  (st.1 ++ [v], <[VString v := migrationFilePath]> st.2)
      end
  end.

(** All version directories. *)
Fixpoint collect_dirs (entries : list FileInfo) (st : collected) : fal collected :=
  match entries with
  | [] => inr st
  | info :: rest =>
      if negb (fi_IsDir info) then inl (Errorf "Not a directory inside versions/dev")
      else match sqlFiles (versionScripts ++ "/" ++ fi_Name info)%string with
           | inl err => inl (Wrapped "unable to open migration scripts" err)
           | inr versionDirFile =>
               match f_Readdir versionDirFile with
               | inl err => inl (Wrapped "unable to get directory entries" err)
               | inr files => let! st := collect_files (fi_Name info) files st in
                             collect_dirs rest st
               end
           end
  end.

Definition collect_versions : fal collected :=
  match sqlFiles versionScripts with
  | inl err => inl (Wrapped "unable to open versions/dev directory" err)
  | inr devDirFile =>
      match f_Readdir devDirFile with
      | inl err => inl (Wrapped "unable to get directory entries" err)
      | inr entries => collect_dirs entries ([], ∅)
      end
  end.

(** [Versions.Less] of the package: [LT]. *)
Definition VLess (a b : Version) : bool := (VCompare a b <? 0)%Z.

Definition in_range (from to v : Version) : bool :=
  (VCompare from v <? 0)%Z && (0 <=? VCompare to v)%Z.

(** The loop over the sorted versions; a missing map entry would read as [""]. *)
Fixpoint exec_versions (tx : T) (from to : Version) (versionMap : gmap string string)
    (versions : list Version) : T * option goerror :=
  match versions with
  | [] => (tx, None)
  | v :: rest =>
      if in_range from to v then
        match execMigrationFile tx (default "" (versionMap !! VString v)) with
        | (tx, Some err) => (tx, Some err)
        | (tx, None) => exec_versions tx from to versionMap rest
        end
      else exec_versions tx from to versionMap rest
  end.

Definition upgradeVersion (tx : T) (from to : Version) : T * option goerror :=
  match collect_versions with
  | inl err => (tx, Some err)
  | inr (versions, versionMap) => exec_versions tx from to versionMap (go_sort VLess versions)
  end.

Definition setDBVersion (tx : T) (version : Version) : T * option goerror :=
  match tx_Exec db tx truncateMigrationsTable [] with
  | (tx, Some err) => (tx, Some (Wrapped "unable to truncate migrations table" err))
  | (tx, None) =>
      match tx_Exec db tx setVersion [AText (VString version)] with
      | (tx, Some err) => (tx, Some (Wrapped "unable to set version in DB" err))
      | (tx, None) => (tx, None)
      end
  end.

Definition ensureVersionTable (d : D) : D * option goerror :=
  match db_Exec db d createMigrationsTable [] with
  | (d, Some err) => (d, Some (Wrapped "error creating migration table" err))
  | (d, None) => (d, None)
  end.

(** The loop over the rows: the last [Scan] wins, and its error. *)
Fixpoint version_rows (scans : list (fal Version)) (version : Version) (err : option goerror)
    : Version * option goerror :=
  match scans with
  | [] => (version, err)
  | inr v :: rest => version_rows rest v None
  | inl e :: rest => version_rows rest version (Some e)
  end.

(** [res.Err()] is not looked at. *)
Definition getDBVersion (d : D) : D * fal Version :=
  match db_Version db d with
  | (d, inl err) => (d, inl (Wrapped "Error getting DB version" err))
    | (d, inr rows) =>
      match version_rows (v_scans rows) Version0 None with
      | (_, Some err) => (d, inl (Wrapped "Error getting DB version" err))
      | (version, None) => (d, inr version)
      end
  end.

Definition devRelease (appVersion : Version) : bool :=
  foldl (λ b pre, if bool_decide (PRString pre = "dev") then true else b) false (Pre appVersion).

(** Run [body] in a transaction: the deferred [Rollback] runs on every path. *)
Definition in_tx (d : D) (body : T → T * option goerror) : D * option goerror :=
  match db_Begin db d with
  | (d, inl err) => (d, Some (Wrapped "unable to start transaction" err))
    | (d, inr tx) =>
      match body tx with
      | (tx, Some err) => (tx_Rollback db d tx, Some err)
      | (tx, None) =>
          match tx_Commit db d tx with
          | (d, tx, Some err) =>
              (tx_Rollback db d tx, Some (Wrapped "unable to commit migration transaction" err))
          | (d, tx, None) => (tx_Rollback db d tx, None)
          end
      end
  end.

(** The statements of the migration proper. *)
Definition migrate_tx (dbVersion appVersion : Version) (tx : T) : T * option goerror :=
  match tx_Exec db tx timescaleInstall [] with
  | (tx, Some err) => (tx, Some (Wrapped "timescaledb failed to install" err))
  | (tx, None) =>
      match (if (VCompare dbVersion Version0 =? 0)%Z
             then execMigrationDir tx preinstallScripts
             else upgradeVersion tx dbVersion appVersion) with
      | (tx, Some err) => (tx, Some err)
      | (tx, None) =>
          match execMigrationDir tx idempotentScripts with
          | (tx, Some err) => (tx, Some err)
          | (tx, None) =>
              match setDBVersion tx appVersion with
              | (tx, Some err) => (tx, Some (Wrapped "error setting clean app version to DB" err))
              | (tx, None) => (tx, None)
              end
          end
      end
  end.

(** [Migrator.Migrate]. *)
Definition Migrator_Migrate (appVersion : Version) (d : D) : D * option goerror :=
  match ensureVersionTable d with
  | (d, Some err) => (d, Some (Wrapped "error ensuring version table" err))
  | (d, None) =>
      match getDBVersion d with
      | (d, inl err) => (d, Some (Wrapped "failed to get the version from database" err))
            | (d, inr dbVersion) =>
          if (VCompare dbVersion appVersion =? 0)%Z then
            if devRelease appVersion then in_tx d (λ tx, execMigrationDir tx idempotentScripts)
            else (d, None)
          else if (0 <? VCompare dbVersion appVersion)%Z then
            (d, Some (Errorf "schema version is above the application version, cannot migrate"))
          else in_tx d (migrate_tx dbVersion appVersion)
      end
  end.

(** [installExtension] sets the package's flag [ExtensionIsInstalled]. *)
Definition installExtension (d : D) : D * bool :=
  match db_Exec db d (extensionInstall extSchema) [] with
  | (d, Some _) => (d, false)
  | (d, None) => (d, true)
  end.

Definition metadataUpdate (d : D) (withExtension : bool) (key value : string) : D :=
  (db_Exec db d (if withExtension then metadataUpdateWithExtension else metadataUpdateNoExtension)
     [AText key; AText value; ABool true]).1.

End migrator.

(** [Migrate]: the database, and the flag [ExtensionIsInstalled]. *)
Definition Migrate `{GoSort} `{Semver} {D T} (db : MDB Version D T) (sqlFiles : string → fal File)
    (versionInfo : VersionInfo) (d : D) : D * bool * option goerror :=
  match db_Acquire db d with
  | (d, Some err) => (d, false, Some (Wrapped "could not acquire connection" err))
  | (d, None) =>
      match semver_Make (vi_Version versionInfo) with
      | inl _ =>
          (db_Release db d, false,
           Some (Errorf "app version is not semver format, aborting migration"))
      | inr appVersion =>
          match Migrator_Migrate db sqlFiles tableOfContets appVersion d with
          | (d, Some err) =>
              (db_Release db d, false, Some (Wrapped "Error encountered during migration" err))
          | (d, None) =>
              let '(d, installed) := installExtension db d in
              let d := metadataUpdate db d installed "version" (vi_Version versionInfo) in
              let d := metadataUpdate db d installed "commit_hash" (CommitHash versionInfo) in
              (db_Release db d, installed, None)
          end
      end
  end.

(** ** Texts: no placeholder is left *)

Lemma replace_all_gone names s p :
  Forall (λ n, apart p n.2 = true) names → p ≠ "" → p ∈ names.*1 →
  occurs p (replace_all names s) = false.
Proof.
  unfold replace_all. intros Ha Hp. revert s.
  assert (Hkeep : ∀ names s, Forall (λ n, apart p n.2 = true) names → occurs p s = false →
    occurs p (foldl (λ s n, ReplaceAll s n.1 n.2) s names) = false).
  { clear names Ha. intros names s Ha. revert s.
    induction Ha as [|[o n] names Hn Ha IH]; intros s Hs; [done|]. simpl. apply IH.
    apply not_true_iff_false. intros Ho. apply ReplaceAll_occurs in Ho; [congruence|done]. }
  induction Ha as [|[o n] names Hn Ha IH]; intros s Hin; [by apply not_elem_of_nil in Hin|].
  rewrite fmap_cons in Hin. cbn [fst snd foldl] in *. apply elem_of_cons in Hin as [->|Hin]; [|by apply IH].
  apply Hkeep; [done|]. by apply ReplaceAll_gone.
Qed.

(** A script never reaches the database with a schema placeholder left in it:
    after the replacements, none of the eight [SCHEMA_...] names occurs in the
    text, whatever the order of the replacements and the text of the file. *)
Theorem replaceSchemaNames_complete (f : File) (s p : string) :
  replaceSchemaNames f = inr s → p ∈ schema_names.*1 → occurs p s = false.
Proof.
  unfold replaceSchemaNames. intros (c & Hc & Hs)%fal_bind_ok Hp.
  destruct (f_Close f); [done|]. assert (s = replace_all schema_names c) as -> by congruence. apply replace_all_gone; [| |done].
  - revert Hp. clear. intros Hp.
    assert (Hall : Forall (λ q, Forall (λ n, apart q n.2 = true) schema_names) schema_names.*1).
    { repeat constructor. }
    rewrite Forall_forall in Hall. by apply Hall.
  - intros ->. apply list_elem_of_In in Hp. vm_compute in Hp. intuition congruence.
Qed.

Lemma replaceSchemaNames_complete_witness :
  let f := MkFile (inr (MkInfo "a.sql" false)) (inr []) (inr "SELECT * FROM SCHEMA_DATA_SERIES.x, SCHEMA_DATA.y") None in
  replaceSchemaNames f = inr "SELECT * FROM prom_data_series.x, prom_data.y"
  ∧ occurs "SCHEMA_DATA" "SELECT * FROM prom_data_series.x, prom_data.y" = false.
Proof.
  intros f. split; [by vm_compute|].
  apply (replaceSchemaNames_complete f); [by vm_compute|].
  apply list_elem_of_In. vm_compute. tauto.
Defined.

(** ** Order of the files *)

#[global] Instance Less_strict_weak : StrictWeak Less.
Proof.
  split; unfold Less; intros *; rewrite ?Z.ltb_lt, ?Z.ltb_ge; lia.
Qed.

(** The files that count: no directories, and a name [%d-%s] can read. *)
Definition well_formed (e : FileInfo) : Prop :=
  fi_IsDir e = false ∧ is_Some (Sscanf_d_s (fi_Name e)).

#[global] Instance well_formed_dec e : Decision (well_formed e).
Proof. apply _. Defined.

Lemma prefixed_names_spec entries :
  name <$> prefixed_names entries = fi_Name <$> filter well_formed entries ∧
  Forall (λ p, Sscanf_d_s (name p) = Some (prefix p)) (prefixed_names entries).
Proof.
  induction entries as [|e entries [IH1 IH2]]; [done|]. cbn [prefixed_names].
  rewrite filter_cons. destruct (fi_IsDir e) eqn:Hd.
  { rewrite decide_False by (intros [? _]; congruence). done. }
  destruct (Sscanf_d_s (fi_Name e)) eqn:Hs.
  - rewrite decide_True by (split; [done|by rewrite Hs]).
    rewrite !fmap_cons. cbn [name]. split; [by f_equal|]. by constructor.
  - rewrite decide_False by (intros [_ [? ?]]; congruence). done.
Qed.

(** [orderFilesNaturally] returns the well-formed file names, each as often
    as it was listed, and in the order of their numeric prefixes. *)
Theorem orderFilesNaturally_spec `{GoSort} (entries : list FileInfo) :
  orderFilesNaturally entries ≡ₚ fi_Name <$> filter well_formed entries ∧
  StronglySorted (λ a b, ∃ i j, Sscanf_d_s a = Some i ∧ Sscanf_d_s b = Some j ∧ (i ≤ j)%Z)
    (orderFilesNaturally entries).
Proof.
  destruct (prefixed_names_spec entries) as [Hn Hp]. unfold orderFilesNaturally, getNames.
  split; [by rewrite go_sort_perm, Hn|].
  rewrite <-(go_sort_perm Less) in Hp.
  pose proof (go_sort_sorted Less (prefixed_names entries) _) as Hs. revert Hp Hs.
  generalize (go_sort Less (prefixed_names entries)) as l. clear.
  induction l as [|p l IH]; intros Hp Hs; [constructor|].
  inversion Hp as [|? ? Hp1 Hp2]; inversion Hs as [|? ? Hs1 Hs2]; subst.
  rewrite fmap_cons. constructor; [by apply IH|].
  rewrite Forall_fmap. rewrite Forall_forall in Hs2, Hp2 |- *. intros q Hq. unfold compose.
  exists (prefix p), (prefix q). specialize (Hs2 q Hq). unfold Less in Hs2.
  apply Z.ltb_ge in Hs2. auto.
Qed.

Example orderFilesNaturally_numeric :
  orderFilesNaturally [MkInfo "10-b.sql" false; MkInfo "9-a.sql" false; MkInfo "dir" true;
                       MkInfo "README" false] = ["9-a.sql"; "10-b.sql"].
Proof. by vm_compute. Qed.

(** ** The upgrade path *)

Section upgrade.
Context `{GoSort} `{Semver} {D T : Type}.
Context (db : MDB Version D T) (sqlFiles : string → fal File).

(** Reference: all migration files with their versions, in directory order. *)
Definition versions_of (dirName : string) (entries : list FileInfo) : fal (list (Version * string)) :=
  foldr (λ info l,
    let! v := getMigrationFileVersion dirName (fi_Name info) in
    let! l := l in
    inr ((v, (versionScripts ++ "/" ++ dirName ++ "/" ++ fi_Name info)%string) :: l))
    (inr []) entries.

Definition list_dirs (entries : list FileInfo) : fal (list (Version * string)) :=
  foldr (λ info l,
    if fi_IsDir info then
      let! dir := sqlFiles (versionScripts ++ "/" ++ fi_Name info)%string in
      let! files := f_Readdir dir in
      let! vs := versions_of (fi_Name info) files in
      let! l := l in inr (vs ++ l)
    else inl (Errorf "not a directory"))
    (inr []) entries.

Definition listed_versions : fal (list (Version * string)) :=
  let! devDirFile := sqlFiles versionScripts in
  let! entries := f_Readdir devDirFile in
  list_dirs entries.

(** The strings of the versions are distinct. *)
Definition distinct (fs : list (Version * string)) : Prop := NoDup (VString <$> fs.*1).

(** [st] holds the files [fs], whose version strings are distinct. *)
Definition collects (st : list Version * gmap string string) (fs : list (Version * string)) : Prop :=
  st.1 = fs.*1 ∧ distinct fs ∧
  (∀ v p, (v, p) ∈ fs → st.2 !! VString v = Some p) ∧
  (∀ k, is_Some (st.2 !! k) → k ∈ VString <$> fs.*1).

(** The outcome of a collecting loop that adds the files of [listing] to [fs]. *)
Definition collected_ok (fs : list (Version * string)) (listing : fal (list (Version * string)))
    (r : fal (list Version * gmap string string)) : Prop :=
  match r with
  | inr st' => ∃ vs, listing = inr vs ∧ collects st' (fs ++ vs)
  | inl _ => ∀ vs, listing = inr vs → ¬ distinct (fs ++ vs)
  end.

Lemma collects_snoc st fs v p :
  collects st fs → st.2 !! VString v = None →
  collects (st.1 ++ [v], <[VString v := p]> st.2) (fs ++ [(v, p)]).
Proof.
  intros (Hf & Hd & Hm & Hk) Hnone.
  assert (VString v ∉ VString <$> fs.*1) as Hni.
  { intros Hin. rewrite <-list_fmap_compose in Hin. apply list_elem_of_fmap in Hin as ([w q] & Hw & Hin).
    apply Hm in Hin. simpl in Hw. congruence. }
  split; [|split; [|split]]; cbn [fst snd].
  - rewrite fmap_app. by f_equal.
  - unfold distinct. rewrite !fmap_app. apply NoDup_app. split; [done|].
    split; [|apply NoDup_singleton].
    intros x Hx ->%list_elem_of_singleton. done.
  - intros w q [Hin|Hin]%elem_of_app.
    + rewrite lookup_insert_ne; [by apply Hm|]. intros Heq. apply Hni. rewrite Heq.
      rewrite <-list_fmap_compose. by apply (list_elem_of_fmap_2 (VString ∘ fst) fs (w, q)).
    + apply list_elem_of_singleton in Hin. simplify_eq. by rewrite lookup_insert_eq.
  - intros k. rewrite !fmap_app. rewrite elem_of_app. destruct (decide (k = VString v)) as [->|Hne].
    + intros _. right. by apply list_elem_of_singleton.
    + rewrite lookup_insert_ne by done. intros ?%Hk. by left.
Qed.

Lemma not_distinct_dup fs v p vs :
  VString v ∈ VString <$> fs.*1 → ¬ distinct (fs ++ (v, p) :: vs).
Proof.
  unfold distinct. rewrite !fmap_app, !fmap_cons. intros Hin (_ & Hd & _)%NoDup_app.
  apply (Hd _ Hin). simpl. by left.
Qed.

Lemma collect_files_spec dirName entries st fs :
  collects st fs →
  collected_ok fs (versions_of dirName entries) (collect_files dirName entries st).
Proof.
  revert st fs. induction entries as [|info entries IH]; intros st fs Hst.
  { simpl. exists []. by rewrite app_nil_r. }
  cbn [collect_files versions_of foldr].
  destruct (getMigrationFileVersion dirName (fi_Name info)) as [e|v]; cbn [fal_bind]; [done|].
  destruct (st.2 !! VString v) eqn:Hv.
  - simpl. intros vs (l & _ & ?)%fal_bind_ok. simplify_eq.
    apply not_distinct_dup. destruct Hst as (_ & _ & _ & Hk). apply Hk. by rewrite Hv.
  - specialize (IH _ _ (collects_snoc st fs v
      (versionScripts ++ "/" ++ dirName ++ "/" ++ fi_Name info)%string Hst Hv)).
    destruct (collect_files _ _ _) as [e|st']; simpl in IH |- *.
    + intros vs (l & Hl & ?)%fal_bind_ok. simplify_eq. apply IH in Hl. by rewrite <-(assoc_L (++)) in Hl.
    + destruct IH as (vs & Hvs & Hc). fold (versions_of dirName entries). rewrite Hvs. simpl.
      eexists. split; [done|]. by rewrite <-(assoc_L (++)) in Hc.
Qed.

Lemma collect_dirs_spec entries st fs :
  collects st fs → collected_ok fs (list_dirs entries) (collect_dirs sqlFiles entries st).
Proof.
  revert st fs. induction entries as [|info entries IH]; intros st fs Hst.
  { simpl. exists []. by rewrite app_nil_r. }
  cbn [collect_dirs list_dirs foldr]. fold (list_dirs entries).
  destruct (fi_IsDir info); cbn [negb]; [|done].
  destruct (sqlFiles _) as [e|dir]; cbn [fal_bind]; [done|].
  destruct (f_Readdir dir) as [e|files]; cbn [fal_bind]; [done|].
  pose proof (collect_files_spec (fi_Name info) files st fs Hst) as Hfiles.
  destruct (collect_files _ _ _) as [e|st'] eqn:E; simpl in Hfiles; cbn [fal_bind].
  - simpl. intros vs (vs1 & Hvs1 & (l & _ & ?)%fal_bind_ok)%fal_bind_ok. simplify_eq.
    apply Hfiles in Hvs1. contradict Hvs1. unfold distinct in *.
    rewrite (assoc_L (++)), !fmap_app in Hvs1. apply NoDup_app in Hvs1 as [Hvs1 _].
    by rewrite !fmap_app.
  - destruct Hfiles as (vs1 & -> & Hc). cbn [fal_bind]. specialize (IH _ _ Hc).
    destruct (collect_dirs _ _ _) as [e|st'']; simpl in IH |- *.
    + intros vs (l & Hl & ?)%fal_bind_ok. simplify_eq. apply IH in Hl. by rewrite <-(assoc_L (++)) in Hl.
    + destruct IH as (vs & -> & Hc'). simpl. eexists. split; [done|].
      by rewrite <-(assoc_L (++)) in Hc'.
Qed.

Lemma collect_versions_spec :
  collected_ok [] listed_versions (collect_versions sqlFiles).
Proof.
  unfold collect_versions, listed_versions.
  destruct (sqlFiles versionScripts) as [e|dir]; cbn [fal_bind]; [done|].
  destruct (f_Readdir dir) as [e|entries]; cbn [fal_bind]; [done|].
  apply collect_dirs_spec. split; [done|]. split; [apply NoDup_nil_2|].
  split; [by intros ? ? ?%not_elem_of_nil|]. simpl. intros k [? Hk]. by rewrite lookup_empty in Hk.
Qed.

Lemma exec_versions_files tx from to versionMap versions :
  exec_versions db sqlFiles tx from to versionMap versions =
  exec_files db sqlFiles tx
    ((λ v, default "" (versionMap !! VString v)) <$> filter (λ v, in_range from to v = true) versions).
Proof.
  revert tx. induction versions as [|v versions IH]; intros tx; [done|].
  cbn [exec_versions]. rewrite filter_cons. destruct (in_range from to v).
  - rewrite decide_True by done. rewrite fmap_cons. cbn [exec_files].
    destruct (execMigrationFile _ _ _ _) as [tx' [e|]]; [done|]. apply IH.
  - rewrite decide_False by done. apply IH.
Qed.

(** The files in the order they are run in. *)
Definition sorted_files (st : list Version * gmap string string) : list (Version * string) :=
  (λ v, (v, default "" (st.2 !! VString v))) <$> go_sort VLess st.1.

Lemma sorted_files_perm st fs : collects st fs → sorted_files st ≡ₚ fs.
Proof.
  intros (Hf & _ & Hm & _). unfold sorted_files. rewrite go_sort_perm, Hf.
  rewrite <-list_fmap_compose. apply reflexive_eq. rewrite <-(list_fmap_id fs) at 2.
  apply list_fmap_ext. intros i [v p] Hi%list_elem_of_lookup_2. simpl. by rewrite (Hm v p).
Qed.

Lemma sorted_files_sorted `{!StrictWeak VLess} st :
  StronglySorted (λ a b, VLess b.1 a.1 = false) (sorted_files st).
Proof.
  unfold sorted_files. pose proof (go_sort_sorted VLess st.1 _) as Hs.
  induction Hs as [|v l Hl IH Hv]; [constructor|]. rewrite fmap_cons. constructor; [done|].
  rewrite Forall_fmap. by eapply Forall_impl.
Qed.

Lemma upgradeVersion_files tx from to st :
  collect_versions sqlFiles = inr st →
  upgradeVersion db sqlFiles tx from to =
  exec_files db sqlFiles tx (snd <$> filter (λ p, in_range from to p.1 = true) (sorted_files st)).
Proof.
  intros E. unfold upgradeVersion, sorted_files. rewrite E. destruct st as [versions m].
  rewrite exec_versions_files. f_equal. simpl.
  induction (go_sort VLess versions) as [|v l IH]; [done|].
  rewrite fmap_cons, !filter_cons. simpl. destruct (in_range from to v) eqn:Hr.
  - rewrite !decide_True by done. rewrite !fmap_cons. by f_equal.
  - rewrite !decide_False by done. done.
Qed.

Lemma in_range_spec from to v :
  in_range from to v = true ↔ (VCompare from v < 0 ∧ 0 ≤ VCompare to v)%Z.
Proof. unfold in_range. by rewrite andb_true_iff, Z.ltb_lt, Z.leb_le. Qed.

(** C28. [upgradeVersion] runs exactly the migration files whose version lies in
    the half-open range [(from, to]], each once and in ascending version order,
    when the directories can be read and no two files have the same version;
    otherwise it returns an error without having run a statement. *)
Theorem upgradeVersion_spec `{!StrictWeak VLess} (from to : Version) :
  (∃ fs sorted, listed_versions = inr fs ∧ distinct fs ∧ sorted ≡ₚ fs ∧
     StronglySorted (λ a b, VLess b.1 a.1 = false) sorted ∧
     ∀ tx, upgradeVersion db sqlFiles tx from to =
       exec_files db sqlFiles tx
         (snd <$> filter (λ p, (VCompare from p.1 < 0 ∧ 0 ≤ VCompare to p.1)%Z) sorted)) ∨
  ((∀ fs, listed_versions = inr fs → ¬ distinct fs) ∧
   ∃ e, ∀ tx, upgradeVersion db sqlFiles tx from to = (tx, Some e)).
Proof.
  pose proof collect_versions_spec as Hc. unfold collected_ok in Hc.
  destruct (collect_versions sqlFiles) as [e|st] eqn:E.
  - right. split; [exact Hc|]. exists e. intros tx. unfold upgradeVersion. by rewrite E.
  - left. destruct Hc as (fs & Hfs & Hc). exists fs, (sorted_files st).
    split; [done|]. split; [apply Hc|]. split; [by apply sorted_files_perm|].
    split; [apply sorted_files_sorted|]. intros tx.
    rewrite (upgradeVersion_files tx from to st E). do 2 f_equal.
    apply list_filter_iff. intros p. apply in_range_spec.
Qed.

End upgrade.

(** ** The migration as one atomic run *)

(** What a database with transactions promises about its visible contents [S]:
    [sql s q args s'] is a statement that succeeds.  A transaction works on its own
    contents, [Commit] makes them visible, all of them or none when it returns an error
    (the connection may break before or after the database commits), and [Rollback]
    never changes what is visible: before a commit it discards, after one it does
    nothing. *)
Record MDBLaws {V D T S : Type} (db : MDB V D T) (sql : S → string → list arg → S → Prop)
    (view : D → S) (tview : T → S) : Prop := {
  law_Exec d q a d' : db_Exec db d q a = (d', None) → sql (view d) q a (view d');
  law_Version d : view (db_Version db d).1 = view d;
  law_Begin d : view (db_Begin db d).1 = view d;
  law_Begin_tx d d' tx : db_Begin db d = (d', inr tx) → tview tx = view d;
  law_tx_Exec tx q a tx' : tx_Exec db tx q a = (tx', None) → sql (tview tx) q a (tview tx');
  law_Commit d tx d' tx' : tx_Commit db d tx = (d', tx', None) → view d' = tview tx;
  law_Commit_err d tx d' tx' e : tx_Commit db d tx = (d', tx', Some e) →
    view d' = view d ∨ view d' = tview tx;
  law_Rollback d tx : view (tx_Rollback db d tx) = view d;
}.

(** A run of statements that all succeed. *)
Inductive runs {S : Type} (sql : S → string → list arg → S → Prop) :
    S → list (string * list arg) → S → Prop :=
  | runs_nil s : runs sql s [] s
  | runs_cons s q a s1 l s2 : sql s q a s1 → runs sql s1 l s2 → runs sql s ((q, a) :: l) s2.

Lemma runs_app {S} (sql : S → string → list arg → S → Prop) s l1 s1 l2 s2 :
  runs sql s l1 s1 → runs sql s1 l2 s2 → runs sql s (l1 ++ l2) s2.
Proof. induction 1; [done|]. intros. simpl. econstructor; eauto. Qed.

Lemma runs_one {S} (sql : S → string → list arg → S → Prop) s q a s1 :
  sql s q a s1 → runs sql s [(q, a)] s1.
Proof. econstructor; [done|constructor]. Qed.
#[export] Hint Resolve runs_app runs_one runs_nil : gosim.

Section refinement.
Context `{GoSort} `{Semver} {D T S : Type}.
Context (db : MDB Version D T) (sqlFiles : string → fal File) (toc : gmap string (list string)).
Context (sql : S → string → list arg → S → Prop) (view : D → S) (tview : T → S).
Context (laws : MDBLaws db sql view tview).

Definition to_option {A} (r : fal A) : option A := match r with inr a => Some a | inl _ => None end.

(** The statement of a script. *)
Definition script (path : string) : option (string * list arg) :=
  c ← to_option (let! f := sqlFiles path in replaceSchemaNames f); Some (c, []).

Definition dir_plan (dirName : string) : option (list (string * list arg)) :=
  entries ← to_option (dir_entries sqlFiles toc dirName); mapM script (Join dirName <$> entries).

Definition upgrade_plan (from to : Version) : option (list (string * list arg)) :=
  st ← to_option (collect_versions sqlFiles);
  mapM script (snd <$> filter (λ p, in_range from to p.1 = true) (sorted_files st)).

(** The abstract migration: which statements take a database of version [dbVersion]
    to [appVersion]; [None] is no migration. *)
Definition migration_plan (dbVersion appVersion : Version) : option (list (string * list arg)) :=
  if (VCompare dbVersion appVersion =? 0)%Z then
    if devRelease appVersion then dir_plan idempotentScripts else Some []
  else if (0 <? VCompare dbVersion appVersion)%Z then None
  else
    scripts ← (if (VCompare dbVersion Version0 =? 0)%Z then dir_plan preinstallScripts
               else upgrade_plan dbVersion appVersion);
    idempotent ← dir_plan idempotentScripts;
    Some ((timescaleInstall, []) :: scripts ++ idempotent ++
          [(truncateMigrationsTable, []); (setVersion, [AText (VString appVersion)])]).

(** [body] without an error runs the statements of [plan]. *)
Definition performs (body : T → T * option goerror) (plan : option (list (string * list arg))) : Prop :=
  ∀ tx tx', body tx = (tx', None) → ∃ l, plan = Some l ∧ runs sql (tview tx) l (tview tx').

Lemma execMigrationFile_ok tx tx' path :
  execMigrationFile db sqlFiles tx path = (tx', None) →
  ∃ q, script path = Some q ∧ runs sql (tview tx) [q] (tview tx').
Proof.
  unfold execMigrationFile, script. destruct (sqlFiles path) as [e|f]; [done|]. cbn [fal_bind].
  destruct (replaceSchemaNames f) as [e|c]; [done|].
  destruct (tx_Exec db tx c []) as [tx1 [e|]] eqn:E; [done|]. intros ?; simplify_eq/=.
  eexists. split; [done|]. apply runs_one. by eapply law_tx_Exec.
Qed.

Lemma exec_files_performs files :
  performs (λ tx, exec_files db sqlFiles tx files) (mapM script files).
Proof.
  intros tx. revert tx. induction files as [|f files IH]; intros tx tx'; simpl.
  { intros ?; simplify_eq. eauto with gosim. }
  destruct (execMigrationFile db sqlFiles tx f) as [tx1 [e|]] eqn:E; [done|].
  intros (l & -> & Hl)%IH. apply execMigrationFile_ok in E as (q & -> & Hq). simpl.
  eexists. split; [done|]. by apply (runs_app _ _ [q] (tview tx1) l).
Qed.

Lemma execMigrationDir_performs dirName :
  performs (λ tx, execMigrationDir db sqlFiles toc tx dirName) (dir_plan dirName).
Proof.
  intros tx tx'. unfold execMigrationDir, dir_plan.
  destruct (dir_entries sqlFiles toc dirName) as [e|entries]; [done|]. apply exec_files_performs.
Qed.

Lemma upgradeVersion_performs from to :
  performs (λ tx, upgradeVersion db sqlFiles tx from to) (upgrade_plan from to).
Proof.
  intros tx tx'. unfold upgrade_plan. destruct (collect_versions sqlFiles) as [e|st] eqn:E.
  { unfold upgradeVersion. by rewrite E. }
  rewrite (upgradeVersion_files db sqlFiles tx from to st E). apply exec_files_performs.
Qed.

Lemma setDBVersion_performs v :
  performs (λ tx, setDBVersion db tx v)
    (Some [(truncateMigrationsTable, []); (setVersion, [AText (VString v)])]).
Proof.
  intros tx tx'. unfold setDBVersion.
  destruct (tx_Exec db tx _ _) as [tx1 [e|]] eqn:E1; [done|].
  destruct (tx_Exec db tx1 _ _) as [tx2 [e|]] eqn:E2; [done|]. intros ?; simplify_eq.
  eexists. split; [done|]. apply (law_tx_Exec _ _ _ _ laws) in E1, E2.
  econstructor; [exact E1|]. by apply runs_one.
Qed.

Lemma migrate_tx_performs dbVersion appVersion :
  (VCompare dbVersion appVersion < 0)%Z →
  performs (migrate_tx db sqlFiles toc dbVersion appVersion) (migration_plan dbVersion appVersion).
Proof.
  intros Hlt tx tx'. unfold migrate_tx, migration_plan.
  rewrite (proj2 (Z.eqb_neq (VCompare dbVersion appVersion) 0)), (proj2 (Z.ltb_ge _ _)) by lia.
  destruct (tx_Exec db tx _ _) as [tx1 [e|]] eqn:E1; [done|].
  destruct (if (VCompare dbVersion Version0 =? 0)%Z then _ else _) as [tx2 [e|]] eqn:E2; [done|].
  destruct (execMigrationDir _ _ _ tx2 _) as [tx3 [e|]] eqn:E3; [done|].
  destruct (setDBVersion _ tx3 _) as [tx4 [e|]] eqn:E4; [done|]. intros ?; simplify_eq.
  assert (∃ l, (if (VCompare dbVersion Version0 =? 0)%Z then dir_plan preinstallScripts
                else upgrade_plan dbVersion appVersion) = Some l ∧ runs sql (tview tx1) l (tview tx2))
    as (l2 & -> & H2).
  { destruct (VCompare dbVersion Version0 =? 0)%Z.
    - by apply execMigrationDir_performs.
    - by apply upgradeVersion_performs. }
  apply execMigrationDir_performs in E3 as (l3 & -> & H3).
  apply setDBVersion_performs in E4 as (l4 & [= <-] & H4).
  eexists. split; [done|]. econstructor; [by eapply law_tx_Exec|]. eauto with gosim.
Qed.

Lemma in_tx_atomic d body plan d' r :
  performs body plan → in_tx db d body = (d', r) →
  match r with
  | None => ∃ l, plan = Some l ∧ runs sql (view d) l (view d')
  | Some e => view d' = view d ∨
      (∃ i, e = Wrapped "unable to commit migration transaction" i) ∧
      ∃ l, plan = Some l ∧ runs sql (view d) l (view d')
  end.
Proof.
  intros Hb. unfold in_tx. pose proof (law_Begin _ _ _ _ laws d) as Hbegin.
  destruct (db_Begin db d) as [d1 [e|tx]] eqn:E1; intros Hr; simplify_eq/=; [by left|].
  apply (law_Begin_tx _ _ _ _ laws) in E1.
  destruct (body tx) as [tx1 [e|]] eqn:E2; simplify_eq.
  { left. by rewrite (law_Rollback _ _ _ _ laws). }
  destruct (tx_Commit db d1 tx1) as [[d2 tx2] [e|]] eqn:E3; simplify_eq.
  { rewrite (law_Rollback _ _ _ _ laws). apply (law_Commit_err _ _ _ _ laws) in E3 as [->| ->]; [by left|right].
    split; [by eauto|]. apply Hb in E2. by rewrite <-E1. }
  apply Hb in E2 as (l & -> & Hl). exists l. split; [done|].
  rewrite (law_Rollback _ _ _ _ laws). apply (law_Commit _ _ _ _ laws) in E3.
  by rewrite E3, <-E1.
Qed.

(** C27. A migration refines one atomic run of the plan.  Once the version table
    exists and [dbVersion] was read, [Migrate] without an error took the visible
    database through exactly the statements of [migration_plan], in that order; with an
    error it left the database as it was, or, when the error is that of the COMMIT, the
    whole plan was applied nevertheless. *)
Theorem Migrate_refines appVersion dbVersion d d0 d1 d' r :
  ensureVersionTable db d = (d0, None) →
  getDBVersion db d0 = (d1, inr dbVersion) →
  Migrator_Migrate db sqlFiles toc appVersion d = (d', r) →
  match r with
  | None => ∃ l, migration_plan dbVersion appVersion = Some l ∧ runs sql (view d0) l (view d')
  | Some e => view d' = view d0 ∨
      (∃ i, e = Wrapped "unable to commit migration transaction" i) ∧
      ∃ l, migration_plan dbVersion appVersion = Some l ∧ runs sql (view d0) l (view d')
  end.
Proof.
  intros Hensure Hget. unfold Migrator_Migrate. rewrite Hensure, Hget.
  assert (view d1 = view d0) as Hd1.
  { pose proof (law_Version _ _ _ _ laws d0) as Hv. unfold getDBVersion in Hget.
    destruct (db_Version db d0) as [d2 [e|rows]]; simplify_eq/=. by repeat case_match; simplify_eq. }
  rewrite <-Hd1. destruct (VCompare dbVersion appVersion =? 0)%Z eqn:Heq.
  - destruct (devRelease appVersion) eqn:Hdev.
    + intros Htx. eapply in_tx_atomic; [|exact Htx]. unfold migration_plan. rewrite Heq, Hdev.
      apply execMigrationDir_performs.
    + intros ?; simplify_eq. exists []. unfold migration_plan. rewrite Heq, Hdev.
      eauto with gosim.
  - destruct (0 <? VCompare dbVersion appVersion)%Z eqn:Hgt; [intros ?; simplify_eq; by left|].
    apply Z.eqb_neq in Heq. apply Z.ltb_ge in Hgt.
    intros Htx. eapply in_tx_atomic; [|exact Htx]. apply migrate_tx_performs. lia.
Qed.

End refinement.

(** ** A small instance: versions, files and a database *)

Module Toy.

(** A release number and an optional prerelease number. *)
Definition toy_key (v : Z * option Z) : Z := (v.1 * 1000 + default 999%Z v.2)%Z.

#[local] Instance toy_semver : Semver := {|
  Version := Z * option Z;
  PRVersion := Z;
  semver_Make s := match Sscanf_d s with Some n => inr (n, Some 0%Z) | None => inl (Errorf s) end;
  VCompare a b := (toy_key a - toy_key b)%Z;
  VString v := (pretty v.1 ++ "-" ++ pretty (default 999%Z v.2))%string;
  Pre v := match v.2 with Some n => [n] | None => [] end;
  append_Pre v n := (v.1, Some n);
  PRString n := pretty n;
  NewPRVersion s := match Sscanf_d s with Some n => inr n | None => inl (Errorf s) end;
  Version0 := (0%Z, Some 0%Z);
|}.

#[local] Instance toy_VLess : StrictWeak VLess.
Proof.
  split; unfold VLess; simpl; intros *; rewrite ?Z.ltb_lt, ?Z.ltb_ge; lia.
Qed.

Definition toy_text (s : string) : fal File :=
  inr (MkFile (inr (MkInfo s false)) (inr []) (inr s) None).
Definition toy_dir (l : list FileInfo) : fal File :=
  inr (MkFile (inr (MkInfo "" true)) (inr l) (inr "") None).

Definition toy_files (path : string) : fal File :=
  if bool_decide (path = "versions/dev") then toy_dir [MkInfo "2" true; MkInfo "1" true]
  else if bool_decide (path = "versions/dev/1") then toy_dir [MkInfo "2-b.sql" false; MkInfo "1-a.sql" false]
  else if bool_decide (path = "versions/dev/2") then toy_dir [MkInfo "1-c.sql" false]
  else if bool_decide (path = "idempotent") then toy_dir []
  else toy_text path.

(** The database is the list of statements run, with the version it answers. *)
Definition toy_log : Type := list (string * list arg).

Definition toy_db : MDB (@Version toy_semver) toy_log toy_log := {|
  db_Acquire d := (d, None);
  db_Release d := d;
  db_Exec d q a := (d ++ [(q, a)], None);
  db_Version d := (d, inr (MkMigRows [inr (1%Z, Some 1%Z)] None));
  db_Begin d := (d, inr d);
  tx_Exec t q a := (t ++ [(q, a)], None);
  tx_Commit _ t := (t, t, None);
  tx_Rollback d _ := d;
|}.

Definition toy_sql (s : toy_log) (q : string) (a : list arg) (s' : toy_log) : Prop := s' = s ++ [(q, a)].

Lemma toy_laws : MDBLaws toy_db toy_sql id id.
Proof. split; unfold toy_sql; simpl; intros; by simplify_eq. Qed.

Definition toy_toc : gmap string (list string) := {["idempotent" := ["base.sql"]]}.

Lemma upgradeVersion_spec_witness :
  upgradeVersion toy_db toy_files [] (1%Z, Some 1%Z) (2%Z, Some 1%Z)
  = ([("versions/dev/1/2-b.sql", []); ("versions/dev/2/1-c.sql", [])], None) ∧
  ∃ sorted, (∀ tx, upgradeVersion toy_db toy_files tx (1%Z, Some 1%Z) (2%Z, Some 1%Z) =
    exec_files toy_db toy_files tx
      (snd <$> filter (λ p, (VCompare (1%Z, Some 1%Z) p.1 < 0 ∧ 0 ≤ VCompare (2%Z, Some 1%Z) p.1)%Z) sorted)).
Proof.
  split; [by vm_compute|].
  destruct (upgradeVersion_spec toy_db toy_files (1%Z, Some 1%Z) (2%Z, Some 1%Z))
    as [(fs & sorted & _ & _ & _ & _ & Hup)|[_ [e He]]].
  - exists sorted. exact Hup.
  - exfalso. specialize (He []). vm_compute in He. discriminate.
Defined.

(** The same database when the connection breaks after the COMMIT. *)
Definition breaking_db : MDB (@Version toy_semver) toy_log toy_log := {|
  db_Acquire := db_Acquire toy_db; db_Release := db_Release toy_db; db_Exec := db_Exec toy_db;
  db_Version := db_Version toy_db; db_Begin := db_Begin toy_db; tx_Exec := tx_Exec toy_db;
  tx_Commit _ t := (t, t, Some (Errorf "unexpected EOF")); tx_Rollback := tx_Rollback toy_db;
|}.

Lemma breaking_laws : MDBLaws breaking_db toy_sql id id.
Proof. split; unfold toy_sql; simpl; intros; simplify_eq; auto. Qed.

Lemma Migrate_refines_witness :
  (∃ l, migration_plan toy_files toy_toc (1%Z, Some 1%Z) (2%Z, None) = Some l ∧
       runs toy_sql [(createMigrationsTable, [])] l
         (Migrator_Migrate toy_db toy_files toy_toc (2%Z, None) []).1) ∧
  ∃ e d', Migrator_Migrate breaking_db toy_files toy_toc (2%Z, None) [] = (d', Some e) ∧
    ∃ l, migration_plan toy_files toy_toc (1%Z, Some 1%Z) (2%Z, None) = Some l ∧
       runs toy_sql [(createMigrationsTable, [])] l d'.
Proof.
  split.
  - destruct (Migrator_Migrate toy_db toy_files toy_toc (2%Z, None) []) as [d' r] eqn:E.
    pose proof (Migrate_refines toy_db toy_files toy_toc toy_sql id id toy_laws (2%Z, None)
      (1%Z, Some 1%Z) [] [(createMigrationsTable, [])] [(createMigrationsTable, [])] d' r
      eq_refl eq_refl E) as Hr.
    assert (r = None) as ->.
    { pose proof (f_equal snd E) as Er. vm_compute in Er. congruence. }
    exact Hr.
  - destruct (Migrator_Migrate breaking_db toy_files toy_toc (2%Z, None) []) as [d' r] eqn:E.
    pose proof (Migrate_refines breaking_db toy_files toy_toc toy_sql id id breaking_laws (2%Z, None)
      (1%Z, Some 1%Z) [] [(createMigrationsTable, [])] [(createMigrationsTable, [])] d' r
      eq_refl eq_refl E) as Hr.
    assert (∃ e, r = Some e) as [e ->].
    { pose proof (f_equal snd E) as Er. vm_compute in Er. exists (Wrapped "unable to commit migration transaction" (Errorf "unexpected EOF")). congruence. }
    exists e, d'. split; [reflexivity|]. destruct Hr as [Hr|[_ Hr]]; [|exact Hr].
    exfalso.
    assert ((length (Migrator_Migrate breaking_db toy_files toy_toc (2%Z, None) []).1 =? 1) = false) as Hl
      by (vm_compute; reflexivity).
    rewrite E in Hl. unfold id in Hr. cbn [fst] in Hl. by rewrite Hr in Hl.
Defined.

(** The rows of the version query may end in an error: [getDBVersion] does not ask
    for it and answers the version of an empty database, so that [Migrate] runs the
    preinstall scripts. *)
Example getDBVersion_drops_rows_err :
  let db := {| db_Acquire := db_Acquire toy_db; db_Release := db_Release toy_db;
               db_Exec := db_Exec toy_db;
               db_Version := λ d, (d, inr (MkMigRows [] (Some (PgError "57014" "canceled"))));
               db_Begin := db_Begin toy_db; tx_Exec := tx_Exec toy_db;
               tx_Commit := tx_Commit toy_db; tx_Rollback := tx_Rollback toy_db |} in
  getDBVersion db [] = ([], inr Version0) ∧
  (fst <$> (Migrator_Migrate db toy_files ∅ (2%Z, None) []).1 !! 1) = Some timescaleInstall.
Proof. by vm_compute. Qed.

End Toy.

End Mig.
