(* ===== verification/Election.v ===== *)
(** * Leader election

    [src/pkg/util/election.go] and [lock.go]: the [Election] interface with its
    two implementations, [RestElection] and [PgAdvisoryLock], the wrapper
    [Elector] and the [ScheduledElector]; [initElector] and [isWriter] of
    [src/cmd/timescale-prometheus/main.go].

    An operation of an election works on the election's state and returns [None]
    when it does not return: it blocks forever on the election's mutex, or panics.  PostgreSQL's advisory locks
    are the class [PgLocks] with the laws the manual documents. *)
From S2P Require Import Prelude GoStrings.
From stdpp Require Import pretty.

Module Elect.

(** ** The interface *)

(** An operation: no return, or the next state with a flag and an error. *)
Notation outcome E := (option (E * bool * option goerror)).

Class ElectionOps (E : Type) := {
  el_ID : E → string;
  el_BecomeLeader : E → outcome E;
  el_IsLeader : E → outcome E;
  el_Resign : E → option (E * option goerror);
}.

(** What the interface promises: [el_leads] is the leadership itself. *)
Class ElectionLaws (E : Type) `{ElectionOps E} := {
  el_inv : E → Prop;
  el_leads : E → Prop;
  el_BecomeLeader_spec e e' b err : el_inv e → el_BecomeLeader e = Some (e', b, err) →
    el_inv e' ∧ (b = true → err = None ∧ el_leads e');
  el_IsLeader_spec e e' b err : el_inv e → el_IsLeader e = Some (e', b, err) →
    el_inv e' ∧ (b = true → err = None ∧ el_leads e');
  el_Resign_spec e e' err : el_inv e → el_Resign e = Some (e', err) →
    err = None → el_inv e' ∧ ¬ el_leads e';
}.

(** ** [Elector]: the log lines are left out *)

Section elector.
Context {E : Type} `{ElectionOps E}.

Record Elector := NewElector { election : E }.

Definition with_election (r : outcome E) : outcome Elector :=
  match r with
  | Some (e, b, err) => Some (NewElector e, b, err)
  | None => None
  end.

Definition Elector_ID (e : Elector) : string := el_ID (election e).
Definition Elector_BecomeLeader (e : Elector) : outcome Elector :=
  with_election (el_BecomeLeader (election e)).
Definition Elector_IsLeader (e : Elector) : outcome Elector :=
  with_election (el_IsLeader (election e)).
Definition Elector_Resign (e : Elector) : option (Elector * option goerror) :=
  match el_Resign (election e) with
  | Some (e, err) => Some (NewElector e, err)
  | None => None
  end.

(** ** [ScheduledElector] *)

Record ScheduledElector := MkScheduled { elector : Elector; pausedScheduledElection : bool }.

Definition pauseScheduledElection (se : ScheduledElector) : ScheduledElector :=
  MkScheduled (elector se) true.
Definition resumeScheduledElection (se : ScheduledElector) : ScheduledElector :=
  MkScheduled (elector se) false.
Definition isScheduledElectionPaused (se : ScheduledElector) : bool := pausedScheduledElection se.

Definition NewScheduledElector (e : E) : ScheduledElector := MkScheduled (NewElector e) false.

(** [elapsed] is the time since the last request. *)
Definition PrometheusLivenessCheck (se : ScheduledElector) (elapsed timeout : Z)
    : option ScheduledElector :=
  match Elector_IsLeader (elector se) with
  | None => None
  | Some (el, leader, _) =>
      let se := MkScheduled el (pausedScheduledElection se) in
      if leader then
        if (timeout <? elapsed)%Z then
          let se := pauseScheduledElection se in
          match Elector_Resign (elector se) with
          | None => None
          | Some (el, _) => Some (MkScheduled el (pausedScheduledElection se))
          end
        else Some se
      else if isScheduledElectionPaused se && (elapsed <? timeout)%Z
      then Some (resumeScheduledElection se)
      else Some se
  end.

Definition elect (se : ScheduledElector) : option (ScheduledElector * bool) :=
  match Elector_IsLeader (elector se) with
  | None => None
  | Some (el, leader, err) =>
      let se := MkScheduled el (pausedScheduledElection se) in
      match err with
      | Some _ => Some (se, leader)
      | None =>
          if leader then Some (se, leader)
          else match Elector_BecomeLeader (elector se) with
               | None => None
               | Some (el, leader, _) => Some (MkScheduled el (pausedScheduledElection se), leader)
               end
      end
  end.

(** One tick of the loop [scheduledElection]. *)
Definition scheduledElection (se : ScheduledElector) : option ScheduledElector :=
  if isScheduledElectionPaused se then Some se
  else match elect se with
       | None => None
       | Some (se, _) => Some se
       end.

(** [isWriter] of the main program and of the write handler: [elector] may be nil. *)
Definition isWriter (e : option Elector) : option (option Elector * bool * option goerror) :=
  match e with
  | Some e =>
      match Elector_IsLeader e with
      | Some (e, shouldWrite, err) => Some (Some e, shouldWrite, err)
      | None => None
      end
  | None => Some (None, true, None)
  end.

(** *** Theorems against the interface *)

Context `{!ElectionLaws E}.

Lemma Elector_IsLeader_ok e e' b err :
  el_inv (election e) → Elector_IsLeader e = Some (e', b, err) →
  el_inv (election e') ∧ (b = true → err = None ∧ el_leads (election e')).
Proof.
  unfold Elector_IsLeader, with_election. intros Hi.
  destruct (el_IsLeader (election e)) as [[[e1 b1] err1]|] eqn:E1; [|done].
  intros ?; simplify_eq/=. by eapply el_IsLeader_spec.
Qed.

Lemma elect_ok se se' b :
  el_inv (election (elector se)) → elect se = Some (se', b) →
  el_inv (election (elector se')) ∧
  pausedScheduledElection se' = pausedScheduledElection se ∧
  (b = true → el_leads (election (elector se'))).
Proof.
  unfold elect. intros Hi.
  destruct (Elector_IsLeader (elector se)) as [[[e1 b1] [err1|]]|] eqn:E1; [..|done];
    apply Elector_IsLeader_ok in E1 as [Hi1 Hb1]; try done.
  - intros ?; simplify_eq/=. split; [done|]. split; [done|]. by intros []%Hb1.
  - destruct b1; [intros ?; simplify_eq/=; by naive_solver|].
    unfold Elector_BecomeLeader, with_election. simpl.
    destruct (el_BecomeLeader (election e1)) as [[[e2 b2] err2]|] eqn:E2; [|done].
    apply el_BecomeLeader_spec in E2; [|done]. intros ?; simplify_eq/=. naive_solver.
Qed.

(** The liveness check keeps the invariant of the election.  When Prometheus is
    silent for longer than the timeout, the instance was the leader and resigning
    reports no error, the instance does not lead any more and the scheduled election
    is paused; it is resumed only by a check that finds another request in time. *)
Theorem PrometheusLivenessCheck_spec se se' elapsed timeout e1 b err :
  el_inv (election (elector se)) →
  Elector_IsLeader (elector se) = Some (e1, b, err) →
  PrometheusLivenessCheck se elapsed timeout = Some se' →
  (b = true → (timeout < elapsed)%Z →
     pausedScheduledElection se' = true ∧
     ∃ e2 err2, Elector_Resign e1 = Some (e2, err2) ∧ elector se' = e2 ∧
       (err2 = None → el_inv (election e2) ∧ ¬ el_leads (election e2))) ∧
  (b = true → (elapsed ≤ timeout)%Z →
     el_leads (election (elector se')) ∧
     pausedScheduledElection se' = pausedScheduledElection se) ∧
  (pausedScheduledElection se = true → pausedScheduledElection se' = false →
     b = false ∧ (elapsed < timeout)%Z).
Proof.
  intros Hi E1. unfold PrometheusLivenessCheck. rewrite E1.
  apply Elector_IsLeader_ok in E1 as [Hi1 Hb]; [|done]. destruct b; simpl.
  - destruct (Z.ltb_spec timeout elapsed) as [Hlt|Hge].
    + unfold Elector_Resign. destruct (el_Resign (election e1)) as [[e2 err2]|] eqn:E2; [|done].
      intros ?; simplify_eq/=. split_and!; [|lia|done]. intros _ _. split; [done|].
      eexists _, _. split; [done|]. split; [done|]. intros ->. by eapply el_Resign_spec.
    + intros ?; simplify_eq/=. split_and!; [lia|naive_solver|congruence].
  - unfold isScheduledElectionPaused. simpl.
    destruct (pausedScheduledElection se && (elapsed <? timeout)%Z) eqn:Hp.
    + apply andb_prop in Hp as [_ Hp%Z.ltb_lt]. intros ?; simplify_eq/=. naive_solver.
    + intros ?; simplify_eq/=. split_and!; [done|done|]. intros. congruence.
Qed.

End elector.
Arguments Elector : clear implicits.
Arguments ScheduledElector : clear implicits.

(** ** [RestElection] *)

Record RestElection := MkRest { leader : bool }.
Definition NewRestElection : RestElection := MkRest false.

Definition Rest_BecomeLeader (r : RestElection) : RestElection * bool * option goerror :=
  if leader r then (r, leader r, None) else (MkRest true, true, None).
Definition Rest_IsLeader (r : RestElection) : RestElection * bool * option goerror :=
  (r, leader r, None).
Definition Rest_Resign (r : RestElection) : RestElection * option goerror :=
  if negb (leader r) then (r, None) else (MkRest false, None).

#[export] Instance RestElection_ops : ElectionOps RestElection := {
  el_ID _ := "";
  el_BecomeLeader r := Some (Rest_BecomeLeader r);
  el_IsLeader r := Some (Rest_IsLeader r);
  el_Resign r := Some (Rest_Resign r);
}.

#[export, refine] Instance RestElection_laws : ElectionLaws RestElection := {
  el_inv _ := True;
  el_leads r := leader r = true;
}.
Proof.
  - intros [[]] e' b err _; cbn; intros [= <- <- <-]; done.
  - intros [[]] e' b err _; cbn; intros [= <- <- <-]; done.
  - intros [[]] e' err _; cbn; intros [= <- <-]; done.
Defined.

(** [strconv.Atoi]: a sign, digits only, and a value in range. *)
Definition Atoi (s : string) : option Z :=
  let '(neg, s) := match s with
                   | String c s' => if (c =? "-")%char then (true, s')
                                    else if (c =? "+")%char then (false, s') else (false, s)
                   | EmptyString => (false, s)
                   end in
  if GoStr.starts_with_digit s then
    match GoStr.scan_digits 0 s with
    | (n, EmptyString) =>
        let n := if (neg : bool) then (- n)%Z else n in
        if bool_decide (in_int64 n) then Some n else None
    | _ => None
    end
  else None.

(** A request: its method, and what reading its body gives. *)
Inductive method := MethodGet | MethodPut | OtherMethod.
Record request := MkRequest { Method : method; Body : goerror + string }.

Definition show_bool (b : bool) : string := if b then "true" else "false".

(** The handler of [/admin/election/leader]: status code and body, without the
    newline [http.Error] ends it with.  The operations
    of [RestElection] never return an error, so their error branches are dead. *)
Definition handleLeader (r : RestElection) (req : request) : RestElection * Z * string :=
  match Method req with
  | MethodGet =>
      let '(r, leader, err) := Rest_IsLeader r in
      match err with
      | Some _ => (r, 500%Z, "internal error")
      | None => (r, 200%Z, show_bool leader)
      end
  | MethodPut =>
      match Body req with
      | inl _ => (r, 400%Z, "Can't read body")
      | inr body =>
          match Atoi body with
          | None => (r, 400%Z, "1 or 0 expected in request body")
          | Some flag =>
              if (flag =? 0)%Z then
                match Rest_Resign r with
                | (r, Some _) => (r, 500%Z, "internal error")
                | (r, None) => (r, 200%Z, show_bool true)
                end
              else if (flag =? 1)%Z then
                match Rest_BecomeLeader r with
                | (r, _, Some _) => (r, 500%Z, "internal error")
                | (r, leader, None) => (r, 200%Z, show_bool leader)
                end
              else (r, 400%Z, "1 or 0 expected in request body")
          end
      end
  | OtherMethod => (r, 400%Z, "Request method not supported")
  end.

(** A put of [0] or [1] sets the leadership to what it says; every other request
    leaves it alone, and a get reports it. *)
Lemma handleLeader_ok r req :
  let '(r', code, body) := handleLeader r req in
  match Method req with
  | MethodGet => r' = r ∧ code = 200%Z ∧ body = show_bool (leader r)
  | MethodPut =>
      match Body req with
      | inr s => match Atoi s with
                 | Some 0%Z => leader r' = false ∧ code = 200%Z
                 | Some 1%Z => leader r' = true ∧ code = 200%Z
                 | _ => r' = r ∧ code = 400%Z
                 end
      | inl _ => r' = r ∧ code = 400%Z
      end
  | OtherMethod => r' = r ∧ code = 400%Z
  end.
Proof.
  destruct r as [b], req as [[] [e|s]]; try done. unfold handleLeader. cbn [Method Body].
  destruct (Atoi s) as [n|]; [|done].
  destruct (Z.eqb_spec n 0) as [->|]; [by destruct b|].
  destruct (Z.eqb_spec n 1) as [->|]; [by destruct b|].
  by repeat case_match.
Qed.

(** ** PostgreSQL's advisory locks *)

(** What the rows of [SELECT pg_try_advisory_lock($1)] give. *)
Inductive lock_rows :=
  | NoRow (err : option goerror)
  | ScanFails (err : goerror)
  | LockRow (result : bool).

Class PgLocks (S Session : Type) := {
  pg_connect : S → S * (goerror + Session);
  pg_check : S → Session → S * option goerror;
  pg_try_lock : S → Session → Z → S * (goerror + lock_rows);
  pg_unlock_all : S → Session → S * option goerror;
  pg_close : S → Session → S * option goerror;
  (** the session holds the lock with this number; the session has ended *)
  pg_holds : S → Session → Z → Prop;
  pg_ended : S → Session → Prop;
  (** the session was opened *)
  pg_opened : S → Session → Prop;
}.

(** [s'] differs from [s] at most in the locks of [x], and ends no other session. *)
Definition only_for {S Session} `{PgLocks S Session} (x : Session) (s s' : S) : Prop :=
  (∀ y k, y ≠ x → pg_holds s' y k ↔ pg_holds s y k) ∧
  (∀ y, y ≠ x → pg_ended s' y ↔ pg_ended s y) ∧
  (pg_ended s x → pg_ended s' x) ∧
  (∀ y, pg_opened s' y ↔ pg_opened s y).

(** The manual: a session-level lock is held by one session at a time, until the
    session releases it or ends; operations of a session touch its own locks. *)
Class PgLockLaws (S Session : Type) `{PgLocks S Session} := {
  pg_exclusive s x y k : pg_holds s x k → pg_holds s y k → x = y;
  pg_ended_free s x k : pg_ended s x → ¬ pg_holds s x k;
  pg_connect_spec s s' r : pg_connect s = (s', r) →
    (∀ y k, pg_holds s' y k ↔ pg_holds s y k) ∧ (∀ y, pg_ended s y → pg_ended s' y) ∧
    (∀ y, pg_opened s y → pg_opened s' y) ∧
    (∀ x, r = inr x → ¬ pg_opened s x ∧ pg_opened s' x);
  pg_check_spec s x : only_for x s (pg_check s x).1;
  pg_try_lock_spec s x k s' r : pg_try_lock s x k = (s', r) →
    only_for x s s' ∧ (r = inr (LockRow true) → pg_holds s' x k);
  pg_unlock_all_spec s x s' err : pg_unlock_all s x = (s', err) →
    only_for x s s' ∧ (err = None → ∀ k, ¬ pg_holds s' x k) ∧
    (∀ k, pg_holds s x k → err ≠ None → pg_holds s' x k ∨ pg_ended s' x);
  pg_close_spec s x : only_for x s (pg_close s x).1 ∧ pg_ended (pg_close s x).1 x;
}.

(** ** [PgAdvisoryLock] *)

Section advisory.
Context {S Session : Type} `{PgLocks S Session}.

(** The mutex is [locked] when an operation returned without unlocking it. *)
Record PgAdvisoryLock := MkLock {
  conn : option Session;
  groupLockID : Z;
  mutex_locked : bool;
  obtained : bool;
}.

Definition set_conn (l : PgAdvisoryLock) (c : option Session) : PgAdvisoryLock :=
  MkLock c (groupLockID l) (mutex_locked l) (obtained l).
Definition set_obtained (l : PgAdvisoryLock) (b : bool) : PgAdvisoryLock :=
  MkLock (conn l) (groupLockID l) (mutex_locked l) b.

Definition checkConnection (s : S) (c : Session) : S * option goerror :=
  match pg_check s c with
  | (s, Some err) => (s, Some (Wrapped "invalid connection" err))
  | (s, None) => (s, None)
  end.

(** [getConn(connStr, cur, maxRetries)] with [maxRetries - cur] attempts left. *)
Fixpoint getConn (attempts : nat) (s : S) : S * (goerror + Session) :=
  match attempts with
  | O => (s, inl (Errorf "max attempts reached. giving up on getting a db connection"))
  | Datatypes.S attempts =>
      match pg_connect s with
      | (s, inl err) => (s, inl (Wrapped "error getting DB connection" err))
      | (s, inr lockConn) =>
          match checkConnection s lockConn with
          | (s, Some _) => getConn attempts s
          | (s, None) => (s, inr lockConn)
          end
      end
  end.

Definition connCleanUp (s : S) (l : PgAdvisoryLock) : S * PgAdvisoryLock :=
  match conn l with
  | Some c => ((pg_close s c).1, set_conn l None)
  | None => (s, set_conn l None)
  end.

(** The query on an existing connection.  The deferred function looks at the
    variable [err], which is set by the query and by [rows.Err], and neither by a
    missing row nor by the shadowed error of [Scan]. *)
Definition query_lock (s : S) (l : PgAdvisoryLock) (c : Session)
    : S * PgAdvisoryLock * bool * option goerror :=
  match pg_try_lock s c (groupLockID l) with
  | (s, inl err) => (connCleanUp s l, false, Some err)
  | (s, inr (NoRow (Some err))) =>
      (connCleanUp s l, false, Some (Wrapped "error while trying to read response rows" err))
  | (s, inr (NoRow None)) => (s, l, false, Some (Errorf "missing response row"))
  | (s, inr (ScanFails err)) => (s, l, false, Some err)
  | (s, inr (LockRow result)) => (s, l, result, None)
  end.

Definition getAdvisoryLock (s : S) (l : PgAdvisoryLock)
    : S * PgAdvisoryLock * bool * option goerror :=
  match conn l with
  | None =>
      match getConn 10 s with
      | (s, inl err) => (s, l, false, Some err)
      | (s, inr c) => query_lock s (set_conn l (Some c)) c
      end
  | Some c => query_lock s l c
  end.

Definition TryLock (s : S) (l : PgAdvisoryLock)
    : option (S * PgAdvisoryLock * bool * option goerror) :=
  if mutex_locked l then None
  else
    let '(s, l, gotLock, err) := getAdvisoryLock s l in
    if negb gotLock || (if err then true else false) then Some (s, set_obtained l false, false, err)
    else Some (s, if obtained l then l else set_obtained l true, true, None).

(** [Release] may return with the mutex locked, and panics without a connection. *)
Definition Release (s : S) (l : PgAdvisoryLock)
    : option (res (S * PgAdvisoryLock * option goerror)) :=
  if mutex_locked l then None
  else if negb (obtained l) then
    Some (Ok (s, MkLock (conn l) (groupLockID l) true (obtained l),
              Some (Errorf "can't release while not holding the lock")))
  else match conn l with
       | None => Some (Panic "nil pointer dereference")
       | Some c =>
           match pg_unlock_all s c with
           | (s, Some err) => Some (Ok (s, l, Some err))
           | (s, None) => Some (Ok (s, set_obtained l false, None))
           end
       end.

Definition Close (s : S) (l : PgAdvisoryLock) : option (S * PgAdvisoryLock) :=
  if mutex_locked l then None else Some (connCleanUp s l).

Definition Locked (l : PgAdvisoryLock) : option bool :=
  if mutex_locked l then None else Some (obtained l).

Definition NewPgAdvisoryLock (s : S) (groupLockID : Z) : S * (goerror + PgAdvisoryLock) :=
  match TryLock s (MkLock None groupLockID false false) with
  | Some (s, _, _, Some err) => (s, inl err)
  | Some (s, l, _, None) => (s, inr l)
  | None => (s, inl (Errorf "unreachable"))
  end.

(** A resign on a lock that is not held returns its error with the mutex locked, so
    every later operation of this adapter blocks forever. *)
Lemma Release_without_lock_blocks s l s' l' err :
  obtained l = false → Release s l = Some (Ok (s', l', err)) →
  err ≠ None ∧ TryLock s' l' = None ∧ Release s' l' = None ∧ Locked l' = None ∧ Close s' l' = None.
Proof.
  unfold Release. intros Ho. destruct (mutex_locked l); [done|]. rewrite Ho. simpl.
  intros ?; simplify_eq. done.
Qed.

(** *** A lock says what the server knows *)

Context `{!PgLockLaws S Session}.

(** The session of [l] was opened; when [l] says the lock is obtained and its
    session lives, the server agrees. *)
Definition lock_ok (s : S) (l : PgAdvisoryLock) : Prop :=
  (∀ x, conn l = Some x → pg_opened s x) ∧
  (obtained l = true → ∀ x, conn l = Some x → pg_holds s x (groupLockID l) ∨ pg_ended s x).

(** The effect of an operation of an adapter whose session is [c], and of sessions
    it opens, on every other session. *)
Definition frames (c : option Session) (s s' : S) : Prop :=
  ∀ y, pg_opened s y → c ≠ Some y →
    pg_opened s' y ∧ (pg_ended s y → pg_ended s' y) ∧
    (∀ k, pg_holds s y k → pg_holds s' y k ∨ pg_ended s' y).

(** [c'] is the session [c] or one opened after [s]. *)
Definition same_or_new (s : S) (c c' : option Session) : Prop :=
  ∀ x, c' = Some x → c = Some x ∨ ¬ pg_opened s x.

Lemma only_for_frames s s' x : only_for x s s' → frames (Some x) s s'.
Proof.
  intros (Hh & He & _ & Ho) y Hy Hne.
  assert (y ≠ x) by congruence.
  split; [by apply Ho|]. split; [by apply He|]. intros k. left. by apply Hh.
Qed.

Lemma frames_trans s s1 s2 c c' :
  frames c s s1 → frames c' s1 s2 → same_or_new s c c' → frames c s s2.
Proof.
  intros H1 H2 Hc y Hy Hne. destruct (H1 y Hy Hne) as (Ho1 & He1 & Hh1).
  destruct (H2 y Ho1) as (Ho2 & He2 & Hh2).
  { intros ->. destruct (Hc y eq_refl) as [->|?]; done. }
  split; [done|]. split; [auto|]. intros k [Hk|Hk]%Hh1; auto.
Qed.

Lemma frames_refl s c : frames c s s.
Proof. intros y Hy _. auto. Qed.

Lemma checkConnection_frames s x : frames (Some x) s (checkConnection s x).1.
Proof.
  pose proof (pg_check_spec s x) as Hof. unfold checkConnection.
  destruct (pg_check s x) as [s' [e|]]; by apply only_for_frames.
Qed.

Lemma checkConnection_opened s x y : pg_opened (checkConnection s x).1 y ↔ pg_opened s y.
Proof.
  destruct (pg_check_spec s x) as (_ & _ & _ & Ho). unfold checkConnection.
  destruct (pg_check s x) as [s' [e|]]; apply Ho.
Qed.

Lemma getConn_spec n s s' r :
  getConn n s = (s', r) →
  frames None s s' ∧ (∀ y, pg_opened s y → pg_opened s' y) ∧
  (∀ x, r = inr x → ¬ pg_opened s x ∧ pg_opened s' x).
Proof.
  revert s. induction n as [|n IH]; intros s; simpl.
  { intros ?; simplify_eq. split; [apply frames_refl|done]. }
  destruct (pg_connect s) as [s1 r1] eqn:E1.
  apply pg_connect_spec in E1 as (Hh & He & Ho & Hx).
  assert (frames None s s1) as Hf1.
  { intros y Hy _. split; [auto|]. split; [auto|]. intros k ?%Hh. auto. }
  destruct r1 as [e|x]; [intros ?; simplify_eq; by split_and!|].
  destruct (Hx x eq_refl) as [Hnew Hop].
  pose proof (checkConnection_frames s1 x) as Hf2.
  pose proof (checkConnection_opened s1 x) as Ho2.
  destruct (checkConnection s1 x) as [s2 r2] eqn:E2. simpl in *.
  assert (frames None s s2) as Hf.
  { eapply frames_trans; [done..|]. intros ? [= ->]. by right. }
  destruct r2 as [e|].
  - intros (Hf3 & Ho3 & Hx3)%IH. split; [by eapply frames_trans|]. split; [|naive_solver].
    intros y Hy. apply Ho3, Ho2. auto.
  - intros ?; simplify_eq. split; [done|]. split; [intros; apply Ho2; auto|].
    intros ? [= ->]. split; [done|]. by apply Ho2.
Qed.

(** The lock after an operation: the same group, an open session that is the old one
    or a new one. *)
Definition same_lock (s s' : S) (l l' : PgAdvisoryLock) : Prop :=
  groupLockID l' = groupLockID l ∧ same_or_new s (conn l) (conn l') ∧
  (∀ x, conn l' = Some x → pg_opened s' x).

Lemma connCleanUp_spec s l s' l' :
  connCleanUp s l = (s', l') → frames (conn l) s s' ∧ conn l' = None ∧
  groupLockID l' = groupLockID l ∧ (∀ y, pg_opened s y → pg_opened s' y).
Proof.
  unfold connCleanUp. destruct (conn l) as [c|]; intros ?; simplify_eq/=.
  - destruct (pg_close_spec s c) as [Hof _]. split; [by apply only_for_frames|].
    split; [done|]. split; [done|]. destruct Hof as (_ & _ & _ & Ho). intros y. apply Ho.
  - split; [apply frames_refl|]. done.
Qed.

Lemma query_lock_spec s l c s' l' b err :
  conn l = Some c → pg_opened s c → query_lock s l c = (s', l', b, err) →
  frames (Some c) s s' ∧ groupLockID l' = groupLockID l ∧
  (∀ x, conn l' = Some x → x = c ∧ pg_opened s' x) ∧
  (b = true → err = None ∧ conn l' = Some c ∧ pg_holds s' c (groupLockID l)).
Proof.
  intros Hc Hop. unfold query_lock.
  destruct (pg_try_lock s c (groupLockID l)) as [s1 r] eqn:E1.
  apply pg_try_lock_spec in E1 as [Hof Hgot].
  pose proof (only_for_frames _ _ _ Hof) as Hf. destruct Hof as (_ & _ & _ & Ho).
  assert (Hclean : ∀ s2 l2, connCleanUp s1 l = (s2, l2) →
    frames (Some c) s s2 ∧ groupLockID l2 = groupLockID l ∧ conn l2 = None).
  { intros s2 l2 (Hf2 & Hn & Hg & _)%connCleanUp_spec. rewrite Hc in Hf2.
    split; [|done]. eapply frames_trans; [done..|]. intros ?; auto. }
  destruct r as [e|[[e|]|e|b']].
  1,2: destruct (connCleanUp s1 l) as [s2 l2]; intros ?; simplify_eq;
       destruct (Hclean _ _ eq_refl) as (? & ? & Hn); rewrite Hn; done.
  all: intros ?; simplify_eq; split; [done|]; split; [done|]; split;
       [rewrite Hc; intros ? [= ->]; split; [done|by apply Ho]|].
  1,2: done.
  intros ->. auto.
Qed.

Lemma getAdvisoryLock_spec s l s' l' b err :
  lock_ok s l → getAdvisoryLock s l = (s', l', b, err) →
  frames (conn l) s s' ∧ same_lock s s' l l' ∧
  (b = true → err = None ∧ ∃ x, conn l' = Some x ∧ pg_holds s' x (groupLockID l)).
Proof.
  intros [Hop _]. unfold getAdvisoryLock. destruct (conn l) as [c|] eqn:Hc.
  - intros (Hf & Hg & Hcn & Hb)%query_lock_spec; [|by auto..]. split; [done|]. split; [|naive_solver].
    split; [done|]. rewrite Hc. split; intros x Hx; destruct (Hcn x Hx); [left; congruence|done].
  - destruct (getConn 10 s) as [s1 [e|c]] eqn:E1; apply getConn_spec in E1 as (Hf1 & Ho1 & Hx1).
    { intros ?; simplify_eq. unfold same_lock, same_or_new. rewrite Hc. naive_solver. }
    destruct (Hx1 c eq_refl) as [Hnew Hop1].
    intros (Hf & Hg & Hcn & Hb)%query_lock_spec; [|done..].
    split; [eapply frames_trans; [done..|]; intros ? [= ->]; by right|].
    split; [|naive_solver]. split; [done|]. rewrite Hc. split; intros x Hx; destruct (Hcn x Hx) as [-> ?]; auto.
Qed.

Lemma TryLock_ok s l s' l' b err :
  lock_ok s l → TryLock s l = Some (s', l', b, err) →
  frames (conn l) s s' ∧ same_lock s s' l l' ∧ lock_ok s' l' ∧ obtained l' = b ∧
  (b = true → err = None ∧ ∃ x, conn l' = Some x ∧ pg_holds s' x (groupLockID l')).
Proof.
  intros Hok. unfold TryLock. destruct (mutex_locked l); [done|].
  destruct (getAdvisoryLock s l) as [[[s1 l1] got] err1] eqn:E1.
  apply getAdvisoryLock_spec in E1 as (Hf & (Hg & Hn & Ho) & Hb); [|done].
  destruct got; simpl.
  - destruct (Hb eq_refl) as (-> & x & Hx & Hh). simpl.
    assert (∀ l2, conn l2 = conn l1 → groupLockID l2 = groupLockID l1 → obtained l2 = true →
      frames (conn l) s s1 ∧ same_lock s s1 l l2 ∧ lock_ok s1 l2 ∧ obtained l2 = true ∧
      (true = true → None = @None goerror ∧ ∃ x, conn l2 = Some x ∧ pg_holds s1 x (groupLockID l2))) as Hgoal.
    { intros l2 Hc2 Hg2 Hob. unfold same_lock, lock_ok. rewrite Hc2, Hg2, Hg, Hx in *.
      split_and!; try done. intros _ y [= <-]. by left. }
    destruct (obtained l1) eqn:Hob; intros ?; simplify_eq; by apply Hgoal.
  - intros ?; simplify_eq. split; [done|]. by unfold same_lock, lock_ok.
Qed.

Lemma Release_ok s l s' l' err :
  lock_ok s l → Release s l = Some (Ok (s', l', err)) →
  frames (conn l) s s' ∧ same_lock s s' l l' ∧ lock_ok s' l' ∧
  (err = None → obtained l' = false ∧ ∀ x, conn l' = Some x → ¬ pg_holds s' x (groupLockID l')).
Proof.
  intros [Hop Hh]. unfold Release. destruct (mutex_locked l); [done|].
  destruct (obtained l) eqn:Hob; simpl; [|intros ?; simplify_eq/=].
  - destruct (conn l) as [c|] eqn:Hc; [|done].
    destruct (pg_unlock_all s c) as [s1 err1] eqn:E1.
    apply pg_unlock_all_spec in E1 as (Hof & Hfree & Hkeep).
    pose proof (only_for_frames _ _ _ Hof) as Hf. destruct Hof as (_ & _ & He & Ho).
    assert (∀ x, conn l = Some x → pg_opened s1 x) as Hop1 by (intros; apply Ho, Hop; congruence).
    destruct err1 as [e|]; intros ?; simplify_eq; (split; [done|]).
    + split; [by split_and!; [|intros ?; auto|]|]. split; [|done]. split; [done|].
      intros _ x Hx. rewrite Hc in Hx. simplify_eq.
      destruct (Hh eq_refl x eq_refl) as [Hk|Hk]; [by apply Hkeep|right; auto].
    + split; [by split_and!; [|intros ?; auto|]|]. split; [by split|]. intros _. split; [done|].
      simpl. rewrite Hc. intros x [= <-]. by apply Hfree.
  - split; [apply frames_refl|]. split; [by split_and!; [|intros ?; auto|]|]. split; [|done]. by split.
Qed.

Lemma Close_ok s l s' l' :
  lock_ok s l → Close s l = Some (s', l') →
  frames (conn l) s s' ∧ same_lock s s' l l' ∧ lock_ok s' l'.
Proof.
  intros _. unfold Close. destruct (mutex_locked l); [done|].
  intros [= (Hf & Hn & Hg & _)%connCleanUp_spec]. split; [done|].
  unfold same_lock, lock_ok, same_or_new. rewrite Hn. naive_solver.
Qed.

(** *** A group of adapters on one server *)

Record group := MkGroup { server : S; locks : list PgAdvisoryLock }.

(** One operation of one adapter, or a change of the server that opens and grants
    nothing: a session may end and lose its locks. *)
Inductive group_step : group → group → Prop :=
  | step_TryLock s ls i l s' l' b err :
      ls !! i = Some l → TryLock s l = Some (s', l', b, err) →
      group_step (MkGroup s ls) (MkGroup s' (<[i := l']> ls))
  | step_Release s ls i l s' l' err :
      ls !! i = Some l → Release s l = Some (Ok (s', l', err)) →
      group_step (MkGroup s ls) (MkGroup s' (<[i := l']> ls))
  | step_Close s ls i l s' l' :
      ls !! i = Some l → Close s l = Some (s', l') →
      group_step (MkGroup s ls) (MkGroup s' (<[i := l']> ls))
  | step_start s ls g : group_step (MkGroup s ls) (MkGroup s (ls ++ [MkLock None g false false]))
  | step_server s ls s' :
      frames None s s' → group_step (MkGroup s ls) (MkGroup s' ls).

Definition group_ok (w : group) : Prop :=
  Forall (lock_ok (server w)) (locks w) ∧
  ∀ i j li lj x, locks w !! i = Some li → locks w !! j = Some lj →
    conn li = Some x → conn lj = Some x → i = j.

Lemma lock_ok_frames s s' c l :
  frames c s s' → lock_ok s l → (∀ x, conn l = Some x → c ≠ Some x) → lock_ok s' l.
Proof.
  intros Hf [Ho Hh] Hc. split.
  - intros x Hx. by apply Hf; auto.
  - intros Hob x Hx. destruct (Hf x (Ho x Hx) (Hc x Hx)) as (_ & He & Hk).
    destruct (Hh Hob x Hx) as [Hx'|Hx']; auto.
Qed.

Lemma group_update s ls i l s' l' :
  group_ok (MkGroup s ls) → ls !! i = Some l →
  frames (conn l) s s' → same_lock s s' l l' → lock_ok s' l' →
  group_ok (MkGroup s' (<[i := l']> ls)).
Proof.
  intros [Hall Hdis] Hi Hf (_ & Hnew & _) Hok'. simpl in *. rewrite Forall_lookup in Hall.
  assert (Hne : ∀ j lj x, j ≠ i → ls !! j = Some lj → conn lj = Some x → conn l ≠ Some x).
  { intros j lj x Hji Hj Hx Hlx. apply Hji. by eapply Hdis. }
  assert (Hne' : ∀ j lj x, j ≠ i → ls !! j = Some lj → conn lj = Some x → conn l' ≠ Some x).
  { intros j lj x Hji Hj Hx Hlx. destruct (Hnew x Hlx) as [Hlx'|Hno]; [by eapply Hne|].
    apply Hno. by eapply (Hall j lj). }
  split.
  - apply Forall_lookup. intros j lj. simpl. destruct (decide (i = j)) as [<-|Hij].
    + rewrite list_lookup_insert_eq by (by eapply lookup_lt_Some). by intros [= <-].
    + rewrite list_lookup_insert_ne by done. intros Hj. eapply lock_ok_frames; [done|by eapply Hall|].
      intros x Hx. by eapply (Hne j lj x (not_eq_sym Hij)).
  - intros j k lj lk x. simpl. pose proof (lookup_lt_Some _ _ _ Hi) as Hlt.
    destruct (decide (i = j)) as [<-|Hij], (decide (i = k)) as [<-|Hik]; [done|..];
      rewrite ?list_lookup_insert_eq, ?list_lookup_insert_ne by done.
    + intros [= <-] Hk Hx Hy. by destruct (Hne' k lk x (not_eq_sym Hik) Hk Hy).
    + intros Hj [= <-] Hx Hy. by destruct (Hne' j lj x (not_eq_sym Hij) Hj Hx).
    + apply Hdis.
Qed.

Lemma group_step_ok w w' : group_ok w → group_step w w' → group_ok w'.
Proof.
  intros Hw Hs.
  destruct Hs as [s ls i l s' l' b err Hi Hop|s ls i l s' l' err Hi Hop|s ls i l s' l' Hi Hop
                 |s ls g|s ls s' Hf];
    try pose proof (Forall_lookup_1 _ _ _ _ (proj1 Hw) Hi) as Hl.
  - apply TryLock_ok in Hop as (? & ? & ? & _); [|done]. by eapply group_update.
  - apply Release_ok in Hop as (? & ? & ? & _); [|done]. by eapply group_update.
  - apply Close_ok in Hop as (? & ? & ?); [|done]. by eapply group_update.
  - destruct Hw as [Hall Hdis]. split; simpl in *.
    { apply Forall_app. split; [done|]. by constructor. }
    assert (∀ i li x, (ls ++ [MkLock None g false false]) !! i = Some li → conn li = Some x →
      ls !! i = Some li) as Hin.
    { intros i li x [Hi|[_ Hi]]%lookup_app_Some Hx; [done|].
      apply list_lookup_singleton_Some in Hi as [_ <-]. done. }
    intros i j li lj x Hi Hj Hx Hy. eapply Hdis; eauto.
  - destruct Hw as [Hall Hdis]. split; [|done]. simpl in *.
    eapply Forall_impl; [exact Hall|]. intros l Hl. by eapply lock_ok_frames.
Qed.

(** C13. Split brain only over a dead session.  Whatever adapters of any number of
    groups do, in whatever order, and whichever sessions the server ends: two
    adapters of a group that both count as leaders have connections of which at least
    one is closed or its session ended. *)
Theorem at_most_one_live_leader s0 w i j li lj x y :
  rtc group_step (MkGroup s0 []) w →
  locks w !! i = Some li → locks w !! j = Some lj → i ≠ j →
  groupLockID li = groupLockID lj →
  obtained li = true → obtained lj = true →
  conn li = Some x → conn lj = Some y →
  pg_ended (server w) x ∨ pg_ended (server w) y.
Proof.
  intros Hreach Hi Hj Hne Hg Hoi Hoj Hx Hy.
  assert (group_ok w) as [Hall Hdis].
  { revert Hreach. apply (rtc_ind_r (λ w, group_ok w)).
    - split; [by constructor|]. intros. by simplify_eq/=.
    - intros ? ? _ ? ?. by eapply group_step_ok. }
  destruct (Forall_lookup_1 _ _ _ _ Hall Hi) as [_ Hhi].
  destruct (Forall_lookup_1 _ _ _ _ Hall Hj) as [_ Hhj].
  destruct (Hhi Hoi x Hx) as [Hki|?]; [|by left].
  destruct (Hhj Hoj y Hy) as [Hkj|?]; [|by right].
  rewrite Hg in Hki. pose proof (pg_exclusive _ _ _ _ Hki Hkj) as ->.
  destruct Hne. by eapply Hdis.
Qed.

End advisory.
Arguments PgAdvisoryLock : clear implicits.
Arguments group : clear implicits.

(** The lock as an election: [BecomeLeader] and [IsLeader] are both [TryLock]. *)
Section advisory_election.
Context {S Session : Type} `{PgLockLaws S Session}.

Definition lock_election (s_l : S * PgAdvisoryLock Session) : outcome (S * PgAdvisoryLock Session) :=
  match TryLock s_l.1 s_l.2 with
  | Some (s, l, b, err) => Some ((s, l), b, err)
  | None => None
  end.

#[export] Instance PgAdvisoryLock_ops : ElectionOps (S * PgAdvisoryLock Session) := {
  el_ID s_l := pretty (groupLockID s_l.2);
  el_BecomeLeader := lock_election;
  el_IsLeader := lock_election;
  el_Resign s_l :=
    match Release s_l.1 s_l.2 with
    | Some (Ok (s, l, err)) => Some ((s, l), err)
    | _ => None
    end;
}.

Definition holds_lock (s_l : S * PgAdvisoryLock Session) : Prop :=
  ∃ x, conn s_l.2 = Some x ∧ pg_holds s_l.1 x (groupLockID s_l.2).

Lemma lock_election_spec s_l s_l' b err :
  lock_ok s_l.1 s_l.2 → lock_election s_l = Some (s_l', b, err) →
  lock_ok s_l'.1 s_l'.2 ∧ (b = true → err = None ∧ holds_lock s_l').
Proof.
  unfold lock_election. intros Hok.
  destruct (TryLock s_l.1 s_l.2) as [[[[s l] b1] err1]|] eqn:E1; [|done].
  apply TryLock_ok in E1 as (_ & _ & Hok' & _ & Hb); [|done]. intros ?; by simplify_eq.
Qed.

(** Leading means that the server knows the lock as this session's. *)
#[export, refine] Instance PgAdvisoryLock_laws : ElectionLaws (S * PgAdvisoryLock Session) := {
  el_inv s_l := lock_ok s_l.1 s_l.2;
  el_leads := holds_lock;
}.
Proof.
  - intros. by eapply lock_election_spec.
  - intros. by eapply lock_election_spec.
  - intros [s l] e' err Hok. cbn.
    destruct (Release s l) as [[[[s1 l1] err1]|?|?]|] eqn:E1; try done.
    apply Release_ok in E1 as (_ & _ & Hok' & Hfree); [|done]. intros [= <- <-] ->.
    split; [done|]. intros (x & Hx & Hh). by eapply Hfree.
Defined.

End advisory_election.

(** ** [initElector] *)

Record config := MkConfig {
  restElection : bool;
  haGroupLockID : Z;
  prometheusTimeout : Z;
}.

Inductive chosen S Session :=
  | NoElector
  | Rest (e : Elector RestElection)
  (** with the goroutine that checks Prometheus, or without *)
  | Advisory (se : ScheduledElector (S * PgAdvisoryLock Session)) (liveness : bool).
Arguments NoElector {_ _}.
Arguments Rest {_ _} _.
Arguments Advisory {_ _} _ _.

Definition initElector {S Session} `{PgLocks S Session} (cfg : config) (s : S)
    : S * (goerror + chosen S Session) :=
  if restElection cfg && negb (haGroupLockID cfg =? 0)%Z then
    (s, inl (Errorf "Use either REST or PgAdvisoryLock for the leader election"))
  else if restElection cfg then (s, inr (Rest (NewElector NewRestElection)))
  else if (haGroupLockID cfg =? 0)%Z then (s, inr NoElector)
  else if (prometheusTimeout cfg =? -1)%Z then
    (s, inl (Errorf "Prometheus timeout configuration must be set when using PG advisory lock"))
  else match NewPgAdvisoryLock s (haGroupLockID cfg) with
       | (s, inl err) => (s, inl (Wrapped "Error creating advisory lock" err))
       | (s, inr lock) =>
           (s, inr (Advisory (NewScheduledElector (s, lock)) (negb (prometheusTimeout cfg =? 0)%Z)))
       end.

(** ** A small server *)

Module Toy.

Record srv := MkSrv { next_session : nat; dead : list nat; holder : gmap Z nat }.

Definition kill (s : srv) (x : nat) : srv := MkSrv (next_session s) (x :: dead s) (holder s).
Definition alive (s : srv) (x : nat) : bool := bool_decide (x ∉ dead s).

#[export] Instance srv_locks : PgLocks srv nat := {
  pg_connect s := (MkSrv (S (next_session s)) (dead s) (holder s), inr (next_session s));
  pg_check s x := (s, if alive s x then None else Some (Errorf "conn closed"));
  pg_try_lock s x k :=
    if alive s x then
      match holder s !! k with
      | Some y => if bool_decide (y = x) then (s, inr (LockRow true))
                  else if alive s y then (s, inr (LockRow false))
                  else (MkSrv (next_session s) (dead s) (<[k := x]> (holder s)), inr (LockRow true))
      | None => (MkSrv (next_session s) (dead s) (<[k := x]> (holder s)), inr (LockRow true))
      end
    else (s, inl (Errorf "conn closed"));
  pg_unlock_all s x :=
    if alive s x then
      (MkSrv (next_session s) (dead s) (filter (λ p, p.2 ≠ x) (holder s)), None)
    else (s, Some (Errorf "conn closed"));
  pg_close s x := (kill s x, None);
  pg_holds s x k := holder s !! k = Some x ∧ x ∉ dead s;
  pg_ended s x := x ∈ dead s;
  pg_opened s x := x < next_session s;
}.

Lemma only_for_refl (s : srv) x : only_for x s s.
Proof. by split_and!. Qed.

Lemma only_for_grant (s : srv) x k :
  (∀ y, holder s !! k = Some y → y = x ∨ y ∈ dead s) →
  only_for x s (MkSrv (next_session s) (dead s) (<[k := x]> (holder s))).
Proof.
  intros Hk. split_and!; try done. intros y k' Hy. cbn.
  destruct (decide (k = k')) as [<-|Hne]; [|by rewrite lookup_insert_ne].
  rewrite lookup_insert_eq. split; [by intros [[= ->] _]|].
  intros [Hh Hd]. destruct (Hk y Hh); done.
Qed.

Lemma only_for_kill (s : srv) x : only_for x s (kill s x).
Proof.
  split_and!; cbn; try done.
  - intros y k Hy. rewrite not_elem_of_cons. naive_solver.
  - intros y Hy. rewrite elem_of_cons. naive_solver.
  - intros _. by left.
Qed.

#[export] Instance srv_laws : PgLockLaws srv nat.
Proof.
  split.
  - intros s x y k. cbn. naive_solver.
  - intros s x k. cbn. naive_solver.
  - intros s s' r. cbn. intros [= <- <-]. cbn. split_and!; try done; [lia|].
    intros x [= <-]. lia.
  - intros s x. apply only_for_refl.
  - intros s x k s' r. cbn. unfold alive. case_bool_decide as Hx.
    2:{ intros [= <- <-]. split; [apply only_for_refl|done]. }
    destruct (holder s !! k) as [y|] eqn:Hk; [repeat case_bool_decide|];
      intros [= <- <-]; (split; [try apply only_for_refl|cbn; try done]).
    + intros _. by subst.
    + apply only_for_grant. rewrite Hk. intros ? [= <-]. by right.
    + intros _. by rewrite lookup_insert_eq.
    + apply only_for_grant. by rewrite Hk.
    + intros _. by rewrite lookup_insert_eq.
  - intros s x s' err. cbn. unfold alive. case_bool_decide as Hx; intros [= <- <-].
    2:{ split; [apply only_for_refl|]. split; [done|]. by left. }
    split; [split_and!; try done|split; [|done]]; cbn.
    + intros y k Hy. rewrite map_lookup_filter_Some. naive_solver.
    + intros _ k. rewrite map_lookup_filter_Some. naive_solver.
  - intros s x. split; [apply only_for_kill|]. cbn. by left.
Qed.

Definition start : srv := MkSrv 0 [] ∅.
Definition idle (g : Z) : PgAdvisoryLock nat := MkLock None g false false.
Definition leads (x : nat) (g : Z) : PgAdvisoryLock nat := MkLock (Some x) g false true.

Lemma kill_frames s x : frames None s (kill s x).
Proof.
  intros y Hy _. cbn in *. split; [done|]. split; [by right|]. intros k [Hk Hd].
  destruct (decide (y = x)) as [->|Hne]; [right; by left|left]. rewrite not_elem_of_cons. done.
Qed.

(** Two adapters of group 7; the server ends the session of the first leader, and
    before it notices, the second one gets the lock. *)
Lemma at_most_one_live_leader_witness :
  let s := MkSrv 2 [0] (<[7%Z := 1]> (<[7%Z := 0]> ∅)) in
  rtc group_step (MkGroup start []) (MkGroup s [leads 0 7; leads 1 7]) ∧
  (pg_ended s 0 ∨ pg_ended s 1).
Proof.
  assert (rtc group_step (MkGroup start [])
    (MkGroup (MkSrv 2 [0] (<[7%Z := 1]> (<[7%Z := 0]> ∅))) [leads 0 7; leads 1 7])) as Hr.
  { eapply rtc_l; [apply (step_start _ _ 7)|]. eapply rtc_l; [apply (step_start _ _ 7)|].
    eapply rtc_l; [eapply (step_TryLock _ _ 0 (idle 7)); [reflexivity|reflexivity]|].
    eapply rtc_l; [apply (step_server _ _ (kill (MkSrv 1 [] (<[7%Z := 0]> ∅)) 0)), kill_frames|].
    eapply rtc_l; [eapply (step_TryLock _ _ 1 (idle 7)); [reflexivity|reflexivity]|].
    apply rtc_refl. }
  split; [exact Hr|].
  apply (at_most_one_live_leader start _ 0 1 (leads 0 7) (leads 1 7) 0 1 Hr); done.
Defined.

Lemma PrometheusLivenessCheck_spec_witness :
  let e := (MkSrv 1 [] {[7%Z := 0]}, leads 0 7) in
  let se := NewScheduledElector e in
  ∃ se', PrometheusLivenessCheck se 20 10 = Some se' ∧ pausedScheduledElection se' = true.
Proof.
  intros e se.
  destruct (PrometheusLivenessCheck se 20 10) as [se'|] eqn:E1; [|exfalso; vm_compute in E1; discriminate].
  exists se'. split; [done|].
  refine (proj1 (proj1 (PrometheusLivenessCheck_spec se se' 20 10 (NewElector e) true None _ _ E1) eq_refl _)).
  - split; simpl.
    + intros x [= <-]. lia.
    + intros _ x [= <-]. left. split; [done|]. apply not_elem_of_nil.
  - by vm_compute.
  - lia.
Defined.

(** The liveness check asks [IsLeader], then resigns.  When the scheduled election
    runs in between and finds the connection broken, the resign returns its error
    with the mutex locked: the adapter never answers again. *)
Example liveness_race_blocks :
  let l := leads 0 7 in
  let s := MkSrv 1 [] {[7%Z := 0]} in
  (λ r, (r.1.2, r.2)) <$> TryLock s l = Some (true, None) ∧
  ∃ s1 l1 err, TryLock (kill s 0) l = Some (s1, l1, false, Some err) ∧
  ∃ s2 l2 err2, Release s1 l1 = Some (Ok (s2, l2, Some err2)) ∧ TryLock s2 l2 = None.
Proof. split; [done|]. eexists _, _, _. split; [done|]. by eexists _, _, _. Qed.

(** A paused instance still becomes the leader: the check itself is [TryLock]. *)
Example paused_instance_leads :
  let se := MkScheduled (NewElector (start, idle 7)) true in
  (λ r, r.1.2) <$> isWriter (Some (elector se)) = Some true.
Proof. done. Qed.

End Toy.

End Elect.
