(* ===== verification/Client.v ===== *)
(** * The database client

    [MaskPassword] of [src/pkg/util/util.go], and [src/pkg/pgclient/client.go]: the
    configuration with its flags, the connection string, and the client that wires the
    ingestor and the reader to one pool and one cache of metric names.

    The two regular expressions of [MaskPassword] are matched by functions written for
    them: each has at most one match at a place, so that greediness does not matter.
    Strings are bytes; the expressions look at ASCII characters only. *)
From S2P Require Import Prelude Log ClockCache Labels MetricCache SampleIter LabelReader SeriesSet QueryBuilder Reader SeriesIds Inserter Pipeline GoStrings Election.
From stdpp Require Import pretty.

Module Cli.

(** ** Masking of passwords *)

(** [\s] of the package [regexp]. *)
Definition is_space (c : ascii) : bool :=
  let n := N_of_ascii c in
  ((n =? 9) || (n =? 10) || (n =? 12) || (n =? 13) || (n =? 32))%N.

Definition is_quote (c : ascii) : bool := (c =? "'")%char.

(** The longest start of a string whose characters satisfy [f], and the rest. *)
Fixpoint span (f : ascii → bool) (s : string) : string * string :=
  match s with
  | String c s' => if f c then let '(a, b) := span f s' in (String c a, b) else ("", s)
  | "" => ("", "")
  end.

(** What follows the prefix [p]. *)
Fixpoint after_prefix (p s : string) : option string :=
  match p, s with
  | "", _ => Some s
  | String a p', String b s' => if (a =? b)%char then after_prefix p' s' else None
  | String _ _, "" => None
  end.

(** [password=(\s*?)'([^']+?)'] at the start of [s]: the replacement with its group, and
    what follows the match. *)
Definition match_quoted (s : string) : option (string * string) :=
  match after_prefix "password=" s with
  | None => None
  | Some s =>
      let '(spaces, s) := span is_space s in
      match s with
      | String c s =>
          if is_quote c then
            match span (λ c, negb (is_quote c)) s with
            | ("", _) => None
            | (_, String _ rest) => Some ("password=" ++ spaces ++ "'****'", rest)
            | (_, "") => None
            end
          else None
      | "" => None
      end
  end%string.

(** [password:(\s*?)([^\s]+?)( |$)] at the start of [s]. *)
Definition match_plain (s : string) : option (string * string) :=
  match after_prefix "password:" s with
  | None => None
  | Some s =>
      let '(spaces, s) := span is_space s in
      match span (λ c, negb (is_space c)) s with
      | ("", _) => None
      | (_, "") => Some ("password:" ++ spaces ++ "****", "")
      | (_, String c rest) =>
          if (c =? " ")%char then Some ("password:" ++ spaces ++ "**** ", rest) else None
      end
  end%string.

(** [ReplaceAllString]: matches from the left that do not overlap.  Every turn drops a
    character, so the length of the string is enough fuel. *)
Fixpoint replace_loop (find : string → option (string * string)) (fuel : nat) (s : string) : string :=
  match fuel with
  | 0 => s
  | S fuel =>
      match s with
      | "" => ""
      | String c s' =>
          match find s with
          | Some (new, rest) => new ++ replace_loop find fuel rest
          | None => String c (replace_loop find fuel s')
          end
      end
  end%string.
Definition ReplaceAllString (find : string → option (string * string)) (s : string) : string :=
  replace_loop find (String.length s) s.

Definition MaskPassword (s : string) : string :=
  ReplaceAllString match_plain (ReplaceAllString match_quoted s).

(** ** Lemmas *)

Lemma span_length f s : String.length (span f s).2 ≤ String.length s.
Proof. induction s as [|c s IH]; cbn; [done|]. destruct (f c); [|done]. destruct (span f s). cbn in *. lia. Qed.

(** Every character of [s] satisfies [f]. *)
Fixpoint all_chars (f : ascii → bool) (s : string) : bool :=
  match s with "" => true | String c s => f c && all_chars f s end.

Lemma span_stop f a c s :
  all_chars f a = true → f c = false → span f (a ++ String c s) = (a, String c s).
Proof.
  intros Ha Hc. induction a as [|x a IH].
  - rewrite string_app_nil_l. cbn [span]. by rewrite Hc.
  - cbn [all_chars] in Ha. apply andb_prop in Ha as [Hx Ha]. rewrite string_app_cons. cbn [span].
    by rewrite Hx, (IH Ha).
Qed.

Lemma span_none f c s : f c = false → span f (String c s) = ("", String c s).
Proof. intros Hc. cbn [span]. by rewrite Hc. Qed.

Lemma after_prefix_app p s : after_prefix p (p ++ s) = Some s.
Proof. induction p as [|a p IH]; [done|]. rewrite string_app_cons. cbn [after_prefix]. by rewrite Ascii.eqb_refl. Qed.

Lemma after_prefix_prefixb p s : is_Some (after_prefix p s) → GoStr.prefixb p s = true.
Proof.
  revert s. induction p as [|a p IH]; intros [|b s]; cbn; try done; [by intros []..|].
  destruct (Ascii.eqb_spec a b) as [->|]; [|by intros []]. intros H. rewrite bool_decide_true by done. by apply IH.
Qed.

Lemma after_prefix_length p s r : after_prefix p s = Some r → String.length s = String.length p + String.length r.
Proof.
  revert s. induction p as [|a p IH]; intros [|b s]; cbn; try done; [by intros [= <-]..|].
  destruct (a =? b)%char; [|done]. intros H. by rewrite (IH s).
Qed.

(** A match is not empty. *)
Definition shortens (find : string → option (string * string)) : Prop :=
  ∀ s new rest, find s = Some (new, rest) → String.length rest < String.length s.

Lemma match_quoted_shortens : shortens match_quoted.
Proof.
  intros s new rest. unfold match_quoted. destruct (after_prefix _ s) as [r|] eqn:Hr; [|done].
  apply after_prefix_length in Hr. pose proof (span_length is_space r) as Hs.
  destruct (span is_space r) as [sp r1]. destruct r1 as [|c r1]; [done|]. destruct (is_quote c); [|done].
  pose proof (span_length (λ c, negb (is_quote c)) r1) as Hs1.
  destruct (span _ r1) as [[|b body] [|d rest']]; try done. intros [= _ <-]. cbn in *. lia.
Qed.

Lemma match_plain_shortens : shortens match_plain.
Proof.
  intros s new rest. unfold match_plain. destruct (after_prefix _ s) as [r|] eqn:Hr; [|done].
  apply after_prefix_length in Hr. pose proof (span_length is_space r) as Hs.
  destruct (span is_space r) as [sp r1].
  pose proof (span_length (λ c, negb (is_space c)) r1) as Hs1.
  destruct (span _ r1) as [[|b body] [|d rest']]; try done.
  - intros [= _ <-]. cbn in *. lia.
  - destruct (d =? " ")%char; [|done]. intros [= _ <-]. cbn in *. lia.
Qed.

(** More fuel than the length changes nothing. *)
Lemma replace_loop_fuel find fuel s :
  shortens find → String.length s ≤ fuel → replace_loop find fuel s = ReplaceAllString find s.
Proof.
  intros Hsh. unfold ReplaceAllString. revert s.
  assert (∀ n m s, String.length s ≤ n → String.length s ≤ m → replace_loop find n s = replace_loop find m s) as Hg.
  { induction n as [|n IH]; intros [|m] s Hn Hm; destruct s as [|c s]; cbn in *; try done; try lia.
    destruct (find (String c s)) as [[new rest]|] eqn:Hf.
    - apply Hsh in Hf. cbn in Hf. f_equal. apply IH; lia.
    - f_equal. apply IH; lia. }
  intros s Hs. by apply Hg.
Qed.

Lemma replace_all_match find s new rest :
  shortens find → find s = Some (new, rest) → ReplaceAllString find s = (new ++ ReplaceAllString find rest)%string.
Proof.
  intros Hsh Hf. pose proof (Hsh _ _ _ Hf) as Hl. unfold ReplaceAllString at 1.
  destruct s as [|c s]; [cbn in Hl; lia|]. cbn. rewrite Hf. f_equal. apply replace_loop_fuel; [done|]. cbn in Hl. lia.
Qed.

Lemma replace_all_skip find c s :
  find (String c s) = None → ReplaceAllString find (String c s) = String c (ReplaceAllString find s).
Proof. intros Hf. unfold ReplaceAllString. cbn. by rewrite Hf. Qed.

(** No match starts inside [pre] when the text [p] every match starts with does not. *)
Lemma replace_all_prefix find p pre s :
  (∀ t, is_Some (find t) → GoStr.prefixb p t = true) → GoStr.never_starts p pre = true →
  ReplaceAllString find (pre ++ s) = (pre ++ ReplaceAllString find s)%string.
Proof.
  intros Hp. induction pre as [|c pre IH]; [by rewrite !string_app_nil_l|]. cbn [GoStr.never_starts]. intros [Hc Hn]%andb_prop.
  rewrite !string_app_cons, replace_all_skip, IH; [done|done|].
  destruct (find (String c (pre ++ s))) as [x|] eqn:Hf; [|done].
  assert (GoStr.prefixb p (String c pre ++ s) = true) as Hpre by (apply Hp; rewrite string_app_cons; by exists x).
  apply GoStr.prefixb_app in Hpre. by rewrite Hpre in Hc.
Qed.

Lemma match_quoted_starts t : is_Some (match_quoted t) → GoStr.prefixb "password=" t = true.
Proof.
  intros Hm. apply after_prefix_prefixb. unfold match_quoted in Hm.
  destruct (after_prefix "password=" t); [done|by destruct Hm].
Qed.

Lemma match_plain_starts t : is_Some (match_plain t) → GoStr.prefixb "password:" t = true.
Proof.
  intros Hm. apply after_prefix_prefixb. unfold match_plain in Hm.
  destruct (after_prefix "password:" t); [done|by destruct Hm].
Qed.

Lemma match_quoted_password pw s :
  pw ≠ "" → all_chars (λ c, negb (is_quote c)) pw = true →
  match_quoted ("password='" ++ pw ++ "'" ++ s) = Some ("password='****'", s).
Proof.
  intros Hne Hpw. unfold match_quoted.
  change ("password='" ++ pw ++ "'" ++ s)%string with ("password=" ++ String "'" (pw ++ String "'" s))%string.
  rewrite after_prefix_app. cbn [span is_space]. change (is_space "'") with false. cbn [is_quote].
  change (is_quote "'") with true. rewrite (span_stop _ pw "'" s) by done.
  by destruct pw.
Qed.

Lemma match_plain_password pw s :
  pw ≠ "" → all_chars (λ c, negb (is_space c)) pw = true →
  match_plain ("password:" ++ pw ++ " " ++ s) = Some ("password:**** ", s).
Proof.
  intros Hne Hpw. unfold match_plain. rewrite after_prefix_app.
  destruct pw as [|c pw]; [done|]. pose proof Hpw as [Hc%negb_true_iff _]%andb_prop.
  rewrite string_app_cons, span_none by done. rewrite <-string_app_cons. change (" " ++ s)%string with (String " " s). by rewrite (span_stop _ (String c pw) " " s).
Qed.

Lemma never_starts_app p a b :
  GoStr.never_starts p (a ++ b) = true → GoStr.never_starts p b = true.
Proof.
  induction a as [|c a IH]; [by rewrite string_app_nil_l|]. rewrite string_app_cons. cbn [GoStr.never_starts].
  intros [_ Ha]%andb_prop. by apply IH.
Qed.

Lemma replace_all_none find p s :
  (∀ t, is_Some (find t) → GoStr.prefixb p t = true) → GoStr.occurs p s = false → ReplaceAllString find s = s.
Proof.
  intros Hp. induction s as [|c s IH]; [done|]. rewrite GoStr.occurs_cons. intros [Hc Hs]%orb_false_iff.
  rewrite replace_all_skip, IH; [done|done|].
  destruct (find (String c s)) as [x|] eqn:Hf; [|done]. by rewrite Hp in Hc by (by exists x).
Qed.

(** ** The configuration *)

Record Config := MkConfig {
  host : string; port : Z; user : string; password : string; database : string; sslMode : string;
  dbConnectRetries : Z; AsyncAcks : bool; ReportInterval : Z;
  LabelsCacheSize : Z; MetricsCacheSize : Z; SeriesCacheSize : Z;
}.

Definition set_password (cfg : Config) (pw : string) : Config :=
  MkConfig (host cfg) (port cfg) (user cfg) pw (database cfg) (sslMode cfg) (dbConnectRetries cfg)
    (AsyncAcks cfg) (ReportInterval cfg) (LabelsCacheSize cfg) (MetricsCacheSize cfg) (SeriesCacheSize cfg).

(** [ParseFlags]: declaring a flag stores its default. *)
Definition ParseFlags : Config :=
  MkConfig "localhost" 5432 "postgres" "" "timescale" "disable" 0 false 0 10000
    (Z.of_nat MC.DefaultMetricCacheSize) 0.

(** A value given to one of the flags; [None] when there is no such flag or the value
    does not parse. *)
Definition set_flag (ParseInt ParseUint : string → option Z) (ParseBool : string → option bool)
    (cfg : Config) (name value : string) : option Config :=
  let '(MkConfig h p u pw d ssl r a i l m s) := cfg in
  if bool_decide (name = "db-host") then Some (MkConfig value p u pw d ssl r a i l m s)
  else if bool_decide (name = "db-port") then
    p ← ParseInt value; Some (MkConfig h p u pw d ssl r a i l m s)
  else if bool_decide (name = "db-user") then Some (MkConfig h p value pw d ssl r a i l m s)
  else if bool_decide (name = "db-password") then Some (MkConfig h p u value d ssl r a i l m s)
  else if bool_decide (name = "db-name") then Some (MkConfig h p u pw value ssl r a i l m s)
  else if bool_decide (name = "db-ssl-mode") then Some (MkConfig h p u pw d value r a i l m s)
  else if bool_decide (name = "db-connect-retries") then
    r ← ParseInt value; Some (MkConfig h p u pw d ssl r a i l m s)
  else if bool_decide (name = "async-acks") then
    a ← ParseBool value; Some (MkConfig h p u pw d ssl r a i l m s)
  else if bool_decide (name = "tput-report") then
    i ← ParseInt value; Some (MkConfig h p u pw d ssl r a i l m s)
  else if bool_decide (name = "labels-cache-size") then
    l ← ParseUint value; Some (MkConfig h p u pw d ssl r a i l m s)
  else if bool_decide (name = "metrics-cache-size") then
    m ← ParseUint value; Some (MkConfig h p u pw d ssl r a i l m s)
  else None.

Definition GetConnectionStr (cfg : Config) : string :=
  "host=" ++ host cfg ++ " port=" ++ pretty (port cfg) ++ " user=" ++ user cfg ++ " dbname=" ++ database cfg ++
  " password='" ++ password cfg ++ "' sslmode=" ++ sslMode cfg ++ " connect_timeout=10".

(** The verb [%+v] for a [Config]. *)
Definition show_Config (cfg : Config) : string :=
  "{host:" ++ host cfg ++ " port:" ++ pretty (port cfg) ++ " user:" ++ user cfg ++ " password:" ++ password cfg ++
  " database:" ++ database cfg ++ " sslMode:" ++ sslMode cfg ++ " dbConnectRetries:" ++ pretty (dbConnectRetries cfg) ++
  " AsyncAcks:" ++ Elect.show_bool (AsyncAcks cfg) ++ " ReportInterval:" ++ pretty (ReportInterval cfg) ++
  " LabelsCacheSize:" ++ pretty (LabelsCacheSize cfg) ++ " MetricsCacheSize:" ++ pretty (MetricsCacheSize cfg) ++
  " SeriesCacheSize:" ++ pretty (SeriesCacheSize cfg) ++ "}".

(** The text in front of the password in the two. *)
Definition before_conn (cfg : Config) : string :=
  "host=" ++ host cfg ++ " port=" ++ pretty (port cfg) ++ " user=" ++ user cfg ++ " dbname=" ++ database cfg ++ " ".
Definition before_show (cfg : Config) : string :=
  "{host:" ++ host cfg ++ " port:" ++ pretty (port cfg) ++ " user:" ++ user cfg ++ " ".
(** ... and behind it in the second. *)
Definition after_show (cfg : Config) : string :=
  "database:" ++ database cfg ++ " sslMode:" ++ sslMode cfg ++ " dbConnectRetries:" ++ pretty (dbConnectRetries cfg) ++
  " AsyncAcks:" ++ Elect.show_bool (AsyncAcks cfg) ++ " ReportInterval:" ++ pretty (ReportInterval cfg) ++
  " LabelsCacheSize:" ++ pretty (LabelsCacheSize cfg) ++ " MetricsCacheSize:" ++ pretty (MetricsCacheSize cfg) ++
  " SeriesCacheSize:" ++ pretty (SeriesCacheSize cfg) ++ "}".

Lemma masked_conn cfg :
  password cfg ≠ "" → all_chars (λ c, negb (is_quote c)) (password cfg) = true →
  GoStr.never_starts "password=" (before_conn cfg) = true →
  MaskPassword (GetConnectionStr cfg) =
    ReplaceAllString match_plain (before_conn cfg ++ "password='****'" ++
      ReplaceAllString match_quoted (" sslmode=" ++ sslMode cfg ++ " connect_timeout=10")).
Proof.
  intros Hne Hq Hpre. unfold MaskPassword. f_equal.
  assert (GetConnectionStr cfg = before_conn cfg ++ "password='" ++ password cfg ++ "'" ++
    " sslmode=" ++ sslMode cfg ++ " connect_timeout=10")%string as ->.
  { unfold GetConnectionStr, before_conn. by rewrite !string_app_assoc. }
  rewrite (replace_all_prefix _ "password=") by (done || apply match_quoted_starts). f_equal.
  by erewrite (replace_all_match match_quoted) by (apply match_quoted_shortens || by apply match_quoted_password).
Qed.

Lemma show_split cfg :
  show_Config cfg = (before_show cfg ++ "password:" ++ password cfg ++ " " ++ after_show cfg)%string.
Proof. unfold show_Config, before_show, after_show. by rewrite !string_app_assoc. Qed.

Lemma masked_config cfg pre post :
  password cfg ≠ "" → all_chars (λ c, negb (is_space c)) (password cfg) = true →
  GoStr.occurs "password=" (pre ++ show_Config cfg ++ post) = false →
  GoStr.never_starts "password:" (pre ++ before_show cfg) = true →
  MaskPassword (pre ++ show_Config cfg ++ post) =
    (pre ++ before_show cfg ++ "password:**** " ++ ReplaceAllString match_plain (after_show cfg ++ post))%string.
Proof.
  intros Hne Hq Hocc Hpre. unfold MaskPassword.
  rewrite (replace_all_none match_quoted "password=") by (done || apply match_quoted_starts).
  rewrite show_split, string_app_assoc, <-(string_app_assoc pre).
  rewrite (replace_all_prefix _ "password:") by (done || apply match_plain_starts).
  rewrite <-(string_app_assoc pre). f_equal. rewrite !string_app_assoc.
  by erewrite (replace_all_match match_plain) by (apply match_plain_shortens || by apply match_plain_password).
Qed.

(** C37. What is logged does not depend on the password, for non-empty passwords.  The masked
    connection string is the same for any two passwords without a quote, the masked
    configuration for any two without white space; what is in front of the password must
    not spell the key itself, and the configuration must not hold the key of the other
    expression.  Other passwords are not hidden: see [mask_stops_at_a_quote] and
    [mask_of_no_password] below. *)
Theorem mask_hides_password cfg pw1 pw2 :
  pw1 ≠ "" → pw2 ≠ "" →
  (all_chars (λ c, negb (is_quote c)) pw1 = true → all_chars (λ c, negb (is_quote c)) pw2 = true →
   GoStr.never_starts "password=" (before_conn cfg) = true →
   MaskPassword (GetConnectionStr (set_password cfg pw1)) = MaskPassword (GetConnectionStr (set_password cfg pw2))) ∧
  (∀ pre post, all_chars (λ c, negb (is_space c)) pw1 = true → all_chars (λ c, negb (is_space c)) pw2 = true →
   GoStr.never_starts "password:" (pre ++ before_show cfg) = true →
   GoStr.occurs "password=" (pre ++ show_Config (set_password cfg pw1) ++ post) = false →
   GoStr.occurs "password=" (pre ++ show_Config (set_password cfg pw2) ++ post) = false →
   MaskPassword (pre ++ show_Config (set_password cfg pw1) ++ post) =
   MaskPassword (pre ++ show_Config (set_password cfg pw2) ++ post)).
Proof.
  intros H1 H2. split.
  - intros Hq1 Hq2 Hpre. by rewrite !masked_conn.
  - intros pre post Hs1 Hs2 Hpre Ho1 Ho2. by rewrite !masked_config.
Qed.

Definition ex_cfg : Config := set_password ParseFlags "s3cret".

Lemma mask_hides_password_witness :
  MaskPassword (GetConnectionStr (set_password ParseFlags "s3cret"))
  = MaskPassword (GetConnectionStr (set_password ParseFlags "hunter2")) ∧
  MaskPassword ("&" ++ show_Config (set_password ParseFlags "s3cret") ++ "}")
  = MaskPassword ("&" ++ show_Config (set_password ParseFlags "hunter2") ++ "}").
Proof.
  destruct (mask_hides_password ParseFlags "s3cret" "hunter2") as [H1 H2]; [done..|]. split.
  - apply H1; by vm_compute.
  - apply H2; by vm_compute.
Defined.

(** Passwords the expressions are not made for: the rest after a quote, or after a
    space, is logged. *)
Example mask_stops_at_a_quote :
  MaskPassword "password='it's' sslmode=disable" = "password='****'s' sslmode=disable" ∧
  MaskPassword "password:two words database:timescale" = "password:**** words database:timescale".
Proof. by vm_compute. Qed.

(** Without a password the expression takes the next word of the configuration for it. *)
Example mask_of_no_password :
  MaskPassword "user:postgres password: database:timescale" = "user:postgres password: ****".
Proof. by vm_compute. Qed.

(** ** The client *)

Section client.
Context {F D : Type} `{GoSort} (conc : nat → list nat).
#[local] Instance names_ops : MC.MetricCacheOps MC.MetricNameCache := MC.MetricNameCache_ops conc.
#[local] Existing Instance MC.MetricNameCache_laws.
Context (conn : Ins.Conn F D) (qconn : Rd.QConn (F:=F) (D:=D)).

(** The pool is the database; the cache of metric names is one object that the ingestor
    and the reader share, so that it is kept once, in the world of the ingestor. *)
Record Client := MkClient {
  c_world : Pipe.world (F:=F) (D:=D) (C:=MC.MetricNameCache);
  c_copiers : nat;
  c_labels : LR.labels_cache;
  c_cfg : Config;
}.

Definition pool_settings (maxProcs : nat) : string :=
  " pool_max_conns=" ++ pretty (Z.of_nat (maxProcs * Pipe.ConnectionsPerProc)) ++
  " pool_min_conns=" ++ pretty (Z.of_nat maxProcs).

(** The list is what is written to the log.  [error_text] is the method [Error]. *)
Definition NewClient (Connect : string → D → D * option goerror) (error_text : goerror → string)
    (logger : option Log.level) (gomaxprocs numCPU : Z) (cfg : Config) (d : D) : D * list Log.line * res Client :=
  let connectionStr := GetConnectionStr cfg in
  let maxProcs := Pipe.max_procs gomaxprocs numCPU in
  let '(d, err) := Connect (connectionStr ++ pool_settings maxProcs)%string d in
  let logged := Log.log_at logger Log.LInfo ["msg"; MaskPassword connectionStr] in
  match err with
  | Some err =>
      (d, logged ++ Log.log_at logger Log.LError
            ["err creating connection pool for new client"; MaskPassword (error_text err)], Err err)
  | None =>
      let cache := Clock.WithMax (Z.to_nat (MetricsCacheSize cfg)) in
      match Pipe.newPgxInserter conn gomaxprocs numCPU d cache with
      | (d, Ok (copiers, w)) =>
          (d, logged, Ok (MkClient w copiers (Clock.WithMax (Z.to_nat (LabelsCacheSize cfg))) cfg))
      | (d, Err err) => (d, logged ++ Log.log_at logger Log.LError ["err starting ingestor"; error_text err], Err err)
      | (d, Panic m) => (d, logged, Panic m)
      end
  end.

(** The reader of a client, and the client after the reader worked. *)
Definition reader (c : Client) : Rd.pgxQuerier (D:=D) (C:=MC.MetricNameCache) :=
  Rd.MkQuerier (Pipe.w_db (c_world c)) (Pipe.w_names (c_world c)) (c_labels c).

Definition put_reader (c : Client) (q : Rd.pgxQuerier (D:=D) (C:=MC.MetricNameCache)) : Client :=
  let w := c_world c in
  MkClient (Pipe.MkWorld (Rd.q_db q) (Pipe.w_calls w) (Pipe.w_frames w) (Pipe.w_inserters w) (Pipe.w_copy w)
              (Pipe.w_copying w) (Rd.metricTableNames q) (Pipe.w_signal w) (Pipe.w_inserted w))
    (c_copiers c) (Rd.q_labels q) (c_cfg c).

Definition HealthCheck (c : Client) : Client * option goerror :=
  let '(q, err) := Rd.HealthCheck qconn (reader c) in (put_reader c q, err).

Definition NumCachedMetricNames (c : Client) : nat := MC.NumElements (Pipe.w_names (c_world c)).
Definition MetricNamesCacheCapacity (c : Client) : nat := MC.Capacity (Pipe.w_names (c_world c)).
Definition NumCachedLabels (c : Client) : nat := Rd.NumCachedLabels (reader c).
Definition LabelsCacheCapacity (c : Client) : nat := Rd.LabelsCacheCapacity (reader c).

(** A client that was made is in the initial state of the pipeline, with copiers, an
    empty cache of metric names, and a pool with a connection for every copier and
    one more for every processor. *)
Lemma NewClient_starts (tables : D → gmap string string) Connect error_text logger gomaxprocs numCPU cfg d d' logged c :
  NewClient Connect error_text logger gomaxprocs numCPU cfg d = (d', logged, Ok c) →
  let maxProcs := Pipe.max_procs gomaxprocs numCPU in
  c_world c = Pipe.init d' (Pipe.w_names (c_world c)) ∧ MC.coherent tables d' (Pipe.w_names (c_world c)) ∧
  0 < c_copiers c ∧ c_copiers c + maxProcs = maxProcs * Pipe.ConnectionsPerProc ∧
  MetricNamesCacheCapacity c = Z.to_nat (MetricsCacheSize cfg) ∧
  LabelsCacheCapacity c = Z.to_nat (LabelsCacheSize cfg) ∧
  logged = Log.log_at logger Log.LInfo ["msg"; MaskPassword (GetConnectionStr cfg)].
Proof.
  unfold NewClient. destruct (Connect _ d) as [d1 [err|]]; [done|]. unfold Pipe.newPgxInserter.
  destruct (Ins.CompleteMetricCreation conn d1) as [d2 [err|]]; [done|]. intros [= <- <- <-]. cbn.
  assert (0 < Pipe.max_procs gomaxprocs numCPU) as Hp.
  { unfold Pipe.max_procs. repeat case_match; lia. }
  split_and!; try done; [|unfold Pipe.ConnectionsPerProc; lia..].
  split; [apply Clock.inv_WithMax|]. by apply map_subseteq_spec.
Qed.

(** ** Reading next to the pipeline *)

Context (Sanitize : list string → string) (ExtensionIsInstalled : bool) (label_conc : nat → nat → list nat).
Context (scan_plain : SS.data_row F → res (list Z * list Z * list F)).
Context (NewMatcher : Lbl.MatchType → string → string → res Lbl.Matcher).

Definition Read (c : Client) (req : option (list (option Rd.Query_req)))
    : Client * res (option (list (list (Smp.TimeSeries F)))) :=
  let '(q, r) := Rd.Read qconn Sanitize ExtensionIsInstalled label_conc scan_plain NewMatcher (reader c) req in
  (put_reader c q, r).

Context (v : Ins.DbView D).

(** What the queries of the reader leave alone: ids, tables and rows stay, and the table
    read for a metric is its table. *)
Record QConnLaws : Prop := {
  q_health_le : ∀ d, Ins.db_le v d (Rd.qc_health qconn d).1;
  q_series_le : ∀ d s a, Ins.db_le v d (Rd.qc_series qconn d s a).1;
  q_data_le : ∀ d s a, Ins.db_le v d (Rd.qc_data qconn d s a).1;
  q_table_le : ∀ d m, Ins.db_le v d (Rd.qc_table qconn d m).1;
  q_table_ok : MC.query_ok (Ins.db_tables v) (Rd.qc_table qconn);
  q_labels_le : ∀ d ids, Ins.db_le v d (Rd.qc_labels qconn d ids).1;
}.
Context (Hq : QConnLaws).

Notation querier := (Rd.pgxQuerier (D:=D) (C:=MC.MetricNameCache)).

(** [q'] is [q] after some reading. *)
Definition read_to (q q' : querier) : Prop :=
  Ins.db_le v (Rd.q_db q) (Rd.q_db q') ∧
  (MC.coherent (Ins.db_tables v) (Rd.q_db q) (Rd.metricTableNames q) →
   MC.coherent (Ins.db_tables v) (Rd.q_db q') (Rd.metricTableNames q')).

#[local] Instance read_to_preorder : PreOrder read_to.
Proof.
  split; [by intros q; split|]. intros q1 q2 q3 [H1 C1] [H2 C2]. split; [by etrans|auto].
Qed.

Lemma read_set_db q d : Ins.db_le v (Rd.q_db q) d → read_to q (Rd.set_db q d).
Proof. intros Hd. split; [done|]. cbn. intros [Hi Hs]. split; [done|]. destruct Hd as (_ & Ht & _). by etrans. Qed.

Lemma read_table q m : read_to q (Rd.q_getMetricTableName qconn q m).1.
Proof.
  unfold Rd.q_getMetricTableName, MC.pgxQuerier_getMetricTableName.
  assert (∀ d c, Ins.db_le v d (MC.cached_table_name (MC.queryMetricTableName (Rd.qc_table qconn)) d c m).1.1) as Hle.
  { intros d c. unfold MC.cached_table_name, MC.queryMetricTableName. pose proof (q_table_le Hq d m) as Ht.
    destruct (MC.mc_Get c m) as [c1 [t|e|p]]; [done| |done]. case_decide; [|done].
    destruct (Rd.qc_table qconn d m) as [d1 r]. cbn in *. destruct (_ : res string); [|done..].
    by destruct (MC.mc_Set c1 m a) as [c2 [|]]. }
  specialize (Hle (Rd.q_db q) (Rd.metricTableNames q)).
  destruct (MC.cached_table_name _ _ _ m) as [[d names] r] eqn:Hr. cbn in *. split; [done|]. cbn. intros Hc.
  eapply MC.cached_table_name_coherent in Hr as (Hc' & _); [exact Hc'|apply MC.query_name_fetch_ok, Hq|done].
Qed.

Lemma read_labels q ids : read_to q (Rd.q_getPrompbLabelsForIds qconn label_conc q ids).1.
Proof.
  unfold Rd.q_getPrompbLabelsForIds, LR.getPrompbLabelsForIds, LR.getLabelsForIds.
  destruct (Clock.GetValues _ ids _) as [[[[cache keys] values] n]|e|p]; [|by cbn..].
  destruct (n <? length ids); [|cbn; by destruct (LR.to_labels values)].
  unfold LR.fetchMissingLabels. pose proof (q_labels_le Hq (Rd.q_db q) (drop n keys)) as Hl.
  destruct (Rd.qc_labels qconn (Rd.q_db q) (drop n keys)) as [d r]. cbn in Hl.
  assert (∀ lc, read_to q (Rd.MkQuerier d (Rd.metricTableNames q) lc)) as Hd.
  { intros lc. destruct (read_set_db q d Hl) as [H1 H2]. split; [exact H1|exact H2]. }
  destruct r as [rows|e|p]; [|apply Hd..].
  destruct (LR.label_rows _ _ _ _ _ _ _) as [lc [[tail k]|e|p]]; [|apply Hd..].
  destruct (LR.to_labels _); apply Hd.
Qed.

Lemma read_single q metric st en cases vals hints path :
  read_to q (Rd.querySingleMetric qconn Sanitize ExtensionIsInstalled q metric st en cases vals hints path).1.
Proof.
  unfold Rd.querySingleMetric. pose proof (read_table q metric) as Ht.
  destruct (Rd.q_getMetricTableName qconn q metric) as [q1 [t|e|p]]; [|done..]. cbn in Ht.
  destruct (QB.buildTimeseriesByLabelClausesQuery _ _ _ _ _ _ _) as [[[sql vals'] top]|e|p]; [|done..].
  etrans; [exact Ht|]. pose proof (q_data_le Hq (Rd.q_db q1) sql vals') as Hd.
  destruct (Rd.qc_data qconn _ _ _) as [d [rows err]]. by apply read_set_db.
Qed.

Lemma read_metrics q st en metrics : read_to q (Rd.query_metrics qconn Sanitize q st en metrics).1.
Proof.
  revert q. induction metrics as [|[metric series] metrics IH]; intros q; cbn [Rd.query_metrics]; [done|].
  pose proof (read_table q metric) as Ht.
  destruct (Rd.q_getMetricTableName qconn q metric) as [q1 [t|e|p]]; cbn in Ht; [| |done].
  - match goal with |- context [Rd.qc_data qconn (Rd.q_db q1) ?sql ?a] =>
      pose proof (q_data_le Hq (Rd.q_db q1) sql a) as Hd; destruct (Rd.qc_data qconn (Rd.q_db q1) sql a) as [d [rows err]] end.
    cbn in Hd. apply (read_set_db q1) in Hd. etrans; [exact Ht|]. destruct err; [exact Hd|]. etrans; [exact Hd|].
    specialize (IH (Rd.set_db q1 d)). by destruct (Rd.query_metrics _ _ _ _ _ _) as [q2 r].
  - case_decide; [|done]. by etrans.
Qed.

Lemma read_rows q st en hints path ms :
  read_to q (Rd.getResultRows qconn Sanitize ExtensionIsInstalled q st en hints path ms).1.
Proof.
  unfold Rd.getResultRows. destruct (QB.buildSubQueries ms) as [[[metric cases] vals]|e|p]; [|done..].
  case_match; [apply read_single|].
  match goal with |- context [Rd.qc_series qconn ?d ?sql ?a] =>
    pose proof (q_series_le Hq d sql a) as Hd; destruct (Rd.qc_series qconn d sql a) as [d1 r] end.
  cbn in Hd. apply (read_set_db q) in Hd. destruct r as [rows|e|p]; [|exact Hd..].
  destruct (Rd.getSeriesPerMetric _) as [metrics|e|p]; [|exact Hd..]. etrans; [exact Hd|].
  pose proof (read_metrics (Rd.set_db q d1) (QB.toRFC3339Nano st) (QB.toRFC3339Nano en) metrics) as Hm.
  by destruct (Rd.query_metrics _ _ _ _ _ _) as [q2 r].
Qed.

Lemma read_build q scans : read_to q (Rd.build_loop qconn label_conc scan_plain q scans).1.
Proof.
  revert q. induction scans as [|scan scans IH]; intros q; cbn [Rd.build_loop]; [done|].
  destruct (let* row := scan in scan_plain row) as [[[ids times] values]|e|p]; [|done..]. case_match; [done|].
  pose proof (read_labels q ids) as Hl. destruct (Rd.q_getPrompbLabelsForIds _ _ q ids) as [q1 [ls|e|p]]; [|exact Hl..].
  etrans; [exact Hl|]. cbn [fst]. specialize (IH q1). by destruct (Rd.build_loop _ _ _ q1 scans) as [q2 r].
Qed.

Lemma read_build_all q rows : read_to q (Rd.build_all qconn label_conc scan_plain q rows).1.
Proof.
  revert q. induction rows as [|r rows IH]; intros q; cbn [Rd.build_all]; [done|].
  unfold Rd.buildTimeSeries. pose proof (read_build q (MC.row_scans r)) as Hb.
  destruct (Rd.build_loop _ _ _ q _) as [q1 r1]. cbn in Hb |- *. destruct (let* _ := r1 in _) as [ts|e|p]; [|exact Hb..].
  etrans; [exact Hb|]. specialize (IH q1). by destruct (Rd.build_all _ _ _ q1 rows) as [q2 r2].
Qed.

Lemma read_query q query :
  read_to q (Rd.Query qconn Sanitize ExtensionIsInstalled label_conc scan_plain NewMatcher q query).1.
Proof.
  unfold Rd.Query. destruct query as [query|]; [|done]. destruct (Lbl.FromLabelMatchers _ _) as [ms|e|p]; [|done..].
  match goal with |- context [Rd.getResultRows _ _ _ q ?st ?en ?h ?path ms] =>
    pose proof (read_rows q st en h path ms) as Hr; destruct (Rd.getResultRows _ _ _ q st en h path ms) as [q1 [[rows top]|e|p]] end;
    [|exact Hr..].
  etrans; [exact Hr|]. apply read_build_all.
Qed.

Lemma read_requests q queries :
  read_to q (Rd.read_loop qconn Sanitize ExtensionIsInstalled label_conc scan_plain NewMatcher q queries).1.
Proof.
  revert q. induction queries as [|query queries IH]; intros q; cbn [Rd.read_loop]; [done|].
  pose proof (read_query q query) as Hr. destruct (Rd.Query _ _ _ _ _ _ q query) as [q1 [tts|e|p]]; [|exact Hr..].
  etrans; [exact Hr|]. cbn [fst]. specialize (IH q1). by destruct (Rd.read_loop _ _ _ _ _ _ q1 queries) as [q2 r2].
Qed.

Lemma put_reader_inv asyncAcks (c : Client) q :
  Pipe.inv v asyncAcks (c_world c) → read_to (reader c) q → Pipe.inv v asyncAcks (c_world (put_reader c q)).
Proof.
  intros Hinv [Hle Hco]. set (w := c_world c) in *.
  assert (MC.coherent (Ins.db_tables v) (Rd.q_db q) (Rd.metricTableNames q)) as Hn by apply Hco, (Pipe.inv_names _ _ _ Hinv).
  apply (Pipe.inv_build v asyncAcks w); try done; [apply Pipe.calls_le_refl|by apply (Pipe.inv_wg_same v asyncAcks w)|auto|auto|].
  intros c0 m data _. apply Pipe.accounted_keep; [done|apply Pipe.calls_le_refl|..]; intros.
  - by eapply Pipe.InTodo.
  - by eapply Pipe.InQueue.
  - by eapply Pipe.InHandler.
  - by eapply Pipe.InCopier.
Qed.

(** C29. Reading and writing share the cache of metric names: a read request, whatever it
    gives, keeps the invariant of the insert pipeline, so that what the pipeline
    promises holds with reads at any time between its steps. *)
Theorem Read_keeps_pipeline asyncAcks c req c' r :
  Pipe.inv v asyncAcks (c_world c) → Read c req = (c', r) →
  Pipe.inv v asyncAcks (c_world c') ∧ Ins.db_le v (Pipe.w_db (c_world c)) (Pipe.w_db (c_world c')).
Proof.
  intros Hinv. unfold Read. assert (read_to (reader c)
    (Rd.Read qconn Sanitize ExtensionIsInstalled label_conc scan_plain NewMatcher (reader c) req).1) as Hr.
  { unfold Rd.Read. destruct req as [queries|]; [|done]. pose proof (read_requests (reader c) queries) as Hr.
    by destruct (Rd.read_loop _ _ _ _ _ _ _ queries) as [q1 r1]. }
  destruct (Rd.Read _ _ _ _ _ _ (reader c) req) as [q r0]. intros [= <- _]. split; [by apply put_reader_inv|apply Hr].
Qed.

End client.

(** ** A client over the database of the pipeline's examples *)

Module Toy.
Import Pipe.

Definition qconn : Rd.QConn (F:=Z) (D:=ex_state) := {|
  Rd.qc_health d := (d, None);
  Rd.qc_series d _ _ := (d, Ok (MC.MkRows [] None));
  Rd.qc_data d _ _ := (d, (MC.MkRows [Ok ([], [SS.MkTime true (SS.Finite 7000000)], [SS.MkVal true 5%Z])] None, None));
  Rd.qc_table d m := (d, Ok (MC.MkRows (match ex_tables d !! m with Some t => [Ok t] | None => [] end) None));
  Rd.qc_labels d _ := (d, Ok (MC.MkRows [] None));
  Rd.qc_labelNames d := (d, Ok (MC.MkRows [] None));
  Rd.qc_labelValues d _ := (d, Ok (MC.MkRows [] None));
|}.

Lemma qconn_laws : QConnLaws qconn ex_view.
Proof.
  split; try done. intros d m. cbn. split; [done|]. intros t. destruct (ex_tables d !! m) as [t'|]; [|by intros ?%elem_of_nil].
  intros Ht%list_elem_of_singleton. by injection Ht as ->.
Qed.

Definition client : Client (F:=Z) (D:=ex_state) := MkClient ex_final 1 (Clock.WithMax 4) ParseFlags.
Definition new_matcher (t : Lbl.MatchType) (n val : string) : res Lbl.Matcher := Ok (Lbl.MkMatcher t n val (λ _, true)).
Definition request : option (list (option Rd.Query_req)) :=
  Some [Some (Rd.MkQuery 0 9 [Lbl.MkLabelMatcher Lbl.LM_EQ "__name__" "up"])].
Definition run := Read (λ _, []) qconn (λ _, "t") false (λ _, Clock.quiet) Rd.ex_plain new_matcher client request.

End Toy.

#[local] Instance toy_ops : MC.MetricCacheOps MC.MetricNameCache := MC.MetricNameCache_ops (λ _, []).
#[local] Instance toy_laws : MC.MetricCacheLaws MC.MetricNameCache := MC.MetricNameCache_laws (λ _, []).

Lemma Read_keeps_pipeline_witness : Pipe.inv Pipe.ex_view false (c_world Toy.run.1).
Proof.
  refine (proj1 (Read_keeps_pipeline (λ _, []) Toy.qconn (λ _, "t") false (λ _, Clock.quiet) Rd.ex_plain Toy.new_matcher
    Pipe.ex_view Toy.qconn_laws false Toy.client Toy.request Toy.run.1 Toy.run.2 _ (surjective_pairing _))).
  exact (Pipe.reachable_ok Pipe.ex_conn Pipe.ex_view false 1 Pipe.ex_conn_laws _ _ _ Pipe.ex_coherent Pipe.ex_reachable).
Defined.

End Cli.
