(* ===== verification/Marshal.v ===== *)
(** * JSON responses

    [src/pkg/api/marshal.go]: the hand-written JSON encoder for instant vectors and
    matrices, with its error-swallowing writer and its string escaping.

    Text is a list of bytes.  Floats are the IEEE binary64 numbers of
    [SpecFloat]; the decimal text of a float ([strconv.AppendFloat]) is a
    parameter. *)
From S2P Require Import Prelude Float.

Module Marsh.

(** ** Bytes and constants *)

Notation bytes := (list Z).

(** The bytes of a constant of the source; its double quotes are written as
    single ones. *)
Fixpoint J (s : string) : bytes :=
  match s with
  | EmptyString => []
  | String c s => (if (c =? "'")%char then 34%Z else Z.of_N (N_of_ascii c)) :: J s
  end.

Definition is_byte (b : Z) : Prop := (0 ≤ b < 256)%Z.

(** ** Floats *)

(** The float64 nearest to 1e-6, and 1e21. *)
Definition f1e_6 : float64 := S754_finite false 4722366482869645 (-72).
Definition f1e21 : float64 := float_of_Z 1000000000000000000000.

(** ** UTF-8: [utf8.DecodeRuneInString] *)

Definition RuneError : Z := 65533.

Definition cont (lo hi b : Z) : bool := (lo <=? b)%Z && (b <=? hi)%Z.

(** The rune [s] starts with and its size; [(RuneError, 1)] on an invalid one. *)
Definition DecodeRune (s : bytes) : Z * nat :=
  match s with
  | [] => (RuneError, 0)
  | b0 :: s1 =>
      if (b0 <? 128)%Z then (b0, 1)
      else if cont 194 223 b0 then
        match s1 with
        | b1 :: _ => if cont 128 191 b1 then (((b0 - 192) * 64 + (b1 - 128))%Z, 2) else (RuneError, 1)
        | _ => (RuneError, 1)
        end
      else if cont 224 239 b0 then
        let lo := if (b0 =? 224)%Z then 160%Z else 128%Z in
        let hi := if (b0 =? 237)%Z then 159%Z else 191%Z in
        match s1 with
        | b1 :: b2 :: _ =>
            if cont lo hi b1 && cont 128 191 b2
            then (((b0 - 224) * 4096 + (b1 - 128) * 64 + (b2 - 128))%Z, 3) else (RuneError, 1)
        | _ => (RuneError, 1)
        end
      else if cont 240 244 b0 then
        let lo := if (b0 =? 240)%Z then 144%Z else 128%Z in
        let hi := if (b0 =? 244)%Z then 143%Z else 191%Z in
        match s1 with
        | b1 :: b2 :: b3 :: _ =>
            if cont lo hi b1 && cont 128 191 b2 && cont 128 191 b3
            then (((b0 - 240) * 262144 + (b1 - 128) * 4096 + (b2 - 128) * 64 + (b3 - 128))%Z, 4)
            else (RuneError, 1)
        | _ => (RuneError, 1)
        end
      else (RuneError, 1)
  end.

(** ** The tables *)

Definition bytes_of (s : string) : bytes := (λ c, Z.of_N (N_of_ascii c)) <$> String.list_ascii_of_string s.

(** The characters with value true, in the order of the source. *)
Definition safeSet_true : bytes :=
  bytes_of " !" ++ bytes_of "#$%&'()*+,-./0123456789:;<=>?@ABCDEFGHIJKLMNOPQRSTUVWXYZ[" ++
  bytes_of "]^_`abcdefghijklmnopqrstuvwxyz{|}~" ++ [127%Z].
Definition htmlSafeSet_true : bytes :=
  bytes_of " !" ++ bytes_of "#$%'()*+,-./0123456789:;" ++
  bytes_of "=" ++ bytes_of "?@ABCDEFGHIJKLMNOPQRSTUVWXYZ[" ++
  bytes_of "]^_`abcdefghijklmnopqrstuvwxyz{|}~" ++ [127%Z].

Definition safeSet (b : Z) : bool := bool_decide (b ∈ safeSet_true).
Definition htmlSafeSet (b : Z) : bool := bool_decide (b ∈ htmlSafeSet_true).

Definition hex : bytes := bytes_of "0123456789abcdef".
Definition hex_digit (d : Z) : Z := default 0%Z (hex !! Z.to_nat d).

(** ** [errorWrapper] *)

Section marshal.
Context {W : Type} (Write : W → bytes → W * option goerror).
(** [strconv.AppendFloat] for the formats [f] and [e], with the shortest precision. *)
Context (AppendFloat : float64 → ascii → bytes).

Record errorWrapper := MkEW {
  ew_err : option goerror;
  writer : W;
  jsonScratch : bytes;
}.

Definition wrap_writer (w : W) : errorWrapper := MkEW None w [].

(** One call of the underlying writer, its error kept. *)
Definition write1 (self : errorWrapper) (b : bytes) : errorWrapper :=
  match Write (writer self) b with
  | (w, err) => MkEW err w (jsonScratch self)
  end.

(** The loop stops at the first error. *)
Fixpoint write_strings (self : errorWrapper) (strings : list bytes) : errorWrapper :=
  match strings with
  | [] => self
  | s :: rest =>
      let self := write1 self s in
      match ew_err self with
      | Some _ => self
      | None => write_strings self rest
      end
  end.

Definition WriteStrings (self : errorWrapper) (strings : list bytes) : errorWrapper :=
  match ew_err self with
  | Some _ => self
  | None => write_strings self strings
  end.

Definition WriteBytes (self : errorWrapper) (b : bytes) : errorWrapper :=
  match ew_err self with
  | Some _ => self
  | None => write1 self b
  end.

Definition writeFloat (self : errorWrapper) (f : float64) : errorWrapper :=
  WriteBytes self (AppendFloat f "f").

Definition writeCachedJsonFloat (self : errorWrapper) (length : nat) : errorWrapper :=
  WriteBytes self (take length (jsonScratch self)).

(** [abs != 0] and [abs < 1e-6 || abs >= 1e21]. *)
Definition uses_exponent (f : float64) : bool :=
  let abs := SFabs f in
  negb (SFeqb abs (S754_zero false)) && (SFltb abs f1e_6 || SFleb f1e21 abs).

(** [e-09] becomes [e-9]. *)
Definition clean_exponent (b : bytes) : bytes :=
  let n := length b in
  match b !! (n - 4), b !! (n - 3), b !! (n - 2), b !! (n - 1) with
  | Some 101%Z, Some 45%Z, Some 48%Z, Some d =>
      if (4 <=? n) then take (n - 2) b ++ [d] else b
  | _, _, _, _ => b
  end.

Definition json_float (f : float64) : bytes :=
  if uses_exponent f then clean_exponent (AppendFloat f "e") else AppendFloat f "f".

(** The text stays in the scratch array, which is long enough for it. *)
Definition writeJsonFloat (self : errorWrapper) (f : float64) : errorWrapper * nat :=
  let b := json_float f in
  (WriteBytes (MkEW (ew_err self) (writer self) b) b, length b).

(** What replaces an ASCII byte that is not safe: the two calls of the writer. *)
Definition write_escape (self : errorWrapper) (b : Z) : errorWrapper :=
  if (b =? 92)%Z then WriteStrings self [[92; 92]]%Z
  else if (b =? 34)%Z then WriteStrings self [[92; 34]]%Z
  else if (b =? 10)%Z then WriteStrings self [J "\n"]
  else if (b =? 13)%Z then WriteStrings self [J "\r"]
  else if (b =? 9)%Z then WriteStrings self [J "\t"]
  else WriteBytes (WriteStrings self [J "\u00"])
         [hex_digit (Z.shiftr b 4); hex_digit (Z.land b 15)].

Definition flush_pending (self : errorWrapper) (pending : bytes) : errorWrapper :=
  match pending with
  | [] => self
  | _ => WriteStrings self [pending]
  end.

(** The loop: [pending] is [s[start:i]], [rest] is [s[i:]]; every round consumes a
    byte, so [length rest] rounds are enough. *)
Fixpoint escape_loop (fuel : nat) (escapeHTML : bool) (self : errorWrapper)
    (pending rest : bytes) : errorWrapper :=
  match fuel, rest with
  | S fuel, b :: rest' =>
      if (b <? 128)%Z then
        if htmlSafeSet b || (negb escapeHTML && safeSet b)
        then escape_loop fuel escapeHTML self (pending ++ [b]) rest'
        else escape_loop fuel escapeHTML (write_escape (flush_pending self pending) b) [] rest'
      else
        let '(c, size) := DecodeRune rest in
        if (c =? RuneError)%Z && (size =? 1) then
          escape_loop fuel escapeHTML (WriteStrings (flush_pending self pending) [J "\ufffd"]) []
            (drop size rest)
        else if (c =? 8232)%Z || (c =? 8233)%Z then
          escape_loop fuel escapeHTML
            (WriteBytes (WriteStrings (flush_pending self pending) [J "\u202"]) [hex_digit (Z.land c 15)]) []
            (drop size rest)
        else escape_loop fuel escapeHTML self (pending ++ take size rest) (drop size rest)
  | _, _ => flush_pending self pending
  end.

Definition WriteEscapedString (self : errorWrapper) (s : bytes) (escapeHTML : bool) : errorWrapper :=
  match ew_err self with
  | Some _ => self
  | None => escape_loop (length s) escapeHTML self [] s
  end.

(** ** Responses *)

Record Label := MkLabel { Name : bytes; Value : bytes }.
Record Point := MkPoint { T : Z; V : float64 }.
Record Sample := MkSample { s_Point : Point; s_Metric : list Label }.
Record Series := MkSeries { m_Metric : list Label; Points : list Point }.

(** [open], without its comma for the first element. *)
Definition opening (first : bool) (open : bytes) : bytes := if first then drop 1 open else open.

Fixpoint warnings_loop (out : errorWrapper) (first : bool) (warnings : list bytes) : errorWrapper :=
  match warnings with
  | [] => out
  | warning :: rest =>
      let out := WriteStrings out [opening first (J ",'")] in
      let out := WriteEscapedString out warning true in
      let out := WriteStrings out [J "'"] in
      warnings_loop out false rest
  end.

Definition marshalCommonHeader (out : errorWrapper) : errorWrapper :=
  WriteStrings out [J "{'status':'success','data':"].

Definition marshalCommonFooter (out : errorWrapper) (warnings : list bytes) : errorWrapper :=
  let out := match warnings with
             | [] => out
             | _ => let out := WriteStrings out [J ",'warnings':["] in
                    let out := warnings_loop out true warnings in
                    WriteStrings out [J "]"]
             end in
  WriteStrings out [J "}" ++ [10%Z]].

Fixpoint labels_loop (out : errorWrapper) (first : bool) (labels : list Label) : errorWrapper :=
  match labels with
  | [] => out
  | label :: rest =>
      let out := WriteStrings out [if first then J "'" else J ",'"] in
      let out := WriteEscapedString out (Name label) true in
      let out := WriteStrings out [J "':'"] in
      let out := WriteEscapedString out (Value label) true in
      let out := WriteStrings out [J "'"] in
      labels_loop out false rest
  end.

Definition marshalLabels (out : errorWrapper) (labels : list Label) : errorWrapper :=
  labels_loop out true labels.

(** [float64(point.T) / 1000]. *)
Definition seconds (p : Point) : float64 := float_div (float_of_Z (T p)) (float_of_Z 1000).

Fixpoint points_loop (out : errorWrapper) (first : bool) (points : list Point) : errorWrapper :=
  match points with
  | [] => out
  | point :: rest =>
      let out := WriteStrings out [opening first (J ",[")] in
      let '(out, _) := writeJsonFloat out (seconds point) in
      let out := WriteStrings out [J ",'"] in
      let out := writeFloat out (V point) in
      let out := WriteStrings out [J "']"] in
      points_loop out false rest
  end.

Fixpoint matrix_loop (out : errorWrapper) (first : bool) (data : list Series) : errorWrapper :=
  match data with
  | [] => out
  | d :: rest =>
      let out := WriteStrings out [opening first (J ",{'metric':{")] in
      let out := marshalLabels out (m_Metric d) in
      let out := WriteStrings out [J "},'values':["] in
      let out := points_loop out true (Points d) in
      let out := WriteStrings out [J "]}"] in
      matrix_loop out false rest
  end.

Definition marshalMatrixData (out : errorWrapper) (data : list Series) : errorWrapper :=
  let out := WriteStrings out [J "{'resultType':'"; J "matrix"; J "','result':["] in
  let out := matrix_loop out true data in
  WriteStrings out [J "]}"].

Fixpoint vector_loop (out : errorWrapper) (floatLen : nat) (first : bool) (data : list Sample)
    : errorWrapper :=
  match data with
  | [] => out
  | d :: rest =>
      let out := WriteStrings out [opening first (J ",{'metric':{")] in
      let out := marshalLabels out (s_Metric d) in
      let out := WriteStrings out [J "},'value':["] in
      let '(out, floatLen) :=
        if floatLen =? 0 then writeJsonFloat out (seconds (s_Point d))
        else (writeCachedJsonFloat out floatLen, floatLen) in
      let out := WriteStrings out [J ",'"] in
      let out := writeFloat out (V (s_Point d)) in
      let out := WriteStrings out [J "'"] in
      let out := WriteStrings out [J "]}"] in
      vector_loop out floatLen false rest
  end.

Definition marshalVectorData (out : errorWrapper) (data : list Sample) : errorWrapper :=
  let out := WriteStrings out [J "{'resultType':'"; J "vector"; J "','result':["] in
  let out := vector_loop out 0 true data in
  WriteStrings out [J "]}"].

(** The writer at the end, and the error returned. *)
Definition marshalVectorResponse (w : W) (data : list Sample) (warnings : list bytes)
    : W * option goerror :=
  let out := marshalCommonHeader (wrap_writer w) in
  let out := marshalVectorData out data in
  let out := marshalCommonFooter out warnings in
  (writer out, ew_err out).

Definition marshalMatrixResponse (w : W) (data : list Series) (warnings : list bytes)
    : W * option goerror :=
  let out := marshalCommonHeader (wrap_writer w) in
  let out := marshalMatrixData out data in
  let out := marshalCommonFooter out warnings in
  (writer out, ew_err out).

End marshal.

(** ** References: escaped text and JSON documents *)

Definition escape_ascii (b : Z) : bytes :=
  if (b =? 92)%Z then [92; 92]%Z
  else if (b =? 34)%Z then [92; 34]%Z
  else if (b =? 10)%Z then J "\n"
  else if (b =? 13)%Z then J "\r"
  else if (b =? 9)%Z then J "\t"
  else J "\u00" ++ [hex_digit (Z.shiftr b 4); hex_digit (Z.land b 15)].

(** What the first character of [s] becomes, and its size. *)
Definition piece (s : bytes) : bytes * nat :=
  match s with
  | [] => ([], 0)
  | b :: _ =>
      if (b <? 128)%Z then (if htmlSafeSet b then [b] else escape_ascii b, 1)
      else
        let '(c, size) := DecodeRune s in
        if (c =? RuneError)%Z && (size =? 1) then (J "\ufffd", size)
        else if (c =? 8232)%Z || (c =? 8233)%Z then (J "\u202" ++ [hex_digit (Z.land c 15)], size)
        else (take size s, size)
  end.

Fixpoint escape_go (fuel : nat) (s : bytes) : bytes :=
  match fuel, s with
  | S fuel, _ :: _ => let '(e, size) := piece s in e ++ escape_go fuel (drop size s)
  | _, _ => []
  end.

Definition escape (s : bytes) : bytes := escape_go (length s) s.

#[warnings="-register-all"]
Inductive json :=
  | JString (s : bytes)
  (** quoted text that needs no escaping *)
  | JText (t : bytes)
  | JNumber (t : bytes)
  | JArray (l : list json)
  | JObject (l : list (bytes * json)).

(** A comma before every element but, when [first], the first. *)
Fixpoint commas (first : bool) (l : list bytes) : bytes :=
  match l with
  | [] => []
  | x :: l => (if first then [] else [44%Z]) ++ x ++ commas false l
  end.

Fixpoint print (j : json) : bytes :=
  match j with
  | JString s => 34%Z :: escape s ++ [34%Z]
  | JText t => 34%Z :: t ++ [34%Z]
  | JNumber t => t
  | JArray l => 91%Z :: commas true (map print l) ++ [93%Z]
  | JObject l =>
      123%Z :: commas true (map (λ p, 34%Z :: escape p.1 ++ [34; 58]%Z ++ print p.2) l) ++ [125%Z]
  end.

Section documents.
Context (AppendFloat : float64 → ascii → bytes).

Definition labels_json (l : list Label) : json :=
  JObject ((λ x, (Name x, JString (Value x))) <$> l).

Definition point_json (p : Point) : json :=
  JArray [JNumber (json_float AppendFloat (seconds p)); JText (AppendFloat (V p) "f")].

Definition series_json (d : Series) : json :=
  JObject [(J "metric", labels_json (m_Metric d)); (J "values", JArray (point_json <$> Points d))].

Definition sample_json (d : Sample) : json :=
  JObject [(J "metric", labels_json (s_Metric d)); (J "value", point_json (s_Point d))].

Definition data_json (resultType : bytes) (result : list json) : json :=
  JObject [(J "resultType", JString resultType); (J "result", JArray result)].

Definition response_json (data : json) (warnings : list bytes) : json :=
  JObject ([(J "status", JString (J "success")); (J "data", data)] ++
           match warnings with
           | [] => []
           | _ => [(J "warnings", JArray (JString <$> warnings))]
           end).

End documents.

(** ** A writer that takes everything *)

Section complete.
Context {W : Type} (Write : W → bytes → W * option goerror) (content : W → bytes).
Context (AppendFloat : float64 → ascii → bytes).
Context (Write_ok : ∀ w b, content (Write w b).1 = content w ++ b ∧ (Write w b).2 = None).

(** No error so far, [b] written, [sc] in the scratch array. *)
Definition at_ (ew : errorWrapper (W:=W)) (b sc : bytes) : Prop :=
  ew_err ew = None ∧ content (writer ew) = b ∧ jsonScratch ew = sc.

Lemma at_eq ew b b' sc : at_ ew b sc → b = b' → at_ ew b' sc.
Proof. by intros ? <-. Qed.

Lemma at_write1 ew b sc s : at_ ew b sc → at_ (write1 Write ew s) (b ++ s) sc.
Proof.
  intros (He & Hb & Hs). unfold write1. pose proof (Write_ok (writer ew) s) as [H1 H2].
  destruct (Write (writer ew) s) as [w e]. simpl in *. subst. by split_and!.
Qed.

Lemma at_WriteStrings ew b sc l : at_ ew b sc → at_ (WriteStrings Write ew l) (b ++ concat l) sc.
Proof.
  intros Hat. unfold WriteStrings. rewrite (proj1 Hat). revert ew b Hat.
  induction l as [|s l IH]; intros ew b Hat; simpl; [by rewrite app_nil_r|].
  apply (at_write1 _ _ _ s) in Hat. rewrite (proj1 Hat), (assoc_L (++)). by apply IH.
Qed.

Lemma at_WriteString ew b sc s : at_ ew b sc → at_ (WriteStrings Write ew [s]) (b ++ s) sc.
Proof. intros Hat%(at_WriteStrings _ _ _ [s]). simpl in Hat. by rewrite app_nil_r in Hat. Qed.

Lemma at_WriteBytes ew b sc s : at_ ew b sc → at_ (WriteBytes Write ew s) (b ++ s) sc.
Proof. intros Hat. unfold WriteBytes. rewrite (proj1 Hat). by apply at_write1. Qed.

Lemma at_flush ew b sc s : at_ ew b sc → at_ (flush_pending Write ew s) (b ++ s) sc.
Proof.
  destruct s as [|x s]; simpl; intros Hat; [by rewrite app_nil_r|]. by apply at_WriteString.
Qed.

Lemma at_write_escape ew b sc x :
  at_ ew b sc → at_ (write_escape Write ew x) (b ++ escape_ascii x) sc.
Proof.
  intros Hat. unfold write_escape, escape_ascii.
  repeat case_match; try by apply at_WriteString.
  rewrite (assoc_L (++)). by apply at_WriteBytes, at_WriteString.
Qed.

Lemma at_escape_loop fuel ew b sc pending rest :
  at_ ew b sc →
  at_ (escape_loop Write fuel true ew pending rest) (b ++ pending ++ escape_go fuel rest) sc.
Proof.
  revert ew b pending rest. induction fuel as [|fuel IH]; intros ew b pending rest Hat.
  { cbn [escape_loop escape_go]. rewrite app_nil_r. by apply at_flush. }
  destruct rest as [|x rest]; cbn [escape_loop escape_go piece].
  { rewrite app_nil_r. by apply at_flush. }
  rewrite orb_false_r. destruct (x <? 128)%Z.
  - change (drop 1 (x :: rest)) with rest. destruct (htmlSafeSet x).
    + eapply at_eq; [by apply IH|]. by rewrite <-!app_assoc.
    + eapply at_eq; [by apply IH, at_write_escape, at_flush|]. by rewrite <-!app_assoc.
  - destruct (DecodeRune (x :: rest)) as [c size].
    destruct ((c =? RuneError)%Z && (size =? 1)); [|destruct ((c =? 8232)%Z || (c =? 8233)%Z)].
    + eapply at_eq; [by apply IH, at_WriteString, at_flush|]. by rewrite <-!app_assoc.
    + eapply at_eq; [by apply IH, at_WriteBytes, at_WriteString, at_flush|]. by rewrite <-!app_assoc.
    + eapply at_eq; [by apply IH|]. by rewrite <-!app_assoc.
Qed.

Lemma at_WriteEscapedString ew b sc s :
  at_ ew b sc → at_ (WriteEscapedString Write ew s true) (b ++ escape s) sc.
Proof.
  intros Hat. unfold WriteEscapedString. rewrite (proj1 Hat).
  by apply (at_escape_loop _ _ _ _ []).
Qed.

Lemma at_writeFloat ew b sc f :
  at_ ew b sc → at_ (writeFloat Write AppendFloat ew f) (b ++ AppendFloat f "f"%char) sc.
Proof. apply at_WriteBytes. Qed.

Lemma at_writeJsonFloat ew b sc f :
  at_ ew b sc → at_ (writeJsonFloat Write AppendFloat ew f).1 (b ++ json_float AppendFloat f)
                  (json_float AppendFloat f).
Proof. intros (He & Hb & _). apply at_WriteBytes. by split_and!. Qed.

(** [at_step] runs one call of the writer from what is known about the one before. *)
Ltac at_step :=
  first [ eapply at_WriteString | eapply at_WriteEscapedString | eapply at_writeFloat
        | eapply at_WriteStrings ].

(** Closes the equation between what was written and what the document prints. *)
Ltac eval_consts :=
  repeat match goal with
  | |- context [J ?s] => let v := eval vm_compute in (J s) in change (J s) with v
  end.
Ltac same_text :=
  eval_consts; unfold opening; cbn [drop app concat];
  repeat (rewrite <-!app_assoc; cbn [app]); reflexivity.

Lemma at_warnings_loop ws first ew b sc :
  at_ ew b sc →
  at_ (warnings_loop Write ew first ws) (b ++ commas first (print <$> (JString <$> ws))) sc.
Proof.
  revert first ew b. induction ws as [|w ws IH]; intros first ew b Hat.
  { simpl. by rewrite app_nil_r. }
  cbn [warnings_loop]. eapply at_eq; [apply IH; repeat at_step; exact Hat|].
  rewrite !fmap_cons. cbn [commas print]. destruct first; same_text.
Qed.

Lemma at_labels_loop ls first ew b sc :
  at_ ew b sc →
  at_ (labels_loop Write ew first ls)
    (b ++ commas first (map (λ p, 34%Z :: escape p.1 ++ [34; 58]%Z ++ print p.2)
            ((λ x, (Name x, JString (Value x))) <$> ls))) sc.
Proof.
  revert first ew b. induction ls as [|l ls IH]; intros first ew b Hat.
  { simpl. by rewrite app_nil_r. }
  cbn [labels_loop]. eapply at_eq; [apply IH; repeat at_step; exact Hat|].
  rewrite fmap_cons. cbn [map commas fst snd print].
  destruct first; same_text.
Qed.

Lemma at_points_loop ps first ew b sc :
  at_ ew b sc → ∃ sc',
  at_ (points_loop Write AppendFloat ew first ps)
    (b ++ commas first (map print (point_json AppendFloat <$> ps))) sc'.
Proof.
  revert first ew b sc. induction ps as [|p ps IH]; intros first ew b sc Hat.
  { simpl. rewrite app_nil_r. eauto. }
  cbn [points_loop].
  apply (at_WriteString _ _ _ (opening first (J ",["))) in Hat.
  apply (at_writeJsonFloat _ _ _ (seconds p)) in Hat.
  destruct (writeJsonFloat _ _ _ _) as [out n].
  destruct (IH false _ _ _ (at_WriteString _ _ _ (J "']") (at_writeFloat _ _ _ (V p)
    (at_WriteString _ _ _ (J ",'") Hat)))) as [sc' Hat'].
  exists sc'. eapply at_eq; [exact Hat'|]. rewrite fmap_cons. cbn [map commas print point_json].
  destruct first; same_text.
Qed.

Lemma at_matrix_loop data first ew b sc :
  at_ ew b sc → ∃ sc',
  at_ (matrix_loop Write AppendFloat ew first data)
    (b ++ commas first (map print (series_json AppendFloat <$> data))) sc'.
Proof.
  revert first ew b sc. induction data as [|d data IH]; intros first ew b sc Hat.
  { simpl. rewrite app_nil_r. eauto. }
  cbn [matrix_loop]. unfold marshalLabels.
  apply (at_WriteString _ _ _ (opening first (J ",{'metric':{"))) in Hat.
  apply (at_labels_loop (m_Metric d) true) in Hat.
  apply (at_WriteString _ _ _ (J "},'values':[")) in Hat.
  apply (at_points_loop (Points d) true) in Hat as [sc1 Hat].
  apply (at_WriteString _ _ _ (J "]}")) in Hat.
  destruct (IH false _ _ _ Hat) as [sc' Hat'].
  exists sc'. eapply at_eq; [exact Hat'|]. rewrite fmap_cons.
  cbn [map commas print series_json labels_json fst snd].
  replace (escape (J "metric")) with (J "metric") by (by vm_compute).
  replace (escape (J "values")) with (J "values") by (by vm_compute).
  destruct first; same_text.
Qed.

(** The cached text of the timestamp is the one every sample would have. *)
Lemma at_vector_loop data first ew b sc t floatLen :
  json_float AppendFloat t ≠ [] →
  Forall (λ d, seconds (s_Point d) = t) data →
  (floatLen = 0 ∨ sc = json_float AppendFloat t ∧ floatLen = length sc) →
  at_ ew b sc → ∃ sc',
  at_ (vector_loop Write AppendFloat ew floatLen first data)
    (b ++ commas first (map print (sample_json AppendFloat <$> data))) sc'.
Proof.
  intros Hne Hall. revert first ew b sc floatLen.
  induction Hall as [|d data Hd Hall IH]; intros first ew b sc floatLen Hlen Hat.
  { simpl. rewrite app_nil_r. eauto. }
  cbn [vector_loop]. unfold marshalLabels.
  apply (at_WriteString _ _ _ (opening first (J ",{'metric':{"))) in Hat.
  apply (at_labels_loop (s_Metric d) true) in Hat.
  apply (at_WriteString _ _ _ (J "},'value':[")) in Hat.
  destruct (if floatLen =? 0 then _ else _) as [out n] eqn:Hif.
  match type of Hat with at_ _ ?b0 _ => assert (at_ out (b0 ++ json_float AppendFloat t)
    (json_float AppendFloat t) ∧ n = length (json_float AppendFloat t)) as [Hat1 Hn] end.
  { destruct (floatLen =? 0) eqn:H0.
    - rewrite Hd in Hif. apply (at_writeJsonFloat _ _ _ t) in Hat.
      rewrite Hif in Hat. split; [exact Hat|]. unfold writeJsonFloat in Hif. by injection Hif as _ <-.
    - apply Nat.eqb_neq in H0. destruct Hlen as [->|[-> ->]]; [done|].
      apply pair_equal_spec in Hif as [<- <-]. split; [|done]. unfold writeCachedJsonFloat.
      rewrite (proj2 (proj2 Hat)), take_ge by done. by apply at_WriteBytes. }
  apply (at_WriteString _ _ _ (J ",'")) in Hat1.
  apply (at_writeFloat _ _ _ (V (s_Point d))) in Hat1.
  apply (at_WriteString _ _ _ (J "'")) in Hat1.
  apply (at_WriteString _ _ _ (J "]}")) in Hat1.
  destruct (IH false _ _ _ n (or_intror (conj eq_refl Hn)) Hat1) as [sc' Hat'].
  exists sc'. eapply at_eq; [exact Hat'|]. rewrite fmap_cons.
  cbn [map commas print sample_json labels_json point_json fst snd]. rewrite Hd.
  replace (escape (J "metric")) with (J "metric") by (by vm_compute).
  replace (escape (J "value")) with (J "value") by (by vm_compute).
  destruct first; same_text.
Qed.

(** Header, data and footer around a list that was written between brackets. *)
Lemma at_response (loop : errorWrapper → errorWrapper) resultType result warnings w :
  escape resultType = resultType →
  (∀ ew b sc, at_ ew b sc → sc = [] → ∃ sc', at_ (loop ew) (b ++ commas true (map print result)) sc') →
  ∃ sc', at_ (marshalCommonFooter Write
    (WriteStrings Write (loop (WriteStrings Write (marshalCommonHeader Write (wrap_writer w))
      [J "{'resultType':'"; resultType; J "','result':["])) [J "]}"]) warnings)
    (content w ++ print (response_json (data_json resultType result) warnings) ++ [10%Z]) sc'.
Proof.
  intros Hrt Hloop. unfold marshalCommonFooter, marshalCommonHeader.
  assert (at_ (wrap_writer w) (content w) []) as Hat by by split_and!.
  apply (at_WriteString _ _ _ (J "{'status':'success','data':")) in Hat.
  apply (at_WriteStrings _ _ _ [J "{'resultType':'"; resultType; J "','result':["]) in Hat.
  apply Hloop in Hat as [sc1 Hat]; [|done].
  apply (at_WriteString _ _ _ (J "]}")) in Hat.
  exists sc1.
  destruct warnings as [|w0 ws];
    [|apply (at_WriteString _ _ _ (J ",'warnings':[")) in Hat;
      apply (at_warnings_loop (w0 :: ws) true) in Hat;
      apply (at_WriteString _ _ _ (J "]")) in Hat];
    apply (at_WriteString _ _ _ (J "}" ++ [10%Z])) in Hat; (eapply at_eq; [exact Hat|]).
  all: unfold response_json, data_json; cbn [app map commas print fst snd]; rewrite Hrt.
  all: replace (escape (J "status")) with (J "status") by (by vm_compute);
    replace (escape (J "success")) with (J "success") by (by vm_compute);
    replace (escape (J "data")) with (J "data") by (by vm_compute);
    replace (escape (J "resultType")) with (J "resultType") by (by vm_compute);
    replace (escape (J "result")) with (J "result") by (by vm_compute);
    replace (escape (J "warnings")) with (J "warnings") by (by vm_compute).
  all: same_text.
Qed.

(** On a writer that takes everything, [marshalMatrixResponse] returns no error
    and writes exactly the JSON document of the matrix and its warnings, followed by
    a newline. *)
Theorem marshalMatrixResponse_spec w data warnings :
  let r := marshalMatrixResponse Write AppendFloat w data warnings in
  r.2 = None ∧
  content r.1 = content w ++
    print (response_json (data_json (J "matrix") (series_json AppendFloat <$> data)) warnings) ++ [10%Z].
Proof.
  unfold marshalMatrixResponse, marshalMatrixData. simpl.
  edestruct (at_response (λ ew, matrix_loop Write AppendFloat ew true data) (J "matrix")
    (series_json AppendFloat <$> data) warnings w) as [sc' (He & Hc & _)]; [by vm_compute| |].
  - intros ew b sc Hat _. by eapply at_matrix_loop.
  - by split.
Qed.

(** [marshalVectorResponse] formats only the first timestamp and repeats its
    text.  For an instant vector, whose samples have one timestamp, the document it
    writes is the one in which every sample is formatted by itself. *)
Theorem marshalVectorResponse_spec w data warnings t :
  json_float AppendFloat t ≠ [] →
  Forall (λ d, seconds (s_Point d) = t) data →
  let r := marshalVectorResponse Write AppendFloat w data warnings in
  r.2 = None ∧
  content r.1 = content w ++
    print (response_json (data_json (J "vector") (sample_json AppendFloat <$> data)) warnings) ++ [10%Z].
Proof.
  intros Hne Hall. unfold marshalVectorResponse, marshalVectorData. simpl.
  edestruct (at_response (λ ew, vector_loop Write AppendFloat ew 0 true data) (J "vector")
    (sample_json AppendFloat <$> data) warnings w) as [sc' (He & Hc & _)]; [by vm_compute| |].
  - intros ew b sc Hat _. by eapply at_vector_loop; [..|by left|].
  - by split.
Qed.

End complete.

(** ** The writer's first error is final *)

Section errors.
Context {W : Type} (Write : W → bytes → W * option goerror).
Context (AppendFloat : float64 → ascii → bytes).

Lemma WriteStrings_stops ew l : ew_err ew ≠ None → WriteStrings Write ew l = ew.
Proof. unfold WriteStrings. by destruct (ew_err ew). Qed.

Lemma WriteBytes_stops ew b : ew_err ew ≠ None → WriteBytes Write ew b = ew.
Proof. unfold WriteBytes. by destruct (ew_err ew). Qed.

Lemma WriteEscapedString_stops ew s : ew_err ew ≠ None → WriteEscapedString Write ew s true = ew.
Proof. unfold WriteEscapedString. by destruct (ew_err ew). Qed.

End errors.

(** ** Escaping and its inverse *)

Definition hex_value (b : Z) : option Z :=
  if cont 48 57 b then Some (b - 48)%Z
  else if cont 97 102 b then Some (b - 87)%Z
  else if cont 65 70 b then Some (b - 55)%Z
  else None.

(** UTF-8 of a rune below 0x10000. *)
Definition encode_rune (c : Z) : bytes :=
  if (c <? 128)%Z then [c]
  else if (c <? 2048)%Z then [192 + c / 64; 128 + c mod 64]%Z
  else [224 + c / 4096; 128 + c / 64 mod 64; 128 + c mod 64]%Z.

(** Reference: the text a JSON string stands for.  A bare quote or control character
    is not allowed inside a string. *)
Fixpoint unescape (s : bytes) : option bytes :=
  match s with
  | [] => Some []
  | 92%Z :: 117%Z :: a :: b :: c :: d :: s =>
      a ← hex_value a; b ← hex_value b; c ← hex_value c; d ← hex_value d;
      r ← unescape s; Some (encode_rune (((a * 16 + b) * 16 + c) * 16 + d)%Z ++ r)
  | 92%Z :: e :: s =>
      c ← (if (e =? 92)%Z then Some 92%Z else if (e =? 34)%Z then Some 34%Z
           else if (e =? 47)%Z then Some 47%Z else if (e =? 98)%Z then Some 8%Z
           else if (e =? 102)%Z then Some 12%Z else if (e =? 110)%Z then Some 10%Z
           else if (e =? 114)%Z then Some 13%Z else if (e =? 116)%Z then Some 9%Z else None);
      r ← unescape s; Some (c :: r)
  | b :: s =>
      if (b <? 32)%Z || (b =? 34)%Z || (b =? 92)%Z then None
      else r ← unescape s; Some (b :: r)
  end.

(** [s] with every byte that is not part of a valid rune replaced by U+FFFD. *)
Fixpoint sanitize_go (fuel : nat) (s : bytes) : bytes :=
  match fuel, s with
  | S fuel, _ :: _ =>
      let '(c, size) := DecodeRune s in
      (if (c =? RuneError)%Z && (size =? 1) then [239; 191; 189]%Z else take size s) ++
      sanitize_go fuel (drop size s)
  | _, _ => []
  end.
Definition sanitize (s : bytes) : bytes := sanitize_go (length s) s.

(** *** One character *)

Lemma ascii_forall (P : Z → Prop) :
  Forall P (seqZ 0 128) → ∀ b, (0 ≤ b < 128)%Z → P b.
Proof. rewrite Forall_forall. intros HP b Hb. apply HP. apply elem_of_seqZ. lia. Qed.

(** The tables, as the comments describe them. *)
Lemma safe_tables b : (0 ≤ b < 128)%Z →
  safeSet b = bool_decide (32 ≤ b ∧ b ≠ 34 ∧ b ≠ 92)%Z ∧
  htmlSafeSet b = bool_decide (32 ≤ b ∧ b ≠ 34 ∧ b ≠ 92 ∧ b ≠ 38 ∧ b ≠ 60 ∧ b ≠ 62)%Z.
Proof.
  revert b. apply ascii_forall. apply Forall_forall. intros b Hb.
  assert (forallb (λ b, Bool.eqb (safeSet b) (bool_decide (32 ≤ b ∧ b ≠ 34 ∧ b ≠ 92)%Z) &&
    Bool.eqb (htmlSafeSet b) (bool_decide (32 ≤ b ∧ b ≠ 34 ∧ b ≠ 92 ∧ b ≠ 38 ∧ b ≠ 60 ∧ b ≠ 62)%Z))
    (seqZ 0 128) = true) as Hall by (by vm_compute).
  rewrite forallb_forall in Hall. apply list_elem_of_In in Hb. apply Hall in Hb.
  apply andb_prop in Hb as [H1%Bool.eqb_prop H2%Bool.eqb_prop]. done.
Qed.

(** A byte that is copied as it is. *)
Definition plain (b : Z) : Prop := (32 ≤ b ∧ b ≠ 34 ∧ b ≠ 92)%Z.

Lemma unescape_plain b s : plain b → unescape (b :: s) = cons b <$> unescape s.
Proof.
  intros (H1 & H2 & H3). destruct (Z.eq_dec b 92) as [->|_]; [done|].
  assert (unescape (b :: s) = if (b <? 32)%Z || (b =? 34)%Z || (b =? 92)%Z then None
    else r ← unescape s; Some (b :: r)) as ->.
  { cbn [unescape]. repeat (case_match; try reflexivity; try done). }
  rewrite (proj2 (Z.ltb_ge _ _)), (proj2 (Z.eqb_neq _ 34)), (proj2 (Z.eqb_neq _ 92)) by lia.
  by destruct (unescape s).
Qed.

Lemma unescape_plains bs s : Forall plain bs → unescape (bs ++ s) = app bs <$> unescape s.
Proof.
  induction 1 as [|b bs Hb Hbs IH]; cbn [app]; [by destruct (unescape s)|].
  rewrite unescape_plain, IH by done. by destruct (unescape s).
Qed.

Lemma unescape_ascii b s : (0 ≤ b < 128)%Z →
  unescape (escape_ascii b ++ s) = cons b <$> unescape s.
Proof.
  intros Hb. revert s.
  apply (ascii_forall (λ b, ∀ s, unescape (escape_ascii b ++ s) = cons b <$> unescape s)); [|done].
  let l := eval vm_compute in (seqZ 0 128) in change (seqZ 0 128) with l.
  repeat (constructor; [intros s; cbv -[unescape]; cbn [unescape]; by destruct (unescape s)|]).
  constructor.
Qed.

(** *** Runes *)

Lemma cont_spec lo hi b : cont lo hi b = true ↔ (lo ≤ b ≤ hi)%Z.
Proof. unfold cont. rewrite andb_true_iff, !Z.leb_le. done. Qed.

(** What decoding a multi-byte rune says about the bytes. *)
Lemma DecodeRune_multi b s c size :
  (128 ≤ b)%Z → DecodeRune (b :: s) = (c, size) →
  (c = RuneError ∧ size = 1) ∨
  (2 ≤ size ≤ length (b :: s) ∧ Forall (λ x, 128 ≤ x)%Z (take size (b :: s)) ∧
   (c = 8232%Z ∨ c = 8233%Z → size = 3 ∧ take 3 (b :: s) = [226; 128; 168 + (c - 8232)]%Z)).
Proof.
  intros Hb. unfold DecodeRune. rewrite (proj2 (Z.ltb_ge b 128)) by done.
  destruct (cont 194 223 b) eqn:C2; [|destruct (cont 224 239 b) eqn:C3; [|destruct (cont 240 244 b) eqn:C4]].
  - destruct s as [|b1 s]; [intros; simplify_eq; by left|].
    destruct (cont 128 191 b1) eqn:K1; [|intros; simplify_eq; by left].
    rewrite !cont_spec in *. intros; simplify_eq. right. cbn. split; [lia|].
    split; [repeat constructor; lia|lia].
  - destruct s as [|b1 [|b2 s]]; [intros; simplify_eq; by left..|].
    destruct (cont _ _ b1) eqn:K1, (cont 128 191 b2) eqn:K2; cbn [andb]; [|intros; simplify_eq; by left..].
    rewrite !cont_spec in *. intros; simplify_eq. right. cbn. split; [lia|].
    destruct (Z.eqb_spec b 224), (Z.eqb_spec b 237);
      (split; [repeat constructor; lia|]); intros Hc; (split; [done|]); repeat f_equal; lia.
  - destruct s as [|b1 [|b2 [|b3 s]]]; [intros; simplify_eq; by left..|].
    destruct (cont _ _ b1) eqn:K1, (cont 128 191 b2) eqn:K2, (cont 128 191 b3) eqn:K3;
      cbn [andb]; [|intros; simplify_eq; by left..].
    rewrite !cont_spec in *. intros; simplify_eq. right. cbn. split; [lia|].
    destruct (Z.eqb_spec b 240), (Z.eqb_spec b 244);
      (split; [repeat constructor; lia|]); lia.
  - intros; simplify_eq. by left.
Qed.

Lemma unescape_separator c s : (c = 8232 ∨ c = 8233)%Z →
  unescape ((J "\u202" ++ [hex_digit (Z.land c 15)]) ++ s) =
  app [226; 128; 168 + (c - 8232)]%Z <$> unescape s.
Proof. intros [->| ->]; cbv -[unescape]; cbn [unescape]; by destruct (unescape s). Qed.

Lemma unescape_error s : unescape (J "\ufffd" ++ s) = app [239; 191; 189]%Z <$> unescape s.
Proof. cbv -[unescape]; cbn [unescape]; by destruct (unescape s). Qed.

Lemma DecodeRune_ascii b s : (b < 128)%Z → DecodeRune (b :: s) = (b, 1).
Proof. intros Hb. cbn. by rewrite (proj2 (Z.ltb_lt b 128)). Qed.

(** The first character: what it becomes stands for what it was. *)
Lemma unescape_piece b s e size r :
  is_byte b → piece (b :: s) = (e, size) →
  1 ≤ size ∧ (DecodeRune (b :: s)).2 = size ∧
  unescape (e ++ r) =
    app (if ((DecodeRune (b :: s)).1 =? RuneError)%Z && (size =? 1) then [239; 191; 189]%Z
         else take size (b :: s)) <$> unescape r.
Proof.
  intros Hb. unfold is_byte in Hb. cbn [piece]. destruct (Z.ltb_spec b 128) as [Hlt|Hge].
  - intros [= <- <-]. rewrite DecodeRune_ascii by done. split; [done|]. split; [done|].
    cbn [fst snd]. rewrite (proj2 (Z.eqb_neq b RuneError)) by (unfold RuneError; lia).
    cbn [andb take]. destruct (safe_tables b ltac:(lia)) as [_ Hs].
    destruct (htmlSafeSet b) eqn:Hh.
    + symmetry in Hs. apply bool_decide_eq_true in Hs. apply (unescape_plains [b]).
      repeat constructor; lia.
    + rewrite unescape_ascii by lia. by destruct (unescape r).
  - destruct (DecodeRune (b :: s)) as [c sz] eqn:Hd. cbn [fst snd].
    apply DecodeRune_multi in Hd as [[-> ->]|(Hsz & Hall & Hsep)]; [|..|done].
    { cbn. intros [= <- <-]. split; [done|]. split; [done|]. apply unescape_error. }
    rewrite (proj2 (Nat.eqb_neq sz 1)) by lia. rewrite andb_false_r.
    destruct ((c =? 8232)%Z || (c =? 8233)%Z) eqn:Hc.
    + apply orb_true_iff in Hc. rewrite !Z.eqb_eq in Hc. destruct (Hsep Hc) as [-> Ht].
      intros Heq. apply pair_equal_spec in Heq as [<- <-]. split; [lia|]. split; [done|].
      cbn [Nat.eqb]. rewrite andb_false_r. rewrite unescape_separator by done. by rewrite Ht.
    + intros [= <- <-]. split; [lia|]. split; [done|].
      rewrite (proj2 (Nat.eqb_neq sz 1)) by lia. rewrite andb_false_r. apply unescape_plains.
      eapply Forall_impl; [exact Hall|]. unfold plain. simpl. lia.
Qed.

Lemma unescape_escape_go fuel s :
  Forall is_byte s → length s ≤ fuel → unescape (escape_go fuel s) = Some (sanitize_go fuel s).
Proof.
  revert s. induction fuel as [|fuel IH]; intros s Hs Hlen.
  { destruct s; [done|]. simpl in Hlen. lia. }
  destruct s as [|b s]; [done|]. cbn [escape_go sanitize_go].
  destruct (piece (b :: s)) as [e size] eqn:Hp.
  inversion Hs as [|? ? Hb Hs']; subst.
  destruct (unescape_piece b s e size (escape_go fuel (drop size (b :: s))) Hb Hp) as (H1 & H2 & ->).
  destruct (DecodeRune (b :: s)) as [c size'] eqn:Hd. cbn [fst snd] in *. subst size'.
  rewrite IH; [done|by apply Forall_drop|]. rewrite length_drop. simpl in *. lia.
Qed.

(** Bytes that may stand in a script element or a JSON string. *)
Definition harmless (b : Z) : Prop := (32 ≤ b ∧ b ≠ 38 ∧ b ≠ 60 ∧ b ≠ 62)%Z.

Lemma piece_harmless b s : is_byte b → Forall harmless (piece (b :: s)).1.
Proof.
  intros Hb. unfold is_byte in Hb. cbn [piece]. destruct (Z.ltb_spec b 128) as [Hlt|Hge].
  - cbn [fst]. destruct (safe_tables b ltac:(lia)) as [_ Hs]. destruct (htmlSafeSet b).
    + symmetry in Hs. apply bool_decide_eq_true in Hs. repeat constructor; lia.
    + clear Hs. assert (∀ b, (0 ≤ b < 128)%Z → Forall harmless (escape_ascii b)) as Hall;
        [|apply Hall; lia]. clear.
      apply (ascii_forall (λ b, Forall harmless (escape_ascii b))).
      apply Forall_forall. intros b Hb.
      assert (forallb (λ b, forallb (λ x, (32 <=? x)%Z && negb (x =? 38)%Z && negb (x =? 60)%Z
        && negb (x =? 62)%Z) (escape_ascii b)) (seqZ 0 128) = true) as Hc by (by vm_compute).
      rewrite forallb_forall in Hc. apply list_elem_of_In in Hb. apply Hc in Hb.
      rewrite forallb_forall in Hb. apply Forall_forall. intros x Hx%list_elem_of_In%Hb.
      unfold harmless. rewrite !andb_true_iff, !negb_true_iff, !Z.eqb_neq, Z.leb_le in Hx. lia.
  - destruct (DecodeRune (b :: s)) as [c sz] eqn:Hd.
    apply DecodeRune_multi in Hd as [[-> ->]|(Hsz & Hall & Hsep)]; [|..|done].
    { cbn. repeat constructor; lia. }
    rewrite (proj2 (Nat.eqb_neq sz 1)) by lia. rewrite andb_false_r.
    destruct ((c =? 8232)%Z || (c =? 8233)%Z) eqn:Hc; cbn [fst].
    + apply orb_true_iff in Hc. rewrite !Z.eqb_eq in Hc.
      destruct Hc as [-> | ->]; cbv -[harmless]; unfold harmless; repeat constructor; lia.
    + eapply Forall_impl; [exact Hall|]. unfold harmless. simpl. lia.
Qed.

Lemma escape_go_harmless fuel s : Forall is_byte s → Forall harmless (escape_go fuel s).
Proof.
  revert s. induction fuel as [|fuel IH]; intros s Hs; [constructor|].
  destruct s as [|b s]; [constructor|]. cbn [escape_go].
  pose proof (piece_harmless b s (Forall_inv Hs)) as Hp.
  destruct (piece (b :: s)) as [e size]. apply Forall_app. split; [done|]. apply IH. by apply Forall_drop.
Qed.

(** C38. Escaping loses nothing and lets nothing through.  What
    [WriteEscapedString] writes for a string is, to a JSON reader, the string itself
    with bytes that are not UTF-8 replaced by U+FFFD; and it contains no control
    character and no [<], [>] or [&], so that it cannot end the string it is in nor
    an HTML script element around it. *)
Theorem escape_roundtrip {W} (Write : W → bytes → W * option goerror) (content : W → bytes) w s :
  (∀ w b, content (Write w b).1 = content w ++ b ∧ (Write w b).2 = None) →
  Forall is_byte s →
  ∃ e, content (writer (WriteEscapedString Write (wrap_writer w) s true)) = content w ++ e ∧
    unescape e = Some (sanitize s) ∧ Forall harmless e.
Proof.
  intros Hw Hs. exists (escape s). split; [|split].
  - by apply (at_WriteEscapedString Write content Hw (wrap_writer w) (content w) [] s).
  - by apply unescape_escape_go.
  - by apply escape_go_harmless.
Qed.

(** ** Concrete runs *)

Definition list_write (w b : bytes) : bytes * option goerror := (w ++ b, None).

Lemma list_write_ok w b : (list_write w b).1 = w ++ b ∧ (list_write w b).2 = None.
Proof. done. Qed.

(** A label value with a quote, a tag, a line separator and a stray byte. *)
Lemma escape_roundtrip_witness :
  let s := bytes_of "a<b" ++ [34; 226; 128; 168; 255]%Z in
  ∃ e, e = bytes_of "a\u003cb" ++ [92; 34]%Z ++ bytes_of "\u2028\ufffd" ∧
    unescape e = Some (bytes_of "a<b" ++ [34; 226; 128; 168; 239; 191; 189]%Z) ∧ Forall harmless e.
Proof.
  intros s. destruct (escape_roundtrip list_write (λ w, w) [] s list_write_ok) as (e & He & Hu & Hh).
  { cbv -[is_byte]. unfold is_byte. repeat constructor; lia. }
  exists e. split; [|split; [|exact Hh]].
  - etransitivity; [symmetry; exact He|]. by vm_compute.
  - rewrite Hu. by vm_compute.
Defined.

(** One text for every float; enough to run the encoder. *)
Definition toy_float (f : float64) (fmt : ascii) : bytes := bytes_of "1.5".

Definition toy_vector : list Sample :=
  [MkSample (MkPoint 1500 (float_of_Z 3)) [MkLabel (bytes_of "job") (bytes_of "a&b")];
   MkSample (MkPoint 1500 (float_of_Z 4)) []].

Lemma marshalVectorResponse_spec_witness :
  let r := marshalVectorResponse list_write toy_float [] toy_vector [] in
  r.1 = J "{'status':'success','data':{'resultType':'vector','result':[{'metric':{'job':'a\u0026b'},'value':[1.5,'1.5']},{'metric':{},'value':[1.5,'1.5']}]}}" ++ [10%Z] ∧
  r.1 = print (response_json (data_json (J "vector") (sample_json toy_float <$> toy_vector)) []) ++ [10%Z].
Proof.
  intros r. split; [by vm_compute|].
  destruct (marshalVectorResponse_spec list_write (λ w, w) toy_float list_write_ok [] toy_vector []
    (seconds (MkPoint 1500 (float_of_Z 3)))) as [_ Hr]; [by vm_compute|by repeat constructor|].
  exact Hr.
Defined.

Lemma marshalMatrixResponse_spec_witness :
  let r := marshalMatrixResponse list_write toy_float [] [MkSeries [] [MkPoint 0 (float_of_Z 1)]] [bytes_of "w"] in
  r.1 = J "{'status':'success','data':{'resultType':'matrix','result':[{'metric':{},'values':[[1.5,'1.5']]}]},'warnings':['w']}" ++ [10%Z] ∧
  r.2 = None.
Proof.
  intros r. split; [by vm_compute|].
  exact (proj1 (marshalMatrixResponse_spec list_write (λ w, w) toy_float list_write_ok []
    [MkSeries [] [MkPoint 0 (float_of_Z 1)]] [bytes_of "w"])).
Defined.

(** The timestamp of the first sample is written for all of them. *)
Example vector_repeats_first_timestamp :
  let fmt f (_ : ascii) := if SFltb f (float_of_Z 2) then bytes_of "1" else bytes_of "5" in
  marshalVectorResponse list_write fmt [] [MkSample (MkPoint 1000 (float_of_Z 1)) [];
    MkSample (MkPoint 5000 (float_of_Z 1)) []] []
  = (J "{'status':'success','data':{'resultType':'vector','result':[{'metric':{},'value':[1,'1']},{'metric':{},'value':[1,'1']}]}}" ++ [10%Z], None).
Proof. by vm_compute. Qed.

End Marsh.
