(* ===== verification/Api.v ===== *)
(** * HTTP handlers

    [src/pkg/api]: the write and read handlers, instant and range queries with
    their parameters, labels, label values, series and health; the throughput
    calculator of [src/pkg/util/util.go]; the guarded migration of
    [src/cmd/timescale-prometheus/main.go].

    A handler maps a request to a response.  Decoding of request bodies (snappy;
    protobuf, which [Remote] fills in), the query engine, decimal parsing of floats and of timestamps are
    parameters; times are nanoseconds since 1970. *)
From S2P Require Import Prelude Labels SampleIter Ingestor GoStrings Migrate Election Float Marshal.

Module Api.

(** ** Responses *)

(** Bodies: nothing, the text of [http.Error], the two documents given to the JSON
    encoder, or bytes. *)
Inductive body :=
  | BNone
  | BText (err : goerror)
  | BError (errType : string) (err : goerror)
  | BStrings (data : list string)
  | BLabels (data : list (list Marsh.Label))
  | BOther (warnings : list string)
  | BBytes (b : list Z).

Record response := MkResp { status : Z; no_store : bool; content : body }.

Definition http_ok : response := MkResp 200 false BNone.
Definition http_Error (err : goerror) (code : Z) : response := MkResp code false (BText err).
Definition respondError (code : Z) (err : goerror) (errType : string) : response :=
  MkResp code true (BError errType err).

(** ** [ThroughputCalc] *)

(** Channels of capacity one. *)
Record ThroughputCalc := MkCalc {
  tickInterval : float64;
  previous : float64;
  current : option float64;
  Values : option float64;
  running : bool;
}.

Definition NewThroughputCalc (interval : float64) : ThroughputCalc :=
  MkCalc interval (S754_zero false) None None false.

Definition SetCurrent (dt : ThroughputCalc) (value : float64) : ThroughputCalc :=
  match current dt with
  | None => MkCalc (tickInterval dt) (previous dt) (Some value) (Values dt) (running dt)
  | Some _ => dt
  end.

Definition Start (dt : ThroughputCalc) : ThroughputCalc :=
  MkCalc (tickInterval dt) (previous dt) (current dt) (Values dt) true.

(** One round of the goroutine; [None] while it waits for a value. *)
Definition tick (dt : ThroughputCalc) : option ThroughputCalc :=
  match current dt with
  | None => None
  | Some cur =>
      let diff := SFsub 53 1024 cur (previous dt) in
      Some (MkCalc (tickInterval dt) cur None
              (match Values dt with
               | None => Some (float_div diff (tickInterval dt))
               | Some v => Some v
               end) (running dt))
  end.

(** The receive of the write handler, which does not wait. *)
Definition receive (dt : ThroughputCalc) : ThroughputCalc :=
  MkCalc (tickInterval dt) (previous dt) (current dt) None (running dt).

(** ** Metrics *)

(** Counters hold integers, exact as floats below 2^53; histograms are left out. *)
Record Metrics := MkMetrics {
  LastRequestUnixNano : Z;
  LeaderGauge : Z;
  ReceivedSamples : Z;
  FailedSamples : Z;
  SentSamples : Z;
  WriteThroughput : ThroughputCalc;
  ReceivedQueries : Z;
  FailedQueries : Z;
}.

Definition set_gauge (z : Z) (m : Metrics) : Metrics :=
  MkMetrics (LastRequestUnixNano m) z (ReceivedSamples m) (FailedSamples m) (SentSamples m)
    (WriteThroughput m) (ReceivedQueries m) (FailedQueries m).
Definition set_last (z : Z) (m : Metrics) : Metrics :=
  MkMetrics z (LeaderGauge m) (ReceivedSamples m) (FailedSamples m) (SentSamples m)
    (WriteThroughput m) (ReceivedQueries m) (FailedQueries m).
Definition add_received (n : nat) (m : Metrics) : Metrics :=
  MkMetrics (LastRequestUnixNano m) (LeaderGauge m) (ReceivedSamples m + Z.of_nat n) (FailedSamples m)
    (SentSamples m) (WriteThroughput m) (ReceivedQueries m) (FailedQueries m).
Definition add_failed (n : nat) (m : Metrics) : Metrics :=
  MkMetrics (LastRequestUnixNano m) (LeaderGauge m) (ReceivedSamples m) (FailedSamples m + Z.of_nat n)
    (SentSamples m) (WriteThroughput m) (ReceivedQueries m) (FailedQueries m).
Definition add_sent (n : nat) (m : Metrics) : Metrics :=
  MkMetrics (LastRequestUnixNano m) (LeaderGauge m) (ReceivedSamples m) (FailedSamples m)
    (SentSamples m + Z.of_nat n) (WriteThroughput m) (ReceivedQueries m) (FailedQueries m).
Definition set_throughput (c : ThroughputCalc) (m : Metrics) : Metrics :=
  MkMetrics (LastRequestUnixNano m) (LeaderGauge m) (ReceivedSamples m) (FailedSamples m)
    (SentSamples m) c (ReceivedQueries m) (FailedQueries m).
Definition add_received_queries (n : nat) (m : Metrics) : Metrics :=
  MkMetrics (LastRequestUnixNano m) (LeaderGauge m) (ReceivedSamples m) (FailedSamples m)
    (SentSamples m) (WriteThroughput m) (ReceivedQueries m + Z.of_nat n) (FailedQueries m).
Definition add_failed_queries (n : nat) (m : Metrics) : Metrics :=
  MkMetrics (LastRequestUnixNano m) (LeaderGauge m) (ReceivedSamples m) (FailedSamples m)
    (SentSamples m) (WriteThroughput m) (ReceivedQueries m) (FailedQueries m + Z.of_nat n).

(** ** Writing *)

Section write.
Context {E B F Wr : Type} `{Elect.ElectionOps E}.
(** [snappy.Decode], [proto.Unmarshal] and the inserter behind [DBInserter]. *)
Context (snappy_Decode : B → goerror + B) (Unmarshal : B → goerror + list (Smp.TimeSeries F)).
Context (Ingest : Wr → list (Smp.TimeSeries F) → Wr * (nat * option goerror)).

Definition sample_count (ts : list (Smp.TimeSeries F)) : nat :=
  sum_list_nat ((λ t, length (Smp.ts_Samples t)) <$> ts).

(** The loop that counts the samples received. *)
Definition receivedBatchCount (ts : list (Smp.TimeSeries F)) : nat :=
  foldl (λ n t, n + length (Smp.ts_Samples t)) 0 ts.

Record writer_state := MkWriter {
  w_elector : option (Elect.Elector E);
  w_metrics : Metrics;
  w_db : Wr;
}.

(** The body of the handler once the instance is the leader: [r_body] is what
    reading the request gives, [now] the clock. *)
Definition write_samples (r_body : goerror + B) (now : Z) (metrics : Metrics) (db : Wr)
    : Metrics * Wr * response :=
  match r_body with
  | inl err => (metrics, db, http_Error err 500)
  | inr compressed =>
      let metrics := set_last now metrics in
      match snappy_Decode compressed with
      | inl err => (metrics, db, http_Error err 400)
      | inr reqBuf =>
          match Unmarshal reqBuf with
          | inl err => (metrics, db, http_Error err 400)
          | inr ts =>
              let count := receivedBatchCount ts in
              let metrics := add_received count metrics in
              let '(db, (numSamples, err)) := Ingest db ts in
              match err with
              | Some err => (add_failed count metrics, db, http_Error err 500)
              | None =>
                  let metrics := add_sent numSamples metrics in
                  let calc := SetCurrent (WriteThroughput metrics) (float_of_Z (SentSamples metrics)) in
                  (set_throughput (receive calc) metrics, db, http_ok)
              end
          end
      end
  end.

(** [None] when the leader check does not return. *)
Definition Write (r_body : goerror + B) (now : Z) (st : writer_state)
    : option (writer_state * response) :=
  match Elect.isWriter (w_elector st) with
  | None => None
  | Some (el, shouldWrite, err) =>
      match err with
      | Some _ => Some (MkWriter el (set_gauge 0 (w_metrics st)) (w_db st), http_ok)
      | None =>
          if negb shouldWrite then
            Some (MkWriter el (set_gauge 0 (w_metrics st)) (w_db st), http_ok)
          else
            let '(metrics, db, resp) :=
              write_samples r_body now (set_gauge 1 (w_metrics st)) (w_db st) in
            Some (MkWriter el metrics db, resp)
      end
  end.

Lemma receivedBatchCount_sum ts : receivedBatchCount ts = sample_count ts.
Proof.
  unfold receivedBatchCount, sample_count.
  assert (∀ n, foldl (λ n t, n + length (Smp.ts_Samples t)) n ts =
    n + sum_list_nat ((λ t, length (Smp.ts_Samples t)) <$> ts)) as Hg; [|apply Hg].
  induction ts as [|t ts IH]; intros n; [simpl; lia|]. cbn [foldl]. rewrite IH, fmap_cons.
  unfold sum_list_nat. simpl. lia.
Qed.

(** What the write handler needs of [Ingest]: without an error every sample of the
    request was inserted. *)
Context (Ingest_counts : ∀ db ts db' n, Ingest db ts = (db', (n, None)) → n = sample_count ts).

Lemma write_samples_ok r_body now metrics db metrics' db' resp :
  write_samples r_body now metrics db = (metrics', db', resp) →
  (ReceivedSamples metrics' - ReceivedSamples metrics =
   (SentSamples metrics' - SentSamples metrics) + (FailedSamples metrics' - FailedSamples metrics))%Z ∧
  LeaderGauge metrics' = LeaderGauge metrics ∧
  (status resp = 200%Z → ∃ c buf ts n, r_body = inr c ∧ snappy_Decode c = inr buf ∧
     Unmarshal buf = inr ts ∧ Ingest db ts = (db', (n, None)) ∧
     SentSamples metrics' = (SentSamples metrics + Z.of_nat (sample_count ts))%Z) ∧
  (status resp ≠ 200%Z → SentSamples metrics' = SentSamples metrics ∧
     (db' = db ∨ ∃ ts n err, Ingest db ts = (db', (n, Some err)))).
Proof.
  unfold write_samples. destruct r_body as [e|c].
  { intros; simplify_eq/=. split_and!; [lia|done|done|naive_solver]. }
  destruct (snappy_Decode c) as [e|buf] eqn:Hs.
  { intros; simplify_eq/=. split_and!; [lia|done|done|naive_solver]. }
  destruct (Unmarshal buf) as [e|ts] eqn:Hu.
  { intros; simplify_eq/=. split_and!; [lia|done|done|naive_solver]. }
  destruct (Ingest db ts) as [db1 [n [e|]]] eqn:Hi; intros; simplify_eq/=.
  - split_and!; [lia|done|done|]. intros _. split; [done|]. right. eauto.
  - apply Ingest_counts in Hi as Hn. rewrite receivedBatchCount_sum. subst n.
    split_and!; [lia|done| |done]. intros _. eexists _, _, _, _. by split_and!.
Qed.

(** The write handler keeps its books.  Received samples are exactly those sent
    plus those failed, on every path; a 200 from a leader means that [Ingest]
    accepted every sample of the decoded request, which are then counted as sent; an
    instance that is not the leader leaves database and counters alone. *)
Theorem Write_spec r_body now st st' resp el leads err :
  Elect.isWriter (w_elector st) = Some (el, leads, err) →
  Write r_body now st = Some (st', resp) →
  w_elector st' = el ∧
  (let m := w_metrics st in let m' := w_metrics st' in
   ReceivedSamples m' - ReceivedSamples m =
   (SentSamples m' - SentSamples m) + (FailedSamples m' - FailedSamples m))%Z ∧
  (leads = true → err = None → status resp = 200%Z → LeaderGauge (w_metrics st') = 1%Z ∧
     ∃ c buf ts n, r_body = inr c ∧ snappy_Decode c = inr buf ∧ Unmarshal buf = inr ts ∧
       Ingest (w_db st) ts = (w_db st', (n, None)) ∧
       SentSamples (w_metrics st') = (SentSamples (w_metrics st) + Z.of_nat (sample_count ts))%Z) ∧
  (leads = true → err = None → status resp ≠ 200%Z →
     SentSamples (w_metrics st') = SentSamples (w_metrics st)) ∧
  (leads = false ∨ err ≠ None →
     w_db st' = w_db st ∧ w_metrics st' = set_gauge 0 (w_metrics st) ∧ resp = http_ok).
Proof.
  intros Hw. unfold Write. rewrite Hw. destruct err as [e|].
  { intros; simplify_eq/=. split_and!; [done|lia|done|done|done]. }
  destruct leads; cbn [negb].
  - destruct (write_samples _ _ _ _) as [[m1 db1] r1] eqn:E1.
    apply write_samples_ok in E1 as (H1 & H2 & H3 & H4). intros; simplify_eq/=.
    split_and!; [done|lia| |naive_solver|by intros [|]].
    intros _ _ Hs. split; [done|]. by apply H3.
  - intros; simplify_eq/=. split_and!; [done|lia|done|done|done].
Qed.

End write.

(** ** Reading *)

Section read.
Context {B Req Resp Rd : Type}.
Context (snappy_Decode : B → goerror + B) (snappy_Encode : list Z → list Z).
Context (Unmarshal : B → goerror + Req) (num_queries : Req → nat).
(** [proto.Marshal], the reader behind [pgmodel.Reader], and the connection. *)
Context (Marshal : Resp → goerror + list Z) (Read_ : Rd → Req → Rd * (goerror + Resp)).
Context (conn_Write : list Z → option goerror).

Definition Read (r_body : goerror + B) (metrics : Metrics) (rd : Rd) : Metrics * Rd * response :=
  match r_body with
  | inl err => (metrics, rd, http_Error err 400)
  | inr compressed =>
      match snappy_Decode compressed with
      | inl err => (metrics, rd, http_Error err 400)
      | inr reqBuf =>
          match Unmarshal reqBuf with
          | inl err => (metrics, rd, http_Error err 400)
          | inr req =>
              let queryCount := num_queries req in
              let metrics := add_received_queries queryCount metrics in
              match Read_ rd req with
              | (rd, inl err) => (add_failed_queries queryCount metrics, rd, http_Error err 500)
              | (rd, inr resp) =>
                  match Marshal resp with
                  | inl err => (add_failed_queries queryCount metrics, rd, http_Error err 500)
                  | inr data =>
                      let compressed := snappy_Encode data in
                      match conn_Write compressed with
                      | Some err => (add_failed_queries queryCount metrics, rd, http_Error err 500)
                      | None => (metrics, rd, MkResp 200 false (BBytes compressed))
                      end
                  end
              end
          end
      end
  end.

(** A request counts as failed exactly when it was received and its answer is an error. *)
Lemma Read_books r_body metrics rd metrics' rd' resp :
  Read r_body metrics rd = (metrics', rd', resp) →
  (FailedQueries metrics' - FailedQueries metrics =
   if (status resp =? 500)%Z then ReceivedQueries metrics' - ReceivedQueries metrics else 0)%Z.
Proof.
  unfold Read. intros Hr. repeat case_match; simplify_eq/=; lia.
Qed.

End read.

(** ** Times and durations *)

Definition Second : Z := 1000000000.

Section times.
(** [strconv.ParseFloat] and [time.Parse] with RFC 3339 (nanoseconds); [ParseDuration]
    of the Prometheus library (nanoseconds). *)
Context (ParseFloat : string → option float64) (ParseRFC3339 : string → option Z).
Context (ParseDuration : string → option Z).
(** The value of [int64(f)] for a float outside the range, which the language leaves
    to the implementation. *)
Context (int64_undefined : float64 → Z).

Definition minTime : Z := ((Z.quot min_int64 1000 + 62135596801) * Second)%Z.
Definition maxTime : Z := ((Z.quot max_int64 1000 - 62135596801) * Second + 999999999)%Z.
Context (minTimeFormatted maxTimeFormatted : string).

Definition parseTime (s : string) : goerror + Z :=
  match ParseFloat s with
  | Some t =>
      let '(sec, ns) := Modf t in
      let ns := float_div (Round (float_mul ns (float_of_Z 1000))) (float_of_Z 1000) in
      inr (int64_of int64_undefined sec * Second + int64_of int64_undefined (float_mul ns (float_of_Z Second)))%Z
  | None =>
      match ParseRFC3339 s with
      | Some t => inr t
      | None =>
          if bool_decide (s = minTimeFormatted) then inr minTime
          else if bool_decide (s = maxTimeFormatted) then inr maxTime
          else inl (Errorf "cannot parse to a valid timestamp")
      end
  end.

Definition parseTimeParam (val : string) (defaultValue : Z) : goerror + Z :=
  if bool_decide (val = "") then inr defaultValue
  else match parseTime val with
       | inl err => inl (Wrapped "Invalid time value" err)
       | inr result => inr result
       end.

(** 2^63, which both [float64(math.MaxInt64)] and the exact bound round to. *)
Definition f_max : float64 := float_of_Z max_int64.
Definition f_min : float64 := float_of_Z min_int64.

Definition parseDuration (s : string) : goerror + Z :=
  match ParseFloat s with
  | Some d =>
      let ts := float_mul d (float_of_Z Second) in
      if SFltb f_max ts || SFltb ts f_min then
        inl (Errorf "cannot parse to a valid duration. It overflows int64")
      else inr (int64_of int64_undefined ts)
  | None =>
      match ParseDuration s with
      | Some d => inr d
      | None => inl (Errorf "cannot parse to a valid duration")
      end
  end.

(** ** Queries *)

(** The result of a query: [None] is a nil value. *)
Inductive value := VVector (v : list Marsh.Sample) | VMatrix (m : list Marsh.Series) | VOther.
Record result := MkResult { r_Err : option goerror; r_Value : option value; r_Warnings : list string }.

Context (AppendFloat : float64 → ascii → list Z).

(** Status and cache header; the status is 204 without a value. *)
Definition setResponseHeaders (has_value : bool) (warnings : list string) : Z * bool :=
  (if has_value then 200%Z else 204%Z, negb (bool_decide (warnings = []))).

Definition respondQuery (r : result) : res response :=
  let '(code, nostore) := setResponseHeaders (if r_Value r then true else false) (r_Warnings r) in
  match r_Value r with
  | Some (VVector v) =>
      Ok (MkResp code nostore (BBytes (Marsh.marshalVectorResponse Marsh.list_write AppendFloat [] v
            (Marsh.bytes_of <$> r_Warnings r)).1))
  | Some (VMatrix m) =>
      Ok (MkResp code nostore (BBytes (Marsh.marshalMatrixResponse Marsh.list_write AppendFloat [] m
            (Marsh.bytes_of <$> r_Warnings r)).1))
  | Some VOther => Ok (MkResp code nostore (BOther (r_Warnings r)))
  | None => Panic "nil pointer dereference"
  end.

(** The type switch on the error of a query. *)
Definition respond_query_error (err : goerror) : response :=
  match err with
  | ErrQueryCanceled _ => respondError 503 err "canceled"
  | ErrQueryTimeout _ => respondError 503 err "timeout"
  | ErrStorage _ => respondError 500 err "internal"
  | _ => respondError 422 err "execution"
  end.

(** The engine: a parsed query, and its execution within an optional timeout. *)
Context {Q : Type}.
Context (NewInstantQuery : string → Z → goerror + Q).
Context (NewRangeQuery : string → Z → Z → Z → goerror + Q).
Context (Exec : Q → option Z → result).

Definition respond_result (r : result) : res response :=
  match r_Err r with
  | Some err => Ok (respond_query_error err)
  | None => respondQuery r
  end.

(** The optional timeout parameter. *)
Definition parse_timeout (to : string) : goerror + option Z :=
  if bool_decide (to = "") then inr None
  else match parseDuration to with
       | inl err => inl err
       | inr timeout => inr (Some timeout)
       end.

(** [FormValue] gives the parameters, [now] is the clock. *)
Definition queryHandler (FormValue : string → string) (now : Z) : res response :=
  match parseTimeParam (FormValue "time") now with
  | inl err => Ok (respondError 400 err "bad_data")
  | inr ts =>
      match parse_timeout (FormValue "timeout") with
      | inl err => Ok (respondError 400 err "bad_data")
      | inr timeout =>
          match NewInstantQuery (FormValue "query") ts with
          | inl err => Ok (respondError 400 err "bad_data")
          | inr qry => respond_result (Exec qry timeout)
          end
      end
  end.

(** [Time.Sub] saturates at the limits of a [Duration]. *)
Definition time_Sub (t u : Z) : Z := Z.max min_int64 (Z.min max_int64 (t - u)).

(** The parameters of a range query: start, end and step, or the answer. *)
Definition range_params (FormValue : string → string) : response + (Z * Z * Z) :=
  match parseTime (FormValue "start") with
  | inl err => inl (respondError 400 err "bad_data")
  | inr start =>
      match parseTime (FormValue "end") with
      | inl err => inl (respondError 400 err "bad_data")
      | inr end_ =>
          if (end_ <? start)%Z then
            inl (respondError 400 (Errorf "end timestamp must not be before start time") "bad_data")
          else
            match parseDuration (FormValue "step") with
            | inl err => inl (respondError 400 (Wrapped "param step" err) "bad_data")
            | inr step =>
                if (step <=? 0)%Z then
                  inl (respondError 400 (Errorf "zero or negative query resolution step widths are not accepted. Try a positive integer") "bad_data")
                else if (11000 <? Z.quot (time_Sub end_ start) step)%Z then
                  inl (respondError 400 (Errorf "exceeded maximum resolution of 11,000 points per timeseries. Try decreasing the query resolution (?step=XX)") "bad_data")
                else inr (start, end_, step)
            end
      end
  end.

Definition queryRange (FormValue : string → string) : res response :=
  match range_params FormValue with
  | inl resp => Ok resp
  | inr (start, end_, step) =>
      match parse_timeout (FormValue "timeout") with
      | inl err => Ok (respondError 400 err "bad_data")
      | inr timeout =>
          match NewRangeQuery (FormValue "query") start end_ step with
          | inl err => Ok (respondError 400 err "bad_data")
          | inr qry => respond_result (Exec qry timeout)
          end
      end
  end.

(** Parameters the handler accepts. *)
Definition accepted (FormValue : string → string) (start end_ step : Z) : Prop :=
  parseTime (FormValue "start") = inr start ∧ parseTime (FormValue "end") = inr end_ ∧
  parseDuration (FormValue "step") = inr step ∧
  (start ≤ end_ ∧ 0 < step ∧ Z.quot (time_Sub end_ start) step ≤ 11000)%Z.

Lemma range_params_ok FormValue start end_ step :
  range_params FormValue = inr (start, end_, step) ↔ accepted FormValue start end_ step.
Proof.
  unfold range_params, accepted. split.
  - repeat case_match; try done. intros; simplify_eq. rewrite !Z.ltb_ge, Z.leb_gt in *. done.
  - intros (-> & -> & -> & H1 & H2 & H3).
    rewrite (proj2 (Z.ltb_ge end_ start)), (proj2 (Z.leb_gt step 0)), (proj2 (Z.ltb_ge 11000 _)) by lia.
    done.
Qed.

Lemma accepted_points FormValue start end_ step :
  accepted FormValue start end_ step → (end_ - start ≤ max_int64)%Z →
  ((end_ - start) / step ≤ 11000)%Z.
Proof.
  intros (_ & _ & _ & H1 & H2 & H3) Hle.
  assert (time_Sub end_ start = end_ - start)%Z as Hsub
    by (unfold time_Sub, min_int64, max_int64 in *; lia).
  rewrite Hsub, Z.quot_div_nonneg in H3 by lia. done.
Qed.

(** The range-query handler guards the engine.  The engine is asked exactly with
    accepted parameters: parsed, with [start <= end], a positive step and, when the
    range fits a [Duration], at most 11000 steps; an error of the execution is
    answered with 503, 500 or 422 by its kind.  Every other request is answered with
    a 400 and never reaches the engine. *)
Theorem queryRange_spec FormValue :
  (∃ start end_ step timeout,
     accepted FormValue start end_ step ∧
     parse_timeout (FormValue "timeout") = inr timeout ∧
     (end_ - start ≤ max_int64 → (end_ - start) / step ≤ 11000)%Z ∧
     match NewRangeQuery (FormValue "query") start end_ step with
     | inl err => queryRange FormValue = Ok (respondError 400 err "bad_data")
     | inr qry =>
         match r_Err (Exec qry timeout) with
         | Some err => ∃ code errType, queryRange FormValue = Ok (respondError code err errType) ∧
             code = match err with
                    | ErrQueryCanceled _ | ErrQueryTimeout _ => 503%Z
                    | ErrStorage _ => 500%Z
                    | _ => 422%Z
                    end
         | None => queryRange FormValue = respondQuery (Exec qry timeout)
         end
     end) ∨
  ((∀ start end_ step timeout, accepted FormValue start end_ step →
      parse_timeout (FormValue "timeout") ≠ inr timeout) ∧
   ∃ err, queryRange FormValue = Ok (respondError 400 err "bad_data")).
Proof.
  unfold queryRange. destruct (range_params FormValue) as [resp|[[start end_] step]] eqn:Hp.
  { right. split.
    - intros start end_ step timeout Ha%range_params_ok. congruence.
    - unfold range_params in Hp. repeat case_match; simplify_eq; eauto. }
  apply range_params_ok in Hp as Ha.
  destruct (parse_timeout (FormValue "timeout")) as [err|timeout] eqn:Ht; [right; by eauto|left].
  exists start, end_, step, timeout. split; [done|]. split; [done|].
  split; [by eapply accepted_points|].
  destruct (NewRangeQuery _ _ _ _) as [err|qry]; [done|]. unfold respond_result.
  destruct (r_Err (Exec qry timeout)) as [err|]; [|done].
  destruct err; eexists _, _; split; reflexivity.
Qed.

(** ** Series *)

(** [timestamp.FromTime], [parser.ParseMetricSelector], the querier's [Select] on an
    interval in milliseconds, and the merged set: its labels and its error. *)
Context {Rd Ms Set_ : Type} (FromTime : Z → Z) (ParseMetricSelector : string → goerror + Ms).
Context (Select : Rd → Z → Z → Ms → Rd * (goerror + Set_) * list string).
Context (merge : list Set_ → list (list Marsh.Label) * option goerror).

Fixpoint parse_selectors (l : list string) : goerror + list Ms :=
  match l with
  | [] => inr []
  | s :: rest =>
      match ParseMetricSelector s with
      | inl err => inl err
      | inr ms => match parse_selectors rest with
                  | inl err => inl err
                  | inr l => inr (ms :: l)
                  end
      end
  end.

Fixpoint select_all (rd : Rd) (mint maxt : Z) (l : list Ms) (warnings : list string)
    : Rd * (goerror + (list Set_ * list string)) :=
  match l with
  | [] => (rd, inr ([], warnings))
  | mset :: rest =>
      match Select rd mint maxt mset with
      | (rd, inl err, _) => (rd, inl err)
      | (rd, inr s, wrn) =>
          match select_all rd mint maxt rest (warnings ++ wrn) with
          | (rd, inl err) => (rd, inl err)
          | (rd, inr (sets, warnings)) => (rd, inr (s :: sets, warnings))
          end
      end
  end.

(** [form] is what parsing the form gives: the values of [match[]].  An error of the
    merged set is answered with the variable [err], which is nil there. *)
Definition series (form : goerror + list string) (FormValue : string → string) (rd : Rd)
    : Rd * res response :=
  match form with
  | inl err => (rd, Ok (respondError 400 (Wrapped "error parsing form values" err) "bad_data"))
  | inr [] => (rd, Ok (respondError 400 (Errorf "no match[] parameter provided") "bad_data"))
  | inr matches =>
      match parseTimeParam (FormValue "start") minTime with
      | inl err => (rd, Ok (respondError 400 err "bad_data"))
      | inr start =>
          match parseTimeParam (FormValue "end") maxTime with
          | inl err => (rd, Ok (respondError 400 err "bad_data"))
          | inr end_ =>
              if (end_ <? start)%Z then
                (rd, Ok (respondError 400 (Errorf "end timestamp must not be before start time") "bad_data"))
              else
                match parse_selectors matches with
                | inl err => (rd, Ok (respondError 400 err "bad_data"))
                | inr matcherSets =>
                    match select_all rd (FromTime start) (FromTime end_) matcherSets [] with
                    | (rd, inl err) => (rd, Ok (respondError 422 err "execution"))
                    | (rd, inr (sets, warnings)) =>
                        let '(metrics, err) := merge sets in
                        match err with
                        | Some _ => (rd, Panic "nil pointer dereference")
                        | None => (rd, Ok (MkResp 200 (negb (bool_decide (warnings = []))) (BLabels metrics)))
                        end
                    end
                end
          end
      end
  end.

(** The series handler panics exactly on an error of the merged set. *)
Lemma series_panics form FormValue rd rd' m :
  series form FormValue rd = (rd', Panic m) →
  ∃ sets err, (merge sets).2 = Some err.
Proof.
  unfold series. intros Hs. repeat case_match; simplify_eq/=.
  all: match goal with H : merge ?sets = (_, Some ?e) |- _ => exists sets, e; by rewrite H end.
Qed.

End times.

(** ** Labels, series and health *)

Section labels.
Context {Rd : Type} (LabelNames : Rd → Rd * (goerror + list string)).
Context (LabelValues : Rd → string → Rd * (goerror + list string)).

(** [respondLabels]: the warnings of the reader are always nil. *)
Definition respondLabels (names : list string) : response := MkResp 200 false (BStrings names).

Definition labelsHandler (rd : Rd) : Rd * response :=
  match LabelNames rd with
  | (rd, inl err) => (rd, respondError 500 err "internal")
  | (rd, inr names) => (rd, respondLabels names)
  end.

(** [model.LabelNameRE]: a letter or underscore, then letters, digits, underscores. *)
Definition is_label_name (s : string) : bool :=
  match s with
  | EmptyString => false
  | String c s' =>
      GoStr.is_word c && negb (GoStr.is_digit c) &&
      forallb GoStr.is_word (String.list_ascii_of_string s')
  end.

Definition labelValues (rd : Rd) (name : string) : Rd * response :=
  if negb (is_label_name name) then (rd, respondError 400 (Errorf "invalid label name") "bad_data")
  else match LabelValues rd name with
       | (rd, inl err) => (rd, respondError 500 err "internal")
       | (rd, inr values) => (rd, respondLabels values)
       end.

Definition Health (err : option goerror) : response :=
  match err with
  | Some err => http_Error err 500
  | None => http_ok
  end.

End labels.

(** ** The guarded migration of the main program *)

(** The elector, the leader gauge and the error.  [connect] is what opening the
    pool gives. *)
Definition migrate `{GoSort} `{Mig.Semver} {E D T} `{Elect.ElectionOps E}
    (db : Mig.MDB Mig.Version D T) (sqlFiles : string → Mig.fal Mig.File)
    (info : Mig.VersionInfo) (el : option (Elect.Elector E)) (connect : D → D * option goerror) (d : D)
    : option (option (Elect.Elector E) * Z * D * option goerror) :=
  match Elect.isWriter el with
  | None => None
  | Some (el, shouldWrite, err) =>
      match err with
      | Some err => Some (el, 0%Z, d, Some (Wrapped "isWriter check failed" err))
      | None =>
          if negb shouldWrite then Some (el, 0%Z, d, None)
          else match connect d with
               | (d, Some err) =>
                   Some (el, 1%Z, d, Some (Wrapped "Error while trying to open DB connection" err))
               | (d, None) =>
                   match Mig.Migrate db sqlFiles info d with
                   | (d, _, Some err) =>
                       Some (el, 1%Z, d, Some (Wrapped "Error while trying to migrate DB" err))
                   | (d, _, None) => Some (el, 1%Z, d, None)
                   end
               end
      end
  end.

(** ** Concrete runs *)

Module Toy.
Import Elect Elect.Toy.

Definition toy_calc : ThroughputCalc := NewThroughputCalc (float_of_Z 1).
Definition toy_metrics : Metrics := MkMetrics 0 0 0 0 0 toy_calc 0 0.
Definition toy_ts : list (Smp.TimeSeries Z) :=
  [Smp.MkTS [] [Smp.MkSample 1 1; Smp.MkSample 2 2]; Smp.MkTS [] [Smp.MkSample 3 3]]%Z.
Definition toy_ingest (d : nat) (ts : list (Smp.TimeSeries Z)) : nat * (nat * option goerror) :=
  (d + sample_count ts, (sample_count ts, None)).

Lemma Write_spec_witness :
  let st := MkWriter (Some (Elect.NewElector (Elect.MkRest true))) toy_metrics 0 in
  ∃ st', Write inr (λ _ : unit, inr toy_ts) toy_ingest (inr tt) 5 st = Some (st', http_ok) ∧
    SentSamples (w_metrics st') = 3%Z ∧ w_db st' = 3.
Proof.
  intros st.
  destruct (Write inr (λ _ : unit, inr toy_ts) toy_ingest (inr tt) 5 st) as [[st' r]|] eqn:E1;
    [|exfalso; vm_compute in E1; discriminate].
  assert (r = http_ok ∧ w_db st' = 3) as [-> Hdb].
  { vm_compute in E1. by injection E1 as <- <-. }
  exists st'. split; [done|]. split; [|exact Hdb].
  assert (isWriter (w_elector st) = Some (w_elector st, true, None)) as Hw by reflexivity.
  destruct (Write_spec inr (λ _ : unit, inr toy_ts) toy_ingest
    (λ db ts db' n H, eq_sym (f_equal (λ p, p.2.1) H)) (inr tt) 5 st st' http_ok (w_elector st) true
    None Hw E1) as (_ & _ & Hok & _).
  destruct (Hok eq_refl eq_refl eq_refl) as (_ & c & buf & ts & n & Hc & Hb & Hts & _ & Hs).
  injection Hts as <-. rewrite Hs. reflexivity.
Defined.

(** A leader check that fails is answered with a 200 although nothing is written: the
    sender takes its samples for stored. *)
Example leader_check_error_acks :
  let lock := Elect.Toy.leads 0 7 in
  let server := Elect.Toy.kill (Elect.Toy.MkSrv 1 [] {[7%Z := 0]}) 0 in
  let st := MkWriter (Some (Elect.NewElector (server, lock))) toy_metrics 0 in
  (λ r, (status r.2, w_db r.1)) <$> Write inr (λ _ : unit, inr toy_ts) toy_ingest (inr tt) 5 st
  = Some (200%Z, 0).
Proof. reflexivity. Qed.

(** The difference of the times saturates: three million steps pass the limit of
    11000. *)
Example saturated_range_passes :
  let start := 0%Z in let end_ := (100000 * 365 * 86400 * Second)%Z in
  let step := (12 * 86400 * Second)%Z in
  (11000 <? Z.quot (time_Sub end_ start) step)%Z = false ∧ ((end_ - start) / step = 3041666)%Z.
Proof. by vm_compute. Qed.

(** [9223372036.854775807] seconds are 2^63 ns after rounding: not above the bound,
    but not an int64 either. *)
Example parseDuration_overflows :
  let d := S754_finite false 4835703278458517 (-19) in
  let ts := float_mul d (float_of_Z Second) in
  (SFltb f_max ts || SFltb ts f_min) = false ∧ trunc ts = Some (max_int64 + 1)%Z.
Proof. by vm_compute. Qed.

End Toy.

End Api.
