(* ===== verification/WritePath.v ===== *)
(** * The write path, from the HTTP handler to the rows

    The composition [api.Write] > [DBIngestor.Ingest] > [pgxInserter.InsertNewData]:
    a call of [InsertData] with a scheduler for the goroutines of the pipeline, and
    what a 200 of the write handler means for the database. *)
From S2P Require Import Prelude Labels MetricCache SampleIter Ingestor SeriesIds Inserter Pipeline Election Api.

Module Wp.
Import Smp Sid Ins Pipe.

Section driver.
Context {F D C : Type} `{GoSort} `{MC.MetricCacheOps C}.
Context (conn : Conn F D) (asyncAcks : bool) (numCopiers : nat).
Notation world := (Pipe.world (F:=F) (D:=D) (C:=C)).

(** The Go scheduler: which of the goroutines that can move does. *)
Context (pick : world → list (action (F:=F)) → nat).

(** The steps of every goroutine of the pipeline. *)
Definition goroutines (w : world) : list (action (F:=F)) :=
  (ASend <$> seq 0 (length (w_frames w))) ++ (AWait <$> seq 0 (length (w_frames w))) ++
  (AReturn <$> seq 0 (length (w_frames w))) ++
  (ABegin <$> (map_to_list (w_inserters w)).*1) ++ (ATurn <$> (map_to_list (w_inserters w)).*1) ++
  (AInsert <$> seq 0 (length (w_copying w))) ++ [AReceive; ASignal].

Definition runnable (a : action) (w : world) : Prop := is_Some (exec conn asyncAcks numCopiers a w).
#[local] Instance runnable_dec a w : Decision (runnable a w).
Proof. unfold runnable. apply _. Defined.

Definition enabled (w : world) : list (action (F:=F)) := filter (λ a, runnable a w) (goroutines w).

Definition returned (w : world) (c : nat) : option (nat * option goerror) :=
  f ← w_frames w !! c; f_result f.

(** Runs the pipeline until the call [c] has returned. *)
Fixpoint drive (fuel : nat) (w : world) (c : nat) : option (world * (nat * option goerror)) :=
  match returned w c with
  | Some r => Some (w, r)
  | None =>
      match fuel with
      | 0 => None
      | S fuel =>
          a ← enabled w !! (pick w (enabled w) mod length (enabled w));
          match exec conn asyncAcks numCopiers a w with
          | Some (Ok w') => drive fuel w' c
          | _ => None
          end
      end
  end.

(** [pgxInserter.InsertNewData], which is [InsertData]: [None] when the call does not
    return. *)
Definition InsertNewData (w : world) (data : gmap string (list (samplesInfo F)))
    : option (world * (nat * option goerror)) :=
  match exec conn asyncAcks numCopiers (ACall (map_to_list data)) w with
  | Some (Ok w') => drive (weight w') w' (length (w_frames w))
  | _ => None
  end.

End driver.

(** ** The handler *)

Section handler.
Context {F D C : Type} `{GoSort}.
Notation world := (Pipe.world (F:=F) (D:=D) (C:=C)).
Context (InsertNewData : world → gmap string (list (samplesInfo F)) → world * (nat * option goerror)).

(** [DBIngestor.Ingest] on the state of the pipeline and the label interner; the
    request comes from the pool and holds the decoded series. *)
Definition ingest (s : world * gmap string Lbl.Labels) (ts : list (TimeSeries F))
    : world * gmap string Lbl.Labels * (nat * option goerror) :=
  match Ing.Ingest InsertNewData s.1 s.2 ts (Ing.MkWR ts []) with
  | (w, interner, _, Ok r) => (w, interner, r)
  | (w, interner, _, Err e) => (w, interner, (0, Some e))
  | (w, interner, _, Panic m) => (w, interner, (0, Some (Errorf m)))
  end.

End handler.

(** ** A call returns *)

Section properties.
Context {F D C : Type} `{GoSort} `{MC.MetricCacheLaws C}.
Context (conn : Conn F D) (v : DbView D) (asyncAcks : bool) (numCopiers : nat).
Context (Hlaws : ConnLaws conn v).
Notation world := (Pipe.world (F:=F) (D:=D) (C:=C)).
Notation inv := (Pipe.inv v asyncAcks).
Notation exec := (Pipe.exec conn asyncAcks numCopiers).
Notation run := (Pipe.run conn asyncAcks numCopiers).

(** An execution of the pipeline from a call of [InsertData] on [data], in any order of
    the map, to a state where that call has returned [r]; other calls may come in. *)
Definition inserted (w : world) (data : gmap string (list (samplesInfo F))) (w' : world)
    (r : nat * option goerror) : Prop :=
  ∃ rows acts, rows ≡ₚ map_to_list data ∧ Forall good_action acts ∧
    run (ACall rows :: acts) w = Some (Ok w') ∧ returned w' (length (w_frames w)) = Some r.

Lemma runnable_goroutine a w :
  not_call a → runnable conn asyncAcks numCopiers a w → a ∈ goroutines w.
Proof.
  intros Hn [r Hr]. unfold goroutines. rewrite !elem_of_app.
  assert (∀ (B : Type) (l : list B) i x, l !! i = Some x → i ∈ seq 0 (length l)) as Hseq.
  { intros B l i x ?%lookup_lt_Some. apply elem_of_seq. lia. }
  assert (∀ m i, w_inserters w !! m = Some i → m ∈ (map_to_list (w_inserters w)).*1) as Hmap.
  { intros m i Hi%elem_of_map_to_list. by apply (list_elem_of_fmap_2 fst) in Hi. }
  destruct a as [rows|c|c|c|m|m| |i|]; [done|..]; cbn [exec] in Hr.
  - left. apply list_elem_of_fmap_2. unfold insertMetricData in Hr.
    destruct (w_frames w !! c) eqn:Hc; [|done]. by eapply Hseq.
  - right; left. apply list_elem_of_fmap_2. unfold wait_finished in Hr.
    destruct (w_frames w !! c) eqn:Hc; [|done]. by eapply Hseq.
  - do 2 right; left. apply list_elem_of_fmap_2. unfold return_async in Hr.
    destruct (w_frames w !! c) eqn:Hc; [|done]. by eapply Hseq.
  - do 3 right; left. apply list_elem_of_fmap_2. unfold routine_begin in Hr.
    destruct (w_inserters w !! m) eqn:Hm; [|done]. by eapply Hmap.
  - do 4 right; left. apply list_elem_of_fmap_2. unfold routine_step in Hr.
    destruct (w_inserters w !! m) eqn:Hm; [|done]. by eapply Hmap.
  - do 6 right. by left.
  - do 5 right; left. apply list_elem_of_fmap_2. unfold copier_insert in Hr.
    destruct (w_copying w !! i) eqn:Hi; [|done]. by eapply Hseq.
  - do 6 right. right. by left.
Qed.

Lemma not_call_good (a : action (F:=F)) : not_call a → good_action a.
Proof. by destruct a. Qed.

(** As long as a call has not returned, some goroutine can move. *)
Lemma unreturned_can_move w c f :
  inv w → 0 < numCopiers → w_frames w !! c = Some f → f_result f = None →
  can_move conn asyncAcks numCopiers w.
Proof.
  intros Hinv Hcop Hf Hres. destruct (f_waited f) as [e|] eqn:Hw; [|by eapply progress].
  destruct (inv_frames _ _ _ Hinv _ _ Hf) as ([_ Htodo] & Hsync & _).
  destruct asyncAcks eqn:Hasync; [|by rewrite Hsync, Hw in Hres].
  apply (enabled_can_move conn v true numCopiers Hlaws (AReturn c)); [done..|]. simpl. unfold return_async.
  rewrite Hf. destruct f as [rows todo waited res]. simpl in *. subst.
  by rewrite Htodo by eauto.
Qed.

Lemma enabled_ok pick w c f :
  inv w → 0 < numCopiers → w_frames w !! c = Some f → f_result f = None →
  ∃ a w', enabled conn asyncAcks numCopiers w !! (pick mod length (enabled conn asyncAcks numCopiers w)) = Some a ∧
    not_call a ∧ exec a w = Some (Ok w') ∧ inv w'.
Proof.
  intros Hinv Hcop Hf Hres.
  destruct (unreturned_can_move w c f) as (a0 & w0 & Hn0 & He0); [done..|].
  assert (a0 ∈ enabled conn asyncAcks numCopiers w) as Hin.
  { apply list_elem_of_filter. assert (runnable conn asyncAcks numCopiers a0 w) by (eexists; exact He0).
    split; [done|]. by apply runnable_goroutine. }
  set (l := enabled conn asyncAcks numCopiers w) in *.
  destruct (lookup_lt_is_Some_2 l (pick mod length l)) as [a Ha].
  { apply Nat.mod_upper_bound. destruct l; [by apply elem_of_nil in Hin|done]. }
  exists a. apply list_elem_of_lookup_2 in Ha as Hal. apply list_elem_of_filter in Hal as [[r Hr] Hg].
  assert (not_call a) as Hn.
  { unfold goroutines in Hg. rewrite !elem_of_app, !list_elem_of_fmap in Hg.
    destruct Hg as [(?&->&_)|[(?&->&_)|[(?&->&_)|[(?&->&_)|[(?&->&_)|[(?&->&_)|Hg]]]]]]; try done.
    apply elem_of_cons in Hg as [->|[->|[]%elem_of_nil]%elem_of_cons]; done. }
  destruct (exec_ok conn v asyncAcks numCopiers Hlaws a w Hinv (not_call_good a Hn)) as [Hno|(w' & He & Hinv')];
    [congruence|]. eauto.
Qed.

Lemma drive_returns pick fuel w c :
  inv w → 0 < numCopiers → c < length (w_frames w) → weight w ≤ fuel →
  ∃ acts w' r, drive conn asyncAcks numCopiers pick fuel w c = Some (w', r) ∧
    Forall not_call acts ∧ run acts w = Some (Ok w') ∧ returned w' c = Some r.
Proof.
  revert w. induction fuel as [|fuel IH]; intros w Hinv Hcop Hc Hfuel;
    apply lookup_lt_is_Some_2 in Hc as [f Hf];
    (destruct (f_result f) as [r|] eqn:Hres;
      [exists [], w, r; unfold drive; fold (drive conn asyncAcks numCopiers pick);
       assert (returned w c = Some r) as -> by (unfold returned; by rewrite Hf); by split_and!|]).
  - destruct (enabled_ok 0 w c f) as (a & w' & _ & Hn & He & _); [done..|].
    apply (exec_weight conn v asyncAcks numCopiers Hlaws) in He; [lia|done..].
  - destruct (enabled_ok (pick w (enabled conn asyncAcks numCopiers w)) w c f)
      as (a & w1 & Ha & Hn & He & Hinv1); [done..|].
    destruct (exec_rows _ _ _ _ _ _ c f He Hf) as (f1 & Hf1 & _).
    destruct (IH w1) as (acts & w' & r & Hd & Hns & Hrun & Hr);
      [done|done|by eapply lookup_lt_Some| |].
    { apply (exec_weight conn v asyncAcks numCopiers Hlaws) in He; [lia|done..]. }
    exists (a :: acts), w', r. split_and!; [|by constructor| |done].
    + cbn [drive]. assert (returned w c = None) as -> by (unfold returned; by rewrite Hf).
      rewrite Ha. simpl. by rewrite He.
    + cbn [Pipe.run]. by rewrite He.
Qed.

Lemma InsertNewData_inserted pick w data :
  inv w → 0 < numCopiers → Forall data_good (map_to_list data) →
  ∃ w' r, InsertNewData conn asyncAcks numCopiers pick w data = Some (w', r) ∧
    inserted w data w' r ∧ inv w'.
Proof.
  intros Hinv Hcop Hgood. unfold InsertNewData.
  destruct (exec_ok conn v asyncAcks numCopiers Hlaws (ACall (map_to_list data)) w Hinv Hgood)
    as [He|(w1 & He & Hinv1)].
  { cbn [Pipe.exec] in He. unfold InsertData in He. rewrite decide_True in He; [done|].
    apply NoDup_fst_map_to_list. }
  rewrite He. cbn [Pipe.exec] in He. unfold InsertData in He.
  rewrite decide_True in He by apply NoDup_fst_map_to_list. injection He as He.
  destruct (drive_returns pick (weight w1) w1 (length (w_frames w)))
    as (acts & w' & r & Hd & Hn & Hrun & Hr); [done|done|rewrite <-He; simpl; rewrite length_app; simpl; lia|done|].
  assert (Forall good_action acts) as Hg by (eapply Forall_impl; [done|apply not_call_good]).
  exists w', r. split; [done|]. split; [|by eapply run_inv].
  exists (map_to_list data), acts. split_and!; [done..| |done].
  cbn [Pipe.run Pipe.exec]. unfold InsertData. rewrite decide_True by apply NoDup_fst_map_to_list.
  by rewrite He.
Qed.

(** C6. A call of [InsertNewData] returns, whatever goroutine the scheduler picks at
    every step: from any state of the pipeline, with calls of other clients still in
    progress, [weight] steps are enough, and the result is that of an execution of
    the pipeline. *)
Theorem InsertNewData_returns pick w data :
  inv w → 0 < numCopiers → Forall data_good (map_to_list data) →
  ∃ w' r, InsertNewData conn asyncAcks numCopiers pick w data = Some (w', r) ∧
    inserted w data w' r ∧ inv w'.
Proof. apply InsertNewData_inserted. Qed.

(** ** What an acknowledged request means *)

(** The sample [x] of the series [t] has a row in the table of its metric, under an id
    given to its label set: its id in the database, or one that a transaction whose
    COMMIT failed had answered ([Ins.given]). *)
Definition stored (d : D) (t : TimeSeries F) (x : Sample F) : Prop :=
  ∃ o table id, let lset := Lbl.fill_labels (Lbl.encode o) o in
    o ≡ₚ ts_Labels t ∧ db_tables v d !! Lbl.metricName lset = Some table ∧
    given v d (key_of lset) id ∧ db_has v d table (s_Timestamp x) id.

(** An inserted batch without an error is durable. *)
Lemma inserted_durable w data w' n :
  inv w → asyncAcks = false → Forall data_good (map_to_list data) →
  inserted w data w' (n, None) →
  inv w' ∧ ∀ m l, data !! m = Some l → durable v (w_db w') m l.
Proof.
  intros Hinv Hsync Hgood (rows & acts & Hrows & Hacts & Hrun & Hret).
  assert (Forall good_action (ACall rows :: acts)) as Hall by (constructor; [simpl; by rewrite Hrows|done]).
  assert (inv w') as Hinv' by by eapply run_inv.
  split; [done|]. intros m l Hl.
  cbn [Pipe.run Pipe.exec] in Hrun. unfold InsertData in Hrun. case_decide as Hnd; [|done].
  destruct (run_rows _ _ _ _ _ _ (length (w_frames w)) (MkFrame rows rows None None) Hrun) as (f & Hf & Hfr).
  { cbn [w_frames]. by apply list_lookup_middle. }
  unfold returned in Hret. rewrite Hf in Hret. simpl in Hret.
  eapply returned_stored; [done|done|exact Hf|exact Hret|].
  rewrite Hfr. simpl. rewrite Hrows. by apply elem_of_map_to_list.
Qed.

Lemma grouped_good (tts : list (TimeSeries F)) infos (data : gmap string (list (samplesInfo F))) :
  Forall2 Ing.info_for (filter Ing.has_samples tts) infos → Ing.grouped infos data →
  Forall data_good (map_to_list data).
Proof.
  intros Hinfos Hgr. apply Forall_forall. intros [m l] Hl%elem_of_map_to_list.
  rewrite (Hgr m) in Hl.
  assert (l = filter (Ing.of_metric m) infos ∧ l ≠ []) as [-> Hne]
    by (destruct (filter (Ing.of_metric m) infos); simplify_eq; done).
  assert (∀ si, si ∈ infos → info_good si ∧ seriesID si = (-1)%Z) as Hsi.
  { intros si (i & Hi)%list_elem_of_lookup.
    destruct (Forall2_lookup_r _ _ _ _ _ Hinfos Hi) as (t & Ht & Hs & Hid & _ & Hwf & _).
    apply list_elem_of_lookup_2, list_elem_of_filter in Ht as [Ht _].
    split; [|done]. split; [by rewrite Hs|done]. }
  split; [done|]. split; [done|]. split; apply Forall_forall; intros si [_ Hin]%list_elem_of_filter; by apply Hsi.
Qed.

Lemma parse_loop_no_panic (interner : gmap string Lbl.Labels) data rows (tts : list (TimeSeries F)) m i :
  Ing.parse_loop interner data rows tts ≠ (i, Panic m).
Proof.
  revert interner data rows i. induction tts as [|t tts IH]; intros interner data rows i; [done|].
  cbn [Ing.parse_loop]. destruct (ts_Samples t) as [|x xs].
  - destruct (Ing.parse_loop interner data rows tts) as [i1 [[[? ?] ?]|e|p]] eqn:E; simpl; try done.
    intros [= -> ->]. by eapply IH.
  - destruct (Lbl.labelProtosToLabels interner (ts_Labels t)) as [[[[i1 o] l] mn]|e|p] eqn:E; try done.
    + case_bool_decide; [done|].
      destruct (Ing.parse_loop _ _ _ tts) as [i2 [[[? ?] ?]|e|p]] eqn:E2; simpl; try done.
      intros [= -> ->]. by eapply IH.
    + exfalso. unfold Lbl.labelProtosToLabels in E.
      destruct (Lbl.getStr_cases (ts_Labels t)) as (o & _ & _ & Hg). rewrite Hg in E.
      destruct (_ <? _)%Z; [done|]. simpl in E.
      destruct (Lbl.GetLabels _ _); [done|]. by destruct (Lbl.SetLabels _ _ _).
Qed.

(** [ingest] never takes the branch for a panic. *)
Lemma Ingest_no_panic (I : world → gmap string (list (samplesInfo F)) → world * (nat * option goerror)) w interner tts req w' i' q' m :
  Ing.Ingest I w interner tts req ≠ (w', i', q', Panic m).
Proof.
  unfold Ing.Ingest, Ing.parseData.
  destruct (Ing.parse_loop interner ∅ 0 tts) as [i1 [[[? ?] ?]|e|p]] eqn:E; [|done|].
  - destruct (I w _) as [? [? [|]]]; [done|]. by case_bool_decide.
  - by apply parse_loop_no_panic in E.
Qed.

Context (InsertNewData : world → gmap string (list (samplesInfo F)) → world * (nat * option goerror)).
Context (HInsert : ∀ w data, inv w → Forall data_good (map_to_list data) →
  inserted w data (InsertNewData w data).1 (InsertNewData w data).2).

Lemma ingest_stored w interner ts w' interner' n :
  inv w → Lbl.interner_ok interner → asyncAcks = false →
  ingest InsertNewData (w, interner) ts = (w', interner', (n, None)) →
  inv w' ∧ Lbl.interner_ok interner' ∧ n = Api.sample_count ts ∧
  ∀ t x, t ∈ ts → x ∈ ts_Samples t → stored (w_db w') t x.
Proof.
  intros Hinv Hok Hsync. unfold ingest, Ing.Ingest. simpl.
  destruct (Ing.parseData interner ts (Ing.MkWR ts [])) as [[i1 q1] [[[tts data] rows]|e|p]] eqn:Hp; [|done..].
  apply Ing.parseData_ok in Hp as (infos & Hinfos & Hgr & _ & Hrows & Hok' & _ & _); [|done].
  pose proof (grouped_good _ _ _ Hinfos Hgr) as Hgood.
  pose proof (HInsert w data Hinv Hgood) as Hins.
  destruct (InsertNewData w data) as [w1 [k [err|]]]; [done|]. simpl in Hins.
  case_bool_decide as Hk; [|done]. intros [= -> -> ->].
  destruct (inserted_durable w data w' n Hinv Hsync Hgood Hins) as [Hinv' Hd].
  split_and!; [done|done|by subst n rows|]. intros t x Ht Hx.
  assert (t ∈ filter Ing.has_samples ts) as (j & Hj)%list_elem_of_lookup.
  { apply list_elem_of_filter. split; [|done]. intros E. rewrite E in Hx. by apply elem_of_nil in Hx. }
  destruct (Forall2_lookup_l _ _ _ _ _ Hinfos Hj) as (si & Hsi & Hs & _ & _ & _ & o & Ho & Hl).
  apply list_elem_of_lookup_2 in Hsi.
  set (m := Lbl.metricName (labels si)).
  assert (∃ l, data !! m = Some l ∧ si ∈ l) as (l & Hdl & Hil).
  { assert (si ∈ filter (Ing.of_metric m) infos) as Hin by (by apply list_elem_of_filter).
    rewrite (Hgr m). destruct (filter (Ing.of_metric m) infos) as [|a l]; [by apply elem_of_nil in Hin|eauto]. }
  destruct (Hd m l Hdl) as (table & Ht' & Hrow). destruct (Hrow si x Hil) as (id & Hid & Hhas); [by rewrite Hs|].
  exists o, table, id. rewrite <-Hl. by split_and!.
Qed.

(** The body of the handler. *)
Lemma write_samples_stored {B} (snappy_Decode : B → goerror + B) (Unmarshal : B → goerror + list (TimeSeries F))
    r_body now metrics db metrics' db' resp :
  asyncAcks = false → inv db.1 → Lbl.interner_ok db.2 →
  Api.write_samples snappy_Decode Unmarshal (ingest InsertNewData) r_body now metrics db = (metrics', db', resp) →
  Api.status resp = 200%Z →
  inv db'.1 ∧ Lbl.interner_ok db'.2 ∧
  ∃ compressed buf ts, r_body = inr compressed ∧ snappy_Decode compressed = inr buf ∧ Unmarshal buf = inr ts ∧
    Api.SentSamples metrics' = (Api.SentSamples metrics + Z.of_nat (Api.sample_count ts))%Z ∧
    ∀ t x, t ∈ ts → x ∈ ts_Samples t → stored (w_db db'.1) t x.
Proof.
  intros Hsync Hinv Hok. unfold Api.write_samples.
  destruct r_body as [e|c]; [by intros; simplify_eq/=|].
  destruct (snappy_Decode c) as [e|buf] eqn:Hs; [by intros; simplify_eq/=|].
  destruct (Unmarshal buf) as [e|ts] eqn:Hu; [by intros; simplify_eq/=|].
  destruct db as [w interner].
  destruct (ingest InsertNewData (w, interner) ts) as [[w1 i1] [n [e|]]] eqn:Hi; [by intros; simplify_eq/=|].
  apply ingest_stored in Hi as (Hinv' & Hok' & -> & Hst); [|done..].
  intros; simplify_eq/=. split_and!; [done..|]. eexists _, _, _. by split_and!.
Qed.

(** A 200 from the leader means the samples are in the database: with synchronous
    acknowledgements, when the write handler of an instance that leads answers a
    request with 200, every sample of every series of the decoded request has a row
    in the table of the metric the series names, under an id given to its label set
    ([stored]); the handler counted exactly these samples as sent, and the pipeline and the interner
    are fit for the next request. *)
Theorem write_acks_stored {E B} `{Elect.ElectionOps E} (snappy_Decode : B → goerror + B)
    (Unmarshal : B → goerror + list (TimeSeries F)) r_body now (st st' : Api.writer_state) (el : option (Elect.Elector E)) resp :
  asyncAcks = false → inv (Api.w_db st).1 → Lbl.interner_ok (Api.w_db st).2 →
  Elect.isWriter (Api.w_elector st) = Some (el, true, None) →
  Api.Write snappy_Decode Unmarshal (ingest InsertNewData) r_body now st = Some (st', resp) →
  Api.status resp = 200%Z →
  inv (Api.w_db st').1 ∧ Lbl.interner_ok (Api.w_db st').2 ∧
  ∃ compressed buf ts, r_body = inr compressed ∧ snappy_Decode compressed = inr buf ∧
    Unmarshal buf = inr ts ∧
    Api.SentSamples (Api.w_metrics st') =
      (Api.SentSamples (Api.w_metrics st) + Z.of_nat (Api.sample_count ts))%Z ∧
    ∀ t x, t ∈ ts → x ∈ ts_Samples t → stored (w_db (Api.w_db st').1) t x.
Proof.
  intros Hsync Hinv Hok Hw. unfold Api.Write. rewrite Hw. cbn [negb].
  destruct (Api.write_samples _ _ _ _ _ _ _) as [[metrics db] r] eqn:Hr. intros [= <- <-] H200.
  by eapply write_samples_stored in Hr.
Qed.

End properties.

(** ** Concrete runs *)

Module Toy.
#[local] Existing Instance ex_cache_ops.
#[local] Existing Instance ex_cache_laws.
Import Elect.

Definition toy_world : world (F:=Z) := init ex_db0 ex_names.
Definition toy_insert (w : world (F:=Z)) data :=
  default (w, (0, None)) (InsertNewData ex_conn false 1 (λ _ _, 0) w data).

Lemma toy_inv : inv ex_view false toy_world.
Proof. apply init_inv, ex_coherent. Qed.

Lemma toy_inserted w data :
  inv ex_view false w → Forall data_good (map_to_list data) →
  inserted ex_conn false 1 w data (toy_insert w data).1 (toy_insert w data).2.
Proof.
  intros Hinv Hd.
  destruct (InsertNewData_inserted ex_conn ex_view false 1 ex_conn_laws (λ _ _, 0) w data Hinv ltac:(lia) Hd)
    as (w' & r & He & Hi & _). unfold toy_insert. by rewrite He.
Qed.

Lemma InsertNewData_returns_witness :
  ∃ w' r, InsertNewData ex_conn false 1 (λ _ _, 3) toy_world (list_to_map ex_rows1) = Some (w', r).
Proof.
  destruct (InsertNewData_returns ex_conn ex_view false 1 ex_conn_laws (λ _ _, 3) toy_world
    (list_to_map ex_rows1) toy_inv) as (w' & r & Hr & _); [lia| |by exists w', r].
  rewrite map_to_list_to_map by apply NoDup_singleton. exact ex_rows1_good.
Defined.

Lemma write_acks_stored_witness :
  let st := Api.MkWriter (E:=Elect.RestElection) None Api.Toy.toy_metrics (toy_world, ∅ : gmap string Lbl.Labels) in
  ∃ st' r, Api.Write inr (λ _ : unit, inr Ing.ex_tts) (ingest toy_insert) (inr tt) 5 st = Some (st', r) ∧
    ∀ (t : TimeSeries Z) (x : Sample Z), t ∈ Ing.ex_tts → x ∈ ts_Samples t → stored ex_view (w_db (Api.w_db st').1) t x.
Proof.
  intros st.
  assert ((λ r, Api.status r.2) <$> Api.Write inr (λ _ : unit, inr Ing.ex_tts) (ingest toy_insert) (inr tt) 5 st
    = Some 200%Z) as Hs by (vm_compute; reflexivity).
  destruct (Api.Write inr (λ _ : unit, inr Ing.ex_tts) (ingest toy_insert) (inr tt) 5 st) as [[st' r]|] eqn:He;
    [|done].
  injection Hs as Hs.
  destruct (write_acks_stored ex_conn ex_view false 1 ex_conn_laws toy_insert toy_inserted
    inr (λ _ : unit, inr Ing.ex_tts) (inr tt) 5 st st' None r) as (_ & _ & c & buf & ts & _ & _ & Hts & _ & Hall);
    [done|exact toy_inv|exact Lbl.interner_ok_empty|done|exact He|exact Hs|].
  injection Hts as <-. exists st', r. split; [done|exact Hall].
Defined.

End Toy.
End Wp.
