(* ===== verification/Remote.v ===== *)
(** * Remote write and remote read over the wire

    The handlers of [src/pkg/api/write.go] and [read.go] with the decoding and encoding of
    [src/pkg/prompb] in the place of their parameters: what a client that marshals a
    request gets.  Snappy remains a parameter. *)
From S2P Require Import Prelude ClockCache Labels MetricCache SampleIter Ingestor SeriesIds Inserter Pipeline Election Api WritePath QueryBuilder LabelReader SeriesSet Reader Wire Proto.

Module Remote.
Import Wire.

(** ** Messages as the rest of the program sees them

    [labelProtosToLabels], [parseData] and [FromLabelMatchers] read these fields of the
    messages; nobody looks at unknown fields. *)

Definition view_Label (l : Pb.Label) : Lbl.Label := Lbl.MkLabel (Pb.l_Name l) (Pb.l_Value l).

Definition view_MatcherType (t : Z) : Lbl.LabelMatcherType :=
  match t with
  | 0%Z => Lbl.LM_EQ
  | 1%Z => Lbl.LM_NEQ
  | 2%Z => Lbl.LM_RE
  | 3%Z => Lbl.LM_NRE
  | n => Lbl.LM_other n
  end.
Definition view_Matcher (m : Pb.LabelMatcher) : Lbl.LabelMatcher :=
  Lbl.MkLabelMatcher (view_MatcherType (Pb.m_Type m)) (Pb.m_Name m) (Pb.m_Value m).
Definition view_Query (q : Pb.Query) : Rd.Query_req :=
  Rd.MkQuery (Pb.q_StartTimestampMs q) (Pb.q_EndTimestampMs q) (view_Matcher <$> Pb.q_Matchers q).

Section views.
Context {F : Type}.

Definition view_Sample (s : Pb.Sample (F:=F)) : Smp.Sample F := Smp.MkSample (Pb.s_Value s) (Pb.s_Timestamp s).
Definition view_TimeSeries (t : Pb.TimeSeries (F:=F)) : Smp.TimeSeries F :=
  Smp.MkTS (view_Label <$> Pb.items (Pb.t_Labels t)) (view_Sample <$> Pb.items (Pb.t_Samples t)).

(** The messages the reader builds. *)
Definition to_Label (l : Lbl.Label) : Pb.Label := Pb.MkLabel (Lbl.Name l) (Lbl.Value l) [].
Definition to_Sample (s : Smp.Sample F) : Pb.Sample (F:=F) := Pb.MkSample (Smp.s_Value s) (Smp.s_Timestamp s) [].
Definition to_TimeSeries (t : Smp.TimeSeries F) : Pb.TimeSeries (F:=F) :=
  Pb.MkTimeSeries (Pb.MkSlice (to_Label <$> Smp.ts_Labels t) []) (Pb.MkSlice (to_Sample <$> Smp.ts_Samples t) []) [].
Definition to_ReadResponse (results : list (list (Smp.TimeSeries F))) : Pb.ReadResponse (F:=F) :=
  Pb.MkReadResponse ((λ tts, Pb.MkQueryResult (to_TimeSeries <$> tts) []) <$> results) [].
Definition view_ReadResponse (m : Pb.ReadResponse (F:=F)) : list (list (Smp.TimeSeries F)) :=
  (λ r, view_TimeSeries <$> Pb.qr_Timeseries r) <$> Pb.rr_Results m.

End views.

(** ** [proto.Unmarshal] and [proto.Marshal] in the handlers *)

(** A panic of a handler ends the request in the server; [Pb.Unmarshal_total] excludes it. *)
Definition to_sum {A} (r : res A) : goerror + A :=
  match r with
  | Ok a => inr a
  | Err e => inl e
  | Panic m => inl (Errorf m)
  end.

Section codecs.
Context {F : Type} `{Pb.Float64 F} (growth : nat → nat).

(** [req] is what the pool gave; [proto.Unmarshal] resets it. *)
Definition decode_write (req : Pb.WriteRequest) (buf : bytes) : goerror + list (Smp.TimeSeries F) :=
  to_sum (let* m := Pb.WriteRequest_Unmarshal growth (Pb.WriteRequest_Reset req) buf in
          Ok (view_TimeSeries <$> Pb.items (Pb.w_Timeseries m))).

Definition decode_read (buf : bytes) : goerror + Pb.ReadRequest := to_sum (Pb.ReadRequest_Unmarshal Pb.ReadRequest_zero buf).

(** The answer to a query; nil for a nil request, which the handler never passes. *)
Definition encode_read (results : option (list (list (Smp.TimeSeries F)))) : goerror + bytes :=
  match results with
  | Some results => to_sum (Pb.ReadResponse_Marshal (to_ReadResponse results))
  | None => inl (Errorf "proto: Marshal called with nil")
  end.

End codecs.

(** ** The views and the messages *)

Section lemmas.
Context {F : Type} `{Pb.Float64Laws F}.

(** A series after a trip over the wire. *)
Definition wire_series (t : Smp.TimeSeries F) : Smp.TimeSeries F :=
  Smp.MkTS (Smp.ts_Labels t)
    ((λ s, Smp.MkSample (Pb.canon_float (Smp.s_Value s)) (Smp.s_Timestamp s)) <$> Smp.ts_Samples t).

#[global] Instance view_TimeSeries_proper : Proper ((≡) ==> (=)) (view_TimeSeries (F:=F)).
Proof. intros a b [Hl Hs _]. unfold view_TimeSeries. by rewrite Hl, Hs. Qed.

Lemma view_all (l l' : list (Pb.TimeSeries (F:=F))) : l ≡ l' → view_TimeSeries <$> l = view_TimeSeries <$> l'.
Proof. rewrite list_equiv_Forall2. induction 1 as [|a b l l' Hab _ IH]; [done|]. by rewrite !fmap_cons, Hab, IH. Qed.

Lemma view_canon (t : Pb.TimeSeries (F:=F)) : view_TimeSeries (Pb.canon_TimeSeries t) = wire_series (view_TimeSeries t).
Proof.
  unfold view_TimeSeries, wire_series. simpl. f_equal. rewrite <-!list_fmap_compose. done.
Qed.

Lemma view_to (t : Smp.TimeSeries F) : view_TimeSeries (to_TimeSeries t) = t.
Proof.
  destruct t as [ls ss]. unfold view_TimeSeries, to_TimeSeries. simpl. rewrite <-!list_fmap_compose. f_equal.
  - rewrite <-(list_fmap_id ls) at 2. apply list_fmap_ext. by intros ? [] _.
  - rewrite <-(list_fmap_id ss) at 2. apply list_fmap_ext. by intros ? [] _.
Qed.

Lemma view_canons (l : list (Pb.TimeSeries (F:=F))) :
  view_TimeSeries <$> (Pb.canon_TimeSeries <$> l) = wire_series <$> (view_TimeSeries <$> l).
Proof. rewrite <-!list_fmap_compose. apply list_fmap_ext. intros _ t _. apply view_canon. Qed.

Lemma view_answer (results : list (list (Smp.TimeSeries F))) answer :
  answer ≡ Pb.canon_ReadResponse (to_ReadResponse results) →
  view_ReadResponse answer = (λ tts : list (Smp.TimeSeries F), wire_series <$> tts) <$> results.
Proof.
  intros [Ha _]. unfold view_ReadResponse. simpl in Ha. revert Ha. generalize (Pb.rr_Results answer) as rs. clear answer.
  induction results as [|tts results IH]; intros rs Ha; rewrite ?fmap_cons in Ha; inversion Ha as [|r ? rs' ? [Hr _] Hrs]; subst; [done|].
  rewrite !fmap_cons, (IH rs') by done. f_equal. rewrite (view_all _ _ Hr). simpl. rewrite view_canons. f_equal.
  rewrite <-list_fmap_compose. rewrite <-(list_fmap_id tts) at 2. apply list_fmap_ext. intros _ t _. apply view_to.
Qed.

(** The timestamps of an answer are 64-bit integers. *)
Definition series_ok (t : Smp.TimeSeries F) : Prop := Forall (λ s, in_int64 (Smp.s_Timestamp s)) (Smp.ts_Samples t).

Lemma to_series_wf t : series_ok t → Pb.TimeSeries_wf (to_TimeSeries t).
Proof.
  intros Ht. split_and!; [| |done]; simpl; apply Forall_fmap.
  - by apply Forall_true.
  - eapply Forall_impl; [exact Ht|]. intros s Hs. by split.
Qed.

Lemma to_ReadResponse_wf results : Forall (Forall series_ok) results → Pb.ReadResponse_wf (to_ReadResponse results).
Proof.
  intros Hr. split; [|done]. simpl. apply Forall_fmap. eapply Forall_impl; [exact Hr|]. intros tts Ht.
  split; [|done]. simpl. apply Forall_fmap. eapply Forall_impl; [exact Ht|]. apply to_series_wf.
Qed.

Lemma decode_write_inv growth m0 buf ts : decode_write (F:=F) growth m0 buf = inr ts →
  ∃ m, Pb.WriteRequest_Unmarshal growth (Pb.WriteRequest_Reset m0) buf = Ok m ∧
    ts = view_TimeSeries <$> Pb.items (Pb.w_Timeseries m).
Proof. unfold decode_write. destruct (Pb.WriteRequest_Unmarshal _ _ _) as [m|e|p]; [|done..]. intros [= <-]. by exists m. Qed.

Lemma marshalled_request growth m0 buf (m sent : Pb.WriteRequest (F:=F)) :
  Pb.WriteRequest_Unmarshal growth (Pb.WriteRequest_Reset m0) buf = Ok m →
  Pb.WriteRequest_wf sent → fits (Pb.enc_WriteRequest sent) → Pb.WriteRequest_Marshal sent = Ok buf →
  m ≡ Pb.canon_WriteRequest sent.
Proof.
  intros Hm Hwf Hf Hb. destruct (Pb.WriteRequest_Marshal_ok sent Hf) as [Hb' _]. rewrite Hb in Hb'. injection Hb' as ->.
  destruct (Pb.WriteRequest_read growth m0 sent Hwf Hf) as (m' & Hu & Hc). rewrite Hm in Hu. by injection Hu as ->.
Qed.

Lemma decode_read_ok req buf :
  Pb.ReadRequest_wf req → fits (Pb.enc_ReadRequest req) → Pb.ReadRequest_Marshal req = Ok buf → decode_read buf = inr req.
Proof.
  intros Hwf Hf Hm. destruct (Pb.ReadRequest_Marshal_ok req) as [Hm' _]; [apply Hwf|done|]. rewrite Hm in Hm'. injection Hm' as ->.
  unfold decode_read. by rewrite Pb.ReadRequest_read.
Qed.

End lemmas.

(** ** Remote write *)

Section write.
Context {F D C : Type} `{GoSort} `{MC.MetricCacheLaws C} `{Pb.Float64Laws F}.
Context (conn : Ins.Conn F D) (v : Ins.DbView D) (asyncAcks : bool) (numCopiers : nat).
Context (Hlaws : Ins.ConnLaws conn v).
Notation world := (Pipe.world (F:=F) (D:=D) (C:=C)).
Context (InsertNewData : world → gmap string (list (Smp.samplesInfo F)) → world * (nat * option goerror)).
Context (HInsert : ∀ w data, Pipe.inv v asyncAcks w → Forall Pipe.data_good (map_to_list data) →
  Wp.inserted conn asyncAcks numCopiers w data (InsertNewData w data).1 (InsertNewData w data).2).
Context {E : Type} `{Elect.ElectionOps E} (snappy_Decode : bytes → goerror + bytes) (growth : nat → nat).

Notation handler := (λ req, Api.Write snappy_Decode (decode_write growth req) (Wp.ingest InsertNewData)).

Lemma view_count (l : list (Pb.TimeSeries (F:=F))) :
  Api.sample_count (view_TimeSeries <$> l) = sum_list_nat ((λ t, length (Pb.items (Pb.t_Samples t))) <$> l).
Proof.
  unfold Api.sample_count. rewrite <-list_fmap_compose. f_equal. apply list_fmap_ext. intros _ t _. simpl.
  by rewrite length_fmap.
Qed.

(** The sample [s] of the series [t] has a row under the metric and the label set that the
    series names. *)
Definition stored (w : world) (t : Pb.TimeSeries (F:=F)) (s : Pb.Sample (F:=F)) : Prop :=
  Wp.stored v (Pipe.w_db w) (view_TimeSeries t) (view_Sample s).

(** C1. Remote write, end to end.  When an instance that leads and acknowledges
    synchronously answers a request with 200, whatever the pool handed out for it, the
    body is the snappy encoding of a write request: every sample of every series of this
    message has a row in the table of the metric the series names, under the id its label
    set has in the database, or under an id that a transaction whose COMMIT failed had
    answered for this label set ([Wp.stored]; there is none where the COMMITs of the
    connection succeed, [Ins.laws_nothing_lost]).  Exactly these samples are counted as
    sent, and the state is fit for the next request.  The message is the one the client
    marshalled, its negative zeros apart. *)
Theorem remote_write_stored (m0 : Pb.WriteRequest (F:=F)) r_body now (st st' : Api.writer_state)
    (el : option (Elect.Elector E)) resp :
  asyncAcks = false → Pipe.inv v asyncAcks (Api.w_db st).1 → Lbl.interner_ok (Api.w_db st).2 →
  Elect.isWriter (Api.w_elector st) = Some (el, true, None) →
  handler m0 r_body now st = Some (st', resp) → Api.status resp = 200%Z →
  Pipe.inv v asyncAcks (Api.w_db st').1 ∧ Lbl.interner_ok (Api.w_db st').2 ∧
  ∃ compressed buf m, r_body = inr compressed ∧ snappy_Decode compressed = inr buf ∧
    Pb.WriteRequest_Unmarshal growth (Pb.WriteRequest_Reset m0) buf = Ok m ∧
    (Api.SentSamples (Api.w_metrics st') = Api.SentSamples (Api.w_metrics st) +
      Z.of_nat (sum_list_nat ((λ t, length (Pb.items (Pb.t_Samples t))) <$> Pb.items (Pb.w_Timeseries m))))%Z ∧
    (∀ t s, t ∈ Pb.items (Pb.w_Timeseries m) → s ∈ Pb.items (Pb.t_Samples t) → stored (Api.w_db st').1 t s) ∧
    ∀ sent, Pb.WriteRequest_wf sent → fits (Pb.enc_WriteRequest sent) → Pb.WriteRequest_Marshal sent = Ok buf →
      m ≡ Pb.canon_WriteRequest sent.
Proof.
  intros Hsync Hinv Hok Hw. unfold Api.Write. rewrite Hw. cbn [negb].
  destruct (Api.write_samples _ _ _ _ _ _ _) as [[metrics db] r] eqn:Hr. intros [= <- <-] H200.
  eapply Wp.write_samples_stored in Hr as (Hinv' & Hok' & c & buf & ts & -> & Hd & Hu & Hsent & Hst); [|done..].
  apply decode_write_inv in Hu as (m & Hm & ->). simpl. split_and!; [done..|].
  exists c, buf, m. split_and!; [done..|by rewrite Hsent, view_count| |].
  - intros t s Ht Hs. apply Hst; by apply list_elem_of_fmap_2.
  - intros sent Hwf Hf Hb. by eapply marshalled_request.
Qed.

End write.

(** ** Remote read *)

Section read.
Context {F D C : Type} `{GoSort} `{MC.MetricCacheOps C} `{Pb.Float64Laws F}.
Context (conn : Rd.QConn (F:=F) (D:=D)) (Sanitize : list string → string) (ExtensionIsInstalled : bool).
Context (conc : nat → nat → list nat) (scan_plain : SS.data_row F → res (list Z * list Z * list F)).
Context (NewMatcher : Lbl.MatchType → string → string → res Lbl.Matcher).
Context (snappy_Decode : bytes → goerror + bytes) (snappy_Encode : bytes → bytes).
Context (conn_Write : bytes → option goerror).
Notation querier := (Rd.pgxQuerier (D:=D) (C:=C)).

(** [DBReader.Read] on a decoded message. *)
Definition Read (q : querier) (req : Pb.ReadRequest) : querier * res (option (list (list (Smp.TimeSeries F)))) :=
  Rd.Read conn Sanitize ExtensionIsInstalled conc scan_plain NewMatcher q
    (Some ((λ query, Some (view_Query query)) <$> Pb.r_Queries req)).

Definition read_handler : goerror + bytes → Api.Metrics → querier → Api.Metrics * querier * Api.response :=
  Api.Read snappy_Decode snappy_Encode decode_read (λ req, length (Pb.r_Queries req)) encode_read
    (λ q req, let '(q, r) := Read q req in (q, to_sum r)) conn_Write.

(** *** What the reader gives *)

Lemma toMilis_int64 t : in_int64 (QB.toMilis t).
Proof.
  unfold QB.toMilis. pose proof (wrap64_range t) as Hr. unfold in_int64, min_int64, max_int64 in *.
  pose proof (Z.quot_le_mono (wrap64 t) (2 ^ 63 - 1)%Z 1000000%Z ltac:(lia) ltac:(lia)) as Hu.
  pose proof (Z.quot_le_mono (- 2 ^ 63)%Z (wrap64 t) 1000000%Z ltac:(lia) ltac:(lia)) as Hl.
  change (Z.quot (2 ^ 63 - 1) 1000000)%Z with 9223372036854%Z in Hu.
  change (Z.quot (- 2 ^ 63) 1000000)%Z with (-9223372036854)%Z in Hl. lia.
Qed.

Lemma row_samples_ok times values : Forall (λ s, in_int64 (Smp.s_Timestamp s)) (Rd.row_samples (F:=F) times values).
Proof.
  revert values. induction times as [|t times IH]; intros [|x values]; try apply Forall_nil_2.
  apply Forall_cons. split; [apply toMilis_int64|apply IH].
Qed.

Lemma build_loop_series scans (q q' : querier) l : Rd.build_loop conn conc scan_plain q scans = (q', Ok l) → Forall series_ok l.
Proof.
  revert q q' l. induction scans as [|scan scans IH]; intros q q' l; cbn [Rd.build_loop]; [by intros [= _ <-]|].
  destruct (let* row := scan in scan_plain row) as [[[ids times] values]|e|p]; [|done..]. case_match; [done|].
  destruct (Rd.q_getPrompbLabelsForIds conn conc q ids) as [q1 [ls|e|p]]; [|done..].
  destruct (Rd.build_loop conn conc scan_plain q1 scans) as [q2 [k|e|p]] eqn:Hb; [|done..].
  intros [= <- <-]. apply Forall_cons. split; [apply row_samples_ok|by eapply IH].
Qed.

Lemma build_all_series rows (q q' : querier) l : Rd.build_all conn conc scan_plain q rows = (q', Ok l) → Forall series_ok l.
Proof.
  revert q q' l. induction rows as [|r rows IH]; intros q q' l; cbn [Rd.build_all]; [by intros [= _ <-]|].
  unfold Rd.buildTimeSeries. destruct (Rd.build_loop conn conc scan_plain q (MC.row_scans r)) as [q1 [ts|e|p]] eqn:Hb; [|done..].
  cbn [res_bind]. destruct (MC.row_Err r); [done|].
  destruct (Rd.build_all conn conc scan_plain q1 rows) as [q2 [k|e|p]] eqn:Ha; [|done..].
  intros [= <- <-]. apply Forall_app. split; [by eapply build_loop_series|by eapply IH].
Qed.

Lemma query_series (q : querier) query q' l :
  Rd.Query conn Sanitize ExtensionIsInstalled conc scan_plain NewMatcher q query = (q', Ok l) → Forall series_ok l.
Proof.
  unfold Rd.Query. destruct query as [query|]; [|by intros [= _ <-]].
  destruct (Lbl.FromLabelMatchers _ _) as [ms|e|p]; [|done..].
  destruct (Rd.getResultRows _ _ _ _ _ _ _ _ _) as [q1 [[rows top]|e|p]]; [|done..]. apply build_all_series.
Qed.

Lemma Read_results q req q' results :
  Read q req = (q', Ok results) →
  ∃ l, results = Some l ∧ length l = length (Pb.r_Queries req) ∧ Forall (Forall series_ok) l.
Proof.
  unfold Read, Rd.Read. generalize (Pb.r_Queries req) as queries. clear req. intros queries.
  destruct (Rd.read_loop _ _ _ _ _ _ q _) as [q1 [l|e|p]] eqn:Hl; [|done..]. intros [= -> <-]. exists l. split; [done|].
  revert q q' l Hl. induction queries as [|query queries IH]; intros q q' l; cbn [fmap list_fmap Rd.read_loop].
  { by intros [= _ <-]. }
  destruct (Rd.Query _ _ _ _ _ _ q _) as [q1 [tts|e|p]] eqn:Hq; [|done..].
  destruct (Rd.read_loop _ _ _ _ _ _ q1 _) as [q2 [k|e|p]] eqn:Hk; [|done..]. intros [= <- <-].
  apply IH in Hk as [Hlen Hok]. apply query_series in Hq. simpl. split; [by rewrite Hlen|by constructor].
Qed.

(** C2. Remote read, end to end: a client marshals a request.  The reader runs exactly the
    queries of the client's message.  With its results, one per query, the handler sends a
    body that the client decompresses and unmarshals to these results, in order, with
    the labels and samples of every series, a negative zero being positive; an error
    of the reader, or of the connection, is a 500 without a body, counted as failed. *)
Theorem remote_read_answers growth req buf compressed metrics q metrics' q' resp :
  Pb.ReadRequest_wf req → fits (Pb.enc_ReadRequest req) → Pb.ReadRequest_Marshal req = Ok buf →
  snappy_Decode compressed = inr buf →
  (∀ results, (Read q req).2 = Ok (Some results) → fits (Pb.enc_ReadResponse (to_ReadResponse results))) →
  read_handler (inr compressed) metrics q = (metrics', q', resp) →
  q' = (Read q req).1 ∧
  Api.ReceivedQueries metrics' = (Api.ReceivedQueries metrics + Z.of_nat (length (Pb.r_Queries req)))%Z ∧
  match (Read q req).2 with
  | Ok results => ∃ l data answer,
      results = Some l ∧ length l = length (Pb.r_Queries req) ∧
      resp = match conn_Write (snappy_Encode data) with
             | None => Api.MkResp 200 false (Api.BBytes (snappy_Encode data))
             | Some err => Api.http_Error err 500
             end ∧
      Pb.ReadResponse_Unmarshal growth Pb.ReadResponse_zero data = Ok answer ∧
      view_ReadResponse answer = (λ tts : list (Smp.TimeSeries F), wire_series <$> tts) <$> l
  | Err err => resp = Api.http_Error err 500 ∧
      Api.FailedQueries metrics' = (Api.FailedQueries metrics + Z.of_nat (length (Pb.r_Queries req)))%Z
  | Panic _ => True
  end.
Proof.
  intros Hwf Hf Hm Hs Hfits. unfold read_handler, Api.Read. rewrite Hs, (decode_read_ok req buf) by done. cbv zeta.
  destruct (Read q req) as [q1 [results|e|p]] eqn:Hr; simpl in *.
  - destruct (Read_results _ _ _ _ Hr) as (l & -> & Hlen & Hok). specialize (Hfits l eq_refl). simpl.
    destruct (Pb.ReadResponse_Marshal_ok _ Hfits) as [-> _]. simpl.
    destruct (Pb.ReadResponse_read growth _ (to_ReadResponse_wf l Hok) Hfits) as (answer & Hu & Ha).
    intros Hh. assert (q' = q1 ∧ Api.ReceivedQueries metrics' =
      (Api.ReceivedQueries metrics + Z.of_nat (length (Pb.r_Queries req)))%Z) as [-> Hrec]
      by (destruct (conn_Write _); injection Hh as <- <- <-; done).
    split_and!; [done|done|]. exists l, (Pb.enc_ReadResponse (to_ReadResponse l)), answer.
    split_and!; [done|done|by (destruct (conn_Write _); simplify_eq)|done|by apply view_answer].
  - intros [= <- <- <-]. done.
  - intros [= <- <- <-]. done.
Qed.

End read.

(** ** Concrete runs: a request that a client marshals and one that it reads *)

Module Toy.
#[local] Existing Instances Pipe.ex_cache_ops Pipe.ex_cache_laws.
Import Elect Pb.

Definition empty_world : Pipe.world (F:=word64) := Pipe.init Pipe.ex_db0 Pipe.ex_names.
Definition insert (w : Pipe.world (F:=word64)) data :=
  default (w, (0, None)) (Wp.InsertNewData Pipe.ex_conn false 1 (λ _ _, 0) w data).

Lemma insert_inserted w data :
  Pipe.inv Pipe.ex_view false w → Forall Pipe.data_good (map_to_list data) →
  Wp.inserted Pipe.ex_conn false 1 w data (insert w data).1 (insert w data).2.
Proof.
  intros Hinv Hd.
  destruct (Wp.InsertNewData_inserted Pipe.ex_conn Pipe.ex_view false 1 Pipe.ex_conn_laws (λ _ _, 0) w data Hinv ltac:(lia) Hd)
    as (w' & r & He & Hi & _). unfold insert. by rewrite He.
Qed.

Definition state0 := Api.MkWriter (E:=Elect.RestElection) None Api.Toy.toy_metrics (empty_world, ∅ : gmap string Lbl.Labels).
(** Bodies are not compressed here. *)
Definition body : bytes := enc_WriteRequest ex_write.
Definition run_write (req : WriteRequest) (d : bytes) :=
  Api.Write inr (decode_write (λ n, n) req) (Wp.ingest insert) (inr d) 5 state0.

Example run_write_rows :
  (λ r, (Api.status r.2, Pipe.ex_rows (Pipe.w_db (Api.w_db r.1).1))) <$> run_write ex_used body =
  Some (200%Z, [("up"%string, 300, 1); ("up"%string, -1, 1)]%Z).
Proof. vm_compute. reflexivity. Qed.

(** A body that is not a message is refused. *)
Example run_write_malformed :
  (λ r, (Api.status r.2, Pipe.ex_rows (Pipe.w_db (Api.w_db r.1).1))) <$> run_write ex_used (take 20 body) = Some (400%Z, []).
Proof. vm_compute. reflexivity. Qed.

Lemma body_ok : fits (enc_WriteRequest ex_write).
Proof. by vm_compute. Qed.

Lemma body_marshalled : WriteRequest_Marshal ex_write = Ok body.
Proof. by apply WriteRequest_Marshal_ok, body_ok. Qed.

Lemma empty_inv : Pipe.inv Pipe.ex_view false empty_world.
Proof. apply Pipe.init_inv, Pipe.ex_coherent. Qed.

Lemma remote_write_stored_witness :
  ∃ st' r m, run_write ex_used body = Some (st', r) ∧ m ≡ canon_WriteRequest ex_write ∧
    ∀ (t : TimeSeries) (s : Sample (F:=word64)), t ∈ items (w_Timeseries m) → s ∈ items (t_Samples t) →
      stored Pipe.ex_view (Api.w_db st').1 t s.
Proof.
  assert ((λ r, Api.status r.2) <$> run_write ex_used body = Some 200%Z) as Hs by (vm_compute; reflexivity).
  destruct (run_write ex_used body) as [[st' r]|] eqn:He; [|done]. injection Hs as Hs.
  destruct (remote_write_stored Pipe.ex_conn Pipe.ex_view false 1 Pipe.ex_conn_laws insert insert_inserted inr (λ n, n)
    ex_used (inr body) 5 state0 st' None r) as (_ & _ & c & buf & m & [= <-] & [= <-] & _ & _ & Hall & Hm);
    [done|exact empty_inv|exact Lbl.interner_ok_empty|done|exact He|exact Hs|].
  exists st', r, m. split; [done|]. split; [|exact Hall]. apply (Hm ex_write ex_write_wf body_ok body_marshalled).
Defined.

Definition scan_plain (r : SS.data_row word64) : res (list Z * list Z * list word64) :=
  let '(ids, ts, vs) := r in
  Ok (ids, (λ t, match SS.te_Time t with SS.Finite ns => ns | _ => 0%Z end) <$> ts, SS.ve_Float <$> vs).
Definition conn : Rd.QConn (F:=word64) (D:=unit) := {|
  Rd.qc_health d := (d, None);
  Rd.qc_series d _ _ := (d, Ok (MC.MkRows [] None));
  Rd.qc_data d _ _ := (d, (MC.MkRows [Ok ([3; 1]%Z, [SS.MkTime true (SS.Finite 5000000)],
    [SS.MkVal true ex_minus_zero])] None, None));
  Rd.qc_table d _ := (d, Ok (MC.MkRows [Ok "up_t"%string] None));
  Rd.qc_labels := LR.ex_labels_query;
  Rd.qc_labelNames d := (d, Ok (MC.MkRows [] None));
  Rd.qc_labelValues d _ := (d, Ok (MC.MkRows [] None));
|}.
Definition reader0 : Rd.pgxQuerier (D:=unit) (C:=MC.MetricNameCache) := Rd.MkQuerier () (Clock.WithMax 2) LR.ex_cache.
Definition new_matcher (t : Lbl.MatchType) (n val : string) : res Lbl.Matcher := Ok (Lbl.MkMatcher t n val (λ _, true)).
Definition run_read (d : bytes) :=
  read_handler conn (λ _, "t"%string) false (λ _, Clock.quiet) scan_plain new_matcher inr (λ d, d) (λ _, None)
    (inr d) Api.Toy.toy_metrics reader0.

Definition request : bytes := enc_ReadRequest ex_read.
Definition result : list (list (Smp.TimeSeries word64)) :=
  [[Smp.MkTS [Lbl.MkLabel "host" "h"; Lbl.MkLabel "job" "a"] [Smp.MkSample ex_minus_zero 5]]].

Lemma reader_result : (Read conn (λ _, "t"%string) false (λ _, Clock.quiet) scan_plain new_matcher reader0 ex_read).2 = Ok (Some result).
Proof. vm_compute. reflexivity. Qed.

(** The value the database holds is a negative zero; the answer has a positive one. *)
Lemma remote_read_answers_witness :
  ∃ data answer, (run_read request).2 = Api.MkResp 200 false (Api.BBytes data) ∧
    ReadResponse_Unmarshal (λ n, n) ReadResponse_zero data = Ok answer ∧
    view_ReadResponse answer =
      [[Smp.MkTS [Lbl.MkLabel "host" "h"; Lbl.MkLabel "job" "a"] [Smp.MkSample (word_of 0) 5]]].
Proof.
  destruct (run_read request) as [[metrics q'] resp] eqn:He.
  destruct (remote_read_answers conn (λ _, "t"%string) false (λ _, Clock.quiet) scan_plain new_matcher inr (λ d, d) (λ _, None)
    (λ n, n) ex_read request request Api.Toy.toy_metrics reader0 metrics q' resp) as (_ & _ & Hr);
    [exact ex_read_wf|by vm_compute|apply ReadRequest_Marshal_ok; [exact ex_read_types|by vm_compute]|done| |exact He|].
  { intros results Hres. rewrite reader_result in Hres. injection Hres as <-. by vm_compute. }
  rewrite reader_result in Hr. destruct Hr as (l & data & answer & [= <-] & _ & Hresp & Hu & Ha).
  exists data, answer. split; [exact Hresp|]. split; [exact Hu|]. rewrite Ha. vm_compute. reflexivity.
Defined.

End Toy.

End Remote.
