(* ===== verification/Shutdown.v ===== *)
(** * Closing the inserter, and its throughput report

    [pgxInserter.Close] of [src/pkg/pgmodel/sql_ingest.go], which [DBIngestor.Close] and
    [Client.Close] only pass on, and the goroutine that reports the throughput.  Closing
    is a few steps that interleave with those of the goroutines of [Pipeline]; each
    goroutine ends when its channel is closed and empty. *)
From S2P Require Import Prelude Labels MetricCache SampleIter SeriesIds Inserter Pipeline WritePath.

Module Shut.
Import Smp Sid Ins Pipe Wp.

Section shutdown.
Context {F D C : Type} `{GoSort} `{MC.MetricCacheOps C}.
Context (conn : Conn F D) (asyncAcks : bool) (numCopiers : nat).
Notation world := (Pipe.world (F:=F) (D:=D) (C:=C)).
Notation inserter := (Pipe.inserter (F:=F)).

(** How far [Close] has come: the signal channel is closed and [Range] walks the
    channels of the metrics, or the channel of the copiers is closed too. *)
Inductive closing :=
  | Open
  | Ranging (keys visited : gset string)
  | Closed.
#[global] Instance closing_eq_dec : EqDecision closing.
Proof. solve_decision. Defined.

(** [p_worker]: [runCompleteMetricCreationWorker] runs; [p_exited]: the copiers that
    have returned. *)
Record process := MkProc {
  p_world : world;
  p_closing : closing;
  p_worker : bool;
  p_exited : nat;
}.

Definition start (w : world) : process := MkProc w Open true 0.

Definition set_inserters (w : world) (ins : gmap string inserter) : world :=
  MkWorld (w_db w) (w_calls w) (w_frames w) ins (w_copy w) (w_copying w) (w_names w)
    (w_signal w) (w_inserted w).

(** ** The steps of [Close]

    [close(p.completeMetricCreation)] and the start of [Range]. *)
Definition Close (s : process) : option (res process) :=
  match p_closing s with
  | Open => Some (Ok (MkProc (p_world s) (Ranging (dom (w_inserters (p_world s))) ∅) (p_worker s) (p_exited s)))
  | _ => Some (Panic "close of closed channel")
  end.

(** The function given to [Range].  A key is visited at most once, in any order; a key
    that was added meanwhile may be. *)
Definition close_inserter (m : string) (s : process) : option (res process) :=
  match p_closing s, w_inserters (p_world s) !! m with
  | Ranging keys visited, Some (MkInserter (MkChan q cl) r) =>
      if decide (m ∈ visited) then None
      else if cl : bool then Some (Panic "close of closed channel")
      else Some (Ok (MkProc
             (set_inserters (p_world s) (<[m := MkInserter (MkChan q true) r]> (w_inserters (p_world s))))
             (Ranging keys ({[m]} ∪ visited)) (p_worker s) (p_exited s)))
  | _, _ => None
  end.

(** [close(p.toCopiers)], once [Range] has visited every key there was at its start. *)
Definition close_toCopiers (s : process) : option (res process) :=
  match p_closing s with
  | Ranging keys visited =>
      if decide (keys ⊆ visited) then Some (Ok (MkProc (p_world s) Closed (p_worker s) (p_exited s))) else None
  | _ => None
  end.

(** [DBIngestor.Close] and [Client.Close] pass the call on. *)
Definition DBIngestor_Close (s : process) : option (res process) := Close s.
Definition Client_Close (s : process) : option (res process) := DBIngestor_Close s.

(** ** The goroutines meanwhile

    A routine that is blocked in a send is before the receive of its turn, so that a send
    that was already waiting when the channel is closed is not among the runs here. *)

(** The next turn of the routine of [m] sends to the copiers. *)
Definition sends (m : string) (w : world) : bool :=
  match w_inserters w !! m with
  | Some (MkInserter ch (RLoop h hot)) =>
      match routine_turn conn (MkShared (w_db w) (w_calls w) []) h hot ch with
      | Some (Ok (s, _, _)) => match sh_copiers s with [] => false | _ => true end
      | _ => false
      end
  | _ => false
  end.

(** The routine of [m] begins with a send on the signal channel. *)
Definition signals (m : string) (w : world) : bool :=
  match w_inserters w !! m with
  | Some (MkInserter _ (RStart errTo)) =>
      match routine_start conn (w_db w) (w_calls w) (w_names w) false m errTo with
      | Ok (_, _, _, signal, _) => signal
      | _ => false
      end
  | _ => false
  end.

Definition lift (s : process) (r : option (res world)) : option (res process) :=
  (λ r, let* w := r in Ok (MkProc w (p_closing s) (p_worker s) (p_exited s))) <$> r.

(** A step of [Pipeline].  A send on a closed channel panics, in a [select] too. *)
Definition run_step (a : action) (s : process) : option (res process) :=
  let go := lift s (exec conn asyncAcks numCopiers a (p_world s)) in
  match a with
  | ATurn m =>
      if bool_decide (p_closing s = Closed) && sends m (p_world s)
      then Some (Panic "send on closed channel") else go
  | ABegin m =>
      if negb (bool_decide (p_closing s = Open)) && signals m (p_world s)
      then Some (Panic "send on closed channel") else go
  | ASignal => if p_worker s then go else None
  | AReceive => if bool_decide (length (w_copying (p_world s)) + p_exited s < numCopiers) then go else None
  | _ => go
  end.

(** [runCompleteMetricCreationWorker] leaves its loop. *)
Definition worker_exit (s : process) : option (res process) :=
  if negb (bool_decide (p_closing s = Open)) && p_worker s && negb (w_signal (p_world s))
  then Some (Ok (MkProc (p_world s) (p_closing s) false (p_exited s))) else None.

(** A copier that waits returns. *)
Definition copier_exit (s : process) : option (res process) :=
  if bool_decide (p_closing s = Closed) && bool_decide (length (w_copying (p_world s)) + p_exited s < numCopiers)
  then match w_copy (p_world s) with
       | [] => Some (Ok (MkProc (p_world s) Closed (p_worker s) (S (p_exited s))))
       | _ => None
       end
  else None.

Inductive paction :=
  | PRun (a : action (F:=F))
  | PClose
  | PVisit (m : string)
  | PCloseCopiers
  | PWorkerExit
  | PCopierExit.

Definition pexec (a : paction) (s : process) : option (res process) :=
  match a with
  | PRun a => run_step a s
  | PClose => Client_Close s
  | PVisit m => close_inserter m s
  | PCloseCopiers => close_toCopiers s
  | PWorkerExit => worker_exit s
  | PCopierExit => copier_exit s
  end.

Fixpoint prun (acts : list paction) (s : process) : option (res process) :=
  match acts with
  | [] => Some (Ok s)
  | a :: acts =>
      match pexec a s with
      | Some (Ok s) => prun acts s
      | r => r
      end
  end.

(** ** The throughput report

    One tick of the goroutine: the counter is swapped for zero, and the line shows the
    rate.  The goroutine exists when acknowledgements are asynchronous and the interval
    is positive. *)
Definition report (ReportInterval : Z) (w : world) : option (world * Z * Z) :=
  if asyncAcks && (0 <? ReportInterval)%Z then
    let inserted := wrap64 (w_inserted w) in
    Some (MkWorld (w_db w) (w_calls w) (w_frames w) (w_inserters w) (w_copy w) (w_copying w)
            (w_names w) (w_signal w) 0, inserted, (inserted ÷ ReportInterval)%Z)
  else None.

(** A run of the pipeline with ticks in between, with what each tick swapped out and
    the rate it showed. *)
Fixpoint reported (ReportInterval : Z) (acts : list (option (action (F:=F)))) (w : world)
    : option (world * list (Z * Z)) :=
  match acts with
  | [] => Some (w, [])
  | Some a :: acts =>
      match exec conn asyncAcks numCopiers a w with
      | Some (Ok w) => reported ReportInterval acts w
      | _ => None
      end
  | None :: acts =>
      '(w, n, rate) ← report ReportInterval w;
      '(w, l) ← reported ReportInterval acts w;
      Some (w, (n, rate) :: l)
  end.

End shutdown.
Arguments paction : clear implicits.

(** ** The report counts every sample once *)

Section throughput.
Context {F D C : Type} `{GoSort} `{MC.MetricCacheOps C}.
Context (conn : Conn F D) (numCopiers : nat).
Notation world := (Pipe.world (F:=F) (D:=D) (C:=C)).

(** The samples of the calls whose wait ended without an error. *)
Definition frame_counted (f : frame (F:=F)) : nat :=
  match f_waited f with Some None => numRows f | _ => 0 end.
Definition counted (w : world) : nat := sum_list_nat (frame_counted <$> w_frames w).

(** What was swapped out is a list of integers. *)
Definition sum_Z (l : list Z) : Z := foldr Z.add 0%Z l.

Lemma counted_update (w : world) c f f' :
  w_frames w !! c = Some f → frame_counted f = 0 →
  sum_list_nat (frame_counted <$> <[c := f']> (w_frames w)) = counted w + frame_counted f'.
Proof.
  intros Hf Hz. pose proof (sum_fmap_update frame_counted _ _ _ f' Hf) as Hs.
  rewrite Hz, Nat.add_0_r in Hs. exact Hs.
Qed.

Lemma frame_counted_waited rows todo waited result result' :
  frame_counted (MkFrame rows todo waited result) = frame_counted (MkFrame rows todo waited result').
Proof. done. Qed.

(** The counter moves exactly with the calls that end. *)
Lemma exec_counted a (w w' : world) :
  exec conn true numCopiers a w = Some (Ok w') →
  (w_inserted w' - w_inserted w = Z.of_nat (counted w') - Z.of_nat (counted w))%Z.
Proof.
  intros He.
  assert (w_frames w' = w_frames w ∧ w_inserted w' = w_inserted w →
    (w_inserted w' - w_inserted w = Z.of_nat (counted w') - Z.of_nat (counted w))%Z) as Hsame.
  { unfold counted. intros [-> ->]. lia. }
  destruct a as [rows|c|c|c|m|m| |i|]; cbn [exec] in He.
  - unfold InsertData in He. case_decide; [|done]. injection He as <-. unfold counted. simpl.
    rewrite sum_fmap_app, sum_fmap_cons. change (frame_counted _) with 0. simpl. lia.
  - unfold insertMetricData in He. destruct (w_frames w !! c) as [[rows [|[metric data] todo] waited r]|] eqn:Hc; [done| |done].
    destruct (getMetricInserter _ _ _ !! metric) as [[[q []] rt]|]; [done| |done]. case_bool_decide; [|done].
    injection He as <-. unfold counted. simpl.
    pose proof (sum_fmap_update frame_counted _ _ _ (MkFrame rows todo waited r) Hc) as Hs.
    unfold frame_counted at 2 4 in Hs. simpl in Hs.
    change (numRows (MkFrame rows ((metric, data) :: todo) waited r)) with (numRows (MkFrame rows todo waited r)) in Hs.
    destruct waited as [[]|]; lia.
  - unfold wait_finished in He. destruct (w_frames w !! c) as [[rows [|] [|] r]|] eqn:Hc; try done.
    destruct (w_calls w !! c) as [[[] e cl]|]; try done. injection He as <-. unfold counted at 1. simpl.
    rewrite (counted_update w c _ _ Hc) by done. unfold frame_counted. simpl.
    case_bool_decide as Hb; [subst e|destruct e; [|done]]; simpl; [|lia].
    change (numRows (MkFrame rows [] (Some None) r)) with (numRows (MkFrame rows [] None r)). lia.
  - unfold return_async in He. destruct (w_frames w !! c) as [[rows [|] waited [|]]|] eqn:Hc; try done.
    injection He as <-. unfold counted. simpl.
    match goal with |- context [<[c := ?f]> _] => pose proof (sum_fmap_update frame_counted _ _ _ f Hc) as Hs end.
    unfold frame_counted at 2 4 in Hs. simpl in Hs. destruct waited as [[]|]; cbn in *; lia.
  - unfold routine_begin in He. destruct (w_inserters w !! m) as [[ch []]|]; try done. injection He as He. inv_res He.
    destruct a as [[[[d cs] names] signal] o]. injection He as <-. by apply Hsame.
  - unfold routine_step in He. destruct (w_inserters w !! m) as [[ch []]|]; try done.
    + destruct (routine_turn _ _ _ _ _) as [[[[s ch'] o]| |]|]; try done. case_bool_decide; [|done].
      injection He as <-. by apply Hsame.
    + destruct ch as [[|req q] cl]; [destruct cl; [|done]; injection He as <-; by apply Hsame|].
      injection He as He. inv_res He. injection He as <-. by apply Hsame.
  - unfold copier_receive in He. destruct (w_copy w); [done|]. case_bool_decide; [|done]. injection He as <-. by apply Hsame.
  - unfold copier_insert in He. destruct (w_copying w !! i); [|done]. injection He as He. inv_res He.
    destruct a as [[d cs] p]. injection He as <-. by apply Hsame.
  - unfold complete_metric_creation in He. destruct (w_signal w); [|done]. injection He as <-. by apply Hsame.
Qed.

Lemma exec_inserted_mono a (w w' : world) :
  exec conn true numCopiers a w = Some (Ok w') → (w_inserted w ≤ w_inserted w')%Z.
Proof.
  intros He. destruct a as [rows|c|c|c|m|m| |i|]; cbn [exec] in He;
    repeat (first [progress unfold InsertData, insertMetricData, wait_finished, return_async, routine_begin, routine_step,
      copier_receive, copier_insert, complete_metric_creation in He | progress case_match | case_decide]);
    simplify_eq; simpl; try lia; try (inv_res He; repeat case_match; simplify_eq; simpl; lia).
Qed.

Lemma reported_counted_mono interval acts (w w' : world) l :
  reported conn true numCopiers interval acts w = Some (w', l) → counted w ≤ counted w'.
Proof.
  revert w l. induction acts as [|[a|] acts IH]; intros w l Hrun; cbn in Hrun; [by simplify_eq| |].
  - destruct (exec conn true numCopiers a w) as [[w1|e|m]|] eqn:He; [|done..].
    pose proof (exec_counted _ _ _ He). pose proof (exec_inserted_mono _ _ _ He).
    specialize (IH _ _ Hrun). lia.
  - unfold report in Hrun. simpl in Hrun. case_match; [|done]. simpl in Hrun.
    destruct (reported _ _ _ _ acts _) as [[w2 l2]|] eqn:Hr; [|done]. simplify_eq/=. by apply IH in Hr.
Qed.

(** What the ticks swapped out, with what is left in the counter, is what was left at
    the start and the samples of the calls that ended meanwhile; a line shows a rate
    rounded towards zero. *)
Lemma report_counts_once interval acts (w w' : world) l :
  reported conn true numCopiers interval acts w = Some (w', l) →
  (0 ≤ w_inserted w ≤ Z.of_nat (counted w) ∧ Z.of_nat (counted w') ≤ max_int64)%Z →
  (sum_Z l.*1 + w_inserted w' = w_inserted w + Z.of_nat (counted w') - Z.of_nat (counted w))%Z ∧
  Forall (λ p, p.2 = (p.1 ÷ interval)%Z) l.
Proof.
  revert w l. induction acts as [|[a|] acts IH]; intros w l Hrun Hb; cbn in Hrun.
  - injection Hrun as <- <-. simpl. split; [lia|constructor].
  - destruct (exec conn true numCopiers a w) as [[w1|e|m]|] eqn:He; [|done..].
    pose proof (exec_counted _ _ _ He). pose proof (exec_inserted_mono _ _ _ He).
    destruct (IH w1 l Hrun) as [Hsum Hall]; [lia|]. split; [lia|done].
  - unfold report in Hrun. simpl in Hrun. case_match; [|done]. simpl in Hrun.
    destruct (reported _ _ _ _ acts _) as [[w2 l2]|] eqn:Hr; [|done]. simplify_eq/=.
    pose proof (reported_counted_mono _ _ _ _ _ Hr) as Hle.
    match type of Hr with reported _ _ _ _ _ ?w1 = _ => change (counted w1) with (counted w) in * end.
    destruct (IH _ _ Hr) as [Hsum Hall].
    { simpl. match goal with |- context [counted ?w1] => change (counted w1) with (counted w) end. lia. }
    rewrite wrap64_id by (unfold in_int64, min_int64; lia). simpl in Hsum.
    match type of Hsum with context [counted (MkWorld ?a ?b ?c ?d ?e ?f ?g ?h ?i)] =>
      change (counted (MkWorld a b c d e f g h i)) with (counted w) in Hsum end.
    split; [lia|]. by constructor.
Qed.

End throughput.

(** ** Closing a pipeline at rest *)

Section closing.
Context {F D C : Type} `{GoSort} `{MC.MetricCacheLaws C}.
Context (conn : Conn F D) (v : DbView D) (asyncAcks : bool) (numCopiers : nat).
Context (Hlaws : ConnLaws conn v).
Notation world := (Pipe.world (F:=F) (D:=D) (C:=C)).
Notation process := (process (F:=F) (D:=D) (C:=C)).
Notation paction := (paction F).
Notation inv := (Pipe.inv v asyncAcks).
Notation exec := (Pipe.exec conn asyncAcks numCopiers).
Notation run := (Pipe.run conn asyncAcks numCopiers).
Notation pexec := (pexec conn asyncAcks numCopiers).
Notation prun := (prun conn asyncAcks numCopiers).
Implicit Types (w : world) (s : process).

(** No goroutine of the pipeline can move. *)
Definition at_rest w : Prop := ∀ a, not_call a → exec a w = None.

(** Steps of goroutines: no new call, and no second [Close]. *)
Definition goroutine (a : paction) : Prop :=
  match a with PRun a => not_call a | PClose => False | _ => True end.

(** A routine that waits on its empty channel with nothing pending, or has returned. *)
Definition parked (i : inserter (F:=F)) : Prop :=
  queue (i_chan i) = [] ∧
  match i_routine i with
  | RStart _ => False
  | RLoop h hot => hot = false ∧ hasPendingReqs h = false
  | RFail _ => True
  | RDone => closed (i_chan i) = true
  end.

(** Everything has ended. *)
Record ended s : Prop := {
  e_closed : p_closing s = Closed;
  e_routines : map_Forall (λ _ i, closed (i_chan i) = true ∧ i_routine i = RDone) (w_inserters (p_world s));
  e_worker : p_worker s = false;
  e_copiers : p_exited s = numCopiers;
}.

(** *** A pipeline at rest *)

Lemma goroutines_not_call w a : a ∈ goroutines w → not_call a.
Proof.
  unfold goroutines. rewrite !elem_of_app, !list_elem_of_fmap.
  intros [(?&->&_)|[(?&->&_)|[(?&->&_)|[(?&->&_)|[(?&->&_)|[(?&->&_)|Hin]]]]]]; try done.
  apply elem_of_cons in Hin as [->|[->|Hin%elem_of_nil]%elem_of_cons]; done.
Qed.

Lemma nothing_enabled w : enabled conn asyncAcks numCopiers w = [] → at_rest w.
Proof.
  intros He a Ha. apply eq_None_not_Some. intros Hs.
  assert (a ∈ enabled conn asyncAcks numCopiers w) as Hin.
  { apply list_elem_of_filter. split; [done|]. by eapply runnable_goroutine. }
  rewrite He in Hin. by apply elem_of_nil in Hin.
Qed.

Lemma rest_or_move w : inv w → at_rest w ∨ can_move conn asyncAcks numCopiers w.
Proof.
  intros Hinv. destruct (enabled conn asyncAcks numCopiers w) as [|a l] eqn:He; [left; by apply nothing_enabled|right].
  assert (a ∈ enabled conn asyncAcks numCopiers w) as [[r Hr] Hin]%list_elem_of_filter by (rewrite He; left).
  apply (enabled_can_move conn v asyncAcks numCopiers Hlaws a); [done|by eapply goroutines_not_call|].
  by rewrite Hr.
Qed.

(** The goroutines come to rest by themselves. *)
Lemma comes_to_rest w : inv w → ∃ acts w', Forall not_call acts ∧ run acts w = Some (Ok w') ∧ at_rest w'.
Proof.
  induction (Nat.lt_wf_0_projected weight w) as [w _ IH]. intros Hinv.
  destruct (rest_or_move w Hinv) as [Hrest|(a & w1 & Ha & He)].
  { exists [], w. split_and!; [constructor|done|done]. }
  destruct (IH w1) as (acts & w' & Hacts & Hrun & Hrest).
  - by eapply exec_weight.
  - destruct (exec_ok conn v asyncAcks numCopiers Hlaws a w Hinv) as [|(? & ? & ?)]; [by apply not_call_good|congruence|congruence].
  - exists (a :: acts), w'. split_and!; [by constructor| |done]. cbn [Pipe.run]. by rewrite He.
Qed.

Record rest_facts w : Prop := {
  r_copying : w_copying w = [];
  r_copy : w_copy w = [];
  r_signal : w_signal w = false;
  r_ins : map_Forall (λ _ i, parked i ∧ closed (i_chan i) = false) (w_inserters w);
  r_todo : ∀ c f, w_frames w !! c = Some f → f_todo f = [];
}.

Lemma nothing_pending m d (h : insertHandler F) : handler_good v d m h → needsResponse (pending h) = [] → hasPendingReqs h = false.
Proof.
  intros ((_ & _ & Hn) & _) Hr%Hn. unfold hasPendingReqs. fold (infos (pending h)). by rewrite Hr.
Qed.

(** A routine that waits for nothing returns to its blocking receive. *)
Lemma loop_at_rest w m (h : insertHandler F) hot :
  at_rest w → w_copy w = [] → hasPendingReqs h = false →
  w_inserters w !! m = Some (MkInserter (MkChan [] false) (RLoop h hot)) → hot = false.
Proof.
  intros Hrest Hcopy Hp Hi. destruct hot; [|done]. specialize (Hrest (ATurn m) I). cbn in Hrest.
  unfold routine_step in Hrest. rewrite Hi in Hrest. unfold routine_turn, nonblockingHandleReq, flush in Hrest.
  simpl in Hrest. rewrite Hp, Hcopy in Hrest. done.
Qed.

Lemma at_rest_facts w : inv w → 0 < numCopiers → at_rest w → rest_facts w.
Proof.
  intros Hinv Hn Hrest.
  assert (w_copying w = []) as Hcopying.
  { specialize (Hrest (AInsert 0) I). cbn in Hrest. unfold copier_insert in Hrest.
    by destruct (w_copying w). }
  assert (w_copy w = []) as Hcopy.
  { specialize (Hrest AReceive I). cbn in Hrest. unfold copier_receive in Hrest.
    destruct (w_copy w); [done|]. by rewrite Hcopying, bool_decide_true in Hrest. }
  assert (map_Forall (λ _ i, parked i ∧ closed (i_chan i) = false) (w_inserters w)) as Hins.
  { intros m i Hi. destruct (decide (idle i)) as [Hidle|Hbusy].
    - destruct (inv_ins _ _ _ Hinv _ _ Hi) as (Hcl & _ & _ & _ & Hr). split; [|done].
      destruct i as [[q cl] [t|h hot|err|]]; destruct Hidle as [Hq Ht]; simpl in *; subst.
      + destruct Hr as (req & Hin & _). by apply elem_of_nil in Hin.
      + pose proof (nothing_pending _ _ _ Hr Ht) as Hp. split; [done|]. split; [|done]. by eapply loop_at_rest.
      + done.
      + done.
    - destruct (busy_can_move conn v asyncAcks numCopiers Hlaws w m i) as (a & w' & Ha & He); [done..|].
      by rewrite Hrest in He. }
  split; [done..| |done|].
  - specialize (Hrest ASignal I). cbn in Hrest. unfold complete_metric_creation in Hrest. by destruct (w_signal w).
  - intros c [rows [|[m data] todo] waited r] Hf; [done|exfalso].
    specialize (Hrest (ASend c) I). cbn in Hrest. unfold insertMetricData in Hrest. rewrite Hf in Hrest.
    rewrite getMetricInserter_lookup, decide_True in Hrest by done.
    destruct (w_inserters w !! m) as [[[q cl] rt]|] eqn:Hi; [|done]. simpl in Hrest.
    destruct (Hins _ _ Hi) as [[Hq _] Hcl]. simpl in *. by subst.
Qed.

(** *** While the pipeline closes *)

Definition visited_of (c : closing) (all : gset string) : gset string :=
  match c with Open => ∅ | Ranging _ visited => visited | Closed => all end.

(** What holds between the steps after a rest: the callers and the database are as they
    were, and the channels [Close] has come to are closed. *)
Record quiet (w0 : world) s : Prop := {
  q_frames : w_frames (p_world s) = w_frames w0;
  q_calls : w_calls (p_world s) = w_calls w0;
  q_db : w_db (p_world s) = w_db w0;
  q_copying : w_copying (p_world s) = [];
  q_copy : w_copy (p_world s) = [];
  q_signal : w_signal (p_world s) = false;
  q_dom : dom (w_inserters (p_world s)) = dom (w_inserters w0);
  q_range : match p_closing s with
            | Ranging keys visited => keys = dom (w_inserters w0) ∧ visited ⊆ keys
            | _ => True
            end;
  q_ins : map_Forall (λ m i, parked i ∧
    closed (i_chan i) = bool_decide (m ∈ visited_of (p_closing s) (dom (w_inserters w0)))) (w_inserters (p_world s));
  q_exited : p_exited s ≤ numCopiers ∧ (0 < p_exited s → p_closing s = Closed);
  q_worker : p_worker s = false → p_closing s ≠ Open;
}.

Lemma quiet_start w : rest_facts w → quiet w (start w).
Proof.
  intros [Hcing Hcopy Hsig Hins Htodo]. split; simpl; try done. split; [lia|]. intros Hpos. lia.
Qed.

(** The steps that remain. *)
Definition routine_left (i : inserter (F:=F)) : nat := match i_routine i with RDone => 0 | _ => 1 end.
Definition left_of s : nat :=
  match p_closing s with
  | Open => 2 + size (dom (w_inserters (p_world s)))
  | Ranging keys visited => 1 + size (keys ∖ visited)
  | Closed => 0
  end + (if p_worker s then 1 else 0) + (numCopiers - p_exited s) + map_sum routine_left (w_inserters (p_world s)).

Definition quiet_step (w0 : world) (a : paction) s : Prop :=
  pexec a s = None ∨ ∃ s', pexec a s = Some (Ok s') ∧ quiet w0 s' ∧ left_of s = S (left_of s').

Lemma quiet_Close w0 s : quiet w0 s → p_closing s = Open → 
  ∃ s', pexec PClose s = Some (Ok s') ∧ quiet w0 s' ∧ left_of s = S (left_of s').
Proof.
  intros Hq Hop. simpl. unfold Client_Close, DBIngestor_Close, Close. rewrite Hop. eexists. split; [reflexivity|].
  destruct Hq. rewrite Hop in *. split; [|unfold left_of; simpl; rewrite Hop, difference_empty_L; lia].
  split; simpl; try done. destruct q_exited0 as [? Hz]. split; [done|]. intros Hpos. by apply Hz in Hpos.
Qed.

Lemma quiet_visit w0 m s : quiet w0 s → quiet_step w0 (PVisit m) s.
Proof.
  intros Hq. unfold quiet_step. simpl. unfold close_inserter.
  destruct (p_closing s) as [|keys visited|] eqn:Hcl; [by left| |by left].
  destruct (w_inserters (p_world s) !! m) as [[[q cl] r]|] eqn:Hi; [|by left]. case_decide as Hm; [by left|right].
  destruct Hq. rewrite Hcl in *. destruct (q_ins0 _ _ Hi) as [[Hqe Hp] Hc]. simpl in *.
  rewrite bool_decide_false in Hc by done. subst cl.
  assert (m ∈ keys) as Hk by (destruct q_range0 as [-> _]; rewrite <-q_dom0; by eapply elem_of_dom_2).
  eexists. split; [reflexivity|]. split.
  - split; simpl; try done.
    + by rewrite dom_insert_lookup_L.
    + set_solver.
    + intros m' i'. rewrite lookup_insert_Some. intros [[<- <-]|[Hne Hi']].
      * simpl. split; [|by rewrite bool_decide_true by set_solver]. split; [done|]. by destruct r.
      * destruct (q_ins0 _ _ Hi') as [Hp' Hc']. split; [done|]. rewrite Hc'. apply bool_decide_ext. set_solver.
    + destruct q_exited0 as [? Hz]. split; [done|]. intros Hpos. by apply Hz in Hpos.
  - unfold left_of. simpl. rewrite Hcl.
    pose proof (map_sum_update routine_left _ _ _ (MkInserter (MkChan q true) r) Hi) as Hs.
    unfold routine_left at 2 4 in Hs. simpl in Hs.
    assert (size (keys ∖ visited) = S (size (keys ∖ ({[m]} ∪ visited)))) as ->; [|lia].
    replace (keys ∖ visited) with ({[m]} ∪ keys ∖ ({[m]} ∪ visited)).
    + rewrite size_union by set_solver. by rewrite size_singleton.
    + apply set_eq. intros x. destruct (decide (x = m)); set_solver.
Qed.

(** A step that changes nothing but the flags. *)
Lemma quiet_flags w0 s c worker exited :
  quiet w0 s → visited_of c (dom (w_inserters w0)) = visited_of (p_closing s) (dom (w_inserters w0)) →
  (p_closing s = Closed → c = Closed) → match c with Ranging _ _ => False | _ => True end →
  exited ≤ numCopiers → (0 < exited → c = Closed) → (worker = false → c ≠ Open) →
  quiet w0 (MkProc (p_world s) c worker exited).
Proof.
  intros [] Hv Hc Hr He1 He2 Hw. split; simpl; try done; [by destruct c|].
  intros m i Hi. rewrite Hv. by apply q_ins0.
Qed.

Lemma quiet_close_toCopiers w0 s : quiet w0 s → quiet_step w0 PCloseCopiers s.
Proof.
  intros Hq. unfold quiet_step. simpl. unfold close_toCopiers.
  destruct (p_closing s) as [|keys visited|] eqn:Hcl; [by left| |by left].
  case_decide as Hsub; [right|by left]. eexists. split; [reflexivity|].
  pose proof (q_range _ _ Hq) as Hr. rewrite Hcl in Hr. destruct Hr as [-> Hsub'].
  assert (visited = dom (w_inserters w0)) as -> by set_solver. split.
  - apply quiet_flags; simpl; try done; try (by rewrite Hcl); apply (q_exited _ _ Hq).
  - unfold left_of. simpl. rewrite Hcl, difference_diag_L, size_empty. lia.
Qed.

Lemma quiet_worker_exit w0 s : quiet w0 s → quiet_step w0 PWorkerExit s.
Proof.
  intros Hq. unfold quiet_step. simpl. unfold worker_exit. rewrite (q_signal _ _ Hq).
  case_bool_decide as Hop; [by left|]. destruct (p_worker s) eqn:Hw; [right|by left].
  eexists. split; [reflexivity|]. split; [|unfold left_of; simpl; rewrite Hw; lia].
  destruct Hq. split; simpl; done.
Qed.

Lemma quiet_copier_exit w0 s : quiet w0 s → quiet_step w0 PCopierExit s.
Proof.
  intros Hq. unfold quiet_step. simpl. unfold copier_exit. rewrite (q_copying _ _ Hq), (q_copy _ _ Hq). simpl.
  case_bool_decide as Hcl; [|by left]. case_bool_decide as Hlt; [right|by left]. simpl.
  eexists. split; [reflexivity|]. split; [|unfold left_of; simpl; rewrite Hcl; lia].
  apply quiet_flags; simpl; try done; try (by rewrite Hcl); lia.
Qed.

Lemma quiet_turn w0 m s : quiet w0 s → quiet_step w0 (PRun (ATurn m)) s.
Proof.
  intros Hq. unfold quiet_step. simpl. unfold sends, routine_step, lift.
  destruct (w_inserters (p_world s) !! m) as [[[q cl] r]|] eqn:Hi; [|rewrite andb_false_r; by left].
  destruct (q_ins _ _ Hq _ _ Hi) as [[Hqe Hp] Hc]. simpl in Hqe, Hp, Hc. subst q.
  assert (∀ r', cl = true → r = r' → routine_left (MkInserter (MkChan [] cl) r') = 1 → ∀ w', 
    w' = set_routine m (MkChan [] cl) RDone (w_db (p_world s)) (w_calls (p_world s)) (w_copy (p_world s))
      (w_names (p_world s)) (w_signal (p_world s)) (p_world s) →
    quiet w0 (MkProc w' (p_closing s) (p_worker s) (p_exited s)) ∧
    left_of s = S (left_of (MkProc w' (p_closing s) (p_worker s) (p_exited s)))) as Hdone.
  { intros r' Hcl <- Hl w' ->. split.
    - destruct Hq. split; simpl; try done; [by rewrite dom_insert_lookup_L|].
      intros m' i'. rewrite lookup_insert_Some. intros [[<- <-]|[Hne Hi']]; [|by apply q_ins0]. done.
    - unfold left_of. simpl.
      assert (dom (<[m := MkInserter (MkChan [] cl) RDone]> (w_inserters (p_world s))) = dom (w_inserters (p_world s))) as ->
        by by rewrite dom_insert_lookup_L.
      pose proof (map_sum_update routine_left _ _ _ (MkInserter (MkChan [] cl) RDone) Hi) as Hs.
      unfold routine_left at 4 in Hs. simpl in Hs. lia. }
  destruct r as [t|h hot|err|].
  - done.
  - destruct Hp as [-> Hp]. unfold routine_turn, blockingHandleReq. rewrite Hp. simpl.
    destruct cl; simpl; rewrite andb_false_r; [right|by left].
    rewrite (q_copy _ _ Hq). simpl. eexists. split; [reflexivity|].
    eapply Hdone; [done|done|done|]. by rewrite (q_copy _ _ Hq).
  - rewrite andb_false_r. destruct cl; [right|by left]. eexists. split; [reflexivity|]. by eapply Hdone.
  - rewrite andb_false_r. by left.
Qed.

Lemma quiet_exec w0 a s : at_rest w0 → rest_facts w0 → quiet w0 s → goroutine a → quiet_step w0 a s.
Proof.
  intros Hrest Hfacts Hq Ha. destruct a as [a| |m| | |]; simpl in Ha; [|done|..].
  - destruct a as [rows|c|c|c|m|m| |i|]; [done|left; simpl|left; simpl|left; simpl|left; simpl|by apply quiet_turn|left; simpl..].
    + unfold insertMetricData. rewrite (q_frames _ _ Hq). destruct (w_frames w0 !! c) as [[rows todo waited r]|] eqn:Hf; [|done].
      apply (r_todo _ Hfacts) in Hf. simpl in Hf. by subst todo.
    + specialize (Hrest (AWait c) I). cbn in Hrest. unfold wait_finished in *.
      rewrite (q_frames _ _ Hq), (q_calls _ _ Hq).
      by repeat case_match.
    + specialize (Hrest (AReturn c) I). cbn in Hrest. unfold return_async in *.
      rewrite (q_frames _ _ Hq). by repeat case_match.
    + unfold signals, routine_begin, lift. destruct (w_inserters (p_world s) !! m) as [[ch r]|] eqn:Hi.
      * destruct (q_ins _ _ Hq _ _ Hi) as [[_ Hp] _]. by destruct r; [|rewrite andb_false_r..].
      * by rewrite andb_false_r.
    + unfold copier_receive. rewrite (q_copy _ _ Hq). by case_match.
    + unfold copier_insert. by rewrite (q_copying _ _ Hq).
    + unfold complete_metric_creation. rewrite (q_signal _ _ Hq). by case_match.
  - by apply quiet_visit.
  - by apply quiet_close_toCopiers.
  - by apply quiet_worker_exit.
  - by apply quiet_copier_exit.
Qed.

(** When nothing can move any more, everything has ended. *)
Lemma quiet_ended w0 s :
  quiet w0 s → p_closing s ≠ Open → (∀ a, goroutine a → pexec a s = None) → ended s.
Proof.
  intros Hq Hop Hstuck.
  assert (p_closing s = Closed) as Hcl.
  { pose proof (Hstuck PCloseCopiers I) as Hc. cbn in Hc. unfold close_toCopiers in Hc.
    destruct (p_closing s) as [|keys visited|] eqn:Hcl; [done| |done]. case_decide as Hsub; [done|exfalso].
    apply Hsub. intros m Hm. destruct (decide (m ∈ visited)) as [|Hv]; [done|exfalso].
    pose proof (Hstuck (PVisit m) I) as Hc'. cbn in Hc'. unfold close_inserter in Hc'. rewrite Hcl in Hc'.
    pose proof (q_range _ _ Hq) as Hr. rewrite Hcl in Hr. destruct Hr as [-> _].
    rewrite <-(q_dom _ _ Hq) in Hm. apply elem_of_dom in Hm as [[[q cl] r] Hi]. rewrite Hi in Hc'.
    rewrite decide_False in Hc' by done. by destruct cl. }
  split; [done|..].
  - intros m i Hi. destruct (q_ins _ _ Hq _ _ Hi) as [[Hqe Hp] Hc]. rewrite Hcl in Hc. simpl in Hc.
    rewrite bool_decide_true in Hc by (rewrite <-(q_dom _ _ Hq); by eapply elem_of_dom_2).
    split; [done|]. destruct i as [[q cl] r]. simpl in *. subst q cl.
    pose proof (Hstuck (PRun (ATurn m)) I) as Ht. cbn in Ht. unfold sends, routine_step, lift in Ht. rewrite Hi in Ht.
    destruct r as [t|h hot|err|]; [done| | |done].
    + destruct Hp as [-> Hp]. unfold routine_turn, blockingHandleReq in Ht. rewrite Hp in Ht. simpl in Ht.
      by rewrite andb_false_r, (q_copy _ _ Hq) in Ht.
    + by rewrite andb_false_r in Ht.
  - pose proof (Hstuck PWorkerExit I) as Hw. cbn in Hw. unfold worker_exit in Hw.
    rewrite Hcl, (q_signal _ _ Hq) in Hw. by destruct (p_worker s).
  - pose proof (Hstuck PCopierExit I) as Hc. cbn in Hc. unfold copier_exit in Hc.
    rewrite Hcl, (q_copying _ _ Hq), (q_copy _ _ Hq) in Hc. simpl in Hc.
    destruct (q_exited _ _ Hq) as [Hle _]. case_bool_decide; [done|lia].
Qed.

(** [Close] is called once. *)
Lemma goroutine_not_Open a s s' :
  goroutine a → pexec a s = Some (Ok s') → p_closing s ≠ Open → p_closing s' ≠ Open.
Proof.
  intros Ha He Hop. destruct a as [a| |m| | |]; cbn in He; [|done|..].
  - unfold run_step, lift in He.
    assert (∀ r, (λ r, let* w := r in Ok (MkProc w (p_closing s) (p_worker s) (p_exited s))) <$> r = Some (Ok s') →
      p_closing s' ≠ Open) as Hgo.
    { intros [r|] Hr; [|done]. simpl in Hr. injection Hr as Hr. inv_res Hr. by injection Hr as <-. }
    destruct a; try (by eapply Hgo); case_match; try done; by eapply Hgo.
  - unfold close_inserter in He. repeat case_match; simplify_eq; done.
  - unfold close_toCopiers in He. repeat case_match; simplify_eq; done.
  - unfold worker_exit in He. repeat case_match; simplify_eq; done.
  - unfold copier_exit in He. repeat case_match; simplify_eq; done.
Qed.

Lemma prun_cons a acts s s1 : pexec a s = Some (Ok s1) → prun (a :: acts) s = prun acts s1.
Proof. intros He. cbn [Shut.prun]. by rewrite He. Qed.

Lemma quiet_run w0 acts s :
  at_rest w0 → rest_facts w0 → quiet w0 s → p_closing s ≠ Open → Forall goroutine acts →
  match prun acts s with
  | Some (Ok s') => quiet w0 s' ∧ p_closing s' ≠ Open ∧ length acts + left_of s' = left_of s
  | Some _ => False
  | None => True
  end.
Proof.
  intros Hrest Hfacts. revert s. induction acts as [|a acts IH]; intros s Hq Hop Hacts; [done|].
  apply Forall_cons in Hacts as [Ha Hacts]. cbn [Shut.prun].
  destruct (quiet_exec w0 a s Hrest Hfacts Hq Ha) as [->|(s1 & He & Hq1 & Hl)]; [done|]. rewrite He.
  specialize (IH s1 Hq1 (goroutine_not_Open a s s1 Ha He Hop) Hacts).
  destruct (prun acts s1) as [[s'| |]|]; [|done..]. destruct IH as (? & ? & ?). split_and!; [done..|]. simpl. lia.
Qed.

(** C26. Closing a pipeline at rest ends its goroutines: [Close] panics nowhere, and however
    its steps and those of the goroutines interleave, no goroutine panics, the database
    and the callers stay as they are, and after at most [left_of] steps every routine,
    every copier and the worker has returned. *)
Theorem Close_ends_goroutines d names w :
  MC.coherent (db_tables v) d names → reachable conn asyncAcks numCopiers d names w →
  0 < numCopiers → at_rest w →
  ∃ s, pexec PClose (start w) = Some (Ok s) ∧
    ∀ acts, Forall goroutine acts →
      match prun acts s with
      | Some (Ok s') =>
          w_db (p_world s') = w_db w ∧ w_frames (p_world s') = w_frames w ∧ length acts ≤ left_of s ∧
          ((∀ a, goroutine a → pexec a s' = None) → ended s')
      | Some _ => False
      | None => True
      end.
Proof.
  intros Hn Hr Hcop Hrest. apply (reachable_ok conn v) in Hr; [|done..].
  pose proof (at_rest_facts w Hr Hcop Hrest) as Hfacts.
  destruct (quiet_Close w (start w) (quiet_start w Hfacts) eq_refl) as (s & He & Hq & Hl).
  exists s. split; [done|]. intros acts Hacts. cbn in He. unfold Client_Close, DBIngestor_Close, Close in He. simpl in He.
  assert (p_closing s ≠ Open) as Hop by by injection He as <-.
  pose proof (quiet_run w acts s Hrest Hfacts Hq Hop Hacts) as Hrun.
  destruct (prun acts s) as [[s'| |]|]; [|done..]. destruct Hrun as (Hq' & Hop' & Hlen).
  split_and!; [apply (q_db _ _ Hq')|apply (q_frames _ _ Hq')|lia|]. intros Hstuck. by eapply quiet_ended.
Qed.

End closing.

(** ** Concrete runs *)

Module Toy.

#[local] Existing Instances Pipe.ex_cache_ops Pipe.ex_cache_laws.

Definition rest_acts : list (action (F:=Z)) := ex_acts ++ [ASignal].

Notation toy_world := (Pipe.world (F:=Z) (D:=ex_state) (C:=MC.MetricNameCache)).
Notation process := (process (F:=Z) (D:=ex_state) (C:=MC.MetricNameCache)).

Definition world_after (acts : list (action (F:=Z))) : toy_world :=
  match run ex_conn false 1 acts (init ex_db0 ex_names) with
  | Some (Ok w) => w
  | _ => init ex_db0 ex_names
  end.

Notation prun := (prun ex_conn false 1).

(** What a run comes to: what [f] shows of the last state, a panic, or a step that is
    not possible. *)
Definition shown {A} (f : process → A) (r : option (res process)) : option (A + string) :=
  match r with
  | Some (Ok s) => Some (inl (f s))
  | Some (Panic m) => Some (inr m)
  | _ => None
  end.

(** At rest, the goroutines end. *)
Definition close_acts : list (paction Z) :=
  [PClose; PVisit "up"; PCloseCopiers; PRun (ATurn "up"); PCopierExit; PWorkerExit].

Example close_at_rest :
  shown (λ s, (p_closing s, p_worker s, p_exited s)) (prun close_acts (start (world_after rest_acts))) =
    Some (inl (Closed, false, 1)).
Proof. vm_compute. reflexivity. Qed.

(** [Close] while a batch is pending: the routine receives the zero request from then on
    and the batch is never sent, so that the caller waits for ever; here after 40 turns,
    with 41 tasks to answer, 40 of them nil. *)
Definition pending_of (s : process) : option (list task) :=
  match w_inserters (p_world s) !! "up"%string with
  | Some (MkInserter _ (RLoop h _)) => Some (needsResponse (pending h))
  | _ => None
  end.

Example close_while_pending :
  shown (λ s, (pending_of s, f_result <$> w_frames (p_world s) !! 0))
    (prun ([PClose; PVisit "up"; PCloseCopiers] ++ replicate 40 (PRun (ATurn "up")))
       (start (world_after (take 4 ex_acts)))) =
    Some (inl (Some (Some 0 :: replicate 40 None), Some None)).
Proof. vm_compute. reflexivity. Qed.

(** [Close] before the routine has begun: the signal that its metric is new panics. *)
Example close_before_routine_begins :
  shown p_closing (prun [PClose; PRun (ABegin "up")] (start (world_after (take 2 ex_acts)))) =
    Some (inr "send on closed channel"%string).
Proof. vm_compute. reflexivity. Qed.

(** A call after [Close] panics when its metric has a routine. *)
Example call_after_close :
  shown p_closing (prun [PClose; PVisit "up"; PRun (ACall ex_rows1); PRun (ASend 1)] (start (world_after rest_acts))) =
    Some (inr "send on closed channel"%string).
Proof. vm_compute. reflexivity. Qed.

Example close_twice :
  shown p_closing (prun [PClose; PClose] (start (world_after rest_acts))) = Some (inr "close of closed channel"%string).
Proof. vm_compute. reflexivity. Qed.

(** Three samples in an interval of two seconds are shown as one per second, and the
    rest of the division is dropped. *)
Example report_rounds :
  snd <$> reported ex_conn true 1 2 ((Some <$> ex_acts) ++ [None; None]) (init ex_db0 ex_names) =
    Some [(3, 1); (0, 0)]%Z.
Proof. vm_compute. reflexivity. Qed.

Lemma world_after_run acts :
  match run ex_conn false 1 acts (init ex_db0 ex_names) with Some (Ok _) => true | _ => false end = true →
  run ex_conn false 1 acts (init ex_db0 ex_names) = Some (Ok (world_after acts)).
Proof. unfold world_after. by destruct (run ex_conn false 1 acts (init ex_db0 ex_names)) as [[w| |]|]. Qed.

Lemma rest_reachable : reachable ex_conn false 1 ex_db0 ex_names (world_after rest_acts).
Proof.
  eapply run_reachable; [|apply reach_init|apply world_after_run; vm_compute; reflexivity].
  constructor; [exact ex_rows1_good|]. repeat constructor.
Qed.

Lemma rest_at_rest : at_rest ex_conn false 1 (world_after rest_acts).
Proof. apply nothing_enabled. vm_compute. reflexivity. Qed.

Lemma Close_ends_goroutines_witness :
  ∃ s s', pexec ex_conn false 1 PClose (start (world_after rest_acts)) = Some (Ok s) ∧
    prun (tail close_acts) s = Some (Ok s') ∧ w_db (p_world s') = w_db (world_after rest_acts).
Proof.
  destruct (Close_ends_goroutines ex_conn ex_view false 1 ex_conn_laws ex_db0 ex_names (world_after rest_acts)
    ex_coherent rest_reachable ltac:(lia) rest_at_rest) as (s & He & Hall).
  specialize (Hall (tail close_acts) ltac:(by repeat constructor)).
  destruct (prun (tail close_acts) s) as [[s'| |]|] eqn:Hr; [|destruct Hall|destruct Hall|].
  - exists s, s'. split; [exact He|]. split; [exact Hr|apply Hall].
  - exfalso. pose proof close_at_rest as Hc. change close_acts with (PClose :: tail close_acts) in Hc.
    by rewrite (prun_cons _ _ _ _ _ _ _ He), Hr in Hc.
Defined.

End Toy.

End Shut.
