(* ===== verification/PromLabels.v ===== *)
(** * Label sets of the Prometheus library

    The engine works on [labels.Labels] of package
    [github.com/prometheus/prometheus/pkg/labels], a sorted set of labels with
    distinct names: a finite map.  The package's functions are the class
    [PromLabels]; its laws are the documented behaviour.  Hashes may collide; what
    holds when they do not is stated with [hash_inj]. *)
From S2P Require Import Prelude.

Notation labels := (gmap string string).

Definition MetricName : string := "__name__".
Definition BucketLabel : string := "le".

(** The labels with a name in, or not in, a list. *)
Definition restrict (ns : list string) (l : labels) : labels := filter (λ p, p.1 ∈ ns) l.
Definition without (ns : list string) (l : labels) : labels := filter (λ p, p.1 ∉ ns) l.

Class PromLabels := {
  Get : labels → string → string;
  Has : labels → string → bool;
  (** [NewBuilder(l)], with the calls made on the builder before [Labels()]. *)
  Del : list string → labels → labels;
  Set_ : string → string → labels → labels;
  Hash : labels → Z;
  HashForLabels : list string → labels → Z;
  HashWithoutLabels : list string → labels → Z;
  Compare : labels → labels → Z;
  MatchLabels : bool → list string → labels → labels;
  labels_String : labels → string;

  Get_doc : ∀ l n, Get l n = default "" (l !! n);
  Has_doc : ∀ l n, Has l n = bool_decide (is_Some (l !! n));
  Del_doc : ∀ ns l, Del ns l = without ns l;
  Set_doc : ∀ n v l, v ≠ "" → Set_ n v l = <[n := v]> l;
  HashForLabels_doc : ∀ ns l l', restrict ns l = restrict ns l' →
    HashForLabels ns l = HashForLabels ns l';
  HashWithoutLabels_doc : ∀ ns l l', without (MetricName :: ns) l = without (MetricName :: ns) l' →
    HashWithoutLabels ns l = HashWithoutLabels ns l';
  Compare_strict_weak : StrictWeak (λ a b, (Compare a b <? 0)%Z);
  Compare_eq : ∀ a b, (Compare a b <? 0)%Z = false → (Compare b a <? 0)%Z = false → a = b;
}.

(** No two of the label sets in [P] have one hash. *)
Definition hash_inj `{PromLabels} (P : labels → Prop) : Prop :=
  ∀ a b, P a → P b → Hash a = Hash b → a = b.

Lemma hash_inj_mono `{PromLabels} (P Q : labels → Prop) :
  (∀ l, P l → Q l) → hash_inj Q → hash_inj P.
Proof. intros HPQ HQ a b Ha Hb. apply HQ; auto. Qed.

(** ** Label sets, by name *)

Lemma lookup_restrict ns l n : restrict ns l !! n = if bool_decide (n ∈ ns) then l !! n else None.
Proof.
  unfold restrict. rewrite map_lookup_filter.
  case_bool_decide; destruct (l !! n) as [v|]; simpl; try done.
  - by rewrite option_guard_True.
  - by rewrite option_guard_False.
Qed.

Lemma lookup_without ns l n : without ns l !! n = if bool_decide (n ∈ ns) then None else l !! n.
Proof.
  unfold without. rewrite map_lookup_filter.
  case_bool_decide; destruct (l !! n) as [v|]; simpl; try done.
  - rewrite option_guard_False; [done|]. simpl. naive_solver.
  - by rewrite option_guard_True.
Qed.

Lemma without_idemp ns l : without ns (without ns l) = without ns l.
Proof. apply map_eq. intros n. rewrite !lookup_without. by case_bool_decide. Qed.

Lemma without_app ns ns' l : without ns (without ns' l) = without (ns ++ ns') l.
Proof.
  apply map_eq. intros n. rewrite !lookup_without.
  repeat case_bool_decide; set_solver.
Qed.

Lemma without_nil l : without [] l = l.
Proof. apply map_eq. intros n. rewrite lookup_without. by case_bool_decide; set_solver. Qed.

Lemma restrict_restrict ns l : restrict ns (restrict ns l) = restrict ns l.
Proof. apply map_eq. intros n. rewrite !lookup_restrict. by case_bool_decide. Qed.

Lemma restrict_sorted `{GoSort} (ns : list string) (l : labels) : restrict (go_sort str_lt ns) l = restrict ns l.
Proof.
  apply map_eq. intros n. rewrite !lookup_restrict.
  assert (n ∈ go_sort str_lt ns ↔ n ∈ ns) as Hn by by rewrite go_sort_perm.
  by rewrite (bool_decide_ext _ _ Hn).
Qed.

Lemma without_sorted `{GoSort} m (ns : list string) (l : labels) : without (m :: go_sort str_lt ns) l = without (m :: ns) l.
Proof.
  apply map_eq. intros n. rewrite !lookup_without.
  assert (n ∈ m :: go_sort str_lt ns ↔ n ∈ m :: ns) as Hn by by rewrite !elem_of_cons, go_sort_perm.
  by rewrite (bool_decide_ext _ _ Hn).
Qed.

(** ** An instance

    Label sets encode to numbers without collisions; the order is that of the codes. *)

Definition code (l : labels) : Z := Zpos (encode l).

Lemma code_inj l l' : code l = code l' → l = l'.
Proof. unfold code. intros H. injection H. apply encode_inj. Qed.

#[local] Obligation Tactic := idtac.

#[export] Program Instance map_PromLabels : PromLabels := {
  Get l n := default "" (l !! n);
  Has l n := bool_decide (is_Some (l !! n));
  Del := without;
  Set_ n v l := <[n := v]> l;
  Hash := code;
  HashForLabels ns l := code (restrict ns l);
  HashWithoutLabels ns l := code (without (MetricName :: ns) l);
  Compare a b := (code a - code b)%Z;
  MatchLabels on ns l := if on then restrict ns l else without (MetricName :: ns) l;
  labels_String l := "{}";
}.
Next Obligation. done. Qed.
Next Obligation. done. Qed.
Next Obligation. done. Qed.
Next Obligation. done. Qed.
Next Obligation. intros ns l l' Hl. cbv beta. by rewrite Hl. Qed.
Next Obligation. intros ns l l' Hl. cbv beta. by rewrite Hl. Qed.
Next Obligation.
  split.
  - intros a. rewrite Z.sub_diag. done.
  - intros a b c. rewrite !Z.ltb_lt. lia.
  - intros a b c. rewrite !Z.ltb_ge. lia.
Qed.
Next Obligation. intros a b. rewrite !Z.ltb_ge. intros H1 H2. apply code_inj. lia. Qed.

Lemma map_hash_inj P : hash_inj P.
Proof. intros a b _ _. apply code_inj. Qed.
