(* ===== verification/PromValue.v ===== *)
(** * Values of the engine

    [src/pkg/promql/value.go]: points, samples, series, vectors, matrices and
    results, the check for repeated label sets, and the iterator that shows a series
    of the engine as a series of the storage.

    A sample value read from a series is a number or the staleness marker, the one
    NaN with a payload the engine looks for ([value.IsStaleNaN]). *)
From S2P Require Import Prelude Float PromLabels.
From stdpp Require Import pretty.

Module Val.

(** ** Data *)

Record Point := MkPoint { T : Z; V : float64 }.
Record Series := MkSeries { m_Metric : labels; Points : list Point }.
Record Sample := MkSample { s_Point : Point; s_Metric : labels }.
Notation Vector := (list Sample).
Notation Matrix := (list Series).

#[global] Instance Point_eq_dec : EqDecision Point.
Proof. solve_decision. Defined.
#[global] Instance Sample_eq_dec : EqDecision Sample.
Proof. solve_decision. Defined.
#[global] Instance Series_eq_dec : EqDecision Series.
Proof. solve_decision. Defined.

(** A sample without a time and without labels, as the functions build them. *)
Definition sample_of (l : labels) (v : float64) : Sample := MkSample (MkPoint 0 v) l.
Definition sV (s : Sample) : float64 := V (s_Point s).

Inductive ValueType := ValueTypeNone | ValueTypeVector | ValueTypeScalar | ValueTypeMatrix | ValueTypeString.
#[global] Instance ValueType_eq_dec : EqDecision ValueType.
Proof. solve_decision. Defined.

Record Scalar := MkScalar { sc_T : Z; sc_V : float64 }.
Record PString := MkString { st_T : Z; st_V : string }.

Inductive value :=
  | VMatrix (m : Matrix)
  | VVector (v : Vector)
  | VScalar (s : Scalar)
  | VString (s : PString).

Definition Type_ (v : value) : ValueType :=
  match v with
  | VMatrix _ => ValueTypeMatrix
  | VVector _ => ValueTypeVector
  | VScalar _ => ValueTypeScalar
  | VString _ => ValueTypeString
  end.

(** What an iterator reads: a number or the staleness marker. *)
Inductive sval := Num (f : float64) | StaleNaN.
#[global] Instance sval_eq_dec : EqDecision sval.
Proof. solve_decision. Defined.

(** ** Text *)

Section text.
Context `{PromLabels} (FormatFloat : float64 → string).

Definition newline : string := String (ascii_of_nat 10) EmptyString.

Definition Scalar_String (s : Scalar) : string :=
  "scalar: " +:+ FormatFloat (sc_V s) +:+ " @[" +:+ pretty (sc_T s) +:+ "]".

Definition Point_String (p : Point) : string :=
  FormatFloat (V p) +:+ " @[" +:+ pretty (T p) +:+ "]".

Definition Series_String (s : Series) : string :=
  labels_String (m_Metric s) +:+ " =>" +:+ newline +:+ String.concat newline (Point_String <$> Points s).

Definition Sample_String (s : Sample) : string :=
  labels_String (s_Metric s) +:+ " => " +:+ Point_String (s_Point s).

Definition Vector_String (vec : Vector) : string := String.concat newline (Sample_String <$> vec).

Definition Matrix_String (m : Matrix) : string := String.concat newline (Series_String <$> m).

End text.

(** ** Vectors and matrices *)

Section values.
Context `{PromLabels}.

(** The loops of the two [ContainsSameLabelset], over the label sets. *)
Fixpoint same_labelset (seen : gset Z) (ls : list labels) : bool :=
  match ls with
  | [] => false
  | l :: ls =>
      let hash := Hash l in
      if bool_decide (hash ∈ seen) then true else same_labelset ({[hash]} ∪ seen) ls
  end.

Definition Vector_ContainsSameLabelset (vec : Vector) : bool := same_labelset ∅ (s_Metric <$> vec).
Definition Matrix_ContainsSameLabelset (m : Matrix) : bool := same_labelset ∅ (m_Metric <$> m).

Definition TotalSamples (m : Matrix) : nat := sum_list_nat ((λ s, length (Points s)) <$> m).

(** [Less], for [sort.Sort(mat)]. *)
Definition Matrix_Less (a b : Series) : bool := (Compare (m_Metric a) (m_Metric b) <? 0)%Z.

Lemma same_labelset_spec seen ls :
  same_labelset seen ls = false ↔ NoDup (Hash <$> ls) ∧ Forall (λ l, Hash l ∉ seen) ls.
Proof.
  revert seen. induction ls as [|l ls IH]; intros seen; cbn [same_labelset].
  { split; [repeat constructor|done]. }
  rewrite fmap_cons, NoDup_cons, Forall_cons.
  case_bool_decide as Hl; [naive_solver|]. rewrite IH.
  rewrite !Forall_forall, list_elem_of_fmap. split.
  - intros [Hnd Hf]. split; [split; [|done]|split; [done|]].
    + intros (l' & Heq & Hl'). specialize (Hf l' Hl'). set_solver.
    + intros l' Hl'. specialize (Hf l' Hl'). set_solver.
  - intros [[Hn Hnd] [_ Hf]]. split; [done|]. intros l' Hl' Hin.
    apply elem_of_union in Hin as [Hin%elem_of_singleton|Hin]; [|by apply (Hf l')].
    apply Hn. exists l'. done.
Qed.

Lemma same_labelset_nodup ls :
  same_labelset ∅ ls = false → NoDup ls.
Proof. intros [Hnd _]%same_labelset_spec. by apply NoDup_fmap_1 in Hnd. Qed.

Lemma same_labelset_inj ls :
  hash_inj (λ l, l ∈ ls) → same_labelset ∅ ls = false ↔ NoDup ls.
Proof.
  intros Hinj. split; [apply same_labelset_nodup|]. intros Hnd. apply same_labelset_spec.
  split; [|apply Forall_forall; set_solver].
  apply NoDup_fmap_2_strong; [|done]. intros a b Ha Hb. by apply Hinj.
Qed.

Lemma Matrix_Less_strict_weak : StrictWeak Matrix_Less.
Proof. apply (strict_weak_key m_Metric (λ a b, (Compare a b <? 0)%Z)), Compare_strict_weak. Qed.

(** Sorting a matrix orders it by labels; without repeated labels the result is
    the same for every sort. *)
Lemma sort_matrix_unique `{GoSort} (m1 m2 : Matrix) :
  NoDup (m_Metric <$> m1) → m1 ≡ₚ m2 → go_sort Matrix_Less m1 = go_sort Matrix_Less m2.
Proof.
  intros Hnd Hp.
  pose proof Matrix_Less_strict_weak as Hsw.
  assert (∀ a b, a ∈ m1 → b ∈ m1 → Matrix_Less a b = false → Matrix_Less b a = false → a = b) as Hanti.
  { intros a b Ha Hb H1 H2. pose proof (Compare_eq _ _ H1 H2) as Heq.
    apply list_elem_of_lookup in Ha as [i Ha], Hb as [j Hb].
    assert (i = j) as ->; [|congruence].
    apply (NoDup_lookup _ i j (m_Metric a) Hnd); rewrite list_lookup_fmap.
    - by rewrite Ha.
    - by rewrite Hb, Heq. }
  assert (go_sort Matrix_Less m1 ≡ₚ go_sort Matrix_Less m2) as Hpp by by rewrite !go_sort_perm.
  pose proof (go_sort_sorted Matrix_Less m1 Hsw) as S1.
  pose proof (go_sort_sorted Matrix_Less m2 Hsw) as S2.
  assert (∀ x, x ∈ go_sort Matrix_Less m1 → x ∈ m1) as Hin by (intros x; by rewrite go_sort_elem_of).
  revert S1 S2 Hpp Hin. generalize (go_sort Matrix_Less m1) as l1, (go_sort Matrix_Less m2) as l2.
  intros l1 l2 S1. revert l2. induction S1 as [|a l1 _ IH Ha]; intros l2 S2 Hpp Hin.
  { by apply Permutation_nil_l in Hpp. }
  destruct S2 as [|b l2 S2 Hb]; [by symmetry in Hpp; apply Permutation_nil_cons in Hpp|].
  rewrite Forall_forall in Ha, Hb.
  assert (a = b) as <-.
  { assert (b ∈ a :: l1) as Hbin by (rewrite Hpp; set_solver).
    assert (a ∈ b :: l2) as Hain by (rewrite <-Hpp; set_solver).
    apply elem_of_cons in Hbin as [->|Hb1]; [done|]. apply elem_of_cons in Hain as [->|Ha2]; [done|].
    apply Hanti; [apply Hin; set_solver..| |]; auto. }
  f_equal. apply IH; [done|by apply Permutation_cons_inv in Hpp|set_solver].
Qed.

End values.

(** ** Results *)

Record Result := MkResult { r_Err : option goerror; r_Value : option value; r_Warnings : list string }.

Definition Result_Vector (r : Result) : res Vector :=
  match r_Err r with
  | Some err => Err err
  | None => match r_Value r with
            | Some (VVector v) => Ok v
            | _ => Err (Errorf "query result is not a Vector")
            end
  end.

Definition Result_Matrix (r : Result) : res Matrix :=
  match r_Err r with
  | Some err => Err err
  | None => match r_Value r with
            | Some (VMatrix v) => Ok v
            | _ => Err (Errorf "query result is not a range Vector")
            end
  end.

Definition Result_Scalar (r : Result) : res Scalar :=
  match r_Err r with
  | Some err => Err err
  | None => match r_Value r with
            | Some (VScalar v) => Ok v
            | _ => Err (Errorf "query result is not a Scalar")
            end
  end.

(** ** A series as a series of the storage *)

Record StorageSeries := MkStorageSeries { series : Series }.
Definition NewStorageSeries (s : Series) : StorageSeries := MkStorageSeries s.
Definition Labels (ss : StorageSeries) : labels := m_Metric (series ss).

Record storageSeriesIterator := MkIter { points : list Point; curr : Z }.

Definition newStorageSeriesIterator (s : Series) : storageSeriesIterator := MkIter (Points s) (-1).
Definition Iterator (ss : StorageSeries) : storageSeriesIterator := newStorageSeriesIterator (series ss).

(** The first index from [i] on with a point at or after [t]; [ps] are the points
    from index [i]. *)
Fixpoint seek_loop (t : Z) (i : Z) (ps : list Point) : option Z :=
  match ps with
  | [] => None
  | p :: ps => if (t <=? T p)%Z then Some i else seek_loop t (i + 1) ps
  end.

Definition Seek (ssi : storageSeriesIterator) (t : Z) : storageSeriesIterator * bool :=
  let i := if (curr ssi <? 0)%Z then 0%Z else curr ssi in
  match seek_loop t i (drop (Z.to_nat i) (points ssi)) with
  | Some i => (MkIter (points ssi) i, true)
  | None => (MkIter (points ssi) (Z.of_nat (length (points ssi)) - 1), false)
  end.

Definition At (ssi : storageSeriesIterator) : res (Z * sval) :=
  if (curr ssi <? 0)%Z then Err (RuntimeError "index out of range")
  else match points ssi !! Z.to_nat (curr ssi) with
       | Some p => Ok (T p, Num (V p))
       | None => Err (RuntimeError "index out of range")
       end.

Definition Next (ssi : storageSeriesIterator) : storageSeriesIterator * bool :=
  let curr := (curr ssi + 1)%Z in
  (MkIter (points ssi) curr, (curr <? Z.of_nat (length (points ssi)))%Z).

(** [for it.Next() { it.At() }], as the engine and [storage] read a series. *)
Fixpoint drain (fuel : nat) (ssi : storageSeriesIterator) : list (Z * sval) :=
  match fuel with
  | 0 => []
  | S fuel =>
      match Next ssi with
      | (ssi, true) => match At ssi with Ok x => x :: drain fuel ssi | _ => [] end
      | (ssi, false) => []
      end
  end.

Lemma value_drain_from ps k fuel :
  length ps - k < fuel →
  drain fuel (MkIter ps (Z.of_nat k - 1)) = (λ p, (T p, Num (V p))) <$> drop k ps.
Proof.
  revert k. induction fuel as [|fuel IH]; intros k Hf; [lia|].
  cbn [drain]. unfold Next. cbn [curr points]. replace (Z.of_nat k - 1 + 1)%Z with (Z.of_nat k) by lia.
  destruct (Z.ltb_spec (Z.of_nat k) (Z.of_nat (length ps))) as [Hk|Hk].
  - unfold At. cbn [curr points]. rewrite (proj2 (Z.ltb_ge _ _)) by lia. rewrite Nat2Z.id.
    destruct (lookup_lt_is_Some_2 ps k) as [p Hp]; [lia|]. rewrite Hp.
    rewrite (drop_S _ _ _ Hp). cbn [fmap list_fmap]. f_equal.
    replace (Z.of_nat k) with (Z.of_nat (S k) - 1)%Z by lia. apply IH. lia.
  - rewrite drop_ge by lia. done.
Qed.

Lemma value_seek_spec t i ps :
  match seek_loop t i ps with
  | Some j => ∃ k p, j = (i + Z.of_nat k)%Z ∧ ps !! k = Some p ∧ (t ≤ T p)%Z ∧
      Forall (λ q, (T q < t)%Z) (take k ps)
  | None => Forall (λ q, (T q < t)%Z) ps
  end.
Proof.
  revert i. induction ps as [|p ps IH]; intros i; cbn [seek_loop]; [done|].
  destruct (Z.leb_spec t (T p)) as [Hp|Hp].
  - exists 0, p. repeat split; [lia|done..].
  - specialize (IH (i + 1)%Z). destruct (seek_loop t (i + 1) ps) as [j|].
    + destruct IH as (k & q & -> & Hq & Ht & Hf). exists (S k), q.
      repeat split; [lia|done..|]. by constructor.
    + by constructor.
Qed.

(** A fresh iterator visits the points of its series in order. *)
Theorem value_drain_all s : drain (S (length (Points s))) (Iterator (NewStorageSeries s))
  = (λ p, (T p, Num (V p))) <$> Points s.
Proof. apply (value_drain_from (Points s) 0). lia. Qed.

End Val.
