(* ===== verification/Quantile.v ===== *)
(** * Quantiles

    [src/pkg/promql/quantile.go]: quantiles of histogram buckets and of samples,
    with the binary search of package [sort] they use and the order of samples by
    value of [functions.go]. *)
From S2P Require Import Prelude Float PromLabels PromValue.

Module Qnt.
Import Val.

Definition index_error {A} : res A := Err (RuntimeError "index out of range").

(** [s[i]]. *)
Definition index {A} (s : list A) (i : Z) : res A :=
  if (i <? 0)%Z then index_error
  else match s !! Z.to_nat i with Some a => Ok a | None => index_error end.

Lemma index_nat {A} (s : list A) (i : nat) x : s !! i = Some x → index s (Z.of_nat i) = Ok x.
Proof.
  intros Hx. unfold index. rewrite (proj2 (Z.ltb_ge _ _)), Nat2Z.id by lia. by rewrite Hx.
Qed.

Lemma index_back {A} (s : list A) (k : nat) z x :
  s !! (length s - k) = Some x → k ≤ length s → z = (Z.of_nat (length s) - Z.of_nat k)%Z →
  index s z = Ok x.
Proof. intros Hx Hl ->. rewrite <-Nat2Z.inj_sub by done. by apply index_nat. Qed.

Lemma last_lookup_sub {A} (s : list A) x : last s = Some x → s !! (length s - 1) = Some x.
Proof. rewrite last_lookup. by replace (length s - 1) with (pred (length s)) by lia. Qed.

(** ** [sort.Search] *)

Fixpoint search_loop (fuel : nat) (f : nat → bool) (i j : nat) : nat :=
  match fuel with
  | 0 => i
  | S fuel =>
      if i <? j then
        let h := (i + j) / 2 in
        if f h then search_loop fuel f i h else search_loop fuel f (S h) j
      else i
  end.

Definition Search (n : nat) (f : nat → bool) : nat := search_loop n f 0 n.

Lemma half_between i j : i < j → i ≤ (i + j) / 2 < j.
Proof.
  intros Hij. split.
  - apply Nat.div_le_lower_bound; lia.
  - apply Nat.Div0.div_lt_upper_bound; lia.
Qed.

Lemma search_loop_spec f i j fuel n :
  j - i ≤ fuel → i ≤ j → j ≤ n → (j < n → f j = true) → (∀ k, i = S k → f k = false) →
  let r := search_loop fuel f i j in
  i ≤ r ≤ j ∧ (r < n → f r = true) ∧ (∀ k, r = S k → f k = false).
Proof.
  revert i j. induction fuel as [|fuel IH]; intros i j Hf Hij Hjn Hj Hi; cbn [search_loop].
  { assert (i = j) as -> by lia. repeat split; [lia|lia|done|done]. }
  destruct (Nat.ltb_spec i j) as [Hlt|Hge].
  2: { assert (i = j) as -> by lia. repeat split; [lia|lia|done|done]. }
  pose proof (half_between i j Hlt) as Hh. destruct (f ((i + j) / 2)) eqn:E.
  - destruct (IH i ((i + j) / 2)) as (Hr & H1 & H2); [lia..|done|done|].
    repeat split; [lia|lia|done|done].
  - destruct (IH (S ((i + j) / 2)) j) as (Hr & H1 & H2); [lia..|done| |].
    + by intros k [= <-].
    + repeat split; [lia|lia|done|done].
Qed.

Lemma Search_boundary n f :
  let r := Search n f in r ≤ n ∧ (r < n → f r = true) ∧ (∀ k, r = S k → f k = false).
Proof.
  destruct (search_loop_spec f 0 n n n) as (Hr & H1 & H2); [lia..|done|].
  split; [|done]. unfold Search. lia.
Qed.

(** For a predicate that stays true, the result is the least index where it holds. *)
Lemma Search_least n f :
  (∀ i j, i ≤ j → j < n → f i = true → f j = true) →
  Search n f ≤ n ∧ (Search n f < n → f (Search n f) = true) ∧ ∀ i, i < Search n f → f i = false.
Proof.
  intros Hmono. destruct (Search_boundary n f) as (Hn & Ht & Hf). split; [done|split; [done|]].
  intros i Hi. destruct (f i) eqn:E; [|done].
  destruct (Search n f) as [|k] eqn:Hk; [lia|]. specialize (Hf k eq_refl).
  rewrite (Hmono i k) in Hf by (done || lia). done.
Qed.

(** ** Buckets *)

Record bucket := MkBucket { upperBound : float64; count : float64 }.
Notation buckets := (list bucket).

Definition buckets_Less (a b : bucket) : bool := SFltb (upperBound a) (upperBound b).

Fixpoint coalesce_loop (last : bucket) (bs : buckets) : buckets :=
  match bs with
  | [] => [last]
  | b :: bs =>
      if SFeqb (upperBound b) (upperBound last)
      then coalesce_loop (MkBucket (upperBound last) (count last + count b)%F) bs
      else last :: coalesce_loop b bs
  end.

Definition coalesceBuckets (bs : buckets) : res buckets :=
  match bs with
  | [] => index_error
  | last :: bs => Ok (coalesce_loop last bs)
  end.

(** [for i := range buckets[1:]] runs over the indices of all buckets but the last. *)
Fixpoint monotonic_loop (max : float64) (bs : buckets) : buckets :=
  match bs with
  | [] | [_] => bs
  | b :: bs =>
      if (count b >? max)%F then b :: monotonic_loop (count b) bs
      else if (count b <? max)%F then MkBucket (upperBound b) max :: monotonic_loop max bs
      else b :: monotonic_loop max bs
  end.

Definition ensureMonotonic (bs : buckets) : res buckets :=
  match bs with
  | [] => index_error
  | b :: _ => Ok (monotonic_loop (count b) bs)
  end.

Definition f_zero : float64 := S754_zero false.
Definition f_one : float64 := float_of_Z 1.

Section quantiles.
Context `{GoSort} (int64_undefined : float64 → Z).

(** The interpolation in the bucket the search stops at. *)
Definition interpolate (bs : buckets) (b : nat) (rank : float64) : res float64 :=
  let* bb := index bs (Z.of_nat b) in
  match b with
  | 0 => Ok (f_zero + (upperBound bb - f_zero) * (rank / count bb))%F
  | S b' =>
      let* prev := index bs (Z.of_nat b') in
      let bucketStart := upperBound prev in
      let count := (count bb - count prev)%F in
      let rank := (rank - Qnt.count prev)%F in
      Ok (bucketStart + (upperBound bb - bucketStart) * (rank / count))%F
  end.

Definition bucketQuantile (q : float64) (bs : buckets) : res float64 :=
  if (q <? f_zero)%F then Ok (Inf true)
  else if (q >? f_one)%F then Ok (Inf false)
  else
    let bs := go_sort buckets_Less bs in
    let* highest := index bs (Z.of_nat (length bs) - 1) in
    if negb (IsPosInf (upperBound highest)) then Ok NaN
    else
      let* bs := coalesceBuckets bs in
      let* bs := ensureMonotonic bs in
      let n := length bs in
      if n <? 2 then Ok NaN
      else
        let* last := index bs (Z.of_nat n - 1) in
        let rank := (q * count last)%F in
        let b := Search (n - 1) (λ i, match bs !! i with
                                      | Some x => (count x >=? rank)%F
                                      | None => false
                                      end) in
        if b =? n - 1 then let* x := index bs (Z.of_nat n - 2) in Ok (upperBound x)
        else
          let* first := index bs 0 in
          if (b =? 0) && (upperBound first <=? f_zero)%F then Ok (upperBound first)
          else interpolate bs b rank.

(** ** Samples by value *)

(** [Less] of [vectorByValueHeap] and [vectorByReverseValueHeap]. *)
Definition value_Less (a b : Sample) : bool := IsNaN (sV a) || (sV a <? sV b)%F.
Definition reverse_Less (a b : Sample) : bool := IsNaN (sV a) || (sV a >? sV b)%F.

Definition quantile (q : float64) (values : list Sample) : res float64 :=
  match values with
  | [] => Ok NaN
  | _ =>
      if (q <? f_zero)%F then Ok (Inf true)
      else if (q >? f_one)%F then Ok (Inf false)
      else
        let values := go_sort value_Less values in
        let n := float_of_Z (Z.of_nat (length values)) in
        let rank := (q * (n - f_one))%F in
        let lowerIndex := Max f_zero (Floor rank) in
        let upperIndex := Min (n - f_one)%F (lowerIndex + f_one)%F in
        let weight := (rank - Floor rank)%F in
        let* lo := index values (int64_of int64_undefined lowerIndex) in
        let* hi := index values (int64_of int64_undefined upperIndex) in
        Ok (sV lo * (f_one - weight) + sV hi * weight)%F
  end.

End quantiles.

(** ** Coalescing and monotonicity *)

Definition numeric (b : bucket) : Prop := IsNaN (upperBound b) = false ∧ IsNaN (count b) = false.

(** Ascending upper bounds. *)
Definition bounds_lt (a b : bucket) : Prop := SFltb (upperBound a) (upperBound b) = true.

(** The counts of all buckets but the last do not decrease. *)
Definition counts_up (bs : buckets) : Prop :=
  ∀ i j x y, i ≤ j → S j < length bs → bs !! i = Some x → bs !! j = Some y →
    SFltb (count y) (count x) = false.

Lemma coalesce_loop_bounds last bs x :
  x ∈ coalesce_loop last bs → ∃ y, y ∈ last :: bs ∧ upperBound x = upperBound y.
Proof.
  revert last. induction bs as [|b bs IH]; intros last; cbn [coalesce_loop].
  { intros ->%list_elem_of_singleton. exists last. set_solver. }
  case_if.
  - intros (y & Hy & Heq)%IH. apply elem_of_cons in Hy as [->|Hy]; [|set_solver].
    exists last. split; [set_solver|done].
  - intros [->|Hx]%elem_of_cons; [exists last; set_solver|].
    apply IH in Hx as (y & Hy & Heq). set_solver.
Qed.

Lemma coalesce_loop_head last bs :
  ∃ x, x ∈ coalesce_loop last bs ∧ upperBound x = upperBound last.
Proof.
  revert last. induction bs as [|b bs IH]; intros last; cbn [coalesce_loop]; [set_solver|].
  case_if; [|set_solver]. apply (IH (MkBucket _ _)).
Qed.

Lemma coalesce_loop_sorted last bs :
  Forall (λ b, IsNaN (upperBound b) = false) (last :: bs) →
  StronglySorted (λ a b, buckets_Less b a = false) (last :: bs) →
  StronglySorted bounds_lt (coalesce_loop last bs).
Proof.
  revert last. induction bs as [|b bs IH]; intros last Hn Hs; cbn [coalesce_loop].
  { repeat constructor. }
  apply Forall_cons in Hn as [Hnl Hn]. pose proof (proj1 (Forall_cons _ _ _) Hn) as [Hnb Hn'].
  apply StronglySorted_inv in Hs as [Hs Hl]. apply Forall_cons in Hl as [Hlb Hl].
  destruct (SFeqb (upperBound b) (upperBound last)) eqn:E.
  - apply IH; [by constructor|]. apply StronglySorted_inv in Hs as [Hs _]. by constructor.
  - constructor; [by apply IH|]. apply Forall_forall. intros x Hx.
    apply coalesce_loop_bounds in Hx as (y & Hy & Heq). unfold bounds_lt. rewrite Heq.
    assert (SFltb (upperBound last) (upperBound b) = true) as Hlt by by apply SFeqb_false_lt.
    apply elem_of_cons in Hy as [->|Hy]; [done|].
    apply StronglySorted_inv in Hs as [_ Hb]. rewrite Forall_forall in Hb, Hn'.
    apply (SFltb_leb_trans _ (upperBound b)); [done|]. rewrite SFleb_ltb by auto.
    by rewrite (Hb _ Hy : SFltb _ _ = false).
Qed.

(** Every bound stays, up to equality of floats. *)
Lemma coalesce_loop_covers last bs y :
  Forall (λ b, IsNaN (upperBound b) = false) (last :: bs) → y ∈ last :: bs →
  ∃ x, x ∈ coalesce_loop last bs ∧ fkey (upperBound x) = fkey (upperBound y).
Proof.
  revert last. induction bs as [|b bs IH]; intros last Hn Hy; cbn [coalesce_loop].
  { exists last. apply list_elem_of_singleton in Hy as ->. set_solver. }
  apply Forall_cons in Hn as [Hnl Hn]. pose proof (proj1 (Forall_cons _ _ _) Hn) as [Hnb Hn'].
  destruct (SFeqb (upperBound b) (upperBound last)) eqn:E.
  - apply elem_of_cons in Hy as [->|[->|Hy]%elem_of_cons].
    + destruct (coalesce_loop_head (MkBucket (upperBound last) (count last + count b)%F) bs) as (x & Hx & Hxe).
      exists x. by rewrite Hxe.
    + destruct (coalesce_loop_head (MkBucket (upperBound last) (count last + count b)%F) bs) as (x & Hx & Hxe).
      exists x. rewrite Hxe. split; [done|]. symmetry. by apply SFeqb_key.
    + apply (IH (MkBucket _ _)); [by constructor|by right].
  - apply elem_of_cons in Hy as [->|Hy]; [exists last; set_solver|].
    destruct (IH b Hn Hy) as (x & Hx & Heq). exists x. set_solver.
Qed.

Lemma monotonic_loop_step max b bs :
  bs ≠ [] → monotonic_loop max (b :: bs) =
    if (count b >? max)%F then b :: monotonic_loop (count b) bs
    else if (count b <? max)%F then MkBucket (upperBound b) max :: monotonic_loop max bs
    else b :: monotonic_loop max bs.
Proof. by destruct bs. Qed.

Lemma monotonic_loop_length max bs : length (monotonic_loop max bs) = length bs.
Proof.
  revert max. induction bs as [|b [|b' bs] IH]; intros max; [done..|].
  rewrite monotonic_loop_step by done. by repeat case_if; cbn [length]; rewrite IH.
Qed.

(** One step of the loop on a list with a successor: the bucket keeps its bound and
    gets the greater of its count and the maximum, which is also the new maximum. *)
Lemma monotonic_loop_cons max b bs :
  bs ≠ [] → IsNaN max = false → IsNaN (count b) = false →
  ∃ c m, monotonic_loop max (b :: bs) = MkBucket (upperBound b) c :: monotonic_loop m bs
    ∧ IsNaN c = false ∧ IsNaN m = false ∧ SFleb max c = true ∧ SFleb c m = true
    ∧ SFleb (count b) c = true ∧ (c = max ∨ c = count b).
Proof.
  intros Hbs Hm Hb. rewrite monotonic_loop_step by done. destruct b as [u c].
  cbn [upperBound count] in *.
  destruct (SFltb max c) eqn:E1; [|destruct (SFltb c max) eqn:E2].
  - exists c, c. repeat split; [done|done|by apply SFltb_leb|by apply SFleb_refl..|by right].
  - exists max, max. repeat split; [done|done|by apply SFleb_refl..|by apply SFltb_leb|by left].
  - exists c, max. repeat split; [done|done|by rewrite SFleb_ltb, E2|by rewrite SFleb_ltb, E1| |by right].
    by apply SFleb_refl.
Qed.

Lemma monotonic_loop_up max bs :
  IsNaN max = false → Forall (λ b, IsNaN (count b) = false) bs →
  (∀ j y, S j < length bs → monotonic_loop max bs !! j = Some y → SFleb max (count y) = true) ∧
  counts_up (monotonic_loop max bs).
Proof.
  revert max. induction bs as [|b bs IH]; intros max Hm Hn; [split; intros ?; intros; simpl in *; lia|].
  destruct bs as [|b' bs].
  { split; [intros j y Hj; simpl in Hj; lia|]. intros i j x y _ Hj. simpl in Hj. lia. }
  apply Forall_cons in Hn as [Hb Hn].
  destruct (monotonic_loop_cons max b (b' :: bs)) as (c & m & Heq & Hc & Hm' & H1 & H2 & H3 & _); [done..|].
  destruct (IH m Hm' Hn) as [Hle Hup]. rewrite Heq.
  assert (∀ j y, S j < length (b' :: bs) → monotonic_loop m (b' :: bs) !! j = Some y →
    SFleb c (count y) = true) as Hcy.
  { intros j y Hj Hy. apply (SFleb_trans _ m); [done|]. by apply (Hle j). }
  split.
  - intros [|j] y Hj Hy; [by simplify_eq/=|].
    apply (SFleb_trans _ c); [done|]. apply (Hcy j); [simpl in Hj |- *; lia|done].
  - intros i j x y Hij Hj Hx Hy. cbn [length] in Hj. rewrite monotonic_loop_length in Hj.
    destruct j as [|j]; [destruct i as [|i]; [|lia]; simplify_eq/=; apply SFltb_irrefl|].
    destruct i as [|i].
    + simplify_eq/=. assert (SFleb c (count y) = true) as Hle' by (apply (Hcy j); [simpl in *; lia|done]).
      destruct (SFleb_notnan _ _ Hle'). rewrite SFleb_ltb in Hle' by done. by apply negb_true_iff in Hle'.
    + apply (Hup i j x y); [lia| |done..]. rewrite monotonic_loop_length. simpl in *. lia.
Qed.

Lemma monotonic_loop_num max bs :
  IsNaN max = false → Forall (λ b, IsNaN (count b) = false) bs →
  Forall (λ b, IsNaN (count b) = false) (monotonic_loop max bs).
Proof.
  revert max. induction bs as [|b [|b' bs] IH]; intros max Hm Hn; [done..|].
  rewrite monotonic_loop_step by done. apply Forall_cons in Hn as [Hb Hn].
  repeat case_if; constructor; auto.
Qed.

(** Bounds stay; counts come from the counts before; the last bucket stays. *)
Lemma monotonic_loop_bounds max bs : upperBound <$> monotonic_loop max bs = upperBound <$> bs.
Proof.
  revert max. induction bs as [|b [|b' bs] IH]; intros max; [done..|].
  rewrite monotonic_loop_step by done. by repeat case_if; rewrite (fmap_cons _ _ (monotonic_loop _ _)), IH.
Qed.

Lemma monotonic_loop_last max bs : last (monotonic_loop max bs) = last bs.
Proof.
  revert max. induction bs as [|b [|b' bs] IH]; intros max; [done..|].
  rewrite monotonic_loop_step by done. rewrite (last_cons b (b' :: bs)).
  repeat case_if; rewrite last_cons, IH; by destruct (last (b' :: bs)) eqn:E; [|apply last_None in E].
Qed.

(** The bucket [m] counts what the buckets of [bs] with its bound count, added up in
    some order. *)
Definition merged_count (bs : buckets) (m : bucket) : Prop :=
  ∃ x xs, x :: xs ≡ₚ count <$> filter (λ b, SFeqb (upperBound b) (upperBound m) = true) bs ∧
    count m = foldl float_add x xs.

(** [c] is the greatest of the first counts, up to index [i]. *)
Definition greatest_count (bs : buckets) (i : nat) (c : float64) : Prop :=
  (∃ j y, j ≤ i ∧ bs !! j = Some y ∧ c = count y) ∧
  ∀ j y, j ≤ i → bs !! j = Some y → SFleb (count y) c = true.

Lemma coalesce_loop_sums last bs m :
  Forall (λ b, IsNaN (upperBound b) = false) (last :: bs) →
  StronglySorted (λ a b, buckets_Less b a = false) (last :: bs) →
  m ∈ coalesce_loop last bs →
  ∃ x xs, count <$> filter (λ b, SFeqb (upperBound b) (upperBound m) = true) (last :: bs) = x :: xs ∧
    count m = foldl float_add x xs.
Proof.
  revert last. induction bs as [|b bs IH]; intros last Hn Hs Hm; cbn [coalesce_loop] in Hm.
  { apply list_elem_of_singleton in Hm as ->. apply Forall_cons in Hn as [Hn _].
    exists (count last), []. rewrite filter_cons, decide_True by by apply SFeqb_key. done. }
  apply Forall_cons in Hn as [Hnl Hn]. pose proof (proj1 (Forall_cons _ _ _) Hn) as [Hnb Hn'].
  apply StronglySorted_inv in Hs as [Hs Hl]. apply Forall_cons in Hl as [Hlb Hl].
  destruct (SFeqb (upperBound b) (upperBound last)) eqn:E.
  - destruct (IH (MkBucket (upperBound last) (count last + count b)%F)) as (x & xs & Hf & Hc); [by constructor| |done|].
    { apply StronglySorted_inv in Hs as [Hs _]. by constructor. }
    apply SFeqb_key in E; [|done..].
    assert (IsNaN (upperBound m) = false) as Hnm.
    { apply coalesce_loop_bounds in Hm as (y & Hy & ->). rewrite Forall_forall in Hn'.
      apply elem_of_cons in Hy as [->|Hy]; auto. }
    rewrite filter_cons in Hf. cbn [upperBound] in Hf. rewrite !filter_cons.
    assert (SFeqb (upperBound b) (upperBound m) = true ↔ SFeqb (upperBound last) (upperBound m) = true) as Hbl
      by (by rewrite !SFeqb_key, E by done).
    destruct (decide (SFeqb (upperBound last) (upperBound m) = true)) as [Hd|Hd].
    + rewrite decide_True by by apply Hbl. rewrite fmap_cons in Hf. injection Hf as <- <-.
      rewrite !fmap_cons. by eexists _, _.
    + rewrite decide_False by by rewrite Hbl. by exists x, xs.
  - assert (SFltb (upperBound last) (upperBound b) = true) as Hlt by by apply SFeqb_false_lt.
    assert (∀ y, y ∈ b :: bs → SFltb (upperBound last) (upperBound y) = true) as Hgt.
    { intros y [->|Hy]%elem_of_cons; [done|].
      apply StronglySorted_inv in Hs as [_ Hb]. rewrite Forall_forall in Hb, Hn'.
      apply (SFltb_leb_trans _ (upperBound b)); [done|]. rewrite SFleb_ltb by auto.
      by rewrite (Hb _ Hy : SFltb _ _ = false). }
    assert (∀ y, y ∈ b :: bs → SFeqb (upperBound last) (upperBound y) ≠ true ∧
                               SFeqb (upperBound y) (upperBound last) ≠ true) as Hne.
    { intros y Hy. specialize (Hgt y Hy). rewrite Forall_forall in Hn. specialize (Hn y Hy).
      apply (SFltb_key _ _ Hnl Hn) in Hgt. unfold key_lt in Hgt. rewrite !SFeqb_key by done.
      split; intros Hk; rewrite Hk in Hgt; lia. }
    apply elem_of_cons in Hm as [->|Hm].
    + exists (count last), []. rewrite filter_cons, decide_True by by apply SFeqb_key.
      assert (filter (λ b0, SFeqb (upperBound b0) (upperBound last) = true) (b :: bs) = []) as ->; [|done].
      destruct (filter _ (b :: bs)) as [|y l] eqn:Hf; [done|].
      assert (y ∈ filter (λ b0, SFeqb (upperBound b0) (upperBound last) = true) (b :: bs)) as Hy by (rewrite Hf; left).
      apply list_elem_of_filter in Hy as [Hy Hin]. by apply Hne in Hin as [_ ?].
    + destruct (IH b Hn Hs Hm) as (x & xs & Hf & Hc). exists x, xs. split; [|done].
      rewrite filter_cons, decide_False; [done|].
      apply coalesce_loop_bounds in Hm as (y & Hy & ->). by apply Hne.
Qed.

Lemma monotonic_loop_greatest max bs i x :
  IsNaN max = false → Forall (λ b, IsNaN (count b) = false) bs →
  monotonic_loop max bs !! i = Some x → S i < length bs →
  SFleb max (count x) = true ∧
  (count x = max ∨ ∃ j y, j ≤ i ∧ bs !! j = Some y ∧ count x = count y) ∧
  ∀ j y, j ≤ i → bs !! j = Some y → SFleb (count y) (count x) = true.
Proof.
  revert max i x. induction bs as [|b bs IH]; intros max i x Hm Hn Hi Hlen; [simpl in Hlen; lia|].
  apply Forall_cons in Hn as [Hb Hn].
  destruct bs as [|b' bs]; [simpl in Hlen; lia|]. rewrite monotonic_loop_step in Hi by done.
  assert (∀ max' b0, IsNaN max' = false → (b0 :: monotonic_loop max' (b' :: bs)) !! i = Some x →
    (count b0 = max ∨ count b0 = count b) → (max' = max ∨ max' = count b) →
    SFleb max (count b0) = true → SFleb max max' = true → SFleb (count b) (count b0) = true → SFleb (count b) max' = true →
    SFleb max (count x) = true ∧
    (count x = max ∨ ∃ j y, j ≤ i ∧ (b :: b' :: bs) !! j = Some y ∧ count x = count y) ∧
    ∀ j y, j ≤ i → (b :: b' :: bs) !! j = Some y → SFleb (count y) (count x) = true) as Hstep.
  { intros max' b0 Hm' Hx Hc0 Hc1 H1 H2 H3 H4. destruct i as [|i].
    - injection Hx as ->. split_and!; [done| |].
      + destruct Hc0 as [|Hc0]; [by left|right]. by exists 0, b.
      + intros j y Hj Hy. assert (j = 0) as -> by lia. by injection Hy as <-.
    - destruct (IH max' i x Hm' Hn Hx) as (Hge & Hin & Hall); [simpl in *; lia|]. split_and!.
      + by apply (SFleb_trans _ max').
      + destruct Hin as [Hin|(j & y & Hj & Hy & Hc)].
        * destruct Hc1 as [-> | ->]; [by left|right]. exists 0, b. split_and!; [lia|done..].
        * right. exists (S j), y. split_and!; [lia|done..].
      + intros [|j] y Hj Hy; [injection Hy as <-; by apply (SFleb_trans _ max')|].
        apply (Hall j); [lia|done]. }
  destruct (SFltb max (count b)) eqn:E1; [|destruct (SFltb (count b) max) eqn:E2].
  - apply (Hstep (count b) b); auto using SFltb_leb, SFleb_refl.
  - apply (Hstep max (MkBucket (upperBound b) max)); cbn [count]; auto using SFltb_leb, SFleb_refl.
  - apply (Hstep max b); auto using SFleb_refl; by rewrite SFleb_ltb, ?E1, ?E2.
Qed.

(** What sorting, coalescing and [ensureMonotonic] make of the buckets. *)
Record prepared (bs e : buckets) : Prop := {
  pr_sorted : StronglySorted bounds_lt e;
  pr_up : counts_up e;
  pr_num : Forall (λ b, IsNaN (count b) = false) e;
  pr_sound : ∀ x, x ∈ e → ∃ y, y ∈ bs ∧ upperBound x = upperBound y;
  pr_cover : ∀ y, y ∈ bs → ∃ x, x ∈ e ∧ fkey (upperBound x) = fkey (upperBound y);
  (** Counts: those of equal bounds added up, then the running maximum, but for the last. *)
  pr_counts : ∃ merged, upperBound <$> e = upperBound <$> merged ∧
    (∀ m, m ∈ merged → merged_count bs m) ∧ last e = last merged ∧
    ∀ i x, S i < length e → e !! i = Some x → greatest_count merged i (count x);
}.

Definition hist_bucket (b : bucket) : Prop := IsNaN (upperBound b) = false ∧ nonneg (count b) = true.

Lemma coalesce_loop_counts last bs :
  Forall (λ b, nonneg (count b) = true) (last :: bs) →
  Forall (λ b, IsNaN (count b) = false) (coalesce_loop last bs).
Proof.
  revert last. induction bs as [|b bs IH]; intros last Hn; cbn [coalesce_loop].
  { apply Forall_cons in Hn as [Hn _]. repeat constructor. by apply nonneg_notnan. }
  apply Forall_cons in Hn as [Hl Hn]. pose proof (proj1 (Forall_cons _ _ _) Hn) as [Hb Hn'].
  case_if.
  - apply IH. constructor; [|done]. by apply float_add_nonneg.
  - constructor; [by apply nonneg_notnan|by apply IH].
Qed.

Lemma buckets_Less_sw bs :
  Forall (λ b, IsNaN (upperBound b) = false) bs → StrictWeakOn (λ b, b ∈ bs) buckets_Less.
Proof.
  intros Hn. rewrite Forall_forall in Hn. unfold buckets_Less. split.
  - intros a _. apply SFltb_irrefl.
  - intros a b c _ _ _. apply SFltb_trans.
  - intros a b c Ha Hb Hc. apply (swo_incomp (P:=λ x, IsNaN x = false) (lt:=SFltb)); auto.
Qed.

Lemma prepare_spec `{GoSort} b0 bs :
  Forall hist_bucket (b0 :: bs) →
  ∃ c h e, go_sort buckets_Less (b0 :: bs) = c :: h ∧
    ensureMonotonic (coalesce_loop c h) = Ok e ∧ prepared (b0 :: bs) e ∧
    last e = last (coalesce_loop c h).
Proof.
  intros Hb. set (l := b0 :: bs) in *.
  pose proof (go_sort_perm buckets_Less l) as Hp.
  assert (Forall hist_bucket (go_sort buckets_Less l)) as Hb' by by rewrite Hp.
  assert (Forall (λ b, IsNaN (upperBound b) = false) l) as Hn
    by (eapply Forall_impl; [exact Hb|]; intros ? [? ?]; done).
  pose proof (go_sort_sorted_on buckets_Less l (buckets_Less_sw l Hn)) as Hs.
  destruct (go_sort buckets_Less l) as [|c h] eqn:Hgo; [by apply Permutation_nil_l in Hp|].
  assert (Forall (λ b, IsNaN (upperBound b) = false) (c :: h)) as Hn'
    by (eapply Forall_impl; [exact Hb'|]; intros ? [? ?]; done).
  assert (Forall (λ b, nonneg (count b) = true) (c :: h)) as Hc
    by (eapply Forall_impl; [exact Hb'|]; intros ? [? ?]; done).
  pose proof (coalesce_loop_sorted c h Hn' Hs) as Hcs.
  pose proof (coalesce_loop_counts c h Hc) as Hcc.
  pose proof (coalesce_loop_bounds c h) as Hsound.
  pose proof (coalesce_loop_covers c h) as Hcover.
  destruct (coalesce_loop c h) as [|d k] eqn:Hco.
  { destruct (coalesce_loop_head c h) as (x & Hx & _). rewrite Hco in Hx. set_solver. }
  exists c, h, (monotonic_loop (count d) (d :: k)).
  pose proof (monotonic_loop_bounds (count d) (d :: k)) as Hbd.
  assert (∀ x, x ∈ monotonic_loop (count d) (d :: k) → ∃ y, y ∈ d :: k ∧ upperBound x = upperBound y) as Hmb.
  { intros x Hx. apply (list_elem_of_fmap_2 upperBound) in Hx. rewrite Hbd in Hx.
    apply list_elem_of_fmap in Hx as (y & ? & ?). eauto. }
  split; [done|split; [by rewrite Hco|split; [split|rewrite Hco; apply monotonic_loop_last]]].
  - assert (∀ l1 l2, upperBound <$> l1 = upperBound <$> l2 →
      StronglySorted bounds_lt l1 → StronglySorted bounds_lt l2) as Hmap.
    { induction l1 as [|x l1 IH]; intros [|y l2] Heq Hss; try done.
      rewrite !fmap_cons in Heq. injection Heq as Hxy Heq.
      apply StronglySorted_inv in Hss as [Hss Hx]. constructor; [by apply IH|].
      apply Forall_forall. intros z Hz. apply (list_elem_of_fmap_2 upperBound) in Hz.
      rewrite <-Heq in Hz. apply list_elem_of_fmap in Hz as (w & Hw & Hw').
      rewrite Forall_forall in Hx. unfold bounds_lt. rewrite <-Hxy, Hw. by apply Hx. }
    by apply (Hmap (d :: k)).
  - apply monotonic_loop_up; [by apply Forall_cons in Hcc as [? _]|done].
  - apply monotonic_loop_num; [by apply Forall_cons in Hcc as [? _]|done].
  - intros x Hx. apply Hmb in Hx as (y & Hy & ->). apply Hsound in Hy as (z & Hz & ->).
    exists z. split; [by rewrite <-Hp|done].
  - intros y Hy. rewrite <-Hp in Hy. destruct (Hcover y Hn' Hy) as (x & Hx & Heq).
    assert (upperBound x ∈ upperBound <$> monotonic_loop (count d) (d :: k)) as Hin
      by (rewrite Hbd; by apply list_elem_of_fmap_2).
    apply list_elem_of_fmap in Hin as (z & Hz & Hz'). exists z. by rewrite <-Hz.
  - exists (d :: k). split_and!; [done| |apply monotonic_loop_last|].
    + intros m Hm. rewrite <-Hco in Hm. destruct (coalesce_loop_sums c h m Hn' Hs Hm) as (x & xs & Hf & Hm').
      exists x, xs. split; [|done]. rewrite <-Hf. by rewrite Hp.
    + intros i x Hi Hx. rewrite monotonic_loop_length in Hi.
      destruct (monotonic_loop_greatest (count d) (d :: k) i x) as (_ & Hin & Hall);
        [by apply Forall_cons in Hcc as [? _]|done..|]. split; [|done].
      destruct Hin as [Hin|]; [|done]. exists 0, d. split_and!; [lia|done..].
Qed.

Lemma coalesce_loop_last last' bs :
  Forall (λ b, IsNaN (upperBound b) = false) (last' :: bs) →
  ∃ x y, last (coalesce_loop last' bs) = Some x ∧ last (last' :: bs) = Some y ∧
    fkey (upperBound x) = fkey (upperBound y).
Proof.
  revert last'. induction bs as [|b bs IH]; intros last' Hn; cbn [coalesce_loop].
  { exists last', last'. done. }
  apply Forall_cons in Hn as [Hnl Hn]. pose proof (proj1 (Forall_cons _ _ _) Hn) as [Hnb Hn'].
  rewrite (last_cons last' (b :: bs)). destruct (SFeqb _ _) eqn:E.
  - destruct (IH (MkBucket (upperBound last') (count last' + count b)%F)) as (x & y & Hx & Hy & Heq);
      [by constructor|].
    rewrite last_cons in Hy |- *. destruct (last bs) as [z|]; [by exists x, y; simplify_eq|].
    exists x, b. simplify_eq/=. repeat split; [done|]. rewrite Heq. symmetry. by apply SFeqb_key.
  - destruct (IH b Hn) as (x & y & Hx & Hy & Heq). exists x, y.
    by rewrite last_cons, Hx, Hy.
Qed.

Lemma IsPosInf_key f : IsPosInf f = bool_decide (fkey f = (2, 0, 0)%Z).
Proof.
  destruct f as [s|s| |s m e]; simpl; try done; destruct s; try done.
Qed.

Section spec.
Context `{GoSort}.

(** The value for the bucket [b] of [e]. *)
Definition bucket_value (e : buckets) (b : nat) (rank : float64) : option float64 :=
  if b =? length e - 1 then upperBound <$> e !! (length e - 2)
  else
    match b with
    | 0 => x ← e !! 0;
           Some (if (upperBound x <=? f_zero)%F then upperBound x
                 else f_zero + (upperBound x - f_zero) * (rank / count x))%F
    | S b' => p ← e !! b'; x ← e !! b;
              Some (upperBound p + (upperBound x - upperBound p) *
                      ((rank - count p) / (count x - count p)))%F
    end.

Lemma bucketQuantile_ok q b0 bs :
  (q <? f_zero)%F = false → (q >? f_one)%F = false → Forall hist_bucket (b0 :: bs) →
  ∃ e top, prepared (b0 :: bs) e ∧ last e = Some top ∧
    if IsPosInf (upperBound top) && (2 <=? length e) then
      let rank := (q * count top)%F in
      ∃ b v, b ≤ length e - 1 ∧
        (∀ i x, i < b → e !! i = Some x → (rank <=? count x)%F = false) ∧
        (b < length e - 1 → ∃ x, e !! b = Some x ∧ (rank <=? count x)%F = true) ∧
        bucket_value e b rank = Some v ∧ bucketQuantile q (b0 :: bs) = Ok v
    else bucketQuantile q (b0 :: bs) = Ok NaN.
Proof.
  intros Hq0 Hq1 Hb.
  destruct (prepare_spec b0 bs Hb) as (c & h & e & Hgo & He & Hpr & Hlast).
  assert (Forall (λ b, IsNaN (upperBound b) = false) (c :: h)) as Hn.
  { rewrite <-Hgo, go_sort_perm. eapply Forall_impl; [exact Hb|]. by intros ? [? ?]. }
  destruct (coalesce_loop_last c h Hn) as (top & y & Htop & Hy & Hkey).
  exists e, top. rewrite <-Hlast in Htop. split; [done|split; [done|]].
  unfold bucketQuantile. rewrite Hq0, Hq1, Hgo. cbv zeta.
  rewrite (index_back (c :: h) 1 _ y) by (first [by apply last_lookup_sub|simpl; lia]).
  cbn [res_bind]. rewrite !IsPosInf_key, Hkey. case_bool_decide as Hinf; cbn [negb andb]; [|done].
  unfold coalesceBuckets. cbn [res_bind]. rewrite He. cbn [res_bind].
  destruct (Nat.leb_spec 2 (length e)) as [Hl|Hl].
  2: { by rewrite (proj2 (Nat.ltb_lt _ _)) by lia. }
  rewrite (proj2 (Nat.ltb_ge _ _)) by lia.
  rewrite (index_back e 1 _ top) by (first [by apply last_lookup_sub|simpl; lia]). cbn [res_bind].
  set (rank := (q * count top)%F).
  set (f := λ i, match e !! i with Some x => (rank <=? count x)%F | None => false end).
  assert (∀ i, i < length e → ∃ x, e !! i = Some x ∧ f i = (rank <=? count x)%F) as Hf.
  { intros i Hi. destruct (lookup_lt_is_Some_2 e i Hi) as [x Hx]. exists x. unfold f. by rewrite Hx. }
  destruct (Search_least (length e - 1) f) as (Hb1 & Hb2 & Hb3).
  { intros i j Hij Hj. destruct (Hf i) as (x & Hx & ->); [lia|]. destruct (Hf j) as (z & Hz & ->); [lia|].
    intros Hr. apply (SFleb_trans _ (count x)); [done|].
    pose proof (pr_num _ _ Hpr) as Hnum. rewrite Forall_forall in Hnum.
    rewrite SFleb_ltb by (eapply Hnum, list_elem_of_lookup_2; done).
    by rewrite (pr_up _ _ Hpr i j x z) by (done || lia). }
  exists (Search (length e - 1) f). set (b := Search (length e - 1) f) in *.
  assert (∃ v, bucket_value e b rank = Some v ∧
    (if b =? length e - 1 then let* x := index e (Z.of_nat (length e) - 2) in Ok (upperBound x)
     else let* first := index e 0 in
          if (b =? 0) && (upperBound first <=? f_zero)%F then Ok (upperBound first)
          else interpolate e b rank) = Ok v) as (v & Hv & Hcode).
  { unfold bucket_value. destruct (Nat.eqb_spec b (length e - 1)) as [Hbe|Hbe].
    { destruct (Hf (length e - 2)) as (x & Hx & _); [lia|]. rewrite Hx. exists (upperBound x).
      split; [done|]. by rewrite (index_back e 2 _ x) by (done || lia). }
    destruct (Hf 0) as (x0 & Hx0 & _); [lia|]. change 0%Z with (Z.of_nat 0).
    rewrite (index_nat e 0 x0) by done.
    destruct (Hf b) as (x & Hx & _); [lia|]. cbn [res_bind]. destruct b as [|b'].
    - rewrite Hx0. simplify_eq. cbn [mbind option_bind Nat.eqb andb]. eexists. split; [done|].
      case_if; [done|]. unfold interpolate. rewrite (index_nat e 0 x0) by done. done.
    - destruct (Hf b') as (p & Hp & _); [lia|]. rewrite Hp, Hx.
      cbn [mbind option_bind Nat.eqb andb]. eexists. split; [done|]. unfold interpolate.
      rewrite (index_nat e _ x), (index_nat e _ p) by done. done. }
  exists v. split; [done|split; [|split; [|split; [done|exact Hcode]]]].
  - intros i x Hi Hx. specialize (Hb3 i Hi). unfold f in Hb3. by rewrite Hx in Hb3.
  - intros Hlt. destruct (Hf b) as (x & Hx & Hfx); [lia|]. exists x. split; [done|].
    rewrite <-Hfx. by apply Hb2.
Qed.

(** A histogram with a bucket has a quantile: no index is out of range. *)
Lemma bucketQuantile_total q bs : bs ≠ [] → ∃ v, bucketQuantile q bs = Ok v.
Proof.
  intros Hbs. unfold bucketQuantile. destruct (q <? f_zero)%F; [by eexists|]. destruct (q >? f_one)%F; [by eexists|].
  cbv zeta.
  assert (∀ (l : buckets) k, 0 < k ≤ length l → ∃ x, index l (Z.of_nat (length l) - Z.of_nat k) = Ok x) as Hidx.
  { intros l k Hk. destruct (lookup_lt_is_Some_2 l (length l - k)) as [x Hx]; [lia|].
    exists x. apply (index_back l k); (done || lia). }
  destruct (go_sort buckets_Less bs) as [|c h] eqn:Hgo.
  { pose proof (go_sort_perm buckets_Less bs) as Hp. rewrite Hgo in Hp. by apply Permutation_nil_l in Hp. }
  destruct (Hidx (c :: h) 1) as [x Hx]; [simpl; lia|]. change (Z.of_nat 1) with 1%Z in Hx. rewrite Hx. cbn [res_bind]. case_if; [by eexists|].
  unfold coalesceBuckets. cbn [res_bind].
  destruct (coalesce_loop c h) as [|d k] eqn:Hco.
  { destruct (coalesce_loop_head c h) as (y & Hy & _). rewrite Hco in Hy. set_solver. }
  unfold ensureMonotonic. cbn [res_bind]. set (e := monotonic_loop _ _).
  assert (e ≠ []) as He by (intros He; apply (f_equal length) in He; unfold e in He;
    by rewrite monotonic_loop_length in He).
  destruct (Nat.ltb_spec (length e) 2) as [|Hl]; [by eexists|].
  destruct (Hidx e 1) as [y Hy]; [lia|]. change (Z.of_nat 1) with 1%Z in Hy. rewrite Hy. cbn [res_bind].
  set (b := Search _ _). pose proof (proj1 (Search_boundary (length e - 1) (λ i, match e !! i with
    | Some x => (count x >=? q * count y)%F | None => false end))) as Hb. fold b in Hb.
  destruct (Nat.eqb_spec b (length e - 1)) as [|Hb'].
  { destruct (Hidx e 2) as [z Hz]; [lia|]. change (Z.of_nat 2) with 2%Z in Hz. rewrite Hz. by eexists. }
  assert (∀ i, i < length e → ∃ z, index e (Z.of_nat i) = Ok z) as Hi.
  { intros i Hi. destruct (lookup_lt_is_Some_2 e i Hi) as [z Hz]. exists z. by apply index_nat. }
  destruct (Hi 0) as [z Hz]; [lia|]. change 0%Z with (Z.of_nat 0). rewrite Hz. cbn [res_bind].
  case_if; [by eexists|]. unfold interpolate. destruct (Hi b) as [w ->]; [lia|]. cbn [res_bind].
  destruct b as [|b']; [by eexists|]. destruct (Hi b') as [u ->]; [lia|]. by eexists.
Qed.

(** C24. For a histogram with numeric bounds and counts that are not negative and a
    quantile between 0 and 1, the buckets are brought in ascending order; the counts of
    buckets with one bound are added up, and every count but the last is raised to the
    greatest before it ([prepared]).  The result is the interpolation in the least bucket
    that reaches the rank, which is the quantile times the last count; it is the second
    highest bound when only the last bucket reaches it, and NaN without a +Inf bucket or
    with fewer than two bounds. *)
Theorem bucketQuantile_spec q b0 bs :
  (q <? f_zero)%F = false → (q >? f_one)%F = false → Forall hist_bucket (b0 :: bs) →
  ∃ e top, prepared (b0 :: bs) e ∧ last e = Some top ∧
    if IsPosInf (upperBound top) && (2 <=? length e) then
      let rank := (q * count top)%F in
      ∃ b v, b ≤ length e - 1 ∧
        (∀ i x, i < b → e !! i = Some x → (rank <=? count x)%F = false) ∧
        (b < length e - 1 → ∃ x, e !! b = Some x ∧ (rank <=? count x)%F = true) ∧
        bucket_value e b rank = Some v ∧ bucketQuantile q (b0 :: bs) = Ok v
    else bucketQuantile q (b0 :: bs) = Ok NaN.
Proof. apply bucketQuantile_ok. Qed.

(** Samples without NaN in the order of their values. *)
Lemma value_Less_sw (l : list Sample) :
  Forall (λ s, IsNaN (sV s) = false) l → StrictWeakOn (λ s, s ∈ l) value_Less.
Proof.
  intros Hn. rewrite Forall_forall in Hn. unfold value_Less. split.
  - intros a Ha. by rewrite (Hn a Ha), SFltb_irrefl.
  - intros a b c Ha Hb Hc. rewrite (Hn a Ha), (Hn b Hb). apply SFltb_trans.
  - intros a b c Ha Hb Hc. rewrite (Hn a Ha), (Hn b Hb).
    apply (swo_incomp (P:=λ x, IsNaN x = false) (lt:=SFltb)); auto.
Qed.

Lemma reverse_Less_sw (l : list Sample) :
  Forall (λ s, IsNaN (sV s) = false) l → StrictWeakOn (λ s, s ∈ l) reverse_Less.
Proof.
  intros Hn. rewrite Forall_forall in Hn. unfold reverse_Less. split.
  - intros a Ha. by rewrite (Hn a Ha), SFltb_irrefl.
  - intros a b c Ha Hb Hc. rewrite (Hn a Ha), (Hn b Hb). intros. by apply (SFltb_trans _ (sV b)).
  - intros a b c Ha Hb Hc. rewrite (Hn a Ha), (Hn b Hb). cbn [orb]. intros H1 H2.
    apply (swo_incomp (P:=λ x, IsNaN x = false) (lt:=SFltb) _ (sV b)); auto.
Qed.

(** The quantile of samples without NaN is the weighted mean of two neighbours in
    the order of the values. *)
Lemma quantile_spec (int64_undefined : float64 → Z) q values lo hi :
  values ≠ [] → Forall (λ s, IsNaN (sV s) = false) values →
  (q <? f_zero)%F = false → (q >? f_one)%F = false →
  let n := float_of_Z (Z.of_nat (length values)) in
  let rank := (q * (n - f_one))%F in
  trunc (Max f_zero (Floor rank)) = Some (Z.of_nat lo) →
  trunc (Min (n - f_one)%F (Max f_zero (Floor rank) + f_one)%F) = Some (Z.of_nat hi) →
  lo < length values → hi < length values → in_int64 (Z.of_nat lo) → in_int64 (Z.of_nat hi) →
  ∃ sorted x y, sorted ≡ₚ values ∧ StronglySorted (λ a b, (sV b <? sV a)%F = false) sorted ∧
    sorted !! lo = Some x ∧ sorted !! hi = Some y ∧
    let weight := (rank - Floor rank)%F in
    quantile int64_undefined q values = Ok (sV x * (f_one - weight) + sV y * weight)%F.
Proof.
  intros Hne Hn Hq0 Hq1 n rank Hlo Hhi Hlol Hhil Hilo Hihi.
  pose proof (go_sort_sorted_on value_Less values (value_Less_sw values Hn)) as Hs.
  pose proof (go_sort_perm value_Less values) as Hp.
  destruct (lookup_lt_is_Some_2 (go_sort value_Less values) lo) as [x Hx]; [by rewrite Hp|].
  destruct (lookup_lt_is_Some_2 (go_sort value_Less values) hi) as [y Hy]; [by rewrite Hp|].
  exists (go_sort value_Less values), x, y. split; [done|split; [|split; [done|split; [done|]]]].
  - clear -Hs. induction Hs as [|a l Hs IH Ha]; [constructor|]. constructor; [done|].
    eapply Forall_impl; [exact Ha|]. intros b Hb. by apply orb_false_iff in Hb as [_ Hb].
  - unfold quantile. destruct values as [|v0 values]; [done|]. rewrite Hq0, Hq1. cbv zeta.
    rewrite go_sort_length. fold n. fold rank. unfold int64_of. rewrite Hlo, Hhi.
    rewrite !bool_decide_true by done. by rewrite (index_nat _ lo x), (index_nat _ hi y).
Qed.

End spec.

(** ** Examples *)

Module Toy.

Definition b (u c : Z) : bucket := MkBucket (float_of_Z u) (float_of_Z c).
Definition top (c : Z) : bucket := MkBucket (Inf false) (float_of_Z c).
Definition half : float64 := (float_of_Z 1 / float_of_Z 2)%F.

Example median : bucketQuantile half [top 10; b 2 8; b 1 2] = Ok (float_of_Z 3 / float_of_Z 2)%F.
Proof. vm_compute. done. Qed.

(** The last bucket keeps a count below the one before it. *)
Example ensureMonotonic_skips_last :
  ensureMonotonic [b 1 10; b 2 4; top 7] = Ok [b 1 10; b 2 10; top 7].
Proof. vm_compute. done. Qed.

(** A quantile that is not a number indexes the samples with the conversion of NaN,
    the least integer on the usual platforms. *)
Example quantile_nan_panics :
  quantile (λ _, min_int64) NaN [sample_of ∅ (float_of_Z 1)] = index_error.
Proof. vm_compute. done. Qed.

End Toy.

Lemma bucketQuantile_spec_witness :
  ∃ e top, prepared [Toy.top 10; Toy.b 2 8; Toy.b 1 2] e ∧ last e = Some top.
Proof.
  destruct (bucketQuantile_spec Toy.half (Toy.top 10) [Toy.b 2 8; Toy.b 1 2]) as (e & top & H1 & H2 & _);
    [by vm_compute..|by repeat constructor|].
  by exists e, top.
Defined.

End Qnt.
