(* ===== verification/PromAst.v ===== *)
(** * Queries

    The syntax trees the engine evaluates: the node types of
    [github.com/prometheus/prometheus/promql/parser] with the fields
    [src/pkg/promql] uses.  A node has an address, the identity of its pointer.
    Durations are nanoseconds.

    What the parser package computes on trees is the class [ParserLib]: the type of
    an expression and the depth-first walk, with their documented behaviour. *)
From S2P Require Import Prelude Float PromLabels PromValue Labels.

Module Ast.
Import Val.

(** Operators; [ItemOther] is any other token. *)
Inductive ItemType :=
  | ADD | SUB | MUL | DIV | POW | MOD
  | EQL | NEQ | GTR | LSS | GTE | LTE
  | LAND | LOR | LUNLESS
  | SUM | AVG | COUNT | MIN | MAX | STDDEV | STDVAR | TOPK | BOTTOMK | COUNT_VALUES | QUANTILE
  | ItemOther.
#[global] Instance ItemType_eq_dec : EqDecision ItemType.
Proof. solve_decision. Defined.

Definition IsComparisonOperator (op : ItemType) : bool :=
  match op with EQL | NEQ | GTR | LSS | GTE | LTE => true | _ => false end.

Inductive VectorMatchCardinality := CardOneToOne | CardManyToOne | CardOneToMany | CardManyToMany.
#[global] Instance Card_eq_dec : EqDecision VectorMatchCardinality.
Proof. solve_decision. Defined.

Record VectorMatching := MkMatching {
  Card : VectorMatchCardinality;
  MatchingLabels : list string;
  On : bool;
  Include : list string;
}.

(** A series of the storage: its labels and what its iterators read. *)
Record stored := MkStored { st_Labels : labels; st_samples : list (Z * sval) }.

(** What reading a set of series to its end gives: the series, and the error left. *)
Record SeriesSet := MkSeriesSet { set_series : list stored; set_Err : option goerror }.

Notation addr := nat.

(** [v_Series] is the field [Series] as the engine creates it, [None] for a selector of
    the query.  The field [UnexpandedSeriesSet] and the series read from it are kept
    by the evaluator under the address of the selector. *)
Record vsel := MkVsel {
  v_addr : addr;
  v_Offset : Z;
  LabelMatchers : list Lbl.Matcher;
  v_Series : option (list stored);
}.

Inductive expr :=
  | VectorSelector (v : vsel)
  | MatrixSelector (a : addr) (v : vsel) (Range : Z)
  | SubqueryExpr (a : addr) (e : expr) (Range Offset Step : Z)
  | AggregateExpr (a : addr) (Op : ItemType) (e : expr) (Param : option expr)
      (Grouping : list string) (Without : bool)
  | BinaryExpr (a : addr) (Op : ItemType) (LHS RHS : expr) (matching : VectorMatching) (ReturnBool : bool)
  | Call (a : addr) (Func : string) (ReturnType : ValueType) (Args : list expr)
  | NumberLiteral (a : addr) (Val : float64)
  | StringLiteral (a : addr) (Val : string)
  | ParenExpr (a : addr) (e : expr)
  | UnaryExpr (a : addr) (Op : ItemType) (e : expr).

Definition address (e : expr) : addr :=
  match e with
  | VectorSelector v => v_addr v
  | MatrixSelector a _ _ | SubqueryExpr a _ _ _ _ | AggregateExpr a _ _ _ _ _
  | BinaryExpr a _ _ _ _ _ | Call a _ _ _ | NumberLiteral a _ | StringLiteral a _
  | ParenExpr a _ | UnaryExpr a _ _ => a
  end.

(** Children, in the order they are visited. *)
Definition children (e : expr) : list expr :=
  match e with
  | VectorSelector _ | NumberLiteral _ _ | StringLiteral _ _ => []
  | MatrixSelector _ v _ => [VectorSelector v]
  | SubqueryExpr _ e _ _ _ | ParenExpr _ e | UnaryExpr _ _ e => [e]
  | AggregateExpr _ _ e param _ _ => e :: option_list param
  | BinaryExpr _ _ l r _ _ => [l; r]
  | Call _ _ _ args => args
  end.

(** ** Induction through argument lists *)

Section expr_ind.
Context (P : expr → Prop).
Context (Hvec : ∀ v, P (VectorSelector v)).
Context (Hmat : ∀ a v r, P (MatrixSelector a v r)).
Context (Hsub : ∀ a e r o s, P e → P (SubqueryExpr a e r o s)).
Context (Hagg : ∀ a op e p g w, P e → from_option P True p → P (AggregateExpr a op e p g w)).
Context (Hbin : ∀ a op l r m b, P l → P r → P (BinaryExpr a op l r m b)).
Context (Hcall : ∀ a f t args, Forall P args → P (Call a f t args)).
Context (Hnum : ∀ a v, P (NumberLiteral a v)).
Context (Hstr : ∀ a s, P (StringLiteral a s)).
Context (Hpar : ∀ a e, P e → P (ParenExpr a e)).
Context (Hun : ∀ a op e, P e → P (UnaryExpr a op e)).

Fixpoint expr_full_ind (e : expr) : P e :=
  match e with
  | VectorSelector v => Hvec v
  | MatrixSelector a v r => Hmat a v r
  | SubqueryExpr a e r o s => Hsub a e r o s (expr_full_ind e)
  | AggregateExpr a op e p g w =>
      Hagg a op e p g w (expr_full_ind e)
        (match p as q return from_option P True q with Some x => expr_full_ind x | None => I end)
  | BinaryExpr a op l r m b => Hbin a op l r m b (expr_full_ind l) (expr_full_ind r)
  | Call a f t args =>
      Hcall a f t args
        ((fix go l : Forall P l :=
            match l with
            | [] => @List.Forall_nil _ P
            | x :: l => @List.Forall_cons _ P x l (expr_full_ind x) (go l)
            end) args)
  | NumberLiteral a v => Hnum a v
  | StringLiteral a s => Hstr a s
  | ParenExpr a e => Hpar a e (expr_full_ind e)
  | UnaryExpr a op e => Hun a op e (expr_full_ind e)
  end.
End expr_ind.

(** ** The walk

    A visitor sees a node and the path to it, root first, and says whether to go
    on below the node; an error ends the whole walk. *)

Definition visitor (S : Type) : Type := S → expr → list expr → S * (bool + goerror).

(** The documented order: a node before its children, the children in order. *)
Section walk.
Context {S : Type} (visit : visitor S).

Definition walk_list (walk : S → expr → S * option goerror) : S → list expr → S * option goerror :=
  fix go s l :=
    match l with
    | [] => (s, None)
    | e :: l => match walk s e with
                | (s, None) => go s l
                | (s, Some err) => (s, Some err)
                end
    end.

Fixpoint walk_doc (fuel : nat) (path : list expr) (s : S) (e : expr) : S * option goerror :=
  match fuel with
  | 0 => (s, None)
  | Datatypes.S fuel =>
      match visit s e path with
      | (s, inr err) => (s, Some err)
      | (s, inl false) => (s, None)
      | (s, inl true) => walk_list (walk_doc fuel (path ++ [e])) s (children e)
      end
  end.
End walk.

Fixpoint depth (e : expr) : nat :=
  match e with
  | VectorSelector _ | NumberLiteral _ _ | StringLiteral _ _ => 1
  | MatrixSelector _ _ _ => 2
  | SubqueryExpr _ e _ _ _ | ParenExpr _ e | UnaryExpr _ _ e => S (depth e)
  | AggregateExpr _ _ e param _ _ =>
      S (depth e `max` match param with Some p => depth p | None => 0 end)
  | BinaryExpr _ _ l r _ _ => S (depth l `max` depth r)
  | Call _ _ _ args => S (foldr (λ e n, depth e `max` n) 0 args)
  end.

Class ParserLib := {
  (** [expr.Type()]. *)
  expr_Type : expr → ValueType;
  (** [parser.Walk]; [parser.Inspect] is the same with the error dropped. *)
  Walk : ∀ {S : Type}, visitor S → S → expr → S * option goerror;

  expr_Type_doc : ∀ e, expr_Type e =
    match e with
    | VectorSelector _ | AggregateExpr _ _ _ _ _ _ => ValueTypeVector
    | MatrixSelector _ _ _ | SubqueryExpr _ _ _ _ _ => ValueTypeMatrix
    | NumberLiteral _ _ => ValueTypeScalar
    | StringLiteral _ _ => ValueTypeString
    | ParenExpr _ e | UnaryExpr _ _ e => expr_Type e
    | Call _ _ t _ => t
    | BinaryExpr _ _ l r _ _ =>
        if bool_decide (expr_Type l = ValueTypeScalar ∧ expr_Type r = ValueTypeScalar)
        then ValueTypeScalar else ValueTypeVector
    end;
  Walk_doc : ∀ {S} (v : visitor S) s e, Walk v s e = walk_doc v (depth e) [] s e;
}.

(** ** An instance *)

Fixpoint type_of (e : expr) : ValueType :=
  match e with
  | VectorSelector _ | AggregateExpr _ _ _ _ _ _ => ValueTypeVector
  | MatrixSelector _ _ _ | SubqueryExpr _ _ _ _ _ => ValueTypeMatrix
  | NumberLiteral _ _ => ValueTypeScalar
  | StringLiteral _ _ => ValueTypeString
  | ParenExpr _ e | UnaryExpr _ _ e => type_of e
  | Call _ _ t _ => t
  | BinaryExpr _ _ l r _ _ =>
      if bool_decide (type_of l = ValueTypeScalar ∧ type_of r = ValueTypeScalar)
      then ValueTypeScalar else ValueTypeVector
  end.

#[export] Instance doc_ParserLib : ParserLib | 100 := {
  expr_Type := type_of;
  Walk S v s e := walk_doc v (depth e) [] s e;
  expr_Type_doc e := match e with VectorSelector _ => eq_refl | _ => eq_refl end;
  Walk_doc S v s e := eq_refl;
}.

(** [unwrapParenExpr]. *)
Fixpoint unwrapParenExpr (e : expr) : expr :=
  match e with
  | ParenExpr _ e => unwrapParenExpr e
  | _ => e
  end.

Lemma unwrapParenExpr_type `{ParserLib} e : expr_Type (unwrapParenExpr e) = expr_Type e.
Proof.
  induction e; try done. cbn [unwrapParenExpr]. rewrite IHe. by rewrite (expr_Type_doc (ParenExpr _ _)).
Qed.

End Ast.
