(* ===== verification/Functions.v ===== *)
(** * The functions of the query language

    [src/pkg/promql/functions.go], with the helper that carries the caches of a node
    ([EvalNodeHelper] of [engine.go]).

    A function maps its argument values, its argument expressions and the helper to
    a vector and the helper with its caches.  Transcendental functions, regular
    expressions, decimal text and the conversion of floats outside the range of int64
    are parameters; calendar dates are those of [QueryBuilder].  Timestamps of samples
    are int64, with their differences reduced to int64. *)
From S2P Require Import Prelude Float PromLabels PromValue Quantile Labels PromAst QueryBuilder.

Module Fn.
Import Val Ast Qnt.

(** ** Durations *)

Definition durationMilliseconds (d : Z) : Z := Z.quot d 1000000.
Definition durationToInt64Millis (d : Z) : Z := Z.quot d 1000000.

(** [Duration.Seconds]. *)
Definition Seconds (d : Z) : float64 :=
  (float_of_Z (Z.quot d 1000000000) + float_of_Z (Z.rem d 1000000000) / float_of_Z 1000000000)%F.

(** [float64(ms) / 1000]. *)
Definition in_seconds (ms : Z) : float64 := (float_of_Z ms / float_of_Z 1000)%F.

Definition f_half : float64 := (float_of_Z 1 / float_of_Z 2)%F.
Definition f_2 : float64 := float_of_Z 2.

(** ** Arguments

    Type assertions and indexing panic with run-time errors. *)

Definition assert_error {A} : res A := Err (RuntimeError "interface conversion").

Definition as_Vector (v : value) : res (list Sample) :=
  match v with VVector v => Ok v | _ => assert_error end.
Definition as_Matrix (v : value) : res (list Series) :=
  match v with VMatrix m => Ok m | _ => assert_error end.

(** [vals[i].(Vector)], [vals[i].(Vector)[0].V] and [vals[i].(Matrix)[0]]. *)
Definition vector_arg (vals : list value) (i : Z) : res (list Sample) :=
  let* v := index vals i in as_Vector v.
Definition scalar_arg (vals : list value) (i : Z) : res float64 :=
  let* v := vector_arg vals i in let* s := index v 0 in Ok (sV s).
Definition series_arg (vals : list value) (i : Z) : res Series :=
  let* v := index vals i in let* m := as_Matrix v in index m 0.

Definition string_arg (args : list expr) (i : Z) : res string :=
  let* e := index args i in
  match e with StringLiteral _ s => Ok s | _ => assert_error end.

Record metricWithBuckets := MkMB { mb_metric : labels; mb_buckets : list bucket }.

Section functions.
Context {gsort : GoSort} {grange : GoMapRange} {plabels : PromLabels}.
Context (int64_undefined : float64 → Z).
Context (Exp Log Log2 Log10 : float64 → float64).
Context (ParseFloat : string → option float64).
(** Regular expressions: compiling, matching with submatches, expanding a template. *)
Context {R M : Type} (Compile : string → option R) (FindSubmatch : R → string → option M)
  (Expand : R → string → string → M → string) (LabelNameRE LabelName_IsValid : string → bool).

Record EvalNodeHelper := MkEnh {
  ts : Z;
  out : list Sample;
  dmn : gmap Z labels;
  sigf : gmap Z Z;
  signatureToMetricWithBuckets : gmap Z metricWithBuckets;
  regex : option R;
  h_resultMetric : gmap Z labels;
}.

Definition set_dmn (enh : EvalNodeHelper) (m : gmap Z labels) : EvalNodeHelper :=
  MkEnh (ts enh) (out enh) m (sigf enh) (signatureToMetricWithBuckets enh) (regex enh) (h_resultMetric enh).
Definition set_sigf (enh : EvalNodeHelper) (m : gmap Z Z) : EvalNodeHelper :=
  MkEnh (ts enh) (out enh) (dmn enh) m (signatureToMetricWithBuckets enh) (regex enh) (h_resultMetric enh).
Definition set_buckets (enh : EvalNodeHelper) (m : gmap Z metricWithBuckets) : EvalNodeHelper :=
  MkEnh (ts enh) (out enh) (dmn enh) (sigf enh) m (regex enh) (h_resultMetric enh).
Definition set_regex (enh : EvalNodeHelper) (r : R) : EvalNodeHelper :=
  MkEnh (ts enh) (out enh) ∅ (sigf enh) (signatureToMetricWithBuckets enh) (Some r) (h_resultMetric enh).
Definition set_resultMetric (enh : EvalNodeHelper) (m : gmap Z labels) : EvalNodeHelper :=
  MkEnh (ts enh) (out enh) (dmn enh) (sigf enh) (signatureToMetricWithBuckets enh) (regex enh) m.
Definition set_ts (enh : EvalNodeHelper) (t : Z) : EvalNodeHelper :=
  MkEnh t (out enh) (dmn enh) (sigf enh) (signatureToMetricWithBuckets enh) (regex enh) (h_resultMetric enh).
Definition set_out (enh : EvalNodeHelper) (o : list Sample) : EvalNodeHelper :=
  MkEnh (ts enh) o (dmn enh) (sigf enh) (signatureToMetricWithBuckets enh) (regex enh) (h_resultMetric enh).

(** A new helper; [&EvalNodeHelper{out: ...}] has empty caches. *)
Definition new_helper : EvalNodeHelper := MkEnh 0 [] ∅ ∅ ∅ None ∅.

Definition FunctionCall : Type := list value → list expr → EvalNodeHelper → res (list Sample * EvalNodeHelper).

(** [append(enh.out, sample)], and the same after a pure computation. *)
Definition return_sample (enh : EvalNodeHelper) (s : Sample) : res (list Sample * EvalNodeHelper) :=
  Ok (out enh ++ [s], enh).
Definition return_value (enh : EvalNodeHelper) (v : float64) : res (list Sample * EvalNodeHelper) :=
  return_sample enh (sample_of ∅ v).
Definition return_out (enh : EvalNodeHelper) : res (list Sample * EvalNodeHelper) := Ok (out enh, enh).

(** ** The caches of the helper *)

Definition plain_dropMetricName (l : labels) : labels := Del [MetricName] l.

Definition dropMetricName (enh : EvalNodeHelper) (l : labels) : labels * EvalNodeHelper :=
  let h := Hash l in
  match dmn enh !! h with
  | Some ret => (ret, enh)
  | None => let ret := plain_dropMetricName l in (ret, set_dmn enh (<[h := ret]> (dmn enh)))
  end.

(** [signatureFunc] of the package: [sort.Strings(names)] sorts the names in place. *)
Definition plain_signature (on : bool) (names : list string) (l : labels) : Z :=
  let names := go_sort str_lt names in
  if on then HashForLabels names l else HashWithoutLabels names l.

Definition signatureFunc (on : bool) (names : list string) (enh : EvalNodeHelper) (l : labels) : Z * EvalNodeHelper :=
  let h := Hash l in
  match sigf enh !! h with
  | Some ret => (ret, enh)
  | None => let ret := plain_signature on names l in (ret, set_sigf enh (<[h := ret]> (sigf enh)))
  end.

(** The loops that append one sample per element, with the metric name dropped. *)
Fixpoint map_dropping (f : Sample → float64) (vec : list Sample) (enh : EvalNodeHelper)
    : list Sample * EvalNodeHelper :=
  match vec with
  | [] => (out enh, enh)
  | el :: vec =>
      let '(m, enh) := dropMetricName enh (s_Metric el) in
      map_dropping f vec (set_out enh (out enh ++ [sample_of m (f el)]))
  end.

(** ** Time, rates and deltas *)

Definition funcTime : FunctionCall := λ vals args enh,
  Ok ([sample_of ∅ (in_seconds (ts enh))], enh).

(** The loop that looks for counter resets: the correction and the last value. *)
Fixpoint correction_loop (isCounter : bool) (correction lastValue : float64) (ps : list Point)
    : float64 * float64 :=
  match ps with
  | [] => (correction, lastValue)
  | p :: ps =>
      let correction := if isCounter && (V p <? lastValue)%F then (correction + lastValue)%F else correction in
      correction_loop isCounter correction (V p) ps
  end.

Definition selector_range (args : list expr) : res (Z * Z) :=
  let* e := index args 0 in
  match e with
  | MatrixSelector _ vs range => Ok (range, v_Offset vs)
  | _ => assert_error
  end.

Definition extrapolatedRate (vals : list value) (args : list expr) (enh : EvalNodeHelper)
    (isCounter isRate : bool) : res (list Sample * EvalNodeHelper) :=
  let* (range, offset) := selector_range args in
  let* samples := series_arg vals 0 in
  let rangeStart := wrap64 (ts enh - durationMilliseconds (wrap64 (range + offset))) in
  let rangeEnd := wrap64 (ts enh - durationMilliseconds offset) in
  let points := Points samples in
  match points, last points with
  | first :: _ :: _, Some lastp =>
      let '(counterCorrection, lastValue) := correction_loop isCounter f_zero f_zero points in
      let resultValue := (lastValue - V first + counterCorrection)%F in
      let durationToStart := in_seconds (wrap64 (T first - rangeStart)) in
      let durationToEnd := in_seconds (wrap64 (rangeEnd - T lastp)) in
      let sampledInterval := in_seconds (wrap64 (T lastp - T first)) in
      let averageDurationBetweenSamples :=
        (sampledInterval / float_of_Z (Z.of_nat (length points) - 1))%F in
      let durationToStart :=
        if isCounter && (resultValue >? f_zero)%F && (V first >=? f_zero)%F then
          let durationToZero := (sampledInterval * (V first / resultValue))%F in
          if (durationToZero <? durationToStart)%F then durationToZero else durationToStart
        else durationToStart in
      let extrapolationThreshold :=
        (averageDurationBetweenSamples * (float_of_Z 11 / float_of_Z 10))%F in
      let extrapolateToInterval :=
        (sampledInterval + (if (durationToStart <? extrapolationThreshold)%F then durationToStart
                            else averageDurationBetweenSamples / f_2))%F in
      let extrapolateToInterval :=
        (extrapolateToInterval + (if (durationToEnd <? extrapolationThreshold)%F then durationToEnd
                                  else averageDurationBetweenSamples / f_2))%F in
      let resultValue := (resultValue * (extrapolateToInterval / sampledInterval))%F in
      return_value enh (if isRate then (resultValue / Seconds range)%F else resultValue)
  | _, _ => return_out enh
  end.

Definition funcDelta : FunctionCall := λ vals args enh, extrapolatedRate vals args enh false false.
Definition funcRate : FunctionCall := λ vals args enh, extrapolatedRate vals args enh true true.
Definition funcIncrease : FunctionCall := λ vals args enh, extrapolatedRate vals args enh true false.

Definition instantValue (vals : list value) (enh : EvalNodeHelper) (isRate : bool)
    : res (list Sample * EvalNodeHelper) :=
  let* samples := series_arg vals 0 in
  match reverse (Points samples) with
  | lastSample :: previousSample :: _ =>
      let resultValue :=
        if isRate && (V lastSample <? V previousSample)%F then V lastSample
        else (V lastSample - V previousSample)%F in
      let sampledInterval := wrap64 (T lastSample - T previousSample) in
      if (sampledInterval =? 0)%Z then return_out enh
      else return_value enh (if isRate then (resultValue / in_seconds sampledInterval)%F else resultValue)
  | _ => return_out enh
  end.

Definition funcIrate : FunctionCall := λ vals args enh, instantValue vals enh true.
Definition funcIdelta : FunctionCall := λ vals args enh, instantValue vals enh false.

(** ** Smoothing *)

Definition calcTrendValue (i : nat) (tf s0 s1 b : float64) : float64 :=
  match i with
  | 0 => b
  | _ => (tf * (s1 - s0) + (f_one - tf) * b)%F
  end.

(** The loop over the points from index [i] on. *)
Fixpoint smooth_loop (i : nat) (sf tf s0 s1 b : float64) (ps : list Point) : float64 :=
  match ps with
  | [] => s1
  | p :: ps =>
      let x := (sf * V p)%F in
      let b := calcTrendValue (i - 1) tf s0 s1 b in
      let y := ((f_one - sf) * (s1 + b))%F in
      smooth_loop (S i) sf tf s1 (x + y)%F b ps
  end.

Definition funcHoltWinters : FunctionCall := λ vals args enh,
  let* samples := series_arg vals 0 in
  let* sf := scalar_arg vals 1 in
  let* tf := scalar_arg vals 2 in
  if (sf <=? f_zero)%F || (sf >=? f_one)%F then
    Err (Errorf "invalid smoothing factor. Expected: 0 < sf < 1")
  else if (tf <=? f_zero)%F || (tf >=? f_one)%F then
    Err (Errorf "invalid trend factor. Expected: 0 < tf < 1")
  else
    match Points samples with
    | p0 :: ((p1 :: _) as rest) =>
        return_value enh (smooth_loop 1 sf tf f_zero (V p0) (V p1 - V p0)%F rest)
    | _ => return_out enh
    end.

(** ** Sorting, clamping, rounding *)

Definition funcSort : FunctionCall := λ vals args enh,
  let* v := vector_arg vals 0 in Ok (go_sort (λ a b, reverse_Less b a) v, enh).
Definition funcSortDesc : FunctionCall := λ vals args enh,
  let* v := vector_arg vals 0 in Ok (go_sort (λ a b, value_Less b a) v, enh).

Definition funcClampMax : FunctionCall := λ vals args enh,
  let* vec := vector_arg vals 0 in
  let* max := scalar_arg vals 1 in
  Ok (map_dropping (λ el, Min max (sV el)) vec enh).
Definition funcClampMin : FunctionCall := λ vals args enh,
  let* vec := vector_arg vals 0 in
  let* min := scalar_arg vals 1 in
  Ok (map_dropping (λ el, Max min (sV el)) vec enh).

Definition funcRound : FunctionCall := λ vals args enh,
  let* vec := vector_arg vals 0 in
  let* toNearest := if 2 <=? length args then scalar_arg vals 1 else Ok f_one in
  let toNearestInverse := (f_one / toNearest)%F in
  Ok (map_dropping (λ el, (Floor (sV el * toNearestInverse + f_half) / toNearestInverse)%F) vec enh).

Definition funcScalar : FunctionCall := λ vals args enh,
  let* v := vector_arg vals 0 in
  match v with
  | [s] => return_value enh (sV s)
  | _ => return_value enh NaN
  end.

(** ** Aggregation over time *)

Definition aggrOverTime (vals : list value) (enh : EvalNodeHelper) (aggrFn : list Point → res float64)
    : res (list Sample * EvalNodeHelper) :=
  let* el := series_arg vals 0 in
  let* v := aggrFn (Points el) in
  return_value enh v.

(** The loops of the closures; each is a fold with the variables the closure declares. *)
Definition avg_step (acc : float64 * float64) (p : Point) : float64 * float64 :=
  let '(mean, count) := acc in
  let count := (count + f_one)%F in
  (mean + (V p - mean) / count, count)%F.
Definition avg_points (ps : list Point) : float64 := (foldl avg_step (f_zero, f_zero) ps).1.

Definition funcAvgOverTime : FunctionCall := λ vals args enh,
  aggrOverTime vals enh (λ ps, Ok (avg_points ps)).
Definition funcCountOverTime : FunctionCall := λ vals args enh,
  aggrOverTime vals enh (λ ps, Ok (float_of_Z (Z.of_nat (length ps)))).

Definition max_step (max : float64) (p : Point) : float64 :=
  if (V p >? max)%F || IsNaN max then V p else max.
Definition min_step (min : float64) (p : Point) : float64 :=
  if (V p <? min)%F || IsNaN min then V p else min.

Definition max_points (ps : list Point) : res float64 :=
  let* p := index ps 0 in Ok (foldl max_step (V p) ps).
Definition min_points (ps : list Point) : res float64 :=
  let* p := index ps 0 in Ok (foldl min_step (V p) ps).
Definition sum_points (ps : list Point) : float64 := foldl (λ sum p, sum + V p)%F f_zero ps.

Definition funcMaxOverTime : FunctionCall := λ vals args enh, aggrOverTime vals enh max_points.
Definition funcMinOverTime : FunctionCall := λ vals args enh, aggrOverTime vals enh min_points.
Definition funcSumOverTime : FunctionCall := λ vals args enh, aggrOverTime vals enh (λ ps, Ok (sum_points ps)).

Definition funcQuantileOverTime : FunctionCall := λ vals args enh,
  let* q := scalar_arg vals 0 in
  let* el := series_arg vals 1 in
  let values := (λ p, sample_of ∅ (V p)) <$> Points el in
  let* v := quantile int64_undefined q values in
  return_value enh v.

(** [aux], [count] and [mean]. *)
Definition var_step (acc : float64 * float64 * float64) (p : Point) : float64 * float64 * float64 :=
  let '(aux, count, mean) := acc in
  let count := (count + f_one)%F in
  let delta := (V p - mean)%F in
  let mean := (mean + delta / count)%F in
  (aux + delta * (V p - mean), count, mean)%F.
Definition variance (ps : list Point) : float64 :=
  let '(aux, count, _) := foldl var_step (f_zero, f_zero, f_zero) ps in (aux / count)%F.

Definition funcStddevOverTime : FunctionCall := λ vals args enh,
  aggrOverTime vals enh (λ ps, Ok (Sqrt (variance ps))).
Definition funcStdvarOverTime : FunctionCall := λ vals args enh,
  aggrOverTime vals enh (λ ps, Ok (variance ps)).

(** ** Absence *)

(** The loop over the matchers: the labels and the names to delete. *)
Fixpoint absent_loop (m : labels) (empty : list string) (lm : list Lbl.Matcher) : labels * list string :=
  match lm with
  | [] => (m, empty)
  | ma :: lm =>
      if bool_decide (Lbl.m_Name ma = MetricName) then absent_loop m empty lm
      else
        match Lbl.m_Type ma with
        | Lbl.MatchEqual =>
            if Has m (Lbl.m_Name ma) then absent_loop m (empty ++ [Lbl.m_Name ma]) lm
            else absent_loop (Set_ (Lbl.m_Name ma) (Lbl.m_Value ma) m) empty lm
        | _ => absent_loop m (empty ++ [Lbl.m_Name ma]) lm
        end
  end.

Definition createLabelsForAbsentFunction (e : expr) : labels :=
  match e with
  | VectorSelector vs | MatrixSelector _ vs _ =>
      let '(m, empty) := absent_loop ∅ [] (LabelMatchers vs) in
      foldl (λ m v, Del [v] m) m empty
  | _ => ∅
  end.

Definition funcAbsent : FunctionCall := λ vals args enh,
  let* v := vector_arg vals 0 in
  match v with
  | _ :: _ => return_out enh
  | [] => let* e := index args 0 in
          return_sample enh (sample_of (createLabelsForAbsentFunction e) f_one)
  end.

Definition funcAbsentOverTime : FunctionCall := λ vals args enh, return_value enh f_one.

(** ** Functions of one number *)

Definition simpleFunc (vals : list value) (enh : EvalNodeHelper) (f : float64 → float64)
    : res (list Sample * EvalNodeHelper) :=
  let* vec := vector_arg vals 0 in Ok (map_dropping (λ el, f (sV el)) vec enh).

Definition funcAbs : FunctionCall := λ vals args enh, simpleFunc vals enh Abs.
Definition funcCeil : FunctionCall := λ vals args enh, simpleFunc vals enh Ceil.
Definition funcFloor : FunctionCall := λ vals args enh, simpleFunc vals enh Floor.
Definition funcExp : FunctionCall := λ vals args enh, simpleFunc vals enh Exp.
Definition funcSqrt : FunctionCall := λ vals args enh, simpleFunc vals enh Sqrt.
Definition funcLn : FunctionCall := λ vals args enh, simpleFunc vals enh Log.
Definition funcLog2 : FunctionCall := λ vals args enh, simpleFunc vals enh Log2.
Definition funcLog10 : FunctionCall := λ vals args enh, simpleFunc vals enh Log10.

Definition funcTimestamp : FunctionCall := λ vals args enh,
  let* vec := vector_arg vals 0 in
  Ok (map_dropping (λ el, in_seconds (T (s_Point el))) vec enh).

(** ** Linear regression *)

(** [n], [sumX], [sumY], [sumXY] and [sumX2]. *)
Record sums := MkSums { r_n : float64; sumX : float64; sumY : float64; sumXY : float64; sumX2 : float64 }.

Definition regression_step (interceptTime : Z) (s : sums) (p : Point) : sums :=
  let x := in_seconds (wrap64 (T p - interceptTime)) in
  MkSums (r_n s + f_one) (sumX s + x) (sumY s + V p) (sumXY s + x * V p) (sumX2 s + x * x).

Definition linearRegression (samples : list Point) (interceptTime : Z) : float64 * float64 :=
  let s := foldl (regression_step interceptTime) (MkSums f_zero f_zero f_zero f_zero f_zero) samples in
  let covXY := (sumXY s - sumX s * sumY s / r_n s)%F in
  let varX := (sumX2 s - sumX s * sumX s / r_n s)%F in
  let slope := (covXY / varX)%F in
  (slope, sumY s / r_n s - slope * sumX s / r_n s)%F.

Definition funcDeriv : FunctionCall := λ vals args enh,
  let* samples := series_arg vals 0 in
  match Points samples with
  | p0 :: _ :: _ => return_value enh (linearRegression (Points samples) (T p0)).1
  | _ => return_out enh
  end.

Definition funcPredictLinear : FunctionCall := λ vals args enh,
  let* samples := series_arg vals 0 in
  let* duration := scalar_arg vals 1 in
  if length (Points samples) <? 2 then return_out enh
  else let '(slope, intercept) := linearRegression (Points samples) (ts enh) in
       return_value enh (slope * duration + intercept)%F.

(** ** Histograms *)

Definition excludedLabels : list string := [MetricName; BucketLabel].

(** The loop that puts the buckets of a vector into their groups. *)
Fixpoint bucket_loop (vec : list Sample) (enh : EvalNodeHelper) : EvalNodeHelper :=
  match vec with
  | [] => enh
  | el :: vec =>
      match ParseFloat (Get (s_Metric el) BucketLabel) with
      | None => bucket_loop vec enh
      | Some upperBound =>
          let '(hash, enh) := signatureFunc false excludedLabels enh (s_Metric el) in
          let groups := signatureToMetricWithBuckets enh in
          let mb := match groups !! hash with
                    | Some mb => mb
                    | None => MkMB (Del [BucketLabel; MetricName] (s_Metric el)) []
                    end in
          let mb := MkMB (mb_metric mb) (mb_buckets mb ++ [MkBucket upperBound (sV el)]) in
          bucket_loop vec (set_buckets enh (<[hash := mb]> groups))
      end
  end.

(** The loop over the groups. *)
Fixpoint quantile_loop (q : float64) (groups : list (Z * metricWithBuckets)) (enh : EvalNodeHelper)
    : res (list Sample * EvalNodeHelper) :=
  match groups with
  | [] => return_out enh
  | (_, mb) :: groups =>
      match mb_buckets mb with
      | [] => quantile_loop q groups enh
      | bs => let* v := bucketQuantile q bs in
              quantile_loop q groups (set_out enh (out enh ++ [sample_of (mb_metric mb) v]))
      end
  end.

Definition funcHistogramQuantile : FunctionCall := λ vals args enh,
  let* q := scalar_arg vals 0 in
  let* inVec := vector_arg vals 1 in
  let enh := set_buckets enh ((λ mb, MkMB (mb_metric mb) []) <$> signatureToMetricWithBuckets enh) in
  let enh := bucket_loop inVec enh in
  quantile_loop q (map_range (signatureToMetricWithBuckets enh)) enh.

(** ** Resets and changes *)

Fixpoint resets_loop (prev : float64) (n : nat) (ps : list Point) : nat :=
  match ps with
  | [] => n
  | p :: ps => resets_loop (V p) (if (V p <? prev)%F then S n else n) ps
  end.

Definition funcResets : FunctionCall := λ vals args enh,
  let* samples := series_arg vals 0 in
  let* p := index (Points samples) 0 in
  return_value enh (float_of_Z (Z.of_nat (resets_loop (V p) 0 (drop 1 (Points samples))))).

Fixpoint changes_loop (prev : float64) (n : nat) (ps : list Point) : nat :=
  match ps with
  | [] => n
  | p :: ps =>
      let current := V p in
      changes_loop current
        (if negb (SFeqb current prev) && negb (IsNaN current && IsNaN prev) then S n else n) ps
  end.

Definition funcChanges : FunctionCall := λ vals args enh,
  let* samples := series_arg vals 0 in
  let* p := index (Points samples) 0 in
  return_value enh (float_of_Z (Z.of_nat (changes_loop (V p) 0 (drop 1 (Points samples))))).

(** ** Labels *)

(** The loops of [label_replace] and [label_join]: the cache, or the new labels. *)
Fixpoint label_loop (f : labels → labels) (vec : list Sample) (enh : EvalNodeHelper)
    : list Sample * EvalNodeHelper :=
  match vec with
  | [] => (out enh, enh)
  | el :: vec =>
      let h := Hash (s_Metric el) in
      let '(outMetric, enh) :=
        match dmn enh !! h with
        | Some l => (l, enh)
        | None => let outMetric := f (s_Metric el) in (outMetric, set_dmn enh (<[h := outMetric]> (dmn enh)))
        end in
      label_loop f vec (set_out enh (out enh ++ [sample_of outMetric (sV el)]))
  end.

Definition replace_label (r : R) (dst repl src : string) (metric : labels) : labels :=
  let srcVal := Get metric src in
  match FindSubmatch r srcVal with
  | None => metric
  | Some indexes =>
      let res := Expand r repl srcVal indexes in
      let lb := Del [dst] metric in
      if String.length res =? 0 then lb else Set_ dst res lb
  end.

Definition funcLabelReplace : FunctionCall := λ vals args enh,
  let* vector := vector_arg vals 0 in
  let* dst := string_arg args 1 in
  let* repl := string_arg args 2 in
  let* src := string_arg args 3 in
  let* regexStr := string_arg args 4 in
  let* (r, enh) :=
    match regex enh with
    | Some r => Ok (r, enh)
    | None =>
        match Compile ("^(?:" +:+ regexStr +:+ ")$") with
        | None => Err (Errorf ("invalid regular expression in label_replace(): " +:+ regexStr))
        | Some r =>
            if LabelNameRE dst then Ok (r, set_regex enh r)
            else Err (Errorf ("invalid destination label name in label_replace(): " +:+ dst))
        end
    end in
  Ok (label_loop (replace_label r dst repl src) vector enh).

Definition funcVector : FunctionCall := λ vals args enh,
  let* v := scalar_arg vals 0 in return_value enh v.

(** The source labels of [label_join], checked one after the other. *)
Fixpoint join_sources (args : list expr) : res (list string) :=
  match args with
  | [] => Ok []
  | StringLiteral _ src :: args =>
      if LabelName_IsValid src then let* l := join_sources args in Ok (src :: l)
      else Err (Errorf ("invalid source label name in label_join(): " +:+ src))
  | _ :: _ => assert_error
  end.

Definition join_labels (dst sep : string) (srcLabels : list string) (metric : labels) : labels :=
  let strval := String.concat sep (Get metric <$> srcLabels) in
  if bool_decide (strval = "") then Del [dst] metric else Set_ dst strval metric.

Definition funcLabelJoin : FunctionCall := λ vals args enh,
  let* vector := vector_arg vals 0 in
  let* dst := string_arg args 1 in
  let* sep := string_arg args 2 in
  let* srcLabels := join_sources (drop 3 args) in
  if LabelName_IsValid dst then Ok (label_loop (join_labels dst sep srcLabels) vector enh)
  else Err (Errorf ("invalid destination label name in label_join(): " +:+ dst)).

(** ** Dates

    [time.Unix(sec, 0).UTC()]: seconds before the epoch of package [time] wrap. *)

Definition absolute_offset : Z := 9223372028715321600.
Definition unix_utc (sec : Z) : Z :=
  ((sec + absolute_offset) mod 18446744073709551616 - absolute_offset)%Z.

Definition date_of (t : Z) : Z * Z * Z := QB.civil_from_days (t / 86400).
Definition Year (t : Z) : Z := (date_of t).1.1.
Definition Month (t : Z) : Z := (date_of t).1.2.
Definition Day (t : Z) : Z := (date_of t).2.
Definition Hour (t : Z) : Z := (t mod 86400 / 3600)%Z.
Definition Minute (t : Z) : Z := (t mod 3600 / 60)%Z.
(** Sunday is 0; 1970-01-01 was a Thursday. *)
Definition Weekday (t : Z) : Z := ((t / 86400 + 4) mod 7)%Z.

Definition dateWrapper (vals : list value) (enh : EvalNodeHelper) (f : Z → Z)
    : res (list Sample * EvalNodeHelper) :=
  match vals with
  | [] => return_value enh (float_of_Z (f (unix_utc (Z.quot (ts enh) 1000))))
  | _ =>
      let* vec := vector_arg vals 0 in
      Ok (map_dropping (λ el, float_of_Z (f (unix_utc (int64_of int64_undefined (sV el))))) vec enh)
  end.

(** [32 - time.Date(year, month, 32, ...).Day()]. *)
Definition days_in_month (t : Z) : Z :=
  (32 - (QB.civil_from_days (QB.days_from_civil (Year t) (Month t) 1 + 31)).2)%Z.

Definition funcDaysInMonth : FunctionCall := λ vals args enh, dateWrapper vals enh days_in_month.
Definition funcDayOfMonth : FunctionCall := λ vals args enh, dateWrapper vals enh Day.
Definition funcDayOfWeek : FunctionCall := λ vals args enh, dateWrapper vals enh Weekday.
Definition funcHour : FunctionCall := λ vals args enh, dateWrapper vals enh Hour.
Definition funcMinute : FunctionCall := λ vals args enh, dateWrapper vals enh Minute.
Definition funcMonth : FunctionCall := λ vals args enh, dateWrapper vals enh Month.
Definition funcYear : FunctionCall := λ vals args enh, dateWrapper vals enh Year.

(** ** The table of functions *)

Definition FunctionCalls : list (string * FunctionCall) :=
  [("abs", funcAbs); ("absent", funcAbsent); ("absent_over_time", funcAbsentOverTime);
   ("avg_over_time", funcAvgOverTime); ("ceil", funcCeil); ("changes", funcChanges);
   ("clamp_max", funcClampMax); ("clamp_min", funcClampMin); ("count_over_time", funcCountOverTime);
   ("days_in_month", funcDaysInMonth); ("day_of_month", funcDayOfMonth); ("day_of_week", funcDayOfWeek);
   ("delta", funcDelta); ("deriv", funcDeriv); ("exp", funcExp); ("floor", funcFloor);
   ("histogram_quantile", funcHistogramQuantile); ("holt_winters", funcHoltWinters);
   ("hour", funcHour); ("idelta", funcIdelta); ("increase", funcIncrease); ("irate", funcIrate);
   ("label_replace", funcLabelReplace); ("label_join", funcLabelJoin); ("ln", funcLn);
   ("log10", funcLog10); ("log2", funcLog2); ("max_over_time", funcMaxOverTime);
   ("min_over_time", funcMinOverTime); ("minute", funcMinute); ("month", funcMonth);
   ("predict_linear", funcPredictLinear); ("quantile_over_time", funcQuantileOverTime);
   ("rate", funcRate); ("resets", funcResets); ("round", funcRound); ("scalar", funcScalar);
   ("sort", funcSort); ("sort_desc", funcSortDesc); ("sqrt", funcSqrt);
   ("stddev_over_time", funcStddevOverTime); ("stdvar_over_time", funcStdvarOverTime);
   ("sum_over_time", funcSumOverTime); ("time", funcTime); ("timestamp", funcTimestamp);
   ("vector", funcVector); ("year", funcYear)]%string.

(** Calling the entry of an unknown name is calling a nil function. *)
Definition lookup_function (name : string) : FunctionCall :=
  match list_find (λ p, p.1 = name) FunctionCalls with
  | Some (_, (_, f)) => f
  | None => λ _ _ _, Err (RuntimeError "invalid memory address or nil pointer dereference")
  end.

End functions.

(** ** Specification *)

Section spec.
Context {gsort : GoSort} {grange : GoMapRange} {plabels : PromLabels} {R : Type}.
Implicit Types (enh : EvalNodeHelper (R:=R)) (vec : list Sample).

(** A cache holds the results of [f] on label sets in [P], under their hashes. *)
Definition cache_ok {A} (f : labels → A) (P : labels → Prop) (m : gmap Z A) : Prop :=
  ∀ h a, m !! h = Some a → ∃ l, P l ∧ Hash l = h ∧ a = f l.

Lemma cache_ok_empty {A} (f : labels → A) P : cache_ok f P ∅.
Proof. intros h a. by rewrite lookup_empty. Qed.

Lemma cache_ok_hit {A} (f : labels → A) P m l a :
  hash_inj P → P l → cache_ok f P m → m !! Hash l = Some a → a = f l.
Proof. intros Hinj Hl Hm Ha. apply Hm in Ha as (l' & Hl' & Hh & ->). f_equal. by apply Hinj. Qed.

Lemma cache_ok_insert {A} (f : labels → A) (P : labels → Prop) m l :
  P l → cache_ok f P m → cache_ok f P (<[Hash l := f l]> m).
Proof.
  intros Hl Hm h a [[<- <-]|[_ Ha]]%lookup_insert_Some; [by exists l|by apply Hm].
Qed.
Hint Resolve cache_ok_empty cache_ok_insert : gosim.

(** The helper after a loop: only the output and the cache changed. *)
Definition same_but_dmn enh enh' : Prop :=
  ts enh' = ts enh ∧ sigf enh' = sigf enh ∧ regex enh' = regex enh ∧
  signatureToMetricWithBuckets enh' = signatureToMetricWithBuckets enh.

Lemma label_loop_spec f P vec enh :
  hash_inj P → Forall (λ el, P (s_Metric el)) vec → cache_ok f P (dmn enh) →
  ∃ enh', label_loop f vec enh = (out enh ++ ((λ el, sample_of (f (s_Metric el)) (sV el)) <$> vec), enh')
    ∧ cache_ok f P (dmn enh') ∧ same_but_dmn enh enh'.
Proof.
  intros Hinj. revert enh. induction vec as [|el vec IH]; intros enh Hvec Hc; cbn [label_loop].
  { exists enh. by rewrite app_nil_r. }
  apply Forall_cons in Hvec as [Hel Hvec].
  destruct (dmn enh !! Hash (s_Metric el)) as [l|] eqn:Hl.
  - apply (cache_ok_hit f P) in Hl as ->; [|done..].
    destruct (IH (set_out enh (out enh ++ [sample_of (f (s_Metric el)) (sV el)])))
      as (enh' & -> & ? & ?); [done..|].
    exists enh'. cbn [out set_out]. by rewrite <-(assoc_L (++)).
  - set (enh1 := set_dmn enh _).
    destruct (IH (set_out enh1 (out enh1 ++ [sample_of (f (s_Metric el)) (sV el)])))
      as (enh' & -> & ? & ?); [done|by apply cache_ok_insert|].
    exists enh'. cbn [out set_out]. by rewrite <-(assoc_L (++)).
Qed.

Lemma dropMetricName_spec P enh l :
  hash_inj P → P l → cache_ok plain_dropMetricName P (dmn enh) →
  ∃ enh', dropMetricName enh l = (plain_dropMetricName l, enh') ∧ out enh' = out enh ∧
    cache_ok plain_dropMetricName P (dmn enh') ∧ same_but_dmn enh enh'.
Proof.
  intros Hinj Hl Hc. unfold dropMetricName. destruct (dmn enh !! Hash l) as [ret|] eqn:Hr.
  - apply (cache_ok_hit plain_dropMetricName P) in Hr as ->; [|done..]. by exists enh.
  - eexists. split_and!; [done|done|by apply cache_ok_insert|done].
Qed.

Lemma map_dropping_spec (g : Sample → float64) P vec enh :
  hash_inj P → Forall (λ el, P (s_Metric el)) vec → cache_ok plain_dropMetricName P (dmn enh) →
  ∃ enh', map_dropping g vec enh
      = (out enh ++ ((λ el, sample_of (plain_dropMetricName (s_Metric el)) (g el)) <$> vec), enh')
    ∧ cache_ok plain_dropMetricName P (dmn enh') ∧ same_but_dmn enh enh'.
Proof.
  intros Hinj. revert enh. induction vec as [|el vec IH]; intros enh Hvec Hc; cbn [map_dropping].
  { exists enh. by rewrite app_nil_r. }
  apply Forall_cons in Hvec as [Hel Hvec].
  destruct (dropMetricName_spec P enh (s_Metric el)) as (enh1 & -> & Ho & Hc1 & Hs1 & Hs2 & Hs3 & Hs4);
    [done..|].
  destruct (IH (set_out enh1 (out enh1 ++ [sample_of (plain_dropMetricName (s_Metric el)) (g el)])))
    as (enh' & -> & Hc' & Hs1' & Hs2' & Hs3' & Hs4'); [done..|].
  exists enh'. cbn [out set_out]. rewrite Ho, <-(assoc_L (++)). split_and!; [done|done|].
  unfold same_but_dmn in *. cbn in *. by rewrite Hs1', Hs2', Hs3', Hs4'.
Qed.

Lemma signatureFunc_spec P on names enh l :
  hash_inj P → P l → cache_ok (plain_signature on names) P (sigf enh) →
  ∃ enh', signatureFunc on names enh l = (plain_signature on names l, enh') ∧ out enh' = out enh ∧
    cache_ok (plain_signature on names) P (sigf enh') ∧ ts enh' = ts enh ∧ dmn enh' = dmn enh ∧
    regex enh' = regex enh ∧ h_resultMetric enh' = h_resultMetric enh ∧
    signatureToMetricWithBuckets enh' = signatureToMetricWithBuckets enh.
Proof.
  intros Hinj Hl Hc. unfold signatureFunc. destruct (sigf enh !! Hash l) as [ret|] eqn:Hr.
  - apply (cache_ok_hit (plain_signature on names) P) in Hr as ->; [|done..]. by exists enh.
  - eexists. split_and!; [done|done|by apply cache_ok_insert|done..].
Qed.

(** *** Labels *)

Lemma plain_dropMetricName_doc l : plain_dropMetricName l = without [MetricName] l.
Proof. apply Del_doc. Qed.

(** What [label_replace] does to one label set: without a match nothing; with one,
    the label [dst] becomes the expansion and is removed when that is empty, and no
    other label changes. *)
Lemma replace_label_lookup {M} (FindSubmatch : R → string → option M) Expand r dst repl src l n :
  replace_label FindSubmatch Expand r dst repl src l !! n =
    match FindSubmatch r (default "" (l !! src)) with
    | None => l !! n
    | Some m =>
        if bool_decide (n = dst) then
          let res := Expand r repl (default "" (l !! src)) m in
          if bool_decide (res = "") then None else Some res
        else l !! n
    end.
Proof.
  unfold replace_label. rewrite Get_doc. destruct (FindSubmatch r _) as [m|]; [|done].
  set (res := Expand r repl _ m). rewrite Del_doc.
  assert (String.length res =? 0 = bool_decide (res = "")) as -> by (by destruct res).
  case_bool_decide as Hres.
  - rewrite lookup_without. repeat case_bool_decide; set_solver.
  - rewrite Set_doc by done. case_bool_decide as Hn.
    + subst. by rewrite lookup_insert_eq.
    + rewrite lookup_insert_ne by done. rewrite lookup_without. case_bool_decide; set_solver.
Qed.

Lemma join_labels_lookup dst sep srcs l n :
  join_labels dst sep srcs l !! n =
    if bool_decide (n = dst) then
      let v := String.concat sep ((λ src, default "" (l !! src)) <$> srcs) in
      if bool_decide (v = "") then None else Some v
    else l !! n.
Proof.
  unfold join_labels.
  assert (Get l <$> srcs = (λ src, default "" (l !! src)) <$> srcs) as ->.
  { apply list_fmap_ext. intros _ x _. apply Get_doc. }
  cbv zeta. set (v := String.concat sep _).
  case_bool_decide as Hv.
  - rewrite Del_doc, lookup_without. repeat case_bool_decide; set_solver.
  - rewrite Set_doc by done. case_bool_decide as Hn.
    + subst. by rewrite lookup_insert_eq.
    + by rewrite lookup_insert_ne.
Qed.

(** *** Absence *)

Definition on_name (n : string) (lm : list Lbl.Matcher) : list Lbl.Matcher :=
  filter (λ ma, Lbl.m_Name ma = n) lm.

(** The label [n] after the loop and the deletions. *)
Definition absent_final (r : labels * list string) (n : string) : option string :=
  if bool_decide (n ∈ r.2) then None else r.1 !! n.

Lemma on_name_cons n ma lm :
  on_name n (ma :: lm) = if bool_decide (Lbl.m_Name ma = n) then ma :: on_name n lm else on_name n lm.
Proof. unfold on_name. rewrite filter_cons. by do 2 case_decide || case_bool_decide. Qed.

Lemma absent_loop_spec m empty lm n :
  Forall (λ ma, Lbl.m_Type ma = Lbl.MatchEqual → Lbl.m_Value ma ≠ "") lm → n ≠ MetricName →
  absent_final (absent_loop m empty lm) n =
    match on_name n lm with
    | [] => absent_final (m, empty) n
    | [ma] => match absent_final (m, empty) n, Lbl.m_Type ma with
              | None, Lbl.MatchEqual => if bool_decide (n ∈ empty) then None else Some (Lbl.m_Value ma)
              | _, _ => None
              end
    | _ => None
    end.
Proof.
  intros Hv Hn. revert m empty. induction Hv as [|ma lm Hma Hv IH]; intros m empty; cbn [absent_loop]; [done|].
  rewrite on_name_cons. destruct (decide (Lbl.m_Name ma = MetricName)) as [Hname|Hname].
  { rewrite bool_decide_true by done. rewrite IH. by rewrite (bool_decide_false (Lbl.m_Name ma = n)) by congruence. }
  rewrite (bool_decide_false (_ = MetricName)) by done.
  assert (∀ x, absent_final (m, empty ++ [x]) n = if bool_decide (n = x) then None else absent_final (m, empty) n) as Hd.
  { intros x. unfold absent_final. cbn [fst snd]. repeat case_bool_decide; set_solver. }
  assert (∀ x, bool_decide (n ∈ empty ++ [x]) = bool_decide (n = x) || bool_decide (n ∈ empty)) as He.
  { intros x. repeat case_bool_decide; set_solver. }
  destruct (decide (Lbl.m_Name ma = n)) as [Hma_n|Hma_n].
  - rewrite (bool_decide_true (_ = n)) by done. subst n. rewrite Has_doc.
    destruct (Lbl.m_Type ma); [destruct (m !! Lbl.m_Name ma) as [v|] eqn:Hm|..];
      rewrite ?bool_decide_true, ?bool_decide_false by naive_solver.
    all: rewrite IH; destruct (on_name _ lm) as [|ma' [|]]; try done.
    all: rewrite ?Hd, ?He, ?bool_decide_true by done; cbn [orb]; try (by destruct (Lbl.m_Type ma')); try done.
    all: unfold absent_final; cbn [fst snd]; rewrite ?Set_doc by auto; rewrite ?lookup_insert_eq, ?Hm.
    all: repeat case_match; try done.
  - rewrite (bool_decide_false (_ = n)) by done.
    destruct (Lbl.m_Type ma); [destruct (Has m (Lbl.m_Name ma))|..]; rewrite IH;
      rewrite ?Hd, ?He, ?(bool_decide_false (n = _)) by done; cbn [orb]; try done.
    assert (absent_final (Set_ (Lbl.m_Name ma) (Lbl.m_Value ma) m, empty) n = absent_final (m, empty) n) as ->; [|done].
    unfold absent_final. cbn [fst snd]. rewrite Set_doc by auto. by rewrite lookup_insert_ne.
Qed.

Lemma absent_loop_metric m empty lm :
  absent_loop m empty lm = absent_loop m empty (filter (λ ma, Lbl.m_Name ma ≠ MetricName) lm).
Proof.
  revert m empty. induction lm as [|ma lm IH]; intros m empty; cbn [absent_loop]; [done|].
  rewrite filter_cons. case_bool_decide as Hn.
  - rewrite decide_False by naive_solver. apply IH.
  - rewrite decide_True by done. cbn [absent_loop]. rewrite bool_decide_false by done.
    destruct (Lbl.m_Type ma); [destruct (Has m _)|..]; apply IH.
Qed.

Lemma absent_loop_name m empty lm :
  Forall (λ ma, Lbl.m_Type ma = Lbl.MatchEqual → Lbl.m_Value ma ≠ "") lm →
  m !! MetricName = None → (absent_loop m empty lm).1 !! MetricName = None.
Proof.
  intros Hv. revert m empty. induction Hv as [|ma lm Hma Hv IH]; intros m empty Hm; cbn [absent_loop]; [done|].
  case_bool_decide as Hname; [auto|].
  destruct (Lbl.m_Type ma); [destruct (Has m _)|..]; apply IH; try done.
  rewrite Set_doc by auto. by rewrite lookup_insert_ne.
Qed.

Lemma delete_labels_lookup (m : labels) empty n :
  foldl (λ m v, Del [v] m) m empty !! n = absent_final (m, empty) n.
Proof.
  unfold absent_final. cbn [fst snd]. revert m.
  induction empty as [|v empty IH]; intros m; cbn [foldl]; [by rewrite bool_decide_false by set_solver|].
  rewrite IH, Del_doc, lookup_without. repeat case_bool_decide; set_solver.
Qed.

Lemma createLabels_ok vs n v :
  Forall (λ ma, Lbl.m_Type ma = Lbl.MatchEqual → Lbl.m_Value ma ≠ "") (LabelMatchers vs) →
  createLabelsForAbsentFunction (VectorSelector vs) !! n = Some v ↔
  n ≠ MetricName ∧ ∃ ma, on_name n (LabelMatchers vs) = [ma] ∧ Lbl.m_Type ma = Lbl.MatchEqual ∧
    Lbl.m_Value ma = v.
Proof.
  intros Hv. unfold createLabelsForAbsentFunction.
  destruct (absent_loop ∅ [] (LabelMatchers vs)) as [m empty] eqn:Hl. rewrite delete_labels_lookup.
  rewrite <-Hl. destruct (decide (n = MetricName)) as [->|Hn].
  - unfold absent_final. rewrite absent_loop_name by done.
    case_bool_decide; naive_solver.
  - rewrite absent_loop_spec by done. unfold absent_final. cbn [fst snd].
    rewrite bool_decide_false by set_solver. rewrite lookup_empty.
    destruct (on_name n (LabelMatchers vs)) as [|ma [|]]; [naive_solver| |naive_solver].
    destruct (Lbl.m_Type ma) eqn:Ht.
    2-4: split; [done|intros (_ & ma' & Heq & Ht' & _); congruence].
    split; [intros [= <-]; eauto|].
    intros (_ & ma' & Heq & _ & <-). congruence.
Qed.

(** *** Aggregation over time *)

Lemma max_fold_spec m ps :
  let r := foldl max_step m ps in
  (r = m ∨ ∃ p, p ∈ ps ∧ r = V p) ∧
  (IsNaN r = true ↔ IsNaN m = true ∧ Forall (λ p, IsNaN (V p) = true) ps) ∧
  (SFltb r m = false ∧ Forall (λ p, SFltb r (V p) = false) ps).
Proof.
  revert m. induction ps as [|p ps IH]; intros m; cbn [foldl].
  { split_and!; [by left|naive_solver|apply SFltb_irrefl|done]. }
  destruct (IH (max_step m p)) as (H1 & H2 & H3 & H4).
  set (r := foldl max_step (max_step m p) ps) in *.
  assert ((max_step m p = m ∧ SFltb m (V p) = false ∧ IsNaN m = false)
    ∨ (max_step m p = V p ∧ (SFltb m (V p) = true ∨ IsNaN m = true))) as Hstep.
  { unfold max_step. destruct (SFltb m (V p)), (IsNaN m); simpl; auto. }
  destruct Hstep as [(Hs & Hle & Hm)|(Hs & Hgt)]; rewrite Hs in *.
  - split_and!.
    + destruct H1 as [?|(q & ? & ?)]; [by left|right; exists q; set_solver].
    + rewrite H2, Forall_cons. split; intros [? _]; congruence.
    + done.
    + constructor; [|done]. destruct (SFltb r (V p)) eqn:E; [|done].
      assert (IsNaN r = false) as Hr by (apply not_true_is_false; intros [? _]%H2; congruence).
      destruct (SFltb_notnan _ _ E) as [_ Hp].
      pose proof (swo_incomp (P:=λ x, IsNaN x = false) (lt:=SFltb) r m (V p) Hr Hm Hp H3 Hle). congruence.
  - split_and!.
    + right. destruct H1 as [?|(q & ? & ?)]; [exists p|exists q]; set_solver.
    + rewrite H2, Forall_cons. destruct Hgt as [Hlt|?]; [|tauto].
      destruct (SFltb_notnan _ _ Hlt). split; [intros [? _]|intros [? _]]; congruence.
    + destruct Hgt as [Hlt|Hn]; [|destruct m; try done; by rewrite SFltb_nan_r].
      destruct (SFltb r m) eqn:E; [|done]. pose proof (SFltb_trans _ _ _ E Hlt). congruence.
    + by constructor.
Qed.

(** The greatest of the values that are numbers. *)
Lemma max_points_ok ps :
  ps ≠ [] → ∃ v, max_points ps = Ok v ∧ (∃ p, p ∈ ps ∧ v = V p) ∧
    (IsNaN v = true ↔ Forall (λ p, IsNaN (V p) = true) ps) ∧
    Forall (λ p, SFltb v (V p) = false) ps.
Proof.
  destruct ps as [|p ps]; [done|]. intros _. unfold max_points.
  destruct (max_fold_spec (V p) (p :: ps)) as (H1 & H2 & _ & H4).
  eexists. split; [done|]. split_and!; [|rewrite H2, Forall_cons; tauto|done].
  destruct H1 as [H1|(q & ? & ?)]; [exists p|exists q]; set_solver.
Qed.

(** *** Counting *)

(** Neighbours in a list. *)
Definition neighbours {A} (l : list A) : list (A * A) := zip l (drop 1 l).

Lemma neighbours_cons {A} (a b : A) l : neighbours (a :: b :: l) = (a, b) :: neighbours (b :: l).
Proof. reflexivity. Qed.

Lemma resets_loop_spec p n ps :
  resets_loop (V p) n ps =
  n + length (filter (λ pq, SFltb (V pq.2) (V pq.1) = true) (neighbours (p :: ps))).
Proof.
  revert p n. induction ps as [|q ps IH]; intros p n; cbn [resets_loop]; [simpl; lia|].
  rewrite IH, neighbours_cons, filter_cons. cbn [fst snd].
  destruct (SFltb (V q) (V p)) eqn:E;
    [rewrite decide_True by done|rewrite decide_False by congruence]; cbn [length]; lia.
Qed.

(** Two values differ when neither are they equal numbers nor both NaN. *)
Definition differs (x y : float64) : bool := negb (SFeqb y x) && negb (IsNaN y && IsNaN x).

Lemma changes_loop_spec p n ps :
  changes_loop (V p) n ps =
  n + length (filter (λ pq, differs (V pq.1) (V pq.2) = true) (neighbours (p :: ps))).
Proof.
  revert p n. induction ps as [|q ps IH]; intros p n; cbn [changes_loop]; [simpl; lia|].
  rewrite IH, neighbours_cons, filter_cons. cbn [fst snd].
  fold (differs (V p) (V q)). destruct (differs (V p) (V q)) eqn:E;
    [rewrite decide_True by done|rewrite decide_False by congruence]; cbn [length]; lia.
Qed.

(** *** Histograms *)

Section histogram.
Context (ParseFloat : string → option float64).

Definition group_sig (l : labels) : Z := plain_signature false excludedLabels l.
Definition group_labels (l : labels) : labels := Del [BucketLabel; MetricName] l.

(** The buckets of a vector with the signature [h], in order, with their elements. *)
Definition members (h : Z) (vec : list Sample) : list (labels * bucket) :=
  omap (λ el, ub ← ParseFloat (Get (s_Metric el) BucketLabel);
              if bool_decide (group_sig (s_Metric el) = h)
              then Some (s_Metric el, MkBucket ub (sV el)) else None) vec.

Definition add_group (o : option metricWithBuckets) (els : list (labels * bucket)) : option metricWithBuckets :=
  match o, els with
  | Some mb, _ => Some (MkMB (mb_metric mb) (mb_buckets mb ++ els.*2))
  | None, [] => None
  | None, (l, _) :: _ => Some (MkMB (group_labels l) els.*2)
  end.

Lemma bucket_loop_spec P vec enh h :
  hash_inj P → Forall (λ el, P (s_Metric el)) vec → cache_ok group_sig P (sigf enh) →
  signatureToMetricWithBuckets (bucket_loop ParseFloat vec enh) !! h =
    add_group (signatureToMetricWithBuckets enh !! h) (members h vec)
  ∧ out (bucket_loop ParseFloat vec enh) = out enh
  ∧ cache_ok group_sig P (sigf (bucket_loop ParseFloat vec enh)).
Proof.
  intros Hinj. revert enh. induction vec as [|el vec IH]; intros enh Hvec Hc; cbn [bucket_loop].
  { unfold members. cbn. destruct (_ !! h) as [[m bs]|]; [|done]. simpl. by rewrite app_nil_r. }
  apply Forall_cons in Hvec as [Hel Hvec]. unfold members. cbn [omap list_omap].
  destruct (ParseFloat (Get (s_Metric el) BucketLabel)) as [ub|]; [|by apply IH].
  destruct (signatureFunc_spec P false excludedLabels enh (s_Metric el))
    as (enh1 & -> & Ho1 & Hc1 & _ & _ & _ & _ & Hg1); [done..|].
  cbn [mbind option_bind]. rewrite Hg1. fold (group_sig (s_Metric el)) in *.
  set (mb := match signatureToMetricWithBuckets enh !! group_sig (s_Metric el) with Some mb => mb | None => _ end).
  set (enh2 := set_buckets enh1 _).
  destruct (IH enh2 Hvec Hc1) as (IH1 & IH2 & IH3). split; [|by rewrite IH2].
  rewrite IH1. unfold enh2. cbn [signatureToMetricWithBuckets set_buckets].
  case_bool_decide as Hh.
  - subst h. rewrite lookup_insert_eq. cbn [add_group mb_metric mb_buckets]. unfold mb.
    destruct (signatureToMetricWithBuckets enh !! group_sig (s_Metric el)) as [mb0|]; simpl;
      [by rewrite <-(assoc_L (++))|done].
  - by rewrite lookup_insert_ne.
Qed.

Lemma quantile_loop_spec q groups enh :
  ∃ outv enh', quantile_loop q groups enh = Ok (out enh ++ outv, enh') ∧
    Forall2 (λ g s, ∃ v, bucketQuantile q (mb_buckets g.2) = Ok v ∧ s = sample_of (mb_metric g.2) v)
      (filter (λ g, mb_buckets g.2 ≠ []) groups) outv.
Proof.
  revert enh. induction groups as [|[h mb] groups IH]; intros enh; cbn [quantile_loop].
  { exists [], enh. by rewrite app_nil_r. }
  rewrite filter_cons. cbn [snd]. destruct (mb_buckets mb) as [|b bs] eqn:Hb.
  { rewrite decide_False by naive_solver. apply IH. }
  rewrite decide_True by done. destruct (bucketQuantile_total q (b :: bs)) as [v Hv]; [done|].
  rewrite Hv. cbn [res_bind].
  destruct (IH (set_out enh (out enh ++ [sample_of (mb_metric mb) v]))) as (outv & enh' & -> & HF).
  exists (sample_of (mb_metric mb) v :: outv), enh'. cbn [out set_out]. rewrite <-(assoc_L (++)).
  split; [done|]. constructor; [|done]. exists v. cbn [snd]. by rewrite Hb.
Qed.

(** The samples of the groups, in the order of the groups' signatures [hs]. *)
Lemma histogram_ok P vals args enh q inVec :
  scalar_arg vals 0 = Ok q → vector_arg vals 1 = Ok inVec →
  hash_inj P → Forall (λ el, P (s_Metric el)) inVec → cache_ok group_sig P (sigf enh) →
  signatureToMetricWithBuckets enh = ∅ →
  ∃ hs outv enh', funcHistogramQuantile ParseFloat vals args enh = Ok (out enh ++ outv, enh') ∧
    NoDup hs ∧ (∀ h, h ∈ hs ↔ members h inVec ≠ []) ∧
    Forall2 (λ h s, ∃ l b els v, members h inVec = (l, b) :: els ∧
      bucketQuantile q (members h inVec).*2 = Ok v ∧ s = sample_of (group_labels l) v) hs outv.
Proof.
  intros Hq Hv Hinj Hvec Hc Hg. unfold funcHistogramQuantile. rewrite Hq, Hv, Hg, fmap_empty. cbn [res_bind].
  set (enh1 := bucket_loop _ _ _).
  assert (∀ h, signatureToMetricWithBuckets enh1 !! h = add_group None (members h inVec)) as Hm.
  { intros h. unfold enh1. destruct (bucket_loop_spec P inVec (set_buckets enh ∅) h) as (-> & _); [done..|].
    cbn [signatureToMetricWithBuckets set_buckets]. by rewrite lookup_empty. }
  assert (out enh1 = out enh) as Ho.
  { unfold enh1. by destruct (bucket_loop_spec P inVec (set_buckets enh ∅) 0) as (_ & -> & _). }
  destruct (quantile_loop_spec q (map_range (signatureToMetricWithBuckets enh1)) enh1) as (outv & enh' & -> & HF).
  set (gs := map_range (signatureToMetricWithBuckets enh1)) in *.
  assert (∀ h mb, (h, mb) ∈ gs → ∃ l b els, members h inVec = (l, b) :: els ∧
    mb = MkMB (group_labels l) (members h inVec).*2) as Hgs.
  { intros h mb. unfold gs. rewrite elem_of_map_range, Hm.
    destruct (members h inVec) as [|[l b] els]; simpl; [done|]. intros [= <-]. by eauto. }
  assert (filter (λ g, mb_buckets g.2 ≠ []) gs = gs) as Hfil.
  { clear -Hgs. induction gs as [|[h mb] gs IH]; [done|]. rewrite filter_cons.
    rewrite decide_True, IH; [done|set_solver|].
    destruct (Hgs h mb) as (l & b & els & Hme & ->); [set_solver|]. by rewrite Hme. }
  rewrite Hfil in HF. exists gs.*1, outv, enh'. rewrite Ho. split; [done|]. split; [|split].
  - unfold gs. rewrite map_range_perm. apply NoDup_fst_map_to_list.
  - intros h. rewrite list_elem_of_fmap. split.
    + intros ([h' mb] & -> & Hin). apply Hgs in Hin as (l & b & els & Hme & _). cbn [fst]. by rewrite Hme.
    + intros Hne. destruct (members h inVec) as [|[l b] els] eqn:Hme; [done|].
      exists (h, MkMB (group_labels l) (members h inVec).*2). split; [done|].
      unfold gs. by rewrite elem_of_map_range, Hm, Hme.
  - clear Hfil. induction HF as [|[h mb] s gs' outv' (v & Hbq & ->) HF IH]; [constructor|].
    constructor; [|apply IH; set_solver].
    destruct (Hgs h mb) as (l & b & els & Hme & ->); [set_solver|]. exists l, b, els, v. done.
Qed.

(** [histogram_quantile] gives one sample per group of the elements with a readable
    bound: elements are in one group when they have one signature, and the sample
    has the labels of the group's first element without bound and name, and the
    quantile of all buckets of the group. *)
Theorem funcHistogramQuantile_spec P vals args enh q inVec :
  scalar_arg vals 0 = Ok q → vector_arg vals 1 = Ok inVec →
  hash_inj P → Forall (λ el, P (s_Metric el)) inVec → cache_ok group_sig P (sigf enh) →
  signatureToMetricWithBuckets enh = ∅ →
  ∃ hs outv enh', funcHistogramQuantile ParseFloat vals args enh = Ok (out enh ++ outv, enh') ∧
    NoDup hs ∧ (∀ h, h ∈ hs ↔ members h inVec ≠ []) ∧
    Forall2 (λ h s, ∃ l b els v, members h inVec = (l, b) :: els ∧
      bucketQuantile q (members h inVec).*2 = Ok v ∧ s = sample_of (group_labels l) v) hs outv.
Proof. apply histogram_ok. Qed.

End histogram.

(** [label_replace] keeps every sample's value and gives it the labels
    [replace_label_lookup] describes, whatever the cache of the helper already held. *)
Theorem funcLabelReplace_spec {M} (Compile : string → option R) (FindSubmatch : R → string → option M)
    Expand LabelNameRE P vals args enh r vec dst repl src re :
  vector_arg vals 0 = Ok vec → string_arg args 1 = Ok dst → string_arg args 2 = Ok repl →
  string_arg args 3 = Ok src → string_arg args 4 = Ok re →
  hash_inj P → Forall (λ el, P (s_Metric el)) vec → Compile ("^(?:" +:+ re +:+ ")$") = Some r →
  LabelNameRE dst = true →
  (regex enh = None ∨ regex enh = Some r ∧ cache_ok (replace_label FindSubmatch Expand r dst repl src) P (dmn enh)) →
  ∃ enh', funcLabelReplace Compile FindSubmatch Expand LabelNameRE vals args enh
      = Ok (out enh ++ ((λ el, sample_of (replace_label FindSubmatch Expand r dst repl src (s_Metric el)) (sV el)) <$> vec), enh')
    ∧ regex enh' = Some r ∧ cache_ok (replace_label FindSubmatch Expand r dst repl src) P (dmn enh').
Proof.
  intros Hv H1 H2 H3 H4 Hinj Hvec Hr Hname Hre. unfold funcLabelReplace.
  rewrite Hv, H1, H2, H3, H4. cbn [res_bind]. destruct Hre as [Hre|[Hre Hc]]; rewrite Hre.
  - rewrite Hr, Hname. cbn [res_bind].
    destruct (label_loop_spec (replace_label FindSubmatch Expand r dst repl src) P vec (set_regex enh r))
      as (enh' & -> & Hc' & _ & _ & Hrx & _); [done|done|apply cache_ok_empty|].
    exists enh'. by rewrite Hrx.
  - cbn [res_bind].
    destruct (label_loop_spec (replace_label FindSubmatch Expand r dst repl src) P vec enh)
      as (enh' & -> & Hc' & _ & _ & Hrx & _); [done..|].
    exists enh'. by rewrite Hrx.
Qed.

(** The labels an absent series gets: the label [n] with the value [v] exactly when
    one matcher is on the name [n] and it asks for equality with [v]. *)
Theorem createLabelsForAbsentFunction_spec vs n v :
  Forall (λ ma, Lbl.m_Type ma = Lbl.MatchEqual → Lbl.m_Value ma ≠ "") (LabelMatchers vs) →
  createLabelsForAbsentFunction (VectorSelector vs) !! n = Some v ↔
  n ≠ MetricName ∧ ∃ ma, on_name n (LabelMatchers vs) = [ma] ∧ Lbl.m_Type ma = Lbl.MatchEqual ∧
    Lbl.m_Value ma = v.
Proof. apply createLabels_ok. Qed.

(** [max_over_time]: the value of a point, not less than any, and NaN only when all are. *)
Theorem funcMaxOverTime_spec vals args enh el :
  series_arg vals 0 = Ok el → Points el ≠ [] →
  ∃ v, funcMaxOverTime vals args enh = Ok (out enh ++ [sample_of ∅ v], enh) ∧
    (∃ p, p ∈ Points el ∧ v = V p) ∧
    (IsNaN v = true ↔ Forall (λ p, IsNaN (V p) = true) (Points el)) ∧
    Forall (λ p, SFltb v (V p) = false) (Points el).
Proof.
  intros Hel Hne. destruct (max_points_ok (Points el) Hne) as (v & Hv & Hspec).
  exists v. split; [|done]. unfold funcMaxOverTime, aggrOverTime. by rewrite Hel; cbn [res_bind]; rewrite Hv.
Qed.

(** [resets] counts the neighbours that decrease, [changes] those that differ. *)
Lemma funcResets_spec vals args enh el :
  series_arg vals 0 = Ok el → Points el ≠ [] →
  funcResets vals args enh = Ok (out enh ++ [sample_of ∅ (float_of_Z (Z.of_nat
    (length (filter (λ pq, SFltb (V pq.2) (V pq.1) = true) (neighbours (Points el))))))], enh).
Proof.
  intros Hel Hne. unfold funcResets. rewrite Hel. cbn [res_bind].
  destruct (Points el) as [|p ps]; [done|]. change (index (p :: ps) 0) with (Ok p).
  change (drop 1 (p :: ps)) with ps. cbn [res_bind]. by rewrite resets_loop_spec.
Qed.

Lemma funcChanges_spec vals args enh el :
  series_arg vals 0 = Ok el → Points el ≠ [] →
  funcChanges vals args enh = Ok (out enh ++ [sample_of ∅ (float_of_Z (Z.of_nat
    (length (filter (λ pq, differs (V pq.1) (V pq.2) = true) (neighbours (Points el))))))], enh).
Proof.
  intros Hel Hne. unfold funcChanges. rewrite Hel. cbn [res_bind].
  destruct (Points el) as [|p ps]; [done|]. change (index (p :: ps) 0) with (Ok p).
  change (drop 1 (p :: ps)) with ps. cbn [res_bind]. by rewrite changes_loop_spec.
Qed.

(** A series with fewer than two points has no rate. *)
Lemma extrapolatedRate_short vals args enh el range offset isCounter isRate :
  selector_range args = Ok (range, offset) → series_arg vals 0 = Ok el → length (Points el) < 2 →
  extrapolatedRate vals args enh isCounter isRate = Ok (out enh, enh).
Proof.
  intros Hr Hel Hl. unfold extrapolatedRate. rewrite Hr, Hel. cbn [res_bind].
  by destruct (Points el) as [|p [|q ps]]; [..|simpl in Hl; lia].
Qed.

(** The correction for resets: the sum of the values that are followed by a smaller one. *)
Lemma correction_loop_spec c v ps :
  correction_loop true c v ps =
    (foldl (λ c p, float_add c p.1) c
       (filter (λ p, SFltb p.2 p.1 = true) (neighbours (v :: (V <$> ps)))),
     default v (last (V <$> ps))).
Proof.
  revert c v. induction ps as [|p ps IH]; intros c v; [done|]. cbn [correction_loop].
  rewrite IH, !fmap_cons, neighbours_cons, filter_cons. cbn [fst snd andb].
  rewrite last_cons. destruct (SFltb (V p) v) eqn:E;
    [rewrite decide_True by done|rewrite decide_False by congruence];
    by destruct (last (V <$> ps)).
Qed.

End spec.

(** ** Examples *)

Module Toy.

Definition l (n v : string) : labels := {[ n := v ]}.
Definition s (ls : labels) (v : Z) : Sample := sample_of ls (float_of_Z v).
Definition parse (t : string) : option float64 :=
  if bool_decide (t = "1") then Some (float_of_Z 1)
  else if bool_decide (t = "+Inf") then Some (Inf false) else None.
Definition vec : list Sample := [s (<["job" := "a"]> (l "le" "1")) 2; s (<["job" := "a"]> (l "le" "+Inf")) 4; s (l "x" "y") 7].
Definition enh : EvalNodeHelper (R:=unit) := new_helper.

Example dates : days_in_month 1582000000 = 29%Z ∧ days_in_month (-2206310400) = 28%Z
  ∧ days_in_month 951782400 = 29%Z ∧ Weekday 1582000000 = 2%Z ∧ Year 1582000000 = 2020%Z.
Proof. vm_compute. done. Qed.

End Toy.

Lemma funcHistogramQuantile_spec_witness :
  ∃ (hs : list Z) outv enh', funcHistogramQuantile Toy.parse [VVector [Toy.s ∅ 1]; VVector Toy.vec] [] Toy.enh
      = Ok (out Toy.enh ++ outv, enh') ∧ NoDup hs.
Proof.
  destruct (funcHistogramQuantile_spec Toy.parse (λ _, True) [VVector [Toy.s ∅ 1]; VVector Toy.vec] []
    Toy.enh (float_of_Z 1) Toy.vec) as (hs & outv & enh' & H1 & H2 & _);
    [reflexivity|reflexivity|apply map_hash_inj|by repeat constructor|apply cache_ok_empty|reflexivity|].
  exists hs, outv, enh'. exact (conj H1 H2).
Defined.

Lemma funcLabelReplace_spec_witness :
  ∃ enh', funcLabelReplace (R:=unit) (λ _, Some tt) (λ _ s, Some s) (λ _ repl _ m, repl +:+ m) (λ _, true)
      [VVector [Toy.s (Toy.l "job" "a") 1]]
      [StringLiteral 0 ""; StringLiteral 1 "dst"; StringLiteral 2 "x-"; StringLiteral 3 "job"; StringLiteral 4 ".*"]
      Toy.enh = Ok (out Toy.enh ++ [Toy.s (<["dst" := "x-a"]> (Toy.l "job" "a")) 1], enh').
Proof.
  destruct (funcLabelReplace_spec (R:=unit) (λ _, Some tt) (λ _ s, Some s) (λ _ repl _ m, repl +:+ m) (λ _, true)
    (λ _, True) [VVector [Toy.s (Toy.l "job" "a") 1]]
    [StringLiteral 0 ""; StringLiteral 1 "dst"; StringLiteral 2 "x-"; StringLiteral 3 "job"; StringLiteral 4 ".*"]
    Toy.enh tt [Toy.s (Toy.l "job" "a") 1] "dst" "x-" "job" ".*") as (enh' & -> & _);
    [reflexivity..|apply map_hash_inj|by repeat constructor|reflexivity|reflexivity|by left|].
  exists enh'. do 4 f_equal.
Defined.

Lemma createLabelsForAbsentFunction_spec_witness :
  createLabelsForAbsentFunction (VectorSelector (MkVsel 0 0
    [Lbl.MkMatcher Lbl.MatchEqual "job" "a" (λ _, true); Lbl.MkMatcher Lbl.MatchRegexp "x" "b" (λ _, true)]
    None)) !! "job" = Some "a".
Proof.
  apply createLabelsForAbsentFunction_spec; [by repeat constructor|]. split; [done|].
  eexists. split; [reflexivity|done].
Defined.

Lemma funcMaxOverTime_spec_witness :
  ∃ v, funcMaxOverTime [VMatrix [MkSeries ∅ [MkPoint 0 NaN; MkPoint 1 (float_of_Z 3)]]] [] Toy.enh
    = Ok (out Toy.enh ++ [sample_of ∅ v], Toy.enh).
Proof.
  destruct (funcMaxOverTime_spec [VMatrix [MkSeries ∅ [MkPoint 0 NaN; MkPoint 1 (float_of_Z 3)]]] [] Toy.enh
    (MkSeries ∅ [MkPoint 0 NaN; MkPoint 1 (float_of_Z 3)])) as (v & H & _); [reflexivity|done|].
  exists v. exact H.
Defined.

End Fn.
