(* ===== verification/VectorOps.v ===== *)
(** * Binary operations

    [src/pkg/promql/engine.go]: the set operations and the matching of vectors,
    operations with a scalar and between numbers, and the labels of a result.  Signatures
    and result labels go through the caches of the helper. *)
From S2P Require Import Prelude Float PromLabels PromValue Quantile PromAst Functions.

Module Vop.
Import Val Ast Qnt Fn.

Definition btos (b : bool) : float64 := if b then f_one else f_zero.

Definition shouldDropMetricName (op : ItemType) : bool :=
  match op with ADD | SUB | DIV | MUL | POW | MOD => true | _ => false end.

Section ops.
Context {gsort : GoSort} {plabels : PromLabels} {R : Type}.
Context (Pow : float64 → float64 → float64).
Implicit Types (enh : EvalNodeHelper (R:=R)) (vec lhs rhs : list Sample).

Definition float_neq (x y : float64) : bool := negb (SFeqb x y).

Definition scalarBinop (op : ItemType) (lhs rhs : float64) : res float64 :=
  match op with
  | ADD => Ok (lhs + rhs)%F
  | SUB => Ok (lhs - rhs)%F
  | MUL => Ok (lhs * rhs)%F
  | DIV => Ok (lhs / rhs)%F
  | POW => Ok (Pow lhs rhs)
  | MOD => Ok (Mod lhs rhs)
  | EQL => Ok (btos (SFeqb lhs rhs))
  | NEQ => Ok (btos (float_neq lhs rhs))
  | GTR => Ok (btos (lhs >? rhs)%F)
  | LSS => Ok (btos (lhs <? rhs)%F)
  | GTE => Ok (btos (lhs >=? rhs)%F)
  | LTE => Ok (btos (lhs <=? rhs)%F)
  | _ => Err (Errorf "operator not allowed for Scalar operations")
  end.

Definition vectorElemBinop (op : ItemType) (lhs rhs : float64) : res (float64 * bool) :=
  match op with
  | ADD => Ok ((lhs + rhs)%F, true)
  | SUB => Ok ((lhs - rhs)%F, true)
  | MUL => Ok ((lhs * rhs)%F, true)
  | DIV => Ok ((lhs / rhs)%F, true)
  | POW => Ok (Pow lhs rhs, true)
  | MOD => Ok (Mod lhs rhs, true)
  | EQL => Ok (lhs, SFeqb lhs rhs)
  | NEQ => Ok (lhs, float_neq lhs rhs)
  | GTR => Ok (lhs, (lhs >? rhs)%F)
  | LSS => Ok (lhs, (lhs <? rhs)%F)
  | GTE => Ok (lhs, (lhs >=? rhs)%F)
  | LTE => Ok (lhs, (lhs <=? rhs)%F)
  | _ => Err (Errorf "operator not allowed for operations between Vectors")
  end.

(** ** Set operations *)

Definition sig_of (matching : VectorMatching) enh (l : labels) : Z * EvalNodeHelper (R:=R) :=
  signatureFunc (On matching) (MatchingLabels matching) enh l.

(** The loop that collects the signatures of a vector. *)
Fixpoint sigs_loop (matching : VectorMatching) (sigs : gset Z) vec enh : gset Z * EvalNodeHelper (R:=R) :=
  match vec with
  | [] => (sigs, enh)
  | s :: vec => let '(sig, enh) := sig_of matching enh (s_Metric s) in
                sigs_loop matching ({[sig]} ∪ sigs) vec enh
  end.

(** The loop that appends the samples whose signature is in the set, or is not. *)
Fixpoint keep_loop (matching : VectorMatching) (wanted : bool) (sigs : gset Z) vec enh
    : EvalNodeHelper (R:=R) :=
  match vec with
  | [] => enh
  | s :: vec =>
      let '(sig, enh) := sig_of matching enh (s_Metric s) in
      keep_loop matching wanted sigs vec
        (if bool_decide (bool_decide (sig ∈ sigs) = wanted) then set_out enh (out enh ++ [s]) else enh)
  end.

Definition set_panic {A} : res A := Panic "set operations must only use many-to-many matching".

Definition VectorAnd lhs rhs (matching : VectorMatching) enh : res (list Sample * EvalNodeHelper (R:=R)) :=
  if bool_decide (Card matching = CardManyToMany) then
    let '(rightSigs, enh) := sigs_loop matching ∅ rhs enh in
    return_out (keep_loop matching true rightSigs lhs enh)
  else set_panic.

(** The loop of [VectorOr] that also appends everything. *)
Fixpoint left_loop (matching : VectorMatching) (sigs : gset Z) vec enh : gset Z * EvalNodeHelper (R:=R) :=
  match vec with
  | [] => (sigs, enh)
  | s :: vec => let '(sig, enh) := sig_of matching enh (s_Metric s) in
                left_loop matching ({[sig]} ∪ sigs) vec (set_out enh (out enh ++ [s]))
  end.

Definition VectorOr lhs rhs (matching : VectorMatching) enh : res (list Sample * EvalNodeHelper (R:=R)) :=
  if bool_decide (Card matching = CardManyToMany) then
    let '(leftSigs, enh) := left_loop matching ∅ lhs enh in
    return_out (keep_loop matching false leftSigs rhs enh)
  else set_panic.

Definition VectorUnless lhs rhs (matching : VectorMatching) enh : res (list Sample * EvalNodeHelper (R:=R)) :=
  if bool_decide (Card matching = CardManyToMany) then
    let '(rightSigs, enh) := sigs_loop matching ∅ rhs enh in
    return_out (keep_loop matching false rightSigs lhs enh)
  else set_panic.

(** ** The labels of a result *)

(** The labels before the cache: the builder's calls in their order. *)
Definition include_label (rhs : labels) (lb : labels) (ln : string) : labels :=
  let v := Get rhs ln in
  if bool_decide (v = "") then Del [ln] lb else Set_ ln v lb.

Definition plain_resultMetric (lhs rhs : labels) (op : ItemType) (matching : VectorMatching) : labels :=
  let lb := if shouldDropMetricName op then Del [MetricName] lhs else lhs in
  let lb :=
    if bool_decide (Card matching = CardOneToOne) then
      if On matching then
        (* the deletions of the loop over the labels of [lhs] commute *)
        foldl (λ lb n, Del [n] lb) lb
          (filter (λ n, n ∉ MatchingLabels matching) (map_to_list lhs).*1)
      else Del (MatchingLabels matching) lb
    else lb in
  foldl (include_label rhs) lb (Include matching).

(** [(lh ^ rhs.Hash()) + lh] on 64 bits. *)
Definition pair_hash (lhs rhs : labels) : Z :=
  ((Z.lxor (Hash lhs) (Hash rhs) + Hash lhs) mod 18446744073709551616)%Z.

Definition resultMetric (lhs rhs : labels) (op : ItemType) (matching : VectorMatching) enh
    : labels * EvalNodeHelper (R:=R) :=
  let h := pair_hash lhs rhs in
  match h_resultMetric enh !! h with
  | Some ret => (ret, enh)
  | None => let ret := plain_resultMetric lhs rhs op matching in
            (ret, set_resultMetric enh (<[h := ret]> (h_resultMetric enh)))
  end.

(** ** Matching *)

Definition duplicate_error (matching : VectorMatching) (rs dupl : Sample) : goerror :=
  let oneSide := if bool_decide (Card matching = CardOneToMany) then "left" else "right" in
  Errorf ("found duplicate series for the match group " +:+
    labels_String (MatchLabels (On matching) (MatchingLabels matching) (s_Metric rs)) +:+ " on the " +:+ oneSide +:+
    " hand-side of the operation: [" +:+ labels_String (s_Metric rs) +:+ ", " +:+ labels_String (s_Metric dupl) +:+
    "];many-to-many matching not allowed: matching labels must be unique on one side").

Fixpoint right_loop (matching : VectorMatching) (rightSigs : gmap Z Sample) vec enh
    : res (gmap Z Sample * EvalNodeHelper (R:=R)) :=
  match vec with
  | [] => Ok (rightSigs, enh)
  | rs :: vec =>
      let '(sig, enh) := sig_of matching enh (s_Metric rs) in
      match rightSigs !! sig with
      | Some duplSample => Err (duplicate_error matching rs duplSample)
      | None => right_loop matching (<[sig := rs]> rightSigs) vec enh
      end
  end.

Definition many_to_one_error : goerror :=
  Errorf "multiple matches for labels: many-to-one matching must be explicit (group_left/group_right)".
Definition grouping_error : goerror :=
  Errorf "multiple matches for labels: grouping labels must ensure unique matches".

(** The check of one result and the signatures after it; a nil set stands for
    one-to-one matching. *)
Definition match_check (matching : VectorMatching) (matchedSigs : gmap Z (gset Z)) (sig : Z) (metric : labels)
    : res (gmap Z (gset Z)) :=
  if bool_decide (Card matching = CardOneToOne) then
    match matchedSigs !! sig with
    | Some _ => Err many_to_one_error
    | None => Ok (<[sig := ∅]> matchedSigs)
    end
  else
    let insertSig := Hash metric in
    match matchedSigs !! sig with
    | None => Ok (<[sig := {[insertSig]}]> matchedSigs)
    | Some insertedSigs =>
        if bool_decide (insertSig ∈ insertedSigs) then Err grouping_error
        else Ok (<[sig := {[insertSig]} ∪ insertedSigs]> matchedSigs)
    end.

(** The value for a pair of samples: [None] when it is filtered out. *)
Definition pair_value (op : ItemType) (matching : VectorMatching) (returnBool : bool) (ls rs : Sample)
    : res (option float64) :=
  let '(vl, vr) := if bool_decide (Card matching = CardOneToMany) then (sV rs, sV ls) else (sV ls, sV rs) in
  let* (value, keep) := vectorElemBinop op vl vr in
  Ok (if returnBool then Some (if (keep : bool) then f_one else f_zero)
      else if (keep : bool) then Some value else None).

Fixpoint match_loop (op : ItemType) (matching : VectorMatching) (returnBool : bool) (rightSigs : gmap Z Sample)
    (matchedSigs : gmap Z (gset Z)) vec enh : res (list Sample * EvalNodeHelper (R:=R)) :=
  match vec with
  | [] => return_out enh
  | ls :: vec =>
      let '(sig, enh) := sig_of matching enh (s_Metric ls) in
      match rightSigs !! sig with
      | None => match_loop op matching returnBool rightSigs matchedSigs vec enh
      | Some rs =>
          let* value := pair_value op matching returnBool ls rs in
          match value with
          | None => match_loop op matching returnBool rightSigs matchedSigs vec enh
          | Some value =>
              let '(metric, enh) := resultMetric (s_Metric ls) (s_Metric rs) op matching enh in
              let* matchedSigs := match_check matching matchedSigs sig metric in
              match_loop op matching returnBool rightSigs matchedSigs vec
                (set_out enh (out enh ++ [sample_of metric value]))
          end
      end
  end.

Definition VectorBinop (op : ItemType) lhs rhs (matching : VectorMatching) (returnBool : bool) enh
    : res (list Sample * EvalNodeHelper (R:=R)) :=
  if bool_decide (Card matching = CardManyToMany) then Panic "many-to-many only allowed for set operators"
  else
    let '(lhs, rhs) := if bool_decide (Card matching = CardOneToMany) then (rhs, lhs) else (lhs, rhs) in
    let* (rightSigs, enh) := right_loop matching ∅ rhs enh in
    match_loop op matching returnBool rightSigs ∅ lhs enh.

(** ** Operations with a scalar *)

Definition scalar_value (op : ItemType) (swap returnBool : bool) (v rhs : float64) : res (float64 * bool) :=
  let '(lv, rv) := if swap then (rhs, v) else (v, rhs) in
  let* (value, keep) := vectorElemBinop op lv rv in
  let value := if IsComparisonOperator op && swap then rv else value in
  Ok (if returnBool then (if (keep : bool) then f_one else f_zero, true) else (value, keep)).

Fixpoint VectorscalarBinop (op : ItemType) lhs (rhs : Scalar) (swap returnBool : bool) enh
    : res (list Sample * EvalNodeHelper (R:=R)) :=
  match lhs with
  | [] => return_out enh
  | lhsSample :: lhs =>
      let* (value, keep) := scalar_value op swap returnBool (sV lhsSample) (sc_V rhs) in
      if (keep : bool) then
        let '(metric, enh) :=
          if shouldDropMetricName op || returnBool then dropMetricName enh (s_Metric lhsSample)
          else (s_Metric lhsSample, enh) in
        VectorscalarBinop op lhs rhs swap returnBool
          (set_out enh (out enh ++ [MkSample (MkPoint (T (s_Point lhsSample)) value) metric]))
      else VectorscalarBinop op lhs rhs swap returnBool enh
  end.

(** ** Specification *)

Section spec.
Context (P : labels → Prop) (Hinj : hash_inj P).
Context (matching : VectorMatching).

Definition sig (s : Sample) : Z := plain_signature (On matching) (MatchingLabels matching) (s_Metric s).
Definition sigs_ok enh : Prop := cache_ok (plain_signature (On matching) (MatchingLabels matching)) P (sigf enh).
Definition known vec : Prop := Forall (λ s, P (s_Metric s)) vec.

Lemma sig_of_spec enh s :
  P (s_Metric s) → sigs_ok enh →
  ∃ enh', sig_of matching enh (s_Metric s) = (sig s, enh') ∧ out enh' = out enh ∧ sigs_ok enh' ∧
    h_resultMetric enh' = h_resultMetric enh.
Proof.
  intros Hs Hc. destruct (signatureFunc_spec P (On matching) (MatchingLabels matching) enh (s_Metric s))
    as (enh' & Heq & Ho & Hc' & _ & _ & _ & Hr & _); [done..|].
  by exists enh'.
Qed.

Lemma sigs_loop_spec sigs vec enh :
  known vec → sigs_ok enh →
  ∃ enh' sigs', sigs_loop matching sigs vec enh = (sigs', enh') ∧ out enh' = out enh ∧ sigs_ok enh' ∧
    ∀ h, h ∈ sigs' ↔ h ∈ sigs ∨ h ∈ sig <$> vec.
Proof.
  revert sigs enh. induction vec as [|s vec IH]; intros sigs enh Hk Hc; cbn [sigs_loop].
  { exists enh, sigs. split_and!; [done..|]. set_solver. }
  apply Forall_cons in Hk as [Hs Hk]. destruct (sig_of_spec enh s Hs Hc) as (enh1 & -> & Ho & Hc1 & _).
  destruct (IH ({[sig s]} ∪ sigs) enh1 Hk Hc1) as (enh' & sigs' & -> & Ho' & Hc' & Hs').
  exists enh', sigs'. rewrite Ho'. split_and!; [done..|]. intros h. rewrite Hs', fmap_cons. set_solver.
Qed.

Lemma left_loop_spec sigs vec enh :
  known vec → sigs_ok enh →
  ∃ enh' sigs', left_loop matching sigs vec enh = (sigs', enh') ∧ out enh' = out enh ++ vec ∧ sigs_ok enh' ∧
    ∀ h, h ∈ sigs' ↔ h ∈ sigs ∨ h ∈ sig <$> vec.
Proof.
  revert sigs enh. induction vec as [|s vec IH]; intros sigs enh Hk Hc; cbn [left_loop].
  { exists enh, sigs. split_and!; [done|by rewrite app_nil_r|done|]. set_solver. }
  apply Forall_cons in Hk as [Hs Hk]. destruct (sig_of_spec enh s Hs Hc) as (enh1 & -> & Ho & Hc1 & _).
  destruct (IH ({[sig s]} ∪ sigs) (set_out enh1 (out enh1 ++ [s])) Hk Hc1)
    as (enh' & sigs' & -> & Ho' & Hc' & Hs').
  exists enh', sigs'. rewrite Ho'. cbn [out set_out]. rewrite Ho, <-(assoc_L (++)).
  split_and!; [done..|]. intros h. rewrite Hs', fmap_cons. set_solver.
Qed.

Lemma keep_loop_spec wanted sigs vec enh :
  known vec → sigs_ok enh →
  out (keep_loop matching wanted sigs vec enh)
    = out enh ++ filter (λ s, bool_decide (sig s ∈ sigs) = wanted) vec.
Proof.
  revert enh. induction vec as [|s vec IH]; intros enh Hk Hc; cbn [keep_loop]; [by rewrite app_nil_r|].
  apply Forall_cons in Hk as [Hs Hk]. destruct (sig_of_spec enh s Hs Hc) as (enh1 & -> & Ho & Hc1 & _).
  rewrite IH by (done || by case_match). rewrite filter_cons.
  destruct (decide (bool_decide (sig s ∈ sigs) = wanted)) as [Hw|Hw].
  - rewrite bool_decide_true by done. cbn [out set_out]. by rewrite Ho, <-(assoc_L (++)).
  - by rewrite bool_decide_false, Ho by done.
Qed.

Lemma filter_sig_in (b : bool) (sigs : gset Z) vec (other : list Sample) :
  (∀ h, h ∈ sigs ↔ h ∈ sig <$> other) →
  filter (λ s, bool_decide (sig s ∈ sigs) = b) vec = filter (λ s, bool_decide (sig s ∈ sig <$> other) = b) vec.
Proof.
  intros Hs. apply list_filter_iff. intros s. by rewrite (bool_decide_ext _ _ (Hs (sig s))).
Qed.

(** The three set operations: the samples of one side that have, or have not, a
    sample with their signature on the other. *)
Lemma set_operations_ok lhs rhs enh :
  Card matching = CardManyToMany → known lhs → known rhs → sigs_ok enh →
  (∃ enh', VectorAnd lhs rhs matching enh
    = Ok (out enh ++ filter (λ s, bool_decide (sig s ∈ sig <$> rhs) = true) lhs, enh')) ∧
  (∃ enh', VectorOr lhs rhs matching enh
    = Ok (out enh ++ lhs ++ filter (λ s, bool_decide (sig s ∈ sig <$> lhs) = false) rhs, enh')) ∧
  (∃ enh', VectorUnless lhs rhs matching enh
    = Ok (out enh ++ filter (λ s, bool_decide (sig s ∈ sig <$> rhs) = false) lhs, enh')).
Proof.
  intros Hcard Hl Hr Hc. unfold VectorAnd, VectorOr, VectorUnless, return_out.
  rewrite bool_decide_true by done.
  destruct (sigs_loop_spec ∅ rhs enh Hr Hc) as (e1 & sr & -> & Ho1 & Hc1 & Hs1).
  destruct (left_loop_spec ∅ lhs enh Hl Hc) as (e2 & sl & -> & Ho2 & Hc2 & Hs2).
  rewrite !keep_loop_spec by done. rewrite Ho1, Ho2, <-!(assoc_L (++)).
  rewrite !(filter_sig_in _ sr lhs rhs), (filter_sig_in _ sl rhs lhs) by set_solver.
  split_and!; eexists; reflexivity.
Qed.

(** *** Matching *)

Context (op : ItemType) (returnBool : bool).

(** The cache of result labels, and pairs of label sets without collisions. *)
Definition results_ok enh : Prop := ∀ h a, h_resultMetric enh !! h = Some a →
  ∃ l r, P l ∧ P r ∧ pair_hash l r = h ∧ a = plain_resultMetric l r op matching.
Definition pair_inj : Prop := ∀ l r l' r', P l → P r → P l' → P r' →
  pair_hash l r = pair_hash l' r' → l = l' ∧ r = r'.

Lemma resultMetric_spec enh l r :
  pair_inj → P l → P r → results_ok enh →
  ∃ enh', resultMetric l r op matching enh = (plain_resultMetric l r op matching, enh') ∧
    out enh' = out enh ∧ results_ok enh' ∧ sigf enh' = sigf enh.
Proof.
  intros Hpi Hl Hr Hc. unfold resultMetric. destruct (h_resultMetric enh !! pair_hash l r) as [ret|] eqn:E.
  - exists enh. split_and!; try done. f_equal. destruct (Hc _ _ E) as (l' & r' & Hl' & Hr' & Hh & ->).
    by destruct (Hpi l' r' l r) as [-> ->].
  - eexists. split_and!; [done|done| |done]. intros h a. cbn [h_resultMetric set_resultMetric].
    intros [[<- <-]|[_ Ha]]%lookup_insert_Some; [by exists l, r|by apply Hc].
Qed.

Lemma right_loop_spec rightSigs vec enh :
  known vec → sigs_ok enh → (∀ h, is_Some (rightSigs !! h) → h ∉ sig <$> vec) →
  if decide (NoDup (sig <$> vec)) then
    ∃ m enh', right_loop matching rightSigs vec enh = Ok (m, enh') ∧ out enh' = out enh ∧ sigs_ok enh' ∧
      h_resultMetric enh' = h_resultMetric enh ∧
      ∀ h, m !! h = match head (filter (λ s, sig s = h) vec) with Some s => Some s | None => rightSigs !! h end
  else ∃ a b, right_loop matching rightSigs vec enh = Err (duplicate_error matching a b).
Proof.
  revert rightSigs enh. induction vec as [|s vec IH]; intros rightSigs enh Hk Hc Hnew; cbn [right_loop].
  { rewrite decide_True by constructor. exists rightSigs, enh. done. }
  apply Forall_cons in Hk as [Hs Hk]. destruct (sig_of_spec enh s Hs Hc) as (enh1 & -> & Ho & Hc1 & Hr1).
  destruct (rightSigs !! sig s) as [d|] eqn:Hd.
  { destruct (Hnew (sig s)); [by rewrite Hd|]. rewrite fmap_cons. set_solver. }
  destruct (decide (sig s ∈ sig <$> vec)) as [Hin|Hin].
  - rewrite decide_False by (rewrite fmap_cons, NoDup_cons; tauto).
    clear IH Hnew Hd. revert enh1 Hc1 Ho Hr1.
    assert (∃ d, <[sig s := s]> rightSigs !! sig s = Some d) as Hd by (eexists; apply lookup_insert_eq).
    revert Hd. generalize (<[sig s := s]> rightSigs) as m. clear rightSigs.
    induction vec as [|t vec IH]; intros m [d Hd] enh1 Hc1 Ho Hr1; [set_solver|].
    apply Forall_cons in Hk as [Ht Hk]. cbn [right_loop].
    destruct (sig_of_spec enh1 t Ht Hc1) as (enh2 & -> & Ho2 & Hc2 & Hr2).
    destruct (m !! sig t) as [x|] eqn:Hx; [by eauto|].
    rewrite fmap_cons in Hin. apply elem_of_cons in Hin as [Heq|Hin]; [congruence|].
    refine (IH Hk Hin (<[sig t := t]> m) _ enh2 Hc2 _ _); [|congruence..].
    exists d. rewrite lookup_insert_ne; [done|congruence].
  - specialize (IH (<[sig s := s]> rightSigs) enh1 Hk Hc1).
    destruct (decide (NoDup (sig <$> vec))) as [Hnd|Hnd].
    + rewrite decide_True by (rewrite fmap_cons; by constructor).
      destruct IH as (m & enh' & -> & Ho' & Hc' & Hr' & Hm).
      { intros h [<-|[_ Hh]]%lookup_insert_is_Some; [done|]. specialize (Hnew h Hh).
        rewrite fmap_cons in Hnew. set_solver. }
      exists m, enh'. rewrite Ho', Hr'. split_and!; [done..|]. intros h. rewrite Hm, filter_cons.
      destruct (decide (sig s = h)) as [<-|Hh].
      * destruct (filter (λ t, sig t = sig s) vec) as [|t l] eqn:Hf; [simpl; by rewrite lookup_insert_eq|].
        destruct Hin. apply list_elem_of_fmap. exists t.
        assert (t ∈ filter (λ t, sig t = sig s) vec) as Ht by (rewrite Hf; set_solver).
        apply list_elem_of_filter in Ht as [? ?]. done.
      * destruct (head _); [done|]. by rewrite lookup_insert_ne.
    + rewrite decide_False by (rewrite fmap_cons, NoDup_cons; tauto). apply IH.
      intros h [<-|[_ Hh]]%lookup_insert_is_Some; [done|]. specialize (Hnew h Hh).
      rewrite fmap_cons in Hnew. set_solver.
Qed.

(** The operators for elements of vectors. *)
Definition elem_op (op : ItemType) : bool :=
  match op with
  | ADD | SUB | MUL | DIV | POW | MOD | EQL | NEQ | GTR | LSS | GTE | LTE => true
  | _ => false
  end.

Definition pair_result (ls rs : Sample) : option float64 :=
  match pair_value op matching returnBool ls rs with Ok v => v | _ => None end.

Lemma pair_value_ok ls rs :
  elem_op op = true → pair_value op matching returnBool ls rs = Ok (pair_result ls rs).
Proof.
  intros Hop. unfold pair_result, pair_value. repeat case_match; simplify_eq/=; try done.
  all: destruct op; try done.
Qed.

(** The result of a sample: its signature, its labels and its value. *)
Definition candidate (one : list Sample) (ls : Sample) : option (Z * labels * float64) :=
  rs ← head (filter (λ s, sig s = sig ls) one);
  v ← pair_result ls rs;
  Some (sig ls, plain_resultMetric (s_Metric ls) (s_Metric rs) op matching, v).

(** What must not repeat: signatures in one-to-one matching, else signatures with
    the labels of results. *)
Definition result_key (sg : Z) (metric : labels) : Z * Z :=
  (sg, if bool_decide (Card matching = CardOneToOne) then 0%Z else Hash metric).
Definition ckey (c : Z * labels * float64) : Z * Z := result_key c.1.1 c.1.2.

Definition match_error : goerror :=
  if bool_decide (Card matching = CardOneToOne) then many_to_one_error else grouping_error.

Definition sets_ok (m : gmap Z (gset Z)) (D : gset (Z * Z)) : Prop :=
  ∀ sg, match m !! sg with
        | None => ∀ h, (sg, h) ∉ D
        | Some s => if bool_decide (Card matching = CardOneToOne) then (sg, 0%Z) ∈ D
                    else ∀ h, h ∈ s ↔ (sg, h) ∈ D
        end.

Lemma match_check_spec m D sg metric :
  sets_ok m D →
  if decide (result_key sg metric ∈ D) then match_check matching m sg metric = Err match_error
  else ∃ m', match_check matching m sg metric = Ok m' ∧ sets_ok m' ({[result_key sg metric]} ∪ D).
Proof.
  intros Hm. pose proof (Hm sg) as Hsg. unfold match_check, match_error, result_key, sets_ok in *.
  case_bool_decide as Hcard; destruct (m !! sg) as [s|] eqn:Hs.
  - by rewrite decide_True.
  - rewrite decide_False by done. eexists. split; [done|]. intros sg'.
    destruct (decide (sg' = sg)) as [->|Hne]; [rewrite lookup_insert_eq; set_solver|].
    rewrite lookup_insert_ne by done. specialize (Hm sg'). case_match; set_solver.
  - destruct (decide ((sg, Hash metric) ∈ D)) as [Hd|Hd]; [by rewrite bool_decide_true by by apply Hsg|].
    rewrite bool_decide_false by (by rewrite Hsg). eexists. split; [done|]. intros sg'.
    destruct (decide (sg' = sg)) as [->|Hne]; [rewrite lookup_insert_eq; set_solver|].
    rewrite lookup_insert_ne by done. specialize (Hm sg'). case_match; set_solver.
  - rewrite decide_False by done. eexists. split; [done|]. intros sg'.
    destruct (decide (sg' = sg)) as [->|Hne]; [rewrite lookup_insert_eq; set_solver|].
    rewrite lookup_insert_ne by done. specialize (Hm sg'). case_match; set_solver.
Qed.

Lemma head_filter_in (Q : Sample → Prop) `{!∀ s, Decision (Q s)} vec s :
  head (filter Q vec) = Some s → s ∈ vec.
Proof.
  intros Hh. assert (s ∈ filter Q vec) as Hs by (destruct (filter Q vec); simplify_eq/=; set_solver).
  by apply list_elem_of_filter in Hs as [_ Hs].
Qed.

Lemma match_loop_spec rightSigs one m D vec enh :
  pair_inj → elem_op op = true → known vec → known one → sigs_ok enh → results_ok enh →
  (∀ h, rightSigs !! h = head (filter (λ s, sig s = h) one)) → sets_ok m D →
  let cs := omap (candidate one) vec in
  if decide (NoDup (ckey <$> cs) ∧ Forall (λ k, k ∉ D) (ckey <$> cs)) then
    ∃ enh', match_loop op matching returnBool rightSigs m vec enh
      = Ok (out enh ++ ((λ c, sample_of c.1.2 c.2) <$> cs), enh')
  else match_loop op matching returnBool rightSigs m vec enh = Err match_error.
Proof.
  intros Hpi Hop Hk Hone Hc Hr Hrs. revert m D enh Hc Hr. induction vec as [|ls vec IH]; intros m D enh Hc Hr Hm.
  { cbn. rewrite decide_True by (split; constructor). exists enh. by rewrite app_nil_r. }
  apply Forall_cons in Hk as [Hls Hk]. specialize (IH Hk). cbn [match_loop omap list_omap].
  destruct (sig_of_spec enh ls Hls Hc) as (enh1 & -> & Ho & Hc1 & Hr1). rewrite Hrs.
  assert (results_ok enh1) as Hr' by (unfold results_ok; by rewrite Hr1).
  destruct (head (filter (λ s, sig s = sig ls) one)) as [rs|] eqn:Hrs'.
  2: { assert (candidate one ls = None) as -> by (unfold candidate; by rewrite Hrs').
       rewrite <-Ho. by apply IH. }
  rewrite pair_value_ok by done. cbn [res_bind].
  destruct (pair_result ls rs) as [v|] eqn:Hv.
  2: { assert (candidate one ls = None) as -> by (unfold candidate; rewrite Hrs'; simpl; by rewrite Hv).
       rewrite <-Ho. by apply IH. }
  assert (candidate one ls = Some (sig ls, plain_resultMetric (s_Metric ls) (s_Metric rs) op matching, v)) as ->
    by (unfold candidate; rewrite Hrs'; simpl; by rewrite Hv).
  assert (P (s_Metric rs)) as Hprs.
  { apply head_filter_in in Hrs'. unfold known in Hone. rewrite Forall_forall in Hone. auto. }
  destruct (resultMetric_spec enh1 (s_Metric ls) (s_Metric rs)) as (enh2 & -> & Ho2 & Hr2 & Hs2); [done..|].
  set (metric := plain_resultMetric _ _ _ _) in *.
  pose proof (match_check_spec m D (sig ls) metric Hm) as Hcheck.
  rewrite fmap_cons. change (ckey (sig ls, metric, v)) with (result_key (sig ls) metric).
  set (k := result_key (sig ls) metric) in *. set (cs := omap (candidate one) vec) in *.
  destruct (decide (k ∈ D)) as [Hd|Hd].
  { rewrite Hcheck. rewrite decide_False; [done|]. intros [_ HF]. by apply Forall_cons in HF as [? _]. }
  destruct Hcheck as (m' & -> & Hm'). cbn [res_bind].
  specialize (IH m' ({[k]} ∪ D) (set_out enh2 (out enh2 ++ [sample_of metric v]))).
  cbv zeta in IH. fold cs in IH.
  assert (NoDup (ckey <$> cs) ∧ Forall (λ k', k' ∉ {[k]} ∪ D) (ckey <$> cs) ↔
    NoDup (k :: (ckey <$> cs)) ∧ Forall (λ k, k ∉ D) (k :: (ckey <$> cs))) as Hiff.
  { rewrite NoDup_cons, Forall_cons, !Forall_forall. split.
    - intros [Hnd HF]. split_and!; [|done|done|]; [|intros x Hx; specialize (HF x Hx); set_solver].
      intros Hin. specialize (HF k Hin). set_solver.
    - intros [[Hn Hnd] [_ HF]]. split; [done|]. intros x Hx. specialize (HF x Hx).
      assert (x ≠ k) by (by intros ->). set_solver. }
  rewrite <-(decide_ext _ _ _ _ Hiff).
  assert (sigs_ok (set_out enh2 (out enh2 ++ [sample_of metric v]))) as Hc2
    by (unfold sigs_ok in *; cbn [sigf set_out]; by rewrite Hs2).
  specialize (IH Hc2 Hr2 Hm'). case_decide; [|done].
  destruct IH as (enh' & ->). exists enh'. cbn [out set_out]. by rewrite Ho2, Ho, <-(assoc_L (++)), fmap_cons.
Qed.

(** Sides: the vector with many samples for a signature, and the one without. *)
Definition sides lhs rhs : list Sample * list Sample :=
  if bool_decide (Card matching = CardOneToMany) then (rhs, lhs) else (lhs, rhs).

Lemma VectorBinop_ok lhs rhs enh :
  Card matching ≠ CardManyToMany → pair_inj → elem_op op = true →
  known lhs → known rhs → sigs_ok enh → results_ok enh →
  let '(many, one) := sides lhs rhs in
  let cs := omap (candidate one) many in
  if decide (NoDup (sig <$> one)) then
    if decide (NoDup (ckey <$> cs)) then
      ∃ enh', VectorBinop op lhs rhs matching returnBool enh
        = Ok (out enh ++ ((λ c, sample_of c.1.2 c.2) <$> cs), enh')
    else VectorBinop op lhs rhs matching returnBool enh = Err match_error
  else ∃ a b, VectorBinop op lhs rhs matching returnBool enh = Err (duplicate_error matching a b).
Proof.
  intros Hcard Hpi Hop Hl Hr Hc Hres. unfold VectorBinop, sides. rewrite (bool_decide_false (Card matching = CardManyToMany)) by done.
  assert (∀ many one, known many → known one →
    let cs := omap (candidate one) many in
    let r := let* (rightSigs, enh) := right_loop matching ∅ one enh in
             match_loop op matching returnBool rightSigs ∅ many enh in
    if decide (NoDup (sig <$> one)) then
      if decide (NoDup (ckey <$> cs)) then
        ∃ enh', r = Ok (out enh ++ ((λ c, sample_of c.1.2 c.2) <$> cs), enh')
      else r = Err match_error
    else ∃ a b, r = Err (duplicate_error matching a b)) as Hmain.
  { intros many one Hmany Hone cs. pose proof (right_loop_spec ∅ one enh Hone Hc) as Hrl.
    destruct (decide (NoDup (sig <$> one))) as [Hnd|Hnd].
    2: { destruct Hrl as (a & b & ->); [|by exists a, b]. intros h. rewrite lookup_empty. by intros [??]. }
    destruct Hrl as (m & enh1 & -> & Ho & Hc1 & Hr1 & Hm).
    { intros h. rewrite lookup_empty. by intros [??]. }
    cbn [res_bind]. rewrite <-Ho.
    assert (results_ok enh1) as Hres1 by (unfold results_ok; by rewrite Hr1).
    assert (∀ h, m !! h = head (filter (λ s, sig s = h) one)) as Hm'.
    { intros h. rewrite Hm, lookup_empty. by destruct (head _). }
    assert (sets_ok ∅ ∅) as Hso by (intros sg; rewrite lookup_empty; set_solver).
    pose proof (match_loop_spec m one ∅ ∅ many enh1 Hpi Hop Hmany Hone Hc1 Hres1 Hm' Hso) as Hml.
    cbv zeta in Hml. fold cs in Hml.
    assert (NoDup (ckey <$> cs) ∧ Forall (λ k, k ∉ (∅ : gset (Z * Z))) (ckey <$> cs) ↔ NoDup (ckey <$> cs)) as Hiff.
    { rewrite Forall_forall. split; [by intros [? _]|]. intros ?. split; [done|]. set_solver. }
    rewrite (decide_ext _ _ _ _ Hiff) in Hml. done. }
  case_bool_decide; by apply Hmain.
Qed.

(** And, or and unless of vectors: samples stay, in order, when the other side has,
    or has not, a sample with their signature. *)
Theorem set_operations_spec lhs rhs enh :
  Card matching = CardManyToMany → known lhs → known rhs → sigs_ok enh →
  (∃ enh', VectorAnd lhs rhs matching enh
    = Ok (out enh ++ filter (λ s, bool_decide (sig s ∈ sig <$> rhs) = true) lhs, enh')) ∧
  (∃ enh', VectorOr lhs rhs matching enh
    = Ok (out enh ++ lhs ++ filter (λ s, bool_decide (sig s ∈ sig <$> lhs) = false) rhs, enh')) ∧
  (∃ enh', VectorUnless lhs rhs matching enh
    = Ok (out enh ++ filter (λ s, bool_decide (sig s ∈ sig <$> rhs) = false) lhs, enh')).
Proof. apply set_operations_ok. Qed.

(** The labels of a result: included labels come from the one side, arithmetic drops
    the metric name, and one-to-one matching keeps the labels matched on, or drops
    those ignored. *)
Lemma plain_resultMetric_lookup (l r : labels) n :
  plain_resultMetric l r op matching !! n =
    if bool_decide (n ∈ Include matching) then
      let v := default "" (r !! n) in if bool_decide (v = "") then None else Some v
    else if shouldDropMetricName op && bool_decide (n = MetricName) then None
    else if bool_decide (Card matching = CardOneToOne) then
      if bool_decide (bool_decide (n ∈ MatchingLabels matching) = On matching) then l !! n else None
    else l !! n.
Proof.
  unfold plain_resultMetric.
  set (lb0 := if shouldDropMetricName op then _ else _).
  assert (lb0 !! n = if shouldDropMetricName op && bool_decide (n = MetricName) then None else l !! n) as H0.
  { unfold lb0. destruct (shouldDropMetricName op); [|done]. rewrite Del_doc, lookup_without. cbn [andb].
    repeat case_bool_decide; set_solver. }
  assert (∀ ns lb, foldl (λ lb n, Del [n] lb) lb ns !! n = if bool_decide (n ∈ ns) then None else lb !! n) as Hdel.
  { induction ns as [|m ns IH]; intros lb; cbn [foldl]; [by rewrite bool_decide_false by set_solver|].
    rewrite IH, Del_doc, lookup_without. repeat case_bool_decide; set_solver. }
  set (lb1 := if bool_decide (Card matching = CardOneToOne) then _ else lb0).
  assert (lb1 !! n = if shouldDropMetricName op && bool_decide (n = MetricName) then None
    else if bool_decide (Card matching = CardOneToOne) then
      if bool_decide (bool_decide (n ∈ MatchingLabels matching) = On matching) then l !! n else None
    else l !! n) as H1.
  { unfold lb1. destruct (decide (Card matching = CardOneToOne)) as [Hcard|Hcard];
      [rewrite !(bool_decide_true (Card matching = CardOneToOne)) by done
      |by rewrite !(bool_decide_false (Card matching = CardOneToOne)) by done].
    destruct (On matching) eqn:Hon.
    - rewrite Hdel, H0. destruct (shouldDropMetricName op && bool_decide (n = MetricName)); [by case_bool_decide|].
      destruct (decide (n ∈ MatchingLabels matching)) as [Hn|Hn].
      + rewrite (bool_decide_true (n ∈ MatchingLabels matching)) by done.
        rewrite bool_decide_false; [done|]. rewrite list_elem_of_filter. tauto.
      + rewrite (bool_decide_false (n ∈ MatchingLabels matching)) by done. cbn.
        case_bool_decide as Hin; [done|]. destruct (l !! n) as [v|] eqn:Hv; [|done]. destruct Hin.
        apply list_elem_of_filter. split; [done|]. apply list_elem_of_fmap. exists (n, v).
        by rewrite elem_of_map_to_list.
    - rewrite Del_doc, lookup_without, H0.
      destruct (decide (n ∈ MatchingLabels matching)) as [Hn|Hn].
      + rewrite (bool_decide_true (n ∈ MatchingLabels matching)) by done. cbn. by case_match.
      + by rewrite (bool_decide_false (n ∈ MatchingLabels matching)) by done. }
  rewrite <-H1. clearbody lb1. clear H1 Hdel. generalize (Include matching) as inc. intros inc. revert lb1.
  induction inc as [|m inc IH]; intros lb1; cbn [foldl]; [by rewrite bool_decide_false by set_solver|].
  rewrite IH. destruct (decide (n ∈ inc)) as [Hin|Hin].
  { by rewrite (bool_decide_true (n ∈ inc)), (bool_decide_true (n ∈ m :: inc)) by set_solver. }
  rewrite (bool_decide_false (n ∈ inc)) by done. unfold include_label. rewrite Get_doc. cbv zeta.
  assert (∀ v, (if bool_decide (v = "") then Del [m] lb1 else Set_ m v lb1) !! n =
    if bool_decide (n = m) then (if bool_decide (v = "") then None else Some v) else lb1 !! n) as ->.
  { clear IH H0. intros v. destruct (decide (v = "")) as [Hv|Hv].
    - rewrite !(bool_decide_true (v = "")) by done. rewrite Del_doc, lookup_without.
      repeat case_bool_decide; set_solver.
    - rewrite !(bool_decide_false (v = "")) by done. rewrite Set_doc by done.
      case_bool_decide; [subst; by rewrite lookup_insert_eq|by rewrite lookup_insert_ne]. }
  destruct (decide (n = m)) as [<-|Hm].
  - by rewrite (bool_decide_true (n ∈ n :: inc)), (bool_decide_true (n = n)) by set_solver.
  - by rewrite (bool_decide_false (n ∈ m :: inc)), (bool_decide_false (n = m)) by set_solver.
Qed.

(** *** The result of a join, by labels, values and sides *)

(** The labels two samples must agree on to match. *)
Definition match_group (s : Sample) : labels :=
  if On matching then restrict (MatchingLabels matching) (s_Metric s)
  else without (MetricName :: MatchingLabels matching) (s_Metric s).

Definition arithmetic : option (float64 → float64 → float64) :=
  match op with
  | ADD => Some float_add | SUB => Some float_sub | MUL => Some float_mul | DIV => Some float_div
  | POW => Some Pow | MOD => Some Mod | _ => None
  end.

Definition comparison : option (float64 → float64 → bool) :=
  match op with
  | EQL => Some SFeqb | NEQ => Some (λ x y, negb (SFeqb x y))
  | GTR => Some (λ x y, SFltb y x) | LSS => Some SFltb
  | GTE => Some (λ x y, SFleb y x) | LTE => Some SFleb | _ => None
  end.

(** The value of [x op y], or nothing when the comparison filters it out. *)
Definition operate (x y : float64) : option float64 :=
  match arithmetic, comparison with
  | Some f, _ => Some (if returnBool then f_one else f x y)
  | None, Some c => if returnBool then Some (if c x y then f_one else f_zero)
                    else if c x y then Some x else None
  | None, None => None
  end.

(** The labels of the many side without the metric name if the operation is arithmetic,
    cut down to the labels matched on, or to those not ignored, in one-to-one matching;
    the included labels are those of the one side, absent when it has none. *)
Definition joined_labels (many one : labels) : labels :=
  let base := match arithmetic with Some _ => delete MetricName many | None => many end in
  let kept :=
    match Card matching with
    | CardOneToOne => if On matching then restrict (MatchingLabels matching) base
                      else without (MatchingLabels matching) base
    | _ => base
    end in
  filter (λ p, p.1 ∈ Include matching ∧ p.2 ≠ "") one ∪ without (Include matching) kept.

(** A sample of the many side with its match on the one side; the left operand is
    the sample of the left vector. *)
Definition joined (one : list Sample) (ls : Sample) : option (labels * labels * float64) :=
  rs ← head (filter (λ s, match_group s = match_group ls) one);
  v ← match Card matching with
      | CardOneToMany => operate (sV rs) (sV ls)
      | _ => operate (sV ls) (sV rs)
      end;
  Some (match_group ls, joined_labels (s_Metric ls) (s_Metric rs), v).

(** What must not repeat among the results. *)
Definition join_key (j : labels * labels * float64) : labels * labels :=
  match Card matching with CardOneToOne => (j.1.1, ∅) | _ => j.1 end.

(** Different matching labels have different signatures, and different result labels
    different hashes. *)
Definition no_collisions (many one : list Sample) : Prop :=
  (∀ s s', s ∈ many ++ one → s' ∈ many ++ one → sig s = sig s' → match_group s = match_group s') ∧
  (∀ j j', j ∈ omap (joined one) many → j' ∈ omap (joined one) many →
     Hash j.1.2 = Hash j'.1.2 → j.1.2 = j'.1.2).

Lemma joined_labels_ok l r : plain_resultMetric l r op matching = joined_labels l r.
Proof.
  apply map_eq. intros n. rewrite plain_resultMetric_lookup. unfold joined_labels.
  rewrite lookup_union, map_lookup_filter, lookup_without.
  case_bool_decide as Hn.
  { destruct (r !! n) as [v|]; cbn; [|done]. case_bool_decide as Hv.
    - rewrite option_guard_False by tauto. done.
    - rewrite option_guard_True by done. done. }
  assert ((r !! n ≫= λ x, guard ((n, x).1 ∈ Include matching ∧ (n, x).2 ≠ "");; Some x) = None) as ->.
  { destruct (r !! n); cbn; [|done]. by rewrite option_guard_False by tauto. }
  rewrite (left_id_L None union).
  set (base := match arithmetic with Some _ => _ | None => _ end).
  assert (base !! n = if shouldDropMetricName op && bool_decide (n = MetricName) then None else l !! n) as Hb.
  { unfold base, arithmetic. destruct op; cbn [shouldDropMetricName andb]; try done;
      (case_bool_decide; [subst; apply lookup_delete_eq|by apply lookup_delete_ne]). }
  destruct (Card matching); cbn [bool_decide]; try (by rewrite Hb).
  rewrite (bool_decide_true (CardOneToOne = CardOneToOne)) by done.
  destruct (On matching); rewrite ?lookup_restrict, ?lookup_without, Hb;
    destruct (shouldDropMetricName op && bool_decide (n = MetricName)), (bool_decide (n ∈ MatchingLabels matching)); done.
Qed.
Lemma operate_ok ls rs :
  elem_op op = true →
  pair_result ls rs = match Card matching with
                      | CardOneToMany => operate (sV rs) (sV ls)
                      | _ => operate (sV ls) (sV rs)
                      end.
Proof.
  intros Hop. unfold pair_result, pair_value, operate, arithmetic, comparison.
  destruct (Card matching); cbn [bool_decide]; destruct op; try done; destruct returnBool; cbn;
    try done; unfold float_neq; by destruct (SFeqb _ _).
Qed.

Lemma group_sig s s' : match_group s = match_group s' → sig s = sig s'.
Proof.
  unfold match_group, sig, plain_signature. destruct (On matching); intros Heq.
  - apply HashForLabels_doc. by rewrite !restrict_sorted.
  - apply HashWithoutLabels_doc. by rewrite !without_sorted.
Qed.

Lemma filter_group many one ls :
  no_collisions many one → ls ∈ many →
  filter (λ s, sig s = sig ls) one = filter (λ s, match_group s = match_group ls) one.
Proof.
  intros [Hs _] Hls. assert (∀ s, s ∈ one → sig s = sig ls → match_group s = match_group ls) as Hin.
  { intros s Hin. apply Hs; set_solver. }
  clear Hs. induction one as [|s one IH]; [done|]. rewrite !filter_cons, IH by set_solver.
  destruct (decide (match_group s = match_group ls)) as [Hg|Hg].
  - by rewrite decide_True by by apply group_sig.
  - rewrite decide_False; [done|]. intros Hsig. apply Hg, Hin; [set_solver|done].
Qed.

(** The join, each result with the sample it comes from. *)
Definition join_pairs (many one : list Sample) : list (Sample * (labels * labels * float64)) :=
  omap (λ ls, (λ j, (ls, j)) <$> joined one ls) many.

Lemma omap_fmap_some {A B C} (f : A → option B) (g : B → C) (l : list A) :
  g <$> omap f l = omap (λ x, g <$> f x) l.
Proof. induction l as [|x l IH]; [done|]. cbn [omap list_omap]. destruct (f x); cbn; by rewrite <-IH. Qed.

Lemma omap_ext_in {A B} (f g : A → option B) (l : list A) :
  (∀ x, x ∈ l → f x = g x) → omap f l = omap g l.
Proof.
  induction l as [|x l IH]; intros Hfg; [done|]. cbn [omap list_omap].
  rewrite (Hfg x), IH by set_solver. done.
Qed.

Lemma joined_pairs many one : omap (joined one) many = snd <$> join_pairs many one.
Proof.
  unfold join_pairs. rewrite omap_fmap_some. apply omap_ext_in. intros ls _. by destruct (joined one ls).
Qed.

Lemma candidate_pairs many one :
  elem_op op = true → no_collisions many one →
  omap (candidate one) many = (λ p, (sig p.1, p.2.1.2, p.2.2)) <$> join_pairs many one.
Proof.
  intros Hop Hnc. unfold join_pairs. rewrite omap_fmap_some. apply omap_ext_in. intros ls Hls.
  unfold candidate, joined. rewrite (filter_group many) by done.
  destruct (head _) as [rs|]; [|done]. cbn. rewrite operate_ok, joined_labels_ok by done.
  by destruct (Card matching); destruct (operate _ _).
Qed.

Lemma pair_group many one ls j :
  (ls, j) ∈ join_pairs many one → ls ∈ many ∧ j ∈ omap (joined one) many ∧ j.1.1 = match_group ls.
Proof.
  unfold join_pairs. rewrite list_elem_of_omap. intros (ls' & Hls & Hj).
  destruct (joined one ls') as [j'|] eqn:E; [|done]. cbn in Hj. simplify_eq.
  split_and!; [done|by apply list_elem_of_omap; exists ls|].
  revert E. unfold joined. destruct (head _); [|done]. cbn.
  destruct (match Card matching with CardOneToMany => _ | _ => _ end); [|done]. cbn. by intros [= <-].
Qed.

Lemma NoDup_fmap_iff {A B C} (f : A → B) (g : A → C) (l : list A) :
  (∀ x y, x ∈ l → y ∈ l → f x = f y ↔ g x = g y) → NoDup (f <$> l) ↔ NoDup (g <$> l).
Proof.
  induction l as [|x l IH]; intros Hfg; [by rewrite !fmap_nil, !NoDup_nil|].
  rewrite !fmap_cons, !NoDup_cons, IH by (intros; apply Hfg; set_solver).
  rewrite !list_elem_of_fmap. split; intros [Hn Hd]; (split; [|done]); intros (y & Heq & Hy); apply Hn;
    exists y; (split; [|done]); by apply Hfg; [set_solver..|].
Qed.

Lemma VectorBinop_join lhs rhs enh :
  Card matching ≠ CardManyToMany → pair_inj → elem_op op = true →
  known lhs → known rhs → sigs_ok enh → results_ok enh →
  let '(many, one) := sides lhs rhs in
  no_collisions many one →
  let js := omap (joined one) many in
  if decide (NoDup (match_group <$> one)) then
    if decide (NoDup (join_key <$> js)) then
      ∃ enh', VectorBinop op lhs rhs matching returnBool enh
        = Ok (out enh ++ ((λ j, sample_of j.1.2 j.2) <$> js), enh')
    else VectorBinop op lhs rhs matching returnBool enh = Err match_error
  else ∃ a b, VectorBinop op lhs rhs matching returnBool enh = Err (duplicate_error matching a b).
Proof.
  intros Hcard Hpi Hop Hl Hr Hc Hres. pose proof (VectorBinop_ok lhs rhs enh Hcard Hpi Hop Hl Hr Hc Hres) as Hok.
  destruct (sides lhs rhs) as [many one]. intros Hnc. cbv zeta in Hok |- *.
  rewrite candidate_pairs, <-!list_fmap_compose in Hok by done. rewrite joined_pairs, <-!list_fmap_compose.
  assert (NoDup (sig <$> one) ↔ NoDup (match_group <$> one)) as Hone.
  { apply NoDup_fmap_iff. intros x y Hx Hy. split; [apply Hnc; set_solver|apply group_sig]. }
  assert (NoDup (ckey ∘ (λ p : Sample * (labels * labels * float64), (sig p.1, p.2.1.2, p.2.2)) <$> join_pairs many one) ↔
          NoDup (join_key ∘ snd <$> join_pairs many one)) as Hkeys.
  { apply NoDup_fmap_iff. intros [x j] [y j'] Hx Hy.
    apply pair_group in Hx as (Hx & Hj & Hg), Hy as (Hy & Hj' & Hg').
    assert (sig x = sig y ↔ j.1.1 = j'.1.1) as Hsig.
    { rewrite Hg, Hg'. split; [apply Hnc; set_solver|apply group_sig]. }
    assert (Hash j.1.2 = Hash j'.1.2 ↔ j.1.2 = j'.1.2) as Hh by (split; [by apply Hnc|by intros ->]).
    destruct j as [[gj lj] vj], j' as [[gj' lj'] vj']. unfold ckey, result_key, join_key, compose. simpl in *.
    destruct (Card matching); simpl; rewrite !pair_eq; tauto. }
  rewrite (decide_ext _ _ _ _ Hone), (decide_ext _ _ _ _ Hkeys) in Hok. done.
Qed.

(** C20. A binary operation of vectors joins each sample of the many side with the sample
    of the one side that agrees with it on the labels matched on, or on all labels but
    the ignored ones and the name.  The value is that of the operation on the left and
    the right operand; the labels are those of [joined_labels].  Two samples of the one
    side that agree on these labels are an error; so are two results of one match in
    one-to-one matching, and two results of one match with the same labels otherwise;
    there is no other error for these operators.  Label sets are assumed not to collide
    in the hashes that the code compares. *)
Theorem VectorBinop_spec lhs rhs enh :
  Card matching ≠ CardManyToMany → pair_inj → elem_op op = true →
  known lhs → known rhs → sigs_ok enh → results_ok enh →
  let '(many, one) := sides lhs rhs in
  no_collisions many one →
  let js := omap (joined one) many in
  if decide (NoDup (match_group <$> one)) then
    if decide (NoDup (join_key <$> js)) then
      ∃ enh', VectorBinop op lhs rhs matching returnBool enh
        = Ok (out enh ++ ((λ j, sample_of j.1.2 j.2) <$> js), enh')
    else VectorBinop op lhs rhs matching returnBool enh = Err match_error
  else ∃ a b, VectorBinop op lhs rhs matching returnBool enh = Err (duplicate_error matching a b).
Proof. apply VectorBinop_join. Qed.

(** An operation with a scalar maps the values and filters the samples. *)
Definition scalar_result (rhs : float64) (swap : bool) (s : Sample) : option Sample :=
  match scalar_value op swap returnBool (sV s) rhs with
  | Ok (v, true) =>
      Some (MkSample (MkPoint (T (s_Point s)) v)
        (if shouldDropMetricName op || returnBool then plain_dropMetricName (s_Metric s) else s_Metric s))
  | _ => None
  end.

Lemma VectorscalarBinop_spec lhs (sc : Scalar) swap enh :
  elem_op op = true → known lhs → cache_ok plain_dropMetricName P (dmn enh) →
  ∃ enh', VectorscalarBinop op lhs sc swap returnBool enh
    = Ok (out enh ++ omap (scalar_result (sc_V sc) swap) lhs, enh').
Proof.
  intros Hop Hk. revert enh. induction Hk as [|s lhs Hs Hk IH]; intros enh Hc; cbn [VectorscalarBinop].
  { exists enh. cbn. by rewrite app_nil_r. }
  cbn [omap list_omap]. unfold scalar_result at 1.
  assert (∃ r, scalar_value op swap returnBool (sV s) (sc_V sc) = Ok r) as [[v k] Hr].
  { unfold scalar_value. destruct swap; destruct op; try done; eexists; reflexivity. }
  rewrite Hr. cbn [res_bind]. destruct k; [|by apply IH].
  destruct (shouldDropMetricName op || returnBool).
  - destruct (dropMetricName_spec P enh (s_Metric s)) as (enh1 & -> & Ho & Hc1 & _); [done..|].
    destruct (IH (set_out enh1 (out enh1 ++ [MkSample (MkPoint (T (s_Point s)) v)
      (plain_dropMetricName (s_Metric s))])) Hc1) as (enh' & ->).
    exists enh'. cbn [out set_out]. by rewrite Ho, <-(assoc_L (++)).
  - destruct (IH (set_out enh (out enh ++ [MkSample (MkPoint (T (s_Point s)) v) (s_Metric s)])) Hc) as (enh' & ->).
    exists enh'. cbn [out set_out]. by rewrite <-(assoc_L (++)).
Qed.

End spec.

End ops.

(** ** Examples *)

Module Toy.
Definition job (v : string) : labels := {[ "job" := v ]}.
Definition smp (v : string) (x : Z) : Sample := sample_of (job v) (float_of_Z x).
Definition many : VectorMatching := MkMatching CardManyToMany [] false [].
Definition one : VectorMatching := MkMatching CardOneToOne [] false [].
Definition enh : EvalNodeHelper (R:=unit) := new_helper.
Definition Pow (x y : float64) : float64 := x.

Example or_keeps_left :
  match VectorOr [smp "a" 1] [smp "a" 2; smp "b" 3] many enh with
  | Ok (v, _) => v = [smp "a" 1; smp "b" 3] | _ => False end.
Proof. vm_compute. done. Qed.

(** [left - on(job) group_right(team) right]: the many side is the right one, its values
    are subtracted from those of the left, and the team comes from the left. *)
Definition group_right : VectorMatching := MkMatching CardOneToMany ["job"] true ["team"].
Definition inst (v : string) : labels := {[ "job" := "a"; "inst" := v ]}.
Example group_right_sides :
  let left := sample_of {[ "job" := "a"; "team" := "x" ]} (float_of_Z 5) in
  match VectorBinop Pow SUB [left] [sample_of (inst "1") (float_of_Z 2)]
          group_right false enh with
  | Ok (v, _) => v = [sample_of (<["team" := "x"]> (inst "1")) (float_of_Z 3)]
  | _ => False end.
Proof. vm_compute. done. Qed.
End Toy.

Lemma set_operations_spec_witness :
  ∃ enh', VectorAnd [Toy.smp "a" 1] [Toy.smp "a" 2] Toy.many Toy.enh = Ok (out Toy.enh ++ [Toy.smp "a" 1], enh').
Proof.
  destruct (set_operations_spec (R:=unit) (λ _, True) (map_hash_inj _) Toy.many [Toy.smp "a" 1] [Toy.smp "a" 2] Toy.enh)
    as ((enh' & H) & _); [reflexivity|by repeat constructor..|apply cache_ok_empty|].
  exists enh'. exact H.
Defined.

Lemma map_no_collisions Pow matching op returnBool many one : no_collisions Pow matching op returnBool many one.
Proof.
  split.
  - intros s s' _ _. unfold sig, plain_signature, match_group.
    destruct (On matching); intros Heq%code_inj; [by rewrite !restrict_sorted in Heq|].
    by rewrite !without_sorted in Heq.
  - intros j j' _ _. apply code_inj.
Qed.

Lemma VectorBinop_spec_witness :
  ∃ enh', VectorBinop Toy.Pow ADD [Toy.smp "a" 1] [Toy.smp "a" 2] Toy.one false Toy.enh
    = Ok (out Toy.enh ++ [Toy.smp "a" 3], enh').
Proof.
  pose proof (VectorBinop_spec (R:=unit) Toy.Pow (λ l, l = Toy.job "a") (map_hash_inj _) Toy.one ADD false
    [Toy.smp "a" 1] [Toy.smp "a" 2] Toy.enh) as H.
  assert (pair_inj (λ l, l = Toy.job "a")) as Hpi
    by (intros l r l' r' -> -> -> -> _; split; reflexivity).
  assert (known (λ l, l = Toy.job "a") [Toy.smp "a" 1] ∧ known (λ l, l = Toy.job "a") [Toy.smp "a" 2])
    as [Hk1 Hk2] by (by repeat constructor).
  assert (Card Toy.one ≠ CardManyToMany) as Hcard by done.
  assert (results_ok (λ l, l = Toy.job "a") Toy.one ADD Toy.enh) as Hr
    by (intros h a; unfold Toy.enh, new_helper; cbn [h_resultMetric]; by rewrite lookup_empty).
  specialize (H Hcard Hpi eq_refl Hk1 Hk2 (cache_ok_empty _ _) Hr).
  unfold sides in H. rewrite bool_decide_false in H by done.
  specialize (H (map_no_collisions _ _ _ _ _ _)). cbv zeta in H.
  rewrite decide_True in H by (apply NoDup_singleton).
  rewrite decide_True in H by
    (cbn [omap list_omap]; destruct (joined _ _ _ _ _ _); [apply NoDup_singleton|constructor]).
  destruct H as (enh' & H). exists enh'. rewrite H. apply (f_equal (λ x, Ok (out Toy.enh ++ x, enh'))).
  vm_compute. reflexivity.
Defined.

End Vop.
