(* ===== verification/Aggregation.v ===== *)
(** * Aggregation

    [evaluator.aggregation] of [src/pkg/promql/engine.go]: samples fall into groups
    by a hash of their grouping labels, each group keeps running values or a heap, and
    one or several samples per group are returned.

    Package [container/heap] is the class [GoHeap] with its documented laws; the
    order of the groups is the order in which the map is visited. *)
From S2P Require Import Prelude Float PromLabels PromValue Quantile PromAst Functions.

(** ** Heaps *)

Class GoHeap := {
  heap_push : ∀ {A}, (A → A → bool) → A → list A → list A;
  (** [Pop], without the element it returns. *)
  heap_pop : ∀ {A}, (A → A → bool) → list A → list A;
  is_heap : ∀ {A}, (A → A → bool) → list A → Prop;
  is_heap_nil : ∀ {A} (less : A → A → bool), is_heap less [];
  heap_push_perm : ∀ {A} (less : A → A → bool) x l, heap_push less x l ≡ₚ x :: l;
  heap_pop_perm : ∀ {A} (less : A → A → bool) x l, x :: heap_pop less (x :: l) ≡ₚ x :: l;
  heap_push_heap : ∀ {A} (less : A → A → bool) x l,
    StrictWeakOn (λ a, a ∈ x :: l) less → is_heap less l → is_heap less (heap_push less x l);
  heap_pop_heap : ∀ {A} (less : A → A → bool) l,
    StrictWeakOn (λ a, a ∈ l) less → is_heap less l → is_heap less (heap_pop less l);
  heap_root : ∀ {A} (less : A → A → bool) x l,
    StrictWeakOn (λ a, a ∈ x :: l) less → is_heap less (x :: l) → Forall (λ a, less a x = false) l;
}.

(** The instance the witnesses run: sorted lists. *)
#[export] Program Instance sorted_GoHeap : GoHeap | 100 := {
  heap_push A less x l := sort_ins less x l;
  heap_pop A less l := tail l;
  is_heap A less l := StronglySorted (λ a b, less b a = false) l;
}.
Next Obligation. intros A less. constructor. Qed.
Next Obligation. intros A less x l. apply sort_ins_perm. Qed.
Next Obligation. done. Qed.
Next Obligation.
  intros A less x l Hsw Hl. apply (sort_ins_sorted (λ a, a ∈ x :: l)); [done|set_solver| |done].
  apply Forall_forall. set_solver.
Qed.
Next Obligation. intros A less [|x l] _ Hl; [done|]. by apply StronglySorted_inv in Hl as [? _]. Qed.
Next Obligation. intros A less x l _ Hl. by apply StronglySorted_inv in Hl as [_ ?]. Qed.

Module Agg.
Import Val Ast Qnt Fn.

(** [convertibleToInt64], with the greatest float below 2^63. *)
Definition maxInt64 : float64 := float_of_Z 9223372036854774784.
Definition minInt64 : float64 := float_of_Z min_int64.
Definition convertibleToInt64 (v : float64) : bool := (v <=? maxInt64)%F && (v >=? minInt64)%F.

(** The parameter of an aggregation: [interface{}] holding a number or a string. *)
Inductive agg_param := PFloat (f : float64) | PString (s : string).

Record groupedAggregation := MkGroup {
  g_labels : labels;
  g_value : float64;
  g_mean : float64;
  groupCount : nat;
  heap : list Sample;
  reverseHeap : list Sample;
}.

Section aggregation.
Context {gsort : GoSort} {grange : GoMapRange} {gheap : GoHeap} {plabels : PromLabels} {R : Type}.
Context (int64_undefined : float64 → Z) (FormatFloat : float64 → string) (LabelName_IsValid : string → bool).
Implicit Types (enh : EvalNodeHelper (R:=R)).

(** The sample put on a heap: without its time. *)
Definition heap_sample (s : Sample) : Sample := sample_of (s_Metric s) (sV s).

Definition set_value (g : groupedAggregation) (v : float64) : groupedAggregation :=
  MkGroup (g_labels g) v (g_mean g) (groupCount g) (heap g) (reverseHeap g).
Definition set_heap (g : groupedAggregation) (h : list Sample) : groupedAggregation :=
  MkGroup (g_labels g) (g_value g) (g_mean g) (groupCount g) h (reverseHeap g).
Definition set_reverseHeap (g : groupedAggregation) (h : list Sample) : groupedAggregation :=
  MkGroup (g_labels g) (g_value g) (g_mean g) (groupCount g) (heap g) h.

(** A new group for its first sample, with labels [m]. *)
Definition new_group (op : ItemType) (m : labels) (s : Sample) : groupedAggregation :=
  let g := MkGroup m (sV s) (sV s) 1 [] [] in
  match op with
  | STDVAR | STDDEV => set_value g f_zero
  | TOPK | QUANTILE => set_heap g (heap_push value_Less (heap_sample s) [])
  | BOTTOMK => set_reverseHeap g (heap_push reverse_Less (heap_sample s) [])
  | _ => g
  end.

(** One sample for a bounded heap: kept when there is room or when it beats the root. *)
Definition bounded_push (less : Sample → Sample → bool) (beats : float64 → float64 → bool) (k : Z)
    (h : list Sample) (s : Sample) : res (list Sample) :=
  let* push :=
    if (Z.of_nat (length h) <? k)%Z then Ok true
    else let* root := index h 0 in Ok (beats (sV root) (sV s) || IsNaN (sV root)) in
  Ok (if (push : bool) then
        let h := if (Z.of_nat (length h) =? k)%Z then heap_pop less h else h in
        heap_push less (heap_sample s) h
      else h).

(** A further sample of a group. *)
Definition update_group (op : ItemType) (k : Z) (g : groupedAggregation) (s : Sample) : res groupedAggregation :=
  match op with
  | SUM => Ok (set_value g (g_value g + sV s)%F)
  | AVG =>
      let n := S (groupCount g) in
      Ok (MkGroup (g_labels g) (g_value g)
            (g_mean g + (sV s - g_mean g) / float_of_Z (Z.of_nat n))%F n (heap g) (reverseHeap g))
  | MAX => Ok (if (g_value g <? sV s)%F || IsNaN (g_value g) then set_value g (sV s) else g)
  | MIN => Ok (if (g_value g >? sV s)%F || IsNaN (g_value g) then set_value g (sV s) else g)
  | COUNT | COUNT_VALUES =>
      Ok (MkGroup (g_labels g) (g_value g) (g_mean g) (S (groupCount g)) (heap g) (reverseHeap g))
  | STDVAR | STDDEV =>
      let n := S (groupCount g) in
      let delta := (sV s - g_mean g)%F in
      let mean := (g_mean g + delta / float_of_Z (Z.of_nat n))%F in
      Ok (MkGroup (g_labels g) (g_value g + delta * (sV s - mean))%F mean n (heap g) (reverseHeap g))
  | TOPK => let* h := bounded_push value_Less SFltb k (heap g) s in Ok (set_heap g h)
  | BOTTOMK =>
      let* h := bounded_push reverse_Less (λ root v, (root >? v)%F) k (reverseHeap g) s in
      Ok (set_reverseHeap g h)
  | QUANTILE => Ok (set_heap g (heap g ++ [s]))
  | _ => Err (Errorf "expected aggregation operator but got")
  end.

(** The label set a sample is grouped by: [count_values] adds the value as a label. *)
Definition group_metric (op : ItemType) (valueLabel : string) (s : Sample) : labels :=
  match op with
  | COUNT_VALUES => Set_ valueLabel (FormatFloat (sV s)) (s_Metric s)
  | _ => s_Metric s
  end.

Definition group_key (Without : bool) (grouping : list string) (metric : labels) : Z :=
  if Without then HashWithoutLabels grouping metric else HashForLabels grouping metric.

(** The labels of a new group; without [without] the loop keeps the labels of the
    metric whose names are in [grouping]. *)
Definition group_labels (Without : bool) (grouping : list string) (metric : labels) : labels :=
  if Without then Del [MetricName] (Del grouping metric) else restrict grouping metric.

Fixpoint aggregation_loop (op : ItemType) (grouping : list string) (Without : bool) (k : Z) (valueLabel : string)
    (result : gmap Z groupedAggregation) (vec : list Sample) : res (gmap Z groupedAggregation) :=
  match vec with
  | [] => Ok result
  | s :: vec =>
      let metric := group_metric op valueLabel s in
      let groupingKey := group_key Without grouping metric in
      let* group := match result !! groupingKey with
                    | None => Ok (new_group op (group_labels Without grouping metric) s)
                    | Some group => update_group op k group s
                    end in
      aggregation_loop op grouping Without k valueLabel (<[groupingKey := group]> result) vec
  end.

(** The samples of a finished group. *)
Definition group_result (op : ItemType) (q : float64) (aggr : groupedAggregation) : res (list Sample) :=
  let one v := Ok [sample_of (g_labels aggr) v] in
  let n := float_of_Z (Z.of_nat (groupCount aggr)) in
  match op with
  | AVG => one (g_mean aggr)
  | COUNT | COUNT_VALUES => one n
  | STDVAR => one (g_value aggr / n)%F
  | STDDEV => one (Sqrt (g_value aggr / n)%F)
  | TOPK => Ok (heap_sample <$> go_sort (λ a b, value_Less b a) (heap aggr))
  | BOTTOMK => Ok (heap_sample <$> go_sort (λ a b, reverse_Less b a) (reverseHeap aggr))
  | QUANTILE => let* v := quantile int64_undefined q (heap aggr) in one v
  | _ => one (g_value aggr)
  end.

Fixpoint results_loop (op : ItemType) (q : float64) (groups : list (Z * groupedAggregation)) enh
    : res (list Sample * EvalNodeHelper (R:=R)) :=
  match groups with
  | [] => return_out enh
  | (_, aggr) :: groups =>
      let* samples := group_result op q aggr in
      results_loop op q groups (set_out enh (out enh ++ samples))
  end.

Definition float_param (param : agg_param) : res float64 :=
  match param with PFloat f => Ok f | PString _ => assert_error end.
Definition string_param (param : agg_param) : res string :=
  match param with PString s => Ok s | PFloat _ => assert_error end.

Definition is_k_op (op : ItemType) : bool := match op with TOPK | BOTTOMK => true | _ => false end.

(** The parameter, read for the operators that have one: the number of elements, the
    quantile, and the label for values with the grouping labels. *)
Definition agg_k (op : ItemType) (param : agg_param) : res Z :=
  if is_k_op op then
    let* f := float_param param in
    if convertibleToInt64 f then Ok (int64_of int64_undefined f)
    else Err (Errorf "Scalar value overflows int64")
  else Ok 0%Z.

Definition agg_q (op : ItemType) (param : agg_param) : res float64 :=
  if bool_decide (op = QUANTILE) then float_param param else Ok f_zero.

Definition agg_label (op : ItemType) (grouping : list string) (Without : bool) (param : agg_param)
    : res (string * list string) :=
  if bool_decide (op = COUNT_VALUES) then
    let* valueLabel := string_param param in
    if LabelName_IsValid valueLabel
    then Ok (valueLabel, if Without then grouping else grouping ++ [valueLabel])
    else Err (Errorf "invalid label name")
  else Ok ("", grouping).

Definition aggregation (op : ItemType) (grouping : list string) (Without : bool) (param : agg_param)
    (vec : list Sample) enh : res (list Sample * EvalNodeHelper (R:=R)) :=
  let* k := agg_k op param in
  if is_k_op op && (k <? 1)%Z then Ok ([], enh)
  else
    let* q := agg_q op param in
    let* (valueLabel, grouping) := agg_label op grouping Without param in
    let grouping := go_sort str_lt grouping in
    let* result := aggregation_loop op grouping Without k valueLabel ∅ vec in
    results_loop op q (map_range result) enh.

(** *** The grouping labels of [count_values]

    The slice in the syntax tree has a backing array and a length.  Appending the value
    label writes into spare room of the array, and sorting moves it to the front part. *)
Record slice := MkSlice { backing : list string; used : nat }.

(** The labels of one evaluation, and the slice of the tree after it. *)
Definition shared_grouping (g : slice) (valueLabel : string) : list string * slice :=
  if used g <? length (backing g) then
    let sorted := go_sort str_lt (take (S (used g)) (<[used g := valueLabel]> (backing g))) in
    (sorted, MkSlice (sorted ++ drop (S (used g)) (backing g)) (used g))
  else (go_sort str_lt (take (used g) (backing g) ++ [valueLabel]), g).

(** ** Groups are independent *)

Fixpoint update_all (op : ItemType) (k : Z) (g : groupedAggregation) (vec : list Sample) : res groupedAggregation :=
  match vec with
  | [] => Ok g
  | s :: vec => let* g := update_group op k g s in update_all op k g vec
  end.

Section groups.
Context (op : ItemType) (grouping : list string) (Without : bool) (k : Z) (valueLabel : string).

Definition key_of (s : Sample) : Z := group_key Without grouping (group_metric op valueLabel s).
Definition labels_of (s : Sample) : labels := group_labels Without grouping (group_metric op valueLabel s).

(** The group of the samples [els], which continue the group [o]. *)
Definition group_of (o : option groupedAggregation) (els : list Sample) : res (option groupedAggregation) :=
  match o, els with
  | Some g, _ => let* g := update_all op k g els in Ok (Some g)
  | None, [] => Ok None
  | None, s :: els => let* g := update_all op k (new_group op (labels_of s) s) els in Ok (Some g)
  end.

Definition agg_op (op : ItemType) : bool :=
  match op with
  | SUM | AVG | COUNT | MIN | MAX | STDDEV | STDVAR | TOPK | BOTTOMK | COUNT_VALUES | QUANTILE => true
  | _ => false
  end.

Lemma bounded_push_ok less beats h s :
  (1 ≤ k)%Z → ∃ h', bounded_push less beats k h s = Ok h'.
Proof.
  intros Hk. unfold bounded_push. destruct (Z.ltb_spec (Z.of_nat (length h)) k) as [|Hl]; cbn [res_bind]; [by eexists|].
  destruct h as [|x h]; [simpl in Hl; lia|]. change (index (x :: h) 0) with (Ok x). cbn [res_bind]. by eexists.
Qed.

Lemma update_group_ok g s :
  agg_op op = true → (is_k_op op = true → (1 ≤ k)%Z) → ∃ g', update_group op k g s = Ok g'.
Proof.
  intros Hop Hk. destruct op; try done; try (by eexists); cbn [update_group].
  - destruct (bounded_push_ok value_Less SFltb (heap g) s) as [h ->]; [by apply Hk|]. by eexists.
  - destruct (bounded_push_ok reverse_Less (λ root v, (root >? v)%F) (reverseHeap g) s) as [h ->];
      [by apply Hk|]. by eexists.
Qed.

Lemma aggregation_loop_ok result vec :
  agg_op op = true → (is_k_op op = true → (1 ≤ k)%Z) →
  ∃ r, aggregation_loop op grouping Without k valueLabel result vec = Ok r ∧
    ∀ h, group_of (result !! h) (filter (λ s, key_of s = h) vec) = Ok (r !! h).
Proof.
  intros Hop Hk. revert result. induction vec as [|s vec IH]; intros result; cbn [aggregation_loop].
  { exists result. split; [done|]. intros h. by destruct (result !! h). }
  fold (key_of s) (labels_of s).
  set (group := match result !! key_of s with None => _ | Some g => _ end).
  assert (∃ g, group = Ok g ∧ ∀ els, group_of (result !! key_of s) (s :: els) = group_of (Some g) els) as (g & -> & Hg).
  { unfold group. destruct (result !! key_of s) as [g|]; [|by eexists].
    destruct (update_group_ok g s Hop Hk) as [g' Hg']. exists g'. split; [done|].
    intros els. cbn [group_of update_all]. by rewrite Hg'. }
  cbn [res_bind]. destruct (IH (<[key_of s := g]> result)) as (r & -> & Hr).
  exists r. split; [done|]. intros h. rewrite filter_cons. specialize (Hr h). case_decide as Hh.
  - subst h. rewrite lookup_insert_eq in Hr. by rewrite Hg.
  - by rewrite lookup_insert_ne in Hr.
Qed.

End groups.

(** ** The heaps of [topk] and [bottomk]

    Both keep, under an order of the values, the elements no other beats. *)
Section topk.
Context (lt : float64 → float64 → bool) (Hsw : StrictWeakOn (λ x, IsNaN x = false) lt).
Context (k : Z) (Hk : (1 ≤ k)%Z).

Definition less_of (a b : Sample) : bool := IsNaN (sV a) || lt (sV a) (sV b).
Definition num (l : list Sample) : Prop := Forall (λ s, IsNaN (sV s) = false) l.

#[local] Instance num_proper : Proper ((≡ₚ) ==> iff) num.
Proof. intros l l' Hl. unfold num. by rewrite Hl. Qed.

Lemma less_of_num a b : IsNaN (sV a) = false → less_of a b = lt (sV a) (sV b).
Proof. intros Ha. unfold less_of. by rewrite Ha. Qed.

Lemma less_of_sw l : num l → StrictWeakOn (λ s, s ∈ l) less_of.
Proof.
  unfold num. rewrite Forall_forall. intros Hn. split.
  - intros a Ha. rewrite less_of_num by auto. by apply (swo_irrefl (P:=λ x, IsNaN x = false)), Hn.
  - intros a b c Ha Hb Hc. rewrite !less_of_num by auto.
    apply (swo_trans (P:=λ x, IsNaN x = false)); auto.
  - intros a b c Ha Hb Hc. rewrite !less_of_num by auto.
    apply (swo_incomp (P:=λ x, IsNaN x = false)); auto.
Qed.

(** The samples kept in [h] and those given up in [d]. *)
Record kept (h d : list Sample) : Prop := {
  kept_heap : is_heap less_of h;
  kept_num : num h ∧ num d;
  kept_len : (Z.of_nat (length h) ≤ k)%Z;
  kept_full : (Z.of_nat (length h) < k)%Z → d = [];
  kept_best : ∀ x y, x ∈ h → y ∈ d → lt (sV x) (sV y) = false;
}.

Lemma bounded_push_kept h d s h' :
  kept h d → IsNaN (sV s) = false → bounded_push less_of lt k h s = Ok h' →
  ∃ d', kept h' d' ∧ h' ++ d' ≡ₚ h ++ heap_sample s :: d.
Proof.
  intros [Hheap [Hh Hd] Hlen Hfull Hbest] Hs. unfold bounded_push.
  assert (∀ l, num l → num (heap_sample s :: l)) as Hcons by (intros l Hl; by constructor).
  destruct (Z.ltb_spec (Z.of_nat (length h)) k) as [Hl|Hl]; cbn [res_bind].
  - rewrite (proj2 (Z.eqb_neq _ _)) by lia. intros [= <-].
    rewrite (Hfull Hl). exists []. split; [|by rewrite heap_push_perm, app_nil_r, <-Permutation_cons_append].
    split; [|split; [by unfold num; rewrite heap_push_perm; apply Hcons|constructor]| |done|set_solver].
    + apply heap_push_heap; [by apply less_of_sw, Hcons|done].
    + rewrite heap_push_perm. cbn [length]. lia.
  - destruct h as [|m h]; [simpl in Hl; lia|]. change (index (m :: h) 0) with (Ok m). cbn [res_bind].
    pose proof (Forall_cons_1 _ _ _ Hh) as [Hm Hh']. rewrite Hm, orb_false_r.
    pose proof (heap_root less_of m h (less_of_sw _ Hh) Hheap) as Hroot. rewrite Forall_forall in Hroot.
    unfold num in *. rewrite Forall_forall in Hh', Hd.
    destruct (lt (sV m) (sV s)) eqn:Hbeat.
    + rewrite (proj2 (Z.eqb_eq _ _)) by lia. intros [= <-].
      assert (heap_pop less_of (m :: h) ≡ₚ h) as Hpop by (eapply Permutation_cons_inv, heap_pop_perm).
      exists (m :: d). split; [|rewrite heap_push_perm, Hpop, <-!Permutation_middle; apply perm_swap].
      split; [|split| |intros; exfalso| ].
      * apply heap_push_heap; [|apply heap_pop_heap; [by apply less_of_sw|done]].
        apply less_of_sw. unfold num. rewrite Hpop. apply Hcons. by apply Forall_forall.
      * rewrite heap_push_perm, Hpop. apply Hcons. by apply Forall_forall.
      * constructor; [done|by apply Forall_forall].
      * rewrite heap_push_perm. cbn [length]. rewrite Hpop. simpl in Hlen. lia.
      * rewrite heap_push_perm in H. cbn [length] in H. rewrite Hpop in H. simpl in Hl. lia.
      * intros x y. rewrite heap_push_perm, Hpop, !elem_of_cons. intros Hx Hy.
        assert (lt (sV s) (sV m) = false) as Hsm.
        { destruct (lt (sV s) (sV m)) eqn:E; [|done].
          pose proof (swo_trans (P:=λ x, IsNaN x = false) _ _ _ Hm Hs Hm Hbeat E) as Hc.
          by rewrite (swo_irrefl (P:=λ x, IsNaN x = false)) in Hc. }
        destruct Hx as [->|Hx], Hy as [->|Hy]; [done| | |].
        -- cbn. destruct (lt (sV s) (sV y)) eqn:E; [|done].
           pose proof (swo_trans (P:=λ x, IsNaN x = false) _ _ _ Hm Hs (Hd y Hy) Hbeat E) as Hc.
           rewrite (Hbest m y) in Hc by set_solver. done.
        -- specialize (Hroot x Hx). by rewrite less_of_num in Hroot by auto.
        -- apply Hbest; set_solver.
    + intros [= <-]. exists (heap_sample s :: d). split; [|done].
      split; [done|split; [done|]|done|simpl in *; intros; lia|].
      * constructor; [done|by apply Forall_forall].
      * intros x y Hx [->|Hy]%elem_of_cons; [|by apply Hbest].
        apply elem_of_cons in Hx as [->|Hx]; [done|]. specialize (Hroot x Hx).
        rewrite less_of_num in Hroot by auto.
        apply (swo_incomp (P:=λ x, IsNaN x = false) (sV x) (sV m) (sV s)); auto.
Qed.

Lemma kept_proper_num h d : kept h d → num h.
Proof. by intros [_ [? _] _ _ _]. Qed.

(** What a group of [topk] or [bottomk] returns for its samples [els]. *)
Definition best_of (els ss : list Sample) : Prop :=
  StronglySorted (λ a b, lt (sV a) (sV b) = false) ss ∧
  ∃ rest, ss ++ rest ≡ₚ heap_sample <$> els ∧ (Z.of_nat (length ss) ≤ k)%Z ∧
    ((Z.of_nat (length ss) < k)%Z → rest = []) ∧
    ∀ x y, x ∈ ss → y ∈ rest → lt (sV x) (sV y) = false.

Lemma kept_best_of h d els :
  kept h d → h ++ d ≡ₚ heap_sample <$> els →
  best_of els (heap_sample <$> go_sort (λ a b, less_of b a) h).
Proof.
  intros [_ [Hh Hd] Hlen Hfull Hbest] Hp.
  assert (heap_sample <$> go_sort (λ a b, less_of b a) h = go_sort (λ a b, less_of b a) h) as ->.
  { assert (∀ x, x ∈ go_sort (λ a b, less_of b a) h → heap_sample x = x) as Hid.
    { intros x. rewrite go_sort_elem_of. intros Hx.
      assert (x ∈ heap_sample <$> els) as Hin by (rewrite <-Hp; set_solver).
      apply list_elem_of_fmap in Hin as (y & -> & _). done. }
    revert Hid. generalize (go_sort (λ a b, less_of b a) h) as l. induction l as [|x l IH]; intros Hid; [done|].
    rewrite fmap_cons, IH, Hid; [done|set_solver..]. }
  assert (StrictWeakOn (λ s, s ∈ h) (λ a b, less_of b a)) as Hflip.
  { pose proof (less_of_sw h Hh) as Hs. split.
    - intros a Ha. by apply (swo_irrefl (P:=λ s, s ∈ h)).
    - intros a b c Ha Hb Hc H1 H2. by apply (swo_trans (P:=λ s, s ∈ h) c b a).
    - intros a b c Ha Hb Hc H1 H2. by apply (swo_incomp (P:=λ s, s ∈ h) c b a). }
  split.
  - pose proof (go_sort_sorted_on _ h Hflip) as Hs.
    assert (num (go_sort (λ a b, less_of b a) h)) as Hn by by rewrite go_sort_perm.
    revert Hs Hn. generalize (go_sort (λ a b, less_of b a) h) as l. intros l Hs.
    induction Hs as [|x l Hs IH Hx]; intros Hn; [constructor|].
    apply Forall_cons in Hn as [Hnx Hn]. constructor; [by apply IH|].
    eapply Forall_impl; [exact Hx|]. intros y Hy. cbv beta in Hy. by rewrite less_of_num in Hy.
  - exists d. rewrite go_sort_length. split_and!; [by rewrite go_sort_perm|done|done|].
    intros x y. rewrite go_sort_elem_of. apply Hbest.
Qed.

(** Folding [bounded_push] over the samples after the first. *)
Fixpoint push_all (h : list Sample) (els : list Sample) : res (list Sample) :=
  match els with
  | [] => Ok h
  | s :: els => let* h := bounded_push less_of lt k h s in push_all h els
  end.

Lemma push_all_kept h d els h' :
  kept h d → num els → push_all h els = Ok h' →
  ∃ d', kept h' d' ∧ h' ++ d' ≡ₚ (h ++ d) ++ (heap_sample <$> els).
Proof.
  intros Hkept Hn. revert h d Hkept. induction Hn as [|s els Hs Hn IH]; intros h d Hkept; cbn [push_all].
  { intros [= <-]. exists d. by rewrite app_nil_r. }
  intros H. apply res_bind_ok in H as (h1 & H1 & H).
  apply (bounded_push_kept h d) in H1 as (d1 & Hk1 & Hp1); [|done..].
  destruct (IH h1 d1 Hk1 H) as (d' & Hk' & Hp'). exists d'. split; [done|].
  rewrite Hp', Hp1, fmap_cons, <-!(assoc_L (++)). simpl. by rewrite Permutation_middle.
Qed.

Lemma kept_first s : IsNaN (sV s) = false → kept (heap_push less_of (heap_sample s) []) [].
Proof.
  intros Hs. assert (num [heap_sample s]) as Hn by by repeat constructor. split.
  - apply heap_push_heap; [by apply less_of_sw|apply is_heap_nil].
  - split; [by rewrite heap_push_perm|constructor].
  - rewrite heap_push_perm. simpl. lia.
  - done.
  - set_solver.
Qed.

(** A whole group, from its first sample on. *)
Lemma best_of_group s els h :
  num (s :: els) → push_all (heap_push less_of (heap_sample s) []) els = Ok h →
  best_of (s :: els) (heap_sample <$> go_sort (λ a b, less_of b a) h).
Proof.
  intros Hn Hh. apply Forall_cons in Hn as [Hs Hn].
  destruct (push_all_kept _ [] els h (kept_first s Hs) Hn Hh) as (d & Hkept & Hp).
  apply (kept_best_of h d); [done|]. by rewrite Hp, heap_push_perm, app_nil_r.
Qed.

End topk.

(** ** All groups *)

Lemma update_all_topk k g els :
  update_all TOPK k g els = let* h := push_all SFltb k (heap g) els in Ok (set_heap g h).
Proof.
  revert g. induction els as [|s els IH]; intros g; cbn [update_all push_all]; [by destruct g|].
  cbn [update_group]. change value_Less with (less_of SFltb).
  destruct (bounded_push (less_of SFltb) SFltb k (heap g) s) as [h|e|m]; cbn [res_bind]; [|done..].
  rewrite IH. cbn [heap set_heap]. by destruct (push_all SFltb k h els).
Qed.

Lemma update_all_bottomk k g els :
  update_all BOTTOMK k g els = let* h := push_all (λ x y, SFltb y x) k (reverseHeap g) els in Ok (set_reverseHeap g h).
Proof.
  revert g. induction els as [|s els IH]; intros g; cbn [update_all push_all]; [by destruct g|].
  cbn [update_group]. change reverse_Less with (less_of (λ x y, SFltb y x)).
  destruct (bounded_push (less_of (λ x y, SFltb y x)) (λ x y, SFltb y x) k (reverseHeap g) s) as [h|e|m];
    cbn [res_bind]; [|done..].
  rewrite IH. cbn [reverseHeap set_reverseHeap]. by destruct (push_all (λ x y, SFltb y x) k h els).
Qed.

Lemma update_all_ok op k g els :
  agg_op op = true → (is_k_op op = true → (1 ≤ k)%Z) → ∃ g', update_all op k g els = Ok g'.
Proof.
  intros Hop Hk. revert g. induction els as [|s els IH]; intros g; cbn [update_all]; [by eexists|].
  destruct (update_group_ok op k g s Hop Hk) as [g' ->]. apply IH.
Qed.

Lemma results_loop_cases op q groups enh :
  (∃ sss enh', results_loop op q groups enh = Ok (out enh ++ concat sss, enh') ∧
    Forall2 (λ g ss, group_result op q g.2 = Ok ss) groups sss) ∨
  (∃ g, g ∈ groups ∧ (∀ ss, group_result op q g.2 ≠ Ok ss) ∧ ∀ r, results_loop op q groups enh ≠ Ok r).
Proof.
  revert enh. induction groups as [|[h g] groups IH]; intros enh; cbn [results_loop].
  { left. exists [], enh. simpl. by rewrite app_nil_r. }
  destruct (group_result op q g) as [ss|e|m] eqn:Hss; cbn [res_bind].
  - destruct (IH (set_out enh (out enh ++ ss))) as [(sss & enh' & -> & HF)|(g' & Hg' & Hbad & Hno)].
    + left. exists (ss :: sss), enh'. cbn [out set_out concat]. rewrite <-(assoc_L (++)).
      split; [done|by constructor].
    + right. exists g'. split_and!; [set_solver|done..].
  - right. exists (h, g). split_and!; [set_solver| |done]. cbn [snd]. by rewrite Hss.
  - right. exists (h, g). split_and!; [set_solver| |done]. cbn [snd]. by rewrite Hss.
Qed.

Section spec.
Context (op : ItemType) (Without : bool) (param : agg_param) (k : Z) (q : float64) (valueLabel : string).
Context (grouping names : list string).
Context (Hop : agg_op op = true) (Hk : agg_k op param = Ok k) (Hk1 : is_k_op op = true → (1 ≤ k)%Z).
Context (Hq : agg_q op param = Ok q) (Hlabel : agg_label op grouping Without param = Ok (valueLabel, names)).

Definition key (s : Sample) : Z := key_of op (go_sort str_lt names) Without valueLabel s.
Definition lset (s : Sample) : labels := labels_of op (go_sort str_lt names) Without valueLabel s.

(** The result of one group: the first of its samples opens the group, the others
    update it in order. *)
Definition group_samples (els ss : list Sample) : Prop :=
  ∃ s els' g, els = s :: els' ∧ update_all op k (new_group op (lset s) s) els' = Ok g ∧
    group_result op q g = Ok ss.

(** Either all groups give their results, or a [quantile] fails. *)
Lemma aggregation_cases vec enh :
  (∃ hs sss enh', aggregation op grouping Without param vec enh = Ok (out enh ++ concat sss, enh') ∧
    NoDup hs ∧ (∀ h, h ∈ hs ↔ h ∈ key <$> vec) ∧
    Forall2 (λ h ss, group_samples (filter (λ s, key s = h) vec) ss) hs sss) ∨
  (op = QUANTILE ∧ (∀ r, aggregation op grouping Without param vec enh ≠ Ok r) ∧
    ∃ h s els g, filter (λ s, key s = h) vec = s :: els ∧
      update_all op k (new_group op (lset s) s) els = Ok g ∧ ∀ ss, group_result op q g ≠ Ok ss).
Proof.
  unfold aggregation. rewrite Hk, Hq, Hlabel. cbn [res_bind].
  assert (is_k_op op && (k <? 1)%Z = false) as ->.
  { destruct (is_k_op op) eqn:E; [|done]. apply Z.ltb_ge. by apply Hk1. }
  destruct (aggregation_loop_ok op (go_sort str_lt names) Without k valueLabel ∅ vec Hop Hk1) as (r & -> & Hr).
  cbn [res_bind].
  assert (∀ h g, (h, g) ∈ map_range r → ∃ s els, filter (λ s, key s = h) vec = s :: els ∧
    update_all op k (new_group op (lset s) s) els = Ok g) as Hrange.
  { intros h g Hin. apply elem_of_map_range in Hin. specialize (Hr h). rewrite lookup_empty, Hin in Hr.
    destruct (filter _ vec) as [|s els] eqn:Hf; [done|]. cbn [group_of] in Hr.
    apply res_bind_ok in Hr as (g' & Hg' & [= ->]). exists s, els. split; [done|exact Hg']. }
  destruct (results_loop_cases op q (map_range r) enh) as [(sss & enh' & -> & HF)|([h g] & Hg & Hbad & Hno)].
  2: { right. split_and!; [|done|].
       - destruct op; try done; destruct (Hbad _ eq_refl).
       - destruct (Hrange h g Hg) as (s & els & Hf & Hup). by exists h, s, els, g. }
  left. exists (map_range r).*1, sss, enh'. split; [done|]. split_and!.
  - rewrite map_range_perm. apply NoDup_fst_map_to_list.
  - intros h. rewrite !list_elem_of_fmap. split.
    + intros ([h' g] & -> & Hin). apply Hrange in Hin as (s & els & Hf & _).
      assert (s ∈ filter (λ s, key s = h') vec) as Hs by (rewrite Hf; set_solver).
      apply list_elem_of_filter in Hs as [<- Hs]. by exists s.
    + intros (s & -> & Hs). specialize (Hr (key s)). rewrite lookup_empty in Hr.
      assert (s ∈ filter (λ s', key s' = key s) vec) as Hin by (by apply list_elem_of_filter).
      change (filter _ vec) with (filter (λ s', key s' = key s) vec) in Hr.
      destruct (filter (λ s', key s' = key s) vec) as [|s' els]; [set_solver|].
      cbn [group_of] in Hr. apply res_bind_ok in Hr as (g & _ & [= Hg]).
      exists (key s, g). split; [done|]. by apply elem_of_map_range.
  - revert Hrange HF. generalize (map_range r) as l. intros l Hrange HF.
    induction HF as [|[h g] ss l sss Hss HF IH]; [constructor|]. constructor; [|apply IH; set_solver].
    destruct (Hrange h g) as (s & els & Hf & Hg); [set_solver|]. exists s, els, g. done.
Qed.

Lemma aggregation_ok vec enh :
  op ≠ QUANTILE →
  ∃ hs sss enh', aggregation op grouping Without param vec enh = Ok (out enh ++ concat sss, enh') ∧
    NoDup hs ∧ (∀ h, h ∈ hs ↔ h ∈ key <$> vec) ∧
    Forall2 (λ h ss, group_samples (filter (λ s, key s = h) vec) ss) hs sss.
Proof. intros Hnq. by destruct (aggregation_cases vec enh) as [?|[? _]]. Qed.

End spec.

(** C22. [topk] and [bottomk] of samples without NaN: per group, [k] of its samples (or all
    of them) that no sample left out beats, the best first. *)
Theorem topk_spec (grouping : list string) (Without : bool) f k vec enh :
  convertibleToInt64 f = true → int64_of int64_undefined f = k → (1 ≤ k)%Z → num vec →
  (∃ hs sss enh', aggregation TOPK grouping Without (PFloat f) vec enh = Ok (out enh ++ concat sss, enh') ∧
    NoDup hs ∧ (∀ h, h ∈ hs ↔ h ∈ key TOPK Without "" grouping <$> vec) ∧
    Forall2 (λ h ss, best_of SFltb k (filter (λ s, key TOPK Without "" grouping s = h) vec) ss) hs sss) ∧
  (∃ hs sss enh', aggregation BOTTOMK grouping Without (PFloat f) vec enh = Ok (out enh ++ concat sss, enh') ∧
    NoDup hs ∧ (∀ h, h ∈ hs ↔ h ∈ key BOTTOMK Without "" grouping <$> vec) ∧
    Forall2 (λ h ss, best_of (λ x y, SFltb y x) k (filter (λ s, key BOTTOMK Without "" grouping s = h) vec) ss) hs sss).
Proof.
  intros Hf Hk Hk1 Hn.
  assert (∀ h (kf : Sample → Z), num (filter (λ s, kf s = h) vec)) as Hnf.
  { intros h kf. unfold num in *. rewrite Forall_forall in Hn |- *. intros s [_ Hs]%list_elem_of_filter. auto. }
  assert (StrictWeakOn (λ x, IsNaN x = false) (λ x y, SFltb y x)) as Hflip.
  { split.
    - intros x _. apply SFltb_irrefl.
    - intros x y z _ _ _ H1 H2. by apply (SFltb_trans z y x).
    - intros x y z Hx Hy Hz H1 H2. by apply (swo_incomp (P:=λ x, IsNaN x = false) (lt:=SFltb) z y x). }
  split.
  - destruct (aggregation_ok TOPK Without (PFloat f) k f_zero "" grouping grouping) with (vec := vec) (enh := enh)
      as (hs & sss & enh' & Ha & Hnd & Hin & HF); [done|by unfold agg_k; simpl; rewrite Hf, Hk|done..|].
    exists hs, sss, enh'. split_and!; [done..|]. eapply Forall2_impl; [exact HF|].
    intros h ss (s & els & g & Hels & Hg & Hss). rewrite Hels. specialize (Hnf h (key TOPK Without "" grouping)).
    rewrite Hels in Hnf. rewrite update_all_topk in Hg. apply res_bind_ok in Hg as (hp & Hhp & [= <-]).
    injection Hss as <-. by apply (best_of_group SFltb _ k).
  - destruct (aggregation_ok BOTTOMK Without (PFloat f) k f_zero "" grouping grouping) with (vec := vec) (enh := enh)
      as (hs & sss & enh' & Ha & Hnd & Hin & HF); [done|by unfold agg_k; simpl; rewrite Hf, Hk|done..|].
    exists hs, sss, enh'. split_and!; [done..|]. eapply Forall2_impl; [exact HF|].
    intros h ss (s & els & g & Hels & Hg & Hss). rewrite Hels. specialize (Hnf h (key BOTTOMK Without "" grouping)).
    rewrite Hels in Hnf. rewrite update_all_bottomk in Hg. apply res_bind_ok in Hg as (hp & Hhp & [= <-]).
    injection Hss as <-. by apply (best_of_group (λ x y, SFltb y x) _ k).
Qed.

(** The labels of a group. *)
Lemma group_labels_lookup Without grouping metric n :
  group_labels Without grouping metric !! n =
    if Without then if bool_decide (n ∈ MetricName :: grouping) then None else metric !! n
    else if bool_decide (n ∈ grouping) then metric !! n else None.
Proof.
  unfold group_labels. destruct Without; [|apply lookup_restrict].
  rewrite !Del_doc, !lookup_without. repeat case_bool_decide; set_solver.
Qed.

(** ** The other operators: groups by labels, and what each operator computes *)

Section values.
Context (op : ItemType) (Without : bool) (q : float64) (valueLabel : string) (grouping : list string).

(** The labels a sample is grouped by: those named, or all but those named and the
    metric name; [count_values] gives a sample its value as a label before. *)
Definition group_by (s : Sample) : labels :=
  match op, Without with
  | COUNT_VALUES, false =>
      restrict (valueLabel :: grouping) (<[valueLabel := FormatFloat (sV s)]> (s_Metric s))
  | COUNT_VALUES, true => without (MetricName :: grouping) (<[valueLabel := FormatFloat (sV s)]> (s_Metric s))
  | _, false => restrict grouping (s_Metric s)
  | _, true => without (MetricName :: grouping) (s_Metric s)
  end.

(** The running mean and sum of squared differences. *)
Definition welford_step (st : nat * float64 * float64) (x : float64) : nat * float64 * float64 :=
  let '(n, mean, m2) := st in
  let mean' := (mean + (x - mean) / float_of_Z (Z.of_nat (S n)))%F in
  (S n, mean', (m2 + (x - mean) * (x - mean'))%F).

Definition welford (x : float64) (xs : list float64) : float64 * float64 :=
  let '(_, mean, m2) := foldl welford_step (1, x, f_zero) xs in (mean, m2).

(** A value that no other is beyond; it is a number if one of them is. *)
Definition extreme (beyond : float64 → float64 → bool) (vs : list float64) (v : float64) : Prop :=
  v ∈ vs ∧ (∀ x, x ∈ vs → beyond x v = false) ∧ (IsNaN v = true → ∀ x, x ∈ vs → IsNaN x = true).

(** The values of a group, for [quantile]: the first sample without its time. *)
Definition group_vector (els : list Sample) : list Sample :=
  match els with [] => [] | s :: els => sample_of (s_Metric s) (sV s) :: els end.

(** What the operator computes from the samples of a group, in their order. *)
Definition reduction (els : list Sample) (v : float64) : Prop :=
  match sV <$> els with
  | [] => False
  | x :: xs =>
      let n := float_of_Z (Z.of_nat (length els)) in
      match op with
      | SUM => v = foldl float_add x xs
      | AVG => v = (welford x xs).1
      | COUNT | COUNT_VALUES => v = n
      | MIN => extreme SFltb (x :: xs) v
      | MAX => extreme (λ y z, SFltb z y) (x :: xs) v
      | STDVAR => v = ((welford x xs).2 / n)%F
      | STDDEV => v = Sqrt ((welford x xs).2 / n)%F
      | QUANTILE => quantile int64_undefined q (group_vector els) = Ok v
      | _ => False
      end
  end.

Lemma extreme_step beyond vs v x :
  (∀ a b c, beyond a b = true → beyond b c = true → beyond a c = true) → (∀ a, beyond a a = false) →
  (∀ a b, IsNaN a = true ∨ IsNaN b = true → beyond a b = false) →
  extreme beyond vs v →
  extreme beyond (vs ++ [x]) (if beyond x v || IsNaN v then x else v).
Proof.
  intros Htr Hirr Hnan (Hin & Hbest & Hn). unfold extreme. setoid_rewrite elem_of_app.
  setoid_rewrite list_elem_of_singleton. destruct (beyond x v) eqn:Hx; cbn [orb].
  - split_and!; [by right| |].
    + intros y [Hy| ->]; [|apply Hirr]. destruct (beyond y x) eqn:Hyx; [|done].
      specialize (Hbest y Hy). by rewrite (Htr y x v Hyx Hx) in Hbest.
    + intros Hxn. by rewrite Hnan in Hx by by left.
  - destruct (IsNaN v) eqn:Hv.
    + split_and!; [by right| |].
      * intros y [Hy| ->]; [|apply Hirr]. apply Hnan. left. by apply Hn.
      * intros Hxn y [Hy| ->]; [|done]. by apply Hn.
    + split_and!; [by left| |by rewrite Hv]. intros y [Hy| ->]; auto.
Qed.

Lemma extreme_foldl beyond vs v xs :
  (∀ a b c, beyond a b = true → beyond b c = true → beyond a c = true) → (∀ a, beyond a a = false) →
  (∀ a b, IsNaN a = true ∨ IsNaN b = true → beyond a b = false) →
  extreme beyond vs v →
  extreme beyond (vs ++ xs) (foldl (λ v x, if beyond x v || IsNaN v then x else v) v xs).
Proof.
  intros Htr Hirr Hnan. revert vs v. induction xs as [|x xs IH]; intros vs v Hv; [by rewrite app_nil_r|].
  cbn [foldl]. rewrite (cons_middle x vs xs), (assoc_L (++)). by apply IH, extreme_step.
Qed.

(** *** What the updates of a group amount to *)

Lemma update_all_sum k g els :
  update_all SUM k g els = Ok (set_value g (foldl float_add (g_value g) (sV <$> els))).
Proof. revert g. induction els as [|s els IH]; intros g; [by destruct g|]. cbn. by rewrite IH. Qed.

Lemma update_all_count op' k g els :
  op' = COUNT ∨ op' = COUNT_VALUES →
  ∃ n, update_all op' k g els = Ok n ∧ g_labels n = g_labels g ∧ groupCount n = groupCount g + length els.
Proof.
  intros Hop. revert g. induction els as [|s els IH]; intros g.
  { exists g. cbn. split_and!; [done..|lia]. }
  destruct (IH (MkGroup (g_labels g) (g_value g) (g_mean g) (S (groupCount g)) (heap g) (reverseHeap g)))
    as (n & Hn & Hl & Hc).
  exists n. split_and!; [|done|cbn in *; lia]. by destruct Hop as [-> | ->].
Qed.

(** The mean of [avg] is the running mean, the values of [stdvar] are those of Welford. *)
Lemma update_all_avg k g els m2 :
  ∃ g', update_all AVG k g els = Ok g' ∧ g_labels g' = g_labels g ∧
    ∃ m2', foldl welford_step (groupCount g, g_mean g, m2) (sV <$> els) = (groupCount g', g_mean g', m2').
Proof.
  revert g m2. induction els as [|s els IH]; intros g m2; [by exists g; eauto|]. cbn [update_all update_group res_bind].
  destruct (IH (MkGroup (g_labels g) (g_value g) (g_mean g + (sV s - g_mean g) / float_of_Z (Z.of_nat (S (groupCount g))))%F
    (S (groupCount g)) (heap g) (reverseHeap g)) (m2 + (sV s - g_mean g) *
      (sV s - (g_mean g + (sV s - g_mean g) / float_of_Z (Z.of_nat (S (groupCount g))))))%F)
    as (g' & Hg' & Hl & Hf). by exists g'.
Qed.

Lemma update_all_std op' k g els :
  op' = STDVAR ∨ op' = STDDEV →
  ∃ g', update_all op' k g els = Ok g' ∧ g_labels g' = g_labels g ∧
    foldl welford_step (groupCount g, g_mean g, g_value g) (sV <$> els) = (groupCount g', g_mean g', g_value g').
Proof.
  intros Hop. revert g. induction els as [|s els IH]; intros g; [by exists g|].
  destruct (IH (MkGroup (g_labels g)
    (g_value g + (sV s - g_mean g) *
      (sV s - (g_mean g + (sV s - g_mean g) / float_of_Z (Z.of_nat (S (groupCount g))))))%F
    (g_mean g + (sV s - g_mean g) / float_of_Z (Z.of_nat (S (groupCount g))))%F
    (S (groupCount g)) (heap g) (reverseHeap g))) as (g' & Hg' & Hl & Hf).
  exists g'. split_and!; [|done..]. by destruct Hop as [-> | ->].
Qed.

Lemma welford_count st xs : (foldl welford_step st xs).1.1 = st.1.1 + length xs.
Proof.
  revert st. induction xs as [|x xs IH]; intros [[n m] v]; cbn [foldl length]; [simpl; lia|].
  rewrite IH. simpl. lia.
Qed.

Lemma update_all_max k g els :
  update_all MAX k g els
  = Ok (set_value g (foldl (λ v x, if SFltb v x || IsNaN v then x else v) (g_value g) (sV <$> els))).
Proof.
  revert g. induction els as [|s els IH]; intros g; [by destruct g|]. cbn [update_all update_group res_bind].
  rewrite IH. cbn [fmap list_fmap foldl]. by destruct (_ || _).
Qed.

Lemma update_all_min k g els :
  update_all MIN k g els
  = Ok (set_value g (foldl (λ v x, if SFltb x v || IsNaN v then x else v) (g_value g) (sV <$> els))).
Proof.
  revert g. induction els as [|s els IH]; intros g; [by destruct g|]. cbn [update_all update_group res_bind].
  rewrite IH. cbn [fmap list_fmap foldl]. by destruct (_ || _).
Qed.

Lemma update_all_quantile k g els : update_all QUANTILE k g els = Ok (set_heap g (heap g ++ els)).
Proof.
  revert g. induction els as [|s els IH]; intros g; cbn [update_all]; [by rewrite app_nil_r; destruct g|].
  cbn [update_group res_bind]. rewrite IH. cbn. by rewrite <-(assoc_L (++)).
Qed.

Lemma first_on_heap less (x : Sample) : heap_push less x [] = [x].
Proof. apply Permutation_singleton_r, heap_push_perm. Qed.

End values.

Section by_labels.
Context (op : ItemType) (Without : bool) (param : agg_param) (q : float64) (valueLabel : string).
Context (grouping : list string).
Context (Hop : agg_op op = true) (Hnk : is_k_op op = false).
Context (Hq : op = QUANTILE → param = PFloat q).
Context (Hlabel : op = COUNT_VALUES → param = PString valueLabel ∧ LabelName_IsValid valueLabel = true).
Context (HF : ∀ v, FormatFloat v ≠ "").

Definition names_of : list string :=
  if bool_decide (op = COUNT_VALUES) && negb Without then grouping ++ [valueLabel] else grouping.

#[local] Notation groups := (group_by op Without valueLabel grouping).
#[local] Notation hkey := (key op Without valueLabel names_of).
#[local] Notation hlabels := (lset op Without valueLabel names_of).

(** Samples of different groups have different hashes of their grouping labels. *)
Definition no_hash_collisions (vec : list Sample) : Prop :=
  ∀ s s', s ∈ vec → s' ∈ vec →
    let hash s := (if Without then HashWithoutLabels else HashForLabels) (go_sort str_lt names_of)
                    (group_metric op valueLabel s) in
    hash s = hash s' → groups s = groups s'.

Lemma group_by_metric s :
  groups s = if Without then without (MetricName :: names_of) (group_metric op valueLabel s)
             else restrict names_of (group_metric op valueLabel s).
Proof.
  clear -HF.
  unfold names_of, group_by, group_metric. destruct op; cbn [bool_decide andb]; try (by destruct Without).
  rewrite Set_doc by done. rewrite bool_decide_true by done. destruct Without; cbn [andb negb]; [done|].
  apply map_eq. intros n. rewrite !lookup_restrict.
  assert (n ∈ valueLabel :: grouping ↔ n ∈ grouping ++ [valueLabel]) as Hn by set_solver.
  by rewrite (bool_decide_ext _ _ Hn).
Qed.

Lemma lset_group s : hlabels s = groups s.
Proof.
  rewrite group_by_metric. unfold lset, labels_of, group_labels. destruct Without.
  - rewrite !Del_doc, without_app. cbn [app]. apply without_sorted.
  - apply restrict_sorted.
Qed.

Lemma key_group s s' : groups s = groups s' → hkey s = hkey s'.
Proof.
  rewrite !group_by_metric. unfold key, key_of, group_key. destruct Without; intros Heq.
  - apply HashWithoutLabels_doc. by rewrite !without_sorted.
  - apply HashForLabels_doc. by rewrite !restrict_sorted.
Qed.

Lemma key_group_iff vec s s' :
  no_hash_collisions vec → s ∈ vec → s' ∈ vec → hkey s = hkey s' ↔ groups s = groups s'.
Proof.
  intros Hnc Hs Hs'. split; [|apply key_group]. intros Hk. apply Hnc; [done..|].
  unfold key, key_of, group_key in Hk. by destruct Without.
Qed.

Lemma members_group vec s :
  no_hash_collisions vec → s ∈ vec →
  filter (λ s', hkey s' = hkey s) vec = filter (λ s', groups s' = groups s) vec.
Proof.
  intros Hnc Hs. assert (∀ s', s' ∈ vec → hkey s' = hkey s ↔ groups s' = groups s) as Hiff.
  { intros s' Hs'. by apply (key_group_iff vec). }
  clear Hnc Hs. induction vec as [|x vec IH]; [done|]. rewrite !filter_cons, IH by set_solver.
  specialize (Hiff x ltac:(set_solver)). destruct (decide (groups x = groups s)) as [Hx|Hx].
  - by rewrite decide_True by tauto.
  - by rewrite decide_False by tauto.
Qed.

(** The group of the samples [s :: els], opened with labels [m]. *)
Lemma group_value m s els :
  op ≠ QUANTILE →
  ∃ g v, update_all op 0 (new_group op m s) els = Ok g ∧
    group_result op q g = Ok [sample_of m v] ∧ reduction op q (s :: els) v.
Proof.
  intros Hnq. unfold reduction, welford. rewrite fmap_cons.
  assert (Z.of_nat (1 + length els) = Z.of_nat (length (s :: els))) as Hlen by done.
  pose proof (λ st, welford_count st (sV <$> els)) as Hcount.
  destruct op; try done; cbn [new_group].
  - eexists _, _. rewrite update_all_sum. done.
  - destruct (update_all_avg 0 (MkGroup m (sV s) (sV s) 1 [] []) els f_zero) as (g & Hg & Hl & m2 & Hf).
    cbn [groupCount g_mean g_labels] in Hl, Hf. exists g, (g_mean g). rewrite Hf. cbn [group_result]. rewrite Hl. by split_and!.
  - destruct (update_all_count COUNT 0 (MkGroup m (sV s) (sV s) 1 [] []) els) as (g & Hg & Hl & Hc); [by left|].
    cbn [groupCount g_labels] in Hc, Hl. eexists g, _. cbn [group_result]. rewrite Hl, Hc, Hlen. done.
  - eexists _, _. rewrite update_all_min. split_and!; [done|done|]. cbn.
    apply (extreme_foldl SFltb [sV s]); eauto using SFltb_trans, SFltb_irrefl.
    + intros a b [Ha|Ha]; destruct (SFltb a b) eqn:E; [|done|..|done]; apply SFltb_notnan in E; destruct E; congruence.
    + split_and!; [by left| |by intros ? x ->%list_elem_of_singleton].
      intros x ->%list_elem_of_singleton. apply SFltb_irrefl.
  - eexists _, _. rewrite update_all_max. split_and!; [done|done|]. cbn.
    apply (extreme_foldl (λ y z, SFltb z y) [sV s]); eauto using SFltb_trans, SFltb_irrefl.
    + intros a b [Ha|Ha]; destruct (SFltb b a) eqn:E; [|done|..|done]; apply SFltb_notnan in E; destruct E; congruence.
    + split_and!; [by left| |by intros ? x ->%list_elem_of_singleton].
      intros x ->%list_elem_of_singleton. apply SFltb_irrefl.
  - destruct (update_all_std STDDEV 0 (MkGroup m f_zero (sV s) 1 [] []) els) as (g & Hg & Hl & Hf); [by right|].
    cbn [groupCount g_mean g_value g_labels] in Hl, Hf. specialize (Hcount (1, sV s, f_zero)). rewrite Hf in Hcount |- *.
    cbn [fst] in Hcount. rewrite length_fmap in Hcount. eexists g, _. cbn [group_result].
    rewrite Hl, Hcount, Hlen. done.
  - destruct (update_all_std STDVAR 0 (MkGroup m f_zero (sV s) 1 [] []) els) as (g & Hg & Hl & Hf); [by left|].
    cbn [groupCount g_mean g_value g_labels] in Hl, Hf. specialize (Hcount (1, sV s, f_zero)). rewrite Hf in Hcount |- *.
    cbn [fst] in Hcount. rewrite length_fmap in Hcount. eexists g, _. cbn [group_result].
    rewrite Hl, Hcount, Hlen. done.
  - destruct (update_all_count COUNT_VALUES 0 (MkGroup m (sV s) (sV s) 1 [] []) els) as (g & Hg & Hl & Hc); [by right|].
    cbn [groupCount g_labels] in Hc, Hl. eexists g, _. cbn [group_result]. rewrite Hl, Hc, Hlen. done.
Qed.

Lemma group_quantile m s els ss :
  op = QUANTILE →
  (∃ g, update_all op 0 (new_group op m s) els = Ok g ∧ group_result op q g = Ok ss) ↔
  ∃ v, ss = [sample_of m v] ∧ reduction op q (s :: els) v.
Proof.
  intros ->. cbn [new_group]. rewrite update_all_quantile. unfold reduction. rewrite fmap_cons. cbn [set_heap heap].
  rewrite first_on_heap. cbn [app]. split.
  - intros (g & [= <-] & Hr). cbn [group_result heap set_heap] in Hr. apply res_bind_ok in Hr as (v & Hv & [= <-]).
    by exists v.
  - intros (v & -> & Hv). eexists. split; [done|]. cbn [group_result heap set_heap].
    unfold group_vector, heap_sample in *. by rewrite Hv.
Qed.

Lemma NoDup_related {A B} (P : A → B → Prop) (xs : list A) (ys : list B) :
  (∀ x x' y, P x y → P x' y → x = x') → Forall2 P xs ys → NoDup xs → NoDup ys.
Proof.
  intros Hinj HF2. induction HF2 as [|x y xs ys Hxy HF2 IH]; [constructor|]. rewrite !NoDup_cons.
  intros [Hx Hnd]. split; [|by apply IH]. intros Hy. apply Hx.
  apply list_elem_of_lookup in Hy as (i & Hi). destruct (Forall2_lookup_r _ _ _ _ _ HF2 Hi) as (x' & Hx' & Hp).
  rewrite (Hinj _ _ _ Hxy Hp). by eapply list_elem_of_lookup_2.
Qed.

(** The samples the code has under one key are a group, and their result is its own. *)
Lemma group_samples_value vec h ss q' vl :
  no_hash_collisions vec →
  (∀ g, group_result op q' g = group_result op q g) →
  (∀ s, group_metric op vl s = group_metric op valueLabel s) →
  group_samples op Without 0 q' vl names_of (filter (λ s, key op Without vl names_of s = h) vec) ss →
  ∃ s v, s ∈ vec ∧ hkey s = h ∧ ss = [sample_of (groups s) v] ∧
    reduction op q (filter (λ s', groups s' = groups s) vec) v.
Proof.
  intros Hnc Hgr Hvls (s & els & g & Hels & Hg & Hss). rewrite Hgr in Hss.
  assert (∀ s, key op Without vl names_of s = hkey s) as Hkeys by (intros s'; unfold key, key_of; by rewrite Hvls).
  assert (lset op Without vl names_of s = groups s) as Hl
    by (rewrite <-lset_group; unfold lset, labels_of; by rewrite Hvls).
  rewrite Hl in Hg.
  assert (s ∈ vec ∧ hkey s = h) as [Hs <-].
  { assert (s ∈ filter (λ s, key op Without vl names_of s = h) vec) as Hin by (rewrite Hels; left).
    apply list_elem_of_filter in Hin as [Hk ?]. by rewrite <-Hkeys. }
  assert (filter (λ s', key op Without vl names_of s' = hkey s) vec = filter (λ s', groups s' = groups s) vec) as Hmem.
  { rewrite <-members_group by done. apply list_filter_iff. intros s'. by rewrite Hkeys. }
  rewrite Hmem in Hels. exists s. destruct (decide (op = QUANTILE)) as [Hqop|Hqop].
  - destruct (group_quantile (groups s) s els ss Hqop) as [Hfw _].
    destruct Hfw as (v & -> & Hv); [by exists g|]. exists v. by rewrite Hels.
  - destruct (group_value (groups s) s els Hqop) as (g' & v & Hg' & Hv & Hred).
    exists v. rewrite Hg in Hg'. injection Hg' as <-. rewrite Hss in Hv. injection Hv as ->. by rewrite Hels.
Qed.

Lemma split_groups (vec : list Sample) hs sss :
  Forall2 (λ h ss, ∃ s v, s ∈ vec ∧ hkey s = h ∧ ss = [sample_of (groups s) v] ∧
    reduction op q (filter (λ s', groups s' = groups s) vec) v) hs sss →
  ∃ gs rs, concat sss = rs ∧
    Forall2 (λ h g, ∃ s, s ∈ vec ∧ hkey s = h ∧ groups s = g) hs gs ∧
    Forall2 (λ g r, ∃ v, r = sample_of g v ∧ reduction op q (filter (λ s, groups s = g) vec) v) gs rs.
Proof.
  induction 1 as [|h ss hs sss (s & v & Hs & Hh & -> & Hv) _ (gs & rs & Hrs & H1 & H2)].
  { exists [], []. by split_and!. }
  exists (groups s :: gs), (sample_of (groups s) v :: rs). split_and!.
  - simpl. by rewrite Hrs.
  - constructor; [by exists s|done].
  - constructor; [by exists v|done].
Qed.

Lemma aggregation_labels vec enh :
  no_hash_collisions vec →
  (∃ gs rs enh', aggregation op grouping Without param vec enh = Ok (out enh ++ rs, enh') ∧
    NoDup gs ∧ (∀ g, g ∈ gs ↔ g ∈ groups <$> vec) ∧
    Forall2 (λ g r, ∃ v, r = sample_of g v ∧ reduction op q (filter (λ s, groups s = g) vec) v) gs rs) ∨
  (op = QUANTILE ∧ (∀ r, aggregation op grouping Without param vec enh ≠ Ok r) ∧
    ∃ g, g ∈ groups <$> vec ∧ ∀ v, ¬ reduction op q (filter (λ s, groups s = g) vec) v).
Proof.
  intros Hnc.
  assert (∃ q', agg_q op param = Ok q' ∧ ∀ g, group_result op q' g = group_result op q g) as (q' & Hq' & Hgr).
  { unfold agg_q. case_bool_decide as Hqop; [rewrite (Hq Hqop); by exists q|]. exists f_zero. split; [done|].
    intros g. by destruct op. }
  assert (agg_k op param = Ok 0%Z) as Hk by (unfold agg_k; by rewrite Hnk).
  assert (∃ vl, agg_label op grouping Without param = Ok (vl, names_of) ∧ ∀ s, group_metric op vl s = group_metric op valueLabel s)
    as (vl & Hvl & Hvls).
  { unfold agg_label, names_of. case_bool_decide as Hcv; [|by exists ""; split; [done|intros s; destruct op]].
    destruct (Hlabel Hcv) as [-> Hvalid]. exists valueLabel. cbn. rewrite Hvalid. by destruct Without. }
  assert (∀ s, key op Without vl names_of s = hkey s) as Hkeys by (intros s; unfold key, key_of; by rewrite Hvls).
  assert (∀ s, lset op Without vl names_of s = groups s) as Hlsets.
  { intros s. rewrite <-lset_group. unfold lset, labels_of. by rewrite Hvls. }
  assert (∀ s, s ∈ vec → filter (λ s', key op Without vl names_of s' = hkey s) vec = filter (λ s', groups s' = groups s) vec)
    as Hmem.
  { intros s Hs. rewrite <-members_group by done. apply list_filter_iff. intros s'. by rewrite Hkeys. }
  destruct (aggregation_cases op Without param 0 q' vl grouping names_of Hop Hk (λ H, ltac:(congruence)) Hq' Hvl vec enh)
    as [(hs & sss & enh' & Ha & Hnd & Hin & HF2)|(Hqop & Ha & h & s & els & g & Hf & Hg & Hbad)].
  - left. assert (Forall2 (λ h ss, ∃ s v, s ∈ vec ∧ hkey s = h ∧ ss = [sample_of (groups s) v] ∧
      reduction op q (filter (λ s', groups s' = groups s) vec) v) hs sss) as HF3.
    { eapply Forall2_impl; [exact HF2|]. intros h ss Hss. by eapply group_samples_value. }
    destruct (split_groups vec hs sss HF3) as (gs & rs & <- & H1 & H2).
    exists gs, (concat sss), enh'. split_and!; [done| | |done].
    + eapply NoDup_related; [|exact H1|done].
      intros h h' g (s & Hs & <- & <-) (s' & Hs' & <- & Heq). by apply key_group.
    + intros g. rewrite list_elem_of_fmap. split.
      * intros (i & Hi)%list_elem_of_lookup. destruct (Forall2_lookup_r _ _ _ _ _ H1 Hi) as (h & _ & s & Hs & _ & <-).
        by exists s.
      * intros (s & -> & Hs). assert (hkey s ∈ hs) as (i & Hi)%list_elem_of_lookup.
        { apply Hin, list_elem_of_fmap. exists s. by rewrite Hkeys. }
        destruct (Forall2_lookup_l _ _ _ _ _ H1 Hi) as (g & Hg & s' & Hs' & Hk' & <-).
        apply (key_group_iff vec) in Hk'; [|done..]. rewrite <-Hk'. by eapply list_elem_of_lookup_2.
  - right. split_and!; [done|done|].
    assert (s ∈ vec ∧ hkey s = h) as [Hs <-].
    { assert (s ∈ filter (λ s, key op Without vl names_of s = h) vec) as Hin by (rewrite Hf; left).
      apply list_elem_of_filter in Hin as [Hkk ?]. split; [done|]. by rewrite <-Hkk, Hkeys. }
    rewrite Hmem in Hf by done. exists (groups s). split; [by apply list_elem_of_fmap_2|].
    intros v Hv. rewrite Hf in Hv. rewrite Hlsets in Hg.
    destruct (group_quantile (groups s) s els [sample_of (groups s) v] Hqop) as [_ Hbw].
    destruct Hbw as (g' & Hg' & Hr); [by exists v|]. rewrite Hg in Hg'. injection Hg' as <-.
    rewrite <-Hgr in Hr. by apply Hbad in Hr.
Qed.

End by_labels.

(** C21. An aggregation other than [topk] and [bottomk], with a valid parameter, has one
    result for each group of samples that agree on the grouping labels: those named
    with [by], all but those named and the metric name with [without], [count_values]
    adding the value as a label.  The result carries these labels, and its value is
    computed from the samples of the group in their order: the sum, the running mean,
    the number of samples, an element no other is below (or above) and that is a number
    if one of them is, Welford's variance or its root, or the quantile.  Only [quantile]
    can fail, and then a quantile of a group does.  Samples of different groups are
    assumed to differ in the hash the code groups by. *)
Theorem aggregation_groups op Without param q valueLabel grouping vec enh :
  agg_op op = true → is_k_op op = false →
  (op = QUANTILE → param = PFloat q) →
  (op = COUNT_VALUES → param = PString valueLabel ∧ LabelName_IsValid valueLabel = true) →
  (∀ v, FormatFloat v ≠ "") →
  no_hash_collisions op Without valueLabel grouping vec →
  let group := group_by op Without valueLabel grouping in
  (∃ gs rs enh', aggregation op grouping Without param vec enh = Ok (out enh ++ rs, enh') ∧
    NoDup gs ∧ (∀ g, g ∈ gs ↔ g ∈ group <$> vec) ∧
    Forall2 (λ g r, ∃ v, r = sample_of g v ∧ reduction op q (filter (λ s, group s = g) vec) v) gs rs) ∨
  (op = QUANTILE ∧ (∀ r, aggregation op grouping Without param vec enh ≠ Ok r) ∧
    ∃ g, g ∈ group <$> vec ∧ ∀ v, ¬ reduction op q (filter (λ s, group s = g) vec) v).
Proof. intros. by apply aggregation_labels. Qed.



End aggregation.

(** ** Examples *)

(** [count_values by (x, y, z) (a, ...)]: the parser's slice of three labels has room for a
    fourth.  The first step groups by a, x, y and z; the second has lost z. *)
Example count_values_loses_a_label :
  let g := MkSlice ["x"; "y"; "z"; ""] 3 in
  let '(first, g) := shared_grouping g "a" in
  let '(second, _) := shared_grouping g "a" in
  first = ["a"; "x"; "y"; "z"] ∧ second = ["a"; "a"; "x"; "y"].
Proof. vm_compute. done. Qed.

Module Toy.
Definition smp (v : string) (x : Z) : Sample := sample_of {[ "job" := v ]} (float_of_Z x).
Definition enh : EvalNodeHelper (R:=unit) := new_helper.
Definition vec : list Sample := [smp "a" 3; smp "b" 5; smp "a" 1; smp "a" 4].
Definition agg (op : ItemType) (grouping : list string) (p : agg_param) :=
  aggregation (R:=unit) (λ _, 0%Z) (λ _, "1") (λ _, true) op grouping false p vec enh.

Example top2 : match agg TOPK [] (PFloat (float_of_Z 2)) with
  | Ok (v, _) => v = [smp "b" 5; smp "a" 4] | _ => False end.
Proof. vm_compute. done. Qed.
End Toy.

Lemma map_no_hash_collisions `{GoSort} FormatFloat op Without valueLabel grouping vec :
  (∀ v, FormatFloat v ≠ "") → no_hash_collisions FormatFloat op Without valueLabel grouping vec.
Proof.
  intros HF s s' _ _. cbv zeta. rewrite !group_by_metric by done. destruct Without; intros Heq%code_inj.
  - by rewrite !without_sorted in Heq.
  - by rewrite !restrict_sorted in Heq.
Qed.

Lemma aggregation_groups_witness :
  ∃ (gs : list labels) rs enh', Toy.agg SUM ["job"] (PFloat f_zero) = Ok (out Toy.enh ++ rs, enh') ∧ NoDup gs ∧
    ∀ v, sample_of {[ "job" := "a" ]} v ∈ rs → v = float_of_Z 8.
Proof.
  destruct (aggregation_groups (R:=unit) (λ _, 0%Z) (λ _, "1") (λ _, true) SUM false (PFloat f_zero) f_zero "" ["job"]
    Toy.vec Toy.enh) as [(gs & rs & enh' & H1 & H2 & H3 & H4)|[? _]];
    [reflexivity|reflexivity|done|done|done|by apply map_no_hash_collisions| |discriminate].
  exists gs, rs, enh'. split; [exact H1|]. split; [exact H2|].
  intros v (i & Hi)%list_elem_of_lookup. destruct (Forall2_lookup_r _ _ _ _ _ H4 Hi) as (g & _ & v' & Hv & Hr).
  injection Hv as Hg Hv. subst v' g. revert Hr. vm_compute. intros ->. reflexivity.
Defined.

Lemma topk_spec_witness :
  ∃ (hs : list Z) sss enh', Toy.agg TOPK [] (PFloat (float_of_Z 2)) = Ok (out Toy.enh ++ concat sss, enh') ∧ NoDup hs.
Proof.
  destruct (topk_spec (R:=unit) (λ _, 0%Z) (λ _, "1") (λ _, true) [] false (float_of_Z 2) 2 Toy.vec Toy.enh)
    as ((hs & sss & enh' & H & Hnd & _) & _); [by vm_compute|by vm_compute|done|by repeat constructor|].
  exists hs, sss, enh'. exact (conj H Hnd).
Defined.

End Agg.
