(* ===== verification/Evaluator.v ===== *)
(** * Evaluation

    [evaluator] of [src/pkg/promql/engine.go]: [eval] and what it calls.  A query is
    evaluated at every step between two timestamps; every node gives a matrix.

    A panic with an error is an [Err]; run-time panics are [RuntimeError]s.  The state
    is the number of samples in memory, the polls of the context made so far, and the
    series read from the sets of the selectors.  Whether the context is done is the
    parameter [ctx_Err], by the number of the poll. *)
From S2P Require Import Prelude Float PromLabels PromValue Quantile PromAst Functions VectorOps Aggregation.

(** ** Buffered iterators

    [storage.BufferedSeriesIterator]: an iterator over a series that keeps the samples
    of a time window before the current one.  [bi_at b s d t]: [b] reads [s], buffers
    at least the window [d], and was last moved to the time [t]. *)
Class BufferedIterator := {
  biter : Type;
  NewBuffer : Z → biter;
  Reset : biter → list (Z * Val.sval) → biter;
  BSeek : biter → Z → biter * bool;
  Values : biter → Z * Val.sval;
  PeekBack1 : biter → option (Z * Val.sval);
  Buffer : biter → list (Z * Val.sval);
  ReduceDelta : biter → Z → biter;
  BErr : biter → option goerror;

  bi_delta : biter → Z;
  bi_at : biter → list (Z * Val.sval) → Z → option Z → Prop;
  bi_delta_new : ∀ d, bi_delta (NewBuffer d) = d;
  bi_delta_ops : ∀ b, (∀ s, bi_delta (Reset b s) = bi_delta b) ∧ (∀ t, bi_delta (BSeek b t).1 = bi_delta b) ∧
    (∀ d, bi_delta (ReduceDelta b d) = bi_delta b);
  Reset_law : ∀ b s, bi_at (Reset b s) s (bi_delta b) None;
  Seek_law : ∀ b s d o t, StronglySorted (λ x y, x.1 < y.1)%Z s → bi_at b s d o →
    (∀ t0, o = Some t0 → (t0 ≤ t)%Z) →
    bi_at (BSeek b t).1 s d (Some t) ∧ (BSeek b t).2 = existsb (λ x, (t <=? x.1)%Z) s ∧
    BErr (BSeek b t).1 = None;
  Values_law : ∀ b s d t, bi_at b s d (Some t) → existsb (λ x, (t <=? x.1)%Z) s = true →
    head (filter (λ x, (t ≤ x.1)%Z) s) = Some (Values b);
  Buffer_law : ∀ b s d t, bi_at b s d (Some t) →
    ∃ pre, filter (λ x, (x.1 < t)%Z) s = pre ++ Buffer b ∧ Forall (λ x, (x.1 < t - d)%Z) pre;
  PeekBack_law : ∀ b, PeekBack1 b = last (Buffer b);
  ReduceDelta_law : ∀ b s d o d', bi_at b s d o → bi_at (ReduceDelta b d') s (Z.min d d') o;
}.

Module Eval.
Import Val Ast Qnt Fn Vop Agg.

(** ** Errors of the context *)

Definition Canceled : goerror := Errorf "context canceled".
Definition DeadlineExceeded : goerror := Errorf "context deadline exceeded".

Definition contextErr (err : goerror) (env : string) : goerror :=
  if decide (err = Canceled) then ErrQueryCanceled env
  else if decide (err = DeadlineExceeded) then ErrQueryTimeout env
  else err.

Definition env : string := "query execution".

(** ** The evaluator and its state *)

Record evaluator := MkEv {
  startTimestamp : Z;
  endTimestamp : Z;
  interval : Z;
  maxSamples : Z;
  defaultEvalInterval : Z;
  lookbackDelta : Z;
  topNode : option addr;
  unexpanded : gmap addr SeriesSet;
}.

Record state := MkState {
  currentSamples : Z;
  polls : nat;
  expanded : gmap addr (list stored);
}.

Definition M (A : Type) : Type := state → res (A * state).
Definition mret {A} (a : A) : M A := λ s, Ok (a, s).
Definition mbind_ {A B} (m : M A) (f : A → M B) : M B := λ s, let* (a, s) := m s in f a s.
Definition merror {A} (e : goerror) : M A := λ s, Err e.
Definition lift {A} (r : res A) : M A := λ s, let* a := r in Ok (a, s).
Definition get_samples : M Z := λ s, Ok (currentSamples s, s).
Definition put_samples (n : Z) : M unit := λ s, Ok (tt, MkState n (polls s) (expanded s)).
Definition add_samples (n : Z) : M unit := λ s, Ok (tt, MkState (currentSamples s + n) (polls s) (expanded s)).

Notation "'let!' x ':=' m 'in' k" := (mbind_ m (λ x, k))
  (at level 200, x pattern, m at level 200, k at level 200) : go_scope.
Notation "m1 ';;!' m2" := (mbind_ m1 (λ _, m2)) (at level 100, right associativity) : go_scope.

Notation matrix := (list Series).
Notation vector := (list Sample).

(** A loop over a list that threads an accumulator. *)
Fixpoint mfold {A B} (f : B → A → M B) (acc : B) (l : list A) : M B :=
  match l with
  | [] => mret acc
  | a :: l => let! acc := f acc a in mfold f acc l
  end.

Section evaluator.
Context {gsort : GoSort} {grange : GoMapRange} {gheap : GoHeap} {plabels : PromLabels} {plib : ParserLib}
  {buf : BufferedIterator} {R : Type}.
Context (int64_undefined : float64 → Z) (FormatFloat : float64 → string) (LabelName_IsValid : string → bool).
Context (Pow : float64 → float64 → float64).
(** The table of functions. *)
Context (FunctionCalls : string → FunctionCall (R:=R)).
Context (ctx_Err : nat → option goerror).

Definition helper : Type := EvalNodeHelper (R:=R).

(** [ctx.Err()], and [contextDone] with a panic. *)
Definition poll : M (option goerror) :=
  λ s, Ok (ctx_Err (polls s), MkState (currentSamples s) (S (polls s)) (expanded s)).
Definition contextDone (e : string) : M unit :=
  let! err := poll in
  match err with
  | Some err => merror (contextErr err e)
  | None => mret tt
  end.

(** ** Series of a selector *)

Fixpoint expand_loop (series : list stored) (acc : list stored) : M (list stored) :=
  match series with
  | [] => mret acc
  | s :: series =>
      let! err := poll in
      match err with
      | Some err => merror err
      | None => expand_loop series (acc ++ [s])
      end
  end.

Definition expandSeriesSet (it : SeriesSet) : M (list stored) :=
  let! res := expand_loop (set_series it) [] in
  match set_Err it with
  | Some err => merror err
  | None => mret res
  end.

Definition nil_pointer {A} : M A :=
  merror (RuntimeError "invalid memory address or nil pointer dereference").

(** [checkForSeriesSetExpansion], and then the field [Series]. *)
Definition checkForSeriesSetExpansion (ev : evaluator) (v : vsel) : M (list stored) :=
  match v_Series v with
  | Some series => mret series
  | None => λ s,
      match expanded s !! v_addr v with
      | Some series => Ok (series, s)
      | None =>
          match unexpanded ev !! v_addr v with
          | None => nil_pointer s
          | Some set =>
              let* (series, s) := expandSeriesSet set s in
              Ok (series, MkState (currentSamples s) (polls s) (<[v_addr v := series]> (expanded s)))
          end
      end
  end.

(** ** Steps *)

Definition division_by_zero {A} : M A := merror (RuntimeError "integer divide by zero").

(** [int((ev.endTimestamp-ev.startTimestamp)/ev.interval) + 1]. *)
Definition numSteps (ev : evaluator) : M Z :=
  if (interval ev =? 0)%Z then division_by_zero
  else mret (Z.quot (endTimestamp ev - startTimestamp ev) (interval ev) + 1)%Z.

(** [for ts := start; ts <= end; ts += interval]. *)
Fixpoint steps_from (fuel : nat) (ts e i : Z) : list Z :=
  match fuel with
  | 0 => []
  | S fuel => if (ts <=? e)%Z then ts :: steps_from fuel (ts + i)%Z e i else []
  end.
Definition steps (ev : evaluator) : list Z :=
  steps_from (Z.to_nat (Z.quot (endTimestamp ev - startTimestamp ev) (interval ev) + 1))
    (startTimestamp ev) (endTimestamp ev) (interval ev).

(** ** Selectors *)

Definition sval_float (v : sval) : float64 := match v with Num f => f | StaleNaN => NaN end.

Definition vectorSelectorSingle (ev : evaluator) (it : biter) (offset ts : Z)
    : M (biter * option (Z * float64)) :=
  let refTime := (ts - durationMilliseconds offset)%Z in
  let '(it, ok) := BSeek it refTime in
  match (if ok then None else BErr it) with
  | Some err => merror err
  | None =>
      let found := if ok then Some (Values it) else None in
      let back :=
        match found with
        | Some (t, v) => (refTime <? t)%Z
        | None => true
        end in
      let found :=
        if back then
          match PeekBack1 it with
          | Some (t, v) => if (t <? refTime - durationMilliseconds (lookbackDelta ev))%Z then None else Some (t, v)
          | None => None
          end
        else found in
      mret (it, match found with
                | Some (t, Num v) => Some (t, v)
                | _ => None
                end)
  end.

Definition ErrTooMany {A} : M A := merror (ErrTooManySamples env).

(** The guard in front of each sample: [if ev.currentSamples < ev.maxSamples]. *)
Definition room (ev : evaluator) : M bool :=
  let! n := get_samples in mret (n <? maxSamples ev)%Z.

(** One series of [vectorSelector]. *)
Definition vector_series (ev : evaluator) (offset ts : Z) (acc : biter * vector) (s : stored) : M (biter * vector) :=
  let '(it, vec) := acc in
  let it := Reset it (st_samples s) in
  let! (it, found) := vectorSelectorSingle ev it offset ts in
  let! vec := match found with
              | Some (t, v) => add_samples 1 ;;! mret (vec ++ [MkSample (MkPoint t v) (st_Labels s)])
              | None => mret vec
              end in
  let! ok := room ev in
  if ok then mret (it, vec) else ErrTooMany.

Definition vectorSelector (ev : evaluator) (node : vsel) (ts : Z) : M vector :=
  let! series := checkForSeriesSetExpansion ev node in
  let! (_, vec) := mfold (vector_series ev (v_Offset node) ts)
    (NewBuffer (durationMilliseconds (lookbackDelta ev)), []) series in
  mret vec.

(** The loop over the steps of one series when a selector is evaluated. *)
Definition selector_step (ev : evaluator) (offset : Z) (acc : biter * list Point) (ts : Z) : M (biter * list Point) :=
  let '(it, points) := acc in
  let! (it, found) := vectorSelectorSingle ev it offset ts in
  match found with
  | Some (_, v) =>
      let! ok := room ev in
      if ok then add_samples 1 ;;! mret (it, points ++ [MkPoint ts v]) else ErrTooMany
  | None => mret (it, points)
  end.

(** [if len(ss.Points) > 0 { mat = append(mat, ss) }]. *)
Definition append_series (mat : matrix) (ss : Series) : matrix :=
  match Points ss with [] => mat | _ => mat ++ [ss] end.

Definition selector_series (ev : evaluator) (offset : Z) (acc : biter * matrix) (s : stored) : M (biter * matrix) :=
  let '(it, mat) := acc in
  let it := Reset it (st_samples s) in
  let! (it, points) := mfold (selector_step ev offset) (it, []) (steps ev) in
  mret (it, append_series mat (MkSeries (st_Labels s) points)).

Definition eval_VectorSelector (ev : evaluator) (v : vsel) : M matrix :=
  let! series := checkForSeriesSetExpansion ev v in
  let! (_, mat) := mfold (selector_series ev (v_Offset v))
    (NewBuffer (durationMilliseconds (lookbackDelta ev)), []) series in
  mret mat.

(** ** Range selectors *)

(** [for drop = 0; out[drop].T < mint; drop++ {}] and the copy. *)
Fixpoint drop_before (mint : Z) (out : list Point) : list Point :=
  match out with
  | [] => []
  | p :: rest => if (T p <? mint)%Z then drop_before mint rest else out
  end.

(** The points of the earlier step that stay, and the time from which points are new. *)
Definition retain (mint : Z) (out : list Point) : list Point * Z :=
  match last out with
  | Some l => if (mint <=? T l)%Z then (drop_before mint out, (T l + 1)%Z) else ([], mint)
  | None => ([], mint)
  end.

Definition append_point (ev : evaluator) (out : list Point) (t : Z) (v : float64) : M (list Point) :=
  let! ok := room ev in
  if ok then add_samples 1 ;;! mret (out ++ [MkPoint t v]) else ErrTooMany.

Definition buffer_step (ev : evaluator) (mint : Z) (out : list Point) (x : Z * sval) : M (list Point) :=
  match x with
  | (t, Num v) => if (mint <=? t)%Z then append_point ev out t v else mret out
  | (_, StaleNaN) => mret out
  end.

Definition matrixIterSlice (ev : evaluator) (it : biter) (mint maxt : Z) (out : list Point)
    : M (biter * list Point) :=
  let '(out, mint) := retain mint out in
  let '(it, ok) := BSeek it maxt in
  match (if ok then None else BErr it) with
  | Some err => merror err
  | None =>
      let! out := mfold (buffer_step ev mint) out (Buffer it) in
      if ok then
        match Values it with
        | (t, Num v) => if (t =? maxt)%Z then let! out := append_point ev out t v in mret (it, out) else mret (it, out)
        | (_, StaleNaN) => mret (it, out)
        end
      else mret (it, out)
  end.

Definition matrix_series (ev : evaluator) (mint maxt : Z) (acc : biter * matrix) (s : stored) : M (biter * matrix) :=
  let '(it, mat) := acc in
  contextDone "expression evaluation" ;;!
  let it := Reset it (st_samples s) in
  let! (it, points) := matrixIterSlice ev it mint maxt [] in
  mret (it, append_series mat (MkSeries (st_Labels s) points)).

Definition matrixSelector (ev : evaluator) (vs : vsel) (Range : Z) : M matrix :=
  let! series := checkForSeriesSetExpansion ev vs in
  let offset := durationMilliseconds (v_Offset vs) in
  let maxt := (startTimestamp ev - offset)%Z in
  let mint := (maxt - durationMilliseconds Range)%Z in
  let! (_, mat) := mfold (matrix_series ev mint maxt) (NewBuffer (durationMilliseconds Range), []) series in
  mret mat.

(** ** The pushdown *)

Definition read_points (s : stored) : list Point := (λ x, MkPoint x.1 (sval_float x.2)) <$> st_samples s.

Definition getPushdownResult (series : list stored) : matrix :=
  foldl (λ mat s, append_series mat (MkSeries (plain_dropMetricName (st_Labels s)) (read_points s))) [] series.

(** The visitor of [parser.Inspect]: the matrix so far, or the panic that ended the walk. *)
Definition pushdown_visitor (ev : evaluator) : visitor (res (option matrix * state)) :=
  λ s node path,
    match node, s with
    | VectorSelector n, Ok (mat, st) =>
        match checkForSeriesSetExpansion ev n st with
        | Ok (series, st) =>
            match mat with
            | Some _ => (Ok (mat, st), inr (Errorf "Matrix is already filled in"))
            | None => (Ok (Some (getPushdownResult series), st), inl true)
            end
        | Err e => (Err e, inr e)
        | Panic m => (Panic m, inr (Errorf m))
        end
    | _, _ => (s, inl true)
    end.

Definition eval_topNode (ev : evaluator) (e : expr) : M matrix := λ st,
  let* (mat, st) := (Walk (pushdown_visitor ev) (Ok (None, st)) e).1 in
  match mat with
  | Some mat => Ok (mat, st)
  | None => Err (Errorf "Matrix not filled in")
  end.

(** ** [rangeEval] *)

(** One input vector at [ts]: the samples of the series whose first point is at [ts],
    and the series moved past it. *)
Definition gather_series (ev : evaluator) (ts : Z) (acc : vector * matrix) (series : Series) : M (vector * matrix) :=
  let '(vec, moved) := acc in
  match Points series with
  | point :: rest =>
      if (T point =? ts)%Z then
        let! ok := room ev in
        if ok then add_samples 1 ;;!
          mret (vec ++ [MkSample point (m_Metric series)], moved ++ [MkSeries (m_Metric series) rest])
        else ErrTooMany
      else mret (vec, moved ++ [series])
  | [] => mret (vec, moved ++ [series])
  end.

Definition gather (ev : evaluator) (ts : Z) (acc : list value * list matrix) (m : matrix)
    : M (list value * list matrix) :=
  let '(args, moved) := acc in
  let! (vec, m) := mfold (gather_series ev ts) ([], []) m in
  mret (args ++ [VVector vec], moved ++ [m]).

Definition same_labelset_error {A} : M A := merror (Errorf "vector cannot contain metrics with the same labelset").

(** Samples of a result into the series of their labels' hash. *)
Definition add_sample (ts : Z) (seriess : gmap Z Series) (sample : Sample) : gmap Z Series :=
  let h := Hash (s_Metric sample) in
  let ss := default (MkSeries (s_Metric sample) []) (seriess !! h) in
  <[h := MkSeries (m_Metric ss) (Points ss ++ [MkPoint ts (sV sample)])]> seriess.

Definition step_fun : Type := list value → helper → M (vector * helper).

(** The result of an instant query, which keeps the order of the vector. *)
Definition instant_matrix (ts : Z) (result : vector) : matrix :=
  (λ s, MkSeries (s_Metric s) [MkPoint ts (sV s)]) <$> result.

Record range_state := MkRange {
  r_matrixes : list matrix;
  r_enh : helper;
  r_seriess : gmap Z Series;
  tempNumSamples : Z;
}.

(** One step: gather, call, check, count. *)
Definition range_call (ev : evaluator) (f : step_fun) (r : range_state) (ts : Z) : M (vector * range_state) :=
  contextDone "expression evaluation" ;;!
  put_samples (tempNumSamples r) ;;!
  let! (args, matrixes) := mfold (gather ev ts) ([], []) (r_matrixes r) in
  let! (result, enh) := f args (set_ts (r_enh r) ts) in
  if Vector_ContainsSameLabelset result then same_labelset_error
  else
    let n := Z.of_nat (length result) in
    add_samples n ;;!
    let! total := get_samples in
    if (maxSamples ev <? total)%Z then ErrTooMany
    else mret (result, MkRange matrixes (set_out enh []) (r_seriess r) (tempNumSamples r + n)).

Definition range_step (ev : evaluator) (f : step_fun) (r : range_state) (ts : Z) : M range_state :=
  let! (result, r) := range_call ev f r ts in
  mret (MkRange (r_matrixes r) (r_enh r) (foldl (add_sample ts) (r_seriess r) result) (tempNumSamples r)).

Definition put_total (originalNumSamples : Z) (mat : matrix) : M matrix :=
  put_samples (originalNumSamples + Z.of_nat (TotalSamples mat)) ;;! mret mat.

(** The part of [rangeEval] after its arguments are evaluated. *)
Definition range_steps (ev : evaluator) (originalNumSamples : Z) (f : step_fun) (matrixes : list matrix) : M matrix :=
  let! tempNumSamples := get_samples in
  let r := MkRange matrixes new_helper ∅ tempNumSamples in
  match steps ev with
  | ts :: rest =>
      if (endTimestamp ev =? startTimestamp ev)%Z then
        let! (result, _) := range_call ev f r ts in
        put_total originalNumSamples (instant_matrix ts result)
      else
        let! r := mfold (range_step ev f) r (ts :: rest) in
        put_total originalNumSamples (map_range (r_seriess r)).*2
  | [] => put_total originalNumSamples []
  end.

Definition as_matrix (v : value) : M matrix := lift (as_Matrix v).

Definition pure_call (f : FunctionCall (R:=R)) (args : list expr) : step_fun :=
  λ vals enh, lift (f vals args enh).

(** ** Calls with a range argument *)

Definition is_matrix_arg (e : expr) : bool :=
  match unwrapParenExpr e with
  | MatrixSelector _ _ _ | SubqueryExpr _ _ _ _ _ => true
  | _ => false
  end.

Definition matrix_index (args : list expr) : option nat := fst <$> list_find (λ e, is_matrix_arg e = true) args.

(** [otherArgs[j][0].Points[step].V]. *)
Definition scalar_at (m : matrix) (step : nat) : res float64 :=
  let* s := index m 0 in let* p := index (Points s) (Z.of_nat step) in Ok (V p).

(** The values of the arguments at a step: the range of points at its index, vectors
    of one sample elsewhere. *)
Fixpoint call_args (idx j : nat) (window : value) (others : list matrix) (step : nat) : res (list value) :=
  match others with
  | [] => Ok []
  | m :: others =>
      let* v := if j =? idx then Ok window
                else let* x := scalar_at m step in Ok (VVector [sample_of ∅ x]) in
      let* rest := call_args idx (S j) window others step in
      Ok (v :: rest)
  end.

Record call_state := MkCall { c_it : biter; c_window : list Point; c_enh : helper; c_points : list Point }.

(** One step of one series. *)
Definition call_step (ev : evaluator) (call : FunctionCall (R:=R)) (args : list expr) (idx : nat)
    (others : list matrix) (metric : labels) (offset selRange stepRange : Z)
    (c : call_state) (x : nat * Z) : M call_state :=
  let '(step, ts) := x in
  (* the scalar arguments are read before the range is *)
  let! _ := lift (call_args idx 0 (VMatrix []) others step) in
  let maxt := (ts - offset)%Z in
  let mint := (maxt - selRange)%Z in
  let! (it, points) := matrixIterSlice ev (c_it c) mint maxt (c_window c) in
  match points with
  | [] => mret (MkCall it [] (c_enh c) (c_points c))
  | _ =>
      let! vals := lift (call_args idx 0 (VMatrix [MkSeries metric points]) others step) in
      let! (outVec, enh) := lift (call vals args (set_ts (c_enh c) ts)) in
      let ps := match outVec with
                | s :: _ => c_points c ++ [MkPoint ts (sV s)]
                | [] => c_points c
                end in
      mret (MkCall (ReduceDelta it stepRange) points (set_out enh []) ps)
  end.

Definition call_series (ev : evaluator) (call : FunctionCall (R:=R)) (args : list expr) (idx : nat)
    (others : list matrix) (offset selRange stepRange : Z)
    (acc : biter * helper * matrix) (s : stored) : M (biter * helper * matrix) :=
  let '(it, enh, mat) := acc in
  let c := MkCall (Reset it (st_samples s)) [] enh [] in
  let! c := mfold (call_step ev call args idx others (st_Labels s) offset selRange stepRange) c
    (imap pair (steps ev)) in
  match c_points c with
  | [] => mret (c_it c, c_enh c, mat)
  | points =>
      let! ok := room ev in
      if ok then
        add_samples (Z.of_nat (length points)) ;;!
        mret (c_it c, c_enh c, mat ++ [MkSeries (plain_dropMetricName (st_Labels s)) points])
      else ErrTooMany
  end.

(** The result of [absent_over_time]: one series with the steps no series has. *)
Definition found_times (mat : matrix) : gset Z := list_to_set (concat ((λ s, T <$> Points s) <$> mat)).

(** The loop over the series with its early return, from the second series on. *)
Fixpoint found_loop (n : Z) (i : nat) (found : gset Z) (mat : matrix) : option (gset Z) :=
  match mat with
  | [] => Some found
  | s :: mat =>
      let found := found ∪ list_to_set (T <$> Points s) in
      if (0 <? i) && (Z.of_nat (size found) =? n)%Z then None else found_loop n (S i) found mat
  end.

Definition absent_matrix (ev : evaluator) (args : list expr) (mat : matrix) : M matrix :=
  let! n := numSteps ev in
  if existsb (λ s, Z.of_nat (length (Points s)) =? n)%Z mat then mret []
  else
    match found_loop n 0 ∅ mat with
    | None => mret []
    | Some found =>
        let newp := (λ ts, MkPoint ts f_one) <$> filter (λ ts, ts ∉ found) (steps ev) in
        let! e := lift (index args 0) in
        mret [MkSeries (createLabelsForAbsentFunction e) newp]
    end.

Definition eval_matrix_call (ev : evaluator) (name : string) (call : FunctionCall (R:=R)) (args : list expr)
    (idx : nat) (vs : vsel) (Range : Z) (others : list matrix) : M matrix :=
  let! series := checkForSeriesSetExpansion ev vs in
  let offset := durationMilliseconds (v_Offset vs) in
  let selRange := durationMilliseconds Range in
  let stepRange := if (interval ev <? selRange)%Z then interval ev else selRange in
  let! (_, _, mat) := mfold (call_series ev call args idx others offset selRange stepRange)
    (NewBuffer selRange, new_helper, []) series in
  if decide (name = "absent_over_time") then absent_matrix ev args mat
  else if Matrix_ContainsSameLabelset mat then same_labelset_error
  else mret mat.

(** ** [eval] *)

Definition unhandled {A} : M A := merror (Errorf "unhandled expression of type").

Definition neg_series (s : Series) : Series :=
  MkSeries (plain_dropMetricName (m_Metric s)) ((λ p, MkPoint (T p) (SFopp (V p))) <$> Points s).

(** The evaluator of a subquery. *)
Definition subquery_evaluator (ev : evaluator) (Range Offset Step : Z) : M evaluator :=
  let offsetMillis := durationToInt64Millis Offset in
  let rangeMillis := durationToInt64Millis Range in
  let interval := if (Step =? 0)%Z then defaultEvalInterval ev else durationToInt64Millis Step in
  let from := (startTimestamp ev - offsetMillis - rangeMillis)%Z in
  if (interval =? 0)%Z then division_by_zero
  else
    let start := (interval * Z.quot from interval)%Z in
    let start := if (start <? from)%Z then (start + interval)%Z else start in
    mret (MkEv start (endTimestamp ev - offsetMillis) interval (maxSamples ev) (defaultEvalInterval ev)
            (lookbackDelta ev) None (unexpanded ev)).

(** The range selector that stands for an evaluated subquery. *)
Definition subquery_selector (mat : matrix) (Range Offset : Z) : vsel :=
  MkVsel 0 Offset [] (Some ((λ s, MkStored (m_Metric s) ((λ p, (T p, Num (V p))) <$> Points s)) <$> mat)).

Definition scalar0 (vals : list value) (i : Z) : M float64 := lift (scalar_arg vals i).
Definition vector0 (vals : list value) (i : Z) : M vector := lift (vector_arg vals i).

Definition aggregate_fun (Op : ItemType) (Grouping : list string) (Without : bool) (has_param : bool) : step_fun :=
  λ v enh,
    let! param := if has_param then scalar0 v 0 else mret f_zero in
    let! vec := vector0 v 1 in
    lift (aggregation int64_undefined FormatFloat LabelName_IsValid Op Grouping Without (PFloat param) vec enh).

Definition aggregate_string_fun (Op : ItemType) (Grouping : list string) (Without : bool) (s : string) : step_fun :=
  λ v enh,
    let! vec := vector0 v 0 in
    lift (aggregation int64_undefined FormatFloat LabelName_IsValid Op Grouping Without (PString s) vec enh).

(** The function of a binary expression, by the types of its sides. *)
Definition binary_fun (Op : ItemType) (lt rt : ValueType) (matching : VectorMatching) (ReturnBool : bool)
    : option step_fun :=
  match lt, rt with
  | ValueTypeScalar, ValueTypeScalar =>
      Some (λ v enh,
        let! l := scalar0 v 0 in
        let! r := scalar0 v 1 in
        let! val := lift (scalarBinop Pow Op l r) in
        lift (return_value enh val))
  | ValueTypeVector, ValueTypeVector =>
      Some (λ v enh,
        let! l := vector0 v 0 in
        let! r := vector0 v 1 in
        lift (match Op with
              | LAND => VectorAnd l r matching enh
              | LOR => VectorOr l r matching enh
              | LUNLESS => VectorUnless l r matching enh
              | _ => VectorBinop Pow Op l r matching ReturnBool enh
              end))
  | ValueTypeVector, ValueTypeScalar =>
      Some (λ v enh,
        let! l := vector0 v 0 in
        let! r := scalar0 v 1 in
        lift (VectorscalarBinop Pow Op l (MkScalar 0 r) false ReturnBool enh))
  | ValueTypeScalar, ValueTypeVector =>
      Some (λ v enh,
        let! r := vector0 v 1 in
        let! l := scalar0 v 0 in
        lift (VectorscalarBinop Pow Op r (MkScalar 0 l) true ReturnBool enh))
  | _, _ => None
  end.

(** [timestamp] of a selector evaluates the selector at every step. *)
Definition timestamp_fun (ev : evaluator) (call : FunctionCall (R:=R)) (vs : vsel) (args : list expr) : step_fun :=
  λ _ enh,
    let! vec := vectorSelector ev vs (ts enh) in
    lift (call [VVector vec] args enh).

Fixpoint eval (ev : evaluator) (e : expr) {struct e} : M value :=
  contextDone "expression evaluation" ;;!
  let! _ := numSteps ev in
  if bool_decide (topNode ev = Some (address e)) then
    let! mat := eval_topNode ev e in mret (VMatrix mat)
  else
    (* an argument of [rangeEval]: strings are not evaluated *)
    let eval_arg (e : expr) : M matrix :=
      if bool_decide (expr_Type e = ValueTypeString) then mret []
      else let! v := eval ev e in as_matrix v in
    let eval_unwrapped :=
      (fix go (l : list expr) : M (list matrix) :=
         match l with
         | [] => mret []
         | a :: l =>
             let a := unwrapParenExpr a in
             let! m := if bool_decide (expr_Type a = ValueTypeString) then mret []
                       else let! v := eval ev a in as_matrix v in
             let! ms := go l in
             mret (m :: ms)
         end) in
    let eval_others :=
      (fix go (idx i : nat) (l : list expr) : M (list matrix) :=
         match l with
         | [] => mret []
         | a :: l =>
             let! m := if i =? idx then mret []
                       else let! v := eval ev (if i <? idx then unwrapParenExpr a else a) in as_matrix v in
             let! ms := go idx (S i) l in
             mret (m :: ms)
         end) in
    (* the range argument: a subquery is evaluated in its place *)
    let eval_range :=
      (fix go (i : nat) (l : list expr) {struct l} : M (vsel * Z * expr) :=
         match l with
         | [] => unhandled
         | a :: l =>
             match i with
             | S i => go i l
             | 0 =>
                 let a := unwrapParenExpr a in
                 match a with
                 | MatrixSelector _ vs range => mret (vs, range, a)
                 | SubqueryExpr _ _ range offset _ =>
                     let! v := eval ev a in
                     let! mat := as_matrix v in
                     let vs := subquery_selector mat range offset in
                     mret (vs, range, MatrixSelector 0 vs range)
                 | _ => unhandled
                 end
             end
         end) in
    let! originalNumSamples := get_samples in
    let range f (ms : list matrix) : M value :=
      let! mat := range_steps ev originalNumSamples f ms in mret (VMatrix mat) in
    match e with
    | AggregateExpr _ Op e Param Grouping Without =>
        match Param with
        | Some p =>
            let p := unwrapParenExpr p in
            match p with
            | StringLiteral _ s =>
                let! m := eval_arg e in
                range (aggregate_string_fun Op Grouping Without s) [m]
            | _ =>
                let! mp := if bool_decide (expr_Type p = ValueTypeString) then mret []
                           else let! v := eval ev p in as_matrix v in
                let! m := eval_arg e in
                range (aggregate_fun Op Grouping Without true) [mp; m]
            end
        | None =>
            let! m := eval_arg e in
            range (aggregate_fun Op Grouping Without false) [[]; m]
        end
    | Call _ name _ args =>
        let call := FunctionCalls name in
        match decide (name = "timestamp"), args with
        | left _, VectorSelector vs :: _ => range (timestamp_fun ev call vs args) []
        | left _, [] => lift index_error
        | _, _ =>
            match matrix_index args with
            | None =>
                let! ms := eval_unwrapped args in
                range (pure_call call (unwrapParenExpr <$> args)) ms
            | Some idx =>
                let! (vs, Range, sel) := eval_range idx args in
                let args' := (unwrapParenExpr <$> take idx args) ++ sel :: drop (S idx) args in
                let! others := eval_others idx 0 args in
                let! mat := eval_matrix_call ev name call args' idx vs Range others in
                mret (VMatrix mat)
            end
        end
    | ParenExpr _ e => eval ev e
    | UnaryExpr _ Op e =>
        let! v := eval ev e in
        let! mat := as_matrix v in
        if bool_decide (Op = SUB) then
          let mat := neg_series <$> mat in
          if Matrix_ContainsSameLabelset mat then same_labelset_error else mret (VMatrix mat)
        else mret (VMatrix mat)
    | BinaryExpr _ Op l r matching ReturnBool =>
        match binary_fun Op (expr_Type l) (expr_Type r) matching ReturnBool with
        | Some f => let! ml := eval_arg l in let! mr := eval_arg r in range f [ml; mr]
        | None => unhandled
        end
    | NumberLiteral _ val => range (λ _ enh, lift (return_value enh val)) []
    | VectorSelector v => let! mat := eval_VectorSelector ev v in mret (VMatrix mat)
    | MatrixSelector _ vs Range =>
        if (startTimestamp ev =? endTimestamp ev)%Z then
          let! mat := matrixSelector ev vs Range in mret (VMatrix mat)
        else merror (Errorf "cannot do range evaluation of matrix selector")
    | SubqueryExpr _ e Range Offset Step =>
        let! newEv := subquery_evaluator ev Range Offset Step in
        eval newEv e
    | StringLiteral _ s => mret (VString (MkString (startTimestamp ev) s))
    end.

(** [recover] and [Eval], after some polls of the context: a run-time panic becomes an
    error, a panic with an error is that error, any other panic goes on. *)
Definition recover {A} (r : res A) : res A :=
  match r with
  | Err (RuntimeError m) => Err (Wrapped "unexpected error" (RuntimeError m))
  | r => r
  end.

Definition Eval (ev : evaluator) (e : expr) (polls0 : nat) : res (value * nat) :=
  recover (let* (v, st) := eval ev e (MkState 0 polls0 ∅) in Ok (v, polls st)).

End evaluator.

End Eval.
