(* ===== verification/Selectors.v ===== *)
(** * What the selectors read

    Theorems about [Evaluator]: an instant selector reads the latest sample within the
    lookback, a range selector exactly the samples of its window, at every step and
    however the buffered iterator was moved before.  The number of samples in memory
    is counted and bounded. *)
From S2P Require Import Prelude Float PromLabels PromValue Quantile PromAst Functions VectorOps Aggregation Evaluator.

(** ** A buffered iterator that keeps its series *)

Record list_biter := MkBiter { lb_series : list (Z * Val.sval); lb_orig : Z; lb_delta : Z; lb_time : option Z }.

Notation by_time := (StronglySorted (λ x y : Z * Val.sval, (x.1 < y.1)%Z)).

Lemma sorted_suffix (s : list (Z * Val.sval)) t u :
  by_time s → ∃ pre, filter (λ x, (x.1 < t)%Z) s = pre ++ filter (λ x, (u ≤ x.1 < t)%Z) s ∧
    Forall (λ x, (x.1 < u)%Z) pre.
Proof.
  intros Hs. exists (filter (λ x, (x.1 < u ∧ x.1 < t)%Z) s). split.
  2: { apply Forall_forall. intros x Hx. apply list_elem_of_filter in Hx as [[? _] _]. done. }
  induction Hs as [|x s Hs IH Hx]; [done|]. rewrite !filter_cons.
  destruct (decide (x.1 < t)%Z) as [Ht|Ht].
  - destruct (decide (x.1 < u)%Z) as [Hu|Hu].
    + rewrite (decide_True (P:=(x.1 < u ∧ x.1 < t)%Z)), (decide_False (P:=(u ≤ x.1 < t)%Z)) by lia. by rewrite IH.
    + rewrite (decide_False (P:=(x.1 < u ∧ x.1 < t)%Z)), (decide_True (P:=(u ≤ x.1 < t)%Z)) by lia.
      assert (filter (λ y, (y.1 < u ∧ y.1 < t)%Z) s = []) as Hnil.
      { clear IH. induction Hx as [|y s Hy Hx IH]; [done|]. apply StronglySorted_inv in Hs as [Hs _].
        rewrite filter_cons, decide_False by lia. auto. }
      rewrite Hnil in IH |- *. by rewrite IH.
  - rewrite !decide_False by lia. done.
Qed.

#[export] Program Instance list_BufferedIterator : BufferedIterator | 100 := {
  biter := list_biter;
  NewBuffer d := MkBiter [] d d None;
  Reset b s := MkBiter s (lb_orig b) (lb_orig b) None;
  BSeek b t := (MkBiter (lb_series b) (lb_orig b) (lb_delta b) (Some t), existsb (λ x, (t <=? x.1)%Z) (lb_series b));
  Values b := match lb_time b with
              | Some t => default (0%Z, Val.StaleNaN) (head (filter (λ x, (t ≤ x.1)%Z) (lb_series b)))
              | None => (0%Z, Val.StaleNaN)
              end;
  Buffer b := match lb_time b with
              | Some t => filter (λ x, (t - lb_delta b ≤ x.1 < t)%Z) (lb_series b)
              | None => []
              end;
  PeekBack1 b := last (match lb_time b with
              | Some t => filter (λ x, (t - lb_delta b ≤ x.1 < t)%Z) (lb_series b)
              | None => []
              end);
  ReduceDelta b d := MkBiter (lb_series b) (lb_orig b) (Z.min (lb_delta b) d) (lb_time b);
  BErr b := None;
  bi_delta := lb_orig;
  bi_at b s d o := lb_series b = s ∧ lb_delta b = d ∧ lb_time b = o ∧ (o ≠ None → by_time s);
}.
Next Obligation. done. Qed.
Next Obligation. done. Qed.
Next Obligation. done. Qed.
Next Obligation. intros b s d o t Hs (<- & <- & _ & _) _. done. Qed.
Next Obligation.
  intros b s d t (<- & <- & Ht & _) He. simpl. rewrite Ht.
  destruct (head (filter (λ x, (t ≤ x.1)%Z) (lb_series b))) as [x|] eqn:Hh; [done|].
  apply existsb_exists in He as (x & Hx & Hle). apply list_elem_of_In in Hx.
  assert (x ∈ filter (λ x, (t ≤ x.1)%Z) (lb_series b)) as Hin by (apply list_elem_of_filter; split; [lia|done]).
  destruct (filter _ _); [set_solver|done].
Qed.
Next Obligation.
  intros b s d t (<- & <- & Ht & Hs). simpl. rewrite Ht. apply sorted_suffix. by apply Hs.
Qed.
Next Obligation. done. Qed.
Next Obligation. intros b s d o d' (<- & <- & <- & ?). done. Qed.

Module Sel.
Import Val Ast Qnt Fn Vop Agg Eval.

(** ** Sorted series *)

Lemma filter_all {A} (P : A → Prop) `{!∀ x, Decision (P x)} l : Forall P l → filter P l = l.
Proof. induction 1 as [|x l Hx Hl IH]; [done|]. by rewrite filter_cons_True, IH. Qed.

Lemma filter_none {A} (P : A → Prop) `{!∀ x, Decision (P x)} l : Forall (λ x, ¬ P x) l → filter P l = [].
Proof. induction 1 as [|x l Hx Hl IH]; [done|]. by rewrite filter_cons_False, IH. Qed.

(** In a sorted series the samples up to [t] come before those after it. *)
Lemma sorted_split (s : list (Z * sval)) t :
  by_time s → s = filter (λ x, (x.1 < t)%Z) s ++ filter (λ x, (t ≤ x.1)%Z) s.
Proof.
  intros Hs. induction Hs as [|x s Hs IH Hx]; [done|]. rewrite !filter_cons.
  destruct (decide (x.1 < t)%Z) as [Ht|Ht].
  - rewrite (decide_False (P:=(t ≤ x.1)%Z)) by lia. simpl. by f_equal.
  - rewrite (decide_True (P:=(t ≤ x.1)%Z)) by lia.
    assert (filter (λ y, (y.1 < t)%Z) s = []) as ->.
    { apply filter_none. eapply Forall_impl; [exact Hx|]. intros y Hy. simpl in Hy. lia. }
    simpl. f_equal. symmetry. apply filter_all. eapply Forall_impl; [exact Hx|]. intros y Hy. simpl in Hy. lia.
Qed.

(** The latest sample at or before a time. *)
Definition latest (s : list (Z * sval)) (t : Z) : option (Z * sval) := last (filter (λ x, (x.1 ≤ t)%Z) s).

(** What an instant selector reads: the latest sample, when it is not older than the
    lookback and not a staleness marker. *)
Definition instant_at (s : list (Z * sval)) (ref lookback : Z) : option (Z * float64) :=
  match latest s ref with
  | Some (t, Num v) => if (t <? ref - lookback)%Z then None else Some (t, v)
  | _ => None
  end.

Lemma latest_head s t x :
  by_time s → head (filter (λ x, (t ≤ x.1)%Z) s) = Some x →
  latest s t = if (t <? x.1)%Z then last (filter (λ x, (x.1 < t)%Z) s) else Some x.
Proof.
  intros Hs Hh. unfold latest. rewrite (sorted_split s t Hs) at 1. rewrite filter_app.
  assert (filter (λ x, (x.1 ≤ t)%Z) (filter (λ x, (x.1 < t)%Z) s) = filter (λ x, (x.1 < t)%Z) s) as ->.
  { apply filter_all, Forall_forall. intros y [Hy _]%list_elem_of_filter. lia. }
  assert (by_time (filter (λ x, (t ≤ x.1)%Z) s)) as Hs2.
  { clear Hh. induction Hs as [|y s Hs IH Hy]; [constructor|]. rewrite filter_cons. case_decide; [|done].
    constructor; [done|]. rewrite Forall_forall in Hy |- *. intros z [_ Hz]%list_elem_of_filter. auto. }
  assert (Forall (λ x, (t ≤ x.1)%Z) (filter (λ x, (t ≤ x.1)%Z) s)) as Hge.
  { apply Forall_forall. by intros y [Hy _]%list_elem_of_filter. }
  destruct (filter (λ x, (t ≤ x.1)%Z) s) as [|y l]; [done|]. simpl in Hh. injection Hh as ->.
  apply StronglySorted_inv in Hs2 as [_ Hl]. rewrite filter_cons.
  assert (filter (λ x, (x.1 ≤ t)%Z) l = []) as ->.
  { apply filter_none. apply Forall_cons in Hge as [Hx Hge]. rewrite Forall_forall in Hl |- *.
    intros z Hz. specialize (Hl z Hz). simpl in Hl. lia. }
  apply Forall_cons in Hge as [Hx _]. destruct (Z.ltb_spec t x.1).
  - rewrite decide_False by lia. by rewrite app_nil_r.
  - rewrite decide_True by lia. by rewrite last_snoc.
Qed.

Lemma existsb_none (s : list (Z * sval)) t :
  existsb (λ x, (t <=? x.1)%Z) s = false → Forall (λ x, (x.1 < t)%Z) s.
Proof.
  intros He. apply Forall_forall. intros x Hx. destruct (Z.leb_spec t x.1) as [Hle|]; [|done].
  assert (existsb (λ x, (t <=? x.1)%Z) s = true) as Hc; [|congruence].
  apply existsb_exists. exists x. split; [by apply list_elem_of_In|lia].
Qed.

Lemma latest_none s t :
  existsb (λ x, (t <=? x.1)%Z) s = false → latest s t = last (filter (λ x, (x.1 < t)%Z) s).
Proof.
  intros He%existsb_none. unfold latest. rewrite !filter_all; [done|done|].
  eapply Forall_impl; [exact He|]. intros x Hx. simpl in Hx. lia.
Qed.

Section selectors.
Context {buf : BufferedIterator}.
Implicit Types (it : biter) (st : state) (ev : evaluator).

Lemma mbind_run {A B} (m : M A) (f : A → M B) st : mbind_ m f st = let* (a, st) := m st in f a st.
Proof. reflexivity. Qed.
Lemma mfold_cons {A B} (f : B → A → M B) acc a l st :
  mfold f acc (a :: l) st = let* (acc, st) := f acc a st in mfold f acc l st.
Proof. reflexivity. Qed.

(** The end of the buffer, when it is inside the lookback, is the latest sample before
    the time sought. *)
Lemma buffer_last it s d t :
  bi_at it s d (Some t) →
  (match PeekBack1 it with
   | Some (u, v) => if (u <? t - d)%Z then None else Some (u, v)
   | None => None
   end : option (Z * sval)) =
  match last (filter (λ x, (x.1 < t)%Z) s) with
  | Some (u, v) => if (u <? t - d)%Z then None else Some (u, v)
  | None => None
  end.
Proof.
  intros Hat. destruct (Buffer_law it s d t Hat) as (pre & -> & Hpre). rewrite PeekBack_law.
  destruct (last (Buffer it)) as [[u v]|] eqn:Hl.
  - apply last_Some in Hl as [l ->]. by rewrite (assoc_L (++)), last_snoc.
  - apply last_None in Hl as ->. rewrite app_nil_r. destruct (last pre) as [[u v]|] eqn:Hp; [|done].
    apply last_Some_elem_of in Hp. rewrite Forall_forall in Hpre. specialize (Hpre _ Hp). simpl in Hpre.
    by rewrite (proj2 (Z.ltb_lt _ _)).
Qed.

Lemma vectorSelectorSingle_ok ev it s o offset ts st :
  let lookback := durationMilliseconds (lookbackDelta ev) in
  let ref := (ts - durationMilliseconds offset)%Z in
  by_time s → (0 ≤ lookback)%Z → bi_at it s lookback o → (∀ t0, o = Some t0 → (t0 ≤ ref)%Z) →
  ∃ it', vectorSelectorSingle ev it offset ts st = Ok ((it', instant_at s ref lookback), st) ∧
    bi_at it' s lookback (Some ref) ∧ bi_delta it' = bi_delta it.
Proof.
  intros lookback ref Hs Hlb Hat Ho.
  destruct (Seek_law it s lookback o ref Hs Hat Ho) as (Hat' & Hok & Herr).
  pose proof (proj1 (proj2 (bi_delta_ops it)) ref) as Hdelta.
  unfold vectorSelectorSingle. fold ref. destruct (BSeek it ref) as [it' ok]. simpl in *. subst ok.
  exists it'. split; [|done]. unfold instant_at.
  pose proof (buffer_last it' s lookback ref Hat') as Hback. fold lookback.
  destruct (existsb (λ x, (ref <=? x.1)%Z) s) eqn:He.
  - pose proof (Values_law it' s lookback ref Hat' He) as Hv. destruct (Values it') as [t v] eqn:Hval.
    rewrite (latest_head s ref (t, v)) by done. cbn [fst]. unfold mret. do 3 f_equal.
    destruct (Z.ltb_spec ref t) as [Hlt|Hge].
    + rewrite Hback. destruct (last _) as [[u [w|]]|]; [by destruct (u <? _)%Z|by destruct (u <? _)%Z|done].
    + assert (t = ref) as ->.
      { destruct (filter (λ x, (ref ≤ x.1)%Z) s) as [|y l] eqn:Hf; [done|]. injection Hv as ->.
        assert ((t, v) ∈ filter (λ x, (ref ≤ x.1)%Z) s) as Hin by (rewrite Hf; set_solver).
        apply list_elem_of_filter in Hin as [Hin _]. simpl in Hin. lia. }
      destruct v; [|done]. by rewrite (proj2 (Z.ltb_ge _ _)) by lia.
  - rewrite Herr. rewrite (latest_none s ref He). unfold mret. do 3 f_equal. rewrite Hback.
    destruct (last _) as [[u [w|]]|]; [by destruct (u <? _)%Z|by destruct (u <? _)%Z|done].
Qed.

(** ** Instant selectors over all steps *)

Definition more (st : state) (n : nat) : state :=
  MkState (currentSamples st + Z.of_nat n) (polls st) (expanded st).

Lemma more_0 st : more st 0 = st.
Proof. destruct st. unfold more. simpl. by rewrite Z.add_0_r. Qed.
Lemma more_more st n m : more (more st n) m = more st (n + m).
Proof. unfold more. simpl. f_equal. lia. Qed.

(** The points of a series at the steps [l]. *)
Definition step_points (ev : evaluator) (offset : Z) (s : list (Z * sval)) (l : list Z) : list Point :=
  omap (λ ts, x ← instant_at s (ts - durationMilliseconds offset) (durationMilliseconds (lookbackDelta ev));
              Some (MkPoint ts x.2)) l.

(** Whether [n] more samples can be read: the guard is in front of each one. *)
Definition fits (ev : evaluator) (st : state) (n : nat) : bool :=
  (n =? 0) || (currentSamples st + Z.of_nat n <=? maxSamples ev)%Z.

Lemma fits_add ev st n m : fits ev st (n + m) = fits ev st n && fits ev (more st n) m.
Proof.
  unfold fits, more. cbn [currentSamples].
  destruct n as [|n]; [by rewrite Z.add_0_r|]. destruct m as [|m]; [by rewrite Nat.add_0_r, andb_true_r|].
  cbn [Nat.eqb Nat.add orb]. apply eq_bool_prop_intro. rewrite andb_True, !Is_true_true, !Z.leb_le. lia.
Qed.

Lemma fits_1 ev st : fits ev st 1 = (currentSamples st <? maxSamples ev)%Z.
Proof. unfold fits. cbn. destruct (Z.ltb_spec (currentSamples st) (maxSamples ev)); [apply Z.leb_le|apply Z.leb_gt]; lia. Qed.

Lemma if_and {A} (b c : bool) (x y : A) : (if b && c then x else y) = if b then if c then x else y else y.
Proof. by destruct b. Qed.

Lemma step_points_cons ev offset s ts l :
  step_points ev offset s (ts :: l) =
    match instant_at s (ts - durationMilliseconds offset) (durationMilliseconds (lookbackDelta ev)) with
    | Some x => MkPoint ts x.2 :: step_points ev offset s l
    | None => step_points ev offset s l
    end.
Proof. unfold step_points. cbn [omap list_omap]. by destruct (instant_at _ _ _). Qed.

Lemma selector_steps_ok ev offset s l it o acc st :
  by_time s → (0 ≤ durationMilliseconds (lookbackDelta ev))%Z →
  bi_at it s (durationMilliseconds (lookbackDelta ev)) o →
  (∀ t0, o = Some t0 → Forall (λ ts, (t0 ≤ ts - durationMilliseconds offset)%Z) l) → StronglySorted Z.le l →
  if fits ev st (length (step_points ev offset s l)) then
    ∃ it', mfold (selector_step ev offset) (it, acc) l st
      = Ok ((it', acc ++ step_points ev offset s l), more st (length (step_points ev offset s l)))
      ∧ bi_delta it' = bi_delta it
  else mfold (selector_step ev offset) (it, acc) l st = Err (ErrTooManySamples env).
Proof.
  intros Hs Hlb. revert it o acc st. induction l as [|ts l IH]; intros it o acc st Hat Ho Hl.
  { exists it. cbn. rewrite more_0, app_nil_r. done. }
  apply StronglySorted_inv in Hl as [Hl Hts].
  destruct (vectorSelectorSingle_ok ev it s o offset ts st Hs Hlb Hat) as (it1 & Hv & Hat1 & Hd1).
  { intros t0 Ht0. by apply Ho in Ht0 as [? _]%Forall_cons. }
  assert (selector_step ev offset (it, acc) ts st =
    match instant_at s (ts - durationMilliseconds offset) (durationMilliseconds (lookbackDelta ev)) with
    | Some x => if (currentSamples st <? maxSamples ev)%Z then Ok ((it1, acc ++ [MkPoint ts x.2]), more st 1)
                else Err (ErrTooManySamples env)
    | None => Ok ((it1, acc), st)
    end) as Hstep.
  { unfold selector_step. rewrite mbind_run, Hv. cbn [res_bind].
    destruct (instant_at _ _ _) as [[t v]|]; [|done]. rewrite mbind_run. cbn [room get_samples mbind_ mret res_bind].
    by destruct (currentSamples st <? maxSamples ev)%Z. }
  rewrite mfold_cons, Hstep.
  rewrite step_points_cons.
  assert (∀ t0, Some (ts - durationMilliseconds offset)%Z = Some t0 →
    Forall (λ ts, (t0 ≤ ts - durationMilliseconds offset)%Z) l) as Ho1.
  { intros t0 [= <-]. eapply Forall_impl; [exact Hts|]. intros u Hu. simpl in Hu. lia. }
  destruct (instant_at s (ts - durationMilliseconds offset) (durationMilliseconds (lookbackDelta ev))) as [[t v]|].
  2: { cbn [res_bind]. rewrite <-Hd1. by apply (IH it1 _ acc st Hat1). }
  change (length (MkPoint ts (t, v).2 :: ?l)) with (1 + length l). rewrite fits_add, fits_1.
  destruct (currentSamples st <? maxSamples ev)%Z; [|done]. cbn [res_bind snd andb].
  specialize (IH it1 _ (acc ++ [MkPoint ts v]) (more st 1) Hat1 Ho1 Hl).
  by rewrite Hd1, <-(assoc_L (++)), more_more in IH.
Qed.

(** The matrix of an instant selector: per series its points at the steps, series
    without points left out. *)
Definition selector_matrix (ev : evaluator) (offset : Z) (series : list stored) : list Series :=
  omap (λ s, match step_points ev offset (st_samples s) (steps ev) with
             | [] => None
             | ps => Some (MkSeries (st_Labels s) ps)
             end) series.

Lemma TotalSamples_app (m m' : list Series) : TotalSamples (m ++ m') = TotalSamples m + TotalSamples m'.
Proof. unfold TotalSamples. by rewrite fmap_app, sum_list_nat_app. Qed.

Lemma steps_from_spec fuel ts e i :
  (0 < i)%Z → StronglySorted Z.lt (steps_from fuel ts e i) ∧ Forall (λ x, (ts ≤ x ≤ e)%Z) (steps_from fuel ts e i).
Proof.
  intros Hi. revert ts. induction fuel as [|fuel IH]; intros ts; cbn [steps_from]; [by repeat constructor|].
  destruct (Z.leb_spec ts e) as [Hle|]; [|by repeat constructor]. destruct (IH (ts + i)%Z) as [H1 H2]. split.
  - constructor; [done|]. eapply Forall_impl; [exact H2|]. intros x Hx. simpl in Hx. lia.
  - constructor; [lia|]. eapply Forall_impl; [exact H2|]. intros x Hx. simpl in *. lia.
Qed.

Lemma steps_sorted ev : (0 < interval ev)%Z → StronglySorted Z.lt (steps ev).
Proof. intros Hi. by apply steps_from_spec. Qed.

Lemma sorted_lt_le l : StronglySorted Z.lt l → StronglySorted Z.le l.
Proof.
  induction 1 as [|x l Hl IH Hx]; constructor; [done|]. eapply Forall_impl; [exact Hx|]. intros y Hy. simpl in *. lia.
Qed.

Lemma selector_series_ok ev offset series it mat st :
  Forall (λ s, by_time (st_samples s)) series → (0 ≤ durationMilliseconds (lookbackDelta ev))%Z →
  (0 < interval ev)%Z → bi_delta it = durationMilliseconds (lookbackDelta ev) →
  let n := TotalSamples (selector_matrix ev offset series) in
  if fits ev st n then
    ∃ it', mfold (selector_series ev offset) (it, mat) series st
      = Ok ((it', mat ++ selector_matrix ev offset series), more st n)
  else mfold (selector_series ev offset) (it, mat) series st = Err (ErrTooManySamples env).
Proof.
  intros Hs Hlb Hi. revert it mat st. induction Hs as [|s series Hs Hss IH]; intros it mat st Hd.
  { exists it. cbn. by rewrite more_0, app_nil_r. }
  pose proof (Reset_law it (st_samples s)) as Hat. rewrite Hd in Hat.
  pose proof (selector_steps_ok ev offset (st_samples s) (steps ev) (Reset it (st_samples s)) None [] st Hs Hlb Hat)
    as Hstep. cbn [app] in Hstep.
  specialize (Hstep ltac:(done) (sorted_lt_le _ (steps_sorted ev Hi))).
  rewrite mfold_cons. set (ps := step_points ev offset (st_samples s) (steps ev)) in *.
  assert (selector_matrix ev offset (s :: series) =
    append_series [] (MkSeries (st_Labels s) ps) ++ selector_matrix ev offset series) as Hm.
  { unfold selector_matrix. cbn [omap list_omap]. fold ps. by destruct ps. }
  assert (TotalSamples (append_series [] (MkSeries (st_Labels s) ps)) = length ps) as Hlen.
  { unfold append_series, TotalSamples. destruct ps; simpl; lia. }
  cbv zeta. rewrite Hm, TotalSamples_app, Hlen, fits_add.
  destruct (fits ev st (length ps)) eqn:Hfit.
  - destruct Hstep as (it1 & Hstep & Hd1).
    assert (selector_series ev offset (it, mat) s st =
      Ok ((it1, mat ++ append_series [] (MkSeries (st_Labels s) ps)), more st (length ps))) as ->.
    { unfold selector_series. rewrite mbind_run, Hstep. cbn [res_bind mret].
      unfold append_series. cbn [Points]. destruct ps; [by rewrite app_nil_r|done]. }
    cbn [res_bind].
    specialize (IH it1 (mat ++ append_series [] (MkSeries (st_Labels s) ps)) (more st (length ps))).
    rewrite Hd1, (proj1 (bi_delta_ops it)) in IH. specialize (IH Hd). cbv zeta in IH.
    by rewrite <-(assoc_L (++)), more_more in IH.
  - assert (selector_series ev offset (it, mat) s st = Err (ErrTooManySamples env)) as ->.
    { unfold selector_series. rewrite mbind_run, Hstep. done. }
    done.
Qed.

Lemma eval_VectorSelector_ok (ctx_Err : nat → option goerror) ev v st series st1 :
  checkForSeriesSetExpansion ctx_Err ev v st = Ok (series, st1) →
  Forall (λ s, by_time (st_samples s)) series → (0 ≤ durationMilliseconds (lookbackDelta ev))%Z →
  (0 < interval ev)%Z →
  let mat := selector_matrix ev (v_Offset v) series in
  eval_VectorSelector ctx_Err ev v st =
    if fits ev st1 (TotalSamples mat) then Ok (mat, more st1 (TotalSamples mat))
    else Err (ErrTooManySamples env).
Proof.
  intros Hc Hs Hlb Hi mat. unfold eval_VectorSelector. rewrite mbind_run, Hc. cbn [res_bind].
  pose proof (selector_series_ok ev (v_Offset v) series (NewBuffer (durationMilliseconds (lookbackDelta ev))) [] st1
    Hs Hlb Hi (bi_delta_new _)) as Hok. cbv zeta in Hok. fold mat in Hok. rewrite mbind_run.
  destruct (fits ev st1 (TotalSamples mat)).
  - destruct Hok as (it' & ->). done.
  - by rewrite Hok.
Qed.

(** C23. An instant selector evaluated over a range gives, for every series and step, the
    latest sample at or before the step's time less the offset, unless it is older
    than the lookback or a staleness marker; it adds these samples to those in memory
    and fails exactly when they do not fit. *)
Theorem eval_VectorSelector_spec (ctx_Err : nat → option goerror) ev v st series st1 :
  checkForSeriesSetExpansion ctx_Err ev v st = Ok (series, st1) →
  Forall (λ s, by_time (st_samples s)) series → (0 ≤ durationMilliseconds (lookbackDelta ev))%Z →
  (0 < interval ev)%Z →
  let mat := selector_matrix ev (v_Offset v) series in
  eval_VectorSelector ctx_Err ev v st =
    if fits ev st1 (TotalSamples mat) then Ok (mat, more st1 (TotalSamples mat))
    else Err (ErrTooManySamples env).
Proof. apply eval_VectorSelector_ok. Qed.

(** ** Range selectors *)

Definition num_point (x : Z * sval) : option Point :=
  match x with (t, Num v) => Some (MkPoint t v) | (_, StaleNaN) => None end.

(** The points of a series between two times, both included. *)
Definition window (s : list (Z * sval)) (a b : Z) : list Point :=
  omap num_point (filter (λ x, (a ≤ x.1 ≤ b)%Z) s).

Lemma elem_of_window s a b p : p ∈ window s a b → (a ≤ T p ≤ b)%Z.
Proof.
  intros Hp. apply list_elem_of_omap in Hp as ([t [v|]] & Hx & Hp); [|done].
  apply list_elem_of_filter in Hx as [Hx _]. simpl in Hp. by injection Hp as <-.
Qed.

Lemma window_empty s a b : (b < a)%Z → window s a b = [].
Proof.
  intros Hab. destruct (window s a b) as [|p l] eqn:E; [done|].
  assert (p ∈ window s a b) as Hp by (rewrite E; set_solver). apply elem_of_window in Hp. lia.
Qed.

Lemma filter_range_split (s : list (Z * sval)) a m b :
  by_time s → (a ≤ m + 1)%Z → (m ≤ b)%Z →
  filter (λ x, (a ≤ x.1 ≤ b)%Z) s = filter (λ x, (a ≤ x.1 ≤ m)%Z) s ++ filter (λ x, (m + 1 ≤ x.1 ≤ b)%Z) s.
Proof.
  intros Hs Ham Hmb. induction Hs as [|x s Hs IH Hx]; [done|]. rewrite !filter_cons.
  destruct (decide (x.1 ≤ m)%Z) as [Hm|Hm].
  - rewrite (decide_False (P:=(m + 1 ≤ x.1 ≤ b)%Z)) by lia.
    destruct (decide (a ≤ x.1)%Z) as [Ha|Ha].
    + rewrite !decide_True by lia. by rewrite IH.
    + rewrite !decide_False by lia. done.
  - rewrite (decide_False (P:=(a ≤ x.1 ≤ m)%Z)) by lia.
    assert (filter (λ x, (a ≤ x.1 ≤ m)%Z) s = []) as Hnil.
    { apply filter_none. eapply Forall_impl; [exact Hx|]. intros y Hy. simpl in Hy. lia. }
    rewrite Hnil in IH |- *. cbn [app] in *. destruct (decide (x.1 ≤ b)%Z).
    + rewrite !decide_True by lia. by rewrite IH.
    + rewrite !decide_False by lia. done.
Qed.

Lemma window_split s a m b :
  by_time s → (a ≤ m + 1)%Z → (m ≤ b)%Z → window s a b = window s a m ++ window s (m + 1) b.
Proof. intros. unfold window. by rewrite (filter_range_split s a m b), omap_app. Qed.

Lemma drop_before_app a l1 l2 :
  Forall (λ p, (T p < a)%Z) l1 → Forall (λ p, (a ≤ T p)%Z) l2 → drop_before a (l1 ++ l2) = l2.
Proof.
  intros H1 H2. induction H1 as [|p l1 Hp H1 IH]; cbn [app drop_before].
  - destruct H2 as [|p l2 Hp H2]; [done|]. cbn [drop_before]. by rewrite (proj2 (Z.ltb_ge _ _)).
  - by rewrite (proj2 (Z.ltb_lt _ _)).
Qed.

Lemma drop_before_window s a a' b : by_time s → (a ≤ a')%Z → drop_before a' (window s a b) = window s a' b.
Proof.
  intros Hs Ha. destruct (decide (a' - 1 ≤ b)%Z) as [Hb|Hb].
  - rewrite (window_split s a (a' - 1) b) by (done || lia). replace (a' - 1 + 1)%Z with a' by lia.
    apply drop_before_app; apply Forall_forall; intros p Hp; apply elem_of_window in Hp; lia.
  - rewrite (window_empty s a' b) by lia. rewrite <-(app_nil_r (window s a b)).
    apply drop_before_app; [|constructor]. apply Forall_forall. intros p Hp. apply elem_of_window in Hp. lia.
Qed.

(** What is kept from the window of an earlier step. *)
Lemma retain_window s mint0 maxt0 mint :
  by_time s → (mint0 ≤ mint)%Z →
  ∃ mint1, retain mint (window s mint0 maxt0) = (window s mint maxt0, mint1) ∧
    window s mint1 maxt0 = [] ∧ (mint ≤ mint1 ≤ Z.max mint (maxt0 + 1))%Z.
Proof.
  intros Hs Hm. unfold retain. destruct (last (window s mint0 maxt0)) as [l|] eqn:Hl.
  - pose proof (last_Some_elem_of _ _ Hl) as Hin. apply elem_of_window in Hin.
    apply last_Some in Hl as [w Hw]. destruct (Z.leb_spec mint (T l)) as [Hle|Hgt].
    + exists (T l + 1)%Z. rewrite drop_before_window by done. split; [done|split; [|lia]].
      rewrite (window_split s mint0 (T l) maxt0) in Hw by (done || lia).
      destruct (last (window s (T l + 1) maxt0)) as [q|] eqn:Hq.
      * apply last_Some in Hq as [w' Hw']. rewrite Hw', (assoc_L (++)) in Hw.
        apply app_inj_tail in Hw as [_ ->].
        assert (l ∈ window s (T l + 1) maxt0) as Hc by (rewrite Hw'; set_solver).
        apply elem_of_window in Hc. lia.
      * by apply last_None in Hq.
    + exists mint.
      assert (window s mint maxt0 = []) as ->; [|by split_and!; [..|lia]].
      rewrite (window_split s mint0 (T l) maxt0) in Hw by (done || lia).
      destruct (window s mint maxt0) as [|q k] eqn:Hk; [done|].
      assert (q ∈ window s mint maxt0) as Hq by (rewrite Hk; set_solver).
      pose proof (elem_of_window _ _ _ _ Hq) as Hqt.
      rewrite (window_split s (T l + 1) (mint - 1) maxt0) in Hw by (done || lia).
      replace (mint - 1 + 1)%Z with mint in Hw by lia. rewrite Hk in Hw.
      destruct (last (q :: k)) as [z|] eqn:Hz; [|by apply last_None in Hz].
      pose proof (last_Some_elem_of _ _ Hz) as Hzin. rewrite <-Hk in Hzin. apply elem_of_window in Hzin.
      apply last_Some in Hz as [k' Hz]. rewrite Hz, !(assoc_L (++)) in Hw. apply app_inj_tail in Hw as [_ ->]. lia.
  - apply last_None in Hl. exists mint.
    assert (window s mint maxt0 = []) as Hnil.
    { rewrite <-(drop_before_window s mint0 mint maxt0) by done. by rewrite Hl. }
    rewrite Hnil. split_and!; [done..|lia|lia].
Qed.

Lemma append_point_ok ev out t v st :
  append_point ev out t v st = if (currentSamples st <? maxSamples ev)%Z
    then Ok (out ++ [MkPoint t v], more st 1) else Err (ErrTooManySamples env).
Proof.
  unfold append_point. rewrite mbind_run. cbn [room get_samples mbind_ mret res_bind]. by destruct (_ <? _)%Z.
Qed.

(** Reading the buffer. *)
Lemma buffer_steps_ok ev mint out l st :
  let new := omap num_point (filter (λ x, (mint ≤ x.1)%Z) l) in
  mfold (buffer_step ev mint) out l st =
    if fits ev st (length new) then Ok (out ++ new, more st (length new)) else Err (ErrTooManySamples env).
Proof.
  revert out st. induction l as [|[t v] l IH]; intros out st; cbv zeta.
  { cbn. by rewrite more_0, app_nil_r. }
  rewrite mfold_cons, filter_cons. cbn [fst]. destruct v as [v|].
  2: { change (buffer_step ev mint out (t, StaleNaN) st) with (Ok (out, st)). cbn [res_bind].
       rewrite IH. by case_decide. }
  cbn [buffer_step]. destruct (Z.leb_spec mint t) as [Hle|Hgt].
  2: { rewrite decide_False by lia. cbn [mret res_bind]. by rewrite IH. }
  rewrite decide_True by lia. cbn [omap list_omap num_point].
  rewrite append_point_ok.
  change (length (MkPoint t v :: ?l)) with (1 + length l). rewrite fits_add, fits_1.
  destruct (currentSamples st <? maxSamples ev)%Z; [|done]. cbn [res_bind andb].
  rewrite IH. cbv zeta. by rewrite more_more, <-(assoc_L (++)).
Qed.

(** The samples at one time. *)
Lemma window_at s t :
  by_time s → window s t t =
    match head (filter (λ x, (t ≤ x.1)%Z) s) with
    | Some (u, Num v) => if (u =? t)%Z then [MkPoint u v] else []
    | _ => []
    end.
Proof.
  unfold window. induction 1 as [|[u v] s Hs IH Hx]; [done|]. rewrite !filter_cons. cbn [fst].
  assert (filter (λ x, (t ≤ x.1 ≤ t)%Z) s = [] ∨ (u < t)%Z) as Hl.
  { destruct (decide (u < t)%Z) as [|Hu]; [by right|left]. apply filter_none. eapply Forall_impl; [exact Hx|].
    intros y Hy. simpl in Hy. lia. }
  destruct (decide (t ≤ u)%Z) as [Hle|Hgt].
  - destruct Hl as [Hl|]; [|lia]. cbn [head]. case_decide as Heq.
    + rewrite (proj2 (Z.eqb_eq u t)) by lia. cbn [omap list_omap num_point]. rewrite Hl. by destruct v.
    + rewrite (proj2 (Z.eqb_neq u t)) by lia. rewrite Hl. by destruct v.
  - rewrite decide_False by lia. done.
Qed.

Lemma omap_none {A B} (f : A → option B) (l : list A) : Forall (λ x, f x = None) l → omap f l = [].
Proof. induction 1 as [|x l Hx Hl IH]; [done|]. cbn [omap list_omap]. by rewrite Hx. Qed.

Lemma filter_filter_range (s : list (Z * sval)) a b :
  filter (λ x, (a ≤ x.1)%Z) (filter (λ x, (x.1 < b)%Z) s) = filter (λ x, (a ≤ x.1 ≤ b - 1)%Z) s.
Proof. rewrite list_filter_filter. apply list_filter_iff. intros x. lia. Qed.

(** The part of the window that is in the buffer. *)
Lemma buffer_window it s d mint1 bound maxt :
  bi_at it s d (Some maxt) → (maxt - d ≤ bound)%Z → window s mint1 (bound - 1) = [] →
  omap num_point (filter (λ x, (mint1 ≤ x.1)%Z) (Buffer it)) = window s mint1 (maxt - 1).
Proof.
  intros Hat Hd Hempty. destruct (Buffer_law it s d maxt Hat) as (pre & Hpre & Hlt).
  unfold window. rewrite <-filter_filter_range, Hpre, filter_app, omap_app.
  rewrite (omap_none num_point (filter _ pre)); [done|].
  apply Forall_forall. intros x [Hx Hin]%list_elem_of_filter.
  rewrite Forall_forall in Hlt. pose proof (Hlt _ Hin) as Hxd. simpl in Hxd.
  assert (x ∈ filter (λ x, (x.1 < maxt)%Z) s) as Hins by (rewrite Hpre; set_solver).
  apply list_elem_of_filter in Hins as [_ Hins].
  destruct (num_point x) as [p|] eqn:Hp; [|done].
  assert (p ∈ window s mint1 (bound - 1)) as Hc; [|rewrite Hempty in Hc; by apply not_elem_of_nil in Hc].
  apply list_elem_of_omap. exists x. split; [|done]. apply list_elem_of_filter. split; [lia|done].
Qed.

(** One step of a range selector: given the window of an earlier step and an iterator
    that buffers at least what is new, the window of this step. *)
Lemma matrixIterSlice_ok ev it s d o mint0 maxt0 mint maxt st :
  by_time s → bi_at it s d o → (∀ t0, o = Some t0 → (t0 ≤ maxt)%Z) →
  (mint0 ≤ mint ≤ maxt)%Z → (maxt0 < maxt)%Z → (maxt - d ≤ Z.max mint (maxt0 + 1))%Z →
  let new := window s (Z.max mint (maxt0 + 1)) maxt in
  if fits ev st (length new) then
    ∃ it', matrixIterSlice ev it mint maxt (window s mint0 maxt0) st
      = Ok ((it', window s mint maxt), more st (length new))
      ∧ bi_at it' s d (Some maxt) ∧ bi_delta it' = bi_delta it
  else matrixIterSlice ev it mint maxt (window s mint0 maxt0) st = Err (ErrTooManySamples env).
Proof.
  intros Hs Hat Ho Hm Hmax Hd new. set (bound := Z.max mint (maxt0 + 1)) in *.
  destruct (retain_window s mint0 maxt0 mint Hs ltac:(lia)) as (mint1 & Hret & Hnone & Hm1). fold bound in Hm1.
  destruct (Seek_law it s d o maxt Hs Hat Ho) as (Hat' & Hok & Herr).
  pose proof (proj1 (proj2 (bi_delta_ops it)) maxt) as Hdelta.
  assert (window s mint1 (bound - 1) = []) as Hempty.
  { destruct (decide (maxt0 + 1 ≤ mint)%Z) as [|]; [apply window_empty; lia|].
    by replace (bound - 1)%Z with maxt0 by lia. }
  assert (window s mint1 (maxt - 1) ++ window s maxt maxt = new) as Hnew.
  { pose proof (window_split s mint1 (maxt - 1) maxt Hs ltac:(lia) ltac:(lia)) as Hsp.
    replace (maxt - 1 + 1)%Z with maxt in Hsp by lia. rewrite <-Hsp. unfold new.
    rewrite (window_split s mint1 (bound - 1) maxt) by (done || lia).
    rewrite Hempty. cbn [app]. f_equal. lia. }
  assert (window s mint maxt = window s mint maxt0 ++ new) as Hwin.
  { unfold new. destruct (decide (maxt0 + 1 ≤ mint)%Z).
    - rewrite (window_empty s mint maxt0) by lia. by replace bound with mint by lia.
    - replace bound with (maxt0 + 1)%Z by lia. apply window_split; [done|lia..]. }
  unfold matrixIterSlice. rewrite Hret.
  destruct (BSeek it maxt) as [it' ok]. cbn [fst snd] in *. subst ok.
  assert ((if existsb (λ x, (maxt <=? x.1)%Z) s then None else BErr it') = None) as ->
    by (destruct (existsb _ s); done).
  pose proof (buffer_steps_ok ev mint1 (window s mint maxt0) (Buffer it') st) as Hbuf. cbv zeta in Hbuf.
  rewrite (buffer_window it' s d mint1 bound maxt Hat' Hd Hempty) in Hbuf.
  rewrite mbind_run, Hbuf. set (w1 := window s mint1 (maxt - 1)) in *.
  assert (length new = length w1 + length (window s maxt maxt)) as Hlen by (by rewrite <-Hnew, length_app).
  destruct (fits ev st (length w1)) eqn:Hf1.
  2: { by rewrite Hlen, fits_add, Hf1. }
  cbn [res_bind]. rewrite (window_at s maxt Hs) in Hnew, Hlen.
  assert (head (filter (λ x, (maxt ≤ x.1)%Z) s) =
    if existsb (λ x, (maxt <=? x.1)%Z) s then Some (Values it') else None) as Hhead.
  { destruct (existsb _ s) eqn:He; [by apply (Values_law it' s d maxt)|].
    rewrite filter_none; [done|]. apply existsb_none in He. eapply Forall_impl; [exact He|].
    intros x Hx. simpl in Hx. lia. }
  rewrite Hhead in Hnew, Hlen. rewrite Hwin, <-Hnew.
  assert (∀ at1, at1 = [] → new = w1 ++ at1 → if fits ev st (length (w1 ++ at1)) then
    ∃ it2, mret (it', window s mint maxt0 ++ w1) (more st (length w1)) =
      Ok ((it2, window s mint maxt0 ++ w1 ++ at1), more st (length (w1 ++ at1))) ∧
      bi_at it2 s d (Some maxt) ∧ bi_delta it2 = bi_delta it
    else mret (it', window s mint maxt0 ++ w1) (more st (length w1)) = Err (ErrTooManySamples env)) as Hdone.
  { intros at1 -> _. rewrite app_nil_r, Hf1. by exists it'. }
  destruct (existsb (λ x, (maxt <=? x.1)%Z) s); [|by apply Hdone].
  destruct (Values it') as [t [v|]]; [|by apply Hdone].
  destruct (t =? maxt)%Z; [|by apply Hdone].
  rewrite mbind_run, append_point_ok. rewrite length_app, fits_add, Hf1. cbn [length]. rewrite fits_1.
  destruct (currentSamples (more st (length w1)) <? maxSamples ev)%Z; [|done].
  exists it'. split; [|done]. cbn [res_bind mret andb]. unfold mret. by rewrite <-(assoc_L (++)), more_more.
Qed.

End selectors.

(** ** Calls over ranges, with the windows recomputed

    The reference: no iterator, no points kept from step to step; every step looks its
    window up in the series and counts what earlier windows do not have. *)
Section windows.
Context {plabels : PromLabels} {R : Type}.
Context (ctx_Err : nat → option goerror).

(** Time of the end of the last window, helper, points of the result. *)
Definition window_state : Type := option Z * helper (R:=R) * list Point.

Definition count_samples (ev : evaluator) (n : nat) : M unit :=
  λ st, if fits ev st n then Ok (tt, more st n) else Err (ErrTooManySamples env).

Definition fresh_from (mint : Z) (prev : option Z) : Z :=
  match prev with Some maxt0 => Z.max mint (maxt0 + 1) | None => mint end.

Definition window_step (ev : evaluator) (call : FunctionCall (R:=R)) (args : list expr) (idx : nat)
    (others : list (list Series)) (metric : labels) (offset selRange : Z) (s : list (Z * sval))
    (acc : window_state) (x : nat * Z) : M window_state :=
  let '(prev, enh, points) := acc in
  let '(step, ts) := x in
  let! _ := lift (call_args idx 0 (VMatrix []) others step) in
  let maxt := (ts - offset)%Z in
  let mint := (maxt - selRange)%Z in
  let! _ := count_samples ev (length (window s (fresh_from mint prev) maxt)) in
  match window s mint maxt with
  | [] => mret (Some maxt, enh, points)
  | w =>
      let! vals := lift (call_args idx 0 (VMatrix [MkSeries metric w]) others step) in
      let! (outVec, enh) := lift (call vals args (set_ts enh ts)) in
      mret (Some maxt, set_out enh [],
            match outVec with s :: _ => points ++ [MkPoint ts (sV s)] | [] => points end)
  end.

Definition window_series (ev : evaluator) (call : FunctionCall (R:=R)) (args : list expr) (idx : nat)
    (others : list (list Series)) (offset selRange : Z) (acc : helper (R:=R) * list Series) (s : stored)
    : M (helper (R:=R) * list Series) :=
  let '(enh, mat) := acc in
  let! (_, enh, points) := mfold (window_step ev call args idx others (st_Labels s) offset selRange (st_samples s))
    (None, enh, []) (imap pair (steps ev)) in
  match points with
  | [] => mret (enh, mat)
  | points =>
      let! ok := room ev in
      if ok then
        add_samples (Z.of_nat (length points)) ;;!
        mret (enh, mat ++ [MkSeries (plain_dropMetricName (st_Labels s)) points])
      else ErrTooMany
  end.

Definition window_matrix_call (ev : evaluator) (name : string) (call : FunctionCall (R:=R)) (args : list expr)
    (idx : nat) (vs : vsel) (Range : Z) (others : list (list Series)) : M (list Series) :=
  let! series := checkForSeriesSetExpansion ctx_Err ev vs in
  let! (_, mat) := mfold (window_series ev call args idx others
    (durationMilliseconds (v_Offset vs)) (durationMilliseconds Range)) (new_helper, []) series in
  if decide (name = "absent_over_time") then absent_matrix ev args mat
  else if Matrix_ContainsSameLabelset mat then same_labelset_error
  else mret mat.

Context {buf : BufferedIterator}.

Definition spaced (i : Z) (prev : option Z) (l : list (nat * Z)) : Prop :=
  match l with
  | [] => True
  | x :: _ => match prev with Some p => x.2 = p + i | None => True end
  end%Z.

Fixpoint all_spaced (i : Z) (l : list (nat * Z)) : Prop :=
  match l with [] => True | x :: l => spaced i (Some x.2) l ∧ all_spaced i l end.

(** What the iterator and the kept points are after the window that ends at [prev]. *)
Definition window_inv (s : list (Z * sval)) (selRange stepRange : Z) (prev : option Z) (c : call_state (R:=R)) : Prop :=
  bi_delta (c_it c) = selRange ∧
  ∃ d, bi_at (c_it c) s d prev ∧ (d = selRange ∨ d = stepRange ∧ prev ≠ None) ∧
    c_window c = match prev with Some maxt => window s (maxt - selRange) maxt | None => [] end.

Lemma window_inv_slice ev s selRange prev c maxt st :
  by_time s → (0 ≤ selRange)%Z → (0 < interval ev)%Z →
  (∀ p, prev = Some p → maxt = p + interval ev)%Z →
  let stepRange := if (interval ev <? selRange)%Z then interval ev else selRange in
  window_inv s selRange stepRange prev c →
  let mint := (maxt - selRange)%Z in
  let n := length (window s (fresh_from mint prev) maxt) in
  if fits ev st n then
    ∃ it' d, matrixIterSlice ev (c_it c) mint maxt (c_window c) st = Ok ((it', window s mint maxt), more st n) ∧
      bi_at it' s d (Some maxt) ∧ (d = selRange ∨ d = stepRange) ∧ bi_delta it' = selRange
  else matrixIterSlice ev (c_it c) mint maxt (c_window c) st = Err (ErrTooManySamples env).
Proof.
  intros Hs Hr Hi Hp stepRange (Hdel & d & Hat & Hd & Hw) mint.
  assert (∃ mint0 maxt0, c_window c = window s mint0 maxt0 ∧ (mint0 ≤ mint)%Z ∧ (maxt0 < maxt)%Z ∧
    fresh_from mint prev = Z.max mint (maxt0 + 1) ∧ (maxt - d ≤ Z.max mint (maxt0 + 1))%Z) as
    (mint0 & maxt0 & Hw' & Hm & Hlt & Hfresh & Hbound).
  { destruct prev as [p|].
    - specialize (Hp p eq_refl). exists (p - selRange)%Z, p. unfold stepRange, mint in *. cbn [fresh_from].
      destruct (Z.ltb_spec (interval ev) selRange); split_and!; try done; lia.
    - exists mint, (mint - 1)%Z. rewrite Hw, window_empty by lia. cbn [fresh_from].
      destruct Hd as [->|[_ ?]]; [|done]. split_and!; try done; lia. }
  assert (∀ t0, prev = Some t0 → (t0 ≤ maxt)%Z) as Ho by (intros t0 ->; specialize (Hp _ eq_refl); lia).
  pose proof (matrixIterSlice_ok ev (c_it c) s d prev mint0 maxt0 mint maxt st Hs Hat Ho
    ltac:(lia) Hlt Hbound) as Hok.
  cbv zeta in *. rewrite <-Hfresh, <-Hw' in Hok. destruct (fits _ _ _); [|done].
  destruct Hok as (it' & Hrun & Hat' & Hdel'). exists it', d. rewrite Hrun. split_and!; try done; [|congruence].
  destruct Hd as [->|[-> _]]; auto.
Qed.

Lemma lift_run {A B} (r : res A) (f : A → M B) st : mbind_ (lift r) f st = let* a := r in f a st.
Proof. by destruct r. Qed.

(** Both ways to make a step agree, and the invariant is kept. *)
Lemma call_step_ok ev call args idx others metric offset selRange s prev c step ts st :
  by_time s → (0 ≤ selRange)%Z → (0 < interval ev)%Z →
  (∀ p, prev = Some p → ts - offset = p + interval ev)%Z →
  let stepRange := if (interval ev <? selRange)%Z then interval ev else selRange in
  window_inv s selRange stepRange prev c →
  let run := call_step ev call args idx others metric offset selRange stepRange c (step, ts) st in
  match window_step ev call args idx others metric offset selRange s (prev, c_enh c, c_points c) (step, ts) st with
  | Ok ((prev', enh, ps), st') => ∃ c', run = Ok (c', st') ∧ c_enh c' = enh ∧ c_points c' = ps ∧
      prev' = Some (ts - offset)%Z ∧ window_inv s selRange stepRange prev' c'
  | Err e => run = Err e
  | Panic m => run = Panic m
  end.
Proof.
  intros Hs Hr Hi Hp stepRange Hinv. cbv zeta.
  pose proof (window_inv_slice ev s selRange prev c (ts - offset)%Z st Hs Hr Hi Hp Hinv) as Hok.
  cbv zeta in Hok. fold stepRange in Hok. unfold window_step, call_step. rewrite !lift_run.
  destruct (call_args idx 0 (VMatrix []) others step) as [l|e|m]; cbn [res_bind]; [|done..].
  set (mint := (ts - offset - selRange)%Z) in *. set (n := length (window s (fresh_from mint prev) (ts - offset))) in *.
  rewrite !mbind_run. unfold count_samples. destruct (fits ev st n) eqn:Hfit; [|by rewrite Hok].
  destruct Hok as (it' & d & -> & Hat' & Hd & Hdel). cbn [res_bind].
  destruct (window s mint (ts - offset)) as [|p w] eqn:Hw.
  - cbn [mret]. unfold mret. eexists. split; [reflexivity|]. do 3 (split; [done|]).
    split; [done|]. exists d. split; [done|]. split; [|by fold mint].
    by destruct Hd as [->| ->]; [left|right].
  - rewrite !lift_run. destruct (call_args idx 0 (VMatrix [MkSeries metric (p :: w)]) others step) as [vals|e|m];
      cbn [res_bind]; [|done..].
    rewrite !lift_run. destruct (call vals args (set_ts (c_enh c) ts)) as [[outVec enh]|e|m]; cbn [res_bind]; [|done..].
    unfold mret. eexists. split; [reflexivity|]. cbn [c_enh c_points]. do 3 (split; [done|]).
    split; cbn [c_it c_window].
    + by rewrite (proj2 (proj2 (bi_delta_ops it'))).
    + exists (Z.min d stepRange). split_and!; [by apply ReduceDelta_law| |by fold mint].
      right. split; [|done]. unfold stepRange in *. destruct Hd as [->| ->]; destruct (Z.ltb_spec (interval ev) selRange); lia.
Qed.

Lemma call_steps_ok ev call args idx others metric offset selRange s prev c l st :
  by_time s → (0 ≤ selRange)%Z → (0 < interval ev)%Z →
  all_spaced (interval ev) l → spaced (interval ev) ((λ p, p + offset)%Z <$> prev) l →
  let stepRange := if (interval ev <? selRange)%Z then interval ev else selRange in
  window_inv s selRange stepRange prev c →
  let run := mfold (call_step ev call args idx others metric offset selRange stepRange) c l st in
  match mfold (window_step ev call args idx others metric offset selRange s) (prev, c_enh c, c_points c) l st with
  | Ok ((_, enh, ps), st') => ∃ c', run = Ok (c', st') ∧ c_enh c' = enh ∧ c_points c' = ps ∧
      bi_delta (c_it c') = selRange
  | Err e => run = Err e
  | Panic m => run = Panic m
  end.
Proof.
  intros Hs Hr Hi. revert prev c st. induction l as [|[step ts] l IH]; intros prev c st Hl Hsp stepRange Hinv; cbv zeta.
  { cbn. exists c. by destruct Hinv. }
  destruct Hl as [Hsp' Hl]. rewrite !mfold_cons.
  assert (∀ p, prev = Some p → ts - offset = p + interval ev)%Z as Hp.
  { intros p ->. cbn in Hsp. lia. }
  pose proof (call_step_ok ev call args idx others metric offset selRange s prev c step ts st Hs Hr Hi Hp Hinv) as Hok.
  cbv zeta in Hok. fold stepRange in Hok.
  destruct (window_step _ _ _ _ _ _ _ _ _ _ _ _) as [[[[prev' enh] ps] st']|e|m]; cbn [res_bind].
  - destruct Hok as (c' & -> & <- & <- & -> & Hinv'). cbn [res_bind].
    apply (IH _ c' st' Hl); [|done]. cbn. by replace (ts - offset + offset)%Z with ts by lia.
  - by rewrite Hok.
  - by rewrite Hok.
Qed.

Lemma imap_pair_spaced fuel n ts e i :
  all_spaced i (imap (λ k x, (n + k, x)) (steps_from fuel ts e i)) ∧
  spaced i (Some (ts - i)%Z) (imap (λ k x, (n + k, x)) (steps_from fuel ts e i)).
Proof.
  revert n ts. induction fuel as [|fuel IH]; intros n ts; cbn [steps_from]; [done|].
  destruct (ts <=? e)%Z; [|done].
  destruct (IH (S n) (ts + i)%Z) as [H1 H2].
  assert (imap ((λ k x, (n + k, x)) ∘ S) (steps_from fuel (ts + i)%Z e i)
    = imap (λ k x, (S n + k, x)) (steps_from fuel (ts + i)%Z e i)) as Heq.
  { apply imap_ext. intros k x _. simpl. f_equal. lia. }
  rewrite imap_cons, Heq.
  cbn [all_spaced]. replace (ts + i - i)%Z with ts in H2 by lia. split_and!; [done..|]. cbn. lia.
Qed.

Lemma steps_spaced ev : all_spaced (interval ev) (imap pair (steps ev)) ∧ spaced (interval ev) None (imap pair (steps ev)).
Proof.
  split; [apply (imap_pair_spaced _ 0)|]. by destruct (imap pair (steps ev)).
Qed.

Lemma one_series_ok ev call args idx others offset selRange s it enh mat st :
  by_time (st_samples s) → (0 ≤ selRange)%Z → (0 < interval ev)%Z → bi_delta it = selRange →
  let stepRange := if (interval ev <? selRange)%Z then interval ev else selRange in
  ∀ run, run = call_series ev call args idx others offset selRange stepRange (it, enh, mat) s st →
  match window_series ev call args idx others offset selRange (enh, mat) s st with
  | Ok ((enh, mat), st') => ∃ it', run = Ok ((it', enh, mat), st') ∧ bi_delta it' = selRange
  | Err e => run = Err e
  | Panic m => run = Panic m
  end.
Proof.
  intros Hs Hr Hi Hdel stepRange run ->. destruct (steps_spaced ev) as [Hl Hsp].
  set (c := MkCall (Reset it (st_samples s)) [] enh []).
  assert (window_inv (st_samples s) selRange stepRange None c) as Hinv.
  { split; cbn [c c_it c_window]; [by rewrite (proj1 (bi_delta_ops it))|].
    exists selRange. pose proof (Reset_law it (st_samples s)) as Hat. rewrite Hdel in Hat. auto. }
  pose proof (call_steps_ok ev call args idx others (st_Labels s) offset selRange (st_samples s) None c
    (imap pair (steps ev)) st Hs Hr Hi Hl Hsp Hinv) as Hok.
  cbv zeta in Hok. fold stepRange in Hok. change (c_enh c) with enh in Hok. change (c_points c) with (@nil Point) in Hok.
  unfold call_series, window_series. rewrite !mbind_run.
  fold c. destruct (mfold (window_step _ _ _ _ _ _ _ _ _) _ _ _) as [[[[prev' enh'] ps] st']|e|m]; cbn [res_bind].
  2,3: by rewrite Hok.
  destruct Hok as (c' & -> & <- & <- & Hdel'). cbn [res_bind].
  destruct (c_points c') as [|p ps]; [by exists (c_it c')|].
  rewrite !mbind_run. cbn [room get_samples mbind_ mret res_bind].
  destruct (currentSamples st' <? maxSamples ev)%Z; [|done]. by exists (c_it c').
Qed.

Lemma call_series_ok ev call args idx others offset selRange series it enh mat st :
  Forall (λ s, by_time (st_samples s)) series → (0 ≤ selRange)%Z → (0 < interval ev)%Z → bi_delta it = selRange →
  let stepRange := if (interval ev <? selRange)%Z then interval ev else selRange in
  let run := mfold (call_series ev call args idx others offset selRange stepRange) (it, enh, mat) series st in
  match mfold (window_series ev call args idx others offset selRange) (enh, mat) series st with
  | Ok ((enh, mat), st') => ∃ it', run = Ok ((it', enh, mat), st')
  | Err e => run = Err e
  | Panic m => run = Panic m
  end.
Proof.
  intros Hs Hr Hi. revert it enh mat st.
  induction Hs as [|s series Hs Hss IH]; intros it enh mat st Hdel; cbv zeta.
  { cbn. by exists it. }
  rewrite !mfold_cons.
  pose proof (one_series_ok ev call args idx others offset selRange s it enh mat st Hs Hr Hi Hdel _ eq_refl) as Hok.
  destruct (window_series ev call args idx others offset selRange (enh, mat) s st) as [[[enh' mat'] st']|e|m];
    cbn [res_bind].
  - destruct Hok as (it' & -> & Hdel'). cbn [res_bind]. by apply IH.
  - by rewrite Hok.
  - by rewrite Hok.
Qed.

(** C14. Calling a function on the ranges of a selector: the iterator that buffers only what
    is new and the points kept from step to step give at every step the same window of
    the series as looking it up, and count the same samples. *)
Theorem eval_matrix_call_spec ev name call args idx vs Range others st :
  (∀ series st1, checkForSeriesSetExpansion ctx_Err ev vs st = Ok (series, st1) →
    Forall (λ s, by_time (st_samples s)) series) →
  (0 ≤ durationMilliseconds Range)%Z → (0 < interval ev)%Z →
  eval_matrix_call ctx_Err ev name call args idx vs Range others st
  = window_matrix_call ev name call args idx vs Range others st.
Proof.
  intros Hs Hr Hi. unfold eval_matrix_call, window_matrix_call. rewrite !mbind_run.
  destruct (checkForSeriesSetExpansion ctx_Err ev vs st) as [[series st1]|e|m]; cbn [res_bind]; [|done..].
  specialize (Hs series st1 eq_refl). cbv zeta. rewrite !mbind_run.
  pose proof (call_series_ok ev call args idx others (durationMilliseconds (v_Offset vs)) (durationMilliseconds Range)
    series (NewBuffer (durationMilliseconds Range)) new_helper [] st1 Hs Hr Hi (bi_delta_new _)) as Hok.
  cbv zeta in Hok. unfold helper in *.
  match type of Hok with match ?run with _ => _ end => destruct run as [[[enh mat] st']|e|m] end; cbn [res_bind].
  - by destruct Hok as (it' & ->).
  - by rewrite Hok.
  - by rewrite Hok.
Qed.

End windows.

(** ** Examples *)

Module Toy.

Definition samples : list (Z * sval) := [(0, Num f_one); (60000, Num f_zero); (90000, StaleNaN); (120000, Num f_one)]%Z.
Definition series : list stored := [MkStored {[ "job" := "a" ]} samples].
Definition selector : vsel := MkVsel 7 30000000000 [] (Some series).
(** Two steps a minute apart, a lookback of a minute. *)
Definition ev : evaluator := MkEv 60000 120000 60000 100 0 60000000000 None ∅.
Definition st : state := MkState 0 0 ∅.
Definition never (n : nat) : option goerror := None.

Lemma sorted : Forall (λ s, by_time (st_samples s)) series.
Proof. by repeat constructor. Qed.

(** The counter of the points of a range. *)
Definition count_call : FunctionCall (R:=unit) := λ vals args enh,
  match vals with
  | VMatrix [s] :: _ => Ok ([sample_of ∅ (float_of_Z (Z.of_nat (length (Points s))))], enh)
  | _ => Panic "no range"
  end.

End Toy.

Lemma eval_VectorSelector_spec_witness :
  let mat := selector_matrix Toy.ev (v_Offset Toy.selector) Toy.series in
  eval_VectorSelector Toy.never Toy.ev Toy.selector Toy.st =
    if fits Toy.ev Toy.st (TotalSamples mat) then Ok (mat, more Toy.st (TotalSamples mat))
    else Err (ErrTooManySamples env).
Proof.
  apply (eval_VectorSelector_spec Toy.never Toy.ev Toy.selector Toy.st Toy.series Toy.st);
    [reflexivity|exact Toy.sorted|vm_compute; discriminate|vm_compute; reflexivity].
Defined.

Lemma eval_matrix_call_spec_witness :
  eval_matrix_call Toy.never Toy.ev "count_over_time" Toy.count_call [] 0 Toy.selector 90000000000 [[]] Toy.st
  = window_matrix_call Toy.never Toy.ev "count_over_time" Toy.count_call [] 0 Toy.selector 90000000000 [[]] Toy.st.
Proof.
  apply (eval_matrix_call_spec Toy.never Toy.ev "count_over_time" Toy.count_call [] 0 Toy.selector 90000000000 [[]] Toy.st);
    [intros series st1 [= <- _]; exact Toy.sorted|vm_compute; discriminate|vm_compute; reflexivity].
Defined.

End Sel.
