(* ===== verification/RangeEval.v ===== *)
(** * Evaluation at every step

    Theorems about [rangeEval] of [Evaluator]: it consumes its input series from the
    front, and this is the same as looking every input up at the time of the step; the
    result holds at each step what the function gave there. *)
From S2P Require Import Prelude Float PromLabels PromValue Quantile PromAst Functions VectorOps Aggregation Evaluator Selectors.

Module Rng.
Import Val Ast Qnt Fn Vop Agg Eval Sel.

(** ** Looking the inputs up *)

Notation by_T := (StronglySorted (λ p q : Point, (T p < T q)%Z)).

Definition point_at (l : list Point) (ts : Z) : option Point := head (filter (λ p, T p = ts) l).

Definition vector_at (m : list Series) (ts : Z) : list Sample :=
  omap (λ s, p ← point_at (Points s) ts; Some (MkSample p (m_Metric s))) m.

(** Points at steps only, in order: what evaluating an expression gives. *)
Definition aligned (ev : evaluator) (m : list Series) : Prop :=
  Forall (λ s, by_T (Points s) ∧ Forall (λ p, T p ∈ steps ev) (Points s)) m.

(** The part of the series that belongs to the steps [l]. *)
Definition rest_series (l : list Z) (s : Series) : Series :=
  MkSeries (m_Metric s) (filter (λ p, T p ∈ l) (Points s)).
Definition rest_matrix (l : list Z) (m : list Series) : list Series := rest_series l <$> m.

Lemma filter_ext_in {A} (P Q : A → Prop) `{!∀ x, Decision (P x)} `{!∀ x, Decision (Q x)} l :
  Forall (λ x, P x ↔ Q x) l → filter P l = filter Q l.
Proof.
  induction 1 as [|x l Hx Hl IH]; [done|]. rewrite !filter_cons.
  destruct (decide (P x)), (decide (Q x)); (by rewrite IH) || tauto.
Qed.

Lemma rest_points ts l points :
  StronglySorted Z.lt (ts :: l) → by_T points →
  filter (λ p, T p ∈ ts :: l) points =
    match point_at points ts with
    | Some p => p :: filter (λ p, T p ∈ l) points
    | None => filter (λ p, T p ∈ l) points
    end ∧ (∀ p, point_at points ts = Some p → T p = ts).
Proof.
  intros Hl Hp. apply StronglySorted_inv in Hl as [_ Hl]. rewrite Forall_forall in Hl.
  assert (ts ∉ l) as Hts by (intros Hin; specialize (Hl _ Hin); lia).
  unfold point_at. induction Hp as [|p points Hp IH Hlt]; [done|]. rewrite !filter_cons.
  destruct (decide (T p = ts)) as [Heq|Hne].
  - rewrite (decide_True (P:=T p ∈ ts :: l)) by (rewrite Heq; set_solver).
    rewrite (decide_False (P:=T p ∈ l)) by (by rewrite Heq). cbn [head]. split; [|by intros ? [= <-]].
    f_equal. apply filter_ext_in. eapply Forall_impl; [exact Hlt|]. intros q Hq. cbn in Hq.
    rewrite elem_of_cons. split; [|by right]. intros [Hqt|]; [lia|done].
  - destruct IH as [IH IH2]. split; [|done]. destruct (decide (T p ∈ l)) as [Hin|Hnin].
    + rewrite decide_True by set_solver. rewrite IH.
      assert (filter (λ q, T q = ts) points = []) as ->; [|done].
      apply filter_none. eapply Forall_impl; [exact Hlt|]. intros q Hq. cbn in Hq. specialize (Hl _ Hin). lia.
    + rewrite decide_False; [done|]. rewrite elem_of_cons. by intros [].
Qed.

Section pointwise.
Context {grange : GoMapRange} {plabels : PromLabels} {R : Type}.
Context (ctx_Err : nat → option goerror).
Implicit Types (ev : evaluator) (st : state).

(** One step, the inputs looked up and the samples counted at once. *)
Definition pointwise_call (ev : evaluator) (f : step_fun (R:=R)) (r : range_state (R:=R)) (ts : Z)
    : M (list Sample * range_state (R:=R)) :=
  contextDone ctx_Err "expression evaluation" ;;!
  put_samples (tempNumSamples r) ;;!
  let args := (λ m, vector_at m ts) <$> r_matrixes r in
  count_samples ev (sum_list (length <$> args)) ;;!
  let! (result, enh) := f (VVector <$> args) (set_ts (r_enh r) ts) in
  if Vector_ContainsSameLabelset result then same_labelset_error
  else
    let n := Z.of_nat (length result) in
    add_samples n ;;!
    let! total := get_samples in
    if (maxSamples ev <? total)%Z then ErrTooMany
    else mret (result, MkRange (r_matrixes r) (set_out enh []) (r_seriess r) (tempNumSamples r + n)).

Definition pointwise_step (ev : evaluator) (f : step_fun (R:=R)) (r : range_state (R:=R)) (ts : Z)
    : M (range_state (R:=R)) :=
  let! (result, r) := pointwise_call ev f r ts in
  mret (MkRange (r_matrixes r) (r_enh r) (foldl (add_sample ts) (r_seriess r) result) (tempNumSamples r)).

Definition pointwise_steps (ev : evaluator) (originalNumSamples : Z) (f : step_fun (R:=R))
    (matrixes : list (list Series)) : M (list Series) :=
  let! tempNumSamples := get_samples in
  let r := MkRange matrixes new_helper ∅ tempNumSamples in
  match steps ev with
  | ts :: rest =>
      if (endTimestamp ev =? startTimestamp ev)%Z then
        let! (result, _) := pointwise_call ev f r ts in
        put_total originalNumSamples (instant_matrix ts result)
      else
        let! r := mfold (pointwise_step ev f) r (ts :: rest) in
        put_total originalNumSamples (map_range (r_seriess r)).*2
  | [] => put_total originalNumSamples []
  end.

Definition sample_at (ts : Z) (s : Series) : list Sample :=
  match point_at (Points s) ts with Some p => [MkSample p (m_Metric s)] | None => [] end.

Lemma gather_series_ok ev ts l vec moved s st :
  StronglySorted Z.lt (ts :: l) → by_T (Points s) →
  gather_series ev ts (vec, moved) (rest_series (ts :: l) s) st =
    if fits ev st (length (sample_at ts s)) then
      Ok ((vec ++ sample_at ts s, moved ++ [rest_series l s]), more st (length (sample_at ts s)))
    else Err (ErrTooManySamples env).
Proof.
  intros Hl Hs. destruct (rest_points ts l (Points s) Hl Hs) as [Hrest Hts].
  unfold gather_series, sample_at. 
  replace (Points (rest_series (ts :: l) s)) with (filter (λ p, T p ∈ ts :: l) (Points s)) by done.
  rewrite Hrest. destruct (point_at (Points s) ts) as [p|].
  - rewrite (Hts p eq_refl), Z.eqb_refl, mbind_run. cbn [length]. rewrite fits_1.
    cbn [room get_samples mbind_ mret res_bind]. by destruct (currentSamples st <? maxSamples ev)%Z.
  - cbn [length]. rewrite more_0, app_nil_r. cbn [fits Nat.eqb orb].
    assert (filter (λ p, T p ∈ l) (Points s) = filter (λ p, T p ∈ ts :: l) (Points s)) as Heq by done.
    unfold rest_series. rewrite <-Heq. cbn [m_Metric].
    destruct (filter (λ p, T p ∈ l) (Points s)) as [|q rest] eqn:Hq; [done|].
    assert (T q ≠ ts) as Hne.
    { assert (q ∈ filter (λ p, T p ∈ l) (Points s)) as Hin by (rewrite Hq; set_solver).
      apply list_elem_of_filter in Hin as [Hin _]. apply StronglySorted_inv in Hl as [_ Hl].
      rewrite Forall_forall in Hl. specialize (Hl _ Hin). lia. }
    by rewrite (proj2 (Z.eqb_neq _ _)) by done.
Qed.

Lemma vector_at_cons ts s m : vector_at (s :: m) ts = sample_at ts s ++ vector_at m ts.
Proof. unfold vector_at, sample_at. cbn [omap list_omap]. by destruct (point_at (Points s) ts). Qed.

Lemma gather_vector_ok ev ts l m vec moved st :
  StronglySorted Z.lt (ts :: l) → Forall (λ s, by_T (Points s)) m →
  mfold (gather_series ev ts) (vec, moved) (rest_matrix (ts :: l) m) st =
    if fits ev st (length (vector_at m ts)) then
      Ok ((vec ++ vector_at m ts, moved ++ rest_matrix l m), more st (length (vector_at m ts)))
    else Err (ErrTooManySamples env).
Proof.
  intros Hl Hm. revert vec moved st. induction Hm as [|s m Hs Hm IH]; intros vec moved st.
  { cbn. by rewrite more_0, !app_nil_r. }
  unfold rest_matrix. rewrite fmap_cons, mfold_cons, gather_series_ok by done.
  rewrite vector_at_cons, length_app, fits_add. destruct (fits ev st _); [|done]. cbn [res_bind andb].
  fold (rest_matrix (ts :: l) m). rewrite IH, more_more, <-!(assoc_L (++)). done.
Qed.

Lemma gather_ok ev ts l ms args moved st :
  StronglySorted Z.lt (ts :: l) → Forall (Forall (λ s, by_T (Points s))) ms →
  let vs := (λ m, vector_at m ts) <$> ms in
  let n := sum_list (length <$> vs) in
  mfold (gather ev ts) (args, moved) (rest_matrix (ts :: l) <$> ms) st =
    if fits ev st n then Ok ((args ++ (VVector <$> vs), moved ++ (rest_matrix l <$> ms)), more st n)
    else Err (ErrTooManySamples env).
Proof.
  intros Hl Hm. revert args moved st. induction Hm as [|m ms Hs Hm IH]; intros args moved st; cbv zeta.
  { cbn. by rewrite more_0, !app_nil_r. }
  rewrite !fmap_cons, mfold_cons.
  assert (gather ev ts (args, moved) (rest_matrix (ts :: l) m) st =
    if fits ev st (length (vector_at m ts)) then
      Ok ((args ++ [VVector (vector_at m ts)], moved ++ [rest_matrix l m]), more st (length (vector_at m ts)))
    else Err (ErrTooManySamples env)) as ->.
  { unfold gather. rewrite mbind_run, (gather_vector_ok ev ts l) by done. by destruct (fits _ _ _). }
  change (sum_list (?x :: ?l)) with (x + sum_list l). rewrite fits_add.
  destruct (fits ev st (length (vector_at m ts))); [|done]. cbn [res_bind andb].
  rewrite IH. cbv zeta. by rewrite more_more, <-!(assoc_L (++)).
Qed.

(** The state of [rangeEval] with its inputs as they were at the start. *)
Definition undo (ms : list (list Series)) (r : range_state (R:=R)) : range_state :=
  MkRange ms (r_enh r) (r_seriess r) (tempNumSamples r).

Lemma range_call_ok ev f r ms ts l st :
  StronglySorted Z.lt (ts :: l) → Forall (Forall (λ s, by_T (Points s))) ms →
  r_matrixes r = rest_matrix (ts :: l) <$> ms →
  pointwise_call ev f (undo ms r) ts st =
    (let* (x, st') := range_call ctx_Err ev f r ts st in Ok ((x.1, undo ms x.2), st')) ∧
  (∀ x st', range_call ctx_Err ev f r ts st = Ok (x, st') → r_matrixes x.2 = rest_matrix l <$> ms).
Proof.
  intros Hl Hms Hr. unfold pointwise_call, range_call. rewrite !mbind_run.
  destruct (contextDone ctx_Err "expression evaluation" st) as [[[] st1]|e|m]; cbn [res_bind]; [|done..].
  rewrite !mbind_run. cbn [undo tempNumSamples put_samples res_bind r_matrixes r_enh r_seriess].
  rewrite Hr, !mbind_run, (gather_ok ev ts l ms [] []) by done. cbv zeta. unfold count_samples.
  destruct (fits _ _ _); cbn [res_bind app]; [|done]. rewrite !mbind_run.
  destruct (f _ _ _) as [[[result enh] st2]|e|m]; cbn [res_bind]; [|done..].
  destruct (Vector_ContainsSameLabelset result); [done|]. cbv zeta. rewrite !mbind_run.
  cbn [add_samples res_bind]. rewrite !mbind_run. cbn [get_samples res_bind].
  destruct (_ <? _)%Z; [done|]. cbn [mret]. unfold mret. cbn [res_bind]. split; [done|]. by intros ? ? [= <- <-].
Qed.

Lemma range_fold_ok ev f ms l r st :
  StronglySorted Z.lt l → Forall (Forall (λ s, by_T (Points s))) ms → r_matrixes r = rest_matrix l <$> ms →
  mfold (pointwise_step ev f) (undo ms r) l st =
    let* (r', st') := mfold (range_step ctx_Err ev f) r l st in Ok (undo ms r', st').
Proof.
  intros Hl Hms. revert r st. induction l as [|ts l IH]; intros r st Hr; [done|].
  rewrite !mfold_cons. unfold pointwise_step at 1, range_step at 1. rewrite !mbind_run.
  destruct (range_call_ok ev f r ms ts l st Hl Hms Hr) as [-> Hnext].
  destruct (range_call ctx_Err ev f r ts st) as [[[result r'] st']|e|m]; cbn [res_bind fst snd]; [|done..].
  unfold mret. cbn [res_bind]. specialize (Hnext _ _ eq_refl). cbn [snd] in Hnext.
  apply StronglySorted_inv in Hl as [Hl _].
  by rewrite <-(IH Hl (MkRange (r_matrixes r') (r_enh r') (foldl (add_sample ts) (r_seriess r') result) (tempNumSamples r')) st').
Qed.

Lemma aligned_rest ev m : aligned ev m → rest_matrix (steps ev) m = m.
Proof.
  intros Hm. unfold rest_matrix. rewrite <-(list_fmap_id m) at 2. apply list_fmap_ext.
  intros i s Hi. apply (Forall_lookup_1 _ _ _ _ Hm) in Hi as [_ Hi]. unfold rest_series.
  rewrite filter_all by done. by destruct s.
Qed.

(** C15. Evaluation over a range takes the inputs apart from the front as it goes; the
    result is that of looking every input up at the time of each step, and the samples
    counted are the same. *)
Theorem range_steps_spec ev originalNumSamples f matrixes st :
  (0 < interval ev)%Z → Forall (aligned ev) matrixes →
  range_steps ctx_Err ev originalNumSamples f matrixes st
  = pointwise_steps ev originalNumSamples f matrixes st.
Proof.
  intros Hi Hal. unfold range_steps, pointwise_steps. rewrite !mbind_run. cbn [get_samples res_bind].
  set (r := MkRange matrixes new_helper ∅ (currentSamples st)).
  assert (Forall (Forall (λ s, by_T (Points s))) matrixes) as Hms.
  { eapply Forall_impl; [exact Hal|]. intros m Hm. eapply Forall_impl; [exact Hm|]. by intros s [Hs _]. }
  assert (r_matrixes r = rest_matrix (steps ev) <$> matrixes) as Hr.
  { cbn [r r_matrixes]. rewrite <-(list_fmap_id matrixes) at 1. apply list_fmap_ext. intros i m Hm.
    symmetry. apply aligned_rest. by apply (Forall_lookup_1 _ _ _ _ Hal) in Hm. }
  pose proof (steps_sorted ev Hi) as Hl. change r with (undo matrixes r) at 3 4.
  destruct (steps ev) as [|ts l]; [done|]. destruct (endTimestamp ev =? startTimestamp ev)%Z; rewrite !mbind_run.
  - destruct (range_call_ok ev f r matrixes ts l st Hl Hms Hr) as [-> _].
    by destruct (range_call ctx_Err ev f r ts st) as [[[result r'] st']|e|m].
  - rewrite (range_fold_ok ev f matrixes (ts :: l) r st Hl Hms Hr).
    by destruct (mfold (range_step ctx_Err ev f) r (ts :: l) st) as [[r' st']|e|m].
Qed.

End pointwise.

(** ** Results lie on the steps *)

Lemma mbind_ok {A B} (m : M A) (f : A → M B) st b st' :
  mbind_ m f st = Ok (b, st') → ∃ a st1, m st = Ok (a, st1) ∧ f a st1 = Ok (b, st').
Proof. unfold mbind_. destruct (m st) as [[a st1]|e|p]; cbn [res_bind]; [eauto|done..]. Qed.

Lemma mret_ok {A} (a b : A) st st' : mret a st = Ok (b, st') → b = a ∧ st' = st.
Proof. by intros [= <- <-]. Qed.

(** Takes a successful run apart, one operation at a time. *)
Ltac run_inv :=
  repeat match goal with
  | H : mbind_ _ _ _ = Ok (_, _) |- _ =>
      let a := fresh "a" in let s := fresh "s" in let H1 := fresh "Hrun" in
      apply mbind_ok in H as (a & s & H1 & H)
  | a : unit |- _ => destruct a
  | a : (_ * _)%type |- _ => destruct a
  | H : mret _ _ = Ok (_, _) |- _ => apply mret_ok in H as [? ?]; simplify_eq
  | H : merror _ _ = Ok _ |- _ => discriminate H
  | H : ErrTooMany _ = Ok _ |- _ => discriminate H
  | H : same_labelset_error _ = Ok _ |- _ => discriminate H
  | H : division_by_zero _ = Ok _ |- _ => discriminate H
  | H : unhandled _ = Ok _ |- _ => discriminate H
  | H : Err _ = Ok _ |- _ => discriminate H
  end.

Lemma mfold_inv {A B} (I : B → Prop) (f : B → A → M B) acc l st acc' st' :
  (∀ acc a st acc' st', a ∈ l → I acc → f acc a st = Ok (acc', st') → I acc') →
  I acc → mfold f acc l st = Ok (acc', st') → I acc'.
Proof.
  revert acc st. induction l as [|a l IH]; intros acc st Hf Hacc Hrun; cbn [mfold] in Hrun.
  { apply mret_ok in Hrun as [-> _]. done. }
  apply mbind_ok in Hrun as (acc1 & st1 & Hrun1 & Hrun).
  apply (IH acc1 st1); [|exact (Hf _ _ _ _ _ (list_elem_of_here a l) Hacc Hrun1)|exact Hrun].
  intros acc2 b st2 acc3 st3 Hb. apply Hf. by right.
Qed.

(** A loop over times that adds at most a point at each one. *)
Lemma mfold_points {A X} (proj : X → list Point) (time : A → Z) (f : X → A → M X) acc l st acc' st' :
  (∀ acc a st acc' st', f acc a st = Ok (acc', st') →
    proj acc' = proj acc ∨ ∃ v, proj acc' = proj acc ++ [MkPoint (time a) v]) →
  StronglySorted Z.lt (time <$> l) → mfold f acc l st = Ok (acc', st') →
  ∃ new, proj acc' = proj acc ++ new ∧ by_T new ∧ Forall (λ p, T p ∈ time <$> l) new.
Proof.
  intros Hf. revert acc st. induction l as [|a l IH]; intros acc st Hl Hrun; cbn [mfold] in Hrun.
  { apply mret_ok in Hrun as [-> _]. exists []. rewrite app_nil_r. repeat constructor. }
  apply mbind_ok in Hrun as (acc1 & st1 & Hrun1 & Hrun).
  rewrite fmap_cons in Hl |- *. apply StronglySorted_inv in Hl as [Hl Ha].
  destruct (IH acc1 st1 Hl Hrun) as (new & Hnew & Hsort & Hin).
  assert (Forall (λ p, T p ∈ time a :: (time <$> l)) new) as Hin'.
  { eapply Forall_impl; [exact Hin|]. intros p Hp. by right. }
  destruct (Hf _ _ _ _ _ Hrun1) as [Heq|[v Heq]]; rewrite Heq in Hnew; [by exists new|].
  exists (MkPoint (time a) v :: new). rewrite Hnew, <-(assoc_L (++)). split; [done|]. split.
  - constructor; [done|]. eapply Forall_impl; [exact Hin|]. intros p Hp. cbn.
    by apply (Forall_forall (Z.lt (time a)) (time <$> l)).
  - constructor; [by left|done].
Qed.

Lemma aligned_app ev m m' : aligned ev (m ++ m') ↔ aligned ev m ∧ aligned ev m'.
Proof. apply Forall_app. Qed.

Lemma aligned_one ev l ps : by_T ps → Forall (λ p, T p ∈ steps ev) ps → aligned ev [MkSeries l ps].
Proof. intros. by constructor. Qed.

Section results.
Context {gsort : GoSort} {grange : GoMapRange} {gheap : GoHeap} {plabels : PromLabels} {plib : ParserLib}
  {buf : BufferedIterator} {R : Type}.
Context (ctx_Err : nat → option goerror).
Implicit Types (ev : evaluator) (st : state).

Lemma selector_aligned ev v st mat st' :
  (0 < interval ev)%Z → eval_VectorSelector ctx_Err ev v st = Ok (mat, st') → aligned ev mat.
Proof.
  intros Hi Hrun. unfold eval_VectorSelector in Hrun. run_inv.
  match goal with H : mfold _ _ _ _ = Ok _ |- _ => revert H end.
  intros Hfold.
  refine (mfold_inv (λ acc, aligned ev acc.2) _ _ _ _ _ _ _ _ Hfold); [|constructor].
  clear Hfold. intros [it m] ser st1 [it' m'] st1' _ Hm Hrun. cbn [snd] in *. unfold selector_series in Hrun.
  run_inv.
  match goal with H : mfold _ _ _ _ = Ok _ |- _ => eapply (mfold_points snd id) in H as (new & Hnew & Hs & Hin) end.
  - rewrite list_fmap_id in Hin. cbn [snd app] in Hnew. subst. unfold append_series. cbn [Points].
    destruct new; [done|]. apply aligned_app. split; [done|]. by apply aligned_one.
  - intros [i1 p1] ts sa [i2 p2] sb Hstep. unfold selector_step in Hstep. run_inv.
    match goal with o : option _ |- _ => destruct o as [[t x]|] end; run_inv; [|by left].
    match goal with ok : bool |- _ => destruct ok end; run_inv. right. by exists x.
  - rewrite list_fmap_id. by apply steps_sorted.
Qed.

Lemma call_step_points ev (call : FunctionCall (R:=R)) args idx others metric offset sr step_r c x st c' st' :
  call_step ev call args idx others metric offset sr step_r c x st = Ok (c', st') →
  c_points c' = c_points c ∨ ∃ v, c_points c' = c_points c ++ [MkPoint x.2 v].
Proof.
  destruct x as [step ts]. unfold call_step. intros Hrun. run_inv.
  match goal with l : list Point |- _ => destruct l end; run_inv; [by left|].
  match goal with l : list Sample |- _ => destruct l as [|smp l] end; cbn [c_points]; [by left|].
  right. by exists (sV smp).
Qed.

Lemma steps_indexed ev : snd <$> imap pair (steps ev) = steps ev.
Proof. rewrite fmap_imap. rewrite <-(list_fmap_id (steps ev)) at 2. rewrite <-imap_const. by apply imap_ext. Qed.

Lemma absent_aligned ev args mat st mat' st' :
  (0 < interval ev)%Z → absent_matrix ev args mat st = Ok (mat', st') → aligned ev mat'.
Proof.
  intros Hi Hrun. unfold absent_matrix in Hrun. run_inv.
  destruct (existsb _ mat); run_inv; [constructor|].
  destruct (found_loop _ _ _ _) as [found|]; run_inv; [|constructor].
  apply aligned_one.
  - induction (steps_sorted ev Hi) as [|ts l Hl IH Hts]; [constructor|]. rewrite filter_cons.
    case_decide; [|done]. rewrite fmap_cons. constructor; [done|]. rewrite Forall_fmap.
    apply Forall_forall. intros u [_ Hu]%list_elem_of_filter. cbn. rewrite Forall_forall in Hts. by apply Hts.
  - rewrite Forall_fmap. apply Forall_forall. by intros ts [_ Hts]%list_elem_of_filter.
Qed.

Lemma call_aligned ev (call : FunctionCall (R:=R)) args idx others offset sr step_r series acc st acc' st' :
  (0 < interval ev)%Z → aligned ev acc.2 →
  mfold (call_series ev call args idx others offset sr step_r) acc series st = Ok (acc', st') → aligned ev acc'.2.
Proof.
  intros Hi Hacc Hfold. refine (mfold_inv (λ acc, aligned ev acc.2) _ _ _ _ _ _ _ _ Hfold); [|done].
  clear - Hi. intros [[it enh] m] ser sa [[it' enh'] m'] sb _ Hm Hstep. cbn [snd] in *. unfold call_series in Hstep.
  run_inv.
  match goal with H : mfold _ _ _ _ = Ok _ |- _ => eapply (mfold_points c_points snd) in H as (new & Hnew & Hs & Hin) end.
  - rewrite steps_indexed in Hin. cbn [app c_points] in Hnew. rewrite Hnew in Hstep. destruct new; run_inv; [done|].
    match goal with ok : bool |- _ => destruct ok end; run_inv. apply aligned_app. split; [done|]. by apply aligned_one.
  - intros c x sc c' sd. apply call_step_points.
  - rewrite steps_indexed. by apply steps_sorted.
Qed.

Lemma matrix_call_aligned ev name call args idx vs Range others st mat st' :
  (0 < interval ev)%Z → eval_matrix_call (R:=R) ctx_Err ev name call args idx vs Range others st = Ok (mat, st') →
  aligned ev mat.
Proof.
  intros Hi Hrun. unfold eval_matrix_call in Hrun. cbv zeta in Hrun. run_inv.
  match goal with H : mfold _ _ _ _ = Ok (?acc, _) |- _ =>
    assert (aligned ev acc.2) as Hm by (eapply call_aligned; [done| |exact H]; constructor) end.
  cbn [snd] in Hm. destruct (decide (name = "absent_over_time")); [by eapply absent_aligned|].
  destruct (Matrix_ContainsSameLabelset _); run_inv. done.
Qed.

(** The series built so far end before the times still to come. *)
Definition built (ev : evaluator) (before : Z → Prop) (seriess : gmap Z Series) : Prop :=
  ∀ h s, seriess !! h = Some s →
    by_T (Points s) ∧ Forall (λ p, T p ∈ steps ev ∧ before (T p)) (Points s).

Lemma by_T_snoc ps p : by_T ps → Forall (λ q, (T q < T p)%Z) ps → by_T (ps ++ [p]).
Proof.
  induction 1 as [|q ps Hps IH Hq]; intros Hp; cbn [app]; [by repeat constructor|].
  apply Forall_cons in Hp as [Hqp Hp]. constructor; [by apply IH|]. apply Forall_app. by repeat constructor.
Qed.

Lemma add_samples_built ev ts (result : list Sample) seriess :
  ts ∈ steps ev → NoDup ((λ s, Hash (s_Metric s)) <$> result) →
  (∀ h s, seriess !! h = Some s → by_T (Points s) ∧ Forall (λ p, T p ∈ steps ev ∧ (T p ≤ ts)%Z) (Points s) ∧
    (h ∈ (λ s, Hash (s_Metric s)) <$> result → Forall (λ p, (T p < ts)%Z) (Points s))) →
  built ev (λ t, t ≤ ts)%Z (foldl (add_sample ts) seriess result).
Proof.
  intros Hts. revert seriess. induction result as [|x result IH]; intros seriess Hnd Hinv.
  { intros h s Hs. apply Hinv in Hs as (? & ? & _). done. }
  rewrite fmap_cons in Hnd. apply NoDup_cons in Hnd as [Hx Hnd]. cbn [foldl]. apply IH; [done|].
  intros h s Hs. unfold add_sample in Hs. destruct (decide (h = Hash (s_Metric x))) as [->|Hne].
  - rewrite lookup_insert_eq in Hs. injection Hs as <-. cbn [Points].
    assert (by_T (Points (default (MkSeries (s_Metric x) []) (seriess !! Hash (s_Metric x)))) ∧
      Forall (λ p, T p ∈ steps ev ∧ (T p < ts)%Z) (Points (default (MkSeries (s_Metric x) []) (seriess !! Hash (s_Metric x)))))
      as [Hsort Hin].
    { destruct (seriess !! Hash (s_Metric x)) as [s|] eqn:Hs; cbn [default]; [|by repeat constructor].
      destruct (Hinv _ _ Hs) as (H1 & H2 & H3). split; [done|]. specialize (H3 ltac:(set_solver)).
      apply Forall_and. split; [|done]. eapply Forall_impl; [exact H2|]. by intros p [? _]. }
    split_and!; [|apply Forall_app; split|done].
    + apply by_T_snoc; [done|]. eapply Forall_impl; [exact Hin|]. by intros p [_ ?].
    + eapply Forall_impl; [exact Hin|]. cbn. intros p [? ?]. split; [done|lia].
    + repeat constructor; cbn; [done|lia].
  - rewrite lookup_insert_ne in Hs by done. destruct (Hinv _ _ Hs) as (H1 & H2 & H3).
    split_and!; [done..|]. intros Hin. apply H3. set_solver.
Qed.

Lemma range_call_unique ev f (r r' : range_state (R:=R)) ts result st st' :
  range_call ctx_Err ev f r ts st = Ok ((result, r'), st') →
  r_seriess r' = r_seriess r ∧ NoDup ((λ s, Hash (s_Metric s)) <$> result).
Proof.
  intros Hrun. unfold range_call in Hrun. run_inv.
  match type of Hrun with context [Vector_ContainsSameLabelset ?v] =>
    destruct (Vector_ContainsSameLabelset v) eqn:Hdup end; cbv zeta in Hrun; run_inv.
  match type of Hrun with context [(?a <? ?b)%Z] => destruct (a <? b)%Z end; run_inv.
  split; [done|]. unfold Vector_ContainsSameLabelset in Hdup. apply same_labelset_spec in Hdup as [Hdup _].
  by rewrite <-list_fmap_compose in Hdup.
Qed.

Lemma range_fold_built ev f l (r r' : range_state (R:=R)) st st' :
  StronglySorted Z.lt l → Forall (λ t, t ∈ steps ev) l →
  built ev (λ t, Forall (λ u, t < u)%Z l) (r_seriess r) →
  mfold (range_step ctx_Err ev f) r l st = Ok (r', st') → built ev (λ _, True) (r_seriess r').
Proof.
  revert r st. induction l as [|ts l IH]; intros r st Hl Hin Hb Hrun; cbn [mfold] in Hrun.
  { apply mret_ok in Hrun as [-> _]. intros h s Hs. destruct (Hb h s Hs) as [H1 H2]. split; [done|].
    eapply Forall_impl; [exact H2|]. by intros p [? _]. }
  apply mbind_ok in Hrun as (r1 & st1 & Hstep & Hrun).
  apply StronglySorted_inv in Hl as [Hl Hts]. apply Forall_cons in Hin as [Hin1 Hin].
  refine (IH r1 st1 Hl Hin _ Hrun). unfold range_step in Hstep. apply mbind_ok in Hstep as ([result r2] & st2 & Hcall & Hstep).
  apply mret_ok in Hstep as [-> _]. cbn [r_seriess]. apply range_call_unique in Hcall as [-> Hnd].
  intros h s Hs. destruct (add_samples_built ev ts result (r_seriess r) Hin1 Hnd) with h s as [H1 H2]; [|done|].
  - intros h' s' Hs'. destruct (Hb h' s' Hs') as [H1 H2]. split; [done|]. split.
    + eapply Forall_impl; [exact H2|]. intros p [? [? _]%Forall_cons]. split; [done|lia].
    + intros _. eapply Forall_impl; [exact H2|]. by intros p [? [? _]%Forall_cons].
  - split; [done|]. eapply Forall_impl; [exact H2|]. intros p [? Hp]. cbn in *. split; [done|].
    eapply Forall_impl; [exact Hts|]. intros u Hu. cbn in Hu. lia.
Qed.

Lemma range_steps_aligned ev n f matrixes mat st st' :
  (0 < interval ev)%Z → range_steps (R:=R) ctx_Err ev n f matrixes st = Ok (mat, st') → aligned ev mat.
Proof.
  intros Hi Hrun. unfold range_steps in Hrun. run_inv. cbv zeta in Hrun.
  pose proof (steps_sorted ev Hi) as Hsort.
  assert (Forall (λ t, t ∈ steps ev) (steps ev)) as Hin by (by apply Forall_forall).
  destruct (steps ev) as [|ts l] eqn:Hl; unfold put_total in Hrun; run_inv; [constructor|].
  destruct (endTimestamp ev =? startTimestamp ev)%Z; run_inv.
  - unfold instant_matrix, aligned. rewrite Forall_fmap. apply Forall_forall. intros smp _. cbn [compose Points].
    rewrite Hl. repeat constructor.
  - match goal with H : mfold _ _ _ _ = Ok _ |- _ => revert H; intros Hfold end. rewrite <-Hl in *.
    apply range_fold_built in Hfold; [|done..].
    apply Forall_fmap, Forall_forall. intros [h ser] Hs. apply elem_of_map_range in Hs.
    destruct (Hfold h ser Hs) as [H1 H2]. cbn. split; [done|]. eapply Forall_impl; [exact H2|]. by intros p [? _].
Qed.

Context (int64_undefined : float64 → Z) (FormatFloat : float64 → string) (LabelName_IsValid : string → bool).
Context (Pow : float64 → float64 → float64).
Context (FunctionCalls : string → FunctionCall (R:=R)).

Notation run_eval := (eval int64_undefined FormatFloat LabelName_IsValid Pow FunctionCalls ctx_Err).

Definition is_range_type (t : ValueType) : Prop := t = ValueTypeScalar ∨ t = ValueTypeVector.

Lemma neg_aligned ev m : aligned ev m → aligned ev (neg_series <$> m).
Proof.
  intros Hm. apply Forall_fmap. eapply Forall_impl; [exact Hm|]. intros s [Hs Hin]. cbn. split.
  - clear Hin. induction Hs as [|p ps Hs IH Hp]; cbn; [constructor|]. constructor; [done|].
    apply Forall_fmap. eapply Forall_impl; [exact Hp|]. by intros q Hq.
  - apply Forall_fmap. eapply Forall_impl; [exact Hin|]. by intros q Hq.
Qed.

Lemma as_matrix_ok m mat st st' : as_matrix (VMatrix m) st = Ok (mat, st') → mat = m ∧ st' = st.
Proof. unfold as_matrix, lift. cbn. by intros [= <- <-]. Qed.

Ltac finish_range :=
  match goal with
  | H : range_steps _ _ _ _ _ _ = Ok _ |- _ => eexists; split; [reflexivity|]; by eapply range_steps_aligned
  end.

(** The nodes whose value is the value of an expression, up to the sign. *)
Fixpoint result_nodes (e : expr) : list expr :=
  e :: match e with ParenExpr _ e' => result_nodes e' | UnaryExpr _ _ e' => result_nodes e' | _ => [] end.

(** The value of the expression is computed by the evaluator, and is not up to parentheses
    and signs the one that the database has already aggregated for [topNode]. *)
Definition computed (ev : evaluator) (e : expr) : Prop :=
  Forall (λ e', topNode ev ≠ Some (address e')) (result_nodes e).

Lemma computed_none ev e : topNode ev = None → computed ev e.
Proof. intros Htop. apply Forall_forall. intros e' _. by rewrite Htop. Qed.

Lemma computed_self ev e : computed ev e → topNode ev ≠ Some (address e).
Proof. intros Hc. unfold computed in Hc. destruct e; cbn [result_nodes] in Hc; by apply Forall_cons in Hc as [? _]. Qed.

Lemma eval_aligned_ok ev e st v st' :
  computed ev e → (0 < interval ev)%Z → is_range_type (expr_Type e) →
  run_eval ev e st = Ok (v, st') → ∃ mat, v = VMatrix mat ∧ aligned ev mat.
Proof.
  intros Htop Hi. revert st v st' Htop.
  induction e as [v0|a v0 r|a e r o s IH|a op e p g w IH IHp|a op l r m b IHl IHr|a fn t args IH|a v0|a s|a e IH|a op e IH]
    using expr_full_ind; intros st v st' Htop Ht Hrun; pose proof (computed_self _ _ Htop) as Hself;
    cbn [eval] in Hrun; cbv zeta in Hrun;
    run_inv; rewrite bool_decide_false in Hrun by done; run_inv.
  - eexists. split; [done|]. by eapply selector_aligned.
  - by rewrite expr_Type_doc in Ht; destruct Ht.
  - by rewrite expr_Type_doc in Ht; destruct Ht.
  - destruct p as [p|]; [destruct (unwrapParenExpr p)|]; run_inv; finish_range.
  - destruct (binary_fun _ _ _ _ _ _); run_inv; finish_range.
  - destruct (decide (fn = "timestamp")) as [Hfn|Hfn]; [destruct args as [|[] args]|];
      try (destruct (matrix_index _)); run_inv; try finish_range;
      try (by unfold lift, index in Hrun); by eexists; split; [|eapply matrix_call_aligned].
  - finish_range.
  - by rewrite expr_Type_doc in Ht; destruct Ht.
  - rewrite expr_Type_doc in Ht. apply Forall_cons in Htop as [_ Htop]. by eapply IH.
  - rewrite expr_Type_doc in Ht. apply Forall_cons in Htop as [_ Htop].
    match goal with H : eval _ _ _ _ _ _ _ _ _ = Ok _ |- _ => apply (IH _ _ _ Htop Ht) in H as (m & -> & Hm) end.
    match goal with H : as_matrix _ _ = Ok _ |- _ => apply as_matrix_ok in H as [-> ->] end.
    destruct (bool_decide (op = SUB)); [destruct (Matrix_ContainsSameLabelset _)|]; run_inv;
      eexists; (split; [done|]); [by apply neg_aligned|done].
Qed.

(** C18. An expression of type scalar or vector evaluates to a matrix whose points lie on
    the steps of the evaluation, in order, unless its value is, up to parentheses and signs,
    a call of delta that the database has answered: those points are at the times the
    pushed-down query was given, off the steps where the selector has an offset. A delta
    that was pushed down deeper in the expression is no exception, because the functions and
    operators around it read its points step by step. *)
Theorem eval_aligned ev e st v st' :
  computed ev e → (0 < interval ev)%Z → is_range_type (expr_Type e) →
  run_eval ev e st = Ok (v, st') → ∃ mat, v = VMatrix mat ∧ aligned ev mat.
Proof. apply eval_aligned_ok. Qed.

(** ** Evaluation at one time *)

Definition nonempty (m : list Series) : Prop := Forall (λ s, Points s ≠ []) m.

Lemma single_step ev :
  (0 < interval ev)%Z → endTimestamp ev = startTimestamp ev → steps ev = [startTimestamp ev].
Proof.
  intros Hi He. unfold steps. rewrite He, Z.sub_diag, Z.quot_0_l by lia.
  change (Z.to_nat (0 + 1)) with 1. cbn [steps_from]. by rewrite Z.leb_refl.
Qed.

Lemma append_series_nonempty m s : nonempty m → nonempty (append_series m s).
Proof.
  intros Hm. unfold append_series. destruct (Points s) eqn:Hp; [done|].
  apply Forall_app. split; [done|]. constructor; [by rewrite Hp|done].
Qed.

Lemma selector_nonempty ev v st mat st' : eval_VectorSelector ctx_Err ev v st = Ok (mat, st') → nonempty mat.
Proof.
  intros Hrun. unfold eval_VectorSelector in Hrun. run_inv.
  match goal with H : mfold _ _ _ _ = Ok _ |- _ => revert H end. intros Hfold.
  refine (mfold_inv (λ acc, nonempty acc.2) _ _ _ _ _ _ _ _ Hfold); [|constructor].
  clear Hfold. intros [it m] ser st1 [it' m'] st1' _ Hm Hrun. cbn [snd] in *. unfold selector_series in Hrun.
  run_inv. by apply append_series_nonempty.
Qed.

Lemma pushdown_nonempty series : nonempty (getPushdownResult series).
Proof.
  unfold getPushdownResult. assert (nonempty []) as Hm by constructor. revert Hm. generalize (@nil Series) as m.
  induction series as [|s series IH]; intros m Hm; cbn [foldl]; [done|]. by apply IH, append_series_nonempty.
Qed.

Lemma call_nonempty ev (call : FunctionCall (R:=R)) args idx others offset sr step_r series acc st acc' st' :
  nonempty acc.2 → mfold (call_series ev call args idx others offset sr step_r) acc series st = Ok (acc', st') →
  nonempty acc'.2.
Proof.
  intros Hacc Hfold. refine (mfold_inv (λ acc, nonempty acc.2) _ _ _ _ _ _ _ _ Hfold); [|done].
  clear. intros [[it enh] m] ser sa [[it' enh'] m'] sb _ Hm Hstep. cbn [snd] in *. unfold call_series in Hstep. run_inv.
  match type of Hstep with context [c_points ?c] => destruct (c_points c) eqn:Hc end; run_inv; [done|].
  match goal with ok : bool |- _ => destruct ok end; run_inv. apply Forall_app. split; [done|]. by constructor.
Qed.

(** At one step no series that is there misses its only point, so that the result of
    [absent_over_time] is the point of the step. *)
Lemma absent_nonempty ev args m mat st st' :
  (0 < interval ev)%Z → endTimestamp ev = startTimestamp ev → nonempty m → aligned ev m →
  absent_matrix ev args m st = Ok (mat, st') → nonempty mat.
Proof.
  intros Hi He Hm Hal Hrun. unfold absent_matrix in Hrun. run_inv.
  match goal with H : numSteps ev _ = Ok (?n, _) |- _ => assert (n = 1%Z) as -> end.
  { match goal with H : numSteps ev _ = Ok _ |- _ => unfold numSteps in H; revert H end.
    rewrite (proj2 (Z.eqb_neq _ _)) by lia. rewrite He, Z.sub_diag, Z.quot_0_l by lia. by intros [= <- _]. }
  destruct m as [|ser m].
  - cbn [existsb found_loop] in Hrun. run_inv. constructor; [|done]. cbn [Points].
    rewrite (single_step ev Hi He). rewrite filter_cons, decide_True by set_solver. done.
  - apply Forall_cons in Hm as [Hs _]. apply Forall_cons in Hal as [[Hsort Hin] _].
    rewrite (single_step ev Hi He) in Hin. cbn [existsb] in Hrun.
    destruct (Points ser) as [|p [|p' ps]]; [done| |].
    + change (Z.of_nat (length [p]) =? 1)%Z with true in Hrun. cbn [orb] in Hrun. run_inv. constructor.
    + apply StronglySorted_inv in Hsort as [_ [Hlt _]%Forall_cons]. cbn in Hlt.
      rewrite !Forall_cons, !list_elem_of_singleton in Hin. destruct Hin as (Hp & Hp' & _). lia.
Qed.

Lemma matrix_call_nonempty ev name call args idx vs Range others st mat st' :
  (0 < interval ev)%Z → endTimestamp ev = startTimestamp ev →
  eval_matrix_call (R:=R) ctx_Err ev name call args idx vs Range others st = Ok (mat, st') → nonempty mat.
Proof.
  intros Hi He Hrun. unfold eval_matrix_call in Hrun. cbv zeta in Hrun. run_inv.
  match goal with H : mfold _ _ _ _ = Ok (?acc, _) |- _ =>
    assert (nonempty acc.2) as Hm by (eapply call_nonempty; [|exact H]; constructor) end.
  match goal with H : mfold _ _ _ _ = Ok (?acc, _) |- _ =>
    assert (aligned ev acc.2) as Hal by (eapply call_aligned; [done| |exact H]; constructor) end.
  cbn [snd] in Hm, Hal. destruct (decide (name = "absent_over_time")) as [Heq|].
  - by eapply absent_nonempty.
  - destruct (Matrix_ContainsSameLabelset _); run_inv. done.
Qed.

Lemma range_steps_nonempty ev n f matrixes mat st st' :
  (0 < interval ev)%Z → endTimestamp ev = startTimestamp ev →
  range_steps (R:=R) ctx_Err ev n f matrixes st = Ok (mat, st') → nonempty mat.
Proof.
  intros Hi He Hrun. unfold range_steps in Hrun. run_inv. cbv zeta in Hrun.
  rewrite (single_step ev Hi He), He, Z.eqb_refl in Hrun. unfold put_total in Hrun. run_inv.
  apply Forall_fmap, Forall_forall. by intros smp _.
Qed.

Lemma walk_inv {S} (visit : visitor S) (I : S → Prop) :
  (∀ s e path, I s → I (visit s e path).1) → ∀ fuel path s e, I s → I (walk_doc visit fuel path s e).1.
Proof.
  intros Hv. induction fuel as [|fuel IH]; intros path s e Hs; cbn [walk_doc]; [done|].
  pose proof (Hv s e path Hs) as Hs'. destruct (visit s e path) as [s' [[]|err]]; cbn [fst] in *; [|done..].
  revert s' Hs'. induction (children e) as [|c l IHl]; intros s' Hs'; cbn [walk_list]; [done|].
  pose proof (IH (path ++ [e]) s' c Hs') as Hc. destruct (walk_doc visit fuel (path ++ [e]) s' c) as [s2 [err|]]; [done|].
  by apply IHl.
Qed.

Lemma topNode_nonempty ev e st mat st' : eval_topNode ctx_Err ev e st = Ok (mat, st') → nonempty mat.
Proof.
  unfold eval_topNode. rewrite Walk_doc.
  set (I := λ s : res (option (list Series) * state), match s with Ok (Some m, _) => nonempty m | _ => True end).
  assert (I (walk_doc (pushdown_visitor ctx_Err ev) (depth e) [] (Ok (None, st)) e).1) as HI.
  { apply walk_inv; [|done]. clear. intros s n path Hs. unfold pushdown_visitor.
    destruct n; try done. destruct s as [[m s]|err|msg]; try done.
    destruct (checkForSeriesSetExpansion ctx_Err ev v s) as [[series s1]|err|msg]; try done.
    destruct m as [m|]; [done|]. apply pushdown_nonempty. }
  destruct (walk_doc _ _ _ _ _).1 as [[[m|] s]|err|msg]; cbn [res_bind]; try done. by intros [= <- <-].
Qed.

Ltac finish_single :=
  match goal with
  | H : range_steps _ _ _ _ _ _ = Ok _ |- _ => eexists; split; [reflexivity|]; by eapply range_steps_nonempty
  end.

(** At one time every series of the result of an expression of type scalar or vector
    has a point, wherever it comes from. *)
Lemma eval_nonempty ev e st v st' :
  (0 < interval ev)%Z → endTimestamp ev = startTimestamp ev → is_range_type (expr_Type e) →
  run_eval ev e st = Ok (v, st') → ∃ mat, v = VMatrix mat ∧ nonempty mat.
Proof.
  intros Hi He. revert st v st'.
  induction e as [v0|a v0 r|a e r o s IH|a op e p g w IH IHp|a op l r m b IHl IHr|a fn t args IH|a v0|a s|a e IH|a op e IH]
    using expr_full_ind; intros st v st' Ht Hrun; cbn [eval] in Hrun; cbv zeta in Hrun; run_inv;
    (match type of Hrun with context [bool_decide (topNode ev = ?x)] => destruct (bool_decide (topNode ev = x)) end;
     run_inv; [by eexists; split; [|eapply topNode_nonempty]|]); run_inv.
  - eexists. split; [done|]. by eapply selector_nonempty.
  - by rewrite expr_Type_doc in Ht; destruct Ht.
  - by rewrite expr_Type_doc in Ht; destruct Ht.
  - destruct p as [p|]; [destruct (unwrapParenExpr p)|]; run_inv; finish_single.
  - destruct (binary_fun _ _ _ _ _ _); run_inv; finish_single.
  - destruct (decide (fn = "timestamp")) as [Hfn|Hfn]; [destruct args as [|[] args]|];
      try (destruct (matrix_index _)); run_inv; try finish_single;
      try (by unfold lift, index in Hrun); by eexists; split; [|eapply matrix_call_nonempty].
  - finish_single.
  - by rewrite expr_Type_doc in Ht; destruct Ht.
  - rewrite expr_Type_doc in Ht. by eapply IH.
  - rewrite expr_Type_doc in Ht.
    match goal with H : eval _ _ _ _ _ _ _ _ _ = Ok _ |- _ => apply (IH _ _ _ Ht) in H as (m & -> & Hm) end.
    match goal with H : as_matrix _ _ = Ok _ |- _ => apply as_matrix_ok in H as [-> ->] end.
    destruct (bool_decide (op = SUB)); [destruct (Matrix_ContainsSameLabelset _)|]; run_inv;
      eexists; (split; [done|]); [|done].
    apply Forall_fmap. eapply Forall_impl; [exact Hm|]. intros ser Hser Hnil. by apply fmap_nil_inv in Hnil.
Qed.

End results.

(** ** Examples *)

Module Toy.

Definition input : list Series := [MkSeries {[ "job" := "a" ]} [MkPoint 60000 f_one; MkPoint 120000 f_zero]].
Definition keep : step_fun (R:=unit) := λ vals enh,
  match vals with VVector v :: _ => mret (v, enh) | _ => merror (Errorf "no vector") end.
Definition functions (name : string) : FunctionCall (R:=unit) := Sel.Toy.count_call.
Definition evaluate : evaluator → expr → M value :=
  eval (λ _, 0%Z) (λ _, "") (λ _, true) (λ x _, x) functions Sel.Toy.never.

End Toy.

Lemma range_steps_spec_witness :
  range_steps Sel.Toy.never Sel.Toy.ev 0 Toy.keep [Toy.input] Sel.Toy.st
  = pointwise_steps Sel.Toy.never Sel.Toy.ev 0 Toy.keep [Toy.input] Sel.Toy.st.
Proof.
  apply (range_steps_spec Sel.Toy.never Sel.Toy.ev 0 Toy.keep [Toy.input] Sel.Toy.st); [reflexivity|].
  constructor; [|constructor]. constructor; [|constructor]. split; [by repeat constructor|].
  cbn [Points]. rewrite !Forall_cons. split_and!; [| |constructor];
    (change (steps Sel.Toy.ev) with [60000; 120000]%Z); cbn [T]; set_solver.
Defined.

Lemma eval_aligned_witness :
  match Toy.evaluate Sel.Toy.ev (UnaryExpr 3 SUB (VectorSelector Sel.Toy.selector)) Sel.Toy.st with
  | Ok (v, _) => ∃ mat, v = VMatrix mat ∧ aligned Sel.Toy.ev mat
  | _ => False
  end.
Proof.
  destruct (Toy.evaluate Sel.Toy.ev (UnaryExpr 3 SUB (VectorSelector Sel.Toy.selector)) Sel.Toy.st)
    as [[v st']|e|m] eqn:Hrun; [|vm_compute in Hrun; discriminate..].
  apply (eval_aligned Sel.Toy.never (λ _, 0%Z) (λ _, "") (λ _, true) (λ x _, x) Toy.functions Sel.Toy.ev
    (UnaryExpr 3 SUB (VectorSelector Sel.Toy.selector)) Sel.Toy.st v st'); [by apply computed_none|reflexivity|by right|exact Hrun].
Defined.

End Rng.
