(* ===== verification/QueryPlan.v ===== *)
(** * What a query asks of the storage

    [findMinTime] and [populateSeries] of [src/pkg/promql/engine.go]: the time range
    of the querier, and a [Select] for every selector with hints about the range, the
    function around it and the grouping.

    Times and durations are nanoseconds, timestamps milliseconds; additions of
    durations and of timestamps wrap as in the code.  [FromTime] is
    [timestamp.FromTime] of the Prometheus library. *)
From S2P Require Import Prelude Labels Float PromLabels PromValue Quantile PromAst Functions VectorOps Aggregation Evaluator Selectors.

Module Plan.
Import Val Ast Qnt Fn Vop Agg Eval.

Record EvalStmt := MkStmt { Expr : expr; Start : Z; End_ : Z; Interval : Z }.

(** [storage.SelectHints]. *)
Record SelectHints := MkSelectHints {
  hs_Start : Z; hs_End : Z; hs_Step : Z; hs_Range : Z;
  hs_Func : string; hs_By : bool; hs_Grouping : list string;
}.

(** What [Select] returns: series, the node it has evaluated already, warnings, error. *)
Record selected := MkSelected {
  sel_set : SeriesSet; sel_node : option addr; sel_warnings : list string; sel_err : option goerror;
}.

(** The interfaces [Queryable] and [Querier], over the state of the storage. *)
Record Queryable (D : Type) := MkQueryable {
  querier : Type;
  Querier : D → Z → Z → D * res querier;
  Select : D → querier → bool → SelectHints → list expr → list Lbl.Matcher → D * selected;
}.
Arguments querier {D} _.
Arguments Querier {D} _ _ _ _.
Arguments Select {D} _ _ _ _ _ _ _.

(** ** The time range *)

Definition cumulativeSubqueryOffset (path : list expr) : Z :=
  foldl (λ acc n, match n with
                  | SubqueryExpr _ _ Range Offset _ => wrap64 (acc + wrap64 (Range + Offset))
                  | _ => acc
                  end) 0%Z path.

Definition raise (m x : Z) : Z := if (m <? x)%Z then x else m.

Definition min_time_visitor (lookbackDelta : Z) : visitor Z := λ maxOffset node path,
  let subqOffset := cumulativeSubqueryOffset path in
  match node with
  | VectorSelector n =>
      let maxOffset := raise maxOffset (wrap64 (lookbackDelta + subqOffset)) in
      (raise maxOffset (wrap64 (wrap64 (v_Offset n + lookbackDelta) + subqOffset)), inl true)
  | MatrixSelector _ n Range =>
      let maxOffset := raise maxOffset (wrap64 (Range + subqOffset)) in
      (raise maxOffset (wrap64 (wrap64 (v_Offset n + Range) + subqOffset)), inl false)
  | _ => (maxOffset, inl true)
  end.

Definition findMinTime `{ParserLib} (lookbackDelta : Z) (s : EvalStmt) : res Z :=
  match Walk (min_time_visitor lookbackDelta) 0%Z (Expr s) with
  | (maxOffset, None) => Ok (Start s + wrap64 (- maxOffset))%Z
  | (_, Some err) => Err err
  end.

(** ** Hints *)

Section hints.
Context (FromTime : Z → Z) (ItemType_String : ItemType → string).

(** The loop goes from the end of the path; [path] is given reversed. *)
Fixpoint func_loop (rpath : list expr) : string :=
  match rpath with
  | [] => ""
  | AggregateExpr _ Op _ _ _ _ :: _ => ItemType_String Op
  | Call _ name _ _ :: _ => name
  | BinaryExpr _ _ _ _ _ _ :: _ => ""
  | _ :: rpath => func_loop rpath
  end.
Definition extractFuncFromPath (p : list expr) : string := func_loop (rev p).

Definition extractGroupsFromPath (p : list expr) : bool * list string :=
  match last p with
  | Some (AggregateExpr _ _ _ _ Grouping Without) => (negb Without, Grouping)
  | _ => (false, [])
  end.

Definition selector_hints (lookbackDelta : Z) (s : EvalStmt) (evalRange : Z) (path : list expr) (n : vsel) : SelectHints :=
  let start := wrap64 (FromTime (Start s) - durationMilliseconds (cumulativeSubqueryOffset path)) in
  let '(start, Range) :=
    if (evalRange =? 0)%Z then (wrap64 (start - durationMilliseconds lookbackDelta), 0%Z)
    else (wrap64 (start - durationMilliseconds evalRange), durationMilliseconds evalRange) in
  let '(By, Grouping) := extractGroupsFromPath path in
  let offset := if (0 <? v_Offset n)%Z then durationMilliseconds (v_Offset n) else 0%Z in
  MkSelectHints (wrap64 (start - offset)) (wrap64 (FromTime (End_ s) - offset)) (durationToInt64Millis (Interval s))
    Range (extractFuncFromPath path) By Grouping.

(** ** Selecting *)

Context {D : Type} (q : Queryable D).

Record pop := MkPop {
  p_evalRange : Z;
  p_warnings : list string;
  p_err : option goerror;
  p_topNode : option addr;
  (** The field [UnexpandedSeriesSet] of the selectors. *)
  p_sets : gmap addr SeriesSet;
  p_db : D;
}.

Definition select_series (lookbackDelta : Z) (qr : querier q) (s : EvalStmt) (p : pop) (evalRange : Z)
    (n : vsel) (path : list expr) : pop * option goerror :=
  match p_topNode p with
  | Some _ => (MkPop 0 (p_warnings p) (p_err p) (p_topNode p) (p_sets p) (p_db p), Some (Errorf "Assigning topNode twice"))
  | None =>
      let hints := selector_hints lookbackDelta s evalRange path n in
      let '(db, r) := Select q (p_db p) qr false hints path (LabelMatchers n) in
      let warnings := p_warnings p ++ sel_warnings r in
      match sel_err r with
      | Some err => (MkPop 0 warnings (Some err) (sel_node r) (p_sets p) db, Some err)
      | None => (MkPop 0 warnings None (sel_node r) (<[v_addr n := sel_set r]> (p_sets p)) db, None)
      end
  end.

Definition populate_visitor (lookbackDelta : Z) (qr : querier q) (s : EvalStmt) : visitor pop := λ p node path,
  match node with
  | VectorSelector n =>
      match select_series lookbackDelta qr s p (p_evalRange p) n path with
      | (p, Some err) => (p, inr err)
      | (p, None) => (p, inl true)
      end
  | MatrixSelector _ _ Range =>
      (MkPop Range (p_warnings p) (p_err p) (p_topNode p) (p_sets p) (p_db p), inl true)
  | _ => (p, inl true)
  end.

(** [parser.Inspect] drops the error of the walk; what is returned is the variable [err]. *)
Definition populateSeries `{ParserLib} (lookbackDelta : Z) (qr : querier q) (s : EvalStmt) (db : D) : pop :=
  (Walk (populate_visitor lookbackDelta qr s) (MkPop 0 [] None None ∅ db) (Expr s)).1.

End hints.

(** ** Selectors of a query *)

(** The selectors of an expression with the paths to them, in the order of the walk. *)
Fixpoint selectors (path : list expr) (e : expr) : list (vsel * list expr) :=
  match e with
  | VectorSelector v => [(v, path)]
  | MatrixSelector _ v _ => [(v, path ++ [e])]
  | SubqueryExpr _ e1 _ _ _ | ParenExpr _ e1 | UnaryExpr _ _ e1 => selectors (path ++ [e]) e1
  | AggregateExpr _ _ e1 Param _ _ =>
      selectors (path ++ [e]) e1 ++ match Param with Some p => selectors (path ++ [e]) p | None => [] end
  | BinaryExpr _ _ l r _ _ => selectors (path ++ [e]) l ++ selectors (path ++ [e]) r
  | Call _ _ _ args => concat (map (selectors (path ++ [e])) args)
  | NumberLiteral _ _ | StringLiteral _ _ => []
  end.

(** The range of the matrix selector around a selector; zero for an instant selector. *)
Definition range_of (path : list expr) : Z :=
  match last path with Some (MatrixSelector _ _ r) => r | _ => 0%Z end.
Definition in_matrix (path : list expr) : bool :=
  match last path with Some (MatrixSelector _ _ _) => true | _ => false end.

Definition is_selector (e : expr) : bool :=
  match e with VectorSelector _ | MatrixSelector _ _ _ => true | _ => false end.

Fixpoint fold_until {S A} (step : S → A → S * option goerror) (s : S) (l : list A) : S * option goerror :=
  match l with
  | [] => (s, None)
  | a :: l => match step s a with
              | (s, None) => fold_until step s l
              | (s, Some err) => (s, Some err)
              end
  end.

Lemma fold_until_app {S A} (step : S → A → S * option goerror) s l1 l2 :
  fold_until step s (l1 ++ l2) =
    match fold_until step s l1 with (s, None) => fold_until step s l2 | (s, Some err) => (s, Some err) end.
Proof. revert s. induction l1 as [|a l1 IH]; intros s; cbn; [done|]. by destruct (step s a) as [s' [err|]]. Qed.

(** A visitor that acts on selectors only, walked over a tree, is a loop over its
    selectors.  [I] is an invariant between selectors. *)
Section walk_selectors.
Context {S : Type} (visit : visitor S) (I : S → Prop) (step : S → vsel * list expr → S * option goerror).
Context (Hvec : ∀ s v path fuel, I s → in_matrix path = false →
  walk_doc visit (Datatypes.S fuel) path s (VectorSelector v) = step s (v, path)).
Context (Hmat : ∀ s a v r path fuel, I s →
  walk_doc visit (Datatypes.S (Datatypes.S fuel)) path s (MatrixSelector a v r) = step s (v, path ++ [MatrixSelector a v r])).
Context (Hother : ∀ s e path, is_selector e = false → visit s e path = (s, inl true)).
Context (Hinv : ∀ s x s', I s → step s x = (s', None) → I s').

Lemma fold_until_inv s l s' : I s → fold_until step s l = (s', None) → I s'.
Proof.
  revert s. induction l as [|a l IH]; intros s Hs; cbn; [by intros [= <-]|].
  destruct (step s a) as [s1 [err|]] eqn:Hstep; [done|]. eauto.
Qed.

Lemma walk_list_selectors (walk : S → expr → S * option goerror) s path l :
  I s → Forall (λ e, ∀ s, I s → walk s e = fold_until step s (selectors path e)) l →
  walk_list walk s l = fold_until step s (concat (map (selectors path) l)).
Proof.
  intros Hs Hl. revert s Hs. induction Hl as [|e l He Hl IH]; intros s Hs; cbn; [done|].
  rewrite fold_until_app, He by done.
  destruct (fold_until step s (selectors path e)) as [s' [err|]] eqn:Hf; [done|].
  apply IH. by eapply fold_until_inv.
Qed.

Lemma in_matrix_snoc path e : in_matrix (path ++ [e]) = match e with MatrixSelector _ _ _ => true | _ => false end.
Proof. unfold in_matrix. by rewrite last_snoc. Qed.

Lemma depth_arg e args : e ∈ args → depth e ≤ foldr (λ e n, depth e `max` n) 0 args.
Proof. induction args as [|x args IH]; [by intros ?%not_elem_of_nil|]. intros [->|Hin]%elem_of_cons; cbn; [lia|]. specialize (IH Hin). lia. Qed.

Lemma walk_selectors_ok e : ∀ fuel path s,
  depth e ≤ fuel → in_matrix path = false → I s → walk_doc visit fuel path s e = fold_until step s (selectors path e).
Proof.
  induction e as [v|a v r|a e r o st IH|a op e p g w IH IHp|a op l r m b IHl IHr|a fn t args IH|a v|a str|a e IH|a op e IH]
    using expr_full_ind; intros fuel path s Hf Hp Hs; cbn [depth] in Hf; destruct fuel as [|fuel]; try lia.
  1: { rewrite Hvec by done. cbn. by destruct (step s (v, path)) as [? [?|]]. }
  1: { destruct fuel as [|fuel]; [lia|]. rewrite Hmat by done. cbn. by destruct (step s _) as [? [?|]]. }
  all: cbn [walk_doc]; rewrite Hother by done; cbn [children selectors].
  - rewrite (walk_list_selectors _ s (path ++ [SubqueryExpr a e r o st]) [e]); [cbn; by rewrite app_nil_r|done|].
    repeat constructor. intros s' Hs'. apply IH; [lia|by rewrite in_matrix_snoc|done].
  - rewrite (walk_list_selectors _ s (path ++ [AggregateExpr a op e p g w]) (e :: option_list p)); [|done|].
    + cbn. f_equal. f_equal. destruct p; cbn; [by rewrite app_nil_r|done].
    + constructor; [|destruct p as [p|]; repeat constructor]; intros s' Hs'; [apply IH|apply IHp]; cbn in Hf; try lia; try done; by rewrite in_matrix_snoc.
  - rewrite (walk_list_selectors _ s (path ++ [BinaryExpr a op l r m b]) [l; r]); [cbn; by rewrite app_nil_r|done|].
    repeat constructor; intros s' Hs'; [apply IHl|apply IHr]; try lia; try done; by rewrite in_matrix_snoc.
  - apply (walk_list_selectors _ s (path ++ [Call a fn t args]) args); [done|].
    apply Forall_forall. intros x Hx s' Hs'. pose proof (depth_arg x args Hx).
    rewrite Forall_forall in IH. apply (IH x Hx); [lia|by rewrite in_matrix_snoc|done].
  - done.
  - done.
  - rewrite (walk_list_selectors _ s (path ++ [ParenExpr a e]) [e]); [cbn; by rewrite app_nil_r|done|].
    repeat constructor. intros s' Hs'. apply IH; [lia|by rewrite in_matrix_snoc|done].
  - rewrite (walk_list_selectors _ s (path ++ [UnaryExpr a op e]) [e]); [cbn; by rewrite app_nil_r|done|].
    repeat constructor. intros s' Hs'. apply IH; [lia|by rewrite in_matrix_snoc|done].
Qed.

End walk_selectors.

(** ** The time range covers every selector *)

(** The range and offset of the subqueries on a path, as integers. *)
Definition subquery_time (path : list expr) : Z :=
  foldr (λ n acc, match n with SubqueryExpr _ _ r o _ => (r + o + acc)%Z | _ => acc end) 0%Z path.

(** How long before the start of the query a selector reads. *)
Definition reach (lookbackDelta : Z) (x : vsel * list expr) : Z :=
  ((if in_matrix x.2 then range_of x.2 else lookbackDelta) + Z.max 0 (v_Offset x.1) + subquery_time x.2)%Z.

(** Durations that are not negative and add up within an [int64]. *)
Definition sane_path (path : list expr) : Prop :=
  Forall (λ n, match n with SubqueryExpr _ _ r o st => (0 ≤ r)%Z ∧ (0 ≤ o)%Z ∧ (0 ≤ st)%Z | MatrixSelector _ _ r => (0 < r)%Z | _ => True end) path.
Definition sane (lookbackDelta : Z) (x : vsel * list expr) : Prop :=
  (0 ≤ lookbackDelta)%Z ∧ (0 ≤ v_Offset x.1)%Z ∧ sane_path x.2 ∧ (reach lookbackDelta x ≤ max_int64)%Z.

(** Removes the reductions of sums that are in range, the innermost first. *)
Ltac unwrap :=
  repeat match goal with
  | |- context [wrap64 ?z] =>
      lazymatch z with
      | context [wrap64 _] => fail
      | _ => rewrite (wrap64_id z) by (unfold in_int64, min_int64, max_int64 in *; lia)
      end
  end.

Lemma subquery_time_nonneg path : sane_path path → (0 ≤ subquery_time path)%Z.
Proof.
  induction 1 as [|e path He Hp IH]; [done|]. unfold subquery_time in *. cbn. destruct e; try done. lia.
Qed.

Lemma cumulative_loop path acc :
  sane_path path → (0 ≤ acc)%Z → (acc + subquery_time path ≤ max_int64)%Z →
  foldl (λ acc n, match n with
                  | SubqueryExpr _ _ Range Offset _ => wrap64 (acc + wrap64 (Range + Offset))
                  | _ => acc
                  end) acc path = (acc + subquery_time path)%Z.
Proof.
  intros Hp. revert acc. induction Hp as [|e path He Hp IH]; intros acc Hacc Hmax; cbn [foldl subquery_time foldr] in *; [lia|].
  fold (subquery_time path) in *. pose proof (subquery_time_nonneg path Hp).
  destruct e; try by apply IH.
  destruct He as (? & ? & ?). unfold max_int64 in *.
  unwrap. rewrite IH; lia.
Qed.

Lemma cumulativeSubqueryOffset_ok path :
  sane_path path → (subquery_time path ≤ max_int64)%Z → cumulativeSubqueryOffset path = subquery_time path.
Proof. intros Hp Hmax. unfold cumulativeSubqueryOffset. rewrite cumulative_loop by (done || lia). lia. Qed.

Lemma range_of_nonneg path : sane_path path → (0 ≤ range_of path)%Z.
Proof.
  intros Hp. unfold range_of. destruct (last path) as [e|] eqn:Hl; [|done].
  apply last_Some_elem_of in Hl. apply (proj1 (Forall_forall _ _) Hp) in Hl. destruct e; lia.
Qed.

Lemma sane_cumulative lookbackDelta x :
  sane lookbackDelta x → cumulativeSubqueryOffset x.2 = subquery_time x.2 ∧ (0 ≤ subquery_time x.2 ≤ max_int64)%Z.
Proof.
  intros (Hlb & Ho & Hp & Hmax). pose proof (subquery_time_nonneg _ Hp). pose proof (range_of_nonneg _ Hp).
  unfold reach in Hmax. assert (subquery_time x.2 ≤ max_int64)%Z by (destruct (in_matrix x.2); lia).
  split; [by apply cumulativeSubqueryOffset_ok|lia].
Qed.

Definition min_time_step (lookbackDelta : Z) (m : Z) (x : vsel * list expr) : Z * option goerror :=
  let sub := cumulativeSubqueryOffset x.2 in
  let r := if in_matrix x.2 then range_of x.2 else lookbackDelta in
  (raise (raise m (wrap64 (r + sub))) (wrap64 (wrap64 (v_Offset x.1 + r) + sub)), None).

Lemma cumulative_snoc path e :
  match e with SubqueryExpr _ _ _ _ _ => False | _ => True end →
  cumulativeSubqueryOffset (path ++ [e]) = cumulativeSubqueryOffset path.
Proof. intros He. unfold cumulativeSubqueryOffset. rewrite foldl_app. cbn. by destruct e. Qed.

Lemma findMinTime_walk `{ParserLib} lookbackDelta s :
  Walk (min_time_visitor lookbackDelta) 0%Z (Expr s)
  = fold_until (min_time_step lookbackDelta) 0%Z (selectors [] (Expr s)).
Proof.
  rewrite Walk_doc. apply (walk_selectors_ok _ (λ _, True)); [..|done|done|done].
  - intros m v path fuel _ Hp. cbn. unfold min_time_step. cbn [fst snd]. by rewrite Hp.
  - intros m a v r path fuel _. cbn [walk_doc min_time_visitor]. unfold min_time_step. cbn [fst snd].
    rewrite in_matrix_snoc, cumulative_snoc by done. unfold range_of. by rewrite last_snoc.
  - by intros m [] path.
  - done.
Qed.

Lemma min_time_step_ok lookbackDelta m x :
  sane lookbackDelta x → (0 ≤ m)%Z →
  min_time_step lookbackDelta m x = (Z.max m (reach lookbackDelta x), None) ∧ (0 ≤ reach lookbackDelta x ≤ max_int64)%Z.
Proof.
  intros Hx Hm. destruct (sane_cumulative _ _ Hx) as [Hc Hsub]. destruct Hx as (Hlb & Ho & Hp & Hmax).
  pose proof (range_of_nonneg _ Hp) as Hr. unfold min_time_step, reach in *. rewrite Hc.
  set (r := if in_matrix x.2 then range_of x.2 else lookbackDelta) in *.
  assert (0 ≤ r)%Z by (unfold r; destruct (in_matrix x.2); lia). unfold max_int64 in *.
  unwrap. split; [|lia]. f_equal.
  unfold raise. repeat case_match; lia.
Qed.

Lemma min_time_fold lookbackDelta l m :
  Forall (sane lookbackDelta) l → (0 ≤ m ≤ max_int64)%Z →
  ∃ m', fold_until (min_time_step lookbackDelta) m l = (m', None) ∧ (m ≤ m' ≤ max_int64)%Z ∧
    Forall (λ x, (reach lookbackDelta x ≤ m')%Z) l ∧ (m' = m ∨ ∃ x, x ∈ l ∧ m' = reach lookbackDelta x).
Proof.
  intros Hl. revert m. induction Hl as [|x l Hx Hl IH]; intros m Hm; cbn [fold_until].
  { exists m. split_and!; try lia; try constructor; auto. }
  destruct (min_time_step_ok _ m x Hx) as [-> Hr]; [lia|].
  destruct (IH (Z.max m (reach lookbackDelta x)) ltac:(lia)) as (m' & -> & Hle & Hall & Hwho).
  exists m'. split_and!; try lia; [done| |].
  - constructor; [lia|done].
  - destruct Hwho as [->|(y & Hy & ->)].
    + destruct (Z.max_spec m (reach lookbackDelta x)) as [[_ ->]|[_ ->]]; [right|by left]. exists x. split; [by left|done].
    + right. exists y. split; [by right|done].
Qed.

Lemma findMinTime_ok `{ParserLib} lookbackDelta s :
  Forall (sane lookbackDelta) (selectors [] (Expr s)) →
  ∃ m, findMinTime lookbackDelta s = Ok (Start s - m)%Z ∧ (0 ≤ m)%Z ∧
    Forall (λ x, (reach lookbackDelta x ≤ m)%Z) (selectors [] (Expr s)) ∧
    (m = 0%Z ∨ ∃ x, x ∈ selectors [] (Expr s) ∧ m = reach lookbackDelta x).
Proof.
  intros Hs. unfold findMinTime. rewrite findMinTime_walk.
  destruct (min_time_fold lookbackDelta _ 0 Hs) as (m & -> & Hm & Hall & Hwho); [unfold max_int64; lia|].
  exists m. rewrite wrap64_id by (unfold in_int64, min_int64, max_int64 in *; lia). split_and!; try done; lia.
Qed.

(** [timeMilliseconds]: the exact nanosecond count is reduced to [int64] first. *)
Definition timeMilliseconds (t : Z) : Z := Z.quot (wrap64 t) 1000000.

(** The evaluator in front of a node: each subquery on the path makes a new one. *)
Fixpoint evaluator_at (ev : evaluator) (path : list expr) : M evaluator :=
  match path with
  | [] => mret ev
  | SubqueryExpr _ _ Range Offset Step :: path =>
      let! ev := subquery_evaluator ev Range Offset Step in evaluator_at ev path
  | _ :: path => evaluator_at ev path
  end.

Lemma ms_nonneg d : (0 ≤ d)%Z → durationMilliseconds d = (d / 1000000)%Z ∧ (0 ≤ d / 1000000)%Z.
Proof.
  intros Hd. unfold durationMilliseconds. rewrite Z.quot_div_nonneg by lia. split; [done|]. by apply Z.div_pos.
Qed.

Lemma ms_add a b : (a / 1000000 + b / 1000000 ≤ (a + b) / 1000000)%Z.
Proof.
  pose proof (Z.div_mod a 1000000 ltac:(lia)). pose proof (Z.div_mod b 1000000 ltac:(lia)).
  pose proof (Z.mod_pos_bound a 1000000 ltac:(lia)). pose proof (Z.mod_pos_bound b 1000000 ltac:(lia)).
  apply Z.div_le_lower_bound; lia.
Qed.

Lemma subquery_start_ok ev ev' r o st s s' :
  (0 ≤ r)%Z → (0 ≤ o)%Z → (0 ≤ st)%Z → (0 ≤ defaultEvalInterval ev)%Z →
  subquery_evaluator ev r o st s = Ok (ev', s') →
  (startTimestamp ev - (o / 1000000 + r / 1000000) ≤ startTimestamp ev')%Z ∧
  (endTimestamp ev' ≤ endTimestamp ev)%Z ∧ (0 < interval ev')%Z ∧ defaultEvalInterval ev' = defaultEvalInterval ev.
Proof.
  intros Hr Ho Hst Hdef. unfold subquery_evaluator. change durationToInt64Millis with durationMilliseconds.
  destruct (ms_nonneg r Hr) as [-> Hr']. destruct (ms_nonneg o Ho) as [-> Ho'].
  destruct (ms_nonneg st Hst) as [-> Hst'].
  set (i := if (st =? 0)%Z then defaultEvalInterval ev else (st / 1000000)%Z).
  assert (0 ≤ i)%Z by (unfold i; by destruct (st =? 0)%Z).
  destruct (Z.eqb_spec i 0); [done|]. set (from := (startTimestamp ev - o / 1000000 - r / 1000000)%Z).
  intros Hrun. apply (f_equal (λ x, match x with Ok (e, _) => Some e | _ => None end)) in Hrun. cbn in Hrun.
  injection Hrun as <-. cbn [startTimestamp endTimestamp interval defaultEvalInterval].
  assert (i * Z.quot from i > from - i)%Z.
  { pose proof (Z.quot_rem' from i). pose proof (Z.rem_bound_abs from i ltac:(lia)). lia. }
  split_and!; [|lia|lia|done]. destruct (Z.ltb_spec (i * Z.quot from i) from); lia.
Qed.

Lemma evaluator_at_ok path ev ev' s s' :
  sane_path path → (0 ≤ defaultEvalInterval ev)%Z → (0 < interval ev)%Z →
  evaluator_at ev path s = Ok (ev', s') →
  (startTimestamp ev - subquery_time path / 1000000 ≤ startTimestamp ev')%Z ∧
  (endTimestamp ev' ≤ endTimestamp ev)%Z ∧ (0 < interval ev')%Z.
Proof.
  intros Hp. revert ev s. induction Hp as [|e path He Hp IH]; intros ev s Hdef Hi Hrun; cbn [evaluator_at] in Hrun.
  { apply (f_equal (λ x, match x with Ok (e, _) => Some e | _ => None end)) in Hrun. injection Hrun as <-.
    change (subquery_time [] / 1000000)%Z with 0%Z. lia. }
  pose proof (subquery_time_nonneg path Hp) as Hn.
  destruct e; try by (apply (IH ev s)).
  destruct He as (Hr & Ho & Hst).
  unfold mbind_ in Hrun. destruct (subquery_evaluator ev Range Offset Step s) as [[ev1 s1]|e1|m1] eqn:Hsub; cbn in Hrun; [|done..].
  destruct (subquery_start_ok ev ev1 Range Offset Step s s1 Hr Ho Hst Hdef Hsub) as (H1 & H2 & H3 & H4).
  destruct (IH ev1 s1) as (H5 & H6 & H7); [lia|done|done|]. split_and!; [|lia|done].
  unfold subquery_time. cbn. fold (subquery_time path).
  pose proof (ms_add Offset Range). pose proof (ms_add (Offset + Range) (subquery_time path)).
  replace (Range + Offset + subquery_time path)%Z with (Offset + Range + subquery_time path)%Z by lia. lia.
Qed.

Section cover.
Context (FromTime : Z → Z) (ItemType_String : ItemType → string).
(** The millisecond a time is in. *)
Context (FromTime_doc : ∀ t, FromTime t = (t / 1000000)%Z).

Definition sane_stmt (s : EvalStmt) : Prop := (0 ≤ Start s ≤ End_ s)%Z ∧ (End_ s ≤ max_int64)%Z.

Definition window_ms (lookbackDelta : Z) (path : list expr) : Z :=
  ((if in_matrix path then range_of path else lookbackDelta) / 1000000)%Z.

Lemma in_matrix_range path : sane_path path → in_matrix path = negb (range_of path =? 0)%Z.
Proof.
  intros Hp. unfold in_matrix, range_of. destruct (last path) as [e|] eqn:Hl; [|done].
  apply last_Some_elem_of in Hl. apply (proj1 (Forall_forall _ _) Hp) in Hl.
  destruct e; try done. by rewrite (proj2 (Z.eqb_neq _ _)) by lia.
Qed.

Lemma selector_hints_ok lookbackDelta s x :
  sane lookbackDelta x → sane_stmt s →
  let h := selector_hints FromTime ItemType_String lookbackDelta s (range_of x.2) x.2 x.1 in
  hs_Start h = (Start s / 1000000 - subquery_time x.2 / 1000000 - window_ms lookbackDelta x.2 - v_Offset x.1 / 1000000)%Z ∧
  hs_End h = (End_ s / 1000000 - v_Offset x.1 / 1000000)%Z.
Proof.
  intros Hx [Hs He]. pose proof (sane_cumulative _ _ Hx) as [Hc Hsub]. destruct Hx as (Hlb & Ho & Hp & Hmax).
  pose proof (range_of_nonneg _ Hp) as Hr. cbv zeta. unfold selector_hints. rewrite Hc, !FromTime_doc.
  unfold window_ms, reach in *. rewrite (in_matrix_range _ Hp) in *.
  destruct (ms_nonneg (subquery_time x.2) ltac:(lia)) as [-> Hsub'].
  destruct (ms_nonneg (range_of x.2) Hr) as [-> Hr']. destruct (ms_nonneg lookbackDelta Hlb) as [-> Hlb'].
  destruct (ms_nonneg (v_Offset x.1) Ho) as [-> Ho'].
  assert ((if (0 <? v_Offset x.1)%Z then (v_Offset x.1 / 1000000)%Z else 0%Z) = (v_Offset x.1 / 1000000)%Z) as ->.
  { destruct (Z.ltb_spec 0 (v_Offset x.1)); [done|]. by replace (v_Offset x.1) with 0%Z by lia. }
  assert (∀ d, (d ≤ max_int64 → d / 1000000 ≤ 9223372036854)%Z) as Hsmall.
  { intros d Hd. transitivity (max_int64 / 1000000)%Z; [apply Z.div_le_mono; lia|]. vm_compute. discriminate. }
  assert (0 ≤ Start s / 1000000 ≤ End_ s / 1000000)%Z by (split; [apply Z.div_pos; lia|apply Z.div_le_mono; lia]).
  pose proof (Hsmall (End_ s) He). pose proof (Hsmall (subquery_time x.2) ltac:(lia)).
  destruct (extractGroupsFromPath x.2) as [By Grouping].
  destruct (Z.eqb_spec (range_of x.2) 0) as [Hz|Hz]; cbn [negb hs_Start hs_End] in *;
    pose proof (Hsmall (v_Offset x.1) ltac:(lia)).
  - pose proof (Hsmall lookbackDelta ltac:(lia)).
    unwrap. lia.
  - pose proof (Hsmall (range_of x.2) ltac:(lia)).
    unwrap. lia.
Qed.

(** What the storage takes as the first time to evaluate [delta] at is the start of the
    query less the offset of the selector: with an offset the points it returns are not
    at the steps of the query. *)
Lemma pushdown_start lookbackDelta s x :
  sane lookbackDelta x → sane_stmt s → in_matrix x.2 = true →
  let h := selector_hints FromTime ItemType_String lookbackDelta s (range_of x.2) x.2 x.1 in
  (hs_Start h + hs_Range h = Start s / 1000000 - subquery_time x.2 / 1000000 - v_Offset x.1 / 1000000)%Z.
Proof.
  intros Hx Hs Hm. destruct (selector_hints_ok lookbackDelta s x Hx Hs) as [H1 _]. cbv zeta in *. rewrite H1.
  destruct Hx as (_ & _ & Hp & _). pose proof (range_of_nonneg _ Hp). rewrite (in_matrix_range _ Hp) in Hm.
  assert (hs_Range (selector_hints FromTime ItemType_String lookbackDelta s (range_of x.2) x.2 x.1)
    = durationMilliseconds (range_of x.2)) as ->.
  { unfold selector_hints. apply negb_true_iff in Hm. rewrite Hm. by destruct (extractGroupsFromPath x.2). }
  unfold window_ms. rewrite (in_matrix_range _ Hp), Hm. rewrite (proj1 (ms_nonneg _ H)). lia.
Qed.

(** C17. The querier is made for a time range that contains the range of every [Select]
    that follows, and no larger than the selector that reaches furthest back needs. *)
Theorem findMinTime_covers `{ParserLib} lookbackDelta s :
  Forall (sane lookbackDelta) (selectors [] (Expr s)) → sane_stmt s →
  ∃ mint, findMinTime lookbackDelta s = Ok mint ∧
    (∀ v path, (v, path) ∈ selectors [] (Expr s) →
      let h := selector_hints FromTime ItemType_String lookbackDelta s (range_of path) path v in
      (FromTime mint ≤ hs_Start h)%Z ∧ (hs_End h ≤ FromTime (End_ s))%Z) ∧
    (mint = Start s ∨ ∃ x, x ∈ selectors [] (Expr s) ∧ mint = (Start s - reach lookbackDelta x)%Z).
Proof.
  intros Hsane Hs. destruct (findMinTime_ok lookbackDelta s Hsane) as (m & Hm & Hpos & Hall & Hwho).
  exists (Start s - m)%Z. split; [done|]. split.
  - intros v path Hin. pose proof (proj1 (Forall_forall _ _) Hsane _ Hin) as Hx.
    pose proof (proj1 (Forall_forall _ _) Hall _ Hin) as Hreach. cbn beta in Hreach.
    destruct (selector_hints_ok lookbackDelta s (v, path) Hx Hs) as [H1 H2]. cbn [fst snd] in H1, H2.
    cbv zeta. rewrite H1, H2, !FromTime_doc. destruct Hx as (Hlb & Ho & Hp & _). cbn [fst snd] in *.
    destruct (ms_nonneg _ Ho) as [_ Ho']. split; [|lia].
    unfold reach, window_ms in *. cbn [fst snd] in *.
    set (w := if in_matrix path then range_of path else lookbackDelta) in *.
    pose proof (ms_add w (v_Offset v)). pose proof (ms_add (w + v_Offset v) (subquery_time path)).
    pose proof (ms_add (Start s - m) (w + v_Offset v + subquery_time path)).
    assert ((Start s - m + (w + v_Offset v + subquery_time path)) / 1000000 ≤ Start s / 1000000)%Z
      by (apply Z.div_le_mono; lia). lia.
  - destruct Hwho as [->|(x & Hx & ->)]; [left; lia|right]. by exists x.
Qed.

(** C16. What the evaluator reads of a selector lies inside the hints its [Select] was given:
    at every step of the evaluator in front of it, under any subqueries, the window of a
    range selector and the lookback of an instant selector. *)
Theorem hints_cover lookbackDelta s v path ev0 ev st st' ts :
  sane lookbackDelta (v, path) → sane_stmt s →
  startTimestamp ev0 = timeMilliseconds (Start s) → endTimestamp ev0 = timeMilliseconds (End_ s) →
  (0 ≤ defaultEvalInterval ev0)%Z → (0 < interval ev0)%Z →
  evaluator_at ev0 path st = Ok (ev, st') → ts ∈ steps ev →
  let h := selector_hints FromTime ItemType_String lookbackDelta s (range_of path) path v in
  let maxt := (ts - durationMilliseconds (v_Offset v))%Z in
  let width := durationMilliseconds (if in_matrix path then range_of path else lookbackDelta) in
  (hs_Start h ≤ maxt - width)%Z ∧ (maxt ≤ hs_End h)%Z.
Proof.
  intros Hx Hs Hstart Hend Hdef Hi Hrun Hts. destruct (selector_hints_ok lookbackDelta s (v, path) Hx Hs) as [H1 H2].
  cbn [fst snd] in H1, H2. cbv zeta. rewrite H1, H2. destruct Hx as (Hlb & Ho & Hp & _). cbn [fst snd] in *.
  pose proof (range_of_nonneg _ Hp) as Hr.
  destruct (evaluator_at_ok path ev0 ev st st' Hp Hdef Hi Hrun) as (H3 & H4 & H5).
  destruct (ms_nonneg _ Ho) as [-> Ho']. unfold window_ms.
  destruct (ms_nonneg (if in_matrix path then range_of path else lookbackDelta)) as [-> Hw];
    [by destruct (in_matrix path)|].
  destruct (Sel.steps_from_spec (Z.to_nat (Z.quot (endTimestamp ev - startTimestamp ev) (interval ev) + 1))
    (startTimestamp ev) (endTimestamp ev) (interval ev) H5) as [_ Hall].
  pose proof (proj1 (Forall_forall _ _) Hall ts Hts) as Hrange. cbn beta in Hrange.
  destruct Hs as [Hs1 Hs2]. unfold timeMilliseconds in *. unfold max_int64 in *.
  rewrite wrap64_id in Hstart, Hend by (unfold in_int64, min_int64, max_int64; lia).
  rewrite Z.quot_div_nonneg in Hstart, Hend by lia. lia.
Qed.

End cover.

(** ** The selects *)

Section populate.
Context (FromTime : Z → Z) (ItemType_String : ItemType → string) {D : Type} (q : Queryable D).

(** One select: the range comes from the node around the selector. *)
Definition select_step (lookbackDelta : Z) (qr : querier q) (s : EvalStmt) (p : pop (D:=D)) (x : vsel * list expr)
    : pop * option goerror :=
  select_series FromTime ItemType_String q lookbackDelta qr s p (range_of x.2) x.1 x.2.

Lemma populateSeries_walk `{ParserLib} lookbackDelta qr s db :
  populateSeries FromTime ItemType_String q lookbackDelta qr s db
  = (fold_until (select_step lookbackDelta qr s) (MkPop 0 [] None None ∅ db) (selectors [] (Expr s))).1.
Proof.
  unfold populateSeries. f_equal. rewrite Walk_doc.
  apply (walk_selectors_ok _ (λ p, p_evalRange p = 0%Z)); [..|done|done|done].
  - intros p v path fuel Hp Hm. cbn [walk_doc populate_visitor children]. unfold select_step. cbn [fst snd].
    assert (range_of path = 0%Z) as ->.
    { unfold in_matrix, range_of in *. destruct (last path) as [[]|]; done. }
    rewrite Hp. by destruct (select_series _ _ _ _ _ _ _ _ _ _) as [p' [err|]].
  - intros p a v r path fuel Hp. cbn [walk_doc populate_visitor children walk_list p_evalRange]. unfold select_step. cbn [fst snd].
    assert (range_of (path ++ [MatrixSelector a v r]) = r) as ->.
    { unfold range_of. by rewrite last_snoc. }
    change (select_series FromTime ItemType_String q lookbackDelta qr s
      (MkPop r (p_warnings p) (p_err p) (p_topNode p) (p_sets p) (p_db p)) r v (path ++ [MatrixSelector a v r]))
      with (select_series FromTime ItemType_String q lookbackDelta qr s p r v (path ++ [MatrixSelector a v r])).
    by destruct (select_series _ _ _ _ _ _ _ _ _ _) as [p' [err|]].
  - by intros p [] path.
  - intros p x p' _. unfold select_step, select_series. destruct (p_topNode p); [done|].
    destruct (Select _ _ _ _ _ _ _) as [d r]. destruct (sel_err r); [done|]. by intros [= <-].
Qed.

(** The series are selected one selector after the other, each with the hints of its
    own place in the query, up to the first error. *)
Theorem populateSeries_spec `{ParserLib} lookbackDelta qr s db :
  populateSeries FromTime ItemType_String q lookbackDelta qr s db
  = (fold_until (select_step lookbackDelta qr s) (MkPop 0 [] None None ∅ db) (selectors [] (Expr s))).1.
Proof. apply populateSeries_walk. Qed.

End populate.

(** ** Examples *)

Module Toy.

Definition millis (t : Z) : Z := (t / 1000000)%Z.
Definition op_text (op : ItemType) : string := "sum".

Definition x : vsel := MkVsel 5 60000000000 [] None.
Definition y : vsel := MkVsel 7 0 [] None.
(** [sum(rate(x[5m] offset 1m)) + max_over_time(y[1h:1m])] *)
Definition sub : expr := SubqueryExpr 6 (VectorSelector y) 3600000000000 0 60000000000.
Definition query : expr :=
  BinaryExpr 1 ADD (AggregateExpr 2 SUM (Call 3 "rate" ValueTypeVector [MatrixSelector 4 x 300000000000]) None [] false)
    (Call 8 "max_over_time" ValueTypeVector [sub]) (MkMatching CardOneToOne [] false []) false.
Definition stmt : EvalStmt := MkStmt query 1600000000000000000 1600003600000000000 60000000000.
Definition lookback : Z := 300000000000.
Definition ev : evaluator := MkEv 1600000000000 1600003600000 60000 1000 0 lookback None ∅.

(** A storage that answers [delta] itself and knows no series. *)
Definition storage : Queryable unit :=
  MkQueryable unit unit (λ db _ _, (db, Ok tt))
    (λ db _ _ h _ _, (db, MkSelected (MkSeriesSet [] None) (if decide (hs_Func h = "delta") then Some 3 else None) [] None)).

Definition delta_x : expr := Call 3 "delta" ValueTypeVector [MatrixSelector 4 x 300000000000].
Definition sum_of (l r : expr) : EvalStmt :=
  MkStmt (BinaryExpr 1 ADD l r (MkMatching CardOneToOne [] false []) false) 1600000000000000000 1600000000000000000 0.

(** After a selector that the storage has evaluated no other selector gets a series set,
    and the error is dropped; with the operands exchanged both get one. *)
Example selector_after_pushdown_is_left_out :
  let p := populateSeries millis op_text storage lookback tt (sum_of delta_x (VectorSelector y)) tt in
  p_err p = None ∧ p_sets p !! 5 ≠ None ∧ p_sets p !! 7 = None.
Proof. vm_compute. done. Qed.

Example selector_before_pushdown_is_selected :
  let p := populateSeries millis op_text storage lookback tt (sum_of (VectorSelector y) delta_x) tt in
  p_err p = None ∧ p_sets p !! 5 ≠ None ∧ p_sets p !! 7 ≠ None.
Proof. vm_compute. done. Qed.

(** A subquery without a step, with the default interval a program starts with. *)
Example subquery_without_step_divides_by_zero st :
  subquery_evaluator (MkEv 0 0 1 100 0 lookback None ∅) 3600000000000 0 0 st
  = Err (RuntimeError "integer divide by zero").
Proof. reflexivity. Qed.

Lemma sane_selectors : Forall (sane lookback) (selectors [] query).
Proof.
  cbn [selectors query sub app concat map]. rewrite !Forall_cons. split_and!; [| |constructor].
  - unfold sane, sane_path. cbn [fst snd x v_Offset]. rewrite !Forall_cons.
    split; [done|]. split; [done|]. split; [by split_and!|]. by vm_compute.
  - unfold sane, sane_path. cbn [fst snd y v_Offset]. rewrite !Forall_cons.
    split; [done|]. split; [done|]. split; [by split_and!|]. by vm_compute.
Qed.

Lemma sane_toy : sane_stmt stmt.
Proof. unfold sane_stmt. cbn [stmt Start End_]. unfold max_int64. lia. Qed.

End Toy.

Lemma findMinTime_covers_witness :
  ∃ mint, findMinTime Toy.lookback Toy.stmt = Ok mint ∧
    ∀ v path, (v, path) ∈ selectors [] Toy.query →
      (Toy.millis mint ≤ hs_Start (selector_hints Toy.millis Toy.op_text Toy.lookback Toy.stmt (range_of path) path v))%Z.
Proof.
  destruct (findMinTime_covers Toy.millis Toy.op_text (λ t, eq_refl) Toy.lookback Toy.stmt Toy.sane_selectors Toy.sane_toy)
    as (mint & Hmint & Hall & _).
  exists mint. split; [exact Hmint|]. intros v path Hin. exact (proj1 (Hall v path Hin)).
Defined.

Lemma hints_cover_witness :
  let path := [Toy.query; Call 8 "max_over_time" ValueTypeVector [Toy.sub]; Toy.sub] in
  let h := selector_hints Toy.millis Toy.op_text Toy.lookback Toy.stmt 0 path Toy.y in
  (hs_Start h ≤ 1599999600000 - 300000)%Z ∧ (1599999600000 ≤ hs_End h)%Z.
Proof.
  destruct (evaluator_at Toy.ev [Toy.query; Call 8 "max_over_time" ValueTypeVector [Toy.sub]; Toy.sub] Sel.Toy.st)
    as [[ev st]|e|m] eqn:Hev; [|vm_compute in Hev; discriminate..].
  apply (hints_cover Toy.millis Toy.op_text (λ t, eq_refl) Toy.lookback Toy.stmt Toy.y
    [Toy.query; Call 8 "max_over_time" ValueTypeVector [Toy.sub]; Toy.sub] Toy.ev ev Sel.Toy.st st 1599999600000).
  - pose proof Toy.sane_selectors as Hs. cbn [selectors Toy.query Toy.sub app concat map] in Hs.
    rewrite !Forall_cons in Hs. exact (proj1 (proj2 Hs)).
  - exact Toy.sane_toy.
  - reflexivity.
  - reflexivity.
  - discriminate.
  - reflexivity.
  - exact Hev.
  - vm_compute in Hev. injection Hev as <- _. apply (list_elem_of_lookup_2 _ 53). vm_compute. reflexivity.
Defined.

End Plan.
