(* ===== verification/QueryLog.v ===== *)
(** * The log of active queries

    [src/pkg/promql/query_logger.go]: a memory-mapped file with a slot for every query
    that may run at once, and the channel of the indices of free slots.  After a crash
    the file tells which queries had not finished.

    The file is its bytes and the channel the list of indices in it.  The state is the
    one at the moment the [select] of [Insert] goes on: what it does while it waits is
    what other queries do. *)
From stdpp Require Import pretty.
From S2P Require Import Prelude Float Marshal.

(** The interface of the engine: [Insert] gives out a free index or the error of the
    context, [Delete] takes an index back. *)
Class QueryTracker (T : Type) := {
  Insert : T → string → T * res Z;
  Delete : T → Z → T;
  GetMaxConcurrent : T → Z;

  tracker_ok : T → Prop;
  (** The indices that are free, and those given out. *)
  free : T → gset Z;
  held : T → Z → Prop;
  Insert_ok : ∀ t q t' i, tracker_ok t → Insert t q = (t', Ok i) →
    tracker_ok t' ∧ i ∈ free t ∧ free t' = free t ∖ {[i]} ∧ held t' i;
  Insert_err : ∀ t q t' e, tracker_ok t → Insert t q = (t', Err e) → t' = t;
  Delete_ok : ∀ t i, tracker_ok t → held t i → tracker_ok (Delete t i) ∧ free (Delete t i) = free t ∪ {[i]};
}.

Module QLog.
Import Marsh.

Definition entrySize : nat := 1000.

(** ** Text *)

(** [strings.ReplaceAll] of zero bytes by nothing. *)
Definition without_zeros (b : bytes) : bytes := filter (λ x, x ≠ 0%Z) b.

Definition parseBrokenJSON (brokenJSON : bytes) : bool * bytes :=
  let queries := without_zeros brokenJSON in
  let queries := if 0 <? length queries then take (length queries - 1) queries ++ J "]" else queries in
  if length queries <=? 1 then (false, J "[]") else (true, queries).

(** [utf8.RuneStart]: not a continuation byte. *)
Definition RuneStart (b : Z) : bool := negb (Z.land b 192 =? 128)%Z.

(** [for !utf8.RuneStart(bytesStr[size]) { size-- }], with the panic of an index
    below zero. *)
Fixpoint trim_loop (bytesStr : bytes) (size : nat) : res nat :=
  match bytesStr !! size with
  | Some b =>
      if RuneStart b then Ok size
      else match size with
           | 0 => Panic "index out of range [-1]"
           | S size => trim_loop bytesStr size
           end
  | None => Panic "index out of range"
  end.

Definition trimStringByBytes (str : bytes) (size : Z) : res bytes :=
  if (size <? Z.of_nat (length str))%Z then
    if (size <? 0)%Z then Panic "index out of range"
    else let* k := trim_loop str (Z.to_nat size) in Ok (take k str)
  else Ok str.

(** [json.Marshal] of an [Entry]. *)
Definition _newJSONEntry (query : bytes) (timestamp : Z) : bytes :=
  J "{'query':'" ++ escape query ++ J "','timestamp_sec':" ++ bytes_of (pretty timestamp) ++ J "}".

Definition newJSONEntry (query : bytes) (timestamp : Z) : res bytes :=
  let minEntryJSON := _newJSONEntry [] timestamp in
  let* query := trimStringByBytes query (Z.of_nat entrySize - (Z.of_nat (length minEntryJSON) + 1)) in
  Ok (_newJSONEntry query timestamp).

(** ** The tracker *)

Record ActiveQueryTracker := MkTracker {
  mmapedFile : bytes;
  getNextIndex : list Z;
  maxConcurrent : nat;
}.

Definition zeros (n : nat) : bytes := replicate n 0%Z.

(** [copy(file[start:], src)]. *)
Definition copy_at (file : bytes) (start : Z) (src : bytes) : res bytes :=
  let k := Z.to_nat start in
  if (start <? 0)%Z || (length file <? k) then Panic "slice bounds out of range"
  else Ok (take k file ++ take (length file - k) src ++ drop (k + length src) file).

Definition generateIndices (maxConcurrent : nat) : list Z :=
  (λ i, 1 + Z.of_nat i * Z.of_nat entrySize)%Z <$> seq 0 maxConcurrent.

Definition filesize (maxConcurrent : nat) : nat := 1 + maxConcurrent * entrySize.

(** What [logUnfinishedQueries] reports of the old file: it is read into a buffer of the
    size of the new one. *)
Definition logUnfinishedQueries (old : option bytes) (filesize : nat) : option bytes :=
  match old with
  | Some old =>
      let brokenJSON := take filesize old ++ zeros (filesize - length old) in
      let '(queriesExist, queries) := parseBrokenJSON brokenJSON in
      if queriesExist then Some queries else None
  | None => None
  end.

(** [getMMapedFile] truncates the file and grows it with zeros, or fails. *)
Definition getMMapedFile (failure : option goerror) (filesize : nat) : res bytes :=
  match failure with Some err => Err err | None => Ok (zeros filesize) end.

Definition NewActiveQueryTracker (old : option bytes) (failure : option goerror) (maxConcurrent : nat)
    : option bytes * res ActiveQueryTracker :=
  let size := filesize maxConcurrent in
  (logUnfinishedQueries old size,
   match getMMapedFile failure size with
   | Ok file => let* file := copy_at file 0 (J "[") in Ok (MkTracker file (generateIndices maxConcurrent) maxConcurrent)
   | _ => Panic "Unable to create mmap-ed active query log"
   end).

Definition tracker_GetMaxConcurrent (t : ActiveQueryTracker) : Z := Z.of_nat (maxConcurrent t).

Definition tracker_Delete (t : ActiveQueryTracker) (insertIndex : Z) : res ActiveQueryTracker :=
  let* file := copy_at (mmapedFile t) insertIndex (zeros entrySize) in
  Ok (MkTracker file (getNextIndex t ++ [insertIndex]) (maxConcurrent t)).

(** The two writes of [Insert] at an index. *)
Definition write_entry (file : bytes) (i : Z) (entry : bytes) : res bytes :=
  let* file := copy_at file i entry in
  copy_at file (i + Z.of_nat entrySize - 1) (J ",").

(** [ended] is the error of the context, when it has ended and is chosen; without a free
    index the call waits, and ends with the context. *)
Definition tracker_Insert (ended : option goerror) (last_err : goerror) (now : Z) (t : ActiveQueryTracker) (query : bytes)
    : ActiveQueryTracker * res Z :=
  match ended, getNextIndex t with
  | None, i :: rest =>
      match (let* entry := newJSONEntry query now in write_entry (mmapedFile t) i entry) with
      | Ok file => (MkTracker file rest (maxConcurrent t), Ok i)
      | Err err => (MkTracker (mmapedFile t) rest (maxConcurrent t), Err err)
      | Panic m => (MkTracker (mmapedFile t) rest (maxConcurrent t), Panic m)
      end
  | Some err, _ => (t, Err err)
  | None, [] => (t, Err last_err)
  end.

(** ** Trimming *)

Definition is_start (s : bytes) (k : nat) : Prop := ∃ b, s !! k = Some b ∧ RuneStart b = true.

Lemma trim_loop_spec s n k :
  trim_loop s n = Ok k → k ≤ n ∧ is_start s k ∧ ∀ j, k < j ≤ n → ¬ is_start s j.
Proof.
  induction n as [|n IH]; cbn [trim_loop].
  - destruct (s !! 0) as [b|] eqn:Hb; [|done]. destruct (RuneStart b) eqn:Hr; [|done]. intros [= <-].
    split; [done|]. split; [by exists b|lia].
  - destruct (s !! S n) as [b|] eqn:Hb; [|done]. destruct (RuneStart b) eqn:Hr.
    + intros [= <-]. split; [done|]. split; [by exists b|lia].
    + intros Hk. destruct (IH Hk) as (Hle & Hs & Hno). split; [lia|]. split; [done|].
      intros j Hj. destruct (decide (j = S n)) as [->|]; [|apply Hno; lia].
      intros (b' & Hb' & Hr'). rewrite Hb in Hb'. injection Hb' as ->. congruence.
Qed.

Lemma trim_loop_total s n : n < length s → (∃ k, k ≤ n ∧ is_start s k) → ∃ k, trim_loop s n = Ok k.
Proof.
  induction n as [|n IH]; intros Hn (k & Hk & Hs); cbn [trim_loop].
  - destruct Hs as (b & Hb & Hr). replace k with 0 in Hb by lia. rewrite Hb, Hr. by exists 0.
  - destruct (lookup_lt_is_Some_2 s (S n) Hn) as [b Hb]. rewrite Hb. destruct (RuneStart b) eqn:Hr; [by exists (S n)|].
    apply IH; [lia|]. exists k. split; [|done]. destruct (decide (k = S n)) as [->|]; [|lia].
    destruct Hs as (b' & Hb' & Hr'). rewrite Hb in Hb'. injection Hb' as ->. congruence.
Qed.

Lemma trim_ok s size r :
  trimStringByBytes s size = Ok r → r = take (length r) s ∧
    ((Z.of_nat (length s) ≤ size)%Z ∧ r = s ∨
     (0 ≤ size < Z.of_nat (length s))%Z ∧ (Z.of_nat (length r) ≤ size)%Z ∧ is_start s (length r)).
Proof.
  unfold trimStringByBytes. destruct (Z.ltb_spec size (Z.of_nat (length s))) as [Hlt|Hge].
  - destruct (Z.ltb_spec size 0); [done|]. intros Hr. apply res_bind_ok in Hr as (k & Hk & [= <-]).
    apply trim_loop_spec in Hk as (Hle & Hs & _). rewrite length_take_le by lia. split; [done|]. right. split_and!; try lia. done.
  - intros [= <-]. rewrite take_ge by lia. auto.
Qed.

Lemma newJSONEntry_ok q now e :
  newJSONEntry q now = Ok e → ∃ q', q' = take (length q') q ∧ e = _newJSONEntry q' now ∧
    (length q' ≤ length q) ∧ ((length (_newJSONEntry [] now) + length q' + 1 ≤ entrySize)%nat).
Proof.
  unfold newJSONEntry. intros He. apply res_bind_ok in He as (q' & Hq & [= <-]). exists q'.
  apply trim_ok in Hq as [Hpre Hcase]. split; [done|]. split; [done|].
  assert (length q' ≤ length q) by (rewrite Hpre, length_take; lia). split; [done|].
  destruct Hcase as [[Hle ->]|(? & Hle & _)]; lia.
Qed.

(** ** The file as slots *)

Definition index_of (k : nat) : Z := (1 + Z.of_nat k * Z.of_nat entrySize)%Z.

Definition slot (x : option bytes) : bytes :=
  match x with
  | None => zeros entrySize
  | Some e => e ++ zeros (entrySize - 1 - length e) ++ J ","
  end.
Definition layout (slots : list (option bytes)) : bytes := J "[" ++ concat (slot <$> slots).

(** An entry that leaves room for the comma. *)
Definition fits (e : bytes) : Prop := length e < entrySize ∧ Forall (λ b, b ≠ 0%Z) e.
Definition slot_fits (x : option bytes) : Prop := match x with Some e => fits e | None => True end.

Lemma slot_length x : slot_fits x → length (slot x) = entrySize.
Proof.
  destruct x as [e|]; intros Hx; cbn [slot]; [|apply length_replicate].
  destruct Hx as [Hx _]. rewrite !length_app. unfold zeros. rewrite length_replicate. change (length (J ",")) with 1. lia.
Qed.

Lemma slots_length slots : Forall slot_fits slots → length (concat (slot <$> slots)) = length slots * entrySize.
Proof.
  induction 1 as [|x slots Hx Hs IH]; [done|]. rewrite fmap_cons. cbn [concat]. rewrite length_app, IH, slot_length by done. done.
Qed.

Lemma copy_at_mid pre mid post src :
  length src ≤ length mid →
  copy_at (pre ++ mid ++ post) (Z.of_nat (length pre)) src = Ok (pre ++ src ++ drop (length src) mid ++ post).
Proof.
  intros Hle. unfold copy_at. rewrite (proj2 (Z.ltb_ge _ _)), Nat2Z.id by lia. cbn [orb].
  rewrite (proj2 (Nat.ltb_ge _ _)) by (rewrite length_app; lia). do 2 f_equal; [by rewrite take_app_length|].
  f_equal.
  - rewrite take_ge; [done|]. rewrite !length_app. lia.
  - rewrite drop_app_add, drop_app_le by done. done.
Qed.

Lemma layout_split slots k x :
  slots !! k = Some x →
  layout slots = (J "[" ++ concat (slot <$> take k slots)) ++ slot x ++ concat (slot <$> drop (S k) slots).
Proof.
  intros Hk. unfold layout. rewrite <-(assoc_L (++)). f_equal.
  rewrite <-(take_drop_middle slots k x Hk) at 1. by rewrite fmap_app, fmap_cons, concat_app.
Qed.

Lemma prefix_length slots k x :
  Forall slot_fits slots → slots !! k = Some x →
  Z.of_nat (length (J "[" ++ concat (slot <$> take k slots))) = index_of k.
Proof.
  intros Hs Hk. apply lookup_lt_Some in Hk. rewrite length_app, slots_length by (by apply Forall_take).
  rewrite length_take_le by lia. change (length (J "[")) with 1. unfold index_of. lia.
Qed.

Lemma layout_insert slots k x y :
  slots !! k = Some x →
  layout (<[k := y]> slots) = (J "[" ++ concat (slot <$> take k slots)) ++ slot y ++ concat (slot <$> drop (S k) slots).
Proof.
  intros Hk. pose proof (lookup_lt_Some _ _ _ Hk). rewrite (layout_split (<[k:=y]> slots) k y).
  - rewrite take_insert_ge, drop_insert_lt by lia. done.
  - apply list_lookup_insert_eq. lia.
Qed.

(** Writing an entry that fits changes its slot only. *)
Lemma write_entry_ok slots k e :
  Forall slot_fits slots → slots !! k = Some None → fits e →
  write_entry (layout slots) (index_of k) e = Ok (layout (<[k := Some e]> slots)).
Proof.
  intros Hs Hk [He _]. unfold write_entry. rewrite (layout_split slots k None Hk), (layout_insert slots k None (Some e) Hk).
  pose proof (prefix_length slots k None Hs Hk) as Hlen. set (pre := J "[" ++ _) in *. set (post := concat _).
  rewrite <-Hlen. rewrite copy_at_mid by (cbn [slot]; unfold zeros; rewrite length_replicate; lia).
  cbn [res_bind slot]. unfold zeros at 1. rewrite drop_replicate.
  assert (entrySize - length e = entrySize - 1 - length e + 1) as -> by lia. rewrite replicate_add.
  assert (pre ++ e ++ (replicate (entrySize - 1 - length e) 0%Z ++ replicate 1 0%Z) ++ post
    = (pre ++ e ++ zeros (entrySize - 1 - length e)) ++ replicate 1 0%Z ++ post) as ->.
  { unfold zeros. by rewrite <-!(assoc_L (++)). }
  assert (Z.of_nat (length pre) + Z.of_nat entrySize - 1 = Z.of_nat (length (pre ++ e ++ zeros (entrySize - 1 - length e))))%Z as ->.
  { rewrite !length_app. unfold zeros. rewrite length_replicate. lia. }
  rewrite copy_at_mid by (cbn; lia). f_equal. by rewrite <-!(assoc_L (++)).
Qed.

Lemma clear_slot_ok slots k x :
  Forall slot_fits slots → slots !! k = Some x →
  copy_at (layout slots) (index_of k) (zeros entrySize) = Ok (layout (<[k := None]> slots)).
Proof.
  intros Hs Hk. rewrite (layout_split slots k x Hk), (layout_insert slots k x None Hk).
  rewrite <-(prefix_length slots k x Hs Hk).
  assert (slot_fits x) as Hx by (by apply (Forall_lookup_1 _ _ _ _ Hs Hk)).
  rewrite copy_at_mid by (rewrite slot_length by done; unfold zeros; by rewrite length_replicate).
  do 3 f_equal. unfold zeros. rewrite length_replicate, drop_ge; [done|]. by rewrite slot_length.
Qed.

(** ** Reading the file back *)

Lemma without_zeros_zeros n : without_zeros (zeros n) = [].
Proof.
  unfold without_zeros, zeros. induction n as [|n IH]; [done|].
  cbn [replicate]. rewrite filter_cons_False; [done|]. intros Hz. by apply Hz.
Qed.

Lemma without_zeros_all e : Forall (λ b, b ≠ 0%Z) e → without_zeros e = e.
Proof. induction 1 as [|b e Hb He IH]; [done|]. unfold without_zeros in *. by rewrite filter_cons_True, IH. Qed.

Lemma without_zeros_slots slots :
  Forall slot_fits slots →
  without_zeros (concat (slot <$> slots)) = concat ((λ e, e ++ J ",") <$> omap id slots).
Proof.
  induction 1 as [|x slots Hx Hs IH]; [done|]. rewrite fmap_cons. cbn [concat].
  unfold without_zeros in *. rewrite filter_app, IH.
  destruct x as [e|]; cbn [omap list_omap id slot].
  - destruct Hx as [_ He]. rewrite !filter_app. fold (without_zeros e). rewrite without_zeros_all by done.
    fold (without_zeros (zeros (entrySize - 1 - length e))). by rewrite without_zeros_zeros.
  - fold (without_zeros (zeros entrySize)). by rewrite without_zeros_zeros.
Qed.

Lemma commas_concat l : J "," ++ concat ((λ e, e ++ J ",") <$> l) = commas false l ++ J ",".
Proof. induction l as [|e l IH]; [done|]. rewrite fmap_cons. cbn [concat commas]. rewrite <-!(assoc_L (++)), <-IH. done. Qed.

Lemma parse_layout slots :
  Forall slot_fits slots →
  parseBrokenJSON (layout slots) =
    match omap id slots with
    | [] => (false, J "[]")
    | es => (true, J "[" ++ commas true es ++ J "]")
    end.
Proof.
  intros Hs.
  assert (without_zeros (layout slots) = J "[" ++ concat ((λ e, e ++ J ",") <$> omap id slots)) as Hz.
  { unfold layout. unfold without_zeros. rewrite filter_app. f_equal. by apply without_zeros_slots. }
  unfold parseBrokenJSON. rewrite Hz. clear Hz. destruct (omap id slots) as [|e l]; [done|].
  assert (J "[" ++ concat ((λ e, e ++ J ",") <$> e :: l) = (J "[" ++ commas true (e :: l)) ++ J ",") as ->.
  { rewrite fmap_cons. cbn [concat commas app]. rewrite <-!(assoc_L (++)). by rewrite commas_concat. }
  rewrite length_app. change (length (J ",")) with 1. rewrite Nat.add_1_r, Nat.sub_1_r. cbn [Nat.pred Nat.ltb Nat.leb].
  rewrite take_app_length. rewrite (proj2 (Nat.leb_gt _ _)); [by rewrite <-(assoc_L (++))|].
  rewrite !length_app. cbn [J length]. lia.
Qed.

(** ** Entries *)

Notation nonzero := (Forall (λ b, b ≠ 0%Z)).

Lemma nonzero_text s : forallb (λ b, negb (b =? 0)%Z) s = true → nonzero s.
Proof.
  rewrite forallb_forall. intros Hs. apply Forall_forall. intros b Hb%list_elem_of_In%Hs.
  apply negb_true_iff in Hb. by apply Z.eqb_neq.
Qed.

Lemma pretty_N_go_nonzero x s : nonzero (bytes_of s) → nonzero (bytes_of (pretty_N_go x s)).
Proof.
  revert s. induction (N.lt_wf_0 x) as [x _ IH]. intros s Hs. destruct (decide (0 < x)%N) as [Hx|Hx].
  - rewrite pretty_N_go_step by done. apply IH; [by apply N.div_lt|].
    unfold bytes_of. cbn [String.list_ascii_of_string fmap list_fmap]. constructor; [|done].
    unfold pretty_N_char. repeat case_match; done.
  - replace x with 0%N by lia. by rewrite pretty_N_go_0.
Qed.

Lemma pretty_nonzero (z : Z) : nonzero (bytes_of (pretty z)).
Proof.
  assert (∀ n, nonzero (bytes_of (pretty (n : N)))) as Hn.
  { intros n. unfold pretty, pretty_N. case_decide; [by repeat constructor|]. by apply pretty_N_go_nonzero. }
  destruct z as [|p|p]; [by repeat constructor|apply Hn|].
  change (pretty (Zneg p)) with ("-" +:+ pretty (N.pos p)).
  unfold bytes_of. cbn [String.append String.list_ascii_of_string fmap list_fmap]. constructor; [done|apply Hn].
Qed.

Lemma entry_nonzero q now : Forall is_byte q → nonzero (_newJSONEntry q now).
Proof.
  intros Hq. unfold _newJSONEntry. rewrite !Forall_app. split_and!; try (by apply nonzero_text); [|apply pretty_nonzero].
  eapply Forall_impl; [by apply escape_go_harmless|]. unfold harmless. simpl. lia.
Qed.

(** Text that JSON does not escape. *)
Definition plain_text (q : bytes) : Prop := Forall (λ b, (0 ≤ b < 128)%Z ∧ htmlSafeSet b = true) q.

Lemma escape_plain q : plain_text q → escape q = q.
Proof.
  intros Hq. unfold escape. induction Hq as [|b q [Hb Hs] Hq IH]; [done|].
  cbn [length escape_go piece]. rewrite (proj2 (Z.ltb_lt b 128)) by lia. rewrite Hs.
  change (drop 1 (b :: q)) with q. by rewrite IH.
Qed.

(** An entry that is shorter than its slot fits: it holds no zero byte, however much of
    the query JSON escapes. *)
Lemma short_entry_fits q now e :
  Forall is_byte q → newJSONEntry q now = Ok e → length e < entrySize → fits e.
Proof.
  intros Hq He Hlen. apply newJSONEntry_ok in He as (q' & Hpre & -> & _). split; [done|].
  apply entry_nonzero. rewrite Hpre. by apply Forall_take.
Qed.

(** A query that is not escaped is cut to the slot. *)
Lemma plain_entry_fits q now e : plain_text q → newJSONEntry q now = Ok e → fits e.
Proof.
  intros Hq He. apply newJSONEntry_ok in He as (q' & Hpre & -> & _ & Hlen).
  assert (plain_text q') as Hq' by (rewrite Hpre; by apply Forall_take). split.
  - revert Hlen. unfold _newJSONEntry. rewrite (escape_plain q') by done. rewrite !length_app.
    change (length (escape [])) with 0. lia.
  - apply entry_nonzero. eapply Forall_impl; [exact Hq'|]. unfold is_byte. intros b [? _]. lia.
Qed.

(** ** Runs of the tracker *)

(** States reached with the entries in the slots.  The query is cut to the slot before
    JSON escapes it; its entry has to be shorter than the slot all the same, which holds
    when nothing is escaped ([plain_entry_fits]) and when the entry of the whole query
    fits. *)
Inductive runs (max : nat) : ActiveQueryTracker → list (option bytes) → Prop :=
  | runs_start old report t :
      NewActiveQueryTracker old None max = (report, Ok t) → runs max t (replicate max None)
  | runs_insert t slots last_err now q t' k entry :
      runs max t slots → Forall is_byte q → newJSONEntry q now = Ok entry → length entry < entrySize →
      tracker_Insert None last_err now t q = (t', Ok (index_of k)) → runs max t' (<[k := Some entry]> slots)
  | runs_delete t slots t' k entry :
      runs max t slots → slots !! k = Some (Some entry) → tracker_Delete t (index_of k) = Ok t' →
      runs max t' (<[k := None]> slots).

Lemma index_of_inj j k : index_of j = index_of k → j = k.
Proof. unfold index_of, entrySize. lia. Qed.

Lemma elem_of_indices i max : i ∈ generateIndices max ↔ ∃ k, k < max ∧ i = index_of k.
Proof.
  unfold generateIndices. rewrite list_elem_of_fmap. split.
  - intros (k & -> & Hk%elem_of_seq). exists k. split; [lia|done].
  - intros (k & Hk & ->). exists k. split; [done|]. apply elem_of_seq. lia.
Qed.

Lemma layout_empty max : layout (replicate max None) = J "[" ++ zeros (max * entrySize).
Proof.
  unfold layout. f_equal. induction max as [|max IH]; [done|].
  cbn [replicate fmap list_fmap concat]. rewrite IH. cbn [slot]. unfold zeros. by rewrite <-replicate_add.
Qed.

Lemma new_tracker_ok old max report t :
  NewActiveQueryTracker old None max = (report, Ok t) →
  mmapedFile t = layout (replicate max None) ∧ getNextIndex t = generateIndices max ∧ maxConcurrent t = max.
Proof.
  unfold NewActiveQueryTracker. cbn [getMMapedFile].
  assert (copy_at (zeros (filesize max)) 0 (J "[") = Ok (layout (replicate max None))) as ->.
  { rewrite layout_empty. exact (copy_at_mid [] [0%Z] (zeros (max * entrySize)) (J "[") (le_n 1)). }
  cbn [res_bind]. by intros [= _ <-].
Qed.

Lemma index_in_file slots k : k < length slots → Forall slot_fits slots → Z.to_nat (index_of k) + entrySize ≤ length (layout slots).
Proof.
  intros Hk Hs. unfold layout. rewrite length_app, slots_length by done. change (length (J "[")) with 1.
  unfold index_of, entrySize. lia.
Qed.

(** The invariant: the file is its slots, and the channel holds the indices of the empty
    ones, each once. *)
Lemma runs_inv max t slots :
  runs max t slots →
  mmapedFile t = layout slots ∧ Forall slot_fits slots ∧ length slots = max ∧ maxConcurrent t = max ∧
  NoDup (getNextIndex t) ∧ (∀ i, i ∈ getNextIndex t ↔ ∃ k, slots !! k = Some None ∧ i = index_of k).
Proof.
  induction 1 as [old report t Hnew|t slots last_err now q t' k entry Ht IH Hq He Hsize Hins|t slots t' k entry Ht IH Hk Hdel].
  - apply new_tracker_ok in Hnew as (-> & -> & ->). split_and!; try done.
    + by apply Forall_replicate.
    + apply length_replicate.
    + unfold generateIndices. apply NoDup_fmap_2_strong; [|apply NoDup_seq].
      intros i j _ _ Hij. by apply index_of_inj.
    + intros i. rewrite elem_of_indices. split; intros (k & Hk & ->); exists k; (split; [|done]).
      * by apply lookup_replicate.
      * by apply lookup_replicate in Hk as [_ Hk].
  - destruct IH as (Hfile & Hs & Hlen & Hmax & Hnd & Hfree). unfold tracker_Insert in Hins.
    destruct (getNextIndex t) as [|i rest] eqn:Hch; [done|]. rewrite He in Hins. cbn [res_bind] in Hins.
    assert (∃ k', slots !! k' = Some None ∧ i = index_of k') as (k' & Hk' & ->) by (apply Hfree; by left).
    pose proof (short_entry_fits q now entry Hq He Hsize) as Hfit.
    rewrite Hfile, write_entry_ok in Hins by done. injection Hins as <- Hki. apply index_of_inj in Hki as ->.
    cbn [mmapedFile getNextIndex maxConcurrent]. apply NoDup_cons in Hnd as [Hni Hnd]. split_and!; try done.
    + by apply Forall_insert.
    + by rewrite length_insert.
    + intros i. split.
      * intros Hi. destruct (proj1 (Hfree i)) as (j & Hj & ->); [by right|]. exists j. split; [|done].
        rewrite list_lookup_insert_ne; [done|]. by intros ->.
      * intros (j & Hj & ->). destruct (decide (j = k)) as [->|Hne].
        { rewrite list_lookup_insert_eq in Hj by (by eapply lookup_lt_Some). done. }
        rewrite list_lookup_insert_ne in Hj by done.
        assert (index_of j ∈ index_of k :: rest) as Hin by (apply Hfree; eauto).
        apply elem_of_cons in Hin as [Heq%index_of_inj|]; done.
  - destruct IH as (Hfile & Hs & Hlen & Hmax & Hnd & Hfree). unfold tracker_Delete in Hdel.
    rewrite Hfile, (clear_slot_ok slots k (Some entry)) in Hdel by done. injection Hdel as <-.
    cbn [mmapedFile getNextIndex maxConcurrent]. split_and!; try done.
    + by apply Forall_insert.
    + by rewrite length_insert.
    + apply NoDup_app. split; [done|]. split; [|by apply NoDup_singleton].
      intros i Hi Hik%list_elem_of_singleton. apply Hfree in Hi as (j & Hj & ->).
      apply index_of_inj in Hik as ->. congruence.
    + intros i. rewrite elem_of_app, list_elem_of_singleton. split.
      * intros [Hi| ->].
        { apply Hfree in Hi as (j & Hj & ->). exists j. split; [|done].
          rewrite list_lookup_insert_ne; [done|]. intros ->. congruence. }
        exists k. split; [|done]. apply list_lookup_insert_eq. by eapply lookup_lt_Some.
      * intros (j & Hj & ->). destruct (decide (j = k)) as [->|Hne]; [by right|]. left. apply Hfree.
        rewrite list_lookup_insert_ne in Hj by done. eauto.
Qed.

(** C25. When the program stops with queries running, the next start reports exactly these
    queries, as one JSON list in the order of their slots, whatever was inserted and
    deleted before; with none running it reports nothing.  The queries are those whose
    JSON entry, escapes included, is shorter than its slot of 1000 bytes: an entry that
    escapes make longer damages the slot after it ([long_entry_damages_next_slot]). *)
Theorem unfinished_queries_reported max t slots :
  runs max t slots →
  logUnfinishedQueries (Some (mmapedFile t)) (filesize max) =
    match omap id slots with
    | [] => None
    | entries => Some (J "[" ++ commas true entries ++ J "]")
    end.
Proof.
  intros (Hfile & Hs & Hlen & _)%runs_inv. unfold logUnfinishedQueries.
  assert (length (mmapedFile t) = filesize max) as Hsize.
  { rewrite Hfile. unfold layout, filesize. rewrite length_app, slots_length by done. by rewrite Hlen. }
  rewrite Hsize, Nat.sub_diag, <-Hsize, firstn_all, app_nil_r, Hfile, parse_layout by done.
  by destruct (omap id slots).
Qed.

(** An [Insert] gets a slot of its own: none of the running queries has its index. *)
Lemma insert_own_slot max t slots last_err now q t' i :
  runs max t slots → tracker_Insert None last_err now t q = (t', Ok i) →
  ∃ k, i = index_of k ∧ slots !! k = Some None.
Proof.
  intros (_ & _ & _ & _ & _ & Hfree)%runs_inv. unfold tracker_Insert.
  destruct (getNextIndex t) as [|i' rest]; [done|].
  destruct (let* entry := newJSONEntry q now in write_entry (mmapedFile t) i' entry); try done.
  intros [= _ ->]. destruct (proj1 (Hfree i)) as (k & Hk & ->); [by left|]. eauto.
Qed.

(** ** The interface *)

Definition valid (t : ActiveQueryTracker) : Prop :=
  length (mmapedFile t) = filesize (maxConcurrent t) ∧ NoDup (getNextIndex t) ∧
  Forall (λ i, i ∈ generateIndices (maxConcurrent t)) (getNextIndex t).

Lemma copy_at_length file i src file' : copy_at file i src = Ok file' → length file' = length file.
Proof.
  unfold copy_at. destruct (Z.ltb_spec i 0); [done|]. destruct (Nat.ltb_spec (length file) (Z.to_nat i)); [done|].
  intros [= <-]. rewrite !length_app, length_take, length_take, length_drop. lia.
Qed.

Lemma write_entry_length file i e file' : write_entry file i e = Ok file' → length file' = length file.
Proof.
  unfold write_entry. intros Hw. apply res_bind_ok in Hw as (f & H1%copy_at_length & H2%copy_at_length). congruence.
Qed.

Lemma copy_at_ok file i src : (0 ≤ i)%Z → Z.to_nat i ≤ length file → ∃ file', copy_at file i src = Ok file'.
Proof.
  intros Hi Hle. unfold copy_at. rewrite (proj2 (Z.ltb_ge _ _)) by lia. cbn [orb].
  rewrite (proj2 (Nat.ltb_ge _ _)) by lia. eauto.
Qed.

(** Writing an entry fails by a panic only. *)
Lemma insert_no_err q now file i e :
  (let* entry := newJSONEntry q now in write_entry file i entry) = Err e → False.
Proof.
  assert (∀ s n e, trim_loop s n = Err e → False) as Htrim.
  { intros s n e'. induction n as [|n IH]; cbn [trim_loop]; destruct (s !! _) as [b|]; try done;
      by destruct (RuneStart b). }
  assert (∀ f i s e, copy_at f i s = Err e → False) as Hcopy.
  { intros f i' s e'. unfold copy_at. by destruct (_ || _). }
  unfold newJSONEntry, trimStringByBytes, write_entry. intros Hw.
  destruct (_ <? Z.of_nat (length q))%Z; [destruct (_ <? 0)%Z; [done|]; destruct (trim_loop _ _) eqn:Ht|];
    cbn [res_bind] in Hw; try done; try (by eapply Htrim);
    destruct (copy_at _ _ _) eqn:Hc in Hw; cbn [res_bind] in Hw; try done; by eapply Hcopy.
Qed.

Definition tracker_delete (t : ActiveQueryTracker) (i : Z) : ActiveQueryTracker :=
  match tracker_Delete t i with Ok t => t | _ => t end.

#[export] Program Instance ActiveQueryTracker_ops (ended : option goerror) (last_err : goerror) (now : Z)
    : QueryTracker ActiveQueryTracker := {
  Insert t q := tracker_Insert ended last_err now t (bytes_of q);
  Delete := tracker_delete;
  GetMaxConcurrent := tracker_GetMaxConcurrent;
  tracker_ok := valid;
  free t := list_to_set (getNextIndex t);
  held t i := i ∈ generateIndices (maxConcurrent t) ∧ i ∉ getNextIndex t;
}.
Next Obligation.
  intros ended last_err now t q t' i (Hlen & Hnd & Hall) Hins. unfold tracker_Insert in Hins.
  destruct ended; [done|]. destruct (getNextIndex t) as [|j rest]; [done|].
  destruct (let* entry := newJSONEntry (bytes_of q) now in write_entry (mmapedFile t) j entry) as [file|e|m] eqn:Hw; [|done..].
  injection Hins as <- ->. apply res_bind_ok in Hw as (entry & _ & Hw%write_entry_length).
  apply NoDup_cons in Hnd as [Hi Hnd]. apply Forall_cons in Hall as [Hini Hall].
  split; [split_and!; cbn [mmapedFile maxConcurrent getNextIndex]; [congruence|done..]|]. cbn [getNextIndex maxConcurrent]. split; [set_solver|]. split; [|done].
  rewrite list_to_set_cons. apply leibniz_equiv. intros x.
  rewrite elem_of_difference, elem_of_union, elem_of_singleton, !elem_of_list_to_set.
  split; [|tauto]. intros Hx. split; [by right|]. by intros ->.
Qed.
Next Obligation.
  intros ended last_err now t q t' e Hok Hins. unfold tracker_Insert in Hins.
  destruct ended; [by injection Hins as <-|]. destruct (getNextIndex t) as [|j rest]; [by injection Hins as <-|].
  destruct (let* entry := newJSONEntry (bytes_of q) now in write_entry (mmapedFile t) j entry) eqn:Hw; [done| |done].
  by apply insert_no_err in Hw.
Qed.
Next Obligation.
  intros ended last_err now t i (Hlen & Hnd & Hall) [Hi Hni]. unfold tracker_delete, tracker_Delete.
  pose proof Hi as (k & Hk & ->)%elem_of_indices.
  destruct (copy_at_ok (mmapedFile t) (index_of k) (zeros entrySize)) as [file Hf].
  { unfold index_of. lia. }
  { rewrite Hlen. unfold index_of, filesize, entrySize. lia. }
  rewrite Hf. cbn [res_bind]. apply copy_at_length in Hf. split.
  - split_and!; cbn [mmapedFile maxConcurrent getNextIndex]; [congruence| |].
    + apply NoDup_app. split; [done|]. split; [|apply NoDup_singleton]. by intros x Hx ->%list_elem_of_singleton.
    + apply Forall_app. split; [done|]. by constructor.
  - cbn. rewrite list_to_set_app_L. cbn. by rewrite union_empty_r_L.
Qed.

(** ** Examples *)

Module Toy.

Definition started : ActiveQueryTracker := MkTracker (layout [None; None]) (generateIndices 2) 2.
Definition now : Z := 1600000000.
Definition insert (t : ActiveQueryTracker) (q : bytes) : ActiveQueryTracker :=
  (tracker_Insert None (Errorf "context canceled") now t q).1.

(** [up] in the second slot, and then a query of quotes in the first one, whose
    escaped text is longer than the slot. *)
Definition damaged : ActiveQueryTracker :=
  insert (tracker_delete (insert (insert started (J "a")) (J "up")) (index_of 0)) (replicate 900 34%Z).

(** The length of a query is cut before its quotes are escaped, so that an entry can be
    longer than its slot and overwrite the next one: the running query [up] is lost. *)
Example long_entry_damages_next_slot :
  let up := _newJSONEntry (J "up") now in
  take (length up) (drop 1001 (mmapedFile (insert (insert started (J "a")) (J "up")))) = up ∧
  take (length up) (drop 1001 (mmapedFile damaged)) ≠ up.
Proof. vm_compute. done. Qed.

End Toy.

Lemma plain_fits_slot q now e : plain_text q → newJSONEntry q now = Ok e → length e < entrySize.
Proof. intros Hq He. by apply (plain_entry_fits q now e). Qed.

(** The query [up{job='a'}] with double quotes, which JSON escapes. *)
Definition quoted : bytes := J "up{job=" ++ [34%Z] ++ J "a" ++ [34%Z] ++ J "}".

Lemma unfinished_queries_reported_witness :
  ∃ t, runs 2 t [Some (_newJSONEntry quoted Toy.now); None] ∧
    logUnfinishedQueries (Some (mmapedFile t)) (filesize 2) =
      Some (J "[" ++ commas true [_newJSONEntry quoted Toy.now] ++ J "]").
Proof.
  assert (runs 2 (Toy.insert Toy.started quoted) [Some (_newJSONEntry quoted Toy.now); None]) as Hr.
  { eapply (runs_insert 2 Toy.started [None; None] (Errorf "context canceled") Toy.now quoted _ 0).
    - apply (runs_start 2 None None). vm_compute. reflexivity.
    - vm_compute. repeat constructor; discriminate.
    - vm_compute. reflexivity.
    - apply Nat.ltb_lt. vm_compute. reflexivity.
    - vm_compute. reflexivity. }
  exists (Toy.insert Toy.started quoted). split; [exact Hr|].
  exact (unfinished_queries_reported 2 _ _ Hr).
Defined.

End QLog.
