(* ===== verification/Engine.v ===== *)
(** * The engine

    [Engine] and [query] of [src/pkg/promql/engine.go]: queries are made from text, run
    under a tracker that bounds how many run at once, logged, and evaluated at one time
    or over a range.

    The tracker, the query log and the storage keep states of their own; the parser of
    queries is a parameter, and so is the context, by the number of the poll. *)
From S2P Require Import Prelude Labels QueryBuilder Float Marshal QueryLog PromLabels PromValue Quantile PromAst Functions VectorOps Aggregation Evaluator Selectors RangeEval QueryPlan.

Module Eng.
Import Val Ast Qnt Fn Vop Agg Eval Plan.

(** ** Options of the package and of the engine *)

(** The package variable [DefaultEvaluationInterval], in milliseconds. *)
Definition SetDefaultEvaluationInterval (ev : Z) : Z := durationToInt64Millis ev.
Definition GetDefaultEvaluationInterval (DefaultEvaluationInterval : Z) : Z := DefaultEvaluationInterval.

Definition defaultLookbackDelta : Z := (5 * 60 * 1000000000)%Z.

(** The interface [QueryLogger], with the fields the engine logs about a query. *)
Record log_entry := MkEntry {
  l_query : string;
  l_params : option (string * string * Z);
  l_error : option goerror;
}.
Class QueryLogger (L : Type) := {
  Log : L → log_entry → L * option goerror;
  CloseLog : L → L * option goerror;
}.

Section engine.
Context {T L : Type} `{QueryTracker T} `{QueryLogger L}.

Record EngineOpts := MkOpts {
  MaxSamples : Z;
  Timeout : Z;
  ActiveQueryTracker : option T;
  LookbackDelta : Z;
}.

Record Engine := MkEngine {
  timeout : Z;
  maxSamplesPerQuery : Z;
  activeQueryTracker : option T;
  queryLogger : option L;
  ng_lookbackDelta : Z;
  (* metrics *)
  currentQueries : Z;
  maxConcurrentQueries : Z;
  queryLogEnabled : Z;
  queryLogFailures : Z;
}.

Definition NewEngine (opts : EngineOpts) : Engine :=
  let max := match ActiveQueryTracker opts with Some t => GetMaxConcurrent t | None => (-1)%Z end in
  let lookback := if (LookbackDelta opts =? 0)%Z then defaultLookbackDelta else LookbackDelta opts in
  MkEngine (Timeout opts) (MaxSamples opts) (ActiveQueryTracker opts) None lookback 0 max 0 0.

(** The logger in use is closed; what closing returns is only a warning. *)
Definition SetQueryLogger (ng : Engine) (l : option L) : Engine * option (L * option goerror) :=
  (MkEngine (timeout ng) (maxSamplesPerQuery ng) (activeQueryTracker ng) l (ng_lookbackDelta ng)
     (currentQueries ng) (maxConcurrentQueries ng) (match l with Some _ => 1%Z | None => 0%Z end) (queryLogFailures ng),
   CloseLog <$> queryLogger ng).

(** ** Queries *)

Inductive Statement := SEval (s : EvalStmt) | STest (result : option goerror).

Record query := MkQuery { qs : string; stmt : Statement }.

Context {gsort : GoSort} {grange : GoMapRange} {gheap : GoHeap} {plabels : PromLabels} {plib : ParserLib}
  {buf : BufferedIterator} {R : Type}.
Context (ParseExpr : string → res expr) (DocumentedType : ValueType → string).

Definition newQuery (expr : expr) (start end_ interval : Z) : query :=
  MkQuery "" (SEval (MkStmt expr start end_ interval)).

Definition NewInstantQuery (q : string) (ts : Z) : res query :=
  let* expr := ParseExpr q in
  Ok (MkQuery q (stmt (newQuery expr ts ts 0))).

Definition quoted (s : string) : string := String "034" (s ++ String "034" "").

Definition NewRangeQuery (q : string) (start end_ interval : Z) : res query :=
  let* expr := ParseExpr q in
  if negb (bool_decide (expr_Type expr = ValueTypeVector)) && negb (bool_decide (expr_Type expr = ValueTypeScalar)) then
    Err (Errorf ("invalid expression type " ++ quoted (DocumentedType (expr_Type expr))
                 ++ " for range query, must be Scalar or instant Vector"))
  else Ok (MkQuery q (stmt (newQuery expr start end_ interval))).

Definition newTestQuery (result : option goerror) : query := MkQuery "test statement" (STest result).

(** ** Evaluation of a statement *)

Context (FromTime : Z → Z) (ItemType_String : ItemType → string).
Context {D : Type} (q : Queryable D).
Context (int64_undefined : float64 → Z) (FormatFloat : float64 → string) (LabelName_IsValid : string → bool).
Context (Pow : float64 → float64 → float64).
Context (FunctionCalls : string → FunctionCall (R:=R)).
Context (ctx_Err : nat → option goerror).
Context (DefaultEvaluationInterval : Z).

Definition outcome : Type := option value * list string * option goerror.

Definition run_eval : evaluator → expr → nat → res (value * nat) :=
  (Eval int64_undefined FormatFloat LabelName_IsValid Pow FunctionCalls ctx_Err).

(** A run-time error outside the evaluator is a panic. *)
Definition crash {A} (r : res A) : res A :=
  match r with Err (RuntimeError m) => Panic m | r => r end.

(** [Sample] of a series of an instant query, at the time of the evaluation. *)
Definition instant_sample (start : Z) (s : Series) : res Sample :=
  let* p := crash (index (Points s) 0) in Ok (MkSample (MkPoint start (V p)) (m_Metric s)).

Fixpoint map_res {A B} (f : A → res B) (l : list A) : res (list B) :=
  match l with
  | [] => Ok []
  | a :: l => let* b := f a in let* bs := map_res f l in Ok (b :: bs)
  end.

Definition instant_value (t : ValueType) (start : Z) (mat : list Series) : res value :=
  match t with
  | ValueTypeVector => let* v := map_res (instant_sample start) mat in Ok (VVector v)
  | ValueTypeScalar =>
      let* s := crash (index mat 0) in
      let* p := crash (index (Points s) 0) in
      Ok (VScalar (MkScalar start (V p)))
  | ValueTypeMatrix => Ok (VMatrix mat)
  | _ => Panic "promql.Engine.exec: unexpected expression type"
  end.

Definition done_with (value : option value) (warnings : list string) (err : option goerror) : res outcome :=
  Ok (value, warnings, err).

Definition exec_instant (ng : Engine) (s : EvalStmt) (p : pop (D:=D)) (polls : nat) : res outcome :=
  let start := timeMilliseconds (Start s) in
  let ev := MkEv start start 1 (maxSamplesPerQuery ng) (GetDefaultEvaluationInterval DefaultEvaluationInterval)
              (ng_lookbackDelta ng) (p_topNode p) (p_sets p) in
  match run_eval ev (Expr s) polls with
  | Err err => done_with None (p_warnings p) (Some err)
  | Panic m => Panic m
  | Ok (VMatrix mat, _) =>
      let* v := instant_value (expr_Type (Expr s)) start mat in done_with (Some v) (p_warnings p) None
  | Ok (VString s, _) => done_with (Some (VString s)) (p_warnings p) None
  | Ok (_, _) => Panic "promql.Engine.exec: invalid expression type"
  end.

Definition exec_range (ng : Engine) (s : EvalStmt) (p : pop (D:=D)) (polls : nat) : res outcome :=
  let ev := MkEv (timeMilliseconds (Start s)) (timeMilliseconds (End_ s)) (durationMilliseconds (Interval s))
              (maxSamplesPerQuery ng) (GetDefaultEvaluationInterval DefaultEvaluationInterval)
              (ng_lookbackDelta ng) (p_topNode p) (p_sets p) in
  match run_eval ev (Expr s) polls with
  | Err err => done_with None (p_warnings p) (Some err)
  | Panic m => Panic m
  | Ok (VMatrix mat, polls) =>
      match ctx_Err polls with
      | Some err => done_with None (p_warnings p) (Some (contextErr err "expression evaluation"))
      | None => done_with (Some (VMatrix (go_sort Matrix_Less mat))) (p_warnings p) None
      end
  | Ok (_, _) => Panic "promql.Engine.exec: invalid expression type"
  end.

Definition execEvalStmt (ng : Engine) (s : EvalStmt) (db : D) (polls : nat) : D * res outcome :=
  match findMinTime (ng_lookbackDelta ng) s with
  | Err err => (db, done_with None [] (Some err))
  | Panic m => (db, Panic m)
  | Ok mint =>
      match Querier q db (FromTime mint) (FromTime (End_ s)) with
      | (db, Err err) => (db, done_with None [] (Some err))
      | (db, Panic m) => (db, Panic m)
      | (db, Ok qr) =>
          let p := populateSeries FromTime ItemType_String q (ng_lookbackDelta ng) qr s db in
          (p_db p,
           match p_err p with
           | Some err => done_with None (p_warnings p) (Some err)
           | None =>
               if (Start s =? End_ s)%Z && (Interval s =? 0)%Z then exec_instant ng s p polls
               else exec_range ng s p polls
           end)
      end
  end.

(** ** Execution *)

(** [formatDate]: [2006-01-02T15:04:05.000Z07:00] in UTC. *)
Definition formatDate (t : Z) : string :=
  let '(y, mo, d) := QB.civil_from_days (t / 86400000000000) in
  let sod := ((t / 1000000000) mod 86400)%Z in
  QB.pad 4 y ++ "-" ++ QB.pad 2 mo ++ "-" ++ QB.pad 2 d ++ "T" ++
  QB.pad 2 (sod / 3600) ++ ":" ++ QB.pad 2 ((sod / 60) mod 60) ++ ":" ++ QB.pad 2 (sod mod 60) ++ "." ++
  QB.pad 3 ((t / 1000000) mod 1000) ++ "Z".

Definition set_tracker (ng : Engine) (t : option T) : Engine :=
  MkEngine (timeout ng) (maxSamplesPerQuery ng) t (queryLogger ng) (ng_lookbackDelta ng) (currentQueries ng)
    (maxConcurrentQueries ng) (queryLogEnabled ng) (queryLogFailures ng).
Definition add_current (ng : Engine) (n : Z) : Engine :=
  MkEngine (timeout ng) (maxSamplesPerQuery ng) (activeQueryTracker ng) (queryLogger ng) (ng_lookbackDelta ng)
    (currentQueries ng + n) (maxConcurrentQueries ng) (queryLogEnabled ng) (queryLogFailures ng).

Definition query_entry (qry : query) (err : option goerror) : log_entry :=
  MkEntry (qs qry)
    (match stmt qry with
     | SEval eq => Some (formatDate (Start eq), formatDate (End_ eq), Z.quot (Interval eq) 1000000000)
     | STest _ => None
     end) err.

(** The deferred function that logs the query. *)
Definition log_query (ng : Engine) (qry : query) (err : option goerror) : Engine :=
  match queryLogger ng with
  | None => ng
  | Some l =>
      let '(l, failed) := Log l (query_entry qry err) in
      MkEngine (timeout ng) (maxSamplesPerQuery ng) (activeQueryTracker ng) (Some l) (ng_lookbackDelta ng)
        (currentQueries ng) (maxConcurrentQueries ng) (queryLogEnabled ng)
        (queryLogFailures ng + match failed with Some _ => 1 | None => 0 end)
  end.

(** The part after the queue. *)
Definition exec_query (ng : Engine) (qry : query) (db : D) : D * res outcome :=
  match ctx_Err 0 with
  | Some err => (db, done_with None [] (Some (contextErr err env)))
  | None =>
      match stmt qry with
      | SEval s => execEvalStmt ng s db 1
      | STest err => (db, done_with None [] err)
      end
  end.

(** The error a deferred function sees; during a panic the result is still unset. *)
Definition outcome_err (r : res outcome) : option goerror :=
  match r with Ok (_, _, err) => err | _ => None end.

Definition exec (ng : Engine) (qry : query) (db : D) : Engine * D * res outcome :=
  let ng := add_current ng 1 in
  let '(ng, db, r) :=
    match activeQueryTracker ng with
    | Some t =>
        match Insert t (qs qry) with
        | (t, Ok queryIndex) =>
            let '(db, r) := exec_query ng qry db in
            (set_tracker ng (Some (Delete t queryIndex)), db, r)
        | (t, Err err) => (set_tracker ng (Some t), db, done_with None [] (Some (contextErr err "query queue")))
        | (t, Panic m) => (set_tracker ng (Some t), db, Panic m)
        end
    | None => let '(db, r) := exec_query ng qry db in (ng, db, r)
    end in
  (add_current (log_query ng qry (outcome_err r)) (-1), db, r).

(** [Exec]: the outcome as a [Result]. *)
Definition Exec (ng : Engine) (qry : query) (db : D) : Engine * D * res Result :=
  let '(ng, db, r) := exec ng qry db in
  (ng, db, let* (v, w, err) := r in Ok (MkResult err v w)).

(** ** What execution leaves behind *)

(** [ng'] is [ng] after a query whose error was [err]. *)
Definition books_kept (ng ng' : Engine) (qry : query) (err : option goerror) : Prop :=
  currentQueries ng' = currentQueries ng ∧
  match activeQueryTracker ng with
  | Some t => ∃ t', activeQueryTracker ng' = Some t' ∧ tracker_ok t' ∧ free t' = free t
  | None => activeQueryTracker ng' = None
  end ∧
  match queryLogger ng with
  | Some l => queryLogger ng' = Some (Log l (query_entry qry err)).1 ∧
      queryLogFailures ng' = (queryLogFailures ng + match (Log l (query_entry qry err)).2 with Some _ => 1 | None => 0 end)%Z
  | None => queryLogger ng' = None ∧ queryLogFailures ng' = queryLogFailures ng
  end.

(** The deferred functions, after the tracker is as it was. *)
Lemma deferred_ok ng ng2 qry err :
  currentQueries ng2 = (currentQueries ng + 1)%Z → queryLogger ng2 = queryLogger ng →
  queryLogFailures ng2 = queryLogFailures ng →
  match activeQueryTracker ng with
  | Some t => ∃ t', activeQueryTracker ng2 = Some t' ∧ tracker_ok t' ∧ free t' = free t
  | None => activeQueryTracker ng2 = None
  end →
  books_kept ng (add_current (log_query ng2 qry err) (-1)) qry err.
Proof.
  intros Hc Hq Hf Ht. unfold books_kept, log_query. rewrite Hq.
  destruct (queryLogger ng) as [l|]; cbn.
  - destruct (Log l _) as [l' failed]. cbn. split_and!; try done; lia.
  - split_and!; try done; lia.
Qed.

(** C19. However a query ends, with a panic too: the count of running queries is what it was,
    every index of the tracker that was free is free again, and the query log has one
    more entry, with the error of the query, a failure to write it being counted.  Only
    a panic while the query is entered into the tracker keeps its index. *)
Theorem exec_books ng qry db ng' db' r :
  (∀ t, activeQueryTracker ng = Some t → tracker_ok t ∧ ∀ m, (Insert t (qs qry)).2 ≠ Panic m) →
  exec ng qry db = (ng', db', r) → books_kept ng ng' qry (outcome_err r).
Proof.
  intros Hok. unfold exec. cbn [add_current activeQueryTracker].
  destruct (activeQueryTracker ng) as [t|] eqn:Ht.
  - destruct (Hok t eq_refl) as [Htok Hnp]. destruct (Insert t (qs qry)) as [t1 [i|err|m]] eqn:Hins.
    + destruct (exec_query _ qry db) as [db1 r1]. intros [= <- <- <-]. apply deferred_ok; try done.
      rewrite Ht. exists (Delete t1 i). split; [done|].
      destruct (Insert_ok t (qs qry) t1 i Htok Hins) as (Hok1 & Hi & Hfree & Hheld).
      destruct (Delete_ok t1 i Hok1 Hheld) as [Hok2 ->]. split; [done|].
      rewrite Hfree, union_comm_L. symmetry. by apply union_difference_singleton_L.
    + intros [= <- <- <-]. apply deferred_ok; try done. rewrite Ht. exists t1. split; [done|].
      by apply (Insert_err t (qs qry) t1 err) in Hins as ->.
    + by specialize (Hnp m).
  - destruct (exec_query _ qry db) as [db1 r1]. intros [= <- <- <-]. apply deferred_ok; try done. by rewrite Ht.
Qed.

(** ** Queries at one time and over a range *)

Lemma run_eval_ok ev e polls v n :
  run_eval ev e polls = Ok (v, n) →
  ∃ st, eval int64_undefined FormatFloat LabelName_IsValid Pow FunctionCalls ctx_Err ev e (MkState 0 polls ∅) = Ok (v, st).
Proof.
  unfold run_eval, Eval.Eval. destruct (eval _ _ _ _ _ _ _ _ _) as [[v' st]|err|m]; cbn; [|by destruct err|done].
  intros [= <- <-]. by exists st.
Qed.

Lemma instant_samples_ok start mat :
  Rng.nonempty mat → ∃ vec, map_res (instant_sample start) mat = Ok vec ∧
    Forall2 (λ s x, s_Metric x = m_Metric s ∧ Val.T (s_Point x) = start ∧ V <$> head (Points s) = Some (sV x)) mat vec.
Proof.
  induction 1 as [|s mat Hs Hm (vec & IH & Hvec)]; cbn [map_res]; [by exists []|].
  unfold instant_sample at 1. destruct (Points s) as [|p ps] eqn:Hp; [done|]. cbn [crash index res_bind].
  rewrite IH. eexists. split; [done|]. constructor; [|done]. cbn. by rewrite Hp.
Qed.

(** An instant query of type vector answers with one sample for every series of the
    evaluation, at the time of the query, or with the error of the evaluation; it does
    not panic unless the evaluation does. *)
Theorem exec_instant_spec ng s p polls :
  expr_Type (Expr s) = ValueTypeVector →
  let start := timeMilliseconds (Start s) in
  let ev := MkEv start start 1 (maxSamplesPerQuery ng) DefaultEvaluationInterval (ng_lookbackDelta ng)
              (p_topNode p) (p_sets p) in
  match run_eval ev (Expr s) polls with
  | Ok (v, _) => ∃ mat vec, v = VMatrix mat ∧ exec_instant ng s p polls = done_with (Some (VVector vec)) (p_warnings p) None ∧
      Forall2 (λ s x, s_Metric x = m_Metric s ∧ Val.T (s_Point x) = start ∧ V <$> head (Points s) = Some (sV x)) mat vec
  | Err err => exec_instant ng s p polls = done_with None (p_warnings p) (Some err)
  | Panic m => exec_instant ng s p polls = Panic m
  end.
Proof.
  intros Ht start ev. unfold exec_instant, GetDefaultEvaluationInterval. fold start. fold ev.
  destruct (run_eval ev (Expr s) polls) as [[v n]|err|m] eqn:Hrun; [|done..].
  apply run_eval_ok in Hrun as [st Hrun].
  destruct (Rng.eval_nonempty ctx_Err int64_undefined FormatFloat LabelName_IsValid Pow FunctionCalls ev (Expr s)
    (MkState 0 polls ∅) v st) as (mat & -> & Hm); [done|done|by right|done|].
  destruct (instant_samples_ok start mat Hm) as (vec & Hvec & Hall). exists mat, vec. split; [done|]. split; [|done].
  rewrite Ht. cbn [instant_value]. by rewrite Hvec.
Qed.

(** A range query that the storage has not evaluated answers with a matrix ordered by
    labels, with the points at the steps of the range, in order. *)
Theorem exec_range_spec ng s p polls v w :
  p_topNode p = None → (0 < durationMilliseconds (Interval s))%Z →
  expr_Type (Expr s) = ValueTypeVector ∨ expr_Type (Expr s) = ValueTypeScalar →
  exec_range ng s p polls = done_with (Some v) w None →
  let ev := MkEv (timeMilliseconds (Start s)) (timeMilliseconds (End_ s)) (durationMilliseconds (Interval s))
              (maxSamplesPerQuery ng) DefaultEvaluationInterval (ng_lookbackDelta ng) None (p_sets p) in
  ∃ mat, v = VMatrix mat ∧ Rng.aligned ev mat ∧ StronglySorted (λ a b, Matrix_Less b a = false) mat.
Proof.
  intros Htop Hi Ht. unfold exec_range, GetDefaultEvaluationInterval, done_with. rewrite Htop.
  set (ev := MkEv _ _ _ _ _ _ None _). intros Hrun. cbv zeta.
  destruct (run_eval ev (Expr s) polls) as [[v' n]|err|m] eqn:Hev; [|done..].
  apply run_eval_ok in Hev as [st Hev].
  destruct (Rng.eval_aligned_ok ctx_Err int64_undefined FormatFloat LabelName_IsValid Pow FunctionCalls ev (Expr s)
    (MkState 0 polls ∅) v' st) as (mat & -> & Hal); [by apply Rng.computed_none|done|by destruct Ht; [right|left]|done|].
  destruct (ctx_Err n); [done|]. injection Hrun as <- _.
  exists (go_sort Matrix_Less mat). split; [done|]. split.
  - unfold Rng.aligned. by rewrite go_sort_perm.
  - apply go_sort_sorted, Matrix_Less_strict_weak.
Qed.

End engine.

(** ** Examples *)

(** A query log in memory that fails when it is asked to log a long query. *)
#[local] Instance memory_log : QueryLogger (list log_entry) := {
  Log l e := (l ++ [e], if (100 <? String.length (l_query e))%nat then Some (Errorf "disk full") else None);
  CloseLog l := (l, None);
}.
#[local] Instance tracker : QueryTracker QLog.ActiveQueryTracker :=
  QLog.ActiveQueryTracker_ops None Canceled 1600000000.

Module Toy.

Definition engine : Engine (T:=QLog.ActiveQueryTracker) (L:=list log_entry) :=
  (SetQueryLogger (NewEngine (MkOpts 100 1000 (Some QLog.Toy.started) 0)) (Some [])).1.
Definition functions (name : string) : FunctionCall (R:=unit) := Sel.Toy.count_call.
Definition stmt (start end_ interval : Z) : EvalStmt :=
  MkStmt (VectorSelector Sel.Toy.selector) start end_ interval.
Definition pop : pop (D:=unit) := MkPop 0 [] None None ∅ tt.

Definition run (qry : query) :=
  exec Plan.Toy.millis Plan.Toy.op_text Plan.Toy.storage (λ _, 0%Z) (λ _, "") (λ _, true) (λ x _, x) functions
    Sel.Toy.never 0 engine qry tt.
Definition instant (s : EvalStmt) : res outcome :=
  exec_instant (λ _, 0%Z) (λ _, "") (λ _, true) (λ x _, x) functions Sel.Toy.never 0 engine s pop 0.
Definition range (s : EvalStmt) : res outcome :=
  exec_range (λ _, 0%Z) (λ _, "") (λ _, true) (λ x _, x) functions Sel.Toy.never 0 engine s pop 0.

End Toy.

Lemma exec_books_witness :
  let qry := MkQuery "x" (SEval (Toy.stmt 150000000000 150000000000 0)) in
  match Toy.run qry with (ng', _, r) => books_kept Toy.engine ng' qry (outcome_err r) end.
Proof.
  cbv zeta. destruct (Toy.run (MkQuery "x" (SEval (Toy.stmt 150000000000 150000000000 0)))) as [[ng' db'] r] eqn:Hrun.
  apply (exec_books Plan.Toy.millis Plan.Toy.op_text Plan.Toy.storage (λ _, 0%Z) (λ _, "") (λ _, true) (λ x _, x)
    Toy.functions Sel.Toy.never 0 Toy.engine (MkQuery "x" (SEval (Toy.stmt 150000000000 150000000000 0))) tt ng' db' r);
    [|exact Hrun].
  intros t [= <-]. split.
  - split; [reflexivity|]. split; [|apply Forall_forall; intros i Hi; exact Hi].
    change (NoDup [1; 1001]%Z). apply NoDup_cons. split; [|apply NoDup_singleton].
    rewrite list_elem_of_singleton. discriminate.
  - intros m. vm_compute. discriminate.
Defined.

Lemma exec_instant_spec_witness :
  ∃ vec, Toy.instant (Toy.stmt 150000000000 150000000000 0) = done_with (Some (VVector vec)) [] None ∧ length vec = 1.
Proof.
  pose proof (exec_instant_spec (λ _, 0%Z) (λ _, "") (λ _, true) (λ x _, x) Toy.functions Sel.Toy.never 0 Toy.engine
    (Toy.stmt 150000000000 150000000000 0) Toy.pop 0 eq_refl) as Hspec.
  cbv zeta in Hspec.
  match type of Hspec with match ?run with _ => _ end => destruct run as [[v n]|e|m] eqn:Hrun end;
    [|vm_compute in Hrun; discriminate..].
  destruct Hspec as (mat & vec & -> & Heq & Hall). exists vec. split; [exact Heq|].
  apply Forall2_length in Hall. rewrite <-Hall. vm_compute in Hrun. injection Hrun as <- _. reflexivity.
Defined.

Lemma exec_range_spec_witness :
  ∃ mat w, Toy.range (Toy.stmt 60000000000 120000000000 60000000000) = done_with (Some (VMatrix mat)) w None ∧
    StronglySorted (λ a b, Matrix_Less b a = false) mat.
Proof.
  destruct (Toy.range (Toy.stmt 60000000000 120000000000 60000000000)) as [[[v w] err]|e|m] eqn:Hrun;
    [|vm_compute in Hrun; discriminate..].
  destruct v as [v|]; [|vm_compute in Hrun; discriminate]. destruct err as [err|]; [vm_compute in Hrun; discriminate|].
  destruct (exec_range_spec (λ _, 0%Z) (λ _, "") (λ _, true) (λ x _, x) Toy.functions Sel.Toy.never 0 Toy.engine
    (Toy.stmt 60000000000 120000000000 60000000000) Toy.pop 0 v w) as (mat & -> & _ & Hsorted);
    [reflexivity|reflexivity|by left|exact Hrun|].
  exists mat, w. split; [reflexivity|exact Hsorted].
Defined.

(** A step below a millisecond passes the checks of the API, becomes the interval zero and
    makes the evaluator divide by zero. *)
Example submillisecond_step_fails :
  Toy.range (Toy.stmt 60000000000 120000000000 500000)
  = done_with None [] (Some (Wrapped "unexpected error" (RuntimeError "integer divide by zero"))).
Proof. by vm_compute. Qed.

End Eng.
