(* ===== verification/Adapter.v ===== *)
(** * From the query engine to the rows

    [src/pkg/query/queryable.go] and [query_engine.go]: the storage the engine queries
    is the reader of the client, and the engine's options.  [Queryable] implements the
    interface of [QueryPlan] with the operations of [Reader]; what an instant query
    answers is then a statement about rows of the database.

    Values are [sval]: a float or the marker of staleness. *)
From S2P Require Import Prelude ClockCache Labels MetricCache QueryBuilder LabelReader SeriesSet Reader Float PromLabels PromValue Quantile PromAst Functions VectorOps Aggregation Evaluator Selectors RangeEval QueryPlan QueryLog Engine.

Module Qry.
Import Val Ast Qnt Fn Vop Agg Eval Sel Plan.

(** ** Queries, hints and results *)

Definition node_of (e : expr) : QB.Node :=
  match e with
  | Call _ fname _ _ => QB.NCall fname
  | SubqueryExpr _ _ _ _ _ => QB.NSubqueryExpr
  | _ => QB.NOther
  end.

Definition hints_of (h : Plan.SelectHints) : QB.SelectHints :=
  QB.MkHints (hs_Start h) (hs_End h) (hs_Step h) (hs_Range h).

(** The node a pushdown answers for is the last but one of the path. *)
Definition top_address (path : list expr) (topNode : option QB.Node) : option addr :=
  match topNode with Some _ => address <$> path !! (length path - 2) | None => None end.

Definition labels_of (ls : list Lbl.Label) : labels := list_to_map ((λ l, (Lbl.Name l, Lbl.Value l)) <$> ls).

(** A series as the engine reads it through its iterators. *)
Definition stored_of (y : SS.pgxSeries sval) : stored :=
  MkStored (labels_of (SS.s_labels y)) (SS.present (SS.s_times y) (SS.s_values y)).

(** What the engine gets when it reads a set to its end.  A nil series among them is
    dereferenced when the set itself has no error. *)
Definition set_of (r : res (list (option (SS.pgxSeries sval)))) (err : option goerror) : SeriesSet :=
  match r with
  | Ok ys =>
      match mapM id ys with
      | Some ys => MkSeriesSet (stored_of <$> ys) err
      | None => MkSeriesSet [] (Some (default (RuntimeError "invalid memory address or nil pointer dereference") err))
      end
  | Err e => MkSeriesSet [] (Some e)
  | Panic m => MkSeriesSet [] (Some (RuntimeError m))
  end.

Section adapter.
Context {D C : Type} `{GoSort} `{MC.MetricCacheOps C}.
Context (qconn : Rd.QConn (F:=sval) (D:=D)) (Sanitize : list string → string) (ExtensionIsInstalled : bool).
Context (label_conc : nat → nat → list nat).

Notation pgx := (Rd.pgxQuerier (D:=D) (C:=C)).

(** The [querier]: the reader is the state, the time range is kept. *)
Record querier := MkQuerier { mint : Z; maxt : Z }.

Definition newQuerier (mint maxt : Z) : querier := MkQuerier mint maxt.

(** [Queryable.Querier] never fails. *)
Definition Querier (q : pgx) (mint maxt : Z) : pgx * res querier := (q, Ok (newQuerier mint maxt)).

Definition LabelValues (q : pgx) (name : string) : pgx * res (list string) * list string :=
  let '(q, r) := Rd.LabelValues qconn q name in (q, r, []).
Definition LabelNames (q : pgx) : pgx * res (list string) * list string :=
  let '(q, r) := Rd.LabelNames qconn q in (q, r, []).
Definition Close (q : querier) : option goerror := None.

(** As many turns as there are rows. *)
Definition set_rows (set : SS.pgxSeriesSet sval) : nat :=
  length (concat (SS.c_rest <$> SS.rows set)).

(** [Select] passes everything on; the engine reads the set later, with nothing but
    reads in between.  A panic of the builder ends the request and is kept as its error. *)
Definition Select (q : pgx) (qr : querier) (sortSeries : bool) (hints : Plan.SelectHints) (path : list expr)
    (matchers : list Lbl.Matcher) : pgx * selected :=
  match Rd.Select qconn Sanitize ExtensionIsInstalled q (mint qr) (maxt qr) (Some (hints_of hints))
          (node_of <$> path) matchers with
  | (q, Ok (set, topNode)) =>
      let '(q, set, r) := SS.collect (Rd.q_getLabelsForIds qconn label_conc) (S (set_rows set)) q set in
      (q, MkSelected (set_of r (SS.SetErr set)) (top_address path topNode) [] None)
  | (q, Err err) => (q, MkSelected (MkSeriesSet [] None) None [] (Some err))
  | (q, Panic m) => (q, MkSelected (MkSeriesSet [] None) None [] (Some (RuntimeError m)))
  end.

Definition NewQueryable : Queryable pgx := MkQueryable pgx querier Querier Select.

End adapter.

(** The engine of the program: two billion samples, no tracker, the default lookback. *)
Definition NewEngine {T L} `{QueryTracker T} (queryTimeout : Z) : Eng.Engine (T:=T) (L:=L) :=
  Eng.NewEngine (Eng.MkOpts 2147483647 queryTimeout None 0).

(** ** What an instant query answers *)

Section instant.
Context {D C : Type} `{GoSort} `{MC.MetricCacheOps C}.
Context (qconn : Rd.QConn (F:=sval) (D:=D)) (Sanitize : list string → string) (ExtensionIsInstalled : bool).
Context (label_conc : nat → nat → list nat).
Context (db_labels : D → gmap Z Lbl.Label).
Context (Hlabels : LR.labels_query_ok db_labels (Rd.qc_labels qconn)).
Context (Hanswers : LR.labels_query_answers db_labels (Rd.qc_labels qconn)).

Notation pgx := (Rd.pgxQuerier (D:=D) (C:=C)).

Definition known_ids (d : D) (ids : list Z) : Prop := Forall (λ id, is_Some (db_labels d !! id)) ids.

(** The series of a row: the labels the database has for its ids, and its samples. *)
Definition row_stored (d : D) (x : res (SS.data_row sval)) (s : stored) : Prop :=
  ∃ ids ts vs ls, x = Ok (ids, ts, vs) ∧ ls.*1 ≡ₚ ids ∧ Forall (λ p, db_labels d !! p.1 = Some p.2) ls ∧
    st_Labels s = labels_of (go_sort Lbl.name_lt ls.*2) ∧ st_samples s = SS.present ts vs.

Lemma mapM_id_some {A} (l : list A) : mapM id (Some <$> l) = Some l.
Proof. induction l as [|a l IH]; [done|]. rewrite fmap_cons. cbn. by rewrite IH. Qed.

Lemma Select_rows (q q1 : pgx) mint maxt b hints path ms rows top :
  Rd.getResultRows qconn Sanitize ExtensionIsInstalled q mint maxt (Some (hints_of hints)) (node_of <$> path) ms
    = (q1, Ok (rows, top)) →
  Rd.q_sound db_labels q1 → Forall (SS.good_rows (known_ids (Rd.q_db q1))) rows → SS.final_err None rows = None →
  ∃ q2 series, Select qconn Sanitize ExtensionIsInstalled label_conc q (MkQuerier mint maxt) b hints path ms =
      (q2, MkSelected (MkSeriesSet series None) (top_address path top) [] None) ∧
    Forall2 (row_stored (Rd.q_db q1)) (concat (MC.row_scans <$> rows)) series.
Proof.
  intros Hr Hs Hg Herr. unfold Select, Rd.Select. cbn [Qry.mint Qry.maxt]. rewrite Hr.
  set (can_tell := λ q' : pgx, Rd.q_sound db_labels q' ∧ db_labels (Rd.q_db q1) ⊆ db_labels (Rd.q_db q')).
  assert (∀ q0 ids, can_tell q0 → known_ids (Rd.q_db q1) ids → ∃ q' lls,
    Rd.q_getLabelsForIds qconn label_conc q0 ids = (q', Ok lls) ∧ can_tell q' ∧
    ∃ ls, ls.*1 ≡ₚ ids ∧ lls = ls.*2 ∧ Forall (λ p, db_labels (Rd.q_db q1) !! p.1 = Some p.2) ls) as Htell.
  { intros q0 ids [Hs0 Hd0] Hk. destruct (Rd.q_getLabelsForIds qconn label_conc q0 ids) as [q' r] eqn:Hget.
    apply (Rd.labels_ok qconn label_conc db_labels Hlabels) in Hget as (Hd & Hs' & Hok & Hans); [|done].
    destruct Hans as [lls ->]; [done| |].
    { eapply Forall_impl; [exact Hk|]. intros id [l Hl]. exists l. by eapply lookup_weaken. }
    destruct (Hok lls eq_refl) as (ls & Hp & -> & Hall).
    exists q', ls.*2. split; [done|]. split; [split; [done|by etrans]|]. exists ls. split_and!; [done..|].
    apply Forall_forall. intros p Hp'. rewrite Forall_forall in Hall. specialize (Hall p Hp').
    assert (p.1 ∈ ids) as Hid by (rewrite <-Hp; by apply list_elem_of_fmap_2).
    unfold known_ids in Hk. rewrite Forall_forall in Hk. destruct (Hk _ Hid) as [l Hl].
    rewrite Hl. f_equal. eapply (lookup_weaken _ (db_labels (Rd.q_db q'))) in Hl; [|by etrans]. congruence. }
  destruct (SS.series_set_drains (F:=sval) (Rd.q_getLabelsForIds qconn label_conc) can_tell (known_ids (Rd.q_db q1))) with (s := q1) (rs := rows)
    as (q2 & set & ys & Hcol & _ & Hys & He); [|by split|done|].
  { intros q0 ids Ht Hk. destruct (Htell q0 ids Ht Hk) as (q' & lls & ? & ? & _). eauto. }
  assert (set_rows (SS.buildSeriesSet rows) = length (concat (MC.row_scans <$> rows))) as ->.
  { unfold set_rows. cbn [SS.buildSeriesSet SS.rows]. by rewrite <-list_fmap_compose. }
  rewrite Hcol. unfold set_of, SS.SetErr. rewrite He, Herr, mapM_id_some. eexists _, _. split; [reflexivity|].
  apply Forall2_fmap_r. eapply Forall2_impl; [exact Hys|].
  intros x y (ids & ts & vs & lls & -> & Hts & Hvs & Hll & Hk & Hlab).
  assert (∃ ls, ls.*1 ≡ₚ ids ∧ lls = ls.*2 ∧ Forall (λ p, db_labels (Rd.q_db q1) !! p.1 = Some p.2) ls)
    as (ls & Hp & -> & Hall).
  { destruct Hlab as [[-> ->]|(s & s' & Hcs & Hget)]; [by exists []|].
    destruct (Htell s ids Hcs Hk) as (q' & lls' & Hget' & _ & Hls). rewrite Hget in Hget'. by injection Hget' as _ <-. }
  exists ids, ts, vs, ls. unfold stored_of. cbn. rewrite Hts, Hvs, Hll. by split_and!.
Qed.

(** *** The engine on one selector *)

Context {T L : Type} `{QueryTracker T} `{Eng.QueryLogger L}.
Context {grange : GoMapRange} {gheap : GoHeap} {plabels : PromLabels} {plib : ParserLib} {buf : BufferedIterator} {R : Type}.
Context (FromTime : Z → Z) (ItemType_String : ItemType → string).
Context (int64_undefined : float64 → Z) (FormatFloat : float64 → string) (LabelName_IsValid : string → bool).
Context (Pow : float64 → float64 → float64) (FunctionCalls : string → FunctionCall (R:=R)).
(** A context that is not cancelled. *)
Context (DefaultEvaluationInterval : Z).
Notation never := (λ _ : nat, @None goerror).

Lemma eval_selector ev v st :
  topNode ev = None → interval ev ≠ 0%Z →
  eval int64_undefined FormatFloat LabelName_IsValid Pow FunctionCalls never ev (VectorSelector v) st =
    let* (mat, st) := eval_VectorSelector never ev v (MkState (currentSamples st) (S (polls st)) (expanded st)) in
    Ok (VMatrix mat, st).
Proof.
  intros Ht Hi. cbn [eval]. unfold contextDone, poll. rewrite !mbind_run. cbn [res_bind].
  cbn [mret res_bind]. rewrite mbind_run. unfold numSteps. rewrite (proj2 (Z.eqb_neq _ _) Hi), Ht.
  cbn [mret res_bind]. rewrite bool_decide_false by done. rewrite mbind_run. cbn [get_samples res_bind].
  by rewrite mbind_run.
Qed.

Lemma expand_loop_never series acc st :
  expand_loop never series acc st = Ok (acc ++ series, MkState (currentSamples st) (polls st + length series) (expanded st)).
Proof.
  revert acc st. induction series as [|s series IH]; intros acc st; cbn [expand_loop].
  { rewrite app_nil_r, Nat.add_0_r. by destruct st. }
  unfold poll. rewrite mbind_run. cbn [res_bind]. rewrite IH, <-(assoc_L (++)). cbn. do 3 f_equal. lia.
Qed.

(** What the engine makes of a series at one time: its latest sample at or before the
    time less the offset, unless it is older than the lookback or a staleness marker. *)
Definition instant_answer (lookback offset start : Z) (s : stored) : option Sample :=
  x ← instant_at (st_samples s) (start - durationMilliseconds offset) (durationMilliseconds lookback);
  Some (Val.MkSample (MkPoint start x.2) (st_Labels s)).

Lemma selector_matrix_instant ev offset start series :
  steps ev = [start] →
  selector_matrix ev offset series =
    (λ x, MkSeries (s_Metric x) [s_Point x]) <$> omap (instant_answer (lookbackDelta ev) offset start) series.
Proof.
  intros Hs. unfold selector_matrix. rewrite Hs. induction series as [|s series IH]; [done|].
  cbn [omap list_omap]. rewrite IH. unfold step_points, instant_answer. cbn [omap list_omap].
  by destruct (instant_at (st_samples s) _ _) as [x|].
Qed.

Lemma instant_samples start (vec : list Sample) :
  Forall (λ x, Val.T (s_Point x) = start) vec →
  Eng.map_res (Eng.instant_sample start) ((λ x, MkSeries (s_Metric x) [s_Point x]) <$> vec) = Ok vec.
Proof.
  induction 1 as [|x vec Hx Hv IH]; [done|]. rewrite fmap_cons. cbn [Eng.map_res].
  unfold Eng.instant_sample at 1. cbn. rewrite IH. cbn. destruct x as [[t w] m]. cbn in *. by subst.
Qed.

Lemma instant_total (vec : list Sample) : TotalSamples ((λ x, MkSeries (s_Metric x) [s_Point x]) <$> vec) = length vec.
Proof. unfold TotalSamples. rewrite <-list_fmap_compose. induction vec as [|x l IH]; [done|]. cbn [fmap list_fmap] in *. unfold sum_list_nat in *. cbn in *. by rewrite IH. Qed.

Lemma answers_at lookback offset start series : Forall (λ x, Val.T (s_Point x) = start) (omap (instant_answer lookback offset start) series).
Proof.
  apply Forall_forall. intros x (s & _ & Hs)%list_elem_of_omap. unfold instant_answer in Hs.
  apply bind_Some in Hs as (y & _ & [= <-]). done.
Qed.

Definition selector_stmt (v : vsel) (t : Z) : EvalStmt := MkStmt (VectorSelector v) t t 0.

Notation run_stmt ng v t q polls :=
  (Eng.execEvalStmt FromTime ItemType_String (NewQueryable qconn Sanitize ExtensionIsInstalled label_conc)
     int64_undefined FormatFloat LabelName_IsValid Pow FunctionCalls never DefaultEvaluationInterval ng (selector_stmt v t) q polls).

Lemma instant_of_selector (ng : Eng.Engine (T:=T) (L:=L)) v t (p : pop (D:=pgx)) series polls :
  v_Series v = None → p_topNode p = None → p_warnings p = [] →
  p_sets p !! v_addr v = Some (MkSeriesSet series None) → Forall (λ s, by_time (st_samples s)) series →
  (0 ≤ durationMilliseconds (Eng.ng_lookbackDelta ng))%Z →
  let vec := omap (instant_answer (Eng.ng_lookbackDelta ng) (v_Offset v) (timeMilliseconds t)) series in
  Eng.exec_instant int64_undefined FormatFloat LabelName_IsValid Pow FunctionCalls never DefaultEvaluationInterval ng
    (selector_stmt v t) p polls =
  if (length vec =? 0) || (Z.of_nat (length vec) <=? Eng.maxSamplesPerQuery ng)%Z
  then Ok (Some (VVector vec), [], None)
  else Ok (None, [], Some (ErrTooManySamples env)).
Proof.
  intros Hv Htop Hw Hset Hs Hlb vec. unfold Eng.exec_instant. cbn [Start Expr selector_stmt]. rewrite Htop, Hw.
  set (start := timeMilliseconds t).
  set (ev := MkEv start start 1 _ _ _ None (p_sets p)).
  assert (steps ev = [start]) as Hsteps.
  { unfold steps, ev. cbn [startTimestamp endTimestamp interval]. rewrite Z.sub_diag. cbn [Z.quot Z.add]. change (Z.to_nat (Z.quot 0 1 + 1)) with 1. cbn [steps_from]. by rewrite Z.leb_refl. }
  unfold Eng.run_eval, Eval.Eval. rewrite eval_selector by done. cbn [currentSamples Eval.polls expanded].
  set (st := MkState 0 (S polls) ∅).
  set (st1 := MkState 0 (S polls + length series) {[v_addr v := series]}).
  assert (checkForSeriesSetExpansion never ev v st = Ok (series, st1)) as Hexp.
  { unfold checkForSeriesSetExpansion. rewrite Hv. cbn [expanded st]. rewrite lookup_empty. cbn [unexpanded ev].
    rewrite Hset. unfold expandSeriesSet. rewrite mbind_run, expand_loop_never. done. }
  rewrite (eval_VectorSelector_ok never ev v st series st1 Hexp Hs Hlb) by done. cbv zeta.
  rewrite (selector_matrix_instant ev (v_Offset v) start series Hsteps).
  change (omap (instant_answer (lookbackDelta ev) (v_Offset v) start) series) with vec.
  rewrite instant_total.
  unfold fits. cbn [currentSamples st1 maxSamples ev]. rewrite Z.add_0_l.
  destruct (_ || _); [|done]. cbn. rewrite expr_Type_doc. cbn.
  rewrite instant_samples by apply answers_at. done.
Qed.

(** The samples of a row come in the order of time, which the query asks for. *)
Definition row_sorted (x : res (SS.data_row sval)) : Prop :=
  ∀ ids ts vs, x = Ok (ids, ts, vs) → by_time (SS.present ts vs).

(** C4. An instant query for a selector answers from the rows of the database.  When the
    SQL of the selector, with the time range of the query and its hints, gives rows
    without an error, the vector has one sample for each row whose latest value at or
    before the time (less the offset) is within the lookback and no staleness marker,
    with that value, the query's time, and the labels the database has for the row's
    ids; only a number of samples beyond the engine's limit is an error. *)
Theorem instant_query_answers_rows (ng : Eng.Engine (T:=T) (L:=L)) v t m q q1 rows polls :
  v_Series v = None → findMinTime (Eng.ng_lookbackDelta ng) (selector_stmt v t) = Ok m →
  Rd.getResultRows qconn Sanitize ExtensionIsInstalled q (FromTime m) (FromTime t)
    (Some (hints_of (selector_hints FromTime ItemType_String (Eng.ng_lookbackDelta ng) (selector_stmt v t) 0 [] v)))
    [] (LabelMatchers v) = (q1, Ok (rows, None)) →
  Rd.q_sound db_labels q1 → Forall (SS.good_rows (known_ids (Rd.q_db q1))) rows → SS.final_err None rows = None →
  Forall row_sorted (concat (MC.row_scans <$> rows)) → (0 ≤ durationMilliseconds (Eng.ng_lookbackDelta ng))%Z →
  ∃ q2 series, Forall2 (row_stored (Rd.q_db q1)) (concat (MC.row_scans <$> rows)) series ∧
    let vec := omap (instant_answer (Eng.ng_lookbackDelta ng) (v_Offset v) (timeMilliseconds t)) series in
    run_stmt ng v t q polls =
      (q2, if (length vec =? 0) || (Z.of_nat (length vec) <=? Eng.maxSamplesPerQuery ng)%Z
           then Ok (Some (VVector vec), [], None)
           else Ok (None, [], Some (ErrTooManySamples env))).
Proof.
  intros Hv Hmin Hrows Hsound Hgood Herr Hsorted Hlb.
  destruct (Select_rows q q1 (FromTime m) (FromTime t) false
    (selector_hints FromTime ItemType_String (Eng.ng_lookbackDelta ng) (selector_stmt v t) 0 [] v) [] (LabelMatchers v)
    rows None Hrows Hsound Hgood Herr) as (q2 & series & Hsel & Hser).
  exists q2, series. split; [done|]. cbv zeta. set (vec := omap _ series).
  unfold Eng.execEvalStmt. rewrite Hmin. cbn [Plan.Querier NewQueryable Querier End_ selector_stmt].
  rewrite populateSeries_walk. cbn [selectors selector_stmt Expr fold_until].
  unfold select_step, select_series. cbn [p_topNode fst snd p_db Plan.Select NewQueryable].
  fold (selector_stmt v t). unfold newQuerier, range_of. cbn [last]. rewrite Hsel.
  cbn [sel_err sel_node sel_warnings sel_set fst p_err p_db Start Interval selector_stmt p_warnings app].
  rewrite Z.eqb_refl. cbn [andb Z.eqb]. f_equal.
  apply instant_of_selector; [done..|by apply lookup_insert_eq| |done].
  apply Forall_forall. intros x (i & Hi)%list_elem_of_lookup.
  destruct (Forall2_lookup_r _ _ _ _ _ Hser Hi) as (r & Hr & ids & ts & vs & ls & -> & _ & _ & _ & ->).
  apply list_elem_of_lookup_2 in Hr. rewrite Forall_forall in Hsorted. by eapply (Hsorted _ Hr).
Qed.
End instant.

(** ** Concrete run *)

Module Toy.
#[local] Existing Instance Rd.ex_cache_ops.
#[local] Existing Instance Eng.tracker.
#[local] Existing Instance Eng.memory_log.

(** The database has one series, with values at 100 and 70 seconds before the query and
    one value missing. *)
Definition toy_data : MC.Rows (SS.data_row sval) :=
  MC.MkRows [Ok ([3; 1]%Z,
    [SS.MkTime true (SS.Finite 1599999900000000000); SS.MkTime true (SS.Finite 1599999930000000000);
     SS.MkTime true (SS.Finite 1599999960000000000)],
    [SS.MkVal true (Num f_zero); SS.MkVal true (Num f_one); SS.MkVal false (Num f_zero)])] None.

Definition toy_qconn : Rd.QConn (F:=sval) (D:=unit) := {|
  Rd.qc_health d := (d, None);
  Rd.qc_series d _ _ := (d, Ok (MC.MkRows [] None));
  Rd.qc_data d _ _ := (d, (toy_data, None));
  Rd.qc_table d _ := (d, Ok (MC.MkRows [Ok "up_t"%string] None));
  Rd.qc_labels := LR.ex_labels_query;
  Rd.qc_labelNames d := (d, Ok (MC.MkRows [] None));
  Rd.qc_labelValues d _ := (d, Ok (MC.MkRows [] None));
|}.

Definition toy_ng : Eng.Engine (T:=QLog.ActiveQueryTracker) (L:=list Eng.log_entry) := NewEngine 60000000000.
Definition toy_q : Rd.pgxQuerier (D:=unit) (C:=MC.MetricNameCache) := Rd.MkQuerier () (Clock.WithMax 2) LR.ex_cache.
Definition up : vsel := MkVsel 1 0 [Lbl.MkMatcher Lbl.MatchEqual "__name__" "up" (String.eqb "up")] None.
Definition now : Z := 1600000000000000000.

Definition toy_run : Rd.pgxQuerier (D:=unit) (C:=MC.MetricNameCache) * res Eng.outcome :=
  Eng.execEvalStmt Plan.Toy.millis Plan.Toy.op_text (NewQueryable toy_qconn (λ _, "") false (λ _, Clock.quiet))
    (λ _, 0%Z) (λ _, "") (λ _, true) (λ x _, x) Eng.Toy.functions (λ _, None) 0 toy_ng (selector_stmt up now) toy_q 0.

Lemma toy_knows : Forall (SS.good_rows (known_ids (λ _ : unit, LR.ex_labels_db) ())) [toy_data].
Proof.
  apply Forall_singleton. unfold SS.good_rows. apply Forall_singleton. eexists _, _, _. split; [reflexivity|].
  split; [reflexivity|]. repeat constructor; vm_compute; eauto.
Qed.

Lemma instant_query_answers_rows_witness :
  ∃ q2 x, toy_run = (q2, Ok (Some (VVector [x]), [], None)) ∧ V (s_Point x) = f_one ∧
    ∃ s, row_stored (λ _ : unit, LR.ex_labels_db) () (Ok ([3; 1]%Z,
      [SS.MkTime true (SS.Finite 1599999900000000000); SS.MkTime true (SS.Finite 1599999930000000000);
       SS.MkTime true (SS.Finite 1599999960000000000)],
      [SS.MkVal true (Num f_zero); SS.MkVal true (Num f_one); SS.MkVal false (Num f_zero)])) s ∧
    s_Metric x = st_Labels s.
Proof.
  destruct (Rd.getResultRows toy_qconn (λ _, "") false toy_q 1599999700000 1600000000000
    (Some (hints_of (selector_hints Plan.Toy.millis Plan.Toy.op_text (Eng.ng_lookbackDelta toy_ng) (selector_stmt up now) 0 [] up)))
    [] (LabelMatchers up)) as [q1 r] eqn:Hr.
  assert (r = Ok ([toy_data], None) ∧ Rd.q_labels q1 = LR.ex_cache ∧ Rd.q_db q1 = ()) as (-> & Hc & Hd).
  { vm_compute in Hr. injection Hr as <- <-. vm_compute. done. }
  destruct (instant_query_answers_rows toy_qconn (λ _, "") false (λ _, Clock.quiet) (λ _, LR.ex_labels_db)
    LR.ex_labels_query_ok LR.ex_labels_query_answers Plan.Toy.millis Plan.Toy.op_text (λ _, 0%Z) (λ _, "") (λ _, true) (λ x _, x)
    Eng.Toy.functions 0 toy_ng up now 1599999700000000000 toy_q q1 [toy_data] 0) as (q2 & series & Hser & Hrun);
    [reflexivity|reflexivity|exact Hr| | |reflexivity| |vm_compute; discriminate|].
  - unfold Rd.q_sound. rewrite Hc, Hd. exact LR.ex_cache_sound.
  - rewrite Hd. exact toy_knows.
  - apply Forall_singleton. intros ids ts vs [= <- <- <-]. vm_compute. repeat constructor.
  - cbv zeta in Hrun. inversion Hser as [|x0 s0 l0 l1 Hs Hnil Hx Hl]; subst. inversion Hnil; subst.
    pose proof Hs as (ids & ts & vs & ls & Heq & _ & _ & _ & Hsam). injection Heq as <- <- <-.
    assert (instant_at (st_samples s0) (timeMilliseconds now - durationMilliseconds (v_Offset up))
      (durationMilliseconds (Eng.ng_lookbackDelta toy_ng)) = Some (1599999930000%Z, f_one)) as Hi
      by (rewrite Hsam; vm_compute; reflexivity).
    unfold instant_answer in Hrun. cbn [omap list_omap] in Hrun. rewrite Hi in Hrun.
    exists q2, (Val.MkSample (MkPoint (timeMilliseconds now) f_one) (st_Labels s0)).
    split; [exact Hrun|]. split; [reflexivity|]. exists s0. split; [exact Hs|reflexivity].
Defined.

End Toy.
End Qry.
