(* ===== verification/Main.v ===== *)
(** * The main program

    [src/cmd/timescale-prometheus/main.go]: the flags, the
    sequence of the start with its exit codes, the multiplexers and the routes, and the
    server that runs afterwards as a step relation, in which a request finds its handler
    through the registrations of the start.

    What the flag package calls [Set] with is an argument: the sequence of names and
    values on the command line.  [envy], which sets flags from the environment before, and
    the router are packages outside the repository and parameters.  The scheduled election,
    a goroutine of its own, is a step of the server and does not run during the start. *)
From S2P Require Import Prelude Log ClockCache Labels MetricCache SampleIter Ingestor LabelReader Reader SeriesIds Inserter Pipeline GoStrings Migrate Election Float Api Client WritePath.
From stdpp Require Import pretty.

Module Main.
Import Log.

(** ** The configuration *)

Section config.
Context {R : Type}.

Record config := MkConfig {
  listenAddr : string; telemetryPath : string; pgmodelCfg : Cli.Config; logLevel : string;
  haGroupLockID : Z; restElection : bool; prometheusTimeout : Z; electionInterval : Z;
  migrate : bool; corsOrigin : R;
}.

End config.
Arguments config : clear implicits.

Section flags.
Context {R : Type} (Compile : string → goerror + R).
Context (ParseInt ParseUint : string → option Z) (ParseBool : string → option bool).
Context (ParseDuration : string → option Z).
(** [envy.Parse]: the variables of the flags after it has read the environment. *)
Context (envy_Parse : config R → config R).

Definition compileAnchoredRegexString (s : string) : goerror + R := Compile ("^(?:" ++ s ++ ")$").

Definition default_config (re : R) : config R :=
  MkConfig ":9201" "/metrics" Cli.ParseFlags "debug" 0%Z false (-1)%Z (5 * Api.Second)%Z true re.

(** A value for a flag of the program; the others belong to the client.  The variable
    behind [web-cors-origin] is not read any more. *)
Definition set_flag (cfg : config R) (name value : string) : option (config R) :=
  let '(MkConfig la tp pg ll ha re pt ei mi co) := cfg in
  if bool_decide (name = "web-listen-address") then Some (MkConfig value tp pg ll ha re pt ei mi co)
  else if bool_decide (name = "web-telemetry-path") then Some (MkConfig la value pg ll ha re pt ei mi co)
  else if bool_decide (name = "web-cors-origin") then Some cfg
  else if bool_decide (name = "log-level") then Some (MkConfig la tp pg value ha re pt ei mi co)
  else if bool_decide (name = "leader-election-pg-advisory-lock-id") then
    ha ← ParseInt value; Some (MkConfig la tp pg ll ha re pt ei mi co)
  else if bool_decide (name = "leader-election-pg-advisory-lock-prometheus-timeout") then
    pt ← ParseDuration value; Some (MkConfig la tp pg ll ha re pt ei mi co)
  else if bool_decide (name = "leader-election-rest") then
    re ← ParseBool value; Some (MkConfig la tp pg ll ha re pt ei mi co)
  else if bool_decide (name = "scheduled-election-interval") then
    ei ← ParseDuration value; Some (MkConfig la tp pg ll ha re pt ei mi co)
  else if bool_decide (name = "migrate") then
    mi ← ParseBool value; Some (MkConfig la tp pg ll ha re pt ei mi co)
  else pg ← Cli.set_flag ParseInt ParseUint ParseBool pg name value;
       Some (MkConfig la tp pg ll ha re pt ei mi co).

Definition set_flags (cfg : config R) (settings : list (string * string)) : option (config R) :=
  foldl (λ cfg s, cfg ← cfg; set_flag cfg s.1 s.2) (Some cfg) settings.

(** The expression is compiled from the default of the flag; the command line comes after
    the environment.  Inside, [None] when the flag package ends the program, with exit code
    2, on a flag it does not know or a value it cannot parse. *)
Definition parseFlags (settings : list (string * string)) : goerror + option (config R) :=
  match compileAnchoredRegexString ".*" with
  | inl err => inl (Wrapped "could not compile CORS regex string .*" err)
  | inr re => inr (set_flags (envy_Parse (default_config re)) settings)
  end.

(** The verb [%+v] for a pointer to the configuration; the fields are not exported, so
    that durations are numbers and the expression is an address. *)
Definition show_config (address : R → string) (cfg : config R) : string :=
  "&{listenAddr:" ++ listenAddr cfg ++ " telemetryPath:" ++ telemetryPath cfg ++
  " pgmodelCfg:" ++ Cli.show_Config (pgmodelCfg cfg) ++ " logLevel:" ++ logLevel cfg ++
  " haGroupLockID:" ++ pretty (haGroupLockID cfg) ++ " restElection:" ++ Elect.show_bool (restElection cfg) ++
  " prometheusTimeout:" ++ pretty (prometheusTimeout cfg) ++
  " electionInterval:" ++ pretty (electionInterval cfg) ++ " migrate:" ++ Elect.show_bool (migrate cfg) ++
  " corsOrigin:" ++ address (corsOrigin cfg) ++ "}".

End flags.

(** ** The multiplexer of [net/http] *)

(** What the program registers with a multiplexer: [MLeader] is [handleLeader] of
    [src/pkg/util/election.go]. *)
Inductive mux_handler := MRouter | MTelemetry | MPprof (name : string) | MLeader.

Definition handle (mux : list (string * mux_handler)) (pattern : string) (h : mux_handler)
    : res (list (string * mux_handler)) :=
  if bool_decide (pattern = "") then Panic "http: invalid pattern"
  else if bool_decide (pattern ∈ mux.*1) then Panic ("http: multiple registrations for " ++ pattern)
  else Ok (mux ++ [(pattern, h)]).

Fixpoint ends_in_slash (s : string) : bool :=
  match s with
  | "" => false
  | String c "" => (c =? "/")%char
  | String _ s' => ends_in_slash s'
  end.

(** The longest of the patterns that end in a slash and start the path. *)
Definition longest (best : option (string * mux_handler)) (e : string * mux_handler)
    : option (string * mux_handler) :=
  match best with
  | Some b => if String.length b.1 <? String.length e.1 then Some e else best
  | None => Some e
  end.

Definition lookup_pattern (mux : list (string * mux_handler)) (path : string) : option mux_handler :=
  (find (λ e, bool_decide (e.1 = path)) mux) ≫= λ e, Some e.2.

Definition mux_match (mux : list (string * mux_handler)) (path : string) : option mux_handler :=
  match lookup_pattern mux path with
  | Some h => Some h
  | None => snd <$> foldl longest None (filter (λ e, ends_in_slash e.1 && GoStr.prefixb e.1 path) mux)
  end.

(** The patterns of [main], in its order. *)
Definition main_mux (telemetryPath : string) : res (list (string * mux_handler)) :=
  let* mux := handle [] "/" MRouter in
  let* mux := handle mux telemetryPath MTelemetry in
  let* mux := handle mux "/debug/pprof/" (MPprof "index") in
  let* mux := handle mux "/debug/pprof/cmdline" (MPprof "cmdline") in
  let* mux := handle mux "/debug/pprof/profile" (MPprof "profile") in
  let* mux := handle mux "/debug/pprof/symbol" (MPprof "symbol") in
  handle mux "/debug/pprof/trace" (MPprof "trace").

(** The pages [net/http/pprof] registers with the default multiplexer when it is
    imported, and [NewRestElection], which registers its handler there. *)
Definition pprof_pages : list (string * mux_handler) :=
  [("/debug/pprof/", MPprof "index"); ("/debug/pprof/cmdline", MPprof "cmdline");
   ("/debug/pprof/profile", MPprof "profile"); ("/debug/pprof/symbol", MPprof "symbol");
   ("/debug/pprof/trace", MPprof "trace")].

Definition register_leader (mux : list (string * mux_handler)) : res (list (string * mux_handler)) :=
  handle mux "/admin/election/leader" MLeader.

(** [http.DefaultServeMux] after [initElector] has made an elector. *)
Definition default_mux {Lk Session} (el : Elect.chosen Lk Session) : res (list (string * mux_handler)) :=
  match el with
  | Elect.Rest _ => register_leader pprof_pages
  | _ => Ok pprof_pages
  end.

(** The handlers of the program that can be registered with the router, and the methods. *)
Inductive route_handler := HWrite | HRead | HQuery | HQueryRange | HLabels | HLabelValues | HHealth | HLeader.
Inductive http_method := Get | Post | Put | OtherVerb.

#[export] Instance http_method_eq : EqDecision http_method.
Proof. solve_decision. Defined.

(** What [main] registers with the router: methods, paths and handlers. *)

Definition routes : list (http_method * string * route_handler) :=
  [(Post, "/write", HWrite); (Get, "/read", HRead); (Post, "/read", HRead);
   (Get, "/api/v1/query", HQuery); (Post, "/api/v1/query", HQuery);
   (Get, "/api/v1/query_range", HQueryRange); (Post, "/api/v1/query_range", HQueryRange);
   (Get, "/api/v1/labels", HLabels); (Post, "/api/v1/labels", HLabels);
   (Get, "/api/v1/label/:name/values", HLabelValues); (Get, "/healthz", HHealth)].

(** [timeHandler]: the result of the handler and the observation, in milliseconds. *)
Definition timeHandler {A} (start stop : Z) (path : string) (result : A) : A * (string * Z) :=
  (result, (path, Z.quot (stop - start) 1000000)).

(** A multiplexer answers with a handler that was registered with it. *)
Lemma mux_match_registered mux path h : mux_match mux path = Some h → h ∈ mux.*2.
Proof.
  unfold mux_match, lookup_pattern. destruct (find _ mux) as [e|] eqn:Hf; cbn.
  - intros [= <-]. apply find_some in Hf as [Hin _]. apply list_elem_of_fmap. exists e.
    split; [done|]. by apply list_elem_of_In.
  - assert (∀ l best, l ⊆ mux → (∀ b, best = Some b → b ∈ mux) →
      ∀ b, foldl longest best l = Some b → b ∈ mux) as Hfold.
    { induction l as [|e l IH]; intros best Hl Hb b; cbn [foldl]; [apply Hb|].
      assert (e ∈ mux) as He by (apply Hl; by left). apply IH; [intros x Hx; apply Hl; by right|].
      intros b'. unfold longest. destruct best as [b0|]; [destruct (_ <? _)|]; intros [= <-]; auto. }
    destruct (foldl longest None _) as [b|] eqn:Hl; cbn; [|done]. intros [= <-].
    apply list_elem_of_fmap. exists b. split; [done|]. refine (Hfold _ None _ _ _ Hl); [|done].
    intros e [_ He]%list_elem_of_filter. exact He.
Qed.

(** The paths that are taken. *)
Definition reserved : list string :=
  [""; "/"; "/debug/pprof/"; "/debug/pprof/cmdline"; "/debug/pprof/profile"; "/debug/pprof/symbol"; "/debug/pprof/trace"].

Definition mux_of (t : string) : list (string * mux_handler) :=
  [("/", MRouter); (t, MTelemetry); ("/debug/pprof/", MPprof "index"); ("/debug/pprof/cmdline", MPprof "cmdline");
   ("/debug/pprof/profile", MPprof "profile"); ("/debug/pprof/symbol", MPprof "symbol"); ("/debug/pprof/trace", MPprof "trace")].

Lemma handle_ok mux p h : p ≠ "" → p ∉ mux.*1 → handle mux p h = Ok (mux ++ [(p, h)]).
Proof. intros. unfold handle. by rewrite !bool_decide_false. Qed.

Lemma default_mux_ok {Lk Session} (el : Elect.chosen Lk Session) : ∃ mux, default_mux el = Ok mux.
Proof. destruct el; by eexists. Qed.

Lemma rest_registers {Lk Session} e mux :
  default_mux (Lk:=Lk) (Session:=Session) (Elect.Rest e) = Ok mux → ("/admin/election/leader", MLeader) ∈ mux.
Proof. vm_compute. intros [= <-]. do 5 right. left. Qed.

Lemma main_mux_cases t :
  (t ∈ reserved ∧ ∃ m, main_mux t = Panic m) ∨ (t ∉ reserved ∧ main_mux t = Ok (mux_of t)).
Proof.
  destruct (decide (t ∈ reserved)) as [Hin|Hin].
  - left. split; [done|]. unfold reserved in Hin. rewrite !elem_of_cons, elem_of_nil in Hin.
    destruct Hin as [->|[->|[->|[->|[->|[->|[->|[]]]]]]]]; by eexists.
  - right. split; [done|]. unfold reserved in Hin. rewrite !not_elem_of_cons in Hin.
    destruct Hin as (? & ? & ? & ? & ? & ? & ? & _). unfold main_mux.
    do 7 (rewrite handle_ok by (done || (cbn; rewrite ?not_elem_of_cons; split_and?; auto using not_elem_of_nil));
      cbn [res_bind app]). done.
Qed.

(** The paths of the server.  For a telemetry path that is no directory, the exact
    path gives the metrics, the five paths of the profiler its pages, whatever else is
    below its directory the index, and every other path goes to the router. *)
Theorem mux_routes t p mux :
  main_mux t = Ok mux → ends_in_slash t = false → GoStr.prefixb "/" p = true →
  mux_match mux p =
    Some (if bool_decide (p = t) then MTelemetry
          else if bool_decide (p = "/debug/pprof/cmdline") then MPprof "cmdline"
          else if bool_decide (p = "/debug/pprof/profile") then MPprof "profile"
          else if bool_decide (p = "/debug/pprof/symbol") then MPprof "symbol"
          else if bool_decide (p = "/debug/pprof/trace") then MPprof "trace"
          else if GoStr.prefixb "/debug/pprof/" p then MPprof "index"
          else MRouter).
Proof.
  intros Hm Ht Hp. destruct (main_mux_cases t) as [[_ [m Hbad]]|[Hres Hok]]; [congruence|].
  rewrite Hok in Hm. injection Hm as <-. clear Hok.
  unfold reserved in Hres. rewrite !not_elem_of_cons in Hres.
  unfold mux_match, lookup_pattern, mux_of.
  assert (∀ (b : string) l (x : mux_handler), find (λ e : string * mux_handler, bool_decide (e.1 = p)) ((b, x) :: l) =
    if bool_decide (p = b) then Some (b, x) else find (λ e, bool_decide (e.1 = p)) l) as Hfind.
  { intros b l x. cbn [find fst]. by rewrite (bool_decide_ext (b = p) (p = b)) by done. }
  rewrite !Hfind. cbn [find].
  destruct (bool_decide (p = "/")) eqn:H1'.
  { apply bool_decide_eq_true in H1' as ->. rewrite (bool_decide_false ("/" = t)) by naive_solver. done. }
  destruct (bool_decide (p = t)) eqn:H2'; [done|].
  destruct (bool_decide (p = "/debug/pprof/")) eqn:H3'.
  { apply bool_decide_eq_true in H3' as ->. done. }
  repeat (match goal with |- context [bool_decide (p = ?b)] => destruct (bool_decide (p = b)) eqn:?; [done|] end).
  rewrite filter_cons_True by (cbn [fst]; rewrite Hp; exact I).
  rewrite filter_cons_False by (cbn [fst]; rewrite Ht; intros []).
  assert (∀ b (h : mux_handler) l, ends_in_slash b = false →
    filter (λ e : string * mux_handler, ends_in_slash e.1 && GoStr.prefixb e.1 p) ((b, h) :: l) =
    filter (λ e : string * mux_handler, ends_in_slash e.1 && GoStr.prefixb e.1 p) l) as Hskip.
  { intros b h l Hb. apply filter_cons_False. cbn [fst]. rewrite Hb. intros []. }
  destruct (GoStr.prefixb "/debug/pprof/" p) eqn:Hd.
  - rewrite filter_cons_True by (cbn [fst]; rewrite Hd; exact I). by rewrite !Hskip, filter_nil.
  - rewrite filter_cons_False by (cbn [fst]; rewrite Hd, andb_false_r; intros []). by rewrite !Hskip, filter_nil.
Qed.

(** ** The start *)

Section main.
Context {F D Lk Session T R : Type} `{GoSort} `{Mig.Semver} `{Elect.PgLocks Lk Session}.
Context (Compile : string → goerror + R) (address : R → string).
Context (ParseInt ParseUint : string → option Z) (ParseBool : string → option bool).
Context (ParseDuration : string → option Z) (envy_Parse : config R → config R).
(** The database: the pool, the connections of the client and of the migration. *)
Context (Connect : string → D → D * option goerror) (error_text : goerror → string).
Context (conc : nat → list nat) (conn : Ins.Conn F D).
Context (mdb : Mig.MDB Mig.Version D T) (sqlFiles : string → Mig.fal Mig.File).
Context (gomaxprocs numCPU : Z) (Version CommitHash : string).
(** [http.ListenAndServe]: [None] while it serves. *)
Context (ListenAndServe : string → option goerror).

Notation elector := (Elect.chosen Lk Session).
#[local] Existing Instance Elect.RestElection_ops.
#[local] Existing Instance Elect.RestElection_laws.
#[local] Existing Instance Elect.PgAdvisoryLock_ops.
#[local] Instance names_ops : MC.MetricCacheOps MC.MetricNameCache := MC.MetricNameCache_ops conc.
#[local] Existing Instance MC.MetricNameCache_laws.

Record server := MkServer {
  s_elector : elector;
  s_client : Cli.Client (F:=F) (D:=D);
  s_interner : gmap string Lbl.Labels;
  s_metrics : Api.Metrics;
  s_cors : R;
  (** the handler [ListenAndServe] was called with, and the default multiplexer *)
  s_mux : option (list (string * mux_handler));
  s_default : list (string * mux_handler);
  s_routes : list (http_method * string * route_handler);
  (** the package variable [lastRequestUnixNano], and the timeout of its check *)
  s_lastRequest : Z;
  s_timeout : Z;
}.

(** How the start ends: the exit code, a panic, an operation that does not return, or a
    server. *)
Inductive outcome := Exited (code : Z) | Crashed (msg : string) | Stuck | Serving (s : server).

(** The database of the metrics, the locks, and what was written. *)
Record sys := MkSys { sy_db : D; sy_locks : Lk; sy_lines : list line }.

Definition write_lines (l : list line) (s : sys) : sys := MkSys (sy_db s) (sy_locks s) (sy_lines s ++ l).
Definition set_db (d : D) (s : sys) : sys := MkSys d (sy_locks s) (sy_lines s).

Definition version_line : line := Println ["Version: "; Version; "Commit Hash: "; CommitHash].

(** The [elector] of the package is nil, or the elector inside. *)
Definition migrate_with (el : elector) (cfg : Cli.Config) (d : D) : option (elector * Z * D * option goerror) :=
  let connect := Connect (Cli.GetConnectionStr cfg) in
  let info := Mig.MkVersionInfo Version CommitHash in
  match el with
  | Elect.NoElector =>
      match Api.migrate (E:=Elect.RestElection) mdb sqlFiles info None connect d with
      | Some (_, gauge, d, err) => Some (Elect.NoElector, gauge, d, err)
      | None => None
      end
  | Elect.Rest e =>
      match Api.migrate mdb sqlFiles info (Some e) connect d with
      | Some (e', gauge, d, err) => Some (Elect.Rest (default e e'), gauge, d, err)
      | None => None
      end
  | Elect.Advisory se l =>
      match Api.migrate mdb sqlFiles info (Some (Elect.elector se)) connect d with
      | Some (e', gauge, d, err) =>
          Some (Elect.Advisory (Elect.MkScheduled (default (Elect.elector se) e') (Elect.pausedScheduledElection se)) l,
                gauge, d, err)
      | None => None
      end
  end.

(** The last part of [main]: the client, the handlers and the listener. *)
Definition start_serving (logger : option level) (cfg : config R) (el : elector) (gauge : Z)
    (dmux : list (string * mux_handler)) (calc : Api.ThroughputCalc) (now : Z) (s : sys) : sys * outcome :=
  match Cli.NewClient conn Connect error_text logger gomaxprocs numCPU (pgmodelCfg cfg) (sy_db s) with
  | (d, logged, Err err) =>
      (write_lines (logged ++ log_at logger LError [Cli.MaskPassword (error_text err)]) (set_db d s), Exited 1)
  | (d, logged, Panic m) => (write_lines logged (set_db d s), Crashed m)
  | (d, logged, Ok client) =>
      let s := write_lines (logged ++ log_at logger LInfo ["msg"; "Starting up..."] ++
                 log_at logger LInfo ["msg"; "Listening"; "addr"; listenAddr cfg]) (set_db d s) in
      match main_mux (telemetryPath cfg) with
      | Ok mux =>
          match ListenAndServe (listenAddr cfg) with
          | Some err => (write_lines (log_at logger LError ["msg"; "Listen failure"; "err"; error_text err]) s, Exited 1)
          | None =>
              (s, Serving (MkServer el client ∅ (Api.MkMetrics now gauge 0 0 0 calc 0 0) (corsOrigin cfg)
                             (Some mux) dmux routes now (prometheusTimeout cfg)))
          end
      | Err err => (s, Exited 1)
      | Panic m => (s, Crashed m)
      end
  end.

(** [now] is the clock when the package is initialised, where [init] also starts [calc]. *)
Definition main (settings : list (string * string)) (now : Z) (s : sys) : sys * outcome :=
  let calc := Api.Start (Api.NewThroughputCalc (float_of_Z 1)) in
  match parseFlags Compile ParseInt ParseUint ParseBool ParseDuration envy_Parse settings with
  | inl err =>
      (write_lines [version_line; Println ["Fatal error: cannot parse flags "; error_text err]] s,
       Crashed "runtime error: invalid memory address or nil pointer dereference")
  | inr None => (s, Exited 2)
  | inr (Some cfg) =>
      match Init None (logLevel cfg) with
      | (_, Some err) =>
          (write_lines [version_line; Println ["Fatal error: cannot start logger"; error_text err]] s, Exited 1)
      | (logger, None) =>
          let log := log_at logger in
          let s := write_lines (log LInfo ["msg"; ("Version:" ++ Version ++ "; Commit Hash: " ++ CommitHash)%string] ++
                     log LInfo ["config"; Cli.MaskPassword (show_config address cfg)]) s in
          match Elect.initElector (Elect.MkConfig (restElection cfg) (haGroupLockID cfg) (prometheusTimeout cfg))
                  (sy_locks s) with
          | (k, inl err) =>
              (write_lines (log LError ["msg"; ("Aborting startup because of elector init error: " ++
                 Cli.MaskPassword (error_text err))%string]) (MkSys (sy_db s) k (sy_lines s)), Exited 1)
          | (k, inr el) =>
              let s := write_lines (match el with
                                    | Elect.NoElector => log LWarn ["msg"; "No adapter leader election. Group lock id is not set. Possible duplicate write load if running adapter in high-availability mode"]
                                    | Elect.Rest _ => []
                                    | Elect.Advisory _ _ => log LInfo ["msg"; "Initialized leader election based on PostgreSQL advisory lock"]
                                    end) (MkSys (sy_db s) k (sy_lines s)) in
              match default_mux el with
              | Err err => (s, Exited 1)
              | Panic m => (s, Crashed m)
              | Ok dmux =>
              if migrate cfg then
                match migrate_with el (pgmodelCfg cfg) (sy_db s) with
                | None => (s, Stuck)
                | Some (el, gauge, d, Some err) =>
                    (write_lines (log LError ["msg"; ("Aborting startup because of migration error: " ++
                       Cli.MaskPassword (error_text err))%string]) (set_db d s), Exited 1)
                | Some (el, gauge, d, None) => start_serving logger cfg el gauge dmux calc now (set_db d s)
                end
              else start_serving logger cfg el 0 dmux calc now s
              end
          end
      end
  end.

(** ** The server *)

Context {B : Type} (snappy_Decode : B → goerror + B) (Unmarshal : B → goerror + list (Smp.TimeSeries F)).
Context (pick : Pipe.world (F:=F) (D:=D) (C:=MC.MetricNameCache) → list (Pipe.action (F:=F)) → nat).

(** [client.Ingest] waits for the call it makes; that the call returns is a theorem. *)
Definition client_insert (c : Cli.Client (F:=F) (D:=D)) (w : Pipe.world) (data : gmap string (list (Smp.samplesInfo F)))
    : Pipe.world * (nat * option goerror) :=
  default (w, (0, None))
    (Wp.InsertNewData conn (Cli.AsyncAcks (Cli.c_cfg c)) (Cli.c_copiers c) pick w data).

Definition with_world (c : Cli.Client (F:=F) (D:=D)) (w : Pipe.world) : Cli.Client (F:=F) (D:=D) :=
  Cli.MkClient w (Cli.c_copiers c) (Cli.c_labels c) (Cli.c_cfg c).

(** A request to [/write] on a server whose elector has this type; [put] is the elector
    of the server afterwards. *)
Definition write_on {E} `{Elect.ElectionOps E} (el : option (Elect.Elector E))
    (put : option (Elect.Elector E) → elector) (body : goerror + B) (now : Z) (s : server)
    : option (server * Api.response) :=
  match Api.Write snappy_Decode Unmarshal (Wp.ingest (client_insert (s_client s))) body now
          (Api.MkWriter el (s_metrics s) (Cli.c_world (s_client s), s_interner s)) with
  | Some (st, resp) =>
      Some (MkServer (put (Api.w_elector st)) (with_world (s_client s) (Api.w_db st).1) (Api.w_db st).2
              (Api.w_metrics st) (s_cors s) (s_mux s) (s_default s) (s_routes s) (s_lastRequest s) (s_timeout s), resp)
  | None => None
  end.

Definition serve_write (body : goerror + B) (now : Z) (s : server) : option (server * Api.response) :=
  match s_elector s with
  | Elect.NoElector => write_on (E:=Elect.RestElection) None (λ _, Elect.NoElector) body now s
  | Elect.Rest e => write_on (Some e) (λ e', Elect.Rest (default e e')) body now s
  | Elect.Advisory se l =>
      write_on (Some (Elect.elector se))
        (λ e', Elect.Advisory (Elect.MkScheduled (default (Elect.elector se) e') (Elect.pausedScheduledElection se)) l)
        body now s
  end.

Definition set_elector (el : elector) (s : server) : server :=
  MkServer el (s_client s) (s_interner s) (s_metrics s) (s_cors s) (s_mux s) (s_default s) (s_routes s) (s_lastRequest s) (s_timeout s).
Definition set_metrics (m : Api.Metrics) (s : server) : server :=
  MkServer (s_elector s) (s_client s) (s_interner s) m (s_cors s) (s_mux s) (s_default s) (s_routes s) (s_lastRequest s) (s_timeout s).
Definition set_client (c : Cli.Client (F:=F) (D:=D)) (s : server) : server :=
  MkServer (s_elector s) c (s_interner s) (s_metrics s) (s_cors s) (s_mux s) (s_default s) (s_routes s) (s_lastRequest s) (s_timeout s).

(** A tick of the goroutine of the scheduled elector. *)
Definition scheduled_tick (s : server) : option server :=
  match s_elector s with
  | Elect.Advisory se l => se ← Elect.scheduledElection se; Some (set_elector (Elect.Advisory se l) s)
  | _ => None
  end.

(** A tick of the liveness goroutine, which reads the package variable. *)
Definition liveness_tick (now : Z) (s : server) : option server :=
  match s_elector s with
  | Elect.Advisory se true =>
      se ← Elect.PrometheusLivenessCheck se (now - s_lastRequest s) (s_timeout s);
      Some (set_elector (Elect.Advisory se true) s)
  | _ => None
  end.

Definition throughput_tick (s : server) : option server :=
  calc ← Api.tick (Api.WriteThroughput (s_metrics s));
  Some (set_metrics (Api.set_throughput calc (s_metrics s)) s).

(** *** Requests *)

(** The router of [src/cmd/timescale-prometheus/main.go] is a package outside the
    repository.  It calls for a request a handler that was registered for the method. *)
Context (Router : list (http_method * string * route_handler) → http_method → string → option route_handler).
Context (Router_registered : ∀ table m path h, Router table m path = Some h → ∃ pattern, (m, pattern, h) ∈ table).

(** A request, its body also as the string that the handler of the election reads. *)
Record request := MkRequest {
  rq_method : http_method; rq_path : string; rq_body : goerror + B; rq_text : goerror + string;
}.

(** [ListenAndServe] serves the handler it is given, and the default multiplexer for nil;
    what is registered for [/] is the router.  [None] is the answer that there is no page. *)
Definition dispatch (s : server) (m : http_method) (path : string) : option (route_handler + mux_handler) :=
  match mux_match (default (s_default s) (s_mux s)) path with
  | Some MRouter => inl <$> Router (s_routes s) m path
  | Some h => Some (inr h)
  | None => None
  end.

(** The request as [handleLeader] of the elector sees it. *)
Definition leader_request (r : request) : Elect.request :=
  Elect.MkRequest (match rq_method r with Get => Elect.MethodGet | Put => Elect.MethodPut | _ => Elect.OtherMethod end)
    (rq_text r).

Definition serve_leader (r : request) (s : server) : server :=
  match s_elector s with
  | Elect.Rest e =>
      set_elector (Elect.Rest (Elect.NewElector (Elect.handleLeader (Elect.election e) (leader_request r)).1.1)) s
  | _ => s
  end.

(** What a handler does to the server.  The handlers of the read side work on the reader of
    the client and on the counters of queries; all that is used of them is that. *)
Inductive answered (r : request) (s : server) : route_handler + mux_handler → server → Prop :=
  | answered_write now s' resp : serve_write (rq_body r) now s = Some (s', resp) → answered r s (inl HWrite) s'
  | answered_read h q received failed : h ≠ HWrite → h ≠ HLeader →
      answered r s (inl h)
        (set_metrics (Api.add_failed_queries failed (Api.add_received_queries received (s_metrics s)))
           (set_client (Cli.put_reader (s_client s) q) s))
  | answered_route_leader : answered r s (inl HLeader) (serve_leader r s)
  | answered_mux_leader : answered r s (inr MLeader) (serve_leader r s)
  | answered_page h : h ≠ MLeader → h ≠ MRouter → answered r s (inr h) s.

(** What can happen to a server: a request, or a tick of one of its goroutines. *)
Inductive step (s : server) : server → Prop :=
  | step_request r h s' : dispatch s (rq_method r) (rq_path r) = Some h → answered r s h s' → step s s'
  | step_election s' : scheduled_tick s = Some s' → step s s'
  | step_liveness now s' : liveness_tick now s = Some s' → step s s'
  | step_throughput s' : throughput_tick s = Some s' → step s s'.

(** ** Lemmas *)

Lemma TryLock_unlocks (k : Lk) (l : Elect.PgAdvisoryLock Session) k' l' b err :
  Elect.TryLock k l = Some (k', l', b, err) → Elect.mutex_locked l' = Elect.mutex_locked l.
Proof.
  unfold Elect.TryLock. destruct (Elect.mutex_locked l) eqn:Hl; [done|].
  destruct (Elect.getAdvisoryLock k l) as [[[k1 l1] b1] e1] eqn:Hg.
  assert (Elect.mutex_locked l1 = false) as Hl1.
  { assert (∀ (k k' : Lk) l l' c b e, Elect.query_lock k l c = (k', l', b, e) →
      Elect.mutex_locked l' = Elect.mutex_locked l) as Hq.
    { clear. intros k k' l l' c b e. unfold Elect.query_lock, Elect.connCleanUp.
      intros Hq. repeat case_match; by simplify_eq/=. }
    unfold Elect.getAdvisoryLock in Hg. destruct (Elect.conn l).
    - apply Hq in Hg. congruence.
    - destruct (Elect.getConn 10 k) as [k2 [e|c]]; [by simplify_eq|]. apply Hq in Hg. cbn in Hg. congruence. }
  destruct (negb b1 || _); intros [= <- <- <- <-]; [done|]. by destruct (Elect.obtained l1).
Qed.

(** An elector as [initElector] makes it, and as it stays until the server runs. *)
Definition fresh (cfg : config R) (el : elector) : Prop :=
  match el with
  | Elect.NoElector => restElection cfg = false ∧ haGroupLockID cfg = 0%Z
  | Elect.Rest e => restElection cfg = true ∧ haGroupLockID cfg = 0%Z ∧ Elect.election e = Elect.NewRestElection
  | Elect.Advisory se liveness =>
      restElection cfg = false ∧ haGroupLockID cfg ≠ 0%Z ∧ prometheusTimeout cfg ≠ (-1)%Z ∧
      liveness = negb (prometheusTimeout cfg =? 0)%Z ∧ Elect.pausedScheduledElection se = false ∧
      Elect.mutex_locked (Elect.election (Elect.elector se)).2 = false
  end.

(** The kind of the election is that of the configuration. *)
Lemma fresh_mux cfg (el1 el2 : elector) : fresh cfg el1 → fresh cfg el2 → default_mux el1 = default_mux el2.
Proof.
  intros Hf1 Hf2. destruct el1, el2; cbn in Hf1, Hf2 |- *; try done; destruct Hf1 as [Hf1 _], Hf2 as [Hf2 _]; congruence.
Qed.

Lemma initElector_fresh cfg k k' el :
  Elect.initElector (Elect.MkConfig (restElection cfg) (haGroupLockID cfg) (prometheusTimeout cfg)) k = (k', inr el) →
  fresh cfg el.
Proof.
  unfold Elect.initElector. cbn [Elect.restElection Elect.haGroupLockID Elect.prometheusTimeout].
  destruct (restElection cfg) eqn:Hr; cbn [andb].
  - destruct (Z.eqb_spec (haGroupLockID cfg) 0) as [Hz|]; cbn [negb]; [|done]. by intros [= <- <-].
  - destruct (Z.eqb_spec (haGroupLockID cfg) 0) as [Hz|Hz]; [by intros [= <- <-]|].
    destruct (Z.eqb_spec (prometheusTimeout cfg) (-1)) as [|Ht]; [done|].
    unfold Elect.NewPgAdvisoryLock.
    destruct (Elect.TryLock k _) as [[[[k1 l] b] [e|]]|] eqn:Htl; [done| |done]. intros [= <- <-]. cbn.
    apply TryLock_unlocks in Htl. by split_and!.
Qed.

(** The answer of the leader check: the elector of the instance is asked, and without one
    the instance writes. *)
Definition leader_check (el : elector) : option (bool * option goerror) :=
  match el with
  | Elect.NoElector => Some (true, None)
  | Elect.Rest e => a ← Elect.Elector_IsLeader e; Some (a.1.2, a.2)
  | Elect.Advisory se _ => a ← Elect.Elector_IsLeader (Elect.elector se); Some (a.1.2, a.2)
  end.

(** The guarded migration: the leader has migrated, others leave the database alone. *)
Lemma migrate_with_spec cfg el ccfg d :
  fresh cfg el → ∃ el' gauge d' err, migrate_with el ccfg d = Some (el', gauge, d', err) ∧ fresh cfg el' ∧
    (err = None → (leader_check el = Some (false, None) ∧ d' = d) ∨
      leader_check el = Some (true, None) ∧ ∃ d0 installed, Connect (Cli.GetConnectionStr ccfg) d = (d0, None) ∧
        Mig.Migrate mdb sqlFiles (Mig.MkVersionInfo Version CommitHash) d0 = (d', installed, None)).
Proof.
  intros Hf.
  assert (∀ E (Hops : Elect.ElectionOps E) (el el' : option (Elect.Elector E)) shouldWrite err,
    Elect.isWriter el = Some (el', shouldWrite, err) →
    ∃ gauge d' err', Api.migrate mdb sqlFiles (Mig.MkVersionInfo Version CommitHash) el
      (Connect (Cli.GetConnectionStr ccfg)) d = Some (el', gauge, d', err') ∧
      (err' = None → err = None ∧ ((shouldWrite = false ∧ d' = d) ∨
        shouldWrite = true ∧ ∃ d0 installed, Connect (Cli.GetConnectionStr ccfg) d = (d0, None) ∧
          Mig.Migrate mdb sqlFiles (Mig.MkVersionInfo Version CommitHash) d0 = (d', installed, None)))) as Hm.
  { intros E Hops e e' shouldWrite err Hw. unfold Api.migrate. rewrite Hw.
    destruct err; [by eexists _, _, _|]. destruct shouldWrite; cbn [negb]; [|eexists _, _, _; by auto].
    destruct (Connect _ d) as [d0 [err|]] eqn:Hc; [by eexists _, _, _|].
    destruct (Mig.Migrate _ _ _ d0) as [[d1 installed] [err|]] eqn:Hmi; eexists _, _, _; (split; [done|]); [done|].
    intros _. split; [done|]. right. eauto. }
  destruct el as [|e|se l]; cbn [migrate_with].
  - destruct (Hm Elect.RestElection Elect.RestElection_ops None None true None eq_refl) as (g & d' & err & -> & Hd).
    eexists _, _, _, _. split; [done|]. split; [done|]. intros [_ [[? _]|[_ ?]]]%Hd; [done|by right].
  - destruct Hf as (Hr & Hz & He). destruct e as [e]. cbn in He. subst e.
    destruct (Hm Elect.RestElection Elect.RestElection_ops (Some (Elect.NewElector Elect.NewRestElection))
      (Some (Elect.NewElector Elect.NewRestElection)) false None eq_refl)
      as (g & d' & err & -> & Hd).
    eexists _, _, _, _. split; [done|]. split; [done|]. intros [_ [[_ ->]|[? _]]]%Hd; [by left|done].
  - destruct Hf as (Hr & Hz & Ht & Hl & Hp & Hmx). destruct se as [[[k lk]] paused]. cbn in *.
    destruct (Elect.TryLock k lk) as [[[[k' lk'] b] e]|] eqn:Htl;
      [|by unfold Elect.TryLock in Htl; rewrite Hmx in Htl; destruct (Elect.getAdvisoryLock k lk) as [[[? ?] ?] ?];
        destruct (negb _ || _)].
    destruct (Hm _ _ (Some (Elect.NewElector (k, lk))) (Some (Elect.NewElector (k', lk'))) b e) as (g & d' & err & Hmi & Hd).
    { cbn. unfold Elect.Elector_IsLeader, Elect.with_election. cbn. unfold Elect.lock_election. cbn. by rewrite Htl. }
    assert (leader_check (Elect.Advisory (Elect.MkScheduled (Elect.NewElector (k, lk)) paused) l) = Some (b, e)) as Hc.
    { cbn. unfold Elect.Elector_IsLeader, Elect.with_election. cbn. unfold Elect.lock_election. cbn. by rewrite Htl. }
    rewrite Hmi. apply TryLock_unlocks in Htl. rewrite Hmx in Htl.
    eexists _, _, _, _. split; [done|]. split; [by cbn; split_and!|]. intros [-> [[-> ->]|[-> ?]]]%Hd; [by left|by right].
Qed.

(** *** What the start comes to *)

Notation parsed := (parseFlags Compile ParseInt ParseUint ParseBool ParseDuration envy_Parse).

(** A server as [start_serving] makes it from the database [d]. *)
Definition served (cfg : config R) (el : elector) (d d' : D) (srv : server) : Prop :=
  (∃ logger logged, Cli.NewClient conn Connect error_text logger gomaxprocs numCPU (pgmodelCfg cfg) d =
     (d', logged, Ok (s_client srv))) ∧
  s_elector srv = el ∧ s_interner srv = ∅ ∧ 
  s_mux srv = Some (mux_of (telemetryPath cfg)) ∧ s_routes srv = routes ∧ default_mux el = Ok (s_default srv) ∧
  telemetryPath cfg ∉ reserved ∧ Api.SentSamples (s_metrics srv) = 0%Z.

Lemma start_serving_spec logger cfg el gauge dmux calc now s s' o :
  default_mux el = Ok dmux → start_serving logger cfg el gauge dmux calc now s = (s', o) →
  match o with
  | Serving srv => served cfg el (sy_db s) (sy_db s') srv
  | Exited code => code = 1%Z
  | Crashed _ => telemetryPath cfg ∈ reserved
  | Stuck => False
  end.
Proof.
  intros Hdef. unfold start_serving.
  destruct (Cli.NewClient _ _ _ _ _ _ _ _) as [[d logged] [client|err|m]] eqn:Hn.
  - destruct (main_mux_cases (telemetryPath cfg)) as [[Hin [m ->]]|[Hin ->]]; [by intros [= <- <-]|].
    destruct (ListenAndServe _); intros [= <- <-]; [done|]. cbn. unfold served. cbn. split_and!; eauto.
  - by intros [= <- <-].
  - exfalso. revert Hn. unfold Cli.NewClient. destruct (Connect _ _) as [d1 [err|]]; [done|].
    unfold Pipe.newPgxInserter. by destruct (Ins.CompleteMetricCreation conn d1) as [d2 [err|]].
Qed.

(** The elector [initElector] makes of the configuration. *)
Definition chosen_elector (cfg : config R) (k : Lk) (el : elector) : Prop :=
  ∃ k', Elect.initElector (Elect.MkConfig (restElection cfg) (haGroupLockID cfg) (prometheusTimeout cfg)) k = (k', inr el).

(** The database the client is made with, for the elector [el0] of the start.  Without the
    flag it is left alone.  With it, an instance that is the leader or has no elector has
    connected and migrated without an error, and only one whose elector has answered that
    it is not the leader leaves the database alone. *)
Definition migrated (cfg : config R) (el0 : elector) (d d' : D) : Prop :=
  if migrate cfg then
    (leader_check el0 = Some (false, None) ∧ d' = d) ∨
    (leader_check el0 = Some (true, None) ∧
     ∃ d0 installed, Connect (Cli.GetConnectionStr (pgmodelCfg cfg)) d = (d0, None) ∧
       Mig.Migrate mdb sqlFiles (Mig.MkVersionInfo Version CommitHash) d0 = (d', installed, None))
  else d' = d.

(** What the start comes to for what the flags gave. *)
Definition start_ok (p : goerror + option (config R)) (s s' : sys) (o : outcome) : Prop :=
  match o with
  | Serving srv => ∃ cfg min el0 el d, p = inr (Some cfg) ∧ parseLogLevel (logLevel cfg) = inr min ∧
      chosen_elector cfg (sy_locks s) el0 ∧ fresh cfg el ∧ migrated cfg el0 (sy_db s) d ∧ served cfg el d (sy_db s') srv
  | Exited code => (code = 2%Z ∧ p = inr None ∧ s' = s) ∨ (code = 1%Z ∧ ∃ cfg, p = inr (Some cfg))
  | Crashed _ => (∃ err, p = inl err) ∨ ∃ cfg, p = inr (Some cfg) ∧ telemetryPath cfg ∈ reserved
  | Stuck => False
  end.

Lemma main_spec settings now s s' o : main settings now s = (s', o) → start_ok (parsed settings) s s' o.
Proof.
  unfold main. destruct (parsed settings) as [err|[cfg|]];
    [intros [= <- <-]; left; eauto| |intros [= <- <-]; left; eauto].
  unfold Init. destruct (parseLogLevel (logLevel cfg)) as [err|min] eqn:Hl; [intros [= <- <-]; right; eauto|].
  cbn [sy_db sy_locks write_lines].
  destruct (Elect.initElector _ _) as [k [err|el]] eqn:Hi; [intros [= <- <-]; right; eauto|].
  assert (chosen_elector cfg (sy_locks s) el) as Hch by (by eexists).
  apply initElector_fresh in Hi. cbn [write_lines sy_db].
  destruct (default_mux_ok el) as [dmux Hdef]. rewrite Hdef.
  assert (∀ el1 gauge calc s1, fresh cfg el1 → migrated cfg el (sy_db s) (sy_db s1) →
    start_serving (Some min) cfg el1 gauge dmux calc now s1 = (s', o) → start_ok (inr (Some cfg)) s s' o) as Hserve.
  { intros el1 gauge calc s1 Hf Hm Hs. apply start_serving_spec in Hs; [|by rewrite <-Hdef; apply (fresh_mux cfg)].
    destruct o; cbn; eauto 12. }
  destruct (migrate cfg) eqn:Hmig.
  - destruct (migrate_with_spec cfg el (pgmodelCfg cfg) (sy_db s) Hi) as (el1 & gauge & d1 & err & He & Hf & Hd).
    rewrite He. destruct err as [err|]; [intros [= <- <-]; right; eauto|].
    apply Hserve; [done|]. cbn. unfold migrated. rewrite Hmig. destruct (Hd eq_refl) as [[? ->]|?]; auto.
  - apply Hserve; [done|]. unfold migrated. by rewrite Hmig.
Qed.

(** ** The properties *)

(** C11. The program serves only when everything before succeeded.  The flags were parsed
    and the log level exists; there is one kind of election at most, as configured, a
    lock only with a timeout; unless the migration is switched off, an instance without
    an elector and one that leads have migrated the schema without an error before the client
    connected, and only one whose leader check answered that it does not lead has left
    the database alone (as every instance with REST election does); and the server starts
    fit for [write_acks_stored]: a pipeline in its initial state with copiers and an
    empty interner. *)
Theorem main_serves settings now s s' srv (v : Ins.DbView D) :
  main settings now s = (s', Serving srv) →
  ∃ cfg min el0 d, parsed settings = inr (Some cfg) ∧ parseLogLevel (logLevel cfg) = inr min ∧
    match s_elector srv with
    | Elect.NoElector => restElection cfg = false ∧ haGroupLockID cfg = 0%Z
    | Elect.Rest _ => restElection cfg = true ∧ haGroupLockID cfg = 0%Z
    | Elect.Advisory se liveness => restElection cfg = false ∧ haGroupLockID cfg ≠ 0%Z ∧
        prometheusTimeout cfg ≠ (-1)%Z ∧ liveness = negb (prometheusTimeout cfg =? 0)%Z
    end ∧
    chosen_elector cfg (sy_locks s) el0 ∧ migrated cfg el0 (sy_db s) d ∧
    (∃ logger logged, Cli.NewClient conn Connect error_text logger gomaxprocs numCPU (pgmodelCfg cfg) d =
       (sy_db s', logged, Ok (s_client srv))) ∧
    Pipe.inv v (Cli.AsyncAcks (pgmodelCfg cfg)) (Cli.c_world (s_client srv)) ∧
    0 < Cli.c_copiers (s_client srv) ∧ Lbl.interner_ok (s_interner srv).
Proof.
  intros Hm. apply main_spec in Hm as (cfg & min & el0 & el & d & Hp & Hl & Hch & Hf & Hmig & Hn & Hel & Hi & _).
  exists cfg, min, el0, d. rewrite Hel, Hi. split_and!; try done.
  - destruct el; cbn in *; naive_solver.
  - destruct Hn as (logger & logged & Hn).
    destruct (Cli.NewClient_starts conc conn (Ins.db_tables v) _ _ _ _ _ _ _ _ _ _ Hn) as (-> & Hc & _).
    by apply Pipe.init_inv.
  - destruct Hn as (logger & logged & Hn).
    by destruct (Cli.NewClient_starts conc conn (Ins.db_tables v) _ _ _ _ _ _ _ _ _ _ Hn) as (_ & _ & ? & _).
Qed.

(** C39. The ways the start fails.  It never hangs in the election or the migration; it
    exits with 2 when the flags are wrong, before it touched anything, and with 1
    otherwise; it panics only when the built-in CORS expression does not compile or the
    telemetry path is a pattern the multiplexer already has. *)
Theorem main_fails settings now s s' o :
  main settings now s = (s', o) →
  match o with
  | Serving _ => True
  | Stuck => False
  | Exited code => (code = 2%Z ∧ parsed settings = inr None ∧ s' = s) ∨
      (code = 1%Z ∧ ∃ cfg, parsed settings = inr (Some cfg))
  | Crashed _ => (∃ err, Compile "^(?:.*)$" = inl err) ∨
      ∃ cfg, parsed settings = inr (Some cfg) ∧ telemetryPath cfg ∈ reserved
  end.
Proof.
  intros Hm. apply main_spec in Hm. destruct o; try done. destruct Hm as [[err He]|Hm]; [left|by right].
  unfold parseFlags, compileAnchoredRegexString in He. cbn in He.
  destruct (Compile _) as [e|re] eqn:Hc; [by exists e|done].
Qed.

(** *** REST election *)

(** What serves requests: the multiplexer of [main] with its routes. *)
Definition serves_main (srv : server) : Prop :=
  (∃ t, t ∉ reserved ∧ s_mux srv = Some (mux_of t)) ∧ s_routes srv = routes.

(** Neither table has the handler that makes the instance the leader. *)
Lemma leader_unreachable srv m path h :
  serves_main srv → dispatch srv m path = Some h → h ≠ inl HLeader ∧ h ≠ inr MLeader.
Proof using Router_registered.
  intros [(t & _ & Hmux) Hroutes]. unfold dispatch. rewrite Hmux, Hroutes. cbn [default id].
  destruct (mux_match (mux_of t) path) as [mh|] eqn:Hm; [|done].
  apply mux_match_registered in Hm. assert (mh ≠ MLeader) as Hne.
  { intros ->. cbn in Hm. rewrite !elem_of_cons, elem_of_nil in Hm. by repeat destruct Hm as [Hm|Hm]. }
  destruct mh; [|intros [= <-]; split; congruence..].
  destruct (Router routes m path) as [rh|] eqn:Hr; [|done]. intros [= <-]. split; [|done]. intros [= ->].
  apply Router_registered in Hr as [pattern Hin]. unfold routes in Hin.
  rewrite !elem_of_cons, elem_of_nil in Hin. by repeat destruct Hin as [Hin|Hin].
Qed.

(** The tables are those of the start. *)
Lemma step_tables srv srv' : step srv srv' →
  s_mux srv' = s_mux srv ∧ s_default srv' = s_default srv ∧ s_routes srv' = s_routes srv ∧
  s_lastRequest srv' = s_lastRequest srv ∧ s_timeout srv' = s_timeout srv.
Proof.
  destruct 1 as [r h s' _ Ha|s' Ht|now s' Ht|s' Ht].
  - destruct Ha as [now s' resp Hw|h q received failed _ _| | |h _ _]; try done.
    + unfold serve_write, write_on in Hw. repeat case_match; by simplify_eq/=.
    + unfold serve_leader. by destruct (s_elector srv).
    + unfold serve_leader. by destruct (s_elector srv).
  - unfold scheduled_tick in Ht. destruct (s_elector srv); simplify_option_eq; done.
  - unfold liveness_tick in Ht. destruct (s_elector srv) as [| |se []]; simplify_option_eq; done.
  - unfold throughput_tick in Ht. simplify_option_eq. done.
Qed.

(** No request has led the instance to insert anything. *)
Definition never_led (srv : server) : Prop :=
  s_elector srv = Elect.Rest (Elect.NewElector Elect.NewRestElection) ∧
  Pipe.w_frames (Cli.c_world (s_client srv)) = [] ∧ Api.SentSamples (s_metrics srv) = 0%Z.

Lemma never_led_write body now srv :
  never_led srv → ∃ srv', serve_write body now srv = Some (srv', Api.http_ok) ∧ never_led srv' ∧
    Cli.c_world (s_client srv') = Cli.c_world (s_client srv).
Proof.
  intros (He & Hw & Hs). unfold serve_write. rewrite He. eexists. split; [reflexivity|].
  unfold never_led. cbn. by split_and!.
Qed.

Lemma never_led_answered srv r h srv' :
  never_led srv → h ≠ inl HLeader ∧ h ≠ inr MLeader → answered r srv h srv' → never_led srv'.
Proof.
  intros Hn [Hroute Hpage]. pose proof Hn as (He & Hw & Hs).
  destruct 1 as [now s' resp Hwr|h q received failed _ _| | |h _ _]; [|by split_and!|done..].
  destruct (never_led_write (rq_body r) now srv Hn) as (s1 & Heq & H1' & _). congruence.
Qed.

Lemma never_led_step srv srv' : serves_main srv → never_led srv → step srv srv' → never_led srv'.
Proof using Router_registered.
  intros Hm Hn. pose proof Hn as (He & Hw & Hs). destruct 1 as [r h s' Hd Ha|s' Ht|now s' Ht|s' Ht].
  - eapply never_led_answered; [done| |exact Ha]. by eapply leader_unreachable.
  - unfold scheduled_tick in Ht. by rewrite He in Ht.
  - unfold liveness_tick in Ht. by rewrite He in Ht.
  - unfold throughput_tick in Ht. apply bind_Some in Ht as (calc & _ & [= <-]). by split_and!.
Qed.

Lemma steps_never_led srv0 srv : serves_main srv0 → never_led srv0 → rtc step srv0 srv →
  serves_main srv ∧ never_led srv ∧ s_default srv = s_default srv0.
Proof using Router_registered.
  intros Hm Hn Hsteps. revert Hm Hn. induction Hsteps as [|x y z Hxy _ IH]; intros Hm Hn; [done|].
  pose proof (step_tables _ _ Hxy) as (Hmux & Hdef & Hr & _). rewrite <-Hdef. apply IH; [|by eapply never_led_step].
  unfold serves_main. by rewrite Hmux, Hr.
Qed.

(** C12. An instance with REST election never leads.  [NewRestElection] registers the
    handler that makes it the leader with the default multiplexer, but [main] serves a
    multiplexer of its own, in which no path finds that handler, neither directly nor through
    the router.  So nothing that happens to the server after its start, whatever requests
    arrive and in whatever order with the ticks, makes it lead or insert a sample; every
    write is answered with 200. *)
Theorem rest_election_never_writes settings now s s' srv0 srv :
  main settings now s = (s', Serving srv0) →
  (∃ e, s_elector srv0 = Elect.Rest e) → rtc step srv0 srv →
  ("/admin/election/leader", MLeader) ∈ s_default srv ∧
  (∀ m path, dispatch srv m path ≠ Some (inl HLeader) ∧ dispatch srv m path ≠ Some (inr MLeader)) ∧
  (∃ e, s_elector srv = Elect.Rest e ∧ Elect.leader (Elect.election e) = false) ∧
  Pipe.w_frames (Cli.c_world (s_client srv)) = [] ∧ Api.SentSamples (s_metrics srv) = 0%Z ∧
  ∀ body now, ∃ srv', serve_write body now srv = Some (srv', Api.http_ok) ∧
    Cli.c_world (s_client srv') = Cli.c_world (s_client srv).
Proof using Router_registered.
  intros Hm [e He] Hsteps. apply main_spec in Hm as (cfg & min & el0 & el & d & _ & _ & _ & Hf & _ & Hserved).
  destruct Hserved as ((logger & logged & Hn) & Hel & _ & Hmux & Hroutes & Hdef & Htp & Hsent).
  rewrite He in Hel. subst el.
  assert (serves_main srv0) as Hm0 by (split; [by eexists|done]).
  assert (never_led srv0) as Hn0.
  { destruct (Cli.NewClient_starts conc conn (λ _, ∅) _ _ _ _ _ _ _ _ _ _ Hn) as (Hw & _).
    destruct Hf as (_ & _ & Hrest). destruct e as [e]. cbn in Hrest. subst e.
    split_and!; [done|by rewrite Hw|done]. }
  destruct (steps_never_led _ _ Hm0 Hn0 Hsteps) as (Hm1 & Hn1 & Hd1). pose proof Hn1 as (Hel1 & ? & ?).
  split_and!; [| |by eexists|done|done|].
  - rewrite Hd1. by eapply rest_registers.
  - intros m path. by split; intros Hd; apply leader_unreachable in Hd as [? ?].
  - intros body now'. destruct (never_led_write body now' srv Hn1) as (srv' & ? & _ & ?). eauto.
Qed.

(** *** The liveness check

    No step updates the variable that the check reads ([step_tables]). *)

(** Once the program runs longer than the timeout, every check that finds the instance
    leading makes it resign, however many requests Prometheus has sent meanwhile. *)
Lemma liveness_ignores_requests srv0 srv srv' now se e1 err :
  rtc step srv0 srv → s_elector srv = Elect.Advisory se true →
  Elect.Elector_IsLeader (Elect.elector se) = Some (e1, true, err) →
  (s_timeout srv0 < now - s_lastRequest srv0)%Z → liveness_tick now srv = Some srv' →
  ∃ se' err2, s_elector srv' = Elect.Advisory se' true ∧ Elect.pausedScheduledElection se' = true ∧
    Elect.Elector_Resign e1 = Some (Elect.elector se', err2).
Proof.
  intros Hsteps He Hl Hlate.
  assert (s_lastRequest srv = s_lastRequest srv0 ∧ s_timeout srv = s_timeout srv0) as [Hlr Hto].
  { clear -Hsteps. induction Hsteps as [|x y z Hxy _ IH]; [done|]. apply step_tables in Hxy as (_ & _ & _ & ? & ?). destruct IH. by split; etrans. }
  unfold liveness_tick. rewrite He, Hlr, Hto. unfold Elect.PrometheusLivenessCheck. rewrite Hl.
  apply Z.ltb_lt in Hlate. rewrite Hlate. cbn.
  destruct (Elect.Elector_Resign e1) as [[e2 err2]|]; [|done]. cbn. intros [= <-]. by eexists _, err2.
Qed.

End main.

(** ** Concrete runs *)

Module Toy.
Import Elect.Toy.
#[local] Existing Instance Mig.Toy.toy_semver.
#[local] Existing Instance Pipe.ex_cache_ops.
#[local] Existing Instance Pipe.ex_cache_laws.

Definition toy_mdb : Mig.MDB (@Mig.Version Mig.Toy.toy_semver) Pipe.ex_state unit := {|
  Mig.db_Acquire d := (d, None);
  Mig.db_Release d := d;
  Mig.db_Exec d _ _ := (d, None);
  Mig.db_Version d := (d, inr (Mig.MkMigRows [inr (1%Z, Some 1%Z)] None));
  Mig.db_Begin d := (d, inr tt);
  Mig.tx_Exec t _ _ := (t, None);
  Mig.tx_Commit d t := (d, t, None);
  Mig.tx_Rollback d _ := d;
|}.

Definition toy_ParseBool (s : string) : option bool :=
  if bool_decide (s = "true") then Some true else if bool_decide (s = "false") then Some false else None.

Definition toy_parse := parseFlags (R:=string) inr Elect.Atoi Elect.Atoi toy_ParseBool Elect.Atoi id.
Definition toy_main :=
  main (R:=string) inr (λ _, "0xc000010000") Elect.Atoi Elect.Atoi toy_ParseBool Elect.Atoi id
    (λ _ d, (d, None)) (λ _, "error") (Pipe.ex_conn (F:=Z)) toy_mdb Mig.Toy.toy_files 1 1 "2" "" (λ _, None).
Definition toy_sys : sys (D:=Pipe.ex_state) (Lk:=srv) := MkSys Pipe.ex_db0 (MkSrv 0 [] ∅) [].

(** Some runs: the exit codes, the first lines of the log, and the kinds of election. *)
Definition toy_out (r : sys (D:=Pipe.ex_state) (Lk:=srv) * outcome (F:=Z) (D:=Pipe.ex_state) (Lk:=srv) (Session:=nat) (R:=string)) : list line * (Z + string) :=
  (sy_lines r.1, match r.2 with
                 | Exited c => inl c
                 | Crashed m => inr m
                 | Stuck => inr "stuck"
                 | Serving s => inr match s_elector s with
                                    | Elect.NoElector => "no election"
                                    | Elect.Rest _ => "rest"
                                    | Elect.Advisory _ l => "lock"
                                    end
                 end).

Definition toy_run (settings : list (string * string)) := toy_main settings 7%Z toy_sys.
Definition lock_flags : list (string * string) :=
  [("leader-election-pg-advisory-lock-id", "5"); ("log-level", "error")].

Example toy_starts :
  (toy_out (toy_run [])).2 = inr "no election" ∧
  toy_out (toy_run [("leader-election-rest", "true"); ("log-level", "error")]) = ([], inr "rest") ∧
  toy_out (toy_run (("leader-election-pg-advisory-lock-prometheus-timeout", "60") :: lock_flags)) = ([], inr "lock") ∧
  toy_out (toy_run lock_flags) =
    ([Logged LError ["msg"; "Aborting startup because of elector init error: error"]], inl 1%Z) ∧
  (toy_out (toy_run [("log-level", "loud")])).2 = inl 1%Z ∧ (toy_out (toy_run [("no-such-flag", "")])).2 = inl 2%Z ∧
  (toy_out (toy_run [("web-telemetry-path", "/")])).2 = inr "http: multiple registrations for /".
Proof. by vm_compute. Qed.

Definition toy_kind (settings : list (string * string)) : option nat :=
  match (toy_run settings).2 with
  | Serving s => Some match s_elector s with Elect.NoElector => 0 | Elect.Rest _ => 1 | Elect.Advisory _ _ => 2 end
  | _ => None
  end.

(** A router that knows only exact paths. *)
Definition toy_router (table : list (http_method * string * route_handler)) (m : http_method) (path : string)
    : option route_handler :=
  find (λ e, bool_decide (e.1 = (m, path))) table ≫= λ e, Some e.2.

Lemma toy_router_registered table m path h : toy_router table m path = Some h → ∃ pattern, (m, pattern, h) ∈ table.
Proof.
  unfold toy_router. destruct (find _ table) as [[[m' p] h']|] eqn:Hf; cbn; [|done]. intros [= <-].
  apply find_some in Hf as [Hin Heq]. apply bool_decide_eq_true in Heq. cbn in Heq. injection Heq as -> ->.
  exists path. by apply list_elem_of_In.
Qed.

(** Where a POST to [/write] and a PUT to the handler of the election arrive. *)
Definition toy_requests (settings : list (string * string)) : option (list (option (route_handler + mux_handler))) :=
  match (toy_run settings).2 with
  | Serving s => Some [dispatch toy_router s Post "/write"; dispatch toy_router s Put "/admin/election/leader"]
  | _ => None
  end.

Lemma toy_serving settings k : toy_kind settings = Some k →
  ∃ s' srv, toy_run settings = (s', Serving srv) ∧ (k = 1 → ∃ e, s_elector srv = Elect.Rest e).
Proof.
  unfold toy_kind. destruct (toy_run settings) as [s' o]. cbn. destruct o as [| | |srv]; [done..|].
  intros [= <-]. exists s', srv. split; [done|]. destruct (s_elector srv); [done|by eexists|done].
Qed.

Lemma main_serves_witness :
  ∃ s' srv, toy_run [] = (s', Serving srv) ∧ Pipe.inv Pipe.ex_view false (Cli.c_world (s_client srv)) ∧
    0 < Cli.c_copiers (s_client srv).
Proof.
  destruct (toy_serving [] 0) as (s' & srv & Hr & _); [by vm_compute|]. exists s', srv. split; [exact Hr|].
  destruct (main_serves inr (λ _, "0xc000010000") Elect.Atoi Elect.Atoi toy_ParseBool Elect.Atoi id
    (λ _ d, (d, None)) (λ _, "error") (λ _, []) (Pipe.ex_conn (F:=Z)) toy_mdb Mig.Toy.toy_files 1 1 "2" "" (λ _, None)
    [] 7 toy_sys s' srv Pipe.ex_view Hr) as (cfg & min & el0 & d & Hp & _ & _ & _ & _ & _ & Hi & Hc & _).
  vm_compute in Hp. injection Hp as <-. split; [exact Hi|exact Hc].
Defined.

Lemma main_fails_witness :
  ∃ s' m, toy_run [("web-telemetry-path", "/")] = (s', Crashed m) ∧
    ∃ cfg, toy_parse [("web-telemetry-path", "/")] = inr (Some cfg) ∧ telemetryPath cfg ∈ reserved.
Proof.
  destruct (toy_run [("web-telemetry-path", "/")]) as [s' o] eqn:Hr.
  pose proof (f_equal (λ r, match r.2 with Crashed _ => true | _ => false end) Hr) as Hk.
  vm_compute in Hk. destruct o as [|m| |]; try discriminate. exists s', m. split; [reflexivity|].
  destruct (main_fails inr (λ _, "0xc000010000") Elect.Atoi Elect.Atoi toy_ParseBool Elect.Atoi id
    (λ _ d, (d, None)) (λ _, "error") (Pipe.ex_conn (F:=Z)) toy_mdb Mig.Toy.toy_files 1 1 "2" "" (λ _, None)
    [("web-telemetry-path", "/")] 7 toy_sys s' (Crashed m) Hr) as [[err He]|Hc]; [discriminate|exact Hc].
Defined.

Definition toy_write : request (B:=unit) := MkRequest Post "/write" (inr tt) (inr "").

(** The server answers a write, and is then no more of a leader than before. *)
Lemma rest_election_never_writes_witness :
  ∃ s' srv srv1, toy_run [("leader-election-rest", "true")] = (s', Serving srv) ∧
    step (λ _, []) Pipe.ex_conn inr (λ _ : unit, inr Ing.ex_tts) (λ _ _, 0) toy_router srv srv1 ∧
    dispatch toy_router srv Put "/admin/election/leader" = None ∧
    ("/admin/election/leader", MLeader) ∈ s_default srv1 ∧
    Pipe.w_frames (Cli.c_world (s_client srv1)) = [] ∧ Api.SentSamples (s_metrics srv1) = 0%Z.
Proof.
  destruct (toy_serving [("leader-election-rest", "true")] 1) as (s' & srv & Hr & Hrest); [by vm_compute|].
  assert (dispatch toy_router srv Post "/write" = Some (inl HWrite) ∧
    dispatch toy_router srv Put "/admin/election/leader" = None) as [Hw Hl].
  { assert (toy_requests [("leader-election-rest", "true")] = Some [Some (inl HWrite); None]) as Ht by (by vm_compute).
    unfold toy_requests in Ht. rewrite Hr in Ht. cbn [snd] in Ht. by injection Ht as -> ->. }
  pose proof (rest_election_never_writes inr (λ _, "0xc000010000") Elect.Atoi Elect.Atoi toy_ParseBool Elect.Atoi id
    (λ _ d, (d, None)) (λ _, "error") (λ _, []) (Pipe.ex_conn (F:=Z)) toy_mdb Mig.Toy.toy_files 1 1 "2" "" (λ _, None)
    inr (λ _ : unit, inr Ing.ex_tts) (λ _ _, 0) toy_router toy_router_registered
    [("leader-election-rest", "true")] 7 toy_sys s' srv) as Hclaim.
  destruct (Hclaim srv Hr (Hrest eq_refl) (rtc_refl _ _)) as (_ & _ & _ & _ & _ & Hwrite).
  destruct (Hwrite (inr tt) 8%Z) as (srv1 & Hwr & _).
  assert (step (λ _, []) Pipe.ex_conn inr (λ _ : unit, inr Ing.ex_tts) (λ _ _, 0) toy_router srv srv1) as Hstep.
  { apply (step_request _ _ _ _ _ _ srv toy_write (inl HWrite)); [exact Hw|]. by eapply (answered_write _ _ _ _ _ _ _ 8%Z). }
  exists s', srv, srv1. split; [exact Hr|]. split; [exact Hstep|]. split; [exact Hl|].
  destruct (Hclaim srv1 Hr (Hrest eq_refl) (rtc_once _ _ Hstep)) as (Hd & _ & _ & Hf & Hs & _). by split_and!.
Defined.

Lemma mux_routes_witness :
  main_mux "/metrics" = Ok (mux_of "/metrics") ∧ mux_match (mux_of "/metrics") "/write" = Some MRouter ∧
  mux_match (mux_of "/metrics") "/admin/election/leader" = Some MRouter.
Proof.
  split; [reflexivity|]. split.
  - apply (mux_routes "/metrics" "/write" _ eq_refl eq_refl eq_refl).
  - apply (mux_routes "/metrics" "/admin/election/leader" _ eq_refl eq_refl eq_refl).
Defined.

End Toy.

End Main.
